(* ===== verification/_CoqProject ===== *)
-Q . S2P
Prelude.v
Wp.v
Merkle.v
Names.v
BlockHeader.v
ForkDb.v
Resources.v
Authority.v
ChainConfig.v
AuthManager.v
AccessLists.v
ApplyContext.v
ContractDb.v
NativeContract.v
Genesis.v
TransactionContext.v
Billing.v
ActionFrame.v
Execution.v
Controller.v
Dimensionlib.v
Token.v
RamMarket.v
System.v
SystemLogic.v
Auctions.v
Staking.v
RamBooks.v
Funds.v
SystemWorld.v
Governance.v
Multisig.v
ForkSwitch.v
Schedule.v
RamLedger.v
