(* ===== verification/Prelude.v ===== *)
(** * DimensionChain: a verification development

    DimensionChain is a blockchain node derived from EOSIO, with the contracts that run on it.  This
    library models the state of the chain, how blocks and transactions change it, and the system
    contracts, and proves what makes them correct.

    ** The program and the files that model it

    Paths are under src/; "chain" is libraries/chain with its headers in include/eosio/chain.

    - Foundations.  This file: exceptions as values ([exception], [result]), code on a store
      ([stM]: a state goes in, a state and a result come out, also when an exception is thrown), machine
      integers as [Z] with their wrap-around ([u32], [i64], ...), sums over and searches in finite maps.
      Wp: weakest preconditions for [stM].
    - Consensus.  Merkle (chain/merkle.cpp, incremental_merkle.hpp), Names (chain/name.cpp), BlockHeader
      (block_timestamp.hpp, producer_schedule.hpp, block_header.cpp, block_header_state.cpp), ForkDb
      (block_state.cpp, fork_database.cpp), Schedule (set_proposed_producers, set_consensus_type,
      update_producers_authority and the part of start_block on schedules in controller.cpp), ForkSwitch
      (maybe_switch_forks, pop_block, commit_block and the frame of apply_block in controller.cpp).
    - Accounts and permissions.  Authority (authority.hpp, authority_checker.hpp), AuthManager
      (authorization_manager.cpp), AccessLists (the white and black lists of controller.cpp),
      NativeContract (eosio_contract.cpp), Genesis (initialize_database of controller.cpp), RamLedger (the
      RAM of accounts over all of the operations that change it).
    - Resources.  Resources (resource_limits.cpp), ChainConfig (chain_config.cpp), Billing (the bill at
      the end of transaction_context::finalize).
    - Transactions.  ApplyContext and ContractDb (apply_context.cpp), TransactionContext
      (transaction_context.cpp, transaction.hpp), ActionFrame (what the code of an action leaves alone),
      Execution (exec of apply_context.cpp and transaction_context.cpp, the intrinsics of
      wasm_interface.cpp that change the chain), Controller (push_transaction,
      push_scheduled_transaction and the loop of apply_block in controller.cpp).
    - Contracts, under contracts/.  Dimensionlib (dimensionlib: names, symbols, assets, tables), Token
      (dimension.token), RamMarket (exchange_state.cpp of dimension.system), System (the actions of
      dimension.system) with SystemLogic, Auctions, Staking, RamBooks, Funds, SystemWorld and Governance
      on it, Multisig (dimension.msig and dimension.sudo).

    A block enters the fork database, which computes its header state (BlockHeader) and picks the best
    head (ForkDb); the controller moves the chain state to it (ForkSwitch), which starts blocks
    (Schedule) and runs their transactions (Controller).  A transaction is checked and billed
    (TransactionContext, Billing), its declared authorizations are checked (AuthManager, Authority),
    and its actions run one after another (Execution) on the tables of accounts, permissions, resources
    and contracts (ApplyContext, ContractDb, NativeContract).  The contracts are modelled on their own
    typed tables; Token and System run together in SystemWorld, where the inline transfers of
    the one run as actions of the other.

    Structs are Records and enums Inductive types with the names of the source.  A member function is a
    function on the Record of the state it changes, with the guards and early returns of the source in
    their order; its exceptions are the values [Throw e] with the type of the exception, without its
    message.  A dereference of a null or dangling pointer or of an end iterator has a value of its own,
    [Throw undefined_behaviour].

    ** What is proved

    - Headers and forks: the irreversible block number is what more than two thirds of the producers
      hold for irreversible; a header is accepted only from the scheduled producer, after its parent and
      with the right signature and schedule; well-formedness is kept along every chain of headers, and
      only schedules that were proposed and granted are promoted, when they are irreversible.  The indexes of the fork database agree
      after any sequence of calls, and the best block becomes its head.  A switch of forks ends on the new
      head or restores the old chain.  Proposed schedules always fit, and the permissions of the
      producers are exact quorums.
    - Authorization: the checker accepts only what the provided keys, permissions and delay satisfy, and
      decides it within its depth limit; the permissions that an accepted transaction declares satisfy
      what its actions require, and inline actions run only when an action that ran has sent them, with
      authorizations that were checked then.
    - The database: the tables of accounts and permissions stay well-formed; the RAM counters are
      the bytes of the objects and rows that exist, but for what genesis, replaced deferred
      transactions and new schedules leave apart; the calls on contract tables refine finite maps, and
      the iterators that may dangle are characterised.
    - Transactions: a failed transaction leaves no trace, an accepted one has exactly the receipt of the
      block, no input transaction runs twice, a deferred one is retired; receipts are numbered in order;
      running actions terminates.  The bill of an input transaction never fails on resource tables within
      stated bounds; that of a failed deferred one fails when an account has used more than its share.
    - Contracts: tokens are conserved; the funds of the system contract cover what it owes; books of
      stakes, RAM and votes are exact; the consensus and the producers change only by a proposal
      with a majority, once, or by the system account; name auctions never close; a multisig proposal
      is sent only if approved, and is sent if the permissions that were requested approved and still
      authorize it.

    ** Fuel and bounds

    Loops that are not structural take fuel.  For remove, prune and the branches of ForkDb it is the
    size of the index plus a constant, for the climb of permissions the size of their table, for the
    recursion of the checker the configured depth, for the dispatch of inline actions the configured
    depth and for the accounts that an action notifies their number (plus two), and for the conversions
    of RamMarket three, one more than they need; theorems in the same files show that none of them
    runs out where its preconditions hold.  The recursion along proxies in System, which need not end,
    has the call depth at which the virtual machine traps.  In Execution running out is [None] and
    thus not an exception.

    ** Parameters

    Code that is not under src/ is a class, with its documented behaviour as a second class of laws:
    hashes, keys and byte order of fc ([Fc], [FcHash], [FcKeyOrder]), packing ([ActionCodec],
    [TransactionCodec], [TrxCodec], [PackSizes], [HeaderCodec]), the indexes of Boost ([OrderedIndex]),
    floating point ([SoftFloat], [Libm]) and the virtual machine ([Wasm], [CodeChecks]).  Every theorem with
    such laws has a witness at concrete instances, which are called toy_...  ForkSwitch has one class
    for code that is modelled elsewhere: [ChainExecution] is the execution of a whole block, and its law,
    that a block which was applied can be applied again, is what the controller relies on
    when it re-applies the blocks of the old fork; it is not derived from Controller.

    ** Not modelled

    - The WebAssembly engine with its validation and injection: what a contract does is a finite tree of
      calls, since the deadline stops every run.  Of the intrinsics, those that only compute or read
      are one constructor; set_proposed_producers and set_consensus_type are in Schedule and not among
      the calls of a running contract, and set_blockchain_parameters is left out, so that the
      configuration is fixed during a transaction.
    - The calls of checktime inside the authorization check; the partial action traces of a failed
      transaction; what a throw leaves behind when the controller runs without undo sessions in
      Controller (the replay of irreversible blocks).
    - Of the controller: block log, snapshots, replay, the reaction to irreversible blocks, signing,
      the merkle roots and the block summary of finalize_block, and the onblock transaction.
    - Serialization and the ABI serializer, which depend on fc.
    - The plugins and programs (network, timers, HTTP, wallets, databases): asynchronous input and
      output around the chain library.
    - The boot contract dimension.bios, whose actions are one intrinsic each, and the sample contracts. *)

From stdpp Require Export numbers gmap prelude.

Global Open Scope Z_scope.
Global Set Default Goal Selector "!".

(** ** Exceptions and the error monad *)

(** The exception types (libraries/chain/include/eosio/chain/exceptions.hpp) that the
    modelled operations throw. *)
Inductive exception :=
| block_validate_exception
| unlinkable_block_exception
| wrong_producer
| producer_schedule_exception
| producer_double_confirm
| producer_not_in_schedule
| wrong_signing_key
| overflow_exception
| fork_database_exception
| fork_db_block_not_found
| name_type_exception
| symbol_type_exception
| asset_type_exception
| resource_limit_exception
| rate_limiting_state_inconsistent
| tx_cpu_usage_exceeded
| tx_net_usage_exceeded
| block_net_usage_exceeded
| greylist_net_usage_exceeded
| block_cpu_usage_exceeded
| greylist_cpu_usage_exceeded
| block_resource_exhausted
| deadline_exception
| leeway_deadline_exception
| expired_tx_exception
| tx_exp_too_far_exception
| invalid_ref_block_exception
| tx_duplicate
| unsupported_feature
| unknown_transaction_exception
| unaccessible_api
| inline_action_too_big
| transaction_exception
| ram_usage_exceeded
| tx_not_found
| action_validate_exception
| action_type_exception
| account_name_exists_exception
| eosio_assert_message_exception
| authorization_exception
| tx_irrelevant_sig
| unsatisfied_authorization
| missing_auth_exception
| irrelevant_auth_exception
| invalid_permission
| unlinkable_min_permission_action
| permission_query_exception
| account_query_exception
| invalid_contract_vm_type
| invalid_contract_vm_version
| set_exact_code
| actor_whitelist_exception
| actor_blacklist_exception
| contract_whitelist_exception
| contract_blacklist_exception
| action_blacklist_exception
| key_blacklist_exception
| subjective_block_production_exception
| deferred_tx_duplicate
| cfa_inside_generated_tx
| tx_no_auths
| invalid_table_payer
| table_access_violation
| table_not_in_cache
| invalid_table_iterator
| table_operation_not_permitted
| db_api_exception
| action_not_found_exception
| unpack_exception
| database_exception
| db_not_found
| db_uniqueness_violation
| wasm_execution_error
| undefined_behaviour
| out_of_fuel.

(** The outcome of an operation that may throw. *)
Inductive result (A : Type) :=
| Ok (a : A)
| Throw (e : exception).
Arguments Ok {A} a.
Arguments Throw {A} e.

Global Instance exception_eq_dec : EqDecision exception.
Proof. solve_decision. Defined.

Global Instance result_ret : MRet result := λ A a, Ok a.
Global Instance result_bind : MBind result := λ A B f m,
  match m with Ok a => f a | Throw e => Throw e end.
Global Instance result_fmap : FMap result := λ A B f m,
  match m with Ok a => Ok (f a) | Throw e => Throw e end.

(** [EOS_ASSERT( cond, exception, ... )] *)
Definition EOS_ASSERT (c : bool) (e : exception) : result unit :=
  if c then Ok tt else Throw e.

Definition of_option {A} (o : option A) (e : exception) : result A :=
  match o with Some a => Ok a | None => Throw e end.

Definition is_ok {A} (r : result A) : bool :=
  match r with Ok _ => true | Throw _ => false end.

(** Code that changes a store and may throw: what it did to the store before it threw stays. *)
Definition stM (S A : Type) : Type := S → S * result A.

Global Instance stM_ret {S} : MRet (stM S) := λ A a s, (s, Ok a).
Global Instance stM_bind {S} : MBind (stM S) := λ A B f m s,
  match m s with
  | (s', Ok a) => f a s'
  | (s', Throw e) => (s', Throw e)
  end.

Definition st_get {S} : stM S S := λ s, (s, Ok s).
Definition st_put {S} (s : S) : stM S unit := λ _, (s, Ok tt).
Definition st_modify {S} (f : S → S) : stM S unit := λ s, (f s, Ok tt).
Definition st_lift {S A} (r : result A) : stM S A := λ s, (s, r).
Definition st_throw {S A} (e : exception) : stM S A := λ s, (s, Throw e).
Definition st_assert {S} (c : bool) (e : exception) : stM S unit := st_lift (EOS_ASSERT c e).

(** ** Machine integers: values of [Z] kept in range by an explicit wrap-around *)
Definition u8 (z : Z) : Z := z mod 2 ^ 8.
Definition u16 (z : Z) : Z := z mod 2 ^ 16.
Definition u32 (z : Z) : Z := z mod 2 ^ 32.
Definition u64 (z : Z) : Z := z mod 2 ^ 64.
Definition u128 (z : Z) : Z := z mod 2 ^ 128.
Definition i32 (z : Z) : Z := (z + 2 ^ 31) mod 2 ^ 32 - 2 ^ 31.
Definition i64 (z : Z) : Z := (z + 2 ^ 63) mod 2 ^ 64 - 2 ^ 63.

Definition UINT32_MAX : Z := 2 ^ 32 - 1.
Definition UINT64_MAX : Z := 2 ^ 64 - 1.
Definition INT64_MAX : Z := 2 ^ 63 - 1.
Definition INT64_MIN : Z := - 2 ^ 63.

(** Ranges of the machine types. *)
Definition in_u8 (z : Z) : Prop := 0 <= z < 2 ^ 8.
Definition in_u16 (z : Z) : Prop := 0 <= z < 2 ^ 16.
Definition in_u32 (z : Z) : Prop := 0 <= z < 2 ^ 32.
Definition in_u64 (z : Z) : Prop := 0 <= z < 2 ^ 64.
Definition in_i64 (z : Z) : Prop := - 2 ^ 63 <= z < 2 ^ 63.

(** ** Lemmas on the error monad *)

Create HintDb chain.

Lemma bind_ok {A B} (m : result A) (f : A → result B) b :
  m ≫= f = Ok b ↔ ∃ a, m = Ok a ∧ f a = Ok b.
Proof. destruct m; simpl; split; naive_solver. Qed.

Lemma bind_throw {A B} (m : result A) (f : A → result B) e :
  m ≫= f = Throw e ↔ m = Throw e ∨ ∃ a, m = Ok a ∧ f a = Throw e.
Proof. destruct m; simpl; split; naive_solver. Qed.

Lemma assert_ok c e u : EOS_ASSERT c e = Ok u ↔ c = true.
Proof. destruct c, u; simpl; split; naive_solver. Qed.

Lemma assert_throw c e e' : EOS_ASSERT c e = Throw e' ↔ c = false ∧ e' = e.
Proof. destruct c; simpl; split; naive_solver. Qed.

Lemma of_option_ok {A} (o : option A) e a : of_option o e = Ok a ↔ o = Some a.
Proof. destruct o; simpl; split; naive_solver. Qed.

Lemma of_option_throw {A} (o : option A) e e' :
  of_option o e = Throw e' ↔ o = None ∧ e' = e.
Proof. destruct o; simpl; split; naive_solver. Qed.

Lemma st_bind_ok {S A B} (m : stM S A) (f : A → stM S B) s s' b :
  (m ≫= f) s = (s', Ok b) ↔ ∃ s1 a, m s = (s1, Ok a) ∧ f a s1 = (s', Ok b).
Proof.
  unfold mbind, stM_bind. destruct (m s) as [s1 [a|e]]; split; naive_solver.
Qed.

Lemma st_bind_run {S A B} (m : stM S A) (f : A → stM S B) s s1 a :
  m s = (s1, Ok a) → (m ≫= f) s = f a s1.
Proof. unfold mbind, stM_bind. by intros ->. Qed.

Lemma st_bind_throw {S A B} (m : stM S A) (f : A → stM S B) s s1 e :
  m s = (s1, Throw e) → (m ≫= f) s = (s1, Throw e).
Proof. unfold mbind, stM_bind. by intros ->. Qed.

Lemma st_get_run {S B} (f : S → stM S B) s : (st_get ≫= f) s = f s s.
Proof. done. Qed.

Lemma st_ret_run {S A B} (a : A) (f : A → stM S B) s : ((mret a : stM S A) ≫= f) s = f a s.
Proof. done. Qed.

Lemma st_modify_run {S B} (g : S → S) (f : unit → stM S B) s : (st_modify g ≫= f) s = f tt (g s).
Proof. done. Qed.

Lemma st_lift_run {S A B} (a : A) (f : A → stM S B) s : (st_lift (Ok a) ≫= f) s = f a s.
Proof. done. Qed.

(** Code that does not throw [e] composes. *)
Lemma st_bind_not_throw {S A B} (m : stM S A) (f : A → stM S B) s e :
  (m s).2 ≠ Throw e → (∀ s' a, m s = (s', Ok a) → (f a s').2 ≠ Throw e) →
  ((m ≫= f) s).2 ≠ Throw e.
Proof.
  intros Hm Hf. unfold mbind, stM_bind. destruct (m s) as [s' [a|e']] eqn:E; [by apply Hf|].
  simpl in *. congruence.
Qed.

Lemma st_lift_ok {S A} (r : result A) (s s' : S) a :
  st_lift r s = (s', Ok a) ↔ r = Ok a ∧ s' = s.
Proof. unfold st_lift. naive_solver. Qed.

Lemma st_assert_ok {S} c e (s s' : S) u :
  st_assert c e s = (s', Ok u) ↔ c = true ∧ s' = s.
Proof. unfold st_assert. by rewrite st_lift_ok, assert_ok. Qed.

Lemma st_get_ok {S} (s s' a : S) : st_get s = (s', Ok a) ↔ s' = s ∧ a = s.
Proof. unfold st_get. naive_solver. Qed.

Lemma st_put_ok {S} (s s' a : S) u : st_put a s = (s', Ok u) ↔ s' = a.
Proof. unfold st_put. destruct u. naive_solver. Qed.

Lemma st_modify_ok {S} (f : S → S) (s s' : S) u : st_modify f s = (s', Ok u) ↔ s' = f s.
Proof. unfold st_modify. destruct u. naive_solver. Qed.

Lemma st_ret_ok {S A} (a b : A) (s s' : S) :
  (mret a : stM S A) s = (s', Ok b) ↔ s' = s ∧ b = a.
Proof. unfold mret, stM_ret. naive_solver. Qed.

(** Turns a successful run of store code into the equations of its steps. *)
Ltac inv_st :=
  repeat (match goal with
  | H : (_ ≫= _) _ = (_, Ok _) |- _ =>
      let s := fresh "s" in let a := fresh "r" in let H1 := fresh "Hrun" in
      apply st_bind_ok in H as (s & a & H1 & H)
  | H : st_lift _ _ = (_, Ok _) |- _ => apply st_lift_ok in H as [? ?]; subst
  | H : st_assert _ _ _ = (_, Ok _) |- _ => apply st_assert_ok in H as [? ?]; subst
  | H : st_get _ = (_, Ok _) |- _ => apply st_get_ok in H as [? ?]; subst
  | H : st_put _ _ = (_, Ok _) |- _ => apply st_put_ok in H; subst
  | H : st_modify _ _ = (_, Ok _) |- _ => apply st_modify_ok in H; subst
  | H : st_throw _ _ = (_, Ok _) |- _ => discriminate H
  | H : mret _ _ = (_, Ok _) |- _ => apply st_ret_ok in H as [? ?]; subst
  | H : of_option _ _ = Ok _ |- _ => apply of_option_ok in H
  end).

(** A property of the store that store code keeps, whether it returns or throws. *)
Definition st_preserves {S A} (I : S → Prop) (m : stM S A) : Prop :=
  ∀ s, I s → I (m s).1.

Section st_preserves.
Context {S : Type} (I : S → Prop).

Lemma st_preserves_bind {A B} (m : stM S A) (f : A → stM S B) :
  st_preserves I m → (∀ a, st_preserves I (f a)) → st_preserves I (m ≫= f).
Proof.
  intros Hm Hf s Hs. specialize (Hm s Hs). unfold mbind, stM_bind.
  destruct (m s) as [s' [a|e]]; [by apply Hf|done].
Qed.

Lemma st_preserves_get {B} (f : S → stM S B) :
  (∀ s, I s → I (f s s).1) → st_preserves I (st_get ≫= f).
Proof. intros Hf s Hs. by apply Hf. Qed.

Lemma st_preserves_ret {A} (a : A) : st_preserves I (mret a).
Proof. by intros s Hs. Qed.

Lemma st_preserves_read : st_preserves I st_get.
Proof. by intros s Hs. Qed.

Lemma st_preserves_lift {A} (r : result A) : st_preserves I (st_lift r).
Proof. by intros s Hs. Qed.

Lemma st_preserves_throw {A} e : st_preserves I (st_throw (A:=A) e).
Proof. by intros s Hs. Qed.

Lemma st_preserves_assert c e : st_preserves I (st_assert c e).
Proof. apply st_preserves_lift. Qed.

Lemma st_preserves_modify (f : S → S) :
  (∀ s, I s → I (f s)) → st_preserves I (st_modify f).
Proof. intros Hf s Hs. by apply Hf. Qed.

End st_preserves.

#[export] Hint Resolve st_preserves_bind st_preserves_ret st_preserves_read st_preserves_lift
  st_preserves_throw st_preserves_assert st_preserves_modify : chain.

(** Turns a successful run of monadic code into the equations of its steps. *)
Ltac inv_ok :=
  repeat (match goal with
  | H : (_ ≫= _) = Ok _ |- _ =>
      let a := fresh "r" in let H1 := fresh "Hrun" in
      apply bind_ok in H as (a & H1 & H); simpl in H
  | H : EOS_ASSERT _ _ = Ok _ |- _ => apply assert_ok in H
  | H : of_option _ _ = Ok _ |- _ => apply of_option_ok in H
  | H : Ok _ = Ok _ |- _ => injection H as H; subst
  | H : mret _ = Ok _ |- _ => injection H as H; subst
  | H : Throw _ = Ok _ |- _ => discriminate H
  | H : (if ?c then _ else Throw _) = Ok _ |- _ => destruct c eqn:?; [|discriminate H]
  | H : (if ?c then Throw _ else _) = Ok _ |- _ => destruct c eqn:?; [discriminate H|]
  end).

(** Reflects boolean comparisons in the context into propositions. *)
Ltac reflect_bools :=
  repeat match goal with
  | H : _ && _ = true |- _ => apply andb_true_iff in H as [? ?]
  | H : _ || _ = false |- _ => apply orb_false_iff in H as [? ?]
  | H : negb _ = true |- _ => apply negb_true_iff in H
  | H : negb _ = false |- _ => apply negb_false_iff in H
  | H : (_ <=? _) = true |- _ => apply Z.leb_le in H
  | H : (_ <=? _) = false |- _ => apply Z.leb_gt in H
  | H : (_ <? _) = true |- _ => apply Z.ltb_lt in H
  | H : (_ <? _) = false |- _ => apply Z.ltb_ge in H
  | H : (_ =? _) = true |- _ => apply Z.eqb_eq in H
  | H : (_ =? _) = false |- _ => apply Z.eqb_neq in H
  | H : (_ =? _)%nat = true |- _ => apply Nat.eqb_eq in H
  | H : (_ =? _)%nat = false |- _ => apply Nat.eqb_neq in H
  | H : (_ <=? _)%nat = true |- _ => apply Nat.leb_le in H
  | H : (_ <=? _)%nat = false |- _ => apply Nat.leb_gt in H
  | H : (_ <? _)%nat = true |- _ => apply Nat.ltb_lt in H
  | H : (_ <? _)%nat = false |- _ => apply Nat.ltb_ge in H
  | H : bool_decide _ = true |- _ => apply bool_decide_eq_true_1 in H
  | H : bool_decide _ = false |- _ => apply bool_decide_eq_false_1 in H
  end.

(** ** Lemmas on machine integers *)

Lemma u32_small z : 0 <= z < 2 ^ 32 → u32 z = z.
Proof. intros. unfold u32. by rewrite Z.mod_small. Qed.

Lemma u64_small z : 0 <= z < 2 ^ 64 → u64 z = z.
Proof. intros. unfold u64. by rewrite Z.mod_small. Qed.

Lemma u128_small z : 0 <= z < 2 ^ 128 → u128 z = z.
Proof. intros. unfold u128. by rewrite Z.mod_small. Qed.

Lemma u8_small z : 0 <= z < 2 ^ 8 → u8 z = z.
Proof. intros. unfold u8. by rewrite Z.mod_small. Qed.

Lemma i64_small z : in_i64 z → i64 z = z.
Proof. intros []. unfold i64. rewrite Z.mod_small; lia. Qed.

Lemma u32_range z : in_u32 (u32 z).
Proof. apply Z.mod_pos_bound. lia. Qed.

Lemma u64_range z : in_u64 (u64 z).
Proof. apply Z.mod_pos_bound. lia. Qed.

Lemma u8_range z : in_u8 (u8 z).
Proof. apply Z.mod_pos_bound. lia. Qed.

Lemma i64_in z : in_i64 (i64 z).
Proof. unfold in_i64, i64. pose proof (Z.mod_pos_bound (z + 2 ^ 63) (2 ^ 64)). lia. Qed.

Lemma land_high_low h k a : 0 <= a < 2 ^ k → 0 <= k → Z.land (h * 2 ^ k) a = 0.
Proof.
  intros Ha Hk. destruct (decide (a = 0)) as [->|]; [apply Z.land_0_r|].
  apply Z.bits_inj'. intros i Hi. rewrite Z.land_spec, Z.bits_0.
  destruct (decide (i < k)).
  { by rewrite Z.mul_pow2_bits_low. }
  rewrite andb_comm, (Z.bits_above_log2 a), andb_false_l; [done|lia|].
  apply (Z.lt_le_trans _ k); [apply Z.log2_lt_pow2; lia|lia].
Qed.

Lemma lor_add_disjoint h k a : 0 <= a < 2 ^ k → 0 <= k → Z.lor (h * 2 ^ k) a = h * 2 ^ k + a.
Proof.
  intros Ha Hk. assert (Z.land (h * 2 ^ k) a = 0) by by apply land_high_low.
  by rewrite <-Z.lxor_lor, Z.add_nocarry_lxor.
Qed.

#[export] Hint Resolve u32_range u64_range u8_range : chain.

(** ** Lemmas on lists *)

Lemma forallb_Forall {A} (f : A → bool) l : forallb f l = true ↔ Forall (λ x, f x = true) l.
Proof.
  induction l as [|x l IH]; simpl; [done|]. by rewrite andb_true_iff, Forall_cons, IH.
Qed.

Lemma filter_all {A} (P : A → Prop) `{!∀ x, Decision (P x)} l : Forall P l → filter P l = l.
Proof. induction 1 as [|x l Hx _ IH]; [done|]. by rewrite filter_cons_True, IH. Qed.

Lemma filter_iff_in {A} (P Q : A → Prop) `{!∀ x, Decision (P x), !∀ x, Decision (Q x)} (l : list A) :
  (∀ x, x ∈ l → P x ↔ Q x) → filter P l = filter Q l.
Proof.
  induction l as [|x l IH]; intros HPQ; [done|]. rewrite !filter_cons.
  rewrite IH by (intros y Hy; apply HPQ; by right).
  assert (P x ↔ Q x) by (apply HPQ; left).
  destruct (decide (P x)), (decide (Q x)); tauto.
Qed.

(** ** Sums over finite maps *)

Definition msum {K A} `{Countable K} (f : K → A → Z) (m : gmap K A) : Z :=
  map_fold (λ k a acc, f k a + acc) 0 m.

Section msum.
Context {K A : Type} `{Countable K} (f : K → A → Z).
Implicit Types m : gmap K A.

Lemma msum_empty : msum f ∅ = 0.
Proof. apply map_fold_empty. Qed.

Lemma msum_insert_None m k a : m !! k = None → msum f (<[k := a]> m) = f k a + msum f m.
Proof. intros Hk. unfold msum. rewrite map_fold_insert_L; [done|intros; lia|done]. Qed.

Lemma msum_delete m k a : m !! k = Some a → msum f m = f k a + msum f (delete k m).
Proof. intros Hk. unfold msum. rewrite (map_fold_delete_L _ _ k a); [done|intros; lia|done]. Qed.

Lemma msum_delete_None m k : m !! k = None → msum f (delete k m) = msum f m.
Proof. intros Hk. by rewrite delete_id. Qed.

Lemma msum_insert m k a :
  msum f (<[k := a]> m) = msum f m + f k a - from_option (f k) 0 (m !! k).
Proof.
  destruct (m !! k) as [b|] eqn:Hk; simpl.
  - rewrite <-insert_delete_eq, msum_insert_None by apply lookup_delete_eq.
    rewrite (msum_delete m k b) by done. lia.
  - rewrite msum_insert_None by done. lia.
Qed.

Lemma msum_delete_any m k : msum f (delete k m) = msum f m - from_option (f k) 0 (m !! k).
Proof.
  destruct (m !! k) as [b|] eqn:Hk; simpl.
  - rewrite (msum_delete m k b) by done. lia.
  - rewrite msum_delete_None by done. lia.
Qed.

Lemma msum_nonneg m : (∀ k a, 0 <= f k a) → 0 <= msum f m.
Proof.
  intros Hf. induction m as [|k a m Hk IH] using map_ind; [by rewrite msum_empty|].
  rewrite msum_insert_None by done. specialize (Hf k a). lia.
Qed.

Lemma msum_zero m : (∀ k a, m !! k = Some a → f k a = 0) → msum f m = 0.
Proof.
  induction m as [|k a m Hk IH] using map_ind; intros H0; [by rewrite msum_empty|].
  rewrite msum_insert_None, IH, (H0 k a) by (done || apply lookup_insert_eq || (intros k' a' Hk'; apply H0;
    rewrite lookup_insert_ne; congruence)). lia.
Qed.

Lemma msum_ge m k a : (∀ k a, 0 <= f k a) → m !! k = Some a → f k a <= msum f m.
Proof.
  intros Hf Hk. rewrite (msum_delete m k a) by done.
  pose proof (msum_nonneg (delete k m) Hf). lia.
Qed.

End msum.

Lemma msum_le {K A} `{Countable K} (f g : K → A → Z) (m : gmap K A) :
  (∀ k a, m !! k = Some a → f k a <= g k a) → msum f m <= msum g m.
Proof.
  induction m as [|k a m Hk IH] using map_ind; intros Hfg; [by rewrite !msum_empty|].
  rewrite !msum_insert_None by done.
  assert (f k a <= g k a) by (apply Hfg; by rewrite lookup_insert_eq).
  assert (msum f m <= msum g m); [|lia].
  apply IH. intros k' a' Hk'. apply Hfg. rewrite lookup_insert_ne; [done|]. congruence.
Qed.

Lemma msum_nonneg_in {K A} `{Countable K} (f : K → A → Z) (m : gmap K A) :
  (∀ k a, m !! k = Some a → 0 <= f k a) → 0 <= msum f m.
Proof. intros Hf. rewrite <-(msum_zero (λ _ _, 0) m) by done. by apply msum_le. Qed.

Lemma msum_scale {K A} `{Countable K} (f : K → A → Z) c (m : gmap K A) :
  msum (λ k a, c * f k a) m = c * msum f m.
Proof.
  induction m as [|k a m Hk IH] using map_ind; [rewrite !msum_empty; lia|].
  rewrite !msum_insert_None by done. lia.
Qed.

(** ** Lookups in a table by a property of the row, and chains of descending keys *)

(** What a secondary index of a table is used for. *)
Definition map_find {K A} `{Countable K} (P : K * A → Prop) `{!∀ x, Decision (P x)} (m : gmap K A)
    : option (K * A) :=
  snd <$> list_find P (map_to_list m).

Section map_find.
Context {K A} `{Countable K} (P : K * A → Prop) `{!∀ x, Decision (P x)}.
Implicit Types m : gmap K A.

Lemma map_find_Some_1 m k a : map_find P m = Some (k, a) → m !! k = Some a ∧ P (k, a).
Proof.
  unfold map_find. destruct (list_find P _) as [[i ka]|] eqn:E; simpl; [|done]. intros [= ->].
  apply list_find_Some in E as (Hl & HP & _). split; [|done].
  apply elem_of_map_to_list. by eapply list_elem_of_lookup_2.
Qed.

Lemma map_find_None m : map_find P m = None ↔ ∀ k a, m !! k = Some a → ¬ P (k, a).
Proof.
  unfold map_find. rewrite fmap_None, list_find_None, Forall_forall. split.
  - intros Hall k a Hk. apply Hall. by apply elem_of_map_to_list.
  - intros Hall [k a] Hk. apply Hall. by apply elem_of_map_to_list.
Qed.

Lemma map_find_unique m k a :
  m !! k = Some a → P (k, a) → (∀ k' a', m !! k' = Some a' → P (k', a') → k' = k) →
  map_find P m = Some (k, a).
Proof.
  intros Hk HP Huniq. destruct (map_find P m) as [[k' a']|] eqn:E.
  - apply map_find_Some_1 in E as [Hk' HP']. assert (k' = k) as -> by eauto. by simplify_eq.
  - by destruct (proj1 (map_find_None m) E k a).
Qed.

End map_find.

(** The rows with a key below [z]: the measure of a walk along descending keys. *)
Definition rows_below {A} (m : gmap Z A) (z : Z) : gmap Z A := filter (λ ka, ka.1 < z) m.

Lemma rows_below_lt {A} (m : gmap Z A) x y a :
  m !! x = Some a → x < y → (size (rows_below m x) < size (rows_below m y))%nat.
Proof.
  intros Hx Hxy. apply map_subset_size. split.
  - apply map_filter_subseteq_ext. simpl. lia.
  - intros Hsub. eapply lookup_weaken in Hsub; [|apply map_lookup_filter_Some_2; [exact Hx|exact Hxy]].
    apply map_lookup_filter_Some in Hsub as [_ Hlt]. simpl in Hlt. lia.
Qed.

Lemma rows_below_le {A} (m : gmap Z A) x : (size (rows_below m x) ≤ size m)%nat.
Proof. apply map_subseteq_size, map_filter_subseteq. Qed.

(** ** Ordered indexes *)

(** The least row, in the order [lt], among those that satisfy [P]: what lower_bound, upper_bound
    and the increment of an iterator of an ordered index compute; with [lt] reversed, the
    decrement. *)
Definition min_row {K A} `{Countable K} (lt : A → A → bool) (P : A → bool) (m : gmap K A)
    : option (K * A) :=
  foldr (λ x acc,
    if P x.2 then
      match acc with
      | Some y => if lt y.2 x.2 then acc else Some x
      | None => Some x
      end
    else acc) None (map_to_list m).

Section min_row.
Context {K A} `{Countable K} (lt : A → A → bool) (P : A → bool).
Implicit Types m : gmap K A.

Lemma min_row_None m : min_row lt P m = None ↔ ∀ k a, m !! k = Some a → P a = false.
Proof.
  unfold min_row. setoid_rewrite <-elem_of_map_to_list. induction (map_to_list m) as [|[k a] l IH]; simpl.
  { split; [|done]. intros _ k a Hin. by apply elem_of_nil in Hin. }
  destruct (P a) eqn:E.
  - split; [destruct (foldr _ _ l); [destruct (lt _ _)|]; done|].
    intros Hall. specialize (Hall k a ltac:(by left)). congruence.
  - rewrite IH. split.
    + intros Hall k' a' [[= -> ->]|Hin]%elem_of_cons; eauto.
    + intros Hall k' a' Hin. eapply Hall. by right.
Qed.

Lemma min_row_elem m k a : min_row lt P m = Some (k, a) → m !! k = Some a ∧ P a = true.
Proof.
  unfold min_row. rewrite <-elem_of_map_to_list. revert k a.
  induction (map_to_list m) as [|[k0 a0] l IH]; intros k a; simpl; [done|].
  destruct (P a0) eqn:E; [destruct (foldr _ _ l) as [[k1 a1]|] eqn:Ef; [simpl; destruct (lt a1 a0) eqn:El|]|].
  - intros [= -> ->]. destruct (IH _ _ eq_refl). split; [by right|done].
  - intros [= -> ->]. split; [by left|done].
  - intros [= -> ->]. split; [by left|done].
  - intros H'. destruct (IH _ _ H'). split; [by right|done].
Qed.

(** For a strict weak order. *)
Context (lt_irrefl : ∀ a, lt a a = false).
Context (lt_trans : ∀ a b c, lt a b = true → lt b c = true → lt a c = true).
Context (lt_weak : ∀ a b c, lt b a = false → lt c b = false → lt c a = false).

Lemma min_row_Some m k a :
  min_row lt P m = Some (k, a) →
  m !! k = Some a ∧ P a = true ∧ ∀ k' a', m !! k' = Some a' → P a' = true → lt a' a = false.
Proof.
  unfold min_row. setoid_rewrite <-elem_of_map_to_list. revert k a.
  induction (map_to_list m) as [|[k0 a0] l IH]; intros k a; simpl; [done|].
  destruct (P a0) eqn:E; [destruct (foldr _ _ l) as [[k1 a1]|] eqn:Ef; [simpl; destruct (lt a1 a0) eqn:El|]|].
  - intros [= -> ->]. destruct (IH _ _ eq_refl) as (Hin & HP & Hmin).
    split; [by right|]. split; [done|]. intros k' a' [[= -> ->]|Hin']%elem_of_cons HP'; [|eauto].
    destruct (lt a0 a) eqn:E1; [|done]. rewrite <-(lt_irrefl a). symmetry. by eapply lt_trans.
  - intros [= -> ->]. destruct (IH _ _ eq_refl) as (Hin & HP & Hmin).
    split; [by left|]. split; [done|]. intros k' a' [[= -> ->]|Hin']%elem_of_cons HP'; [done|].
    eapply lt_weak; [exact El|]. eauto.
  - intros [= -> ->]. split; [by left|]. split; [done|].
    intros k' a' [[= -> ->]|Hin']%elem_of_cons HP'; [done|]. exfalso.
    assert (∀ l : list (K * A), foldr (λ x acc, if P x.2 then match acc with
        Some y => if lt y.2 x.2 then acc else Some x | None => Some x end else acc) None l = None →
        ∀ x, x ∈ l → P x.2 = false) as Hnone.
    { clear. induction l as [|x l IH]; simpl; [by intros _ x Hx%elem_of_nil|].
      destruct (P x.2) eqn:E; [destruct (foldr _ _ l); [destruct (lt _ _)|]; done|].
      intros Hf y [->|Hy]%elem_of_cons; eauto. }
    specialize (Hnone l Ef _ Hin'). simpl in Hnone. congruence.
  - intros Hf. destruct (IH _ _ Hf) as (Hin & HP & Hmin). split; [by right|]. split; [done|].
    intros k' a' [[= -> ->]|Hin']%elem_of_cons HP'; [congruence|eauto].
Qed.

End min_row.

(** ** Reachability *)
Lemma rtc_preserves {A} (R : relation A) (P : A → Prop) x y :
  (∀ a b, P a → R a b → P b) → P x → rtc R x y → P y.
Proof. intros Hstep Hx H. revert Hx. induction H as [|a b c Hab _ IH]; eauto. Qed.
