(* ===== verification/Wp.v ===== *)
(** * Weakest preconditions

    A calculus for code that changes a store and may throw: [wp m Q s] says that if [m] returns from
    [s], the result and the new store satisfy [Q]. *)

From S2P Require Import Prelude.

Definition wp {S A} (m : stM S A) (Q : A → S → Prop) (s : S) : Prop :=
  match m s with (s', Ok a) => Q a s' | (_, Throw _) => True end.

Section wp.
Context {S : Type}.
Implicit Types (s : S).

Lemma wp_run {A} (m : stM S A) Q s : wp m Q s ↔ ∀ s' a, m s = (s', Ok a) → Q a s'.
Proof. unfold wp. destruct (m s) as [s' [a|e]]; naive_solver. Qed.

Lemma wp_mono {A} (m : stM S A) (Q Q' : A → S → Prop) s :
  wp m Q s → (∀ a s', Q a s' → Q' a s') → wp m Q' s.
Proof. rewrite !wp_run. eauto. Qed.

Lemma wp_and {A} (m : stM S A) (Q Q' : A → S → Prop) s :
  wp m Q s → wp m Q' s → wp m (λ a s', Q a s' ∧ Q' a s') s.
Proof. rewrite !wp_run. eauto. Qed.

Lemma wp_bind {A B} (m : stM S A) (f : A → stM S B) Q s :
  wp m (λ a s', wp (f a) Q s') s → wp (m ≫= f) Q s.
Proof. rewrite !wp_run. intros H s' b (s1 & a & H1 & H2)%st_bind_ok. specialize (H _ _ H1). rewrite wp_run in H. eauto. Qed.

Lemma wp_ret {A} (a : A) Q s : Q a s → wp (mret a) Q s.
Proof. done. Qed.
Lemma wp_get Q s : Q s s → wp st_get Q s.
Proof. done. Qed.
Lemma wp_put s' Q s : Q tt s' → wp (st_put s') Q s.
Proof. done. Qed.
Lemma wp_modify f Q s : Q tt (f s) → wp (st_modify f) Q s.
Proof. done. Qed.
Lemma wp_throw {A} e (Q : A → S → Prop) s : wp (st_throw e) Q s.
Proof. done. Qed.
Lemma wp_lift {A} (r : result A) Q s : (∀ a, r = Ok a → Q a s) → wp (st_lift r) Q s.
Proof. unfold wp, st_lift. destruct r; eauto. Qed.
Lemma wp_st_assert c e Q s : (c = true → Q tt s) → wp (st_assert c e) Q s.
Proof. intros H. apply wp_lift. intros [] Ha. inv_ok. by apply H. Qed.
End wp.

(** The store after a run that returns. *)
Lemma run_fst {S A} (m : stM S A) s a : (m s).2 = Ok a → m s = ((m s).1, Ok a).
Proof. intros <-. apply surjective_pairing. Qed.

#[global] Arguments wp : simpl never.

(** One step of code that is written with the operations of the store. *)
Ltac wp_basic :=
  lazymatch goal with
  | |- wp (_ ≫= _) _ _ => apply wp_bind
  | |- wp (mret _) _ _ => apply wp_ret
  | |- wp st_get _ _ => apply wp_get
  | |- wp (st_put _) _ _ => apply wp_put
  | |- wp (st_modify _) _ _ => apply wp_modify
  | |- wp (st_throw _) _ _ => apply wp_throw
  | |- wp (st_assert _ _) _ _ => apply wp_st_assert; intros ?
  | |- wp (st_lift _) _ _ => apply wp_lift; intros ? ?
  | |- wp (if ?c then _ else _) _ _ => destruct c eqn:?
  | |- wp (match ?x with _ => _ end) _ _ => destruct x eqn:?
  end; cbv beta.

(** A call of code for which a specification is known. *)
Ltac wp_call spec :=
  lazymatch goal with
  | |- wp (_ ≫= _) _ _ => apply wp_bind
  | _ => idtac
  end; eapply wp_mono; [apply spec|cbv beta; intros ? ? ?].
