(* ===== verification/Merkle.v ===== *)
(** * Merkle roots

    Models libraries/chain/merkle.cpp and include/eosio/chain/{merkle,incremental_merkle}.hpp:
    the canonical left/right marking of digests, the batch root [merkle] with its in-place
    vector loop, the bit tricks that compute the depth of the incremental tree, and the
    incremental tree itself.  The hash function ([digest_type::hash] of a pair, from the fc
    library) is a parameter.

    Results: the in-place loop computes one level of the reference tree; the depth computation is exact;
    appending one leaf at a time keeps, after every append, the root of the reference tree on all the
    leaves, and [merkle] computes the same while its int indexes do not overflow. *)

From S2P Require Import Prelude.

(** ** Digests *)

(** fc::sha256, as the four 64-bit words of its [_hash] array. *)
Record digest := Digest { _hash0 : Z; _hash1 : Z; _hash2 : Z; _hash3 : Z }.

Global Instance digest_eq_dec : EqDecision digest.
Proof. solve_decision. Defined.

Global Instance digest_countable : Countable digest.
Proof.
  apply (inj_countable' (λ d, (_hash0 d, _hash1 d, _hash2 d, _hash3 d))
    (λ '(a, b, c, d), Digest a b c d)).
  by intros [].
Defined.

(** [digest_type()]: all words zero. *)
Definition digest_zero : digest := Digest 0 0 0 0.

Global Instance digest_inhabited : Inhabited digest := populate digest_zero.

(** Every word of the digest is a uint64. *)
Definition digest_wf (d : digest) : Prop :=
  in_u64 (_hash0 d) ∧ in_u64 (_hash1 d) ∧ in_u64 (_hash2 d) ∧ in_u64 (_hash3 d).

Definition set_hash0 (d : digest) (w : Z) : digest :=
  Digest w (_hash1 d) (_hash2 d) (_hash3 d).

Definition make_canonical_left (val : digest) : digest :=
  set_hash0 val (Z.land (_hash0 val) 0xFFFFFFFFFFFFFF7F).

Definition make_canonical_right (val : digest) : digest :=
  set_hash0 val (Z.lor (_hash0 val) 0x0000000000000080).

Definition is_canonical_left (val : digest) : bool :=
  Z.land (_hash0 val) 0x0000000000000080 =? 0.

Definition is_canonical_right (val : digest) : bool :=
  negb (Z.land (_hash0 val) 0x0000000000000080 =? 0).

Definition make_canonical_pair (l r : digest) : digest * digest :=
  (make_canonical_left l, make_canonical_right r).

(** ** Depth of the incremental tree *)

Definition next_power_of_2 (value : Z) : Z :=
  let value := u64 (value - 1) in
  let value := Z.lor value (Z.shiftr value 1) in
  let value := Z.lor value (Z.shiftr value 2) in
  let value := Z.lor value (Z.shiftr value 4) in
  let value := Z.lor value (Z.shiftr value 8) in
  let value := Z.lor value (Z.shiftr value 16) in
  let value := Z.lor value (Z.shiftr value 32) in
  u64 (value + 1).

Definition nonzero (z : Z) : bool := negb (z =? 0).

Definition clz_power_2 (value : Z) : Z :=
  let lz := 64 in
  let lz := if nonzero value then lz - 1 else lz in
  let lz := if nonzero (Z.land value 0x00000000FFFFFFFF) then lz - 32 else lz in
  let lz := if nonzero (Z.land value 0x0000FFFF0000FFFF) then lz - 16 else lz in
  let lz := if nonzero (Z.land value 0x00FF00FF00FF00FF) then lz - 8 else lz in
  let lz := if nonzero (Z.land value 0x0F0F0F0F0F0F0F0F) then lz - 4 else lz in
  let lz := if nonzero (Z.land value 0x3333333333333333) then lz - 2 else lz in
  let lz := if nonzero (Z.land value 0x5555555555555555) then lz - 1 else lz in
  lz.

Definition calcluate_max_depth (node_count : Z) : Z :=
  if node_count =? 0 then 0
  else
    let implied_count := next_power_of_2 node_count in
    clz_power_2 implied_count + 1.

(** ** The two ways of computing a root *)

Section merkle.
(** [digest_type::hash] applied to a pair of digests. *)
Context (hash_pair : digest * digest → digest).

Definition node_hash (l r : digest) : digest := hash_pair (make_canonical_pair l r).

(** The [for] loop of [merkle], from [i] for [n] more iterations, updating [ids] in place.
    An access past the end of the vector is undefined behaviour, and so is an index that is too large
    for the [int] that [2 * i + 1] is computed in. *)
Fixpoint merkle_for (n i : nat) (ids : list digest) : result (list digest) :=
  match n with
  | O => Ok ids
  | S n =>
      _ ← (if Z.of_nat (2 * i + 1) <? 2 ^ 31 then Ok tt else Throw undefined_behaviour);
      l ← of_option (ids !! (2 * i)%nat) undefined_behaviour;
      r ← of_option (ids !! (2 * i + 1)%nat) undefined_behaviour;
      merkle_for n (S i) (<[i := node_hash l r]> ids)
  end.

(** One iteration of the [while] loop of [merkle]. *)
Definition merkle_round (ids : list digest) : result (list digest) :=
  let ids := if Nat.odd (length ids) then ids ++ option_list (last ids) else ids in
  let half := Nat.div2 (length ids) in
  ids ← merkle_for half 0 ids;
  mret (take half ids).

Fixpoint merkle_while (fuel : nat) (ids : list digest) : result (list digest) :=
  if (1 <? length ids)%nat then
    match fuel with
    | O => Throw out_of_fuel
    | S fuel => ids ← merkle_round ids; merkle_while fuel ids
    end
  else mret ids.

Definition merkle (ids : list digest) : result digest :=
  if (length ids =? 0)%nat then mret digest_zero
  else
    ids ← merkle_while (length ids) ids;
    of_option (head ids) undefined_behaviour.

(** incremental_merkle_impl *)
Record incremental_merkle := IncrementalMerkle {
  _node_count : Z;
  _active_nodes : list digest;
}.

Definition empty_merkle : incremental_merkle := IncrementalMerkle 0 [].

(** The [while (current_depth > 0)] loop of [append]; [active_iter] is the rest of the old
    active nodes and [updated] the new ones so far.  Dereferencing the end iterator is
    undefined behaviour. *)
Fixpoint append_loop (current_depth : nat) (index : Z) (top : digest) (partial : bool)
    (active_iter updated : list digest) : result (digest * list digest) :=
  match current_depth with
  | O => Ok (top, updated)
  | S current_depth =>
      if Z.land index 1 =? 0 then
        let updated := if partial then updated else updated ++ [top] in
        append_loop current_depth (Z.shiftr index 1) (node_hash top top) true
          active_iter updated
      else
        match active_iter with
        | [] => Throw undefined_behaviour
        | left_value :: active_iter =>
            let updated := if partial then updated ++ [left_value] else updated in
            append_loop current_depth (Z.shiftr index 1) (node_hash left_value top) partial
              active_iter updated
        end
  end.

Definition append (m : incremental_merkle) (d : digest) : result incremental_merkle :=
  let max_depth := calcluate_max_depth (u64 (_node_count m + 1)) in
  '(top, updated) ← append_loop (Z.to_nat (max_depth - 1)) (_node_count m) d false
      (_active_nodes m) [];
  mret (IncrementalMerkle (u64 (_node_count m + 1)) (updated ++ [top])).

Definition get_root (m : incremental_merkle) : result digest :=
  if 0 <? _node_count m then of_option (last (_active_nodes m)) undefined_behaviour
  else mret digest_zero.

(** Appends the digests of a list in order. *)
Fixpoint append_all (m : incremental_merkle) (ds : list digest) : result incremental_merkle :=
  match ds with
  | [] => mret m
  | d :: ds => m ← append m d; append_all m ds
  end.

(** ** Reference tree *)

(** One level up, an odd last node being paired with itself. *)
Fixpoint level_up (l : list digest) : list digest :=
  match l with
  | [] => []
  | [x] => [node_hash x x]
  | x :: y :: l => node_hash x y :: level_up l
  end.

(** One level up, keeping only the nodes whose two children are realized. *)
Fixpoint level_full (l : list digest) : list digest :=
  match l with
  | x :: y :: l => node_hash x y :: level_full l
  | _ => []
  end.

(** The root of a tree of depth [d]. *)
Fixpoint tree_root (d : nat) (l : list digest) : digest :=
  match d with
  | O => hd digest_zero l
  | S d => tree_root d (level_up l)
  end.

(** The number of levels above the leaves of the minimal tree holding [n] leaves. *)
Definition tree_depth (n : nat) : nat := Z.to_nat (Z.log2_up (Z.of_nat n)).

(** The reference root. *)
Definition ref_root (l : list digest) : digest := tree_root (tree_depth (length l)) l.

(** The realized "left" nodes that later appends need, lowest level first. *)
Fixpoint left_nodes (d : nat) (l : list digest) : list digest :=
  match d with
  | O => []
  | S d => (if Nat.odd (length l) then option_list (last l) else []) ++ left_nodes d (level_full l)
  end.

(** The incremental tree holds exactly the leaves [l]. *)
Definition represents (m : incremental_merkle) (l : list digest) : Prop :=
  _node_count m = Z.of_nat (length l) ∧
  _active_nodes m =
    match l with
    | [] => []
    | _ => left_nodes (tree_depth (length l)) l ++ [ref_root l]
    end.

(** ** Bit-level lemmas for the depth computation *)

(** Bit [i] of [v] is set iff some bit of [x] in the window [i, i + w) is. *)
Definition smeared (x v w : Z) : Prop :=
  ∀ i, 0 <= i → Z.testbit v i = true ↔ ∃ j, i <= j < i + w ∧ Z.testbit x j = true.

(** The folding of [next_power_of_2] as a function of its own. *)
Definition smear (v : Z) : Z :=
  foldl (λ v w, Z.lor v (Z.shiftr v w)) v [1; 2; 4; 8; 16; 32].

Lemma smeared_init x : smeared x x 1.
Proof.
  intros i Hi. split.
  - intros H. exists i. split; [lia|done].
  - intros (j & Hj & H). by replace i with j by lia.
Qed.

Lemma smeared_step x v w : 0 < w → smeared x v w → smeared x (Z.lor v (Z.shiftr v w)) (2 * w).
Proof.
  intros Hw Hv i Hi.
  rewrite Z.lor_spec, Z.shiftr_spec, orb_true_iff, (Hv i), (Hv (i + w)) by lia.
  split.
  - intros [(j & ? & ?)|(j & ? & ?)]; exists j; split; (lia || done).
  - intros (j & ? & ?). destruct (decide (j < i + w)); [left|right]; exists j; split; (lia || done).
Qed.

Lemma smeared_ones x v : 0 < x < 2 ^ 64 → smeared x v 64 → 0 <= v → v = Z.ones (Z.log2 x + 1).
Proof.
  intros Hx Hv Hpos. pose proof (Z.log2_nonneg x).
  assert (Z.log2 x < 64) by (apply Z.log2_lt_pow2; lia).
  apply Z.bits_inj'. intros i Hi.
  rewrite Z.testbit_ones_nonneg by lia.
  apply eq_iff_eq_true. rewrite Z.ltb_lt, (Hv i Hi). split.
  - intros (j & Hj & Hb). destruct (decide (j <= Z.log2 x)); [lia|].
    rewrite Z.bits_above_log2 in Hb by lia. discriminate.
  - intros. exists (Z.log2 x). split; [lia|]. apply Z.bit_log2. lia.
Qed.

Lemma smear_nonneg v : 0 <= v → 0 <= smear v.
Proof.
  intros. unfold smear; simpl.
  repeat (apply Z.lor_nonneg; split; [|apply Z.shiftr_nonneg]); done.
Qed.

Lemma smear_smeared x : smeared x (smear x) 64.
Proof.
  unfold smear; simpl.
  apply (smeared_step _ _ 32), (smeared_step _ _ 16), (smeared_step _ _ 8),
    (smeared_step _ _ 4), (smeared_step _ _ 2), (smeared_step _ _ 1), smeared_init; lia.
Qed.

Lemma next_power_of_2_spec n : 1 <= n <= 2 ^ 63 → next_power_of_2 n = 2 ^ Z.log2_up n.
Proof.
  intros Hn. destruct (decide (n = 1)) as [->|Hn1]; [by vm_compute|].
  change (next_power_of_2 n) with (u64 (smear (u64 (n - 1)) + 1)).
  rewrite (u64_small (n - 1)) by lia.
  rewrite (smeared_ones (n - 1) (smear (n - 1))); [|lia|apply smear_smeared|apply smear_nonneg; lia].
  assert (Z.log2 (n - 1) < 63) by (apply Z.log2_lt_pow2; lia).
  pose proof (Z.log2_nonneg (n - 1)).
  assert (2 ^ (Z.log2 (n - 1) + 1) <= 2 ^ 63) by (apply Z.pow_le_mono_r; lia).
  pose proof (Z.pow_pos_nonneg 2 (Z.log2 (n - 1) + 1)).
  rewrite Z.ones_equiv, Z.log2_up_eqn by lia.
  rewrite <-!Z.sub_1_r, <-Z.add_1_r, u64_small by lia. lia.
Qed.

Lemma clz_power_2_spec k : 0 <= k < 64 → clz_power_2 (2 ^ k) = k.
Proof.
  intros Hk.
  assert (Hall : forallb (λ i, clz_power_2 (2 ^ Z.of_nat i) =? Z.of_nat i) (seq 0 64) = true)
    by (vm_compute; reflexivity).
  rewrite forallb_forall in Hall.
  specialize (Hall (Z.to_nat k)). rewrite Z2Nat.id in Hall by lia.
  apply Z.eqb_eq, Hall, in_seq. lia.
Qed.

Lemma calcluate_max_depth_log2 n :
  1 <= n <= 2 ^ 63 → calcluate_max_depth n = Z.log2_up n + 1.
Proof.
  intros Hn. unfold calcluate_max_depth.
  replace (n =? 0) with false by (symmetry; apply Z.eqb_neq; lia).
  rewrite next_power_of_2_spec, clz_power_2_spec; [done|..|done].
  pose proof (Z.log2_up_nonneg n).
  assert (Z.log2_up n <= Z.log2_up (2 ^ 63)) by (apply Z.log2_up_le_mono; lia).
  rewrite Z.log2_up_pow2 in * by lia. lia.
Qed.

(** ** Lemmas on the reference tree *)

(** Induction two elements at a time. *)
Lemma list_pair_ind {A} (P : list A → Prop) :
  P [] → (∀ x, P [x]) → (∀ x y l, P l → P (x :: y :: l)) → ∀ l, P l.
Proof.
  intros H0 H1 H2. fix IH 1. intros [|x [|y l]]; [done|done|]. apply H2, IH.
Qed.

Lemma level_up_length l : length (level_up l) = Nat.div2 (S (length l)).
Proof. induction l as [| |x y l IH] using list_pair_ind; simpl in *; congruence. Qed.

Lemma level_full_length l : length (level_full l) = Nat.div2 (length l).
Proof. induction l as [| |x y l IH] using list_pair_ind; simpl in *; congruence. Qed.

(** The two ways of going one level up, seen from the last node. *)
Lemma level_up_snoc_even l x :
  Nat.odd (length l) = false → level_up (l ++ [x]) = level_full l ++ [node_hash x x].
Proof.
  induction l as [|y|y z l IH] using list_pair_ind; simpl; intros H; [done|done|].
  by rewrite IH.
Qed.

Lemma level_full_snoc_even l x :
  Nat.odd (length l) = false → level_full (l ++ [x]) = level_full l.
Proof.
  induction l as [|y|y z l IH] using list_pair_ind; simpl; intros H; [done|done|].
  by rewrite IH.
Qed.

Lemma level_up_snoc_odd l x y :
  Nat.odd (length l) = false → level_up (l ++ [x; y]) = level_full l ++ [node_hash x y].
Proof.
  induction l as [|u|u v l IH] using list_pair_ind; simpl; intros H; [done|done|].
  by rewrite IH.
Qed.

Lemma level_full_snoc_odd l x y :
  Nat.odd (length l) = false → level_full (l ++ [x; y]) = level_full l ++ [node_hash x y].
Proof.
  induction l as [|u|u v l IH] using list_pair_ind; simpl; intros H; [done|done|].
  by rewrite IH.
Qed.

Lemma odd_snoc {A} (l : list A) x : Nat.odd (length (l ++ [x])) = negb (Nat.odd (length l)).
Proof. rewrite length_app, Nat.add_comm. simpl. by rewrite Nat.odd_succ, <-Nat.negb_odd. Qed.

(** An odd list ends with a node whose removal leaves an even list. *)
Lemma odd_list_snoc {A} (l : list A) :
  Nat.odd (length l) = true → ∃ l' x, l = l' ++ [x] ∧ Nat.odd (length l') = false.
Proof.
  destruct l as [|x l _] using rev_ind; [done|].
  rewrite odd_snoc. intros H%negb_true_iff. by exists l, x.
Qed.

Lemma log2_up_half m : 1 < m → Z.log2_up m = 1 + Z.log2_up ((m + 1) / 2).
Proof.
  intros Hm.
  pose proof (Z.div_mod (m + 1) 2 ltac:(lia)). pose proof (Z.mod_pos_bound (m + 1) 2 ltac:(lia)).
  pose proof (Z.log2_up_nonneg ((m + 1) / 2)).
  apply Z.log2_up_unique; [lia|].
  destruct (decide ((m + 1) / 2 = 1)) as [E|].
  { rewrite E in *. change (2 ^ Z.pred (1 + Z.log2_up 1)) with 1.
    change (2 ^ (1 + Z.log2_up 1)) with 2. lia. }
  pose proof (Z.log2_up_spec ((m + 1) / 2)) as Hs. specialize (Hs ltac:(lia)).
  pose proof (Z.log2_up_pos ((m + 1) / 2)) as Hq. specialize (Hq ltac:(lia)).
  replace (Z.pred (1 + Z.log2_up ((m + 1) / 2))) with (1 + Z.pred (Z.log2_up ((m + 1) / 2))) by lia.
  rewrite !Z.pow_add_r by lia. lia.
Qed.

Lemma tree_depth_step n : (1 < n)%nat → tree_depth n = S (tree_depth (Nat.div2 (S n))).
Proof.
  intros Hn. unfold tree_depth. rewrite (log2_up_half (Z.of_nat n)) by lia.
  rewrite Nat.div2_div, Nat2Z.inj_div. replace (Z.of_nat (S n)) with (Z.of_nat n + 1) by lia.
  pose proof (Z.log2_up_nonneg ((Z.of_nat n + 1) / 2)). change (Z.of_nat 2) with 2. lia.
Qed.

(** ** The batch root *)

(** The in-place loop: [done] are the nodes already computed, [junk] the slots already read
    and [rest] the slots still to be paired. *)
Lemma merkle_for_inplace n (done junk rest : list digest) :
  length junk = length done → length rest = (2 * n)%nat → Z.of_nat (2 * (length done + n)) <= 2 ^ 31 →
  ∃ junk', merkle_for n (length done) (done ++ junk ++ rest) = Ok (done ++ level_up rest ++ junk').
Proof.
  revert done junk rest. induction n as [|n IH]; intros done junk rest Hj Hr Hb.
  { destruct rest; [|simpl in *; lia]. exists junk. by rewrite app_nil_r. }
  destruct rest as [|l [|r rest]]; [simpl in *; lia..|].
  cbn [merkle_for]. rewrite (proj2 (Z.ltb_lt _ _)) by lia.
  simpl. rewrite (assoc_L (++)).
  rewrite !lookup_app_r by (rewrite length_app; lia).
  rewrite !length_app, Hj.
  replace (length done + (length done + 0) - _)%nat with 0%nat by lia.
  replace (length done + (length done + 0) + 1 - _)%nat with 1%nat by lia. simpl.
  destruct (junk ++ [l; r]) as [|x junk2] eqn:Ej; [by destruct junk|].
  assert (Hl2 : length junk2 = S (length done)).
  { apply (f_equal length) in Ej. rewrite length_app in Ej. simpl in Ej. lia. }
  replace ((done ++ junk) ++ l :: r :: rest) with (done ++ (x :: junk2) ++ rest)
    by (rewrite <-Ej, <-!(assoc_L (++)); done).
  rewrite insert_app_r_alt, Nat.sub_diag by lia. simpl.
  destruct (IH (done ++ [node_hash l r]) junk2 rest) as [junk' Hj'].
  { rewrite length_app. simpl. lia. }
  { simpl in Hr. lia. }
  { rewrite length_app. simpl length. lia. }
  exists junk'. rewrite length_app, Nat.add_1_r, <-!(assoc_L (++)) in Hj'. done.
Qed.

Lemma merkle_round_level_up l :
  l ≠ [] → Z.of_nat (length l) <= 2 ^ 31 → merkle_round l = Ok (level_up l).
Proof.
  intros Hl Hb. unfold merkle_round.
  set (l' := if Nat.odd (length l) then _ else l).
  assert (level_up l' = level_up l ∧ Nat.odd (length l') = false ∧ Z.of_nat (length l') <= 2 ^ 31) as (Hup & Hev & Hb').
  { unfold l'. destruct (Nat.odd (length l)) eqn:E; [|done].
    apply odd_list_snoc in E as (k & x & -> & Hk).
    rewrite last_snoc; simpl. rewrite odd_snoc, odd_snoc, Hk. split_and!; [|done|].
    2: { apply negb_true_iff in Hk. rewrite Nat.negb_odd in Hk. apply Nat.even_spec in Hk as [k2 Hk].
         rewrite !length_app in *. simpl in *. lia. }
    rewrite <-(assoc_L (++)), level_up_snoc_even; simpl; [|done].
    by rewrite level_up_snoc_odd. }
  clearbody l'. rewrite <-Hup. clear Hup Hl Hb.
  apply negb_true_iff in Hev. rewrite Nat.negb_odd in Hev.
  apply Nat.even_spec, Nat.Even_double in Hev. rewrite Nat.double_twice in Hev.
  destruct (merkle_for_inplace (Nat.div2 (length l')) [] [] l') as [junk Hfor]; [done|lia|simpl length; lia|].
  simpl in Hfor. rewrite Hfor. simpl. unfold mret, result_ret. f_equal. apply take_app_length'.
  rewrite level_up_length, Hev.
  by rewrite Nat.div2_succ_double, Nat.div2_double.
Qed.

Lemma merkle_while_root fuel l :
  l ≠ [] → Z.of_nat (length l) <= 2 ^ 31 → (length l <= fuel)%nat → merkle_while fuel l = Ok [ref_root l].
Proof.
  revert l. induction fuel as [|fuel IH]; intros l Hl Hb Hf.
  { by destruct l; simpl in *; [|lia]. }
  simpl. destruct (1 <? length l)%nat eqn:E; reflect_bools.
  - rewrite merkle_round_level_up by done. simpl.
    assert (Hlen : length (level_up l) = Nat.div2 (S (length l))) by apply level_up_length.
    rewrite IH.
    + unfold ref_root. rewrite Hlen, (tree_depth_step (length l)) by done. done.
    + intros Hnil. rewrite Hnil in Hlen. destruct l as [|? [|]]; simpl in *; lia.
    + pose proof (Nat.div2_decr (S (length l)) (length l)). rewrite Hlen. lia.
    + rewrite Hlen, Nat.div2_div. apply Nat.lt_succ_r, (Nat.Div0.div_lt_upper_bound _ 2). lia.
  - destruct l as [|x [|]]; simpl in *; [done|done|lia].
Qed.

Lemma merkle_ref_root l : l ≠ [] → Z.of_nat (length l) <= 2 ^ 31 → merkle l = Ok (ref_root l).
Proof.
  intros Hl Hb. unfold merkle.
  destruct (length l =? 0)%nat eqn:E; reflect_bools; [by destruct l|].
  by rewrite merkle_while_root.
Qed.

(** ** The incremental root *)

Lemma odd_of_nat n : Z.odd (Z.of_nat n) = Nat.odd n.
Proof.
  induction n as [|n IH]; [done|].
  by rewrite Nat2Z.inj_succ, Z.odd_succ, <-Z.negb_odd, IH, Nat.odd_succ, Nat.negb_odd.
Qed.

Lemma land_1_even n : (Z.land (Z.of_nat n) 1 =? 0) = negb (Nat.odd n).
Proof.
  change (Z.land (Z.of_nat n) 1) with (Z.land (Z.of_nat n) (Z.ones 1)).
  rewrite Z.land_ones by lia.
  change (2 ^ 1) with 2. rewrite Zmod_odd, odd_of_nat. by destruct (Nat.odd n).
Qed.

Lemma shiftr_1_div2 n : Z.shiftr (Z.of_nat n) 1 = Z.of_nat (Nat.div2 n).
Proof. rewrite Z.shiftr_div_pow2, Nat.div2_div, Nat2Z.inj_div by lia. done. Qed.

Lemma append_loop_spec D (full : list digest) top partial rest updated :
  (length full < 2 ^ D)%nat →
  append_loop D (Z.of_nat (length full)) top partial (left_nodes D full ++ rest) updated =
  Ok (tree_root D (full ++ [top]),
      updated ++ left_nodes D (if partial then full else full ++ [top])).
Proof.
  revert full top partial updated. induction D as [|D IH]; intros full top partial updated Hlen.
  { destruct full; simpl in *; [|lia]. by rewrite app_nil_r. }
  simpl. rewrite land_1_even, shiftr_1_div2, <-level_full_length.
  assert (Hlen' : (length (level_full full) < 2 ^ D)%nat).
  { rewrite level_full_length, Nat.div2_div. apply Nat.Div0.div_lt_upper_bound. done. }
  destruct (Nat.odd (length full)) eqn:Hodd; simpl.
  - apply odd_list_snoc in Hodd as (k & x & -> & Hk).
    rewrite last_snoc. simpl. rewrite <-(assoc_L (++) k). change ([x] ++ [top]) with [x; top].
    rewrite level_up_snoc_odd by done.
    rewrite IH by done. rewrite level_full_snoc_even by done.
    destruct partial; simpl.
    + rewrite odd_snoc, Hk, last_snoc, level_full_snoc_even, <-(assoc_L (++)) by done. done.
    + rewrite level_full_snoc_odd by done.
      rewrite length_app, Nat.odd_add, Hk. done.
  - rewrite level_up_snoc_even by done. rewrite IH by done.
    destruct partial; simpl.
    + rewrite Hodd. done.
    + rewrite odd_snoc, Hodd, last_snoc, level_full_snoc_even, <-(assoc_L (++)) by done. done.
Qed.

Lemma level_full_up_even l : Nat.odd (length l) = false → level_full l = level_up l.
Proof.
  induction l as [| |x y l IH] using list_pair_ind; simpl; intros H; [done|done|].
  by rewrite IH.
Qed.

Lemma left_nodes_pow2 D l :
  length l = (2 ^ D)%nat → left_nodes (S D) l = left_nodes D l ++ [tree_root D l].
Proof.
  revert l. induction D as [|D IH]; intros l Hl.
  { destruct l as [|x [|]]; simpl in *; lia || done. }
  assert (Nat.odd (length l) = false) as Hodd.
  { rewrite Hl, Nat.pow_succ_r', Nat.odd_mul. done. }
  assert (length (level_full l) = (2 ^ D)%nat) as Hf.
  { rewrite level_full_length, Hl, Nat.pow_succ_r', Nat.div2_double. done. }
  pose proof (IH _ Hf) as Hrec. simpl in Hrec |- *. rewrite Hodd. simpl.
  rewrite Hrec, level_full_up_even by done. done.
Qed.

Lemma tree_depth_succ n :
  (0 < n)%nat →
  tree_depth (S n) = tree_depth n ∨
  tree_depth (S n) = S (tree_depth n) ∧ n = (2 ^ tree_depth n)%nat.
Proof.
  intros Hn. unfold tree_depth. rewrite Nat2Z.inj_succ.
  pose proof (Z.log2_up_nonneg (Z.of_nat n)).
  destruct (Z.log2_up_succ_or (Z.of_nat n)) as [E|E]; rewrite E; [right|by left].
  split; [lia|].
  apply Z.log2_up_eq_succ_is_pow2 in E as (b & E).
  assert (0 <= b) by (destruct (decide (0 <= b)); [done|rewrite Z.pow_neg_r in E; lia]).
  rewrite E, Z.log2_up_pow2 by lia.
  apply Nat2Z.inj. rewrite E, Nat2Z.inj_pow, Z2Nat.id by lia. done.
Qed.

Lemma represents_append m l d :
  represents m l → Z.of_nat (length l) < 2 ^ 63 →
  ∃ m', append m d = Ok m' ∧ represents m' (l ++ [d]).
Proof.
  intros [Hc Ha] Hlen. unfold append. rewrite Hc.
  assert (length (l ++ [d]) = S (length l)) as Hn by (rewrite length_app; simpl; lia).
  rewrite u64_small, calcluate_max_depth_log2 by lia.
  replace (Z.to_nat (Z.log2_up (Z.of_nat (length l) + 1) + 1 - 1)) with (tree_depth (S (length l)))
    by (unfold tree_depth; f_equal; rewrite Nat2Z.inj_succ, <-Z.add_1_r; lia).
  assert (Hact : ∃ rest, _active_nodes m = left_nodes (tree_depth (S (length l))) l ++ rest).
  { rewrite Ha. destruct l as [|x l']; [by exists []|].
    destruct (tree_depth_succ (length (x :: l'))) as [->|[-> Hp]]; [simpl; lia|by eexists|].
    exists []. rewrite left_nodes_pow2 by done. by rewrite app_nil_r. }
  destruct Hact as [rest ->].
  rewrite append_loop_spec.
  2: { unfold tree_depth. apply Nat2Z.inj_lt. rewrite Nat2Z.inj_pow, Z2Nat.id by apply Z.log2_up_nonneg.
       pose proof (Z.log2_log2_up_spec (Z.of_nat (S (length l))) ltac:(lia)). lia. }
  simpl. eexists. split; [done|]. split; simpl.
  - rewrite Hn. lia.
  - unfold ref_root. rewrite Hn. by destruct l.
Qed.

Lemma represents_empty : represents empty_merkle [].
Proof. done. Qed.

Lemma represents_append_all m l ds :
  represents m l → Z.of_nat (length l + length ds) <= 2 ^ 63 →
  ∃ m', append_all m ds = Ok m' ∧ represents m' (l ++ ds).
Proof.
  revert m l. induction ds as [|d ds IH]; intros m l Hm Hlen.
  { exists m. by rewrite app_nil_r. }
  destruct (represents_append m l d Hm) as (m1 & Hm1 & Hrep); [simpl in Hlen; lia|].
  simpl. rewrite Hm1. simpl. rewrite cons_middle, (assoc_L (++)).
  apply IH; [done|]. rewrite length_app. simpl in *. lia.
Qed.

(** The root of a list of leaves. *)
Definition reference (l : list digest) : digest := if decide (l = []) then digest_zero else ref_root l.

Lemma represents_root m l : represents m l → get_root m = Ok (reference l).
Proof.
  intros [Hc Ha]. unfold get_root, reference. rewrite Hc, Ha. destruct l as [|x l]; [done|].
  by rewrite last_snoc.
Qed.
Lemma merkle_reference l : Z.of_nat (length l) <= 2 ^ 31 → merkle l = Ok (reference l).
Proof. intros Hb. unfold reference. case_decide as E; [by subst|by apply merkle_ref_root]. Qed.

(** ** Properties *)

(** C24: the incremental tree agrees with the batch root.  Appending the digests of any list of
    at most 2^63 leaves one at a time to the empty tree never reads past the end of the active
    nodes, and the root kept by the tree is that of the level-by-level tree in which an odd last node is
    paired with itself (the zero digest on the empty list).  When there are at most 2^31 leaves, so that
    the [int] indices of [merkle] do not overflow, [merkle] computes the same root on the whole list
    without reading past its end. *)
Theorem incremental_root_is_merkle (l : list digest) :
  Z.of_nat (length l) <= 2 ^ 63 →
  ∃ m, append_all empty_merkle l = Ok m ∧ _node_count m = Z.of_nat (length l) ∧
       get_root m = Ok (reference l) ∧ (Z.of_nat (length l) <= 2 ^ 31 → merkle l = get_root m).
Proof.
  intros Hlen.
  destruct (represents_append_all empty_merkle [] l represents_empty) as (m & Hm & Hr); [done|].
  exists m. apply represents_root in Hr as Hg. rewrite Hg.
  split_and!; [done|apply Hr|done|apply merkle_reference].
Qed.

End merkle.

(** A concrete hash function and the applications of the properties to it. *)
Definition toy_hash (p : digest * digest) : digest :=
  Digest (u64 (3 * _hash0 p.1 + 5 * _hash0 p.2 + 1)) (_hash0 p.1) (_hash0 p.2) 7.

Lemma incremental_root_is_merkle_witness :
  ∃ m, append_all toy_hash empty_merkle [Digest 1 0 0 0; Digest 2 0 0 0; Digest 3 0 0 0] = Ok m ∧
       _node_count m = 3 ∧
       get_root m = Ok (reference toy_hash [Digest 1 0 0 0; Digest 2 0 0 0; Digest 3 0 0 0]) ∧
       merkle toy_hash [Digest 1 0 0 0; Digest 2 0 0 0; Digest 3 0 0 0] = get_root m.
Proof.
  destruct (incremental_root_is_merkle toy_hash [Digest 1 0 0 0; Digest 2 0 0 0; Digest 3 0 0 0])
    as (m & Hm & Hc & Hr & Hb); [vm_compute; discriminate|].
  exists m. split; [exact Hm|]. split; [exact Hc|]. split; [exact Hr|]. apply Hb. vm_compute. discriminate.
Defined.
