(* ===== verification/Names.v ===== *)
(** * Account names

    Models libraries/chain/name.cpp and include/eosio/chain/name.hpp: the packing of at most
    thirteen characters into a uint64 and back.  Characters are their codes and a C string is
    the list of its characters up to the terminating NUL.

    Results: every uint64 survives printing and parsing; parsing accepts exactly the strings
    that printing produces, and these are characterised by their length and characters. *)

From stdpp Require Import strings.
From S2P Require Import Prelude.

(** The character codes of a literal. *)
Definition codes (s : string) : list Z :=
  map (λ a, Z.of_nat (Ascii.nat_of_ascii a)) (String.list_ascii_of_string s).

Definition char_to_symbol (c : Z) : Z :=
  if (97 <=? c) && (c <=? 122) then (c - 97) + 6
  else if (49 <=? c) && (c <=? 53) then (c - 49) + 1
  else 0.

(** The [for] loop of [string_to_name] with at most [n] iterations left; it yields the index
    reached, the rest of the string and the bits collected. *)
Fixpoint string_to_name_for (n : nat) (i : Z) (str : list Z) (name : Z) : Z * list Z * Z :=
  match n, str with
  | S n, c :: str =>
      string_to_name_for n (i + 1) str
        (Z.lor name (u64 (Z.shiftl (Z.land (char_to_symbol c) 0x1f) (64 - 5 * (i + 1)))))
  | _, _ => (i, str, name)
  end.

Definition string_to_name (str : list Z) : Z :=
  let '(i, rest, name) := string_to_name_for 12 0 str 0 in
  if i =? 12 then Z.lor name (Z.land (char_to_symbol (hd 0 rest)) 0x0F) else name.

Definition charmap : list Z := Eval compute in codes ".12345abcdefghijklmnopqrstuvwxyz".

(** The [for] loop of [operator string] from index [i], [n] iterations left. *)
Fixpoint name_to_string_for (n i : nat) (tmp : Z) (str : list Z) : list Z :=
  match n with
  | O => str
  | S n =>
      let c := nth (Z.to_nat (Z.land tmp (if (i =? 0)%nat then 0x0f else 0x1f))) charmap 0 in
      name_to_string_for n (S i) (Z.shiftr tmp (if (i =? 0)%nat then 4 else 5))
        (<[(12 - i)%nat := c]> str)
  end.

(** boost::algorithm::trim_right_if with the predicate "is a dot". *)
Fixpoint trim_dots (rev_str : list Z) : list Z :=
  match rev_str with
  | c :: r => if c =? 46 then trim_dots r else rev_str
  | [] => []
  end.

Definition trim_right_dots (str : list Z) : list Z := reverse (trim_dots (reverse str)).

Definition name_to_string (value : Z) : list Z :=
  trim_right_dots (name_to_string_for 13 0 value (replicate 13 46)).

(** [name::set] *)
Definition name_set (str : list Z) : result Z :=
  let len := Nat.min (length str) 14 in
  _ ← EOS_ASSERT (len <=? 13)%nat name_type_exception;
  let value := string_to_name str in
  _ ← EOS_ASSERT (bool_decide (name_to_string value = str)) name_type_exception;
  mret value.

(** ** Specification *)

(** A character of the alphabet. *)
Definition name_char (c : Z) : bool := existsb (Z.eqb c) charmap.

(** A character allowed in the thirteenth place, which has four bits only. *)
Definition name_char13 (c : Z) : bool := existsb (Z.eqb c) (take 16 charmap).

(** The strings that are names. *)
Definition name_string_ok (str : list Z) : bool :=
  (length str <=? 13)%nat && forallb name_char str &&
  forallb name_char13 (drop 12 str) &&
  match last str with Some c => negb (c =? 46) | None => true end.

(** The value of a list of base-32 digits, most significant first, and its digits. *)
Definition digits_val (ds : list Z) : Z := foldl (λ a d, 32 * a + d) 0 ds.

Fixpoint val_digits (n : nat) (w : Z) : list Z :=
  match n with
  | O => []
  | S n => val_digits n (w / 32) ++ [w mod 32]
  end.

Definition digit_ok (d : Z) : Prop := 0 <= d < 32.
Definition char_of (d : Z) : Z := nth (Z.to_nat d) charmap 0.

(** The string padded with dots to thirteen characters, and the value it stands for. *)
Definition pad (str : list Z) : list Z := str ++ replicate (13 - length str) 46.

Definition padded_val (p : list Z) : Z :=
  16 * digits_val (char_to_symbol <$> take 12 p) + Z.land (char_to_symbol (nth 12 p 46)) 15.

(** ** Characters and digits *)

Lemma char_to_symbol_range c : digit_ok (char_to_symbol c).
Proof.
  unfold char_to_symbol, digit_ok.
  repeat case_match; reflect_bools; lia.
Qed.

Lemma char_of_table :
  forallb (λ i, (char_to_symbol (char_of (Z.of_nat i)) =? Z.of_nat i) &&
    name_char (char_of (Z.of_nat i)) && ((15 <? Z.of_nat i) || name_char13 (char_of (Z.of_nat i))))
    (seq 0 32) = true.
Proof. vm_compute. reflexivity. Qed.

Lemma char_of_spec d : digit_ok d →
  char_to_symbol (char_of d) = d ∧ name_char (char_of d) = true ∧
  (d < 16 → name_char13 (char_of d) = true).
Proof.
  intros Hd. pose proof char_of_table as H. rewrite forallb_forall in H.
  specialize (H (Z.to_nat d)). rewrite Z2Nat.id in H by apply Hd.
  destruct Hd. specialize (H ltac:(apply in_seq; lia)). reflect_bools.
  split_and!; [done..|]. intros. match goal with H : _ || _ = true |- _ => apply orb_true_iff in H as [H|H] end;
  reflect_bools; [lia|done].
Qed.

Lemma charmap_table :
  forallb (λ c, (char_of (char_to_symbol c) =? c) &&
    (negb (name_char13 c) || (char_to_symbol c <? 16))) charmap = true.
Proof. vm_compute. reflexivity. Qed.

Lemma name_char_spec c : name_char c = true →
  char_of (char_to_symbol c) = c ∧ (name_char13 c = true → char_to_symbol c < 16).
Proof.
  intros (c' & Hin & Heq)%existsb_exists. apply Z.eqb_eq in Heq as <-.
  pose proof charmap_table as H. rewrite forallb_forall in H. apply H in Hin. reflect_bools.
  split; [done|]. intros H13. rewrite H13 in *. simpl in *. by reflect_bools.
Qed.

Lemma digits_val_snoc ds d : digits_val (ds ++ [d]) = 32 * digits_val ds + d.
Proof. unfold digits_val. by rewrite foldl_app. Qed.

Lemma digits_val_range ds : Forall digit_ok ds → 0 <= digits_val ds < 32 ^ Z.of_nat (length ds).
Proof.
  induction ds as [|d ds IH] using rev_ind; intros H; [done|].
  rewrite Forall_app, Forall_singleton in H. destruct H as [H Hd]. specialize (IH ltac:(done)).
  rewrite digits_val_snoc, length_app, Nat2Z.inj_add, Z.pow_add_r by lia.
  change (32 ^ Z.of_nat (length [d])) with 32. unfold digit_ok in Hd. lia.
Qed.

Lemma digits_val_zeros ds k :
  digits_val (ds ++ replicate k 0) = digits_val ds * 32 ^ Z.of_nat k.
Proof.
  induction k as [|k IH]; [rewrite app_nil_r; simpl; lia|].
  rewrite replicate_S_end, (assoc_L (++)), digits_val_snoc, IH, Nat2Z.inj_succ, Z.pow_succ_r; lia.
Qed.

Lemma val_digits_length n w : length (val_digits n w) = n.
Proof. revert w. induction n; intros; simpl; [done|]. rewrite length_app, IHn. simpl. lia. Qed.

Lemma val_digits_ok n w : Forall digit_ok (val_digits n w).
Proof.
  revert w. induction n as [|n IH]; intros w; simpl; [done|].
  apply Forall_app. split; [done|]. apply Forall_singleton, Z.mod_pos_bound. lia.
Qed.

Lemma val_digits_val n w : 0 <= w < 32 ^ Z.of_nat n → digits_val (val_digits n w) = w.
Proof.
  revert w. induction n as [|n IH]; intros w Hw; [simpl in Hw; unfold digits_val; simpl; lia|].
  cbn [val_digits]. rewrite digits_val_snoc, IH; [pose proof (Z.div_mod w 32); lia|].
  rewrite Nat2Z.inj_succ, Z.pow_succ_r in Hw by lia.
  split; [apply Z.div_pos; lia|apply Z.div_lt_upper_bound; lia].
Qed.

Lemma digits_val_digits ds : Forall digit_ok ds → val_digits (length ds) (digits_val ds) = ds.
Proof.
  induction ds as [|d ds IH] using rev_ind; intros H; [done|].
  rewrite Forall_app, Forall_singleton in H. destruct H as [H Hd].
  rewrite length_app, Nat.add_1_r, digits_val_snoc. cbn [val_digits].
  unfold digit_ok in Hd. rewrite Z.add_comm, Z.mul_comm, Z.mod_add, Z.div_add, Z.mod_small, Z.div_small, Z.add_0_l by lia.
  by rewrite IH.
Qed.

(** ** Packing *)

(** One character: five more bits below those collected so far. *)
Lemma pack_char h i c : 0 <= i < 12 → 0 <= h < 32 ^ i →
  Z.lor (h * 2 ^ (64 - 5 * i)) (u64 (Z.shiftl (Z.land (char_to_symbol c) 0x1f) (64 - 5 * (i + 1)))) =
  (32 * h + char_to_symbol c) * 2 ^ (64 - 5 * (i + 1)).
Proof.
  intros Hi Hh. pose proof (char_to_symbol_range c) as Hc. unfold digit_ok in Hc.
  change 0x1f with (Z.ones 5). rewrite Z.land_ones, Z.mod_small by (change (2 ^ 5) with 32; lia).
  rewrite Z.shiftl_mul_pow2 by lia.
  set (k := 64 - 5 * (i + 1)). replace (64 - 5 * i) with (k + 5) by lia.
  assert (0 <= k) by lia. assert (2 ^ (k + 5) <= 2 ^ 64) by (apply Z.pow_le_mono_r; lia).
  rewrite Z.pow_add_r in * by lia. change (2 ^ 5) with 32 in *.
  pose proof (Z.pow_pos_nonneg 2 k).
  rewrite u64_small by nia.
  replace (2 ^ k * 32) with (2 ^ (k + 5)) by (rewrite Z.pow_add_r by lia; done).
  rewrite lor_add_disjoint; [rewrite Z.pow_add_r by lia; change (2 ^ 5) with 32; lia| |lia].
  rewrite Z.pow_add_r by lia. change (2 ^ 5) with 32. nia.
Qed.

Lemma string_to_name_for_spec n i str h :
  0 <= i → i + Z.of_nat n <= 12 → 0 <= h < 32 ^ i →
  string_to_name_for n i str (h * 2 ^ (64 - 5 * i)) =
  (i + Z.of_nat (Nat.min n (length str)), drop n str,
   foldl (λ a d, 32 * a + d) h (char_to_symbol <$> take n str) *
     2 ^ (64 - 5 * (i + Z.of_nat (Nat.min n (length str))))).
Proof.
  revert i str h. induction n as [|n IH]; intros i str h Hi Hn Hh.
  { simpl. by rewrite Z.add_0_r, drop_0. }
  destruct str as [|c str]; [simpl; by rewrite Z.add_0_r|].
  simpl. rewrite pack_char by lia.
  pose proof (char_to_symbol_range c) as Hc. unfold digit_ok in Hc.
  rewrite IH; [|lia|lia|rewrite Z.pow_add_r by lia; change (32 ^ 1) with 32; lia].
  replace (i + 1 + Z.of_nat (Nat.min n (length str)))
    with (i + Z.of_nat (S (Nat.min n (length str)))) by lia. done.
Qed.

Lemma map_symbol_ok l : Forall digit_ok (char_to_symbol <$> l).
Proof. apply Forall_fmap,  Forall_true. intros. apply char_to_symbol_range. Qed.

Lemma string_to_name_padded str :
  (length str <= 13)%nat → string_to_name str = padded_val (pad str).
Proof.
  intros Hlen. unfold string_to_name.
  change 0 with (0 * 2 ^ (64 - 5 * 0)) at 2.
  rewrite string_to_name_for_spec by (simpl; lia).
  fold (digits_val (char_to_symbol <$> take 12 str)). rewrite Z.add_0_l.
  unfold padded_val, pad.
  destruct (decide (length str < 12)%nat) as [Hs|Hs].
  - rewrite Nat.min_r by lia. destruct (_ =? 12) eqn:E; reflect_bools; [lia|].
    rewrite (take_ge str), (take_app_ge str), take_replicate, fmap_app, fmap_replicate by lia.
    change (char_to_symbol 46) with 0. rewrite digits_val_zeros.
    rewrite nth_lookup, lookup_app_r, lookup_replicate_2 by lia. simpl.
    replace (64 - 5 * Z.of_nat (length str)) with (4 + 5 * Z.of_nat (12 - length str)) by lia.
    rewrite Nat.min_l, Z.pow_add_r, Z.pow_mul_r by lia.
    change (2 ^ 5) with 32. change (2 ^ 4) with 16. change (Z.land (char_to_symbol 46) 15) with 0. lia.
  - rewrite Nat.min_l by lia. change (Z.of_nat 12 =? 12) with true. cbv iota.
    rewrite (take_app_le str) by lia.
    replace (nth 12 (str ++ _) 46) with (hd 46 (drop 12 str)).
    2: { rewrite nth_lookup. destruct (decide (length str = 12)%nat) as [E|].
         - rewrite drop_ge, lookup_app_r, E by lia. done.
         - rewrite lookup_app_l by lia.
           replace (str !! 12%nat) with (drop 12 str !! 0%nat) by by rewrite lookup_drop.
           by destruct (drop 12 str). }
    replace (char_to_symbol (hd 0 (drop 12 str))) with (char_to_symbol (hd 46 (drop 12 str)))
      by by destruct (drop 12 str).
    set (c := char_to_symbol (hd 46 _)).
    change (64 - 5 * Z.of_nat 12) with 4. rewrite lor_add_disjoint; [change (2 ^ 4) with 16; lia| |lia].
    change 15 with (Z.ones 4). rewrite Z.land_ones by lia. apply Z.mod_pos_bound. lia.
Qed.

(** ** Unpacking *)

Lemma land_0f tmp : Z.land tmp 0x0f = tmp mod 16.
Proof. change 0x0f with (Z.ones 4). by rewrite Z.land_ones. Qed.

Lemma land_1f tmp : Z.land tmp 0x1f = tmp mod 32.
Proof. change 0x1f with (Z.ones 5). by rewrite Z.land_ones. Qed.

Lemma name_to_string_for_spec n i w suffix :
  (0 < i)%nat → (i + n = 13)%nat → length suffix = i →
  name_to_string_for n i w (replicate n 46 ++ suffix) = (char_of <$> val_digits n w) ++ suffix.
Proof.
  revert i w suffix. induction n as [|n IH]; intros i w suffix Hi Hn Hs; [done|].
  cbn [name_to_string_for]. destruct (i =? 0)%nat eqn:E; reflect_bools; [lia|].
  rewrite land_1f, Z.shiftr_div_pow2 by lia. change (2 ^ 5) with 32.
  rewrite replicate_S_end, <-(assoc_L (++)). simpl.
  rewrite insert_app_r_alt by (rewrite length_replicate; lia).
  rewrite length_replicate. replace (12 - i - n)%nat with 0%nat by lia. simpl.
  rewrite IH; [|lia|lia|simpl; lia].
  rewrite fmap_app, <-(assoc_L (++)). done.
Qed.

Lemma name_to_string_digits v :
  name_to_string v = trim_right_dots (char_of <$> val_digits 12 (v / 16) ++ [v mod 16]).
Proof.
  unfold name_to_string. f_equal.
  change (name_to_string_for 13 0 v (replicate 13 46)) with
    (name_to_string_for 12 1 (Z.shiftr v 4) (replicate 12 46 ++ [char_of (Z.land v 0x0f)])).
  rewrite name_to_string_for_spec, land_0f, Z.shiftr_div_pow2 by (done || lia).
  by rewrite fmap_app.
Qed.

Lemma trim_right_dots_pad str :
  (length str = 13)%nat → pad (trim_right_dots str) = str.
Proof.
  intros Hlen.
  assert (Hsplit : ∀ r, ∃ k, r = replicate k 46 ++ trim_dots r).
  { induction r as [|c r [k IH]]; [by exists 0%nat|]. simpl.
    destruct (c =? 46) eqn:E; reflect_bools; [|by exists 0%nat].
    exists (S k). simpl. by rewrite <-IH, E. }
  destruct (Hsplit (reverse str)) as [k Hk].
  apply (f_equal reverse) in Hk. rewrite reverse_involutive, reverse_app, reverse_replicate in Hk.
  unfold pad, trim_right_dots. rewrite Hk at 3. f_equal.
  rewrite Hk in Hlen. rewrite length_app, length_replicate in Hlen. f_equal. lia.
Qed.

Lemma trim_right_dots_last str : last (trim_right_dots str) ≠ Some 46.
Proof.
  unfold trim_right_dots. rewrite last_reverse. generalize (reverse str).
  intros r. induction r as [|c r IH]; [done|]. simpl.
  destruct (c =? 46) eqn:E; reflect_bools; [done|]. simpl. congruence.
Qed.

Lemma trim_right_dots_app_dots str k :
  last str ≠ Some 46 → trim_right_dots (str ++ replicate k 46) = str.
Proof.
  intros Hl. unfold trim_right_dots. rewrite reverse_app, reverse_replicate.
  rewrite <-(reverse_involutive str) at 2. f_equal.
  rewrite <-(reverse_involutive str), last_reverse in Hl. revert Hl. generalize (reverse str).
  intros r Hr. induction k as [|k IH]; [|done]. simpl.
  destruct r as [|c r]; [done|]. simpl in *. destruct (c =? 46) eqn:E; reflect_bools; congruence.
Qed.

Lemma padded_val_digits (ds : list Z) d :
  Forall digit_ok ds → length ds = 12%nat → 0 <= d < 16 →
  padded_val (char_of <$> ds ++ [d]) = 16 * digits_val ds + d.
Proof.
  intros Hds Hlen Hd. unfold padded_val.
  rewrite fmap_app, take_app_length' by by rewrite length_fmap.
  rewrite nth_lookup, lookup_app_r, length_fmap, Hlen by (rewrite length_fmap; lia). simpl.
  rewrite (proj1 (char_of_spec d ltac:(split; lia))).
  change 15 with (Z.ones 4). rewrite Z.land_ones, Z.mod_small by (done || lia).
  f_equal. f_equal. f_equal. rewrite <-list_fmap_compose.
  rewrite <-(list_fmap_id ds) at 2. apply list_fmap_ext. intros i x Hx. simpl.
  apply char_of_spec. by eapply Forall_lookup_1.
Qed.

Lemma trim_right_dots_length str : (length (trim_right_dots str) <= length str)%nat.
Proof.
  unfold trim_right_dots. rewrite length_reverse, <-(length_reverse str).
  induction (reverse str) as [|c r IH]; simpl; [done|]. destruct (c =? 46); simpl; lia.
Qed.

Lemma name_to_string_length v : (length (name_to_string v) <= 13)%nat.
Proof.
  rewrite name_to_string_digits. etrans; [apply trim_right_dots_length|].
  rewrite length_fmap, length_app, val_digits_length. done.
Qed.

Lemma string_to_name_to_string v : in_u64 v → string_to_name (name_to_string v) = v.
Proof.
  intros Hv. rewrite string_to_name_padded by apply name_to_string_length.
  rewrite name_to_string_digits, trim_right_dots_pad.
  2: { rewrite length_fmap, length_app, val_digits_length. done. }
  assert (0 <= v / 16 < 32 ^ 12).
  { unfold in_u64 in Hv. split; [apply Z.div_pos; lia|apply Z.div_lt_upper_bound; lia]. }
  pose proof (Z.mod_pos_bound v 16 ltac:(lia)).
  rewrite padded_val_digits, val_digits_val; [|done|apply val_digits_ok|apply val_digits_length|lia].
  pose proof (Z.div_mod v 16). lia.
Qed.

Lemma char_of_symbols (l : list Z) :
  Forall (λ c, name_char c = true) l → char_of <$> (char_to_symbol <$> l) = l.
Proof.
  intros Hl. rewrite <-list_fmap_compose. rewrite <-(list_fmap_id l) at 2.
  apply list_fmap_ext. intros i c Hc. simpl.
  apply name_char_spec. exact (Forall_lookup_1 _ _ _ _ Hl Hc).
Qed.

(** A string of the specified shape is the text of its digits. *)
Lemma name_string_ok_digits str : name_string_ok str = true →
  ∃ ds d, pad str = (char_of <$> ds ++ [d]) ∧ Forall digit_ok ds ∧ length ds = 12%nat ∧ 0 <= d < 16.
Proof.
  unfold name_string_ok. intros H. apply andb_true_iff in H as [H _]. reflect_bools.
  assert (Hpad : ∃ c, pad str = take 12 (pad str) ++ [c] ∧ name_char13 c = true).
  { destruct (decide (length str = 13)%nat) as [E|].
    - destruct (drop 12 str) as [|c [|]] eqn:Ed; apply (f_equal length) in Ed as El;
        rewrite length_drop in El; simpl in El; [lia| |lia].
      exists c. unfold pad. rewrite E, app_nil_r, <-Ed, take_drop. split; [done|].
      simpl in *. by reflect_bools.
    - exists 46. split; [|done]. unfold pad. rewrite <-(take_drop 12 (str ++ _)) at 1. f_equal.
      rewrite drop_app, drop_ge, drop_replicate by lia.
      replace (13 - length str - (12 - length str))%nat with 1%nat by lia. done. }
  destruct Hpad as (c & Hc & H13).
  assert (Hchars : Forall (λ c, name_char c = true) (pad str)).
  { apply Forall_app. split; [by apply forallb_Forall|by apply Forall_replicate]. }
  assert (Hlen : length (take 12 (pad str)) = 12%nat).
  { rewrite length_take. unfold pad. rewrite length_app, length_replicate. lia. }
  rewrite Hc in Hchars. rewrite Forall_app, Forall_singleton in Hchars. destruct Hchars as [Hp Hcc].
  pose proof (char_to_symbol_range c) as [? _]. pose proof (proj2 (name_char_spec c Hcc) H13).
  exists (char_to_symbol <$> take 12 (pad str)), (char_to_symbol c).
  split_and!; [|apply map_symbol_ok|by rewrite length_fmap|done..].
  rewrite fmap_app, char_of_symbols by done. simpl.
  rewrite (proj1 (name_char_spec c Hcc)). done.
Qed.

Lemma name_set_spec str v :
  name_set str = Ok v ↔ in_u64 v ∧ name_to_string v = str.
Proof.
  split.
  - unfold name_set. intros H. inv_ok. reflect_bools. split; [|done].
    rewrite string_to_name_padded by lia. unfold padded_val.
    pose proof (digits_val_range _ (map_symbol_ok (take 12 (pad str)))) as Hr.
    rewrite length_fmap, length_take, Nat.min_l in Hr.
    2: { unfold pad. rewrite length_app, length_replicate. lia. }
    pose proof (Z.mod_pos_bound (char_to_symbol (nth 12 (pad str) 46)) 16 ltac:(lia)).
    rewrite <-land_0f in *. unfold in_u64. simpl in Hr. lia.
  - intros [Hv <-]. unfold name_set. pose proof (name_to_string_length v).
    destruct (_ <=? 13)%nat eqn:E; reflect_bools; [|lia]. simpl.
    rewrite string_to_name_to_string by done.
    destruct (bool_decide _) eqn:E2; reflect_bools; [done|done].
Qed.

Lemma name_to_string_ok v : in_u64 v → name_string_ok (name_to_string v) = true.
Proof.
  intros Hv. unfold name_string_ok. rewrite !andb_true_iff.
  pose proof (name_to_string_length v) as Hlen.
  assert (Hpad : pad (name_to_string v) = char_of <$> val_digits 12 (v / 16) ++ [v mod 16]).
  { rewrite name_to_string_digits. apply trim_right_dots_pad.
    rewrite length_fmap, length_app, val_digits_length. done. }
  split_and!.
  - by apply Nat.leb_le.
  - apply forallb_Forall.
    assert (Hf : Forall (λ c, name_char c = true) (pad (name_to_string v)));
      [|by apply Forall_app in Hf as [? _]].
    rewrite Hpad. apply Forall_fmap.
    apply (Forall_impl digit_ok); [|intros d Hd; apply char_of_spec, Hd].
    apply Forall_app. split; [apply val_digits_ok|]. apply Forall_singleton.
    pose proof (Z.mod_pos_bound v 16). unfold digit_ok. lia.
  - apply forallb_Forall.
    assert (Hf : Forall (λ c, name_char13 c = true) (drop 12 (pad (name_to_string v))));
      [|unfold pad in Hf; rewrite drop_app in Hf; by apply Forall_app in Hf as [? _]].
    rewrite Hpad, fmap_app, drop_app_length' by by rewrite length_fmap, val_digits_length.
    apply Forall_singleton.
    pose proof (Z.mod_pos_bound v 16 ltac:(lia)). apply char_of_spec; [split; lia|lia].
  - rewrite name_to_string_digits.
    pose proof (trim_right_dots_last (char_of <$> val_digits 12 (v / 16) ++ [v mod 16])) as Hl.
    destruct (last _) as [c|]; [|done]. apply negb_true_iff, Z.eqb_neq. congruence.
Qed.

(** ** Properties *)

(** C40: printing and parsing are inverse on all 64-bit values: every uint64 prints to a string
    that [set] accepts and parses back to it. *)
Theorem name_roundtrip v : in_u64 v → name_set (name_to_string v) = Ok v.
Proof. intros Hv. by apply name_set_spec. Qed.

(** [set] accepts exactly the strings of at most thirteen characters of the alphabet whose
    thirteenth character fits in four bits and that do not end in a dot; everything else is
    refused with name_type_exception, and an accepted string is what its value prints as. *)
Theorem name_set_accepts str :
  match name_set str with
  | Ok v => name_string_ok str = true ∧ in_u64 v ∧ name_to_string v = str
  | Throw e => name_string_ok str = false ∧ e = name_type_exception
  end.
Proof.
  destruct (name_set str) as [v|e] eqn:E.
  - apply name_set_spec in E as [Hv <-]. split_and!; [by apply name_to_string_ok|done..].
  - split.
    + destruct (name_string_ok str) eqn:Hok; [|done].
      destruct (name_string_ok_digits str Hok) as (ds & d & Hp & Hds & Hlen & Hd).
      unfold name_string_ok in Hok. reflect_bools.
      assert (name_set str = Ok (16 * digits_val ds + d)); [|congruence].
      apply name_set_spec. pose proof (digits_val_range ds Hds) as Hr. rewrite Hlen in Hr.
      split; [unfold in_u64; simpl in Hr; lia|].
      rewrite name_to_string_digits.
      rewrite <-(Z.div_unique _ 16 (digits_val ds) d), <-(Z.mod_unique _ 16 (digits_val ds) d) by lia.
      rewrite <-Hlen, digits_val_digits, <-Hp by done. apply trim_right_dots_app_dots.
      destruct (last str); [|done]. reflect_bools. congruence.
    + unfold name_set in E. repeat (apply bind_throw in E as [[_ ->]%assert_throw|(? & _ & E)]; [done|]).
      done.
Qed.

Lemma name_roundtrip_witness : in_u64 6138663577826885632 ∧
  name_set (name_to_string 6138663577826885632) = Ok 6138663577826885632.
Proof.
  split; [vm_compute; split; [discriminate|reflexivity]|].
  apply (name_roundtrip 6138663577826885632). vm_compute. split; [discriminate|reflexivity].
Defined.
