(* ===== verification/BlockHeader.v ===== *)
(** * Block headers and the header state machine

    Models block_timestamp.hpp, producer_schedule.hpp, block_header.{hpp,cpp} and
    block_header_state.{hpp,cpp} of libraries/chain: slots and times, producer schedules, block
    ids, and the state that every header advances: the scheduled producer, the confirmation
    counts, the proposed and the DPOS irreversible block numbers, and the promotion of a pending
    schedule.  Hashing, key recovery and byte order come from the fc library and are the
    operations of the classes [Fc] and [FcHash]. *)

From stdpp Require Import sorting.
From S2P Require Import Prelude Merkle.

(** ** Configuration constants (config.hpp) *)
Definition block_interval_ms : Z := 500.
Definition block_timestamp_epoch : Z := 946684800000.
Definition producer_repetitions : Z := 12.
Definition max_producers : Z := 125.
Definition maximum_tracked_dpos_confirmations : nat := 1024.

(** ** block_timestamp: a slot number.  Times are int64 microseconds since the Unix epoch. *)
Definition block_timestamp := Z.

(** [block_timestamp()]: slot 0. *)
Definition timestamp_default : block_timestamp := 0.
Definition timestamp_maximum : block_timestamp := 0xffff.
Definition timestamp_min : block_timestamp := 0.

Definition timestamp_next (t : block_timestamp) : result block_timestamp :=
  _ ← EOS_ASSERT (1 <=? UINT32_MAX - t) overflow_exception;
  mret (u32 (t + 1)).

(** [operator fc::time_point]; [milliseconds] is fc::milliseconds. *)
Definition to_time_point (milliseconds : Z → Z) (t : block_timestamp) : Z :=
  let msec := i64 (t * block_interval_ms) in
  let msec := i64 (msec + block_timestamp_epoch) in
  milliseconds msec.

(** [set_time_point] of an fc::time_point: the subtraction and division are on uint64. *)
Definition of_time_point (micro_since_epoch : Z) : block_timestamp :=
  let msec_since_epoch := Z.quot micro_since_epoch 1000 in
  u32 (u64 (msec_since_epoch - block_timestamp_epoch) / block_interval_ms).

(** [set_time_point] of an fc::time_point_sec. *)
Definition of_time_point_sec (sec_since_epoch : Z) : block_timestamp :=
  u32 (u64 (u64 (sec_since_epoch * 1000) - block_timestamp_epoch) / block_interval_ms).

(** ** What is used of the fc library *)
Class Fc := {
  public_key : Type;
  public_key_eq_dec :: EqDecision public_key;
  public_key_default : public_key;          (** [public_key_type()] *)
  signature : Type;
  signature_default : signature;
  endian_reverse_u32 : Z → Z;
}.

Definition account_name := Z.

(** ** producer_schedule.hpp *)
Section schedule.
Context `{Fc}.

Record producer_key := ProducerKey {
  producer_name : account_name;
  block_signing_key_of : public_key;
}.

Global Instance producer_key_eq_dec : EqDecision producer_key.
Proof. solve_decision. Defined.

Record producer_schedule_type := ProducerSchedule {
  version : Z;
  consensus_type : Z;
  producers : list producer_key;
}.

Definition schedule_default : producer_schedule_type := ProducerSchedule 0 0 [].

(** [producer_schedule_type::get_producer_key] *)
Fixpoint get_producer_key (ps : list producer_key) (p : account_name) : public_key :=
  match ps with
  | [] => public_key_default
  | i :: ps => if producer_name i =? p then block_signing_key_of i else get_producer_key ps p
  end.

(** [operator ==] of schedules: it does not look at the consensus type. *)
Definition schedule_eqb (a b : producer_schedule_type) : bool :=
  (version a =? version b) && (length (producers a) =? length (producers b))%nat &&
  bool_decide (producers a = producers b).

(** shared_producer_schedule_type: assignment from and conversion to a schedule copy every
    field; [clear] resets them. *)
Definition shared_schedule_assign (a : producer_schedule_type) : producer_schedule_type :=
  ProducerSchedule (version a) (consensus_type a) (foldl (λ ps p, ps ++ [p]) [] (producers a)).
Definition shared_schedule_clear : producer_schedule_type := ProducerSchedule 0 0 [].

(** ** block_header.hpp *)
Record block_header := BlockHeader {
  timestamp : block_timestamp;
  producer : account_name;
  confirmed : Z;
  previous : digest;
  transaction_mroot : digest;
  action_mroot : digest;
  schedule_version : Z;
  header_consensus_type : Z;
  new_producers : option producer_schedule_type;
  header_extensions : list (Z * list Z);
}.

Definition block_header_default : block_header :=
  BlockHeader timestamp_default 0 1 digest_zero digest_zero digest_zero 0 0 None [].

Record signed_block_header := SignedBlockHeader {
  hdr : block_header;
  producer_signature : signature;
}.

Record header_confirmation := HeaderConfirmation {
  conf_block_id : digest;
  conf_producer : account_name;
  conf_signature : signature;
}.

End schedule.

(** Hashing and key recovery. *)
Class FcHash `{Fc} := {
  hash_pair : digest * digest → digest;
  hash_schedule : producer_schedule_type → digest;
  hash_header : block_header → digest;
  (** the constructor [fc::crypto::public_key( sig, digest, check_canonical )] *)
  recover_key : signature → digest → bool → result public_key;
}.

(** What fc documents of byte order and of digests: [endian_reverse_u32] maps uint32 to uint32
    and is its own inverse, and a digest has four uint64 words. *)
Class FcLaws `{FcHash} : Prop := {
  endian_reverse_range : ∀ x, in_u32 x → in_u32 (endian_reverse_u32 x);
  endian_reverse_involutive : ∀ x, in_u32 x → endian_reverse_u32 (endian_reverse_u32 x) = x;
  hash_header_wf : ∀ h, digest_wf (hash_header h);
}.

Section header_state.
Context `{FcHash}.

(** ** block_header.cpp *)
Definition num_from_id (id : digest) : Z := u32 (endian_reverse_u32 (u32 (_hash0 id))).

Definition block_num_of (h : block_header) : Z := u32 (num_from_id (previous h) + 1).

Definition header_id (h : block_header) : digest :=
  let result := hash_header h in
  let result := set_hash0 result (Z.land (_hash0 result) 0xffffffff00000000) in
  set_hash0 result (u64 (_hash0 result + endian_reverse_u32 (block_num_of h))).

(** ** block_header_state *)
Record block_header_state := BlockHeaderState {
  id : digest;
  block_num : Z;
  header : signed_block_header;
  dpos_proposed_irreversible_blocknum : Z;
  dpos_irreversible_blocknum : Z;
  bft_irreversible_blocknum : Z;
  pending_schedule_lib_num : Z;
  pending_schedule_hash : digest;
  pending_schedule : producer_schedule_type;
  active_schedule : producer_schedule_type;
  blockroot_merkle : incremental_merkle;
  producer_to_last_produced : gmap account_name Z;
  producer_to_last_implied_irb : gmap account_name Z;
  block_signing_key : public_key;
  confirm_count : list Z;
  confirmations : list header_confirmation;
}.

Definition is_active_producer (s : block_header_state) (n : account_name) : bool :=
  bool_decide (is_Some (producer_to_last_produced s !! n)).

(** The modulus is a size_t; an empty schedule divides by zero. *)
Definition get_scheduled_producer (s : block_header_state) (t : block_timestamp)
    : result producer_key :=
  let ps := producers (active_schedule s) in
  let round := Z.of_nat (length ps) * producer_repetitions in
  _ ← EOS_ASSERT (negb (round =? 0)) undefined_behaviour;
  let index := t mod round in
  let index := index / producer_repetitions in
  of_option (ps !! Z.to_nat index) undefined_behaviour.

Definition calc_dpos_last_irreversible (irb : gmap account_name Z) : Z :=
  let blocknums := (map_to_list irb).*2 in
  if (length blocknums =? 0)%nat then 0
  else
    let blocknums := merge_sort Z.le blocknums in
    nth ((length blocknums - 1) / 3) blocknums 0.

Definition required_confirmations (sched : producer_schedule_type) : Z :=
  let num_active_producers := Z.of_nat (length (producers sched)) in
  if consensus_type sched =? 0 then u32 (num_active_producers * 2 / 3) + 1
  else if consensus_type sched =? 1 then u32 (num_active_producers / 2) + 1
  else if consensus_type sched =? 2 then u32 (num_active_producers / 3) + 1
  else u32 (num_active_producers * 2 / 3) + 1.

Definition grow_confirm_count (cc : list Z) (required_confs : Z) : list Z :=
  if (length cc <? maximum_tracked_dpos_confirmations)%nat
  then cc ++ [u8 required_confs]
  else drop 1 cc ++ [u8 required_confs].

Definition generate_next (s : block_header_state) (when : block_timestamp)
    : result block_header_state :=
  when ← (if negb (when =? timestamp_default) then
            _ ← EOS_ASSERT (timestamp (hdr (header s)) <? when) block_validate_exception;
            mret when
          else mret (u32 (timestamp (hdr (header s)) + 1)));
  prokey ← get_scheduled_producer s when;
  blockroot ← append hash_pair (blockroot_merkle s) (id s);
  let block_num' := u32 (block_num s + 1) in
  let irb := <[producer_name prokey := dpos_proposed_irreversible_blocknum s]>
               (producer_to_last_implied_irb s) in
  mret {|
    id := digest_zero;
    block_num := block_num';
    header := SignedBlockHeader
      {| timestamp := when;
         producer := producer_name prokey;
         confirmed := confirmed block_header_default;
         previous := id s;
         transaction_mroot := digest_zero;
         action_mroot := digest_zero;
         schedule_version := version (active_schedule s);
         header_consensus_type := consensus_type (active_schedule s);
         new_producers := None;
         header_extensions := [] |} signature_default;
    dpos_proposed_irreversible_blocknum := dpos_proposed_irreversible_blocknum s;
    dpos_irreversible_blocknum := calc_dpos_last_irreversible irb;
    bft_irreversible_blocknum := bft_irreversible_blocknum s;
    pending_schedule_lib_num := pending_schedule_lib_num s;
    pending_schedule_hash := pending_schedule_hash s;
    pending_schedule := pending_schedule s;
    active_schedule := active_schedule s;
    blockroot_merkle := blockroot;
    producer_to_last_produced :=
      <[producer_name prokey := block_num']> (producer_to_last_produced s);
    producer_to_last_implied_irb := irb;
    block_signing_key := block_signing_key_of prokey;
    confirm_count :=
      grow_confirm_count (confirm_count s) (required_confirmations (active_schedule s));
    confirmations := [];
  |}.

(** One of the two [flat_map] rebuilding loops of [maybe_promote_pending]. *)
Definition rebuild_producer_map (ps : list producer_key) (old : gmap account_name Z) (dflt : Z)
    : gmap account_name Z :=
  foldl (λ m pro, <[producer_name pro := default dflt (old !! producer_name pro)]> m) ∅ ps.

(** Assignments to the fields that the operations below change. *)
Definition with_header (s : block_header_state) (h : signed_block_header) : block_header_state :=
  BlockHeaderState (id s) (block_num s) h (dpos_proposed_irreversible_blocknum s)
    (dpos_irreversible_blocknum s) (bft_irreversible_blocknum s) (pending_schedule_lib_num s)
    (pending_schedule_hash s) (pending_schedule s) (active_schedule s) (blockroot_merkle s)
    (producer_to_last_produced s) (producer_to_last_implied_irb s) (block_signing_key s)
    (confirm_count s) (confirmations s).

Definition with_id (s : block_header_state) (i : digest) : block_header_state :=
  BlockHeaderState i (block_num s) (header s) (dpos_proposed_irreversible_blocknum s)
    (dpos_irreversible_blocknum s) (bft_irreversible_blocknum s) (pending_schedule_lib_num s)
    (pending_schedule_hash s) (pending_schedule s) (active_schedule s) (blockroot_merkle s)
    (producer_to_last_produced s) (producer_to_last_implied_irb s) (block_signing_key s)
    (confirm_count s) (confirmations s).

Definition with_confirmation_counts (s : block_header_state) (proposed : Z) (cc : list Z)
    : block_header_state :=
  BlockHeaderState (id s) (block_num s) (header s) proposed
    (dpos_irreversible_blocknum s) (bft_irreversible_blocknum s) (pending_schedule_lib_num s)
    (pending_schedule_hash s) (pending_schedule s) (active_schedule s) (blockroot_merkle s)
    (producer_to_last_produced s) (producer_to_last_implied_irb s) (block_signing_key s)
    cc (confirmations s).

Definition with_active_schedule (s : block_header_state) (pending active : producer_schedule_type)
    (produced irb : gmap account_name Z) : block_header_state :=
  BlockHeaderState (id s) (block_num s) (header s) (dpos_proposed_irreversible_blocknum s)
    (dpos_irreversible_blocknum s) (bft_irreversible_blocknum s) (pending_schedule_lib_num s)
    (pending_schedule_hash s) pending active (blockroot_merkle s)
    produced irb (block_signing_key s) (confirm_count s) (confirmations s).

Definition with_pending_schedule (s : block_header_state) (h : signed_block_header)
    (hash : digest) (pending : producer_schedule_type) (lib_num : Z) : block_header_state :=
  BlockHeaderState (id s) (block_num s) h (dpos_proposed_irreversible_blocknum s)
    (dpos_irreversible_blocknum s) (bft_irreversible_blocknum s) lib_num
    hash pending (active_schedule s) (blockroot_merkle s)
    (producer_to_last_produced s) (producer_to_last_implied_irb s) (block_signing_key s)
    (confirm_count s) (confirmations s).

Definition with_confirmations (s : block_header_state) (cs : list header_confirmation)
    : block_header_state :=
  BlockHeaderState (id s) (block_num s) (header s) (dpos_proposed_irreversible_blocknum s)
    (dpos_irreversible_blocknum s) (bft_irreversible_blocknum s) (pending_schedule_lib_num s)
    (pending_schedule_hash s) (pending_schedule s) (active_schedule s) (blockroot_merkle s)
    (producer_to_last_produced s) (producer_to_last_implied_irb s) (block_signing_key s)
    (confirm_count s) cs.

Definition with_bft_irreversible (s : block_header_state) (n : Z) : block_header_state :=
  BlockHeaderState (id s) (block_num s) (header s) (dpos_proposed_irreversible_blocknum s)
    (dpos_irreversible_blocknum s) n (pending_schedule_lib_num s)
    (pending_schedule_hash s) (pending_schedule s) (active_schedule s) (blockroot_merkle s)
    (producer_to_last_produced s) (producer_to_last_implied_irb s) (block_signing_key s)
    (confirm_count s) (confirmations s).

Definition header_with_confirmed (h : block_header) (n : Z) : block_header :=
  BlockHeader (timestamp h) (producer h) n (previous h) (transaction_mroot h) (action_mroot h)
    (schedule_version h) (header_consensus_type h) (new_producers h) (header_extensions h).

Definition header_with_new_producers (h : block_header) (p : producer_schedule_type) : block_header :=
  BlockHeader (timestamp h) (producer h) (confirmed h) (previous h) (transaction_mroot h)
    (action_mroot h) (schedule_version h) (header_consensus_type h) (Some p) (header_extensions h).

Definition header_with_mroots (h : block_header) (action_mroot transaction_mroot : digest)
    : block_header :=
  BlockHeader (timestamp h) (producer h) (confirmed h) (previous h) transaction_mroot
    action_mroot (schedule_version h) (header_consensus_type h) (new_producers h)
    (header_extensions h).

(** Returns whether the pending schedule became active.  Moving a schedule out leaves its
    vector of producers empty. *)
Definition maybe_promote_pending (s : block_header_state) : bool * block_header_state :=
  if negb (length (producers (pending_schedule s)) =? 0)%nat &&
     (pending_schedule_lib_num s <=? dpos_irreversible_blocknum s)
  then
    let active := pending_schedule s in
    let moved := ProducerSchedule (version active) (consensus_type active) [] in
    let produced := rebuild_producer_map (producers active) (producer_to_last_produced s)
                      (dpos_irreversible_blocknum s) in
    let irb := rebuild_producer_map (producers active) (producer_to_last_implied_irb s)
                 (dpos_irreversible_blocknum s) in
    (true, with_active_schedule s moved active
             (<[producer (hdr (header s)) := block_num s]> produced) irb)
  else (false, s).

Definition set_new_producers (s : block_header_state) (pending : producer_schedule_type)
    : result block_header_state :=
  _ ← EOS_ASSERT (version pending =? u32 (version (active_schedule s) + 1))
        producer_schedule_exception;
  _ ← EOS_ASSERT (length (producers (pending_schedule s)) =? 0)%nat producer_schedule_exception;
  let h := SignedBlockHeader (header_with_new_producers (hdr (header s)) pending)
             (producer_signature (header s)) in
  mret (with_pending_schedule s h (hash_schedule pending) pending (block_num s)).

(** The [while] loop of [set_confirmed]; [k] is [i + 1]. *)
Fixpoint set_confirmed_while (s : block_header_state) (k : nat) (blocks_to_confirm : Z)
    (cc : list Z) : block_header_state :=
  match k with
  | O => with_confirmation_counts s (dpos_proposed_irreversible_blocknum s) cc
  | S i =>
      if blocks_to_confirm =? 0
      then with_confirmation_counts s (dpos_proposed_irreversible_blocknum s) cc
      else
        let c := u8 (nth i cc 0 - 1) in
        let cc := <[i := c]> cc in
        if c =? 0 then
          let block_num_for_i := u32 (block_num s - u32 (Z.of_nat (length cc) - 1 - Z.of_nat i)) in
          with_confirmation_counts s block_num_for_i
            (if (i =? length cc - 1)%nat then [] else take (length cc - i - 1) (drop (i + 1) cc))
        else set_confirmed_while s i (u32 (blocks_to_confirm - 1)) cc
  end.

Definition set_confirmed (s : block_header_state) (num_prev_blocks : Z) : block_header_state :=
  let s := with_header s (SignedBlockHeader
             (header_with_confirmed (hdr (header s)) num_prev_blocks)
             (producer_signature (header s))) in
  set_confirmed_while s (length (confirm_count s)) (u32 (num_prev_blocks + 1)) (confirm_count s).

Definition sig_digest (s : block_header_state) : result digest :=
  root ← get_root (blockroot_merkle s);
  let header_bmroot := hash_pair (hash_header (hdr (header s)), root) in
  mret (hash_pair (header_bmroot, pending_schedule_hash s)).

Definition sign (s : block_header_state) (signer : digest → signature)
    : result block_header_state :=
  d ← sig_digest s;
  let s := with_header s (SignedBlockHeader (hdr (header s)) (signer d)) in
  k ← recover_key (producer_signature (header s)) d false;
  _ ← EOS_ASSERT (bool_decide (block_signing_key s = k)) wrong_signing_key;
  mret s.

Definition signee (s : block_header_state) : result public_key :=
  d ← sig_digest s;
  recover_key (producer_signature (header s)) d true.

Definition verify_signee (s : block_header_state) (k : public_key) : result unit :=
  EOS_ASSERT (bool_decide (block_signing_key s = k)) wrong_signing_key.

Definition next (s : block_header_state) (h : signed_block_header) (skip_validate_signee : bool)
    : result block_header_state :=
  let hh := hdr h in
  _ ← EOS_ASSERT (negb (timestamp hh =? timestamp_default)) block_validate_exception;
  _ ← EOS_ASSERT (length (header_extensions hh) =? 0)%nat block_validate_exception;
  _ ← EOS_ASSERT (timestamp (hdr (header s)) <? timestamp hh) block_validate_exception;
  _ ← EOS_ASSERT (bool_decide (previous hh = id s)) unlinkable_block_exception;
  r ← generate_next s (timestamp hh);
  _ ← EOS_ASSERT (producer (hdr (header r)) =? producer hh) wrong_producer;
  _ ← EOS_ASSERT (schedule_version (hdr (header r)) =? schedule_version hh)
        producer_schedule_exception;
  _ ← (match producer_to_last_produced s !! producer hh with
       | Some last => EOS_ASSERT (last <? u32 (block_num r - confirmed hh)) producer_double_confirm
       | None => mret tt
       end);
  let r := set_confirmed r (confirmed hh) in
  let '(was_pending_promoted, r) := maybe_promote_pending r in
  r ← (match new_producers hh with
       | Some ps =>
           _ ← EOS_ASSERT (negb was_pending_promoted) producer_schedule_exception;
           set_new_producers r ps
       | None => mret r
       end);
  let r := with_header r (SignedBlockHeader
             (header_with_mroots (hdr (header r)) (action_mroot hh) (transaction_mroot hh))
             (producer_signature h)) in
  let r := with_id r (header_id (hdr (header r))) in
  _ ← (if skip_validate_signee then mret tt
       else k ← signee r; verify_signee r k);
  mret r.

Definition add_confirmation (s : block_header_state) (conf : header_confirmation)
    : result block_header_state :=
  _ ← EOS_ASSERT (forallb (λ c, negb (conf_producer c =? conf_producer conf)) (confirmations s))
        producer_double_confirm;
  let key := get_producer_key (producers (active_schedule s)) (conf_producer conf) in
  _ ← EOS_ASSERT (negb (bool_decide (key = public_key_default))) producer_not_in_schedule;
  d ← sig_digest s;
  signer ← recover_key (conf_signature conf) d true;
  _ ← EOS_ASSERT (bool_decide (signer = key)) wrong_signing_key;
  mret (with_confirmations s (confirmations s ++ [conf])).

Definition has_pending_producers (s : block_header_state) : bool :=
  negb (length (producers (pending_schedule s)) =? 0)%nat.

(** ** Specification notions *)

(** How many producers imply that block [b] is irreversible. *)
Definition supporters (irb : gmap account_name Z) (b : Z) : nat :=
  size (filter (λ kv, b <= kv.2) irb).

(** The well-formedness invariant of header states: block numbers are uint32, the confirmation
    counts are bytes for the latest blocks above the proposed irreversible one, no producer implies
    more than the proposed irreversible block, the DPOS irreversible block is not beyond it, and the
    active schedule is not empty and covers the producers of the implied-irreversible map. *)
Record header_wf (s : block_header_state) : Prop := {
  wf_num : 0 <= block_num s < 2 ^ 32;
  wf_counts : Forall (λ c, 0 <= c < 2 ^ 8) (confirm_count s);
  wf_window : (length (confirm_count s) <= maximum_tracked_dpos_confirmations)%nat;
  wf_proposed : 0 <= dpos_proposed_irreversible_blocknum s;
  wf_tracked :
    dpos_proposed_irreversible_blocknum s + Z.of_nat (length (confirm_count s)) <= block_num s;
  wf_implied :
    map_Forall (λ _ b, 0 <= b <= dpos_proposed_irreversible_blocknum s)
      (producer_to_last_implied_irb s);
  wf_lib : 0 <= dpos_irreversible_blocknum s <= dpos_proposed_irreversible_blocknum s;
  wf_active : producers (active_schedule s) ≠ [];
  wf_dom : ∀ p, is_Some (producer_to_last_implied_irb s !! p) →
    p ∈ (producer_name <$> producers (active_schedule s));
}.

(** The schedules have at most the configured maximum of producers and the counts are positive: no
    count has wrapped around.  A chain whose schedules were all proposed by set_proposed_producers is so;
    [next] does not check the size of the schedule in a header. *)
Record counts_sound (s : block_header_state) : Prop := {
  cs_counts : Forall (λ c, 1 <= c) (confirm_count s);
  cs_active : Z.of_nat (length (producers (active_schedule s))) <= max_producers;
  cs_pending : Z.of_nat (length (producers (pending_schedule s))) <= max_producers;
}.
Definition proposes_within (h : signed_block_header) : Prop :=
  match new_producers (hdr h) with
  | Some ps => Z.of_nat (length (producers ps)) <= max_producers
  | None => True
  end.

(** The headers that were accepted one after the other, below the last representable block number;
    [confirmed] is a uint16. *)
Inductive header_chain : list signed_block_header → block_header_state → block_header_state → Prop :=
| HeaderNil s : header_chain [] s s
| HeaderCons h hs skip s m r :
    block_num s + 1 < 2 ^ 32 → in_u16 (confirmed (hdr h)) → next s h skip = Ok m → header_chain hs m r →
    header_chain (h :: hs) s r.

(** The irreversible number is the one the producers' implied numbers give (true of every
    state that [next] returns without promoting a schedule). *)
Definition lib_from_map (s : block_header_state) : Prop :=
  dpos_irreversible_blocknum s = calc_dpos_last_irreversible (producer_to_last_implied_irb s).

(** The header of a state with the confirmed count set. *)
Definition confirmed_header (s : block_header_state) (n : Z) : block_header_state :=
  with_header s (SignedBlockHeader (header_with_confirmed (hdr (header s)) n)
    (producer_signature (header s))).

(** ** The DPOS irreversible block number *)

Lemma sorted_nth_count (l : list Z) k b :
  StronglySorted Z.le l → (k < length l)%nat →
  b <= nth k l 0 ↔ (length l - k <= length (filter (λ x : Z, (b <= x)%Z) l))%nat.
Proof.
  intros Hs. revert k. induction Hs as [|x l Hs IH Hx]; intros k Hk; [simpl in Hk; lia|].
  destruct (decide (b <= x)) as [Hb|Hb].
  - assert (Hall : filter (λ x : Z, (b <= x)%Z) (x :: l) = x :: l).
    { apply filter_all. constructor; [done|]. eapply Forall_impl; [exact Hx|]. simpl. lia. }
    rewrite Hall. split; [lia|]. intros _.
    destruct k as [|k]; [done|]. simpl in *.
    assert (Hn : nth k l 0 ∈ l) by (apply list_elem_of_In, nth_In; lia).
    rewrite Forall_forall in Hx. specialize (Hx _ Hn). lia.
  - rewrite filter_cons_False by done. destruct k as [|k]; simpl in *.
    + pose proof (length_filter (λ x : Z, (b <= x)%Z) l). lia.
    + apply IH. lia.
Qed.

Lemma supporters_values irb b :
  supporters irb b = length (filter (λ x : Z, (b <= x)%Z) (map_to_list irb).*2).
Proof.
  unfold supporters. induction irb as [|p v irb Hp IH] using map_ind.
  { by rewrite map_filter_empty, map_size_empty, map_to_list_empty. }
  rewrite map_to_list_insert by done. simpl.
  destruct (decide (b <= v)).
  - rewrite filter_cons_True, map_filter_insert_True by done. simpl.
    rewrite map_size_insert_None, IH; [done|]. by apply map_lookup_filter_None_2; left.
  - rewrite filter_cons_False by done. rewrite map_filter_insert_False by done.
    by rewrite delete_id.
Qed.

Lemma calc_dpos_count irb b :
  irb ≠ ∅ →
  b <= calc_dpos_last_irreversible irb ↔
  (size irb - (size irb - 1) / 3 <= supporters irb b)%nat.
Proof.
  intros Hne. rewrite supporters_values. unfold calc_dpos_last_irreversible.
  assert (Hsize : length (map_to_list irb).*2 = size irb).
  { by rewrite length_fmap, length_map_to_list. }
  assert (0 < size irb)%nat by (apply Nat.neq_0_lt_0; intros ?%map_size_empty_iff; done).
  rewrite Hsize. destruct (size irb =? 0)%nat eqn:E; reflect_bools; [lia|].
  set (l := merge_sort Z.le _).
  assert (Hp : l ≡ₚ (map_to_list irb).*2) by apply merge_sort_Permutation.
  assert (Hl : length l = size irb) by (by rewrite Hp).
  assert (Hf : filter (λ x : Z, (b <= x)%Z) l ≡ₚ filter (λ x : Z, (b <= x)%Z) (map_to_list irb).*2).
  { by rewrite Hp. }
  rewrite Hl. rewrite sorted_nth_count, Hl, Hf; [done|..].
  - apply StronglySorted_merge_sort; apply _.
  - rewrite Hl. pose proof (Nat.Div0.div_le_upper_bound (size irb - 1) 3 (size irb - 1)). lia.
Qed.

Lemma calc_dpos_quorum irb b :
  irb ≠ ∅ →
  b <= calc_dpos_last_irreversible irb ↔ (2 * size irb < 3 * supporters irb b)%nat.
Proof.
  intros Hne. rewrite calc_dpos_count by done.
  pose proof (Nat.div_mod_eq (size irb - 1) 3).
  pose proof (Nat.mod_upper_bound (size irb - 1) 3 ltac:(lia)).
  assert (0 < size irb)%nat by (apply Nat.neq_0_lt_0; intros ?%map_size_empty_iff; done).
  lia.
Qed.

Lemma supporters_zero_above irb M b :
  map_Forall (λ _ v, 0 <= v <= M) irb → M < b → supporters irb b = 0%nat.
Proof.
  intros Hall Hb. unfold supporters. apply map_size_empty_iff, map_empty.
  intros p. apply map_lookup_filter_None_2. right. intros v Hv. specialize (Hall p v Hv). simpl in *. lia.
Qed.

Lemma calc_dpos_bounds irb M :
  0 <= M → map_Forall (λ _ v, 0 <= v <= M) irb →
  0 <= calc_dpos_last_irreversible irb <= M.
Proof.
  intros HM Hall. destruct (decide (irb = ∅)) as [->|Hne]; [done|].
  assert (0 < size irb)%nat by (apply Nat.neq_0_lt_0; intros ?%map_size_empty_iff; done).
  split.
  - apply calc_dpos_quorum; [done|]. unfold supporters.
    assert (Heq : filter (λ kv : account_name * Z, 0 <= kv.2) irb = irb).
    { apply map_filter_id. intros p v Hv. specialize (Hall p v Hv). simpl in *. lia. }
    rewrite Heq. lia.
  - destruct (decide (calc_dpos_last_irreversible irb <= M)) as [|Hgt]; [done|].
    assert (Hq : M + 1 <= calc_dpos_last_irreversible irb) by lia.
    apply calc_dpos_quorum in Hq; [|done].
    rewrite (supporters_zero_above irb M) in Hq by (done || lia). lia.
Qed.

(** Recording that a producer now implies the highest block number so far. *)
Lemma calc_dpos_insert_mono irb p M :
  0 <= M → map_Forall (λ _ v, 0 <= v <= M) irb →
  calc_dpos_last_irreversible irb <= calc_dpos_last_irreversible (<[p := M]> irb).
Proof.
  intros HM Hall. pose proof (calc_dpos_bounds irb M HM Hall) as Hb.
  destruct (decide (irb = ∅)) as [->|Hne].
  { apply calc_dpos_bounds with M; [done|]. intros q v. rewrite insert_empty.
    intros [_ <-]%lookup_singleton_Some. lia. }
  apply calc_dpos_quorum; [apply insert_non_empty|].
  pose proof (proj1 (calc_dpos_quorum irb _ Hne) (Z.le_refl _)) as Hq.
  unfold supporters in *. rewrite map_filter_insert_True by (simpl; lia).
  rewrite !map_size_insert, map_lookup_filter.
  destruct (irb !! p) as [v|]; simpl; [case_guard; simpl|]; lia.
Qed.

(** ** Confirmation counts *)

(** A count that does not reach zero when it is lowered. *)
Definition stays (c : Z) : Prop := 0 <= c < 2 ^ 8 ∧ c ≠ 1.
Definition lowered (c : Z) : Z := u8 (c - 1).
Lemma lowered_zero c : 0 <= c < 2 ^ 8 → lowered c = 0 ↔ c = 1.
Proof.
  intros Hc. unfold lowered, u8. split; [|by intros ->]. intros Hz.
  destruct (decide (c = 0)) as [->|]; [done|]. rewrite Z.mod_small in Hz by lia. lia.
Qed.

Lemma set_confirmed_while_step s (A B : list Z) c b :
  0 <= c < 2 ^ 8 → 0 < b < 2 ^ 32 → Z.of_nat (length B) <= block_num s < 2 ^ 32 →
  set_confirmed_while s (length (A ++ [c])) b ((A ++ [c]) ++ B) =
  if c =? 1 then with_confirmation_counts s (block_num s - Z.of_nat (length B)) B
  else set_confirmed_while s (length A) (b - 1) (A ++ lowered c :: B).
Proof.
  intros Hc Hb Hs. rewrite length_app, Nat.add_1_r. cbn [set_confirmed_while].
  destruct (b =? 0) eqn:E; reflect_bools; [lia|].
  rewrite <-(assoc_L (++)), nth_lookup, lookup_app_r, Nat.sub_diag by lia. simpl.
  rewrite insert_app_r_alt, Nat.sub_diag by lia. simpl.
  fold (lowered c). pose proof (lowered_zero c Hc). destruct (c =? 1) eqn:E1; reflect_bools.
  - subst c. change (lowered 1 =? 0) with true. cbv iota.
    rewrite !length_app. simpl.
    replace (Z.of_nat (length A + S (length B)) - 1 - Z.of_nat (length A)) with (Z.of_nat (length B)) by lia.
    rewrite (u32_small (Z.of_nat _)), u32_small by lia. f_equal.
    destruct (_ =? _)%nat eqn:E2; reflect_bools.
    + destruct B; [done|]. simpl in *. lia.
    + rewrite cons_middle, (assoc_L (++)), drop_app_length' by (rewrite length_app; simpl; lia).
      apply take_ge. lia.
  - destruct (lowered c =? 0) eqn:E2; reflect_bools; [tauto|].
    by rewrite u32_small by lia.
Qed.

Lemma set_confirmed_while_zero s k cc :
  set_confirmed_while s k 0 cc =
  with_confirmation_counts s (dpos_proposed_irreversible_blocknum s) cc.
Proof. by destruct k. Qed.

(** The loop when no count among the confirmed blocks reaches zero. *)
Lemma set_confirmed_while_none s (A A' B : list Z) b :
  Forall stays A' → 0 <= b < 2 ^ 32 →
  (Z.of_nat (length A') = b ∨ A = [] ∧ Z.of_nat (length A') < b) →
  Z.of_nat (length A + length A' + length B) <= block_num s < 2 ^ 32 →
  set_confirmed_while s (length (A ++ A')) b ((A ++ A') ++ B) =
  with_confirmation_counts s (dpos_proposed_irreversible_blocknum s)
    (A ++ (lowered <$> A') ++ B).
Proof.
  intros HA'. revert b B. induction A' as [|c A' IH] using rev_ind; intros b B Hb Hlen Hs.
  { rewrite app_nil_r. destruct Hlen as [<-|[-> ?]]; [|done]. apply set_confirmed_while_zero. }
  rewrite Forall_app, Forall_singleton in HA'. destruct HA' as [HA' Hc].
  rewrite length_app in Hlen, Hs. simpl in Hlen, Hs.
  rewrite (assoc_L (++)), set_confirmed_while_step by (unfold stays in Hc; lia).
  destruct (c =? 1) eqn:E; reflect_bools; [by destruct Hc|].
  rewrite IH; [|done|lia|naive_solver lia|simpl; lia].
  f_equal. rewrite fmap_app, <-!(assoc_L (++)). done.
Qed.

(** The loop when the newest count that reaches zero is that of [c]. *)
Lemma set_confirmed_while_hit s (A A' B : list Z) b :
  Forall stays A' → Z.of_nat (length A') < b < 2 ^ 32 →
  Z.of_nat (length A + 1 + length A' + length B) <= block_num s < 2 ^ 32 →
  set_confirmed_while s (length (A ++ [1] ++ A')) b ((A ++ [1] ++ A') ++ B) =
  with_confirmation_counts s (block_num s - Z.of_nat (length A' + length B))
    ((lowered <$> A') ++ B).
Proof.
  intros HA'. revert b B. induction A' as [|c A' IH] using rev_ind; intros b B Hb Hs.
  { rewrite app_nil_r, set_confirmed_while_step by (simpl in *; lia). done. }
  rewrite Forall_app, Forall_singleton in HA'. destruct HA' as [HA' Hc].
  rewrite length_app in Hb, Hs. simpl in Hb, Hs.
  rewrite !(assoc_L (++)), set_confirmed_while_step by (unfold stays in Hc; lia).
  destruct (c =? 1) eqn:E; reflect_bools; [by destruct Hc|].
  rewrite <-(assoc_L (++) A), IH; [|done|lia|simpl; lia].
  rewrite fmap_app, !length_app, <-!(assoc_L (++)). simpl. f_equal. lia.
Qed.

(** The loop only touches the proposed number and the counts. *)
Lemma set_confirmed_shape s n :
  ∃ proposed cc, set_confirmed s n = with_confirmation_counts (confirmed_header s n) proposed cc.
Proof.
  unfold set_confirmed. fold (confirmed_header s n).
  assert (Hw : ∀ k b cc, ∃ proposed cc', set_confirmed_while (confirmed_header s n) k b cc =
    with_confirmation_counts (confirmed_header s n) proposed cc'); [|apply Hw].
  induction k as [|k IH]; intros b cc; cbn [set_confirmed_while]; [by eexists _, _|].
  destruct (b =? 0); [by eexists _, _|].
  destruct (u8 _ =? 0); [by eexists _, _|apply IH].
Qed.

Lemma split_last_one (l : list Z) :
  Forall (λ c, 0 <= c < 2 ^ 8) l →
  Forall stays l ∨
  ∃ l1 l2, l = l1 ++ [1] ++ l2 ∧ Forall stays l2.
Proof.
  induction 1 as [|c l Hc _ [IH|(l1 & l2 & -> & IH)]]; [by left| |].
  - destruct (decide (c = 1)) as [->|]; [right; by exists [], l|].
    left. by constructor.
  - right. by exists (c :: l1), l2.
Qed.

Lemma set_confirmed_cases s n :
  header_wf s → in_u16 n →
  ∃ A A', confirm_count s = A ++ A' ∧
    length A' = Nat.min (Z.to_nat (n + 1)) (length (confirm_count s)) ∧
    ((Forall stays A' ∧
      set_confirmed s n = with_confirmation_counts (confirmed_header s n)
        (dpos_proposed_irreversible_blocknum s) (A ++ (lowered <$> A'))) ∨
     (∃ A1 A2, A' = A1 ++ [1] ++ A2 ∧ Forall stays A2 ∧
      set_confirmed s n = with_confirmation_counts (confirmed_header s n)
        (block_num s - Z.of_nat (length A2)) (lowered <$> A2))).
Proof.
  intros Hwf Hn. unfold in_u16 in Hn. unfold set_confirmed. fold (confirmed_header s n).
  change (confirm_count (confirmed_header s n)) with (confirm_count s).
  rewrite u32_small by lia.
  set (m := Nat.min (Z.to_nat (n + 1)) (length (confirm_count s))).
  set (k := (length (confirm_count s) - m)%nat).
  pose proof (wf_tracked s Hwf) as Htr. pose proof (wf_proposed s Hwf). pose proof (wf_num s Hwf).
  pose proof (wf_counts s Hwf) as Hcc.
  exists (take k (confirm_count s)), (drop k (confirm_count s)).
  rewrite take_drop. split; [done|].
  assert (Hd : length (drop k (confirm_count s)) = m) by (rewrite length_drop; lia).
  assert (Ht : length (take k (confirm_count s)) = k) by (rewrite length_take; lia).
  split; [done|].
  rewrite <-(take_drop k (confirm_count s)) in Hcc. rewrite Forall_app in Hcc.
  destruct Hcc as [_ Hcc]. apply split_last_one in Hcc as [Hnone|(A1 & A2 & HA & HA2)].
  - left. split; [done|].
    pose proof (set_confirmed_while_none (confirmed_header s n) (take k (confirm_count s))
      (drop k (confirm_count s)) [] (n + 1)) as Hw.
    rewrite take_drop, !app_nil_r in Hw. apply Hw; [done|lia| |simpl; lia].
    rewrite Hd. destruct (decide (Z.to_nat (n + 1) <= length (confirm_count s))%nat); [left; lia|].
    right. split; [|lia]. apply nil_length_inv. lia.
  - right. exists A1, A2. split; [done|]. split; [done|].
    pose proof (set_confirmed_while_hit (confirmed_header s n) (take k (confirm_count s) ++ A1)
      A2 [] (n + 1)) as Hw.
    rewrite HA in Hd. rewrite !length_app in Hd. simpl in Hd.
    rewrite <-(assoc_L (++)), <-HA, take_drop, !app_nil_r in Hw.
    change (length (@nil Z)) with 0%nat in Hw. rewrite !Nat.add_0_r in Hw.
    apply Hw; [done|lia|]. rewrite length_app. simpl. lia.
Qed.

(** ** Preservation of well-formedness *)

Lemma with_header_wf s h : header_wf s → header_wf (with_header s h).
Proof. intros []. by constructor. Qed.

Lemma with_id_wf s i : header_wf s → header_wf (with_id s i).
Proof. intros []. by constructor. Qed.

Lemma lowered_counts (l : list Z) : Forall (λ c, 0 <= c < 2 ^ 8) (lowered <$> l).
Proof. apply Forall_fmap, Forall_true. intros c. unfold lowered. apply u8_range. Qed.

Lemma set_confirmed_wf s n :
  header_wf s → in_u16 n →
  header_wf (set_confirmed s n) ∧
  dpos_proposed_irreversible_blocknum s <= dpos_proposed_irreversible_blocknum (set_confirmed s n) ∧
  block_num (set_confirmed s n) = block_num s ∧
  dpos_irreversible_blocknum (set_confirmed s n) = dpos_irreversible_blocknum s ∧
  producer_to_last_implied_irb (set_confirmed s n) = producer_to_last_implied_irb s.
Proof.
  intros Hwf Hn. destruct (set_confirmed_cases s n Hwf Hn) as (A & A' & Hcc & Hlen & Hcase).
  destruct Hwf as [Hnum Hcs Hwin Hprop Htr Himp Hlib Ha Hdom].
  rewrite Hcc in *. rewrite Forall_app in Hcs. rewrite !length_app in *.
  destruct Hcase as [[Hf ->]|(A1 & A2 & -> & Hf & ->)]; simpl.
  - split_and!; try done; try lia. constructor; simpl; try done.
    + apply Forall_app. split; [apply Hcs|apply lowered_counts].
    + by rewrite length_app, length_fmap.
    + rewrite length_app, length_fmap. lia.
  - rewrite !length_app in *. simpl in *. split_and!; try done; try lia.
    constructor; simpl; try done; try (rewrite length_fmap); try lia.
    + apply lowered_counts.
    + intros p v Hv. specialize (Himp p v Hv). simpl in Himp. lia.
Qed.

Lemma rebuild_producer_map_lookup ps old d p :
  rebuild_producer_map ps old d !! p =
  if bool_decide (p ∈ producer_name <$> ps) then Some (default d (old !! p)) else None.
Proof.
  unfold rebuild_producer_map.
  induction ps as [|x ps IH] using rev_ind; [done|].
  rewrite foldl_app. simpl. rewrite lookup_insert, IH, fmap_app. simpl.
  destruct (decide (producer_name x = p)) as [E|E]; [subst|].
  - rewrite bool_decide_eq_true_2; [done|]. apply elem_of_app. right. by apply list_elem_of_singleton.
  - destruct (decide (p ∈ producer_name <$> ps)) as [Hp|Hp].
    + rewrite !bool_decide_eq_true_2; [done|by apply elem_of_app; left|done].
    + rewrite !bool_decide_eq_false_2; [done| |done].
      intros [?|Hx%list_elem_of_singleton]%elem_of_app; congruence.
Qed.

Lemma maybe_promote_wf s b s' :
  header_wf s → maybe_promote_pending s = (b, s') →
  header_wf s' ∧ block_num s' = block_num s ∧
  dpos_irreversible_blocknum s' = dpos_irreversible_blocknum s ∧
  dpos_proposed_irreversible_blocknum s' = dpos_proposed_irreversible_blocknum s.
Proof.
  intros Hwf. unfold maybe_promote_pending. destruct (_ && _) eqn:E; intros [= <- <-]; [|done].
  split; [|done]. destruct Hwf as [Hnum Hcs Hwin Hprop Htr Himp Hlib Ha Hdom].
  reflect_bools. constructor; simpl; try done.
  - intros p v. rewrite rebuild_producer_map_lookup. case_bool_decide; [|done].
    intros [= <-]. destruct (_ !! p) as [w|] eqn:Ew; simpl; [exact (Himp p w Ew)|done].
  - intros ?. destruct (producers (pending_schedule s)); simpl in *; [lia|done].
  - intros p [v Hv]. rewrite rebuild_producer_map_lookup in Hv. by case_bool_decide.
Qed.

Lemma set_new_producers_wf s ps s' :
  header_wf s → set_new_producers s ps = Ok s' →
  header_wf s' ∧ block_num s' = block_num s ∧
  dpos_irreversible_blocknum s' = dpos_irreversible_blocknum s ∧
  dpos_proposed_irreversible_blocknum s' = dpos_proposed_irreversible_blocknum s.
Proof.
  intros [] Hok. unfold set_new_producers in Hok. inv_ok. split; [|done]. by constructor.
Qed.

Lemma required_confirmations_range sched :
  producers sched ≠ [] → Z.of_nat (length (producers sched)) <= max_producers →
  1 <= required_confirmations sched < 2 ^ 8.
Proof.
  intros Hne Hmax. unfold max_producers in Hmax.
  assert (1 <= Z.of_nat (length (producers sched))) by (destruct (producers sched); [done|simpl; lia]).
  unfold required_confirmations. set (n := Z.of_nat _) in *.
  assert (0 <= n * 2 / 3 <= 100) by (split; [apply Z.div_pos; lia|apply Z.div_le_upper_bound; lia]).
  assert (0 <= n / 2 <= 100) by (split; [apply Z.div_pos; lia|apply Z.div_le_upper_bound; lia]).
  assert (0 <= n / 3 <= 100) by (split; [apply Z.div_pos; lia|apply Z.div_le_upper_bound; lia]).
  rewrite !u32_small by lia. repeat case_match; lia.
Qed.

Lemma get_scheduled_producer_elem s t pk :
  get_scheduled_producer s t = Ok pk → pk ∈ producers (active_schedule s).
Proof.
  unfold get_scheduled_producer. intros Hok. inv_ok. by eapply list_elem_of_lookup_2.
Qed.

(** The parts of the state that [generate_next] carries over. *)
Lemma generate_next_frame s when g :
  generate_next s when = Ok g →
  pending_schedule g = pending_schedule s ∧
  pending_schedule_lib_num g = pending_schedule_lib_num s ∧
  pending_schedule_hash g = pending_schedule_hash s ∧
  active_schedule g = active_schedule s ∧
  bft_irreversible_blocknum g = bft_irreversible_blocknum s ∧
  previous (hdr (header g)) = id s.
Proof. intros Hok. unfold generate_next in Hok. by inv_ok. Qed.

Lemma generate_next_wf s when g :
  header_wf s → block_num s + 1 < 2 ^ 32 → generate_next s when = Ok g →
  header_wf g ∧ block_num g = block_num s + 1 ∧
  dpos_proposed_irreversible_blocknum g = dpos_proposed_irreversible_blocknum s ∧
  dpos_irreversible_blocknum g = calc_dpos_last_irreversible (producer_to_last_implied_irb g) ∧
  calc_dpos_last_irreversible (producer_to_last_implied_irb s) <=
    dpos_irreversible_blocknum g.
Proof.
  intros [Hnum Hcs Hwin Hprop Htr Himp Hlib Ha Hdom] Hlt Hok.
  unfold generate_next in Hok. inv_ok. simpl.
  match goal with Hg : get_scheduled_producer _ _ = Ok ?pk |- _ =>
    apply get_scheduled_producer_elem in Hg; set (p := producer_name pk) in * end.
  assert (Himp' : map_Forall (λ _ v, 0 <= v <= dpos_proposed_irreversible_blocknum s)
    (<[p := dpos_proposed_irreversible_blocknum s]> (producer_to_last_implied_irb s))).
  { apply map_Forall_insert_2; [lia|done]. }
  rewrite (u32_small (block_num s + 1)) by lia.
  split_and!; try done; [|by apply calc_dpos_insert_mono].
  assert (Hgrow : Forall (λ c, 0 <= c < 2 ^ 8)
      (grow_confirm_count (confirm_count s) (required_confirmations (active_schedule s))) ∧
    (length (grow_confirm_count (confirm_count s) (required_confirmations (active_schedule s)))
      <= maximum_tracked_dpos_confirmations)%nat ∧
    (length (grow_confirm_count (confirm_count s) (required_confirmations (active_schedule s)))
      <= S (length (confirm_count s)))%nat).
  { unfold grow_confirm_count. pose proof (u8_range (required_confirmations (active_schedule s))) as Hu. unfold in_u8 in Hu.
    destruct (_ <? _)%nat eqn:E; reflect_bools; rewrite Forall_app, Forall_singleton, length_app.
    - simpl. split_and!; try done; lia.
    - rewrite length_drop. unfold maximum_tracked_dpos_confirmations in *. simpl.
      split_and!; [by apply Forall_drop|lia..]. }
  destruct Hgrow as (Hg1 & Hg2 & Hg3).
  constructor; simpl; try done; try lia.
  - by apply calc_dpos_bounds.
  - intros q. destruct (decide (p = q)) as [<-|].
    + intros _. apply list_elem_of_fmap. by eexists.
    + rewrite lookup_insert_ne by done. apply Hdom.
Qed.

(** The steps of a successful [next]. *)
Lemma next_inv s h skip r :
  next s h skip = Ok r →
  ∃ g b s2 s3,
    (timestamp (hdr h) ≠ timestamp_default ∧ timestamp (hdr (header s)) < timestamp (hdr h)) ∧
    previous (hdr h) = id s ∧
    generate_next s (timestamp (hdr h)) = Ok g ∧
    producer (hdr (header g)) = producer (hdr h) ∧
    schedule_version (hdr (header g)) = schedule_version (hdr h) ∧
    (∀ l, producer_to_last_produced s !! producer (hdr h) = Some l →
      l < u32 (block_num g - confirmed (hdr h))) ∧
    maybe_promote_pending (set_confirmed g (confirmed (hdr h))) = (b, s2) ∧
    match new_producers (hdr h) with
    | Some ps => b = false ∧ set_new_producers s2 ps = Ok s3
    | None => s3 = s2
    end ∧
    let s4 := with_header s3 (SignedBlockHeader
                (header_with_mroots (hdr (header s3)) (action_mroot (hdr h)) (transaction_mroot (hdr h)))
                (producer_signature h)) in
    r = with_id s4 (header_id (hdr (header s4))) ∧
    (skip = false → signee r = Ok (block_signing_key r)).
Proof.
  intros Hok. unfold next in Hok. inv_ok.
  destruct (maybe_promote_pending _) as [b s2] eqn:Hprom. inv_ok. reflect_bools.
  match goal with Hg : generate_next _ _ = Ok ?x |- _ => exists x end.
  exists b, s2.
  match goal with Hn : match new_producers _ with _ => _ end = Ok ?x |- _ => exists x; rename Hn into Hnew end.
  split_and!; try done.
  - intros l Hl. rewrite Hl in *. inv_ok. by reflect_bools.
  - destruct (new_producers (hdr h)); inv_ok; [|done]. reflect_bools. done.
  - cbv zeta. split; [done|]. intros ->. inv_ok. unfold verify_signee in *. inv_ok.
    reflect_bools. congruence.
Qed.

Lemma generate_next_producer s when g :
  generate_next s when = Ok g → when ≠ timestamp_default →
  ∃ pk, get_scheduled_producer s when = Ok pk ∧ producer (hdr (header g)) = producer_name pk ∧
    block_signing_key g = block_signing_key_of pk ∧
    schedule_version (hdr (header g)) = version (active_schedule s).
Proof.
  intros Hok Hw. unfold generate_next in Hok. inv_ok.
  destruct (negb _) eqn:E; reflect_bools; [|done]. inv_ok. by eexists.
Qed.

(** The steps of [next] after [generate_next] keep its block number, its previous block and its
    signing key. *)
Lemma next_frame g h b s2 s3 :
  maybe_promote_pending (set_confirmed g (confirmed (hdr h))) = (b, s2) →
  match new_producers (hdr h) with
  | Some ps => b = false ∧ set_new_producers s2 ps = Ok s3
  | None => s3 = s2
  end →
  block_num s3 = block_num g ∧ previous (hdr (header s3)) = previous (hdr (header g)) ∧
  block_signing_key s3 = block_signing_key g.
Proof.
  destruct (set_confirmed_shape g (confirmed (hdr h))) as (pr & cc & ->).
  unfold maybe_promote_pending. intros Hprom Hnew.
  assert (block_num s2 = block_num g ∧ previous (hdr (header s2)) = previous (hdr (header g)) ∧
    block_signing_key s2 = block_signing_key g) as (? & ? & ?).
  { destruct (_ && _) in Hprom; by injection Hprom as <- <-. }
  destruct (new_producers (hdr h)); [|by subst].
  destruct Hnew as [_ Hnew]. unfold set_new_producers in Hnew. by inv_ok.
Qed.

(** What [next] keeps of the generated state. *)
Lemma next_from_generated s h skip r :
  header_wf s → block_num s + 1 < 2 ^ 32 → in_u16 (confirmed (hdr h)) → next s h skip = Ok r →
  ∃ g, generate_next s (timestamp (hdr h)) = Ok g ∧ header_wf r ∧
    block_num r = block_num s + 1 ∧
    dpos_irreversible_blocknum r = dpos_irreversible_blocknum g ∧
    dpos_proposed_irreversible_blocknum s <= dpos_proposed_irreversible_blocknum r.
Proof.
  intros Hwf Hlt Hc Hok.
  apply next_inv in Hok as (g & b & s2 & s3 & _ & _ & Hg & _ & _ & _ & Hprom & Hnew & -> & _).
  exists g. split; [done|].
  destruct (generate_next_wf _ _ _ Hwf Hlt Hg) as (Hgwf & Hgn & Hgp & _ & _).
  destruct (set_confirmed_wf g (confirmed (hdr h)) Hgwf Hc) as (Hcwf & Hcp & Hcn & Hcl & _).
  destruct (maybe_promote_wf _ _ _ Hcwf Hprom) as (Hpwf & Hpn & Hpl & Hpp).
  assert (header_wf s3 ∧ block_num s3 = block_num s2 ∧
    dpos_irreversible_blocknum s3 = dpos_irreversible_blocknum s2 ∧
    dpos_proposed_irreversible_blocknum s3 = dpos_proposed_irreversible_blocknum s2)
    as (Hwf3 & Hn3 & Hl3 & Hp3).
  { destruct (new_producers (hdr h)); [|by subst].
    destruct Hnew as [_ Hnew]. eauto using set_new_producers_wf. }
  split; [by apply with_id_wf, with_header_wf|]. simpl. split_and!; [congruence..|lia].
Qed.

(** The counts stay positive while the schedules are not too large. *)
Lemma generate_next_sound s when g :
  header_wf s → counts_sound s → generate_next s when = Ok g → counts_sound g.
Proof.
  intros Hwf [Hc Ha Hp] Hok. destruct (generate_next_frame _ _ _ Hok) as (Ep & _ & _ & Ea & _).
  pose proof (required_confirmations_range (active_schedule s) (wf_active s Hwf) Ha) as Hreq.
  split; rewrite ?Ep, ?Ea; [|done|done]. unfold generate_next in Hok. inv_ok. simpl. unfold grow_confirm_count.
  rewrite u8_small by lia. destruct (_ <? _)%nat; rewrite Forall_app, Forall_singleton.
  - split; [done|lia].
  - split; [by apply Forall_drop|lia].
Qed.
Lemma lowered_positive (l : list Z) : Forall stays l → Forall (λ c, 1 <= c) l → Forall (λ c, 1 <= c) (lowered <$> l).
Proof.
  intros Hs Hl. apply Forall_fmap. induction Hl as [|c l Hc Hl IH]; [done|]. apply Forall_cons in Hs as [[Hb Hn] Hs].
  constructor; [|by apply IH]. simpl. unfold lowered. rewrite u8_small by lia. lia.
Qed.
Lemma set_confirmed_sound s n :
  header_wf s → in_u16 n → counts_sound s → counts_sound (set_confirmed s n).
Proof.
  intros Hwf Hn [Hc Ha Hp]. destruct (set_confirmed_cases s n Hwf Hn) as (A & A' & E & _ & Hcase).
  rewrite E, Forall_app in Hc. destruct Hcase as [[Hf ->]|(A1 & A2 & -> & Hf & ->)]; split; simpl; try done.
  - apply Forall_app. split; [apply Hc|apply lowered_positive; [done|apply Hc]].
  - rewrite !Forall_app in Hc. apply lowered_positive; [done|apply Hc].
Qed.
Lemma next_sound s h skip r :
  header_wf s → block_num s + 1 < 2 ^ 32 → in_u16 (confirmed (hdr h)) → proposes_within h → counts_sound s →
  next s h skip = Ok r → counts_sound r.
Proof.
  intros Hwf Hlt Hc Hh Hs Hok.
  apply next_inv in Hok as (g & b & s2 & s3 & _ & _ & Hg & _ & _ & _ & Hprom & Hnew & -> & _).
  destruct (generate_next_wf _ _ _ Hwf Hlt Hg) as (Hgwf & _).
  pose proof (set_confirmed_sound g _ Hgwf Hc (generate_next_sound _ _ _ Hwf Hs Hg)) as Hs1.
  assert (counts_sound s2) as Hs2.
  { unfold maybe_promote_pending in Hprom. destruct (_ && _); injection Hprom as <- <-; [|done].
    destruct Hs1. split; simpl; [done|done|]. unfold max_producers. lia. }
  assert (counts_sound s3) as [].
  { unfold proposes_within in Hh. destruct (new_producers (hdr h)); [|by subst].
    destruct Hnew as [_ Hnew]. unfold set_new_producers in Hnew. inv_ok. by destruct Hs2. }
  by split.
Qed.

(** ** Properties *)

(** C1: the last irreversible block number is a two-thirds quorum.  A block number is at most
    what [calc_dpos_last_irreversible] returns exactly when strictly more than two thirds of
    the producers in the map imply that number or a later one. *)
Theorem lib_is_two_thirds_quorum irb b :
  irb ≠ ∅ →
  b <= calc_dpos_last_irreversible irb ↔ (2 * size irb < 3 * supporters irb b)%nat.
Proof. apply calc_dpos_quorum. Qed.

(** C2: every chain of headers that [next] accepts one after the other from a well-formed state (whose
    [confirmed] is a uint16, and below the last uint32 block number) leads to a well-formed state, one
    block number higher for each header; the proposed irreversible number never decreases along it, and
    the DPOS irreversible number never passes it.  When moreover no header proposes more than the 125
    producers that set_proposed_producers allows, which [next] does not check, no confirmation count
    ever wraps around: all of them stay positive. *)
Theorem header_chain_wf hs s r :
  header_wf s → header_chain hs s r →
  header_wf r ∧ block_num r = block_num s + Z.of_nat (length hs) ∧
  dpos_proposed_irreversible_blocknum s <= dpos_proposed_irreversible_blocknum r ∧
  dpos_irreversible_blocknum r <= dpos_proposed_irreversible_blocknum r <= block_num r ∧
  (counts_sound s → Forall proposes_within hs → counts_sound r).
Proof.
  intros Hwf Hr. revert Hwf. induction Hr as [s|h hs skip s m r Hlt Hc Hok _ IH]; intros Hwf.
  - destruct (wf_lib s Hwf). pose proof (wf_tracked s Hwf). split_and!; simpl; done || lia.
  - destruct (next_from_generated _ _ _ _ Hwf Hlt Hc Hok) as (g & _ & Hm & Hn & _ & Hp).
    destruct (IH Hm) as (? & ? & ? & ? & Hs). simpl length. split_and!; [done|lia|lia|lia|lia|].
    intros Hs0 [Hh Hhs]%Forall_cons. apply Hs; [|done]. by apply (next_sound s h skip).
Qed.

(** without a promotion in between, the DPOS irreversible number never goes back: if the
    current state's number is the one its map gives, the next state's number is at least as
    large, and it is again the one its map gives unless the pending schedule took effect. *)
Theorem lib_monotone s h skip r :
  header_wf s → block_num s + 1 < 2 ^ 32 → in_u16 (confirmed (hdr h)) → lib_from_map s →
  next s h skip = Ok r →
  dpos_irreversible_blocknum s <= dpos_irreversible_blocknum r ∧
  (producers (pending_schedule s) = [] ∨
     dpos_irreversible_blocknum r < pending_schedule_lib_num s → lib_from_map r).
Proof.
  intros Hwf Hlt Hh Hlib Hok.
  destruct (next_from_generated _ _ _ _ Hwf Hlt Hh Hok) as (g & Hg & _ & _ & Hl & _).
  destruct (generate_next_wf _ _ _ Hwf Hlt Hg) as (Hgwf & _ & _ & Hgl & Hgm).
  split; [rewrite Hl; unfold lib_from_map in Hlib; lia|]. intros Hnp.
  apply next_inv in Hok as (g' & b & s2 & s3 & _ & _ & Hg' & _ & _ & _ & Hprom & Hnew & -> & _).
  assert (g' = g) as -> by congruence. simpl in *.
  destruct (generate_next_frame _ _ _ Hg) as (Hfp & Hfl & _).
  assert (s2 = set_confirmed g (confirmed (hdr h))) as ->.
  { unfold maybe_promote_pending in Hprom.
    destruct (set_confirmed_shape g (confirmed (hdr h))) as (pr & cc & Hsh). rewrite Hsh in *.
    simpl in Hprom. destruct (_ && _) eqn:E; [|by injection Hprom].
    exfalso. reflect_bools. rewrite Hfp, Hfl in *. rewrite Hl in Hnp.
    destruct Hnp as [Hnp|]; [by rewrite Hnp in *|lia]. }
  unfold lib_from_map. simpl. rewrite Hl, Hgl.
  destruct (set_confirmed_shape g (confirmed (hdr h))) as (pr & cc & Hsh). rewrite Hsh in *.
  destruct (new_producers (hdr h)) as [ps|]; [|by subst].
  destruct Hnew as [_ Hnew]. unfold set_new_producers in Hnew. by inv_ok.
Qed.

(** C3: what an accepted header proves.  If [next] accepts a header then it links to the state
    it extends, is later in time, was produced by the producer scheduled for its slot under the
    active schedule and names its version, and does not confirm a range its producer already
    confirmed; the new state's signing key is the scheduled producer's and, unless validation
    is skipped, the header is signed with that key over the new state's digest. *)
Theorem next_accepts_only_valid s h skip r :
  next s h skip = Ok r →
  previous (hdr h) = id s ∧
  timestamp (hdr (header s)) < timestamp (hdr h) ∧
  schedule_version (hdr h) = version (active_schedule s) ∧
  (∀ l, producer_to_last_produced s !! producer (hdr h) = Some l →
     l < u32 (block_num r - confirmed (hdr h))) ∧
  (∃ pk, get_scheduled_producer s (timestamp (hdr h)) = Ok pk ∧
     producer (hdr h) = producer_name pk ∧
     block_signing_key r = block_signing_key_of pk ∧
     (skip = false → ∃ d, sig_digest r = Ok d ∧
        recover_key (producer_signature h) d true = Ok (block_signing_key_of pk))) ∧
  id r = header_id (hdr (header r)) ∧ previous (hdr (header r)) = id s.
Proof.
  intros Hok.
  apply next_inv in Hok as (g & b & s2 & s3 & [Ht0 Ht] & Hprev & Hg & Hp & Hv & Hdc & Hprom & Hnew & Hr & Hsig).
  destruct (next_frame _ _ _ _ _ Hprom Hnew) as (Hn & Hpr & Hk).
  destruct (generate_next_producer _ _ _ Hg Ht0) as (pk & Hpk & Hname & Hkey & Hver).
  destruct (generate_next_frame _ _ _ Hg) as (_ & _ & _ & _ & _ & Hgprev).
  assert (block_num r = block_num g ∧ block_signing_key r = block_signing_key g ∧
    producer_signature (header r) = producer_signature h ∧ id r = header_id (hdr (header r)) ∧
    previous (hdr (header r)) = previous (hdr (header s3))) as (Hrn & Hrk & Hrs & Hri & Hrp)
    by (rewrite Hr; simpl; done).
  split_and!; [done|done|congruence|by rewrite Hrn| |done|congruence].
  exists pk. split_and!; [done|congruence|congruence|]. intros Hskip. apply Hsig in Hskip.
  unfold signee in Hskip. inv_ok. eexists. split; [done|]. congruence.
Qed.


(** the schedule is round-robin with twelve consecutive slots per producer: in slot
    [12 * n * r + 12 * k + j] of a schedule of [n] producers, the [k]-th one produces. *)
Theorem schedule_is_round_robin s pk r k j :
  producers (active_schedule s) !! Z.to_nat k = Some pk →
  0 <= r → 0 <= k → 0 <= j < producer_repetitions →
  get_scheduled_producer s
    (producer_repetitions * Z.of_nat (length (producers (active_schedule s))) * r +
     producer_repetitions * k + j) = Ok pk.
Proof.
  unfold get_scheduled_producer, producer_repetitions. intros Hk Hr Hk0 Hj.
  pose proof (lookup_lt_Some _ _ _ Hk) as Hlt.
  set (n := Z.of_nat (length (producers (active_schedule s)))) in *.
  destruct (n * 12 =? 0) eqn:E; reflect_bools; [lia|]. simpl.
  replace (12 * n * r + 12 * k + j) with ((12 * k + j) + r * (n * 12)) by lia.
  rewrite Z.mod_add, Z.mod_small by lia.
  replace (12 * k + j) with (j + k * 12) by lia.
  rewrite Z.div_add, Z.div_small, Z.add_0_l by lia. by rewrite Hk.
Qed.

(** what confirming blocks does.  Confirming [n] previous blocks and the head lowers the
    counts of the newest [n + 1] tracked blocks by one.  If none of them reaches zero nothing
    else changes; otherwise the newest block whose count reaches zero becomes the proposed
    irreversible block, and only the blocks after it stay tracked. *)
Theorem set_confirmed_behaviour s n :
  header_wf s → in_u16 n →
  ∃ A A', confirm_count s = A ++ A' ∧
    length A' = Nat.min (Z.to_nat (n + 1)) (length (confirm_count s)) ∧
    ((Forall stays A' ∧
      confirm_count (set_confirmed s n) = A ++ (lowered <$> A') ∧
      dpos_proposed_irreversible_blocknum (set_confirmed s n) =
        dpos_proposed_irreversible_blocknum s) ∨
     (∃ A1 A2, A' = A1 ++ [1] ++ A2 ∧ Forall stays A2 ∧
      confirm_count (set_confirmed s n) = lowered <$> A2 ∧
      dpos_proposed_irreversible_blocknum (set_confirmed s n) =
        block_num s - Z.of_nat (length A2))).
Proof.
  intros Hwf Hn. destruct (set_confirmed_cases s n Hwf Hn) as (A & A' & Hcc & Hlen & Hcase).
  exists A, A'. split; [done|]. split; [done|].
  destruct Hcase as [[Hf ->]|(A1 & A2 & HA & Hf & ->)]; [by left|]. right. by exists A1, A2.
Qed.

Lemma land_high_word w :
  0 <= w < 2 ^ 64 → Z.land w 0xffffffff00000000 = (w / 2 ^ 32) * 2 ^ 32.
Proof.
  intros Hw. rewrite <-Z.shiftr_div_pow2, <-Z.shiftl_mul_pow2 by lia.
  change 0xffffffff00000000 with (Z.shiftl (Z.ones 32) 32).
  apply Z.bits_inj'. intros i Hi. rewrite Z.land_spec, !Z.shiftl_spec by lia.
  destruct (decide (i < 32)); [rewrite !(Z.testbit_neg_r _ (i - 32)) by lia; apply andb_false_r|].
  rewrite Z.shiftr_spec, Z.sub_add, Z.testbit_ones_nonneg by lia.
  destruct (i - 32 <? 32) eqn:E; reflect_bools; [apply andb_true_r|].
  destruct (decide (w = 0)) as [->|]; [by rewrite Z.bits_0|].
  rewrite Z.bits_above_log2; [done|lia|].
  assert (Z.log2 w < 64) by (apply Z.log2_lt_pow2; lia). lia.
Qed.

(** a block's id carries its number: reading the number back from the id of a header gives
    one more than the number carried by the id of the block it extends. *)
Theorem header_id_carries_number `{!FcLaws} h :
  num_from_id (header_id h) = u32 (num_from_id (previous h) + 1).
Proof.
  unfold header_id, num_from_id at 1. fold (block_num_of h). simpl.
  pose proof (u32_range (num_from_id (previous h) + 1)) as Hr. fold (block_num_of h) in Hr.
  pose proof (endian_reverse_range _ Hr) as Hr'. unfold in_u32 in Hr'.
  destruct (hash_header_wf h) as [Hw _]. unfold in_u64 in Hw.
  rewrite land_high_word by lia.
  assert (0 <= _hash0 (hash_header h) / 2 ^ 32 < 2 ^ 32).
  { split; [apply Z.div_pos; lia|apply Z.div_lt_upper_bound; lia]. }
  rewrite u64_small by lia. unfold u32 at 2. rewrite Z.add_comm, Z.mod_add, Z.mod_small by lia.
  rewrite endian_reverse_involutive by done. by rewrite u32_small.
Qed.

End header_state.

(** slots and times: converting a slot to a time point and back gives the slot, for every
    uint32 slot, when fc::milliseconds multiplies by a thousand. *)
Theorem timestamp_roundtrip (milliseconds : Z → Z) t :
  (∀ m, milliseconds m = m * 1000) → in_u32 t →
  of_time_point (to_time_point milliseconds t) = t.
Proof.
  unfold to_time_point, of_time_point, block_interval_ms, block_timestamp_epoch, in_u32.
  intros Hms Ht. rewrite Hms.
  rewrite (i64_small (t * 500)), i64_small by (unfold in_i64; lia).
  rewrite Z.quot_mul by lia.
  replace (t * 500 + 946684800000 - 946684800000) with (t * 500) by lia.
  rewrite u64_small, Z.div_mul by lia. by apply u32_small.
Qed.

(** ** A concrete instance *)

(** Keys and signatures are numbers, a signature is the key that made it. *)
Definition swap_bytes (x : Z) : Z :=
  (x mod 256) * 2 ^ 24 + (x / 256 mod 256) * 2 ^ 16 + (x / 65536 mod 256) * 2 ^ 8 + x / 16777216.

Definition toy_fc : Fc := {|
  public_key := Z;
  public_key_eq_dec := _;
  public_key_default := 0;
  signature := Z;
  signature_default := 0;
  endian_reverse_u32 := swap_bytes;
|}.

Definition toy_fc_hash : @FcHash toy_fc := {|
  hash_pair := toy_hash;
  hash_schedule := λ s, Digest (u64 (@version toy_fc s)) 0 0 1;
  hash_header := λ h, Digest (u64 (@timestamp toy_fc h * 2 ^ 33 + 77)) 0 0 2;
  recover_key := λ sig _ _, Ok sig;
|}.

Lemma swap_bytes_digits a b c d :
  0 <= a < 256 → 0 <= b < 256 → 0 <= c < 256 → 0 <= d < 256 →
  swap_bytes (a * 2 ^ 24 + b * 2 ^ 16 + c * 2 ^ 8 + d) = d * 2 ^ 24 + c * 2 ^ 16 + b * 2 ^ 8 + a.
Proof.
  intros. unfold swap_bytes. set (x := a * 2 ^ 24 + b * 2 ^ 16 + c * 2 ^ 8 + d).
  rewrite <-(Z.mod_unique x 256 (a * 2 ^ 16 + b * 2 ^ 8 + c) d) by (unfold x; lia).
  rewrite <-(Z.div_unique x 256 (a * 2 ^ 16 + b * 2 ^ 8 + c) d) by (unfold x; lia).
  rewrite <-(Z.div_unique x 65536 (a * 2 ^ 8 + b) (c * 2 ^ 8 + d)) by (unfold x; lia).
  rewrite <-(Z.div_unique x 16777216 a (b * 2 ^ 16 + c * 2 ^ 8 + d)) by (unfold x; lia).
  rewrite <-(Z.mod_unique _ 256 (a * 2 ^ 8 + b) c) by lia.
  by rewrite <-(Z.mod_unique _ 256 a b) by lia.
Qed.

Lemma u32_bytes x : in_u32 x → ∃ a b c d, x = a * 2 ^ 24 + b * 2 ^ 16 + c * 2 ^ 8 + d ∧
  0 <= a < 256 ∧ 0 <= b < 256 ∧ 0 <= c < 256 ∧ 0 <= d < 256.
Proof.
  unfold in_u32. intros Hx.
  exists (x / 256 / 256 / 256), (x / 256 / 256 mod 256), (x / 256 mod 256), (x mod 256).
  pose proof (Z.div_mod x 256 ltac:(lia)). pose proof (Z.div_mod (x / 256) 256 ltac:(lia)).
  pose proof (Z.div_mod (x / 256 / 256) 256 ltac:(lia)).
  pose proof (Z.mod_pos_bound x 256 ltac:(lia)). pose proof (Z.mod_pos_bound (x / 256) 256 ltac:(lia)).
  pose proof (Z.mod_pos_bound (x / 256 / 256) 256 ltac:(lia)). lia.
Qed.

Lemma toy_fc_laws : @FcLaws toy_fc toy_fc_hash.
Proof.
  constructor; simpl.
  - intros x (a & b & c & d & -> & ? & ? & ? & ?)%u32_bytes.
    rewrite swap_bytes_digits by done. unfold in_u32. lia.
  - intros x (a & b & c & d & -> & ? & ? & ? & ?)%u32_bytes.
    by rewrite !swap_bytes_digits.
  - intros h. unfold digest_wf, in_u64. simpl. split_and!; try lia; apply u64_range.
Qed.

Section witnesses.
#[local] Existing Instances toy_fc toy_fc_hash.

Definition toy_schedule (v : Z) : producer_schedule_type :=
  ProducerSchedule v 0 [ProducerKey 1 11; ProducerKey 2 12; ProducerKey 3 13].

(** Block 5, produced by account 1 in slot 11; blocks 4 and 5 are tracked, account 3's pending
    schedule was proposed in block 1. *)
Definition toy_state : block_header_state := {|
  id := Digest (swap_bytes 5) 0 0 0;
  block_num := 5;
  header := SignedBlockHeader (BlockHeader 11 1 1 (Digest (swap_bytes 4) 0 0 0) digest_zero
    digest_zero 0 0 None []) 11;
  dpos_proposed_irreversible_blocknum := 3;
  dpos_irreversible_blocknum := 2;
  bft_irreversible_blocknum := 0;
  pending_schedule_lib_num := 1;
  pending_schedule_hash := digest_zero;
  pending_schedule := ProducerSchedule 1 0 [ProducerKey 3 13; ProducerKey 4 14];
  active_schedule := toy_schedule 0;
  blockroot_merkle := IncrementalMerkle 1 [digest_zero];
  producer_to_last_produced := {[1 := 5; 2 := 3; 3 := 2]};
  producer_to_last_implied_irb := {[1 := 3; 2 := 2; 3 := 2]};
  block_signing_key := 11;
  confirm_count := [1; 2];
  confirmations := [];
|}.

(** Slot 12 is account 2's; it confirms the two previous blocks. *)
Definition toy_header : signed_block_header :=
  SignedBlockHeader (BlockHeader 12 2 2 (id toy_state) digest_zero digest_zero 0 0 None []) 12.

Definition toy_next : block_header_state :=
  match next toy_state toy_header false with Ok r => r | Throw _ => toy_state end.

Lemma toy_next_ok : next toy_state toy_header false = Ok toy_next.
Proof.
  assert (Hok : is_ok (next toy_state toy_header false) = true) by (vm_compute; reflexivity).
  unfold toy_next. by destruct (next toy_state toy_header false).
Qed.

Lemma toy_state_wf : header_wf toy_state.
Proof.
  constructor; simpl; try lia.
  - repeat constructor; lia.
  - apply Nat.leb_le. vm_compute. reflexivity.
  - repeat (apply map_Forall_insert_2; [lia|]). apply map_Forall_empty.
  - discriminate.
  - intros p [v Hv].
    repeat (apply lookup_insert_Some in Hv as [[<- _]|[_ Hv]]; [set_solver|]).
    apply lookup_singleton_Some in Hv as [<- _]. set_solver.
Qed.

Lemma toy_confirmed : in_u16 (confirmed (hdr toy_header)).
Proof. vm_compute. split; [discriminate|reflexivity]. Qed.
Lemma toy_chain : header_chain [toy_header] toy_state toy_next.
Proof. econstructor; [|apply toy_confirmed|apply toy_next_ok|constructor]. done. Qed.

Lemma lib_is_two_thirds_quorum_witness :
  2 <= calc_dpos_last_irreversible (producer_to_last_implied_irb toy_state) ↔
  (2 * 3 < 3 * supporters (producer_to_last_implied_irb toy_state) 2)%nat.
Proof.
  apply (lib_is_two_thirds_quorum (producer_to_last_implied_irb toy_state) 2).
  apply insert_non_empty.
Defined.

Lemma header_chain_wf_witness :
  header_wf toy_next ∧ block_num toy_next = block_num toy_state + 1 ∧
  dpos_proposed_irreversible_blocknum toy_state <= dpos_proposed_irreversible_blocknum toy_next ∧
  dpos_irreversible_blocknum toy_next <= dpos_proposed_irreversible_blocknum toy_next <= block_num toy_next ∧
  counts_sound toy_next.
Proof.
  destruct (header_chain_wf _ _ _ toy_state_wf toy_chain) as (Hw & Hn & Hp & Hl & Hs).
  split; [exact Hw|]. split; [exact Hn|]. split; [exact Hp|]. split; [exact Hl|]. apply Hs.
  - split; [repeat constructor; lia|vm_compute; discriminate..].
  - repeat constructor.
Defined.

Lemma lib_monotone_witness :
  dpos_irreversible_blocknum toy_state <= dpos_irreversible_blocknum toy_next ∧
  (producers (pending_schedule toy_state) = [] ∨
     dpos_irreversible_blocknum toy_next < pending_schedule_lib_num toy_state → lib_from_map toy_next).
Proof.
  apply (lib_monotone toy_state toy_header false toy_next toy_state_wf);
    [done|apply toy_confirmed|vm_compute; reflexivity|apply toy_next_ok].
Defined.

Lemma next_accepts_only_valid_witness :
  previous (hdr toy_header) = id toy_state ∧
  ∃ pk, get_scheduled_producer toy_state 12 = Ok pk ∧ 2 = producer_name pk.
Proof.
  destruct (next_accepts_only_valid toy_state toy_header false toy_next toy_next_ok)
    as (Hp & _ & _ & _ & (pk & Hpk & Hn & _) & _).
  split; [exact Hp|]. exists pk. split; [exact Hpk|exact Hn].
Defined.


Lemma schedule_is_round_robin_witness :
  get_scheduled_producer toy_state (12 * 3 * 2 + 12 * 1 + 5) = Ok (@ProducerKey toy_fc 2 12).
Proof.
  apply (schedule_is_round_robin toy_state (@ProducerKey toy_fc 2 12) 2 1 5); [reflexivity|lia|lia|].
  unfold producer_repetitions. lia.
Defined.

Lemma set_confirmed_behaviour_witness :
  ∃ A A', confirm_count toy_state = A ++ A' ∧ length A' = 2%nat.
Proof.
  destruct (set_confirmed_behaviour toy_state 2 toy_state_wf) as (A & A' & HA & Hl & _).
  - vm_compute. split; [discriminate|reflexivity].
  - exists A, A'. split; [exact HA|exact Hl].
Defined.

Lemma header_id_carries_number_witness :
  num_from_id (header_id (hdr toy_header)) = 6.
Proof. exact (@header_id_carries_number toy_fc toy_fc_hash toy_fc_laws (hdr toy_header)). Defined.

Lemma timestamp_roundtrip_witness :
  of_time_point (to_time_point (λ m, m * 1000) 1234567) = 1234567.
Proof.
  apply (timestamp_roundtrip (λ m, m * 1000) 1234567); [reflexivity|].
  unfold in_u32. lia.
Defined.
End witnesses.
