(* ===== verification/ForkDb.v ===== *)
(** * The fork database

    Models block.hpp, block_state.{hpp,cpp} and fork_database.{hpp,cpp} of libraries/chain: the
    blocks that are not yet irreversible, indexed by id, by previous id, by number and by
    irreversibility, with the head of the best fork.  Block states are shared through pointers
    (the controller keeps some of them), so the database is an explicit store: a heap of block
    states and, for each index, the order in which it holds the pointers. *)

From stdpp Require Import sorting.
From S2P Require Import Prelude Merkle BlockHeader.

(** ** block.hpp and block_state.hpp *)

(** Packed transactions and their metadata are data of other components. *)
Class Payload := {
  packed_transaction : Type;
  transaction_metadata : Type;
}.

(** The comparison of an index: a strict weak order as a boolean function. *)
Class StrictWeak {A} (lt : A → A → bool) : Prop := {
  sw_asym : ∀ a b, lt a b = true → lt b a = false;
  sw_trans : ∀ a b c, lt b a = false → lt c b = false → lt c a = false;
}.

Definition ptr := nat.

Definition index_le (lt : ptr → ptr → bool) : relation ptr := λ p q, lt q p = false.

(** What is used of an ordered_non_unique index of Boost.MultiIndex: inserting an element, and
    putting one back in order after [modify]. *)
Class OrderedIndex := {
  index_insert : (ptr → ptr → bool) → ptr → list ptr → list ptr;
  index_modify : (ptr → ptr → bool) → ptr → list ptr → list ptr;
}.

(** The library documents that both keep the elements of the index, and keep it sorted. *)
Class OrderedIndexLaws `{OrderedIndex} : Prop := {
  index_insert_perm : ∀ lt p l, StrictWeak lt → index_insert lt p l ≡ₚ p :: l;
  index_insert_sorted : ∀ lt p l, StrictWeak lt →
    StronglySorted (index_le lt) l → StronglySorted (index_le lt) (index_insert lt p l);
  index_modify_perm : ∀ lt p l, StrictWeak lt → index_modify lt p l ≡ₚ l;
  index_modify_sorted : ∀ lt p l, StrictWeak lt → NoDup l →
    StronglySorted (index_le lt) (filter (p ≠.) l) →
    (p ∉ l → StronglySorted (index_le lt) l) →
    StronglySorted (index_le lt) (index_modify lt p l);
}.

Inductive status_enum := executed | soft_fail | hard_fail | delayed | expired.

Section fork_database.
Context {FC : Fc} {FH : FcHash} {PL : Payload} {OI : OrderedIndex}.

Record transaction_receipt := TransactionReceipt {
  status : status_enum;
  cpu_usage_us : Z;
  net_usage_words : Z;
  trx : digest + packed_transaction;
}.

Record signed_block := SignedBlock {
  sb_header : signed_block_header;
  transactions : list transaction_receipt;
  block_extensions : list (Z * list Z);
}.

Record block_state := BlockState {
  bhs : block_header_state;
  block : option signed_block;
  validated : bool;
  in_current_chain : bool;
  trxs : list transaction_metadata;
}.

(** [block_state( prev, when )]: the block is a copy of the generated header. *)
Definition block_state_pending (prev : block_header_state) (when : block_timestamp)
    : result block_state :=
  s ← generate_next prev when;
  mret (BlockState s (Some (SignedBlock (SignedBlockHeader (hdr (header s)) signature_default) [] []))
          false false []).

(** [block_state( prev, b, skip_validate_signee )] *)
Definition block_state_of_block (prev : block_header_state) (b : signed_block)
    (skip_validate_signee : bool) : result block_state :=
  s ← next prev (sb_header b) skip_validate_signee;
  mret (BlockState s (Some b) false false []).

(** Assignments to the fields of a block state. *)
Definition set_bhs (s : block_state) (h : block_header_state) : block_state :=
  BlockState h (block s) (validated s) (in_current_chain s) (trxs s).
Definition set_validated (s : block_state) (b : bool) : block_state :=
  BlockState (bhs s) (block s) b (in_current_chain s) (trxs s).
Definition set_in_current_chain (s : block_state) (b : bool) : block_state :=
  BlockState (bhs s) (block s) (validated s) b (trxs s).
Definition set_bft (s : block_state) (n : Z) : block_state :=
  set_bhs s (with_bft_irreversible (bhs s) n).

Definition bs_id (s : block_state) : digest := id (bhs s).
Definition bs_num (s : block_state) : Z := block_num (bhs s).
Definition bs_prev (s : block_state) : digest := previous (hdr (header (bhs s))).
Definition bs_lib (s : block_state) : Z := dpos_irreversible_blocknum (bhs s).
Definition bs_bft (s : block_state) : Z := bft_irreversible_blocknum (bhs s).

(** ** fork_multi_index_type *)

(** by_block_num: ascending number, blocks of the current chain first. *)
Definition num_lt (a b : block_state) : bool :=
  (bs_num a <? bs_num b) ||
  (bs_num a =? bs_num b) && (in_current_chain a && negb (in_current_chain b)).

(** by_lib_block_num: descending DPOS irreversible, BFT irreversible and block number. *)
Definition lib_lt (a b : block_state) : bool :=
  (bs_lib b <? bs_lib a) ||
  (bs_lib a =? bs_lib b) &&
    ((bs_bft b <? bs_bft a) || (bs_bft a =? bs_bft b) && (bs_num b <? bs_num a)).

(** [by_prev] is the insertion order: equal keys of an ordered_non_unique index are kept in
    that order, and [by_prev] and [by_block_id] are only searched for one key. *)
Record fork_database := ForkDatabase {
  heap : gmap ptr block_state;
  next_ptr : ptr;
  by_prev : list ptr;
  by_block_num : list ptr;
  by_lib_block_num : list ptr;
  fork_head : option ptr;
  irreversible_signals : list ptr;
}.

Definition db_empty : fork_database := ForkDatabase ∅ 0%nat [] [] [] None [].

Definition set_heap (db : fork_database) (h : gmap ptr block_state) : fork_database :=
  ForkDatabase h (next_ptr db) (by_prev db) (by_block_num db) (by_lib_block_num db)
    (fork_head db) (irreversible_signals db).
Definition set_index (db : fork_database) (ids nums libs : list ptr) : fork_database :=
  ForkDatabase (heap db) (next_ptr db) ids nums libs (fork_head db) (irreversible_signals db).
Definition set_head (db : fork_database) (h : option ptr) : fork_database :=
  ForkDatabase (heap db) (next_ptr db) (by_prev db) (by_block_num db) (by_lib_block_num db)
    h (irreversible_signals db).
Definition emit_irreversible (db : fork_database) (p : ptr) : fork_database :=
  ForkDatabase (heap db) (next_ptr db) (by_prev db) (by_block_num db) (by_lib_block_num db)
    (fork_head db) (irreversible_signals db ++ [p]).

(** The order of an index on pointers into a heap; pointers outside the heap, which no index
    holds, come last. *)
Definition ptr_lt (lt : block_state → block_state → bool) (h : gmap ptr block_state) (p q : ptr)
    : bool :=
  match h !! p, h !! q with
  | Some a, Some b => lt a b
  | Some _, None => true
  | None, _ => false
  end.

Definition has_id (h : gmap ptr block_state) (i : digest) (p : ptr) : Prop :=
  bs_id <$> h !! p = Some i.
Definition has_prev (h : gmap ptr block_state) (i : digest) (p : ptr) : Prop :=
  bs_prev <$> h !! p = Some i.

Global Instance has_id_dec h i p : Decision (has_id h i p).
Proof. unfold has_id. apply _. Defined.
Global Instance has_prev_dec h i p : Decision (has_prev h i p).
Proof. unfold has_prev. apply _. Defined.

(** [index.find( id )] of the hashed index. *)
Definition find_id (db : fork_database) (i : digest) : option ptr :=
  snd <$> list_find (has_id (heap db) i) (by_prev db).

(** The equal range of an id in by_prev. *)
Definition children (db : fork_database) (i : digest) : list ptr :=
  filter (has_prev (heap db) i) (by_prev db).

(** [index.insert]: refused when the id is present. *)
Definition db_insert (db : fork_database) (p : ptr) : option fork_database :=
  s ← heap db !! p;
  match find_id db (bs_id s) with
  | Some _ => None
  | None =>
      Some (set_index db (by_prev db ++ [p])
              (index_insert (ptr_lt num_lt (heap db)) p (by_block_num db))
              (index_insert (ptr_lt lib_lt (heap db)) p (by_lib_block_num db)))
  end.

Definition db_erase (db : fork_database) (p : ptr) : fork_database :=
  set_index db (filter (p ≠.) (by_prev db)) (filter (p ≠.) (by_block_num db))
    (filter (p ≠.) (by_lib_block_num db)).

(** [index.modify], with a function that changes neither id nor previous. *)
Definition db_modify (db : fork_database) (p : ptr) (f : block_state → block_state)
    : fork_database :=
  let db := set_heap db (alter f p (heap db)) in
  set_index db (by_prev db)
    (index_modify (ptr_lt num_lt (heap db)) p (by_block_num db))
    (index_modify (ptr_lt lib_lt (heap db)) p (by_lib_block_num db)).

(** ** fork_database.cpp *)
Abbreviation fdb := (stM fork_database).

(** Dereferencing a pointer; a null or dangling one has no behaviour. *)
Definition deref (p : ptr) : fdb block_state :=
  db ← st_get; st_lift (of_option (heap db !! p) undefined_behaviour).

(** Dereferencing [begin()] of an index: it must not be empty. *)
Definition first_of (ix : fork_database → list ptr) : fdb ptr :=
  db ← st_get; st_lift (of_option (head (ix db)) undefined_behaviour).

Definition insert_node (p : ptr) : fdb bool :=
  db ← st_get;
  match db_insert db p with
  | Some db' => _ ← st_put db'; mret true
  | None => mret false
  end.

(** [fork_database::get_block] *)
Definition get_block (i : digest) : fdb (option ptr) := db ← st_get; mret (find_id db i).

(** [numidx.lower_bound( n )]: the first block whose number is not below [n]. *)
Definition at_least (h : gmap ptr block_state) (n : Z) (p : ptr) : Prop :=
  n <= default 0 (bs_num <$> h !! p).
Global Instance at_least_dec h n p : Decision (at_least h n p).
Proof. unfold at_least. apply _. Defined.

Definition lower_bound_num (db : fork_database) (n : Z) : option ptr :=
  snd <$> list_find (at_least (heap db) n) (by_block_num db).

(** [fork_database::get_block_in_current_chain_by_num] *)
Definition get_block_in_current_chain_by_num (n : Z) : fdb (option ptr) :=
  db ← st_get;
  match lower_bound_num db n with
  | None => mret None
  | Some p =>
      s ← deref p;
      mret (if negb (bs_num s =? n) || negb (in_current_chain s) then None else Some p)
  end.

(** [fork_database::set].  The insertion comes before both checks. *)
Definition set (p : ptr) : fdb unit :=
  s ← deref p;
  inserted ← insert_node p;
  _ ← st_assert (bool_decide (bs_id s = header_id (hdr (header (bhs s))))) fork_database_exception;
  _ ← st_assert inserted fork_database_exception;
  db ← st_get;
  match fork_head db with
  | None => st_modify (λ db, set_head db (Some p))
  | Some hd =>
      h ← deref hd;
      if bs_num h <? bs_num s then st_modify (λ db, set_head db (Some p)) else mret tt
  end.

(** The loop of [fork_database::remove] over the growing queue. *)
Fixpoint remove_for (fuel : nat) (queue : list digest) (i : nat) : fdb unit :=
  match fuel with
  | O => st_throw out_of_fuel
  | S fuel =>
      match queue !! i with
      | None => mret tt
      | Some x =>
          db ← st_get;
          _ ← (match find_id db x with
               | Some p => st_modify (λ db, db_erase db p)
               | None => mret tt
               end);
          db ← st_get;
          let ids := omap (λ p, bs_id <$> heap db !! p) (children db x) in
          remove_for fuel (queue ++ ids) (S i)
      end
  end.

(** [fork_database::remove].  The queue holds the id and at most every block once. *)
Definition remove (i : digest) : fdb unit :=
  db ← st_get;
  _ ← remove_for (S (S (length (by_prev db)))) [i] 0;
  hd ← first_of by_lib_block_num;
  st_modify (λ db, set_head db (Some hd)).

Definition set_validity (h : ptr) (valid : bool) : fdb unit :=
  s ← deref h;
  if negb valid then remove (bs_id s)
  else st_modify (λ db, set_heap db (alter (λ s, set_validated s true) h (heap db))).

Definition mark_in_current_chain (h : ptr) (b : bool) : fdb unit :=
  s ← deref h;
  if Bool.eqb (in_current_chain s) b then mret tt
  else
    db ← st_get;
    itr ← st_lift (of_option (find_id db (bs_id s)) fork_db_block_not_found);
    st_modify (λ db, db_modify db itr (λ s, set_in_current_chain s b)).

(** The loop of [prune] over the blocks below the pruned one; [rec] is [prune]. *)
Fixpoint prune_older (rec : ptr → fdb unit) (num : Z) (fuel : nat) : fdb unit :=
  match fuel with
  | O => st_throw out_of_fuel
  | S fuel =>
      db ← st_get;
      match head (by_block_num db) with
      | None => mret tt
      | Some p =>
          s ← deref p;
          if bs_num s <? num then _ ← rec p; prune_older rec num fuel else mret tt
      end
  end.

(** The successor of an iterator of by_block_num. *)
Definition next_by_num (db : fork_database) (p : ptr) : option ptr :=
  i ← list_find (p =.) (by_block_num db);
  by_block_num db !! S i.1.

(** The loop of [prune] over the other blocks with the same number.  An iterator is the element
    it points at; using one whose element was erased has no behaviour. *)
Fixpoint prune_forks (fuel : nat) (num : Z) (nitr : option ptr) : fdb unit :=
  match fuel with
  | O => st_throw out_of_fuel
  | S fuel =>
      match nitr with
      | None => mret tt
      | Some p =>
          db ← st_get;
          _ ← st_assert (bool_decide (p ∈ by_block_num db)) undefined_behaviour;
          s ← deref p;
          if bs_num s =? num then
            let nitr := next_by_num db p in
            _ ← remove (bs_id s);
            prune_forks fuel num nitr
          else mret tt
      end
  end.

(** [fork_database::prune] *)
Fixpoint prune (fuel : nat) (h : ptr) : fdb unit :=
  match fuel with
  | O => st_throw out_of_fuel
  | S fuel =>
      s ← deref h;
      db ← st_get;
      _ ← prune_older (prune fuel) (bs_num s) (S (length (by_block_num db)));
      db ← st_get;
      _ ← (match find_id db (bs_id s) with
           | Some p => st_modify (λ db, db_erase (emit_irreversible db p) p)
           | None => mret tt
           end);
      db ← st_get;
      prune_forks (S (length (by_block_num db))) (bs_num s) (lower_bound_num db (bs_num s))
  end.

(** Pruning recurses once for older blocks, and not again. *)
Definition prune_fuel : nat := 2.

(** [fork_database::add] of a block state. *)
Definition add_block_state (n : option ptr) (skip_validate_previous : bool) : fdb ptr :=
  n ← st_lift (of_option n fork_database_exception);
  db ← st_get;
  _ ← st_lift (of_option (fork_head db) fork_db_block_not_found);
  s ← deref n;
  _ ← (if skip_validate_previous then mret tt
       else
         b ← st_lift (of_option (block s) undefined_behaviour);
         _ ← st_lift (of_option (find_id db (previous (hdr (sb_header b))))
                        unlinkable_block_exception);
         mret tt);
  inserted ← insert_node n;
  _ ← st_assert inserted fork_database_exception;
  hd ← first_of by_lib_block_num;
  _ ← st_modify (λ db, set_head db (Some hd));
  h ← deref hd;
  oldest ← first_of by_block_num;
  o ← deref oldest;
  _ ← (if bs_num o <? bs_lib h then prune prune_fuel oldest else mret tt);
  mret n.

(** [std::make_shared<block_state>] *)
Definition make_shared (s : block_state) : fdb ptr :=
  db ← st_get;
  _ ← st_put (ForkDatabase (<[next_ptr db := s]> (heap db)) (S (next_ptr db)) (by_prev db)
                (by_block_num db) (by_lib_block_num db) (fork_head db) (irreversible_signals db));
  mret (next_ptr db).

(** [fork_database::add] of a signed block. *)
Definition add_signed_block (b : option signed_block) (skip_validate_signee : bool) : fdb ptr :=
  b ← st_lift (of_option b fork_database_exception);
  db ← st_get;
  _ ← st_lift (of_option (fork_head db) fork_db_block_not_found);
  _ ← st_assert (bool_decide (find_id db (header_id (hdr (sb_header b))) = None))
        fork_database_exception;
  prior ← st_lift (of_option (find_id db (previous (hdr (sb_header b)))) unlinkable_block_exception);
  s ← deref prior;
  s' ← st_lift (block_state_of_block (bhs s) b skip_validate_signee);
  p ← make_shared s';
  add_block_state (Some p) true.

(** The lambda [update] of [set_bft_irreversible] on one id of the layer. *)
Definition bft_update_one (num : Z) (updated : list digest) (p : ptr) : fdb (list digest) :=
  s ← deref p;
  if bs_bft s <? num then
    _ ← st_modify (λ db, db_modify db p (λ s, set_bft s num));
    mret (updated ++ [bs_id s])
  else mret updated.

Fixpoint bft_update_children (num : Z) (updated : list digest) (ps : list ptr)
    : fdb (list digest) :=
  match ps with
  | [] => mret updated
  | p :: ps => updated ← bft_update_one num updated p; bft_update_children num updated ps
  end.

Fixpoint bft_update (num : Z) (updated layer : list digest) : fdb (list digest) :=
  match layer with
  | [] => mret updated
  | i :: layer =>
      db ← st_get;
      updated ← bft_update_children num updated (children db i);
      bft_update num updated layer
  end.

Fixpoint bft_while (fuel : nat) (num : Z) (queue : list digest) : fdb unit :=
  match fuel with
  | O => st_throw out_of_fuel
  | S fuel =>
      match queue with
      | [] => mret tt
      | _ => queue ← bft_update num [] queue; bft_while fuel num queue
      end
  end.

(** [fork_database::set_bft_irreversible].  A block enters the queue at most once. *)
Definition set_bft_irreversible (i : digest) : fdb unit :=
  db ← st_get;
  itr ← st_lift (of_option (find_id db i) undefined_behaviour);
  s ← deref itr;
  _ ← st_modify (λ db, db_modify db itr (λ s, set_bft s (bs_num s)));
  bft_while (S (S (length (by_prev db)))) (bs_num s) [i].

(** [fork_database::add] of a header confirmation. *)
Definition add_header_confirmation (c : header_confirmation) : fdb unit :=
  b ← get_block (conf_block_id c);
  p ← st_lift (of_option b fork_db_block_not_found);
  s ← deref p;
  h ← st_lift (add_confirmation (bhs s) c);
  _ ← st_modify (λ db, set_heap db (<[p := set_bhs s h]> (heap db)));
  if (bft_irreversible_blocknum h <? block_num h) &&
     (length (producers (active_schedule h)) * 2 / 3 + 1 <=? length (confirmations h))%nat
  then set_bft_irreversible (conf_block_id c)
  else mret tt.

(** The loops of [fetch_branch_from].  When a block is missing, the message of the failing
    assertion reads the header of the null pointer it reports. *)
Fixpoint fetch_down (fuel : nat) (bound : Z) (p : ptr) (acc : list ptr) : fdb (ptr * list ptr) :=
  match fuel with
  | O => st_throw out_of_fuel
  | S fuel =>
      s ← deref p;
      if bound <? bs_num s then
        q ← get_block (bs_prev s);
        q ← st_lift (of_option q undefined_behaviour);
        fetch_down fuel bound q (acc ++ [p])
      else mret (p, acc)
  end.

Fixpoint fetch_both (fuel : nat) (p q : ptr) (accp accq : list ptr)
    : fdb (list ptr * list ptr) :=
  match fuel with
  | O => st_throw out_of_fuel
  | S fuel =>
      s ← deref p;
      t ← deref q;
      if bool_decide (bs_prev s = bs_prev t) then mret (accp ++ [p], accq ++ [q])
      else
        p' ← get_block (bs_prev s);
        q' ← get_block (bs_prev t);
        p' ← st_lift (of_option p' undefined_behaviour);
        q' ← st_lift (of_option q' undefined_behaviour);
        fetch_both fuel p' q' (accp ++ [p]) (accq ++ [q])
  end.

Definition fetch_branch_from (first second : digest) : fdb (list ptr * list ptr) :=
  db ← st_get;
  let fuel := S (length (by_prev db)) in
  p ← get_block first;
  q ← get_block second;
  p ← st_lift (of_option p undefined_behaviour);
  q ← st_lift (of_option q undefined_behaviour);
  t ← deref q;
  '(p, accp) ← fetch_down fuel (bs_num t) p [];
  s ← deref p;
  '(q, accq) ← fetch_down fuel (bs_num s) q [];
  fetch_both fuel p q accp accq.

(** The contents of the file that [close] writes: every block state, without its transaction
    metadata, in the iteration order [order] of the hashed index, and the id of the head. *)
Definition reloaded (s : block_state) : block_state :=
  BlockState (bhs s) (block s) (validated s) (in_current_chain s) [].

Definition close (order : list ptr) : fdb (option (list block_state * digest)) :=
  db ← st_get;
  if (length (by_prev db) =? 0)%nat then mret None
  else
    let blocks := omap (λ p, reloaded <$> heap db !! p) order in
    let head_id := default digest_zero (p ← fork_head db; bs_id <$> heap db !! p) in
    hd ← st_lift (of_option (fork_head db) undefined_behaviour);
    h ← deref hd;
    oldest ← first_of by_block_num;
    o ← deref oldest;
    _ ← (if bs_num o <=? bs_lib h then prune prune_fuel oldest else mret tt);
    _ ← st_modify (λ db, set_index db [] [] []);
    mret (Some (blocks, head_id)).

(** The constructor [fork_database( data_dir )] on the contents of the file. *)
Fixpoint open_blocks (blocks : list block_state) : fdb unit :=
  match blocks with
  | [] => mret tt
  | s :: blocks => p ← make_shared s; _ ← set p; open_blocks blocks
  end.

Definition open (file : option (list block_state * digest)) : fdb unit :=
  match file with
  | None => mret tt
  | Some (blocks, head_id) =>
      _ ← open_blocks blocks;
      p ← get_block head_id;
      st_modify (λ db, set_head db p)
  end.

(** ** Lemmas on ordered indexes *)

Lemma StronglySorted_on {A} (R R' : relation A) (l : list A) :
  (∀ x y, x ∈ l → y ∈ l → R x y → R' x y) → StronglySorted R l → StronglySorted R' l.
Proof.
  intros HR Hs. induction Hs as [|x l Hs IH Hx]; constructor.
  - apply IH. intros y z Hy Hz. apply HR; by right.
  - rewrite Forall_forall in Hx |- *. intros y Hy. apply HR; [left|by right|by apply Hx].
Qed.

Lemma StronglySorted_filter {A} (R : relation A) (P : A → Prop) `{!∀ x, Decision (P x)} l :
  StronglySorted R l → StronglySorted R (filter P l).
Proof.
  induction 1 as [|x l Hs IH Hx]; [constructor|].
  rewrite filter_cons. case_decide; [|done]. constructor; [done|].
  rewrite Forall_forall in Hx |- *. intros y [_ Hy]%list_elem_of_filter. by apply Hx.
Qed.

Lemma StronglySorted_head {A} (R : relation A) x l y :
  StronglySorted R (x :: l) → y ∈ l → R x y.
Proof. intros [_ Hx]%StronglySorted_inv Hy. rewrite Forall_forall in Hx. by apply Hx. Qed.

Global Instance num_lt_weak : StrictWeak num_lt.
Proof.
  split; unfold num_lt; intros.
  - destruct (in_current_chain a), (in_current_chain b); simpl in *; lia.
  - destruct (in_current_chain a), (in_current_chain b), (in_current_chain c); simpl in *; lia.
Qed.

Global Instance lib_lt_weak : StrictWeak lib_lt.
Proof. split; unfold lib_lt; intros; lia. Qed.

Global Instance ptr_lt_weak lt h : StrictWeak lt → StrictWeak (ptr_lt lt h).
Proof.
  intros []. split; unfold ptr_lt.
  - intros a b. destruct (h !! a), (h !! b); eauto.
  - intros a b c. destruct (h !! a), (h !! b), (h !! c); eauto; done.
Qed.

(** ** The invariant of the store *)

Context {OL : OrderedIndexLaws}.

(** Every indexed block is allocated, ids are unique, the three orders hold the same blocks, and
    the two ordered indexes are sorted by their keys. *)
Record db_wf (db : fork_database) : Prop := {
  dw_alloc : ∀ p, p ∈ by_prev db → is_Some (heap db !! p);
  dw_fresh : ∀ p, is_Some (heap db !! p) → (p < next_ptr db)%nat;
  dw_ids : NoDup ((λ p, bs_id <$> heap db !! p) <$> by_prev db);
  dw_nums : by_block_num db ≡ₚ by_prev db;
  dw_libs : by_lib_block_num db ≡ₚ by_prev db;
  dw_nums_sorted : StronglySorted (index_le (ptr_lt num_lt (heap db))) (by_block_num db);
  dw_libs_sorted : StronglySorted (index_le (ptr_lt lib_lt (heap db))) (by_lib_block_num db);
}.

Lemma dw_nodup db : db_wf db → NoDup (by_prev db).
Proof. intros Hwf. eapply NoDup_fmap_1, dw_ids, Hwf. Qed.

Lemma db_empty_wf : db_wf db_empty.
Proof. split; simpl; [set_solver|intros p [? ?]; by simplify_map_eq|..]; by try constructor. Qed.

Lemma set_head_wf db h : db_wf db → db_wf (set_head db h).
Proof. by intros []; split. Qed.

Lemma emit_irreversible_wf db p : db_wf db → db_wf (emit_irreversible db p).
Proof. by intros []; split. Qed.

Lemma find_id_None db i :
  find_id db i = None ↔ ∀ p, p ∈ by_prev db → ¬ has_id (heap db) i p.
Proof.
  unfold find_id. rewrite fmap_None, list_find_None, Forall_forall. done.
Qed.

Lemma find_id_Some_1 db i p :
  find_id db i = Some p → p ∈ by_prev db ∧ has_id (heap db) i p.
Proof.
  unfold find_id. intros ([k q] & Hf & ->)%fmap_Some.
  apply list_find_Some in Hf as (Hk & Hp & _). simpl. split; [|done]. by eapply list_elem_of_lookup_2.
Qed.

Lemma dw_id_inj db p q i :
  db_wf db → p ∈ by_prev db → q ∈ by_prev db → has_id (heap db) i p → has_id (heap db) i q → p = q.
Proof.
  intros Hwf [k Hk]%list_elem_of_lookup [l Hl]%list_elem_of_lookup Hp Hq.
  assert (k = l); [|by simplify_eq].
  eapply NoDup_lookup; [by apply dw_ids|..]; rewrite list_lookup_fmap.
  - by rewrite Hk; simpl; rewrite Hp.
  - by rewrite Hl; simpl; rewrite Hq.
Qed.

Lemma find_id_Some db i p :
  db_wf db → find_id db i = Some p ↔ p ∈ by_prev db ∧ has_id (heap db) i p.
Proof.
  intros Hwf. split; [apply find_id_Some_1|]. intros [Hp Hi].
  destruct (find_id db i) as [q|] eqn:E.
  - apply find_id_Some_1 in E as [Hq Hqi]. f_equal. by eapply dw_id_inj.
  - rewrite find_id_None in E. exfalso. by apply (E p).
Qed.

Lemma db_insert_wf db p db' : db_wf db → db_insert db p = Some db' → db_wf db'.
Proof.
  intros Hwf Hi. unfold db_insert in Hi.
  destruct (heap db !! p) as [s|] eqn:Hs; simpl in Hi; [|done].
  destruct (find_id db (bs_id s)) eqn:Hf; simplify_eq.
  rewrite find_id_None in Hf. split; simpl.
  - intros q [Hq|Hq]%elem_of_app; [by apply dw_alloc|].
    apply list_elem_of_singleton in Hq as ->. by rewrite Hs.
  - by apply dw_fresh.
  - rewrite fmap_app. apply NoDup_app. split; [by apply dw_ids|]. split; [|apply NoDup_singleton].
    intros x (q & -> & Hq)%list_elem_of_fmap Hx. simpl in Hx.
    apply list_elem_of_singleton in Hx. rewrite Hs in Hx. by apply (Hf q).
  - rewrite index_insert_perm by apply _. by rewrite dw_nums, Permutation_cons_append by done.
  - rewrite index_insert_perm by apply _. by rewrite dw_libs, Permutation_cons_append by done.
  - apply index_insert_sorted; [apply _|by apply dw_nums_sorted].
  - apply index_insert_sorted; [apply _|by apply dw_libs_sorted].
Qed.

Lemma db_erase_wf db p : db_wf db → db_wf (db_erase db p).
Proof.
  intros Hwf. split; simpl.
  - intros q [_ Hq]%list_elem_of_filter. by apply dw_alloc.
  - by apply dw_fresh.
  - eapply sublist_NoDup; [by apply dw_ids|]. apply fmap_sublist, sublist_filter.
  - by rewrite dw_nums.
  - by rewrite dw_libs.
  - by apply StronglySorted_filter, dw_nums_sorted.
  - by apply StronglySorted_filter, dw_libs_sorted.
Qed.

Lemma alter_key {B} (k : block_state → B) f p (h : gmap ptr block_state) q :
  (∀ s, k (f s) = k s) → k <$> alter f p h !! q = k <$> h !! q.
Proof.
  intros Hk. destruct (decide (p = q)) as [->|].
  - rewrite lookup_alter_eq. destruct (h !! q); simpl; [by rewrite Hk|done].
  - by rewrite lookup_alter_ne.
Qed.

Lemma alter_is_Some f p (h : gmap ptr block_state) q : is_Some (alter f p h !! q) ↔ is_Some (h !! q).
Proof.
  destruct (decide (p = q)) as [->|]; [|by rewrite lookup_alter_ne].
  rewrite lookup_alter_eq. by rewrite fmap_is_Some.
Qed.

Lemma ptr_lt_alter_ne lt f p h x y :
  p ≠ x → p ≠ y → ptr_lt lt (alter f p h) x y = ptr_lt lt h x y.
Proof. intros. unfold ptr_lt. by rewrite !lookup_alter_ne. Qed.

Lemma ptr_lt_alter_same lt f p h x y :
  (∀ s t, lt (f s) t = lt s t) → (∀ s t, lt t (f s) = lt t s) →
  ptr_lt lt (alter f p h) x y = ptr_lt lt h x y.
Proof.
  intros H1 H2. unfold ptr_lt.
  assert (Hq : ∀ q, alter f p h !! q = h !! q ∨ ∃ s, h !! q = Some s ∧ alter f p h !! q = Some (f s)).
  { intros q. destruct (decide (p = q)) as [->|]; [|left; by rewrite lookup_alter_ne].
    rewrite lookup_alter_eq. destruct (h !! q); [right; by eexists|by left]. }
  destruct (Hq x) as [->|(s & -> & ->)], (Hq y) as [->|(s' & -> & ->)]; try done.
  - destruct (h !! x); [by rewrite H2|done].
  - destruct (h !! y); [by rewrite H1|done].
  - by rewrite H1, H2.
Qed.

Lemma modified_index_sorted lt f p h l :
  StrictWeak lt → NoDup l → StronglySorted (index_le (ptr_lt lt h)) l →
  StronglySorted (index_le (ptr_lt lt (alter f p h))) (index_modify (ptr_lt lt (alter f p h)) p l).
Proof.
  intros Hlt Hnd Hs. apply index_modify_sorted; [apply _|done|..].
  - eapply StronglySorted_on; [|by apply StronglySorted_filter].
    intros x y [Hx _]%list_elem_of_filter [Hy _]%list_elem_of_filter. unfold index_le.
    by rewrite ptr_lt_alter_ne.
  - intros Hp. eapply StronglySorted_on; [|exact Hs]. intros x y Hx Hy. unfold index_le.
    rewrite ptr_lt_alter_ne; [done|congruence|congruence].
Qed.

Lemma alter_ids_nodup db f p :
  (∀ s, bs_id (f s) = bs_id s) → db_wf db →
  NoDup ((λ q, bs_id <$> alter f p (heap db) !! q) <$> by_prev db).
Proof.
  intros Hf Hwf. erewrite list_fmap_ext; [by apply dw_ids|].
  intros i x _. simpl. by apply alter_key.
Qed.

Lemma db_modify_wf db p f :
  (∀ s, bs_id (f s) = bs_id s) → db_wf db → db_wf (db_modify db p f).
Proof.
  intros Hf Hwf. pose proof (dw_nodup _ Hwf) as Hnd. split; simpl.
  - intros q Hq. apply alter_is_Some. by apply dw_alloc.
  - intros q Hq%alter_is_Some. by apply dw_fresh.
  - by apply alter_ids_nodup.
  - rewrite index_modify_perm by apply _. by rewrite dw_nums.
  - rewrite index_modify_perm by apply _. by rewrite dw_libs.
  - apply modified_index_sorted; [apply _|by rewrite dw_nums|by apply dw_nums_sorted].
  - apply modified_index_sorted; [apply _|by rewrite dw_libs|by apply dw_libs_sorted].
Qed.

(** Changing a block in place is allowed for the fields that are no keys. *)
Definition keeps_keys (f : block_state → block_state) : Prop :=
  ∀ s, bs_id (f s) = bs_id s ∧ bs_prev (f s) = bs_prev s ∧ bs_num (f s) = bs_num s ∧
    in_current_chain (f s) = in_current_chain s ∧ bs_lib (f s) = bs_lib s ∧ bs_bft (f s) = bs_bft s.

Lemma set_heap_wf db p f : keeps_keys f → db_wf db → db_wf (set_heap db (alter f p (heap db))).
Proof.
  intros Hf Hwf.
  assert (Hn : ∀ x y, ptr_lt num_lt (alter f p (heap db)) x y = ptr_lt num_lt (heap db) x y).
  { intros x y. apply ptr_lt_alter_same; intros s t; unfold num_lt;
      by destruct (Hf s) as (_ & _ & -> & -> & _ & _). }
  assert (Hl : ∀ x y, ptr_lt lib_lt (alter f p (heap db)) x y = ptr_lt lib_lt (heap db) x y).
  { intros x y. apply ptr_lt_alter_same; intros s t; unfold lib_lt;
      by destruct (Hf s) as (_ & _ & -> & _ & -> & ->). }
  split; simpl.
  - intros q Hq. apply alter_is_Some. by apply dw_alloc.
  - intros q Hq%alter_is_Some. by apply dw_fresh.
  - apply alter_ids_nodup; [|done]. intros s. apply Hf.
  - by apply dw_nums.
  - by apply dw_libs.
  - eapply StronglySorted_on; [|by apply dw_nums_sorted]. intros x y _ _. unfold index_le. by rewrite Hn.
  - eapply StronglySorted_on; [|by apply dw_libs_sorted]. intros x y _ _. unfold index_le. by rewrite Hl.
Qed.

(** A new allocation leaves the indexed blocks as they were. *)
Lemma make_shared_wf s : st_preserves db_wf (make_shared s).
Proof.
  intros db Hwf. unfold make_shared. simpl.
  assert (Hne : ∀ p, p ∈ by_prev db → next_ptr db ≠ p).
  { intros p Hp. apply dw_alloc in Hp; [|done]. apply dw_fresh in Hp; [|done]. lia. }
  assert (Hlt : ∀ lt x y, x ∈ by_prev db → y ∈ by_prev db →
    ptr_lt lt (<[next_ptr db := s]> (heap db)) x y = ptr_lt lt (heap db) x y).
  { intros lt x y Hx Hy. unfold ptr_lt. by rewrite !lookup_insert_ne by auto. }
  split; simpl.
  - intros p Hp. rewrite lookup_insert_ne by auto. by apply dw_alloc.
  - intros p [x Hp]. destruct (decide (p = next_ptr db)) as [->|]; [lia|].
    rewrite lookup_insert_ne in Hp by done. apply Nat.lt_lt_succ_r. apply dw_fresh; by eauto.
  - erewrite list_fmap_ext; [by apply dw_ids|]. intros i x Hx%list_elem_of_lookup_2. simpl.
    by rewrite lookup_insert_ne by auto.
  - by apply dw_nums.
  - by apply dw_libs.
  - eapply StronglySorted_on; [|by apply dw_nums_sorted]. intros x y Hx Hy. unfold index_le.
    by rewrite Hlt; [..|rewrite <-dw_nums|rewrite <-dw_nums].
  - eapply StronglySorted_on; [|by apply dw_libs_sorted]. intros x y Hx Hy. unfold index_le.
    by rewrite Hlt; [..|rewrite <-dw_libs|rewrite <-dw_libs].
Qed.

Lemma insert_node_wf p : st_preserves db_wf (insert_node p).
Proof.
  apply st_preserves_get. intros db Hwf. destruct (db_insert db p) eqn:E; [|done].
  simpl. by eapply db_insert_wf.
Qed.

#[local] Hint Resolve set_head_wf emit_irreversible_wf db_erase_wf db_modify_wf set_heap_wf
  make_shared_wf insert_node_wf : chain.

Lemma deref_wf (I : fork_database → Prop) p : st_preserves I (deref p).
Proof. unfold deref. eauto with chain. Qed.

Lemma first_of_wf (I : fork_database → Prop) ix : st_preserves I (first_of ix).
Proof. unfold first_of. eauto with chain. Qed.

Lemma get_block_wf (I : fork_database → Prop) i : st_preserves I (get_block i).
Proof. unfold get_block. eauto with chain. Qed.

#[local] Hint Resolve deref_wf first_of_wf get_block_wf : chain.

(** Splits a preservation goal along the code. *)
Ltac preserve :=
  repeat first
  [ progress intros
  | progress cbv zeta
  | match goal with
    | |- st_preserves _ (_ ≫= _) => apply st_preserves_bind
    | |- st_preserves _ (match ?x with _ => _ end) => destruct x
    | |- st_preserves _ (st_modify _) => apply st_preserves_modify; intros; cbv beta
    end
  | solve [eauto with chain] ].

Lemma remove_wf i : st_preserves db_wf (remove i).
Proof.
  assert (Hfor : ∀ fuel queue k, st_preserves db_wf (remove_for fuel queue k)).
  { induction fuel as [|fuel IH]; intros queue k; simpl; preserve. }
  unfold remove. preserve.
Qed.

#[local] Hint Resolve remove_wf : chain.

Lemma prune_wf fuel h : st_preserves db_wf (prune fuel h).
Proof.
  assert (Hforks : ∀ fuel num nitr, st_preserves db_wf (prune_forks fuel num nitr)).
  { clear. induction fuel as [|fuel IH]; intros; simpl; preserve. }
  assert (Holder : ∀ rec num fuel, (∀ p, st_preserves db_wf (rec p)) →
    st_preserves db_wf (prune_older rec num fuel)).
  { clear. intros rec num fuel Hrec. induction fuel as [|fuel IH]; simpl; preserve. }
  revert h. induction fuel as [|fuel IH]; intros h; cbn [prune]; preserve.
Qed.

#[local] Hint Resolve prune_wf : chain.

Lemma set_wf p : st_preserves db_wf (set p).
Proof. unfold set. preserve. Qed.

Lemma add_block_state_wf n skip : st_preserves db_wf (add_block_state n skip).
Proof. unfold add_block_state. preserve. Qed.

#[local] Hint Resolve set_wf add_block_state_wf : chain.

Lemma add_signed_block_wf b skip : st_preserves db_wf (add_signed_block b skip).
Proof. unfold add_signed_block. preserve. Qed.

Lemma keeps_validated : keeps_keys (λ s, set_validated s true).
Proof. by intros s. Qed.

Lemma set_validity_wf h v : st_preserves db_wf (set_validity h v).
Proof.
  unfold set_validity. preserve.
  by apply (set_heap_wf _ _ _ keeps_validated).
Qed.

Lemma mark_in_current_chain_wf h b : st_preserves db_wf (mark_in_current_chain h b).
Proof.
  unfold mark_in_current_chain. preserve.
Qed.

Lemma set_bft_irreversible_wf i : st_preserves db_wf (set_bft_irreversible i).
Proof.
  assert (Hone : ∀ num up p, st_preserves db_wf (bft_update_one num up p)).
  { intros. unfold bft_update_one. preserve. }
  assert (Hch : ∀ num ps up, st_preserves db_wf (bft_update_children num up ps)).
  { intros num. induction ps as [|p ps IH]; intros; simpl; preserve. }
  assert (Hup : ∀ num layer up, st_preserves db_wf (bft_update num up layer)).
  { intros num. induction layer as [|p layer IH]; intros; simpl; preserve. }
  assert (Hwh : ∀ num fuel q, st_preserves db_wf (bft_while fuel num q)).
  { intros num. induction fuel as [|fuel IH]; intros; simpl; preserve. }
  unfold set_bft_irreversible. preserve.
Qed.

Lemma add_confirmation_shape s c h :
  add_confirmation s c = Ok h → h = with_confirmations s (confirmations s ++ [c]).
Proof. unfold add_confirmation. intros Hc. by inv_ok. Qed.

(** Storing the confirmations of a block. *)
Definition put_confirmations (cs : list header_confirmation) (s : block_state) : block_state :=
  set_bhs s (with_confirmations (bhs s) cs).

Lemma keeps_confirmations cs : keeps_keys (put_confirmations cs).
Proof. by intros s. Qed.

Lemma store_confirmation db p s c h :
  heap db !! p = Some s → add_confirmation (bhs s) c = Ok h →
  <[p := set_bhs s h]> (heap db) =
  alter (put_confirmations (confirmations (bhs s) ++ [c])) p (heap db).
Proof.
  intros Hp ->%add_confirmation_shape. apply map_eq. intros q.
  destruct (decide (p = q)) as [->|].
  - by rewrite lookup_insert_eq, lookup_alter_eq, Hp.
  - by rewrite lookup_insert_ne, lookup_alter_ne.
Qed.

Lemma deref_run db p s : heap db !! p = Some s → deref p db = (db, Ok s).
Proof. intros Hp. unfold deref, mbind, stM_bind, st_get, st_lift. simpl. by rewrite Hp. Qed.

Lemma deref_null db p : heap db !! p = None → deref p db = (db, Throw undefined_behaviour).
Proof. intros Hp. unfold deref, mbind, stM_bind, st_get, st_lift. simpl. by rewrite Hp. Qed.

Lemma get_block_run db i : get_block i db = (db, Ok (find_id db i)).
Proof. done. Qed.

Lemma add_header_confirmation_wf c : st_preserves db_wf (add_header_confirmation c).
Proof.
  intros db Hwf. unfold add_header_confirmation.
  rewrite (st_bind_run _ _ _ _ _ (get_block_run db _)).
  destruct (find_id db (conf_block_id c)) as [p|]; [|done].
  rewrite (st_bind_run _ _ db db p eq_refl).
  destruct (heap db !! p) as [s|] eqn:Hs; [|by rewrite (st_bind_throw _ _ _ _ _ (deref_null _ _ Hs))].
  rewrite (st_bind_run _ _ _ _ _ (deref_run _ _ _ Hs)).
  destruct (add_confirmation (bhs s) c) as [h|e] eqn:Hc; [|done].
  rewrite (st_bind_run _ _ db db h eq_refl), (st_bind_run _ _ db _ tt eq_refl).
  erewrite store_confirmation by done.
  assert (Hwf' : db_wf (set_heap db (alter (put_confirmations (confirmations (bhs s) ++ [c])) p (heap db)))).
  { apply set_heap_wf; [apply keeps_confirmations|done]. }
  case_match; [by apply set_bft_irreversible_wf|done].
Qed.

#[local] Hint Resolve add_signed_block_wf set_validity_wf mark_in_current_chain_wf
  set_bft_irreversible_wf add_header_confirmation_wf : chain.

Lemma clear_wf db : db_wf db → db_wf (set_index db [] [] []).
Proof. intros Hwf. split; simpl; [set_solver|by apply dw_fresh|..]; by try constructor. Qed.

#[local] Hint Resolve clear_wf : chain.

Lemma close_wf order : st_preserves db_wf (close order).
Proof. unfold close. preserve. Qed.

Lemma open_wf file : st_preserves db_wf (open file).
Proof.
  assert (Hb : ∀ blocks, st_preserves db_wf (open_blocks blocks)).
  { induction blocks as [|s blocks IH]; simpl; preserve. }
  unfold open. preserve.
Qed.

#[local] Hint Resolve close_wf open_wf : chain.

(** ** Runs of the public interface *)
Inductive fork_op :=
| OpMake (s : block_state)
| OpOpen (file : option (list block_state * digest))
| OpClose (order : list ptr)
| OpSet (p : ptr)
| OpAddState (n : option ptr) (skip : bool)
| OpAddBlock (b : option signed_block) (skip : bool)
| OpRemove (i : digest)
| OpConfirm (c : header_confirmation)
| OpValidity (h : ptr) (valid : bool)
| OpMark (h : ptr) (b : bool)
| OpPrune (h : ptr).

Definition fork_run (op : fork_op) (db : fork_database) : fork_database :=
  match op with
  | OpMake s => (make_shared s db).1
  | OpOpen file => (open file db).1
  | OpClose order => (close order db).1
  | OpSet p => (set p db).1
  | OpAddState n skip => (add_block_state n skip db).1
  | OpAddBlock b skip => (add_signed_block b skip db).1
  | OpRemove i => (remove i db).1
  | OpConfirm c => (add_header_confirmation c db).1
  | OpValidity h v => (set_validity h v db).1
  | OpMark h b => (mark_in_current_chain h b db).1
  | OpPrune h => (prune prune_fuel h db).1
  end.

(** One call, whether it returns or throws. *)
Inductive fork_step : relation fork_database :=
| ForkStep op db : fork_step db (fork_run op db).

Lemma fork_step_wf db db' : fork_step db db' → db_wf db → db_wf db'.
Proof.
  intros [op db0] Hwf. unfold fork_run.
  destruct op; match goal with |- db_wf (?m db0).1 =>
    assert (Hp : st_preserves db_wf m) by eauto with chain; by apply Hp end.
Qed.

Lemma fork_steps_wf db db' : rtc fork_step db db' → db_wf db → db_wf db'.
Proof. induction 1; eauto using fork_step_wf. Qed.

(** ** Removal of a branch *)

(** The blocks of the database that [remove i] is about: the block with id [i], and every block
    that builds on it, directly or through blocks of the database. *)
Inductive under (db : fork_database) (i : digest) : ptr → Prop :=
| under_self p : p ∈ by_prev db → has_id (heap db) i p → under db i p
| under_child p : p ∈ by_prev db → has_prev (heap db) i p → under db i p
| under_step q j p :
    under db i q → has_id (heap db) j q → p ∈ by_prev db → has_prev (heap db) j p → under db i p.

Definition id_in (h : gmap ptr block_state) (D : list digest) (p : ptr) : Prop :=
  match bs_id <$> h !! p with Some x => x ∈ D | None => False end.
Global Instance id_in_dec h D p : Decision (id_in h D p).
Proof. unfold id_in. destruct (bs_id <$> h !! p); apply _. Defined.

(** The database without the blocks whose ids are listed. *)
Definition without (db : fork_database) (D : list digest) : fork_database :=
  set_index db (filter (λ p, ¬ id_in (heap db) D p) (by_prev db))
    (filter (λ p, ¬ id_in (heap db) D p) (by_block_num db))
    (filter (λ p, ¬ id_in (heap db) D p) (by_lib_block_num db)).

(** No block of the database builds on a listed id without being listed. *)
Definition closed_under (db : fork_database) (D Q : list digest) : Prop :=
  ∀ p x, p ∈ by_prev db → x ∈ D → has_prev (heap db) x p → id_in (heap db) Q p.

Lemma id_in_has_id h D p i : has_id h i p → id_in h D p ↔ i ∈ D.
Proof. unfold has_id, id_in. by intros ->. Qed.

Lemma has_id_fun h p i j : has_id h i p → has_id h j p → i = j.
Proof. unfold has_id. congruence. Qed.

Lemma has_prev_fun h p i j : has_prev h i p → has_prev h j p → i = j.
Proof. unfold has_prev. congruence. Qed.

Lemma has_id_alloc db p : db_wf db → p ∈ by_prev db → ∃ i, has_id (heap db) i p.
Proof. intros Hwf [s Hs]%dw_alloc; [|done]. exists (bs_id s). unfold has_id. by rewrite Hs. Qed.

Lemma without_nil db : without db [] = db.
Proof.
  assert (Hf : ∀ l : list ptr, filter (λ p, ¬ id_in (heap db) [] p) l = l).
  { intros l. apply filter_all, Forall_forall. intros p _. unfold id_in.
    destruct (bs_id <$> heap db !! p); [apply not_elem_of_nil|tauto]. }
  unfold without, set_index. rewrite !Hf. by destruct db.
Qed.

Lemma filter_id_in_app h D x (l : list ptr) :
  filter (λ p, ¬ id_in h (D ++ [x]) p) l =
  filter (λ p, ¬ has_id h x p) (filter (λ p, ¬ id_in h D p) l).
Proof.
  rewrite list_filter_filter. apply list_filter_iff. intros p. unfold id_in, has_id.
  destruct (bs_id <$> h !! p) as [y|]; [|naive_solver].
  rewrite not_elem_of_app, not_elem_of_cons. split.
  - intros (? & ? & _). split; congruence.
  - intros [Hy ?]. repeat split; [done|congruence|apply not_elem_of_nil].
Qed.

Lemma without_elem db D p :
  p ∈ by_prev (without db D) ↔ p ∈ by_prev db ∧ ¬ id_in (heap db) D p.
Proof. simpl. rewrite list_elem_of_filter. tauto. Qed.

(** One step of the loop: the block with the id at the front of the queue disappears. *)
Lemma remove_erase db D x :
  db_wf db → x ∉ D →
  match find_id (without db D) x with
  | Some p => db_erase (without db D) p
  | None => without db D
  end = without db (D ++ [x]).
Proof.
  intros Hwf Hx.
  assert (Hperm : ∀ l : list ptr, l ≡ₚ by_prev db → ∀ p, p ∈ l → p ∈ by_prev db).
  { intros l Hl p. by rewrite Hl. }
  destruct (find_id (without db D) x) as [p|] eqn:Hf.
  - apply find_id_Some_1 in Hf as [[Hp HpD]%without_elem Hid]. simpl in Hid.
    assert (Hfil : ∀ l : list ptr, l ≡ₚ by_prev db →
      filter (p ≠.) (filter (λ q, ¬ id_in (heap db) D q) l) =
      filter (λ q, ¬ id_in (heap db) (D ++ [x]) q) l).
    { intros l Hl. rewrite filter_id_in_app, !list_filter_filter.
      apply filter_iff_in. intros q Hq. split; intros [Hq1 Hq2]; split; try done.
      - intros Hqx. apply Hq1. eapply dw_id_inj; eauto.
      - congruence. }
    unfold db_erase, without, set_index. simpl. by rewrite !Hfil by (try done; by apply Hwf).
  - rewrite find_id_None in Hf.
    assert (Hfil : ∀ l : list ptr, l ≡ₚ by_prev db →
      filter (λ q, ¬ id_in (heap db) D q) l = filter (λ q, ¬ id_in (heap db) (D ++ [x]) q) l).
    { intros l Hl. rewrite filter_id_in_app. symmetry. apply filter_all, Forall_forall.
      intros q [Hq1 Hq2]%list_elem_of_filter. apply (Hf q), without_elem. eauto. }
    unfold without, set_index. by rewrite !Hfil by (try done; by apply Hwf).
Qed.

Definition ids_of (db : fork_database) (l : list ptr) : list digest :=
  omap (λ p, bs_id <$> heap db !! p) l.

Lemma ids_of_elem db l i : i ∈ ids_of db l ↔ ∃ p, p ∈ l ∧ has_id (heap db) i p.
Proof. unfold ids_of. by rewrite list_elem_of_omap. Qed.

Lemma ids_of_length db l : (length (ids_of db l) <= length l)%nat.
Proof.
  unfold ids_of. induction l as [|p l IH]; simpl; [lia|]. case_match; simpl; unfold omap in *; lia.
Qed.

Lemma ids_of_nodup db l : db_wf db → NoDup l → (∀ p, p ∈ l → p ∈ by_prev db) → NoDup (ids_of db l).
Proof.
  intros Hwf. induction 1 as [|p l Hp _ IH]; intros Hl; [constructor|].
  unfold ids_of. simpl. destruct (has_id_alloc db p) as [i Hi]; [done|apply Hl; left|].
  rewrite Hi. constructor; [|apply IH; intros q Hq; apply Hl; by right].
  intros (q & Hq & Hqi)%ids_of_elem. assert (p = q) as ->; [|done].
  eapply dw_id_inj; [done|apply Hl; left|apply Hl; by right|done|done].
Qed.

(** What the loop of [remove] keeps true of the queue: [D] is processed, [R] is waiting. *)
Record queue_inv (db : fork_database) (i : digest) (D R : list digest) : Prop := {
  qi_head : head (D ++ R) = Some i;
  qi_nodup : NoDup (D ++ R);
  qi_parent : ∀ x, x ∈ D ++ R → x = i ∨ ∃ p y,
    p ∈ by_prev db ∧ has_id (heap db) x p ∧ has_prev (heap db) y p ∧ y ∈ D;
  qi_sound : ∀ p x, p ∈ by_prev db → x ∈ D ++ R → has_id (heap db) x p → under db i p;
  qi_closed : closed_under db D (D ++ R);
}.

Lemma queue_inv_start db i : queue_inv db i [] [i].
Proof.
  split; simpl; [done|apply NoDup_singleton|..].
  - intros x ->%list_elem_of_singleton. by left.
  - intros p x Hp ->%list_elem_of_singleton Hid. by apply under_self.
  - intros p x _ []%not_elem_of_nil.
Qed.

Lemma queue_inv_bound db i D R :
  db_wf db → queue_inv db i D R → (length D + length R <= S (length (by_prev db)))%nat.
Proof.
  intros Hwf Hq. rewrite <-length_app.
  assert (Hsub : D ++ R ⊆+ i :: ids_of db (by_prev db)).
  { apply NoDup_submseteq; [apply Hq|]. intros x Hx.
    destruct (qi_parent _ _ _ _ Hq x Hx) as [->|(p & y & Hp & Hid & _)]; [left|right].
    apply ids_of_elem. eauto. }
  apply submseteq_length in Hsub. simpl in Hsub.
  pose proof (ids_of_length db (by_prev db)). lia.
Qed.

Lemma queue_inv_step db i D x R :
  db_wf db → queue_inv db i D (x :: R) →
  queue_inv db i (D ++ [x]) (R ++ ids_of db (children (without db (D ++ [x])) x)).
Proof.
  intros Hwf Hq.
  assert (Hch : ∀ p, p ∈ children (without db (D ++ [x])) x ↔
    has_prev (heap db) x p ∧ p ∈ by_prev db ∧ ¬ id_in (heap db) (D ++ [x]) p).
  { intros p. unfold children. rewrite list_elem_of_filter, without_elem. done. }
  assert (Happ : ∀ l, (D ++ [x]) ++ R ++ l = (D ++ x :: R) ++ l).
  { intros l. by rewrite <-!app_assoc. }
  assert (Hxin : x ∈ D ++ x :: R) by (apply elem_of_app; right; left).
  pose proof (qi_nodup _ _ _ _ Hq) as Hnd.
  assert (HxD : x ∉ D) by (apply NoDup_app in Hnd as (_ & Hd & _); intros ?; eapply Hd; [done|left]).
  split; rewrite ?Happ.
  - rewrite head_app. by rewrite (qi_head _ _ _ _ Hq).
  - apply NoDup_app. split; [done|]. split.
    2:{ apply ids_of_nodup; [done| |by intros p (_ & ? & _)%Hch].
        apply NoDup_filter, NoDup_filter, dw_nodup, Hwf. }
    intros z Hz (p & (Hpx & Hp & HpD)%Hch & Hid)%ids_of_elem.
    rewrite (id_in_has_id _ _ _ z) in HpD by done.
    destruct (qi_parent _ _ _ _ Hq z Hz) as [->|(p' & y & Hp' & Hid' & Hy & HyD)].
    + apply HpD. pose proof (qi_head _ _ _ _ Hq) as Hh.
      destruct D as [|d D]; simpl in Hh; simplify_eq; left.
    + assert (p' = p) as -> by (by eapply dw_id_inj). by rewrite (has_prev_fun _ _ _ _ Hpx Hy) in HxD.
  - intros z [Hz|(p & (Hpx & Hp & _)%Hch & Hid)%ids_of_elem]%elem_of_app.
    + destruct (qi_parent _ _ _ _ Hq z Hz) as [->|(p' & y & ? & ? & ? & ?)]; [by left|right].
      exists p', y. repeat split; try done. apply elem_of_app. by left.
    + right. exists p, x. repeat split; try done. apply elem_of_app. right. left.
  - intros p z Hp [Hz|(p' & (Hpx & Hp' & _)%Hch & Hid')%ids_of_elem]%elem_of_app Hid.
    + by eapply qi_sound.
    + assert (p' = p) as -> by (by eapply dw_id_inj).
      destruct (qi_parent _ _ _ _ Hq x Hxin) as [->|(q & y & Hpq & Hqx & _)]; [by apply under_child|].
      eapply (under_step _ _ q); [|done..]. by eapply qi_sound.
  - intros p y Hp Hy Hpy. destruct (has_id_alloc db p) as [j Hj]; [done..|].
    rewrite (id_in_has_id _ _ _ j) by done. rewrite elem_of_app.
    apply elem_of_app in Hy as [Hy| ->%list_elem_of_singleton].
    + left. rewrite <-(id_in_has_id (heap db) _ p) by done. by eapply qi_closed.
    + destruct (decide (j ∈ D ++ [x])) as [HjD|HjD].
      * left. set_solver.
      * right. apply ids_of_elem. exists p. split; [|done]. apply Hch.
        by rewrite (id_in_has_id _ _ _ j).
Qed.

Lemma remove_for_run db i :
  db_wf db → ∀ fuel D R,
  queue_inv db i D R → (S (S (length (by_prev db))) <= fuel + length D)%nat →
  ∃ Q, remove_for fuel (D ++ R) (length D) (without db D) = (without db Q, Ok tt) ∧
    queue_inv db i Q [].
Proof.
  intros Hwf. induction fuel as [|fuel IH]; intros D R Hq Hfuel.
  { pose proof (queue_inv_bound _ _ _ _ Hwf Hq). lia. }
  destruct R as [|x R].
  - exists D. split; [|done]. simpl. rewrite app_nil_r, lookup_ge_None_2 by lia. done.
  - destruct (IH (D ++ [x]) (R ++ ids_of db (children (without db (D ++ [x])) x))) as (Q & HQ & HQi).
    { by apply queue_inv_step. }
    { rewrite length_app. simpl. lia. }
    exists Q. split; [|done]. rewrite <-HQ. cbn [remove_for].
    rewrite list_lookup_middle by done. cbv iota. rewrite st_get_run.
    assert (HxD : x ∉ D).
    { pose proof (qi_nodup _ _ _ _ Hq) as (_ & Hd & _)%NoDup_app. intros ?. eapply Hd; [done|left]. }
    rewrite (st_bind_run _ _ (without db D) (without db (D ++ [x])) tt).
    2:{ rewrite <-remove_erase by done. by destruct (find_id (without db D) x). }
    rewrite st_get_run, length_app, Nat.add_1_r. f_equal. by rewrite <-!app_assoc.
Qed.

Lemma under_indexed db i p : under db i p → p ∈ by_prev db.
Proof. by destruct 1. Qed.

Lemma queue_inv_exact db i Q p :
  db_wf db → queue_inv db i Q [] → p ∈ by_prev db → id_in (heap db) Q p ↔ under db i p.
Proof.
  intros Hwf Hq Hp. pose proof (qi_sound _ _ _ _ Hq) as Hs.
  pose proof (qi_closed _ _ _ _ Hq) as Hc. rewrite app_nil_r in Hs, Hc.
  pose proof (qi_head _ _ _ _ Hq) as Hh. rewrite app_nil_r in Hh.
  assert (HiQ : i ∈ Q) by (destruct Q; simplify_eq/=; left).
  split.
  - intros Hin. destruct (has_id_alloc db p) as [j Hj]; [done..|].
    rewrite (id_in_has_id _ _ _ j) in Hin by done. by eapply Hs.
  - clear Hp. induction 1 as [p Hp Hid|p Hp Hpr|q j p Hu IH Hj Hp Hpr].
    + by rewrite (id_in_has_id _ _ _ i).
    + by eapply Hc.
    + eapply Hc; [done| |done]. by rewrite <-(id_in_has_id (heap db) _ q).
Qed.

(** [remove] in terms of the removed ids. *)
Lemma remove_run db i :
  db_wf db → ∃ Q,
    (∀ p, p ∈ by_prev db → id_in (heap db) Q p ↔ under db i p) ∧
    remove i db =
      match head (by_lib_block_num (without db Q)) with
      | Some hd => (set_head (without db Q) (Some hd), Ok tt)
      | None => (without db Q, Throw undefined_behaviour)
      end.
Proof.
  intros Hwf.
  destruct (remove_for_run db i Hwf (S (S (length (by_prev db)))) [] [i]) as (Q & HQ & Hq).
  { apply queue_inv_start. }
  { simpl. lia. }
  exists Q. split; [intros p; by apply queue_inv_exact|].
  unfold remove. rewrite st_get_run. rewrite without_nil in HQ.
  rewrite (st_bind_run _ _ _ _ _ HQ). unfold first_of.
  destruct (head (by_lib_block_num (without db Q))) as [hd|] eqn:Hh.
  - rewrite (st_bind_run _ _ (without db Q) (without db Q) hd); [done|].
    rewrite st_get_run. unfold st_lift. by rewrite Hh.
  - erewrite st_bind_throw; [done|]. rewrite st_get_run. unfold st_lift. by rewrite Hh.
Qed.

(** A block that no indexed block beats in the order of by_lib_block_num. *)
Definition is_best (db : fork_database) (hd : ptr) : Prop :=
  hd ∈ by_prev db ∧
  ∀ q s t, q ∈ by_prev db → heap db !! q = Some s → heap db !! hd = Some t → lib_lt s t = false.

Lemma first_is_best db hd :
  db_wf db → head (by_lib_block_num db) = Some hd → is_best db hd.
Proof.
  intros Hwf Hh. destruct (by_lib_block_num db) as [|x l] eqn:E; simplify_eq/=.
  pose proof (dw_libs db Hwf) as Hp. pose proof (dw_libs_sorted db Hwf) as Hs. rewrite E in Hp, Hs.
  split; [rewrite <-Hp; left|]. intros q s t Hq Hqs Hht.
  rewrite <-Hp in Hq. apply elem_of_cons in Hq as [->|Hq].
  - simplify_eq. destruct (lib_lt s s) eqn:E'; [|done]. by rewrite (sw_asym _ _ E') in E'.
  - apply (StronglySorted_head _ _ _ _ Hs) in Hq. unfold index_le, ptr_lt in Hq.
    by rewrite Hqs, Hht in Hq.
Qed.

Lemma is_best_set_head db h hd : is_best db hd → is_best (set_head db h) hd.
Proof. done. Qed.

Lemma head_None_nil {A} (l : list A) : head l = None → l = [].
Proof. by destruct l. Qed.

Lemma filter_perm_nil (P : ptr → Prop) `{!∀ x, Decision (P x)} (l k : list ptr) :
  l ≡ₚ k → filter P l = [] → filter P k = [].
Proof. intros Hl Hf. symmetry. apply Permutation_nil_l. by rewrite <-Hf, Hl. Qed.

(** ** Pruning *)

(** Numbers grow by one along the links between indexed blocks. *)
Definition db_linked (db : fork_database) : Prop :=
  ∀ p q s t, p ∈ by_prev db → q ∈ by_prev db → heap db !! p = Some s → heap db !! q = Some t →
    bs_prev s = bs_id t → bs_num s = bs_num t + 1.

Definition has_num (h : gmap ptr block_state) (n : Z) (p : ptr) : Prop :=
  bs_num <$> h !! p = Some n.

(** A smaller index over the same heap. *)
Definition sub_db (db' db : fork_database) : Prop :=
  heap db' = heap db ∧ ∀ p, p ∈ by_prev db' → p ∈ by_prev db.

Lemma db_linked_sub db' db : sub_db db' db → db_linked db → db_linked db'.
Proof. intros [Hh Hp] Hl p q s t Hp' Hq'. rewrite Hh. apply Hl; by apply Hp. Qed.

Lemma under_sub db' db i p : sub_db db' db → under db' i p → under db i p.
Proof.
  intros [Hh Hp]. induction 1 as [p Hin Hid|p Hin Hpr|q j p Hu IH Hj Hin Hpr]; rewrite ?Hh in *.
  - by apply under_self; [apply Hp|].
  - by apply under_child; [apply Hp|].
  - by eapply under_step; [..|apply Hp|].
Qed.

Lemma under_disjoint db' db i j p :
  sub_db db' db → (∀ q, q ∈ by_prev db → ¬ under db i q → q ∈ by_prev db') →
  under db j p → ¬ under db i p → under db' j p.
Proof.
  intros [Hh _] Hin. induction 1 as [p Hp Hid|p Hp Hpr|q k p Hu IH Hk Hp Hpr]; intros Hn.
  - apply under_self; [by apply Hin|by rewrite Hh].
  - apply under_child; [by apply Hin|by rewrite Hh].
  - eapply under_step; [apply IH|by rewrite Hh|by apply Hin|by rewrite Hh].
    intros Hq. apply Hn. by eapply under_step.
Qed.

(** In a linked database a block below another one has a larger number. *)
Lemma under_num db i f n p m :
  db_wf db → db_linked db → f ∈ by_prev db → has_id (heap db) i f → has_num (heap db) n f →
  under db i p → has_num (heap db) m p → p = f ∨ n < m.
Proof.
  intros Hwf Hl Hf Hid Hn Hu. revert m.
  induction Hu as [p Hp Hpid|p Hp Hpr|q j p Hu IH Hj Hp Hpr]; intros m Hm.
  - left. by eapply dw_id_inj.
  - right. apply fmap_Some in Hm as (s & Hs & ->), Hn as (t & Ht & ->).
    unfold has_id, has_prev in *. rewrite Hs in Hpr. rewrite Ht in Hid. simpl in *.
    rewrite (Hl p f s t) by (try done; congruence). lia.
  - right. pose proof (under_indexed _ _ _ Hu) as Hq.
    apply fmap_Some in Hm as (s & Hs & ->), Hj as (t & Ht & ->).
    unfold has_prev in Hpr. rewrite Hs in Hpr. simpl in Hpr.
    rewrite (Hl p q s t) by (try done; congruence).
    destruct (IH (bs_num t)) as [->|?]; [unfold has_num; by rewrite Ht| |lia].
    unfold has_num in Hn. rewrite Ht in Hn. simplify_eq/=. lia.
Qed.

Lemma has_num_alloc db p : db_wf db → p ∈ by_prev db → ∃ n, has_num (heap db) n p.
Proof. intros Hwf [s Hs]%dw_alloc; [|done]. exists (bs_num s). unfold has_num. by rewrite Hs. Qed.

Lemma at_least_num h n p m : has_num h m p → at_least h n p ↔ n <= m.
Proof. unfold has_num, at_least. intros ->. done. Qed.

Lemma nums_indexed db p : db_wf db → p ∈ by_block_num db ↔ p ∈ by_prev db.
Proof. intros Hwf. by rewrite dw_nums. Qed.

Lemma num_sorted_le db p l q n m :
  db_wf db → by_block_num db = p :: l → q ∈ by_block_num db →
  has_num (heap db) n p → has_num (heap db) m q → n <= m.
Proof.
  intros Hwf Hl Hq Hn Hm. rewrite Hl in Hq. apply elem_of_cons in Hq as [->|Hq].
  { unfold has_num in *. rewrite Hn in Hm. simplify_eq. lia. }
  pose proof (dw_nums_sorted db Hwf) as Hs. rewrite Hl in Hs.
  apply (StronglySorted_head _ _ _ _ Hs) in Hq. unfold index_le, ptr_lt, has_num in *.
  destruct (heap db !! q), (heap db !! p); simplify_eq/=. unfold num_lt in Hq. lia.
Qed.

(** The first block above a number, from the first block of the index on. *)
Lemma lower_bound_filter db db' n c :
  lower_bound_num db n = Some c → heap db' = heap db → c ∈ by_block_num db' →
  (∃ P : ptr → Prop, ∃ D : ∀ x, Decision (P x), by_block_num db' = filter P (by_block_num db)) →
  lower_bound_num db' n = Some c.
Proof.
  unfold lower_bound_num. intros Hlb Hh Hc (P & D & HP). rewrite Hh. rewrite HP in Hc |- *.
  apply list_elem_of_filter in Hc as [Hc _]. clear HP.
  induction (by_block_num db) as [|x l IH]; simpl in Hlb; [done|].
  rewrite filter_cons. destruct (decide (at_least (heap db) n x)) as [Hx|Hx].
  - simplify_eq/=. rewrite decide_True by done. simpl. by rewrite decide_True.
  - assert (Hlb' : snd <$> list_find (at_least (heap db) n) l = Some c).
    { destruct (list_find (at_least (heap db) n) l) as [[]|]; simplify_eq/=; done. }
    destruct (decide (P x)); [|by apply IH].
    simpl. rewrite decide_False by done. specialize (IH Hlb').
    by destruct (list_find _ (filter P l)) as [[]|]; simplify_eq/=.
Qed.

(** Some block with number [num] is [p], or [p] builds on it. *)
Definition on_fork (db : fork_database) (num : Z) (p : ptr) : Prop :=
  ∃ f i, f ∈ by_prev db ∧ has_num (heap db) num f ∧ has_id (heap db) i f ∧ under db i p.

Lemma head_filter_keep {A} (P : A → Prop) `{!∀ x, Decision (P x)} (l : list A) :
  (∀ x, head l = Some x → P x) → head (filter P l) = head l.
Proof. destruct l as [|x l]; intros Hx; [done|]. rewrite filter_cons_True; [done|by apply Hx]. Qed.

Lemma lower_bound_Some db n c :
  lower_bound_num db n = Some c →
  ∃ l1 l2, by_block_num db = l1 ++ c :: l2 ∧ at_least (heap db) n c ∧
    Forall (λ x, ¬ at_least (heap db) n x) l1.
Proof.
  unfold lower_bound_num. intros ([k q] & Hf & ->)%fmap_Some.
  apply list_find_Some in Hf as (Hk & Hq & Hno). simpl.
  exists (take k (by_block_num db)), (drop (S k) (by_block_num db)).
  split; [by rewrite take_drop_middle|]. split; [done|].
  apply Forall_lookup. intros j x (Hj & Hlt)%lookup_take_Some. by eapply Hno.
Qed.

(** The second block of the index has the pruned number or is the first one above it. *)
Lemma second_is_fork_or_bound db num p l x c :
  db_wf db → by_block_num db = p :: l → has_num (heap db) num p → head l = Some x →
  lower_bound_num db (num + 1) = Some c → has_num (heap db) num x ∨ x = c.
Proof.
  intros Hwf Hl Hp Hx (l1 & l2 & Hsplit & Hc & Hno)%lower_bound_Some.
  assert (Hxin : x ∈ by_prev db) by (rewrite <-nums_indexed, Hl by done; destruct l; set_solver).
  destruct (has_num_alloc db x) as [m Hm]; [done..|].
  assert (Hle : num <= m).
  { eapply num_sorted_le; [done|exact Hl| |done|done]. by apply nums_indexed. }
  destruct (decide (m = num)) as [->|Hne]; [by left|right].
  rewrite Hl in Hsplit. destruct l1 as [|y l1]; simplify_eq/=.
  { rewrite (at_least_num _ _ _ _ Hp) in Hc. lia. }
  destruct l1 as [|z l1]; simplify_eq/=; [done|].
  exfalso. apply Forall_cons in Hno as [_ [Hz _]%Forall_cons]. apply Hz.
  rewrite (at_least_num _ _ _ _ Hm). lia.
Qed.

Lemma next_by_num_first db p l : by_block_num db = p :: l → next_by_num db p = head l.
Proof.
  intros Hl. unfold next_by_num. rewrite Hl. simpl. rewrite decide_True by done. simpl.
  by destruct l.
Qed.

(** A removal that does not reach [c] returns. *)
Lemma remove_keeping db i c :
  db_wf db → c ∈ by_prev db → ¬ under db i c →
  ∃ db', remove i db = (db', Ok tt) ∧ db_wf db' ∧ heap db' = heap db ∧
    irreversible_signals db' = irreversible_signals db ∧
    (∀ p, p ∈ by_prev db' ↔ p ∈ by_prev db ∧ ¬ under db i p) ∧
    ∃ P : ptr → Prop, ∃ D : ∀ x, Decision (P x),
      (∀ p, p ∈ by_prev db → P p ↔ ¬ under db i p) ∧ by_block_num db' = filter P (by_block_num db).
Proof.
  intros Hwf Hc Hn. pose proof (remove_wf i db Hwf) as Hwf'.
  destruct (remove_run db i Hwf) as (Q & HQ & Hrun).
  assert (Hel : ∀ p, p ∈ by_prev (without db Q) ↔ p ∈ by_prev db ∧ ¬ under db i p).
  { intros p. rewrite without_elem. split; intros [Hp Hnp]; split; try done; by rewrite ?HQ, <-?HQ in *. }
  destruct (head (by_lib_block_num (without db Q))) as [hd|] eqn:Hh.
  - rewrite Hrun in Hwf' |- *. simpl in Hwf'. eexists. split; [done|].
    split_and!; try done. exists (λ p, ¬ id_in (heap db) Q p), _. split; [|done].
    intros p Hp. by rewrite HQ.
  - exfalso. apply head_None_nil in Hh. simpl in Hh.
    apply (filter_perm_nil _ _ _ (dw_libs _ Hwf)) in Hh.
    assert (Hc' : c ∈ by_prev (without db Q)) by (by apply Hel). simpl in Hc'. rewrite Hh in Hc'.
    by apply not_elem_of_nil in Hc'.
Qed.

(** Removing one fork [p] with the pruned number leaves the other ones and what builds on them. *)
Lemma on_fork_after_remove db db2 num p i q :
  db_wf db → db_linked db → p ∈ by_prev db → has_num (heap db) num p → has_id (heap db) i p →
  heap db2 = heap db → (∀ x, x ∈ by_prev db2 ↔ x ∈ by_prev db ∧ ¬ under db i x) →
  q ∈ by_prev db2 ∧ ¬ on_fork db2 num q ↔ q ∈ by_prev db ∧ ¬ on_fork db num q.
Proof.
  intros Hwf Hlk Hp Hpn Hpi Hh2 Hin2.
  assert (Hsub : sub_db db2 db) by (split; [done|]; intros x Hx; by apply Hin2).
  rewrite Hin2. split.
  - intros [[Hq Hnu] Hnf]. split; [done|]. intros (f & j & Hf & Hfn & Hfi & Hu).
    destruct (decide (f = p)) as [->|Hne].
    { apply Hnu. by rewrite (has_id_fun _ _ _ _ Hpi Hfi). }
    apply Hnf. exists f, j. rewrite Hh2. split_and!; try done.
    + apply Hin2. split; [done|]. intros Hfu.
      destruct (under_num db i p num f num) as [?|?]; [done..|lia].
    + eapply under_disjoint; [done| |done|done]. intros x Hx Hxn. by apply Hin2.
  - intros [Hq Hnf]. split; [split; [done|]|].
    + intros Hu. apply Hnf. by exists p, i.
    + intros (f & j & Hf & Hfn & Hfi & Hu). apply Hnf. rewrite Hh2 in Hfn, Hfi.
      exists f, j. split_and!; [by apply Hin2|done|done|by eapply under_sub].
Qed.

(** The iterator that was advanced before a fork was removed is still the first block. *)
Lemma prune_iterator_kept db P `{!∀ x, Decision (P x)} num p l i c :
  db_wf db → db_linked db → by_block_num db = p :: l → has_num (heap db) num p →
  has_id (heap db) i p → lower_bound_num db (num + 1) = Some c → ¬ on_fork db num c →
  (∀ x, x ∈ by_prev db → P x ↔ ¬ under db i x) →
  head l = head (filter P (by_block_num db)).
Proof.
  intros Hwf Hlk Hl Hpn Hpi Hlb Hcf HP.
  assert (Hpin : p ∈ by_prev db) by (rewrite <-nums_indexed, Hl by done; left).
  rewrite Hl, filter_cons_False.
  2:{ rewrite HP by done. intros Hn. by apply Hn, under_self. }
  symmetry. apply head_filter_keep. intros x Hx.
  assert (Hxin : x ∈ by_prev db) by (rewrite <-nums_indexed, Hl by done; destruct l; set_solver).
  apply HP; [done|]. intros Hu.
  destruct (second_is_fork_or_bound db num p l x c) as [Hxn| ->]; try done.
  - destruct (under_num db i p num x num) as [->|?]; [done..| |lia].
    pose proof (dw_nodup db Hwf) as Hnd. rewrite <-dw_nums, Hl in Hnd by done.
    apply NoDup_cons in Hnd as [Hnp _]. destruct l; simplify_eq/=. apply Hnp. left.
  - apply Hcf. by exists p, i.
Qed.

Lemma prune_forks_run num c : ∀ fuel db,
  db_wf db → db_linked db → (length (by_block_num db) < fuel)%nat →
  (∀ p m, p ∈ by_prev db → has_num (heap db) m p → num <= m) →
  lower_bound_num db (num + 1) = Some c → ¬ on_fork db num c →
  ∃ db', prune_forks fuel num (head (by_block_num db)) db = (db', Ok tt) ∧
    db_wf db' ∧ heap db' = heap db ∧ irreversible_signals db' = irreversible_signals db ∧
    ∀ p, p ∈ by_prev db' ↔ p ∈ by_prev db ∧ ¬ on_fork db num p.
Proof.
  induction fuel as [|fuel IH]; intros db Hwf Hlk Hfuel Hmin Hlb Hcf; [lia|].
  pose proof (lower_bound_Some _ _ _ Hlb) as (l1 & l2 & Hsplit & Hcnum & _).
  assert (Hcin : c ∈ by_prev db) by (rewrite <-nums_indexed, Hsplit by done; set_solver).
  destruct (by_block_num db) as [|p l] eqn:Hl; [by destruct l1|].
  assert (Hpin : p ∈ by_prev db) by (rewrite <-nums_indexed, Hl by done; left).
  destruct (dw_alloc db Hwf p Hpin) as [s Hs].
  assert (Hpn : has_num (heap db) (bs_num s) p) by (unfold has_num; by rewrite Hs).
  assert (Hpi : has_id (heap db) (bs_id s) p) by (unfold has_id; by rewrite Hs).
  cbn [prune_forks head]. rewrite st_get_run.
  rewrite (st_bind_run _ _ db db tt).
  2:{ unfold st_assert. rewrite bool_decide_eq_true_2; [done|]. rewrite Hl. left. }
  rewrite (st_bind_run _ _ _ _ _ (deref_run _ _ _ Hs)).
  destruct (bs_num s =? num) eqn:Hnum; reflect_bools.
  - subst num. cbv zeta. rewrite (next_by_num_first _ _ _ Hl).
    destruct (remove_keeping db (bs_id s) c) as (db2 & Hrem & Hwf2 & Hh2 & Hs2 & Hin2 & P & D & HP & Hbn).
    { done. } { done. } { intros Hu. apply Hcf. by exists p, (bs_id s). }
    rewrite (st_bind_run _ _ _ _ _ Hrem).
    assert (Hsub : sub_db db2 db) by (split; [done|]; intros q Hq; by apply Hin2).
    assert (Hc2 : c ∈ by_prev db2).
    { apply Hin2. split; [done|]. intros Hu. apply Hcf. by exists p, (bs_id s). }
    assert (Hhead : head l = head (by_block_num db2)) by (rewrite Hbn; by eapply prune_iterator_kept).
    rewrite Hhead. destruct (IH db2) as (db' & Hrun & Hwf' & Hh' & Hs' & Hin'); [done|..].
    + by eapply db_linked_sub.
    + rewrite Hbn, Hl, filter_cons_False.
      2:{ rewrite HP by done. intros Hn. by apply Hn, under_self. }
      pose proof (length_filter P l). simpl in Hfuel. lia.
    + intros q m Hq Hm. apply Hin2 in Hq as [Hq _]. rewrite Hh2 in Hm. by eapply Hmin.
    + eapply lower_bound_filter; [done|done|by apply nums_indexed|by eauto].
    + intros (f & i & Hf & Hfn & Hfi & Hu). apply Hcf. rewrite Hh2 in Hfn, Hfi.
      exists f, i. split_and!; [by apply Hin2|done|done|by eapply under_sub].
    + exists db'. split_and!; [done|done|congruence|congruence|].
      intros q. rewrite Hin'. by eapply on_fork_after_remove.
  - exists db. split_and!; try done. intros q. split; [|by intros [? _]].
    intros Hq. split; [done|]. intros (f & i & Hf & Hfn & _).
    assert (bs_num s <= num); [|pose proof (Hmin p _ Hpin Hpn); lia].
    eapply num_sorted_le; [done|exact Hl| |done|done]. by apply nums_indexed.
Qed.

(** The database after the pruned block is reported irreversible and erased. *)
Definition pruned_one (db : fork_database) (h : ptr) : fork_database :=
  db_erase (emit_irreversible db h) h.

Lemma pruned_one_wf db h : db_wf db → db_wf (pruned_one db h).
Proof. intros. by apply db_erase_wf, emit_irreversible_wf. Qed.

Lemma pruned_one_elem db h p : p ∈ by_prev (pruned_one db h) ↔ p ∈ by_prev db ∧ p ≠ h.
Proof. simpl. rewrite list_elem_of_filter. split; intros []; split; congruence. Qed.

Lemma prune_older_done rec num fuel db p s :
  head (by_block_num db) = Some p → heap db !! p = Some s → num <= bs_num s →
  prune_older rec num (S fuel) db = (db, Ok tt).
Proof.
  intros Hh Hs Hn. cbn [prune_older]. rewrite st_get_run, Hh. cbv iota.
  rewrite (st_bind_run _ _ _ _ _ (deref_run _ _ _ Hs)).
  destruct (bs_num s <? num) eqn:E; reflect_bools; [lia|done].
Qed.

(** In a list whose blocks all have at least number [n], the lower bound is the first block. *)
Lemma lower_bound_first db n :
  (∀ p, p ∈ by_block_num db → at_least (heap db) n p) → lower_bound_num db n = head (by_block_num db).
Proof.
  intros Hall. unfold lower_bound_num. destruct (by_block_num db) as [|p l]; [done|].
  simpl. rewrite decide_True; [done|]. apply Hall. left.
Qed.

Lemma prune_first_run f db h s :
  db_wf db → head (by_block_num db) = Some h → heap db !! h = Some s →
  prune (S f) h db =
  prune_forks (S (length (by_block_num (pruned_one db h)))) (bs_num s)
    (head (by_block_num (pruned_one db h))) (pruned_one db h).
Proof.
  intros Hwf Hh Hs. cbn [prune].
  rewrite (st_bind_run _ _ _ _ _ (deref_run _ _ _ Hs)), st_get_run.
  rewrite (st_bind_run _ _ db db tt).
  2:{ eapply prune_older_done; [done|done|lia]. }
  destruct (by_block_num db) as [|h' l] eqn:Hl; simplify_eq/=.
  assert (Hin : h ∈ by_prev db) by (rewrite <-nums_indexed, Hl by done; left).
  assert (Hf : find_id db (bs_id s) = Some h).
  { apply find_id_Some; [done|]. split; [done|]. unfold has_id. by rewrite Hs. }
  rewrite st_get_run, Hf, st_modify_run, st_get_run. fold (pruned_one db h).
  rewrite lower_bound_first; [by simpl; rewrite Hl|].
  intros p Hp. apply nums_indexed, pruned_one_elem in Hp as [Hp _]; [|by apply pruned_one_wf].
  destruct (has_num_alloc db p) as [m Hm]; [done..|].
  apply (at_least_num _ _ _ _ Hm).
  eapply (num_sorted_le db h l p); [done|done|by apply nums_indexed| |done].
  unfold has_num. by rewrite Hs.
Qed.

Lemma prune_forks_terminates num : ∀ fuel nitr db,
  db_wf db → (length (by_block_num db) < fuel)%nat →
  (prune_forks fuel num nitr db).2 ≠ Throw out_of_fuel.
Proof.
  induction fuel as [|fuel IH]; intros nitr db Hwf Hfuel; [lia|].
  cbn [prune_forks]. destruct nitr as [p|]; [|done]. rewrite st_get_run.
  destruct (decide (p ∈ by_block_num db)) as [Hp|Hp].
  2:{ erewrite st_bind_throw; [|by unfold st_assert; rewrite bool_decide_eq_false_2 by done]. done. }
  rewrite (st_bind_run _ _ db db tt).
  2:{ unfold st_assert. by rewrite bool_decide_eq_true_2. }
  destruct (heap db !! p) as [s|] eqn:Hs; [|by rewrite (st_bind_throw _ _ _ _ _ (deref_null _ _ Hs))].
  rewrite (st_bind_run _ _ _ _ _ (deref_run _ _ _ Hs)).
  destruct (bs_num s =? num); [|done]. cbv zeta.
  pose proof (remove_wf (bs_id s) db Hwf) as Hwf'.
  destruct (remove_run db (bs_id s) Hwf) as (Q & HQ & Hrun).
  destruct (head (by_lib_block_num (without db Q))) as [hd|].
  2:{ rewrite (st_bind_throw _ _ _ _ _ Hrun). done. }
  rewrite Hrun in Hwf'. rewrite (st_bind_run _ _ _ _ _ Hrun). apply IH; [done|].
  assert (Hpin : p ∈ by_prev db) by (by apply nums_indexed). simpl.
  assert (length (filter (λ p, ¬ id_in (heap db) Q p) (by_block_num db)) <
    length (by_block_num db))%nat; [|lia].
  apply (length_filter_lt _ _ p); [done|].
  intros Hn. apply Hn, HQ; [done|]. apply under_self; [done|]. unfold has_id. by rewrite Hs.
Qed.

Lemma prune_first_terminates f db h :
  db_wf db → head (by_block_num db) = Some h → (prune (S f) h db).2 ≠ Throw out_of_fuel.
Proof.
  intros Hwf Hh.
  assert (Hin : h ∈ by_prev db).
  { rewrite <-nums_indexed by done. by apply head_Some_elem_of. }
  destruct (dw_alloc db Hwf h Hin) as [s Hs].
  rewrite (prune_first_run _ _ _ s) by done.
  apply prune_forks_terminates; [by apply pruned_one_wf|lia].
Qed.

(** The index does not grow. *)
Definition at_most (n : nat) (db : fork_database) : Prop :=
  db_wf db ∧ (length (by_block_num db) <= n)%nat.

Lemma remove_at_most n i : st_preserves (at_most n) (remove i).
Proof.
  intros db [Hwf Hn]. split; [by apply remove_wf|].
  destruct (remove_run db i Hwf) as (Q & _ & Hrun). rewrite Hrun.
  pose proof (length_filter (λ p, ¬ id_in (heap db) Q p) (by_block_num db)).
  destruct (head _); simpl; lia.
Qed.

#[local] Hint Resolve remove_at_most : chain.

Lemma prune_forks_at_most n num fuel nitr : st_preserves (at_most n) (prune_forks fuel num nitr).
Proof. revert nitr. induction fuel as [|fuel IH]; intros nitr; simpl; preserve. Qed.

Lemma prune_first_shrinks f db h :
  db_wf db → head (by_block_num db) = Some h →
  db_wf (prune (S f) h db).1 ∧
  (length (by_block_num (prune (S f) h db).1) < length (by_block_num db))%nat.
Proof.
  intros Hwf Hh. split; [by apply prune_wf|].
  pose proof (head_Some_elem_of _ _ Hh) as Hin.
  destruct (dw_alloc db Hwf h) as [s Hs]; [by rewrite <-nums_indexed|].
  rewrite (prune_first_run _ _ _ s) by done.
  assert (Hlt : (length (by_block_num (pruned_one db h)) < length (by_block_num db))%nat).
  { simpl. apply (length_filter_lt _ _ h); [done|]. tauto. }
  edestruct (prune_forks_at_most (length (by_block_num (pruned_one db h)))) as [_ Hle];
    [split; [by apply pruned_one_wf|done]|]. eapply Nat.le_lt_trans; [exact Hle|done].
Qed.

Lemma prune_older_terminates f num : ∀ fuel db,
  db_wf db → (length (by_block_num db) < fuel)%nat →
  (prune_older (prune (S f)) num fuel db).2 ≠ Throw out_of_fuel.
Proof.
  induction fuel as [|fuel IH]; intros db Hwf Hfuel; [lia|].
  cbn [prune_older]. rewrite st_get_run.
  destruct (head (by_block_num db)) as [p|] eqn:Hp; [|done].
  destruct (heap db !! p) as [s|] eqn:Hs; [|by rewrite (st_bind_throw _ _ _ _ _ (deref_null _ _ Hs))].
  rewrite (st_bind_run _ _ _ _ _ (deref_run _ _ _ Hs)).
  destruct (bs_num s <? num); [|done].
  pose proof (prune_first_terminates f db p Hwf Hp) as Hterm.
  destruct (prune_first_shrinks f db p Hwf Hp) as [Hwf' Hlt].
  destruct (prune (S f) p db) as [db' [[]|e]] eqn:Hrun.
  - rewrite (st_bind_run _ _ _ _ _ Hrun). simpl in *. apply IH; [done|lia].
  - by rewrite (st_bind_throw _ _ _ _ _ Hrun).
Qed.

Lemma prune_terminates db h : db_wf db → (prune prune_fuel h db).2 ≠ Throw out_of_fuel.
Proof.
  intros Hwf. unfold prune_fuel. remember 1%nat as f. cbn [prune].
  destruct (heap db !! h) as [s|] eqn:Hs; [|by rewrite (st_bind_throw _ _ _ _ _ (deref_null _ _ Hs))].
  rewrite (st_bind_run _ _ _ _ _ (deref_run _ _ _ Hs)), st_get_run.
  assert (Hterm : (prune_older (prune f) (bs_num s) (S (length (by_block_num db))) db).2
    ≠ Throw out_of_fuel) by (subst; apply prune_older_terminates; [done|lia]).
  assert (Hwf' : db_wf (prune_older (prune f) (bs_num s) (S (length (by_block_num db))) db).1).
  { generalize (S (length (by_block_num db))). intros k. clear Hterm Hs. revert db Hwf.
    change (st_preserves db_wf (prune_older (prune f) (bs_num s) k)).
    induction k as [|k IH]; simpl; preserve. }
  destruct (prune_older _ _ _ db) as [db1 [[]|e]] eqn:Hrun; cbn [fst snd] in *.
  2:{ by rewrite (st_bind_throw _ _ _ _ _ Hrun). }
  rewrite (st_bind_run _ _ _ _ _ Hrun), st_get_run.
  destruct (find_id db1 (bs_id s)) as [p|].
  - rewrite st_modify_run, st_get_run.
    apply prune_forks_terminates; [by apply db_erase_wf, emit_irreversible_wf|lia].
  - rewrite st_ret_run, st_get_run. apply prune_forks_terminates; [done|lia].
Qed.

(** Reads the step of [first_of] or [deref] in a successful run. *)
Lemma first_of_ok ix db db' p : first_of ix db = (db', Ok p) → db' = db ∧ head (ix db) = Some p.
Proof. unfold first_of. intros Hr. by inv_st. Qed.

Lemma deref_ok p db db' s : deref p db = (db', Ok s) → db' = db ∧ heap db !! p = Some s.
Proof. unfold deref. intros Hr. by inv_st. Qed.

Lemma insert_node_ok p db db' b :
  insert_node p db = (db', Ok b) →
  if b then db_insert db p = Some db' else db_insert db p = None ∧ db' = db.
Proof.
  unfold insert_node. intros Hr. rewrite st_get_run in Hr.
  destruct (db_insert db p) eqn:E; by inv_st.
Qed.

(** [inv_st] for code that also reads the store. *)
Ltac inv_fdb :=
  repeat (progress inv_st ||
  match goal with
  | H : deref _ _ = (_, Ok _) |- _ => apply deref_ok in H as [? ?]; subst
  | H : first_of _ _ = (_, Ok _) |- _ => apply first_of_ok in H as [? ?]; subst
  | H : get_block _ _ = (_, Ok _) |- _ => apply st_ret_ok in H as [? ?]; subst
  | H : insert_node _ _ = (_, Ok _) |- _ => apply insert_node_ok in H
  end).

(** ** The head after an insertion *)

(** The head is the first block of by_lib_block_num. *)
Definition head_first (db : fork_database) : Prop :=
  db_wf db ∧ is_Some (fork_head db) ∧ fork_head db = head (by_lib_block_num db).

(** A run that returns keeps the property. *)
Definition st_keeps {A} (I : fork_database → Prop) (m : fdb A) : Prop :=
  ∀ db db' a, I db → m db = (db', Ok a) → I db'.

Lemma remove_head_first i : st_keeps head_first (remove i).
Proof.
  intros db db' [] (Hwf & _ & _) Hr. pose proof (remove_wf i db Hwf) as Hwf'.
  destruct (remove_run db i Hwf) as (Q & _ & Hrun). rewrite Hr in Hwf', Hrun.
  destruct (head (by_lib_block_num (without db Q))) as [hd|] eqn:Hh; simplify_eq.
  split_and!; [done|by eexists|]. simpl in *. by rewrite Hh.
Qed.

Lemma prune_forks_head_first num fuel nitr : st_keeps head_first (prune_forks fuel num nitr).
Proof.
  revert nitr. induction fuel as [|fuel IH]; intros nitr db db' [] Hh Hr; cbn [prune_forks] in Hr.
  { discriminate. }
  destruct nitr as [p|]; inv_fdb; [|done].
  match goal with H : (if ?c then _ else _) _ = _ |- _ => destruct c end; inv_fdb; [|done].
  eapply IH; [|done]. by eapply remove_head_first.
Qed.

Lemma head_filter_first (P : ptr → Prop) `{!∀ x, Decision (P x)} l x :
  head l = Some x → P x → head (filter P l) = Some x.
Proof. destruct l; intros ? ?; simplify_eq/=. by rewrite filter_cons_True. Qed.

Lemma prune_first_head_first f db h s db' u :
  head_first db → head (by_block_num db) = Some h → heap db !! h = Some s →
  fork_head db ≠ Some h → prune (S f) h db = (db', Ok u) → head_first db'.
Proof.
  intros (Hwf & [hd Hhd] & Hfirst) Hh Hs Hne Hr. rewrite (prune_first_run _ _ _ s) in Hr by done.
  eapply prune_forks_head_first; [|done].
  split_and!; [by apply pruned_one_wf|by exists hd|]. simpl. rewrite Hhd in *.
  symmetry. apply head_filter_first; [done|congruence].
Qed.

(** A successful [add]: the block is inserted, the best block becomes the head, and the oldest
    block is pruned when it is below the head's irreversible number. *)
Lemma add_block_state_inv n skip db db' p :
  add_block_state (Some n) skip db = (db', Ok p) →
  p = n ∧ is_Some (fork_head db) ∧
  ∃ s db1 hd h oldest o u,
    heap db !! n = Some s ∧ db_insert db n = Some db1 ∧
    head (by_lib_block_num db1) = Some hd ∧ heap db1 !! hd = Some h ∧
    head (by_block_num db1) = Some oldest ∧ heap db1 !! oldest = Some o ∧
    (if bs_num o <? bs_lib h then prune prune_fuel oldest else mret tt)
      (set_head db1 (Some hd)) = (db', Ok u).
Proof.
  intros Hr. unfold add_block_state in Hr. inv_fdb.
  match goal with H : Some n = Some _ |- _ => injection H as <- end.
  match goal with H : (if skip then _ else _) _ = (?s, _) |- _ => assert (s = db) as -> end.
  { destruct skip; by inv_fdb. }
  split; [done|]. split; [by eexists|]. eauto 20.
Qed.

Lemma db_insert_inv db p db' :
  db_insert db p = Some db' →
  ∃ s, heap db !! p = Some s ∧ find_id db (bs_id s) = None ∧ heap db' = heap db ∧
    by_prev db' = by_prev db ++ [p].
Proof.
  unfold db_insert. destruct (heap db !! p) as [s|] eqn:Hs; simpl; [|done].
  destruct (find_id db (bs_id s)) eqn:Hf; [done|]. intros. simplify_eq. by exists s.
Qed.

(** ** Propagation of BFT irreversibility *)

Definition bft_low (db : fork_database) (num : Z) (p : ptr) : Prop :=
  ∃ s, heap db !! p = Some s ∧ bs_bft s < num.

(** The blocks that [set_bft_irreversible] raises to [num]: the blocks below [num] that are
    reached from [i] through such blocks. *)
Inductive bft_reach (db : fork_database) (i : digest) (num : Z) : ptr → Prop :=
| bft_reach_child p : p ∈ children db i → bft_low db num p → bft_reach db i num p
| bft_reach_step q j p :
    bft_reach db i num q → has_id (heap db) j q → p ∈ children db j → bft_low db num p →
    bft_reach db i num p.

(** [db] is [db1] with the blocks of [U] raised to [num]. *)
Record raised (db1 : fork_database) (num : Z) (U : list ptr) (db : fork_database) : Prop := {
  ra_heap : ∀ p, heap db !! p =
    (if decide (p ∈ U) then (λ s, set_bft s num) <$> heap db1 !! p else heap db1 !! p);
  ra_prev : by_prev db = by_prev db1;
  ra_head : fork_head db = fork_head db1;
  ra_signals : irreversible_signals db = irreversible_signals db1;
  ra_nodup : NoDup U;
  ra_in : ∀ p, p ∈ U → p ∈ by_prev db1 ∧ bft_low db1 num p;
}.

Lemma raised_nil db num : raised db num [] db.
Proof. split; try done; [constructor|by intros p ?%not_elem_of_nil]. Qed.

Lemma raised_children db1 num U db i : raised db1 num U db → children db i = children db1 i.
Proof.
  intros Hr. unfold children. rewrite (ra_prev _ _ _ _ Hr). apply list_filter_iff.
  intros p. unfold has_prev. rewrite (ra_heap _ _ _ _ Hr). case_decide; [|done].
  by destruct (heap db1 !! p).
Qed.

Lemma raised_length db1 num U db :
  raised db1 num U db → (length U <= length (by_prev db1))%nat.
Proof.
  intros Hr. apply submseteq_length, NoDup_submseteq; [apply Hr|]. intros p Hp. by apply Hr.
Qed.

Lemma raised_step db1 num U db p :
  raised db1 num U db → p ∈ by_prev db1 → bft_low db1 num p → p ∉ U →
  raised db1 num (U ++ [p]) (db_modify db p (λ s, set_bft s num)).
Proof.
  intros Hr Hp Hl HpU. split; simpl; [|apply Hr..| |].
  - intros q. destruct (decide (q = p)) as [->|Hne].
    + rewrite lookup_alter_eq, (ra_heap _ _ _ _ Hr), decide_False by done.
      rewrite decide_True; [done|set_solver].
    + rewrite lookup_alter_ne, (ra_heap _ _ _ _ Hr) by done.
      destruct (decide (q ∈ U)); [rewrite decide_True by set_solver; done|].
      rewrite decide_False; [done|set_solver].
  - apply NoDup_app. split; [apply Hr|]. split; [|apply NoDup_singleton]. set_solver.
  - intros q [Hq| ->%list_elem_of_singleton]%elem_of_app; [by apply Hr|done].
Qed.

(** What a traversal that meets the blocks [ps] does: it raises the low ones among them. *)
Definition raises (db1 : fork_database) (num : Z) (U : list ptr) (ps : ptr → Prop)
    (up : list digest) (r : fork_database * result (list digest)) : Prop :=
  ∃ N db', r = (db', Ok (up ++ ids_of db1 N)) ∧ raised db1 num (U ++ N) db' ∧
    (∀ p, p ∈ N → ps p) ∧ (∀ p, ps p → bft_low db1 num p → p ∈ U ++ N).

Lemma ids_of_app db l k : ids_of db (l ++ k) = ids_of db l ++ ids_of db k.
Proof. apply omap_app. Qed.

Lemma bft_update_one_run db1 num U db up p :
  db_wf db1 → raised db1 num U db → p ∈ by_prev db1 →
  raises db1 num U (p =.) up (bft_update_one num up p db).
Proof.
  intros Hwf Hr Hp. destruct (dw_alloc _ Hwf p Hp) as [s Hs]. unfold bft_update_one.
  destruct (decide (p ∈ U)) as [HpU|HpU].
  - rewrite (st_bind_run _ _ db db (set_bft s num)).
    2:{ apply deref_run. by rewrite (ra_heap _ _ _ _ Hr), decide_True, Hs. }
    change (bs_bft (set_bft s num)) with num. rewrite Z.ltb_irrefl. exists [], db.
    rewrite !app_nil_r. split_and!; try done; [by intros q ?%not_elem_of_nil|by intros q <- _].
  - assert (Hs' : heap db !! p = Some s) by (by rewrite (ra_heap _ _ _ _ Hr), decide_False).
    rewrite (st_bind_run _ _ _ _ _ (deref_run _ _ _ Hs')).
    destruct (bs_bft s <? num) eqn:Hlow; reflect_bools.
    + exists [p], (db_modify db p (λ s, set_bft s num)). rewrite st_modify_run. split_and!.
      * unfold ids_of. simpl. by rewrite Hs.
      * apply raised_step; try done. by exists s.
      * by intros q ->%list_elem_of_singleton.
      * intros q <- _. set_solver.
    + exists [], db. rewrite !app_nil_r. split_and!; try done; [by intros q ?%not_elem_of_nil|].
      intros q <- (s' & Hq & Hq'). simplify_eq. lia.
Qed.

Lemma raises_bind db1 num U (ps qs : ptr → Prop) up (m : fdb (list digest))
    (f : list digest → fdb (list digest)) db :
  raises db1 num U ps up (m db) →
  (∀ N db', raised db1 num (U ++ N) db' →
     raises db1 num (U ++ N) qs (up ++ ids_of db1 N) (f (up ++ ids_of db1 N) db')) →
  raises db1 num U (λ p, ps p ∨ qs p) up ((m ≫= f) db).
Proof.
  intros (N & db' & Hm & Hr & HN & Hall) Hf. rewrite (st_bind_run _ _ _ _ _ Hm).
  destruct (Hf N db' Hr) as (N' & db'' & -> & Hr' & HN' & Hall').
  exists (N ++ N'), db''. rewrite ids_of_app, !app_assoc. split_and!; [done|done|..].
  - intros p [Hp|Hp]%elem_of_app; [left; by apply HN|right; by apply HN'].
  - intros p [Hp|Hp] Hl; [|by apply Hall']. apply elem_of_app. left. by apply Hall.
Qed.

Lemma raises_iff db1 num U (ps qs : ptr → Prop) up r :
  (∀ p, ps p ↔ qs p) → raises db1 num U ps up r → raises db1 num U qs up r.
Proof.
  intros Hiff (N & db' & Hm & Hr & HN & Hall). exists N, db'. split_and!; [done|done|..].
  - intros p Hp. by apply Hiff, HN.
  - intros p Hp. by apply Hall, Hiff.
Qed.

Lemma raises_none db1 num U db up :
  raised db1 num U db → raises db1 num U (λ _, False) up (db, Ok up).
Proof.
  intros Hr. exists [], db. rewrite !app_nil_r. split_and!; try done. by intros p ?%not_elem_of_nil.
Qed.

Lemma bft_update_children_run db1 num ps : ∀ U db up,
  db_wf db1 → raised db1 num U db → (∀ p, p ∈ ps → p ∈ by_prev db1) →
  raises db1 num U (λ p, p ∈ ps) up (bft_update_children num up ps db).
Proof.
  induction ps as [|p ps IH]; intros U db up Hwf Hr Hin.
  - eapply raises_iff; [|by apply raises_none]. set_solver.
  - eapply (raises_iff _ _ _ (λ q, p = q ∨ q ∈ ps)); [set_solver|].
    cbn [bft_update_children]. apply raises_bind.
    + apply bft_update_one_run; [done..|]. apply Hin. left.
    + intros N db' Hr'. apply IH; [done..|]. intros q Hq. apply Hin. by right.
Qed.

Lemma children_indexed db i p : p ∈ children db i → p ∈ by_prev db.
Proof. by intros [_ ?]%list_elem_of_filter. Qed.

Lemma bft_update_run db1 num layer : ∀ U db up,
  db_wf db1 → raised db1 num U db →
  raises db1 num U (λ p, ∃ i, i ∈ layer ∧ p ∈ children db1 i) up (bft_update num up layer db).
Proof.
  induction layer as [|i layer IH]; intros U db up Hwf Hr.
  - eapply raises_iff; [|by apply raises_none]. set_solver.
  - eapply (raises_iff _ _ _ (λ q, q ∈ children db1 i ∨ ∃ i, i ∈ layer ∧ q ∈ children db1 i)).
    { set_solver. }
    cbn [bft_update]. rewrite st_get_run, (raised_children _ _ _ _ _ Hr). apply raises_bind.
    + apply bft_update_children_run; [done..|]. apply children_indexed.
    + intros N db' Hr'. by apply IH.
Qed.

(** The ids whose children the traversal from [i] has to look at, once [U] is raised. *)
Definition bft_source (db1 : fork_database) (i : digest) (U : list ptr) (j : digest) : Prop :=
  j = i ∨ ∃ q, q ∈ U ∧ has_id (heap db1) j q.

(** What the layers keep true: the queue comes from raised blocks, and the children of every
    raised block that is not in the queue are settled. *)
Record bft_inv (db1 : fork_database) (i : digest) (num : Z) (U : list ptr) (queue : list digest)
    : Prop := {
  bi_sound : ∀ p, p ∈ U → bft_reach db1 i num p;
  bi_queue : ∀ j, j ∈ queue → bft_source db1 i U j;
  bi_closed : ∀ j p, bft_source db1 i U j → p ∈ children db1 j → bft_low db1 num p →
    j ∈ queue ∨ p ∈ U;
}.

Lemma bft_inv_layer db1 i num U queue N :
  bft_inv db1 i num U queue →
  (∀ p, p ∈ N → bft_low db1 num p) →
  (∀ p, p ∈ N → ∃ j, j ∈ queue ∧ p ∈ children db1 j) →
  (∀ p, (∃ j, j ∈ queue ∧ p ∈ children db1 j) → bft_low db1 num p → p ∈ U ++ N) →
  bft_inv db1 i num (U ++ N) (ids_of db1 N).
Proof.
  intros Hi Hlow HN Hall. split.
  - intros p [Hp|Hp]%elem_of_app; [by eapply bi_sound|].
    destruct (HN p Hp) as (j & Hj & Hpj).
    destruct (bi_queue _ _ _ _ _ Hi j Hj) as [->|(q & Hq & Hqj)].
    + apply bft_reach_child; [done|by apply Hlow].
    + eapply bft_reach_step; [by eapply bi_sound|done|done|by apply Hlow].
  - intros j (p & Hp & Hpj)%ids_of_elem. right. exists p. split; [set_solver|done].
  - intros j p Hj Hpj Hl. destruct Hj as [->|(q & [Hq|Hq]%elem_of_app & Hqj)].
    + destruct (bi_closed _ _ _ _ _ Hi i p) as [Hin|Hin]; [by left|done|done|..].
      * right. apply Hall; [by eauto|done].
      * right. set_solver.
    + destruct (bi_closed _ _ _ _ _ Hi j p) as [Hin|Hin]; [right; by eauto|done|done|..].
      * right. apply Hall; [by eauto|done].
      * right. set_solver.
    + left. apply ids_of_elem. by exists q.
Qed.

Lemma bft_inv_final db1 i num U p :
  bft_inv db1 i num U [] → p ∈ U ↔ bft_reach db1 i num p.
Proof.
  intros Hi. split; [apply Hi|].
  induction 1 as [p Hp Hl|q j p Hq IH Hj Hp Hl].
  - destruct (bi_closed _ _ _ _ _ Hi i p) as [?%not_elem_of_nil|?]; try done. by left.
  - destruct (bi_closed _ _ _ _ _ Hi j p) as [?%not_elem_of_nil|?]; try done. right. by eauto.
Qed.

Lemma bft_while_run db1 i num : db_wf db1 → ∀ fuel U queue db,
  raised db1 num U db → bft_inv db1 i num U queue →
  (length (by_prev db1) + (if decide (queue = []) then 1 else 2) <= fuel + length U)%nat →
  ∃ U' db', bft_while fuel num queue db = (db', Ok tt) ∧ raised db1 num U' db' ∧
    ∀ p, p ∈ U' ↔ bft_reach db1 i num p.
Proof.
  intros Hwf. induction fuel as [|fuel IH]; intros U queue db Hr Hi Hfuel.
  { pose proof (raised_length _ _ _ _ Hr). case_decide; lia. }
  cbn [bft_while]. destruct queue as [|x queue].
  - exists U, db. split_and!; [done|done|]. intros p. by apply bft_inv_final.
  - destruct (bft_update_run db1 num (x :: queue) U db [] Hwf Hr)
      as (N & db' & Hrun & Hr' & HN & Hall).
    rewrite (st_bind_run _ _ _ _ _ Hrun). simpl. apply (IH (U ++ N)); [done|..].
    + eapply bft_inv_layer; [done| |done|done].
      intros p Hp. apply (ra_in _ _ _ _ Hr'). set_solver.
    + rewrite length_app. rewrite decide_False in Hfuel by done.
      destruct (decide (ids_of db1 N = [])) as [|Hne]; [lia|].
      destruct N; [done|]. simpl. lia.
Qed.

(** The database after the block itself is marked. *)
Definition bft_marked (db : fork_database) (itr : ptr) : fork_database :=
  db_modify db itr (λ s, set_bft s (bs_num s)).

Lemma set_bft_irreversible_run db i itr s :
  db_wf db → find_id db i = Some itr → heap db !! itr = Some s →
  ∃ U db', set_bft_irreversible i db = (db', Ok tt) ∧
    raised (bft_marked db itr) (bs_num s) U db' ∧
    ∀ p, p ∈ U ↔ bft_reach (bft_marked db itr) i (bs_num s) p.
Proof.
  intros Hwf Hf Hs. unfold set_bft_irreversible. rewrite st_get_run, Hf.
  cbn [of_option]. rewrite st_lift_run, (st_bind_run _ _ _ _ _ (deref_run _ _ _ Hs)), st_modify_run.
  fold (bft_marked db itr). apply (bft_while_run _ i) with (U := []).
  - by apply db_modify_wf.
  - apply raised_nil.
  - split.
    + by intros p ?%not_elem_of_nil.
    + intros j ->%list_elem_of_singleton. by left.
    + intros j p [->|(q & ?%not_elem_of_nil & _)] _ _; [left; set_solver|done].
  - simpl. lia.
Qed.

(** BFT irreversibility never decreases from a block to the blocks that build on it. *)
Definition bft_monotone (db : fork_database) : Prop :=
  ∀ p q s t, p ∈ by_prev db → q ∈ by_prev db → heap db !! p = Some s → heap db !! q = Some t →
    bs_prev s = bs_id t → bs_bft t <= bs_bft s.

(** The blocks that build on the block with id [i]. *)
Inductive above (db : fork_database) (i : digest) : ptr → Prop :=
| above_child p : p ∈ by_prev db → has_prev (heap db) i p → above db i p
| above_step q j p :
    above db i q → has_id (heap db) j q → p ∈ by_prev db → has_prev (heap db) j p → above db i p.

Lemma above_indexed db i p : above db i p → p ∈ by_prev db.
Proof. by destruct 1. Qed.

Lemma marked_key {B} (k : block_state → B) db itr p :
  (∀ s n, k (set_bft s n) = k s) → k <$> heap (bft_marked db itr) !! p = k <$> heap db !! p.
Proof. intros Hk. simpl. apply alter_key. intros s. apply Hk. Qed.

Lemma marked_lookup db itr p s :
  heap db !! p = Some s →
  heap (bft_marked db itr) !! p = Some (if decide (p = itr) then set_bft s (bs_num s) else s).
Proof.
  intros Hs. simpl. destruct (decide (p = itr)) as [->|].
  - by rewrite lookup_alter_eq, Hs.
  - by rewrite lookup_alter_ne.
Qed.

Lemma marked_children db itr i : children (bft_marked db itr) i = children db i.
Proof.
  unfold children. apply list_filter_iff. intros p. unfold has_prev. by rewrite marked_key.
Qed.

(** A raised block builds on [i]. *)
Lemma bft_reach_above db itr i num p :
  bft_reach (bft_marked db itr) i num p → above db i p.
Proof.
  induction 1 as [p Hp _|q j p Hq IH Hj Hp _]; rewrite marked_children in Hp;
    apply list_elem_of_filter in Hp as [Hpr Hp].
  - by apply above_child.
  - eapply above_step; [done| |done|done]. unfold has_id in *. by rewrite marked_key in Hj.
Qed.

Lemma bft_reach_low db i num p : bft_reach db i num p → bft_low db num p.
Proof. by destruct 1. Qed.

(** A block that builds on [i] is raised, or is at [num] already. *)
Lemma above_raised db itr i s p :
  db_wf db → bft_monotone db → itr ∈ by_prev db → has_id (heap db) i itr → heap db !! itr = Some s →
  above db i p →
  bft_reach (bft_marked db itr) i (bs_num s) p ∨
  ∃ t, heap (bft_marked db itr) !! p = Some t ∧ bs_num s <= bs_bft t.
Proof.
  intros Hwf Hmono Hitr Hid Hs.
  assert (Hsplit : ∀ p, p ∈ by_prev db →
    bft_low (bft_marked db itr) (bs_num s) p ∨
    ∃ t, heap (bft_marked db itr) !! p = Some t ∧ bs_num s <= bs_bft t).
  { intros q [t Ht]%dw_alloc; [|done]. apply (marked_lookup _ itr) in Ht.
    destruct (decide (bs_bft (if decide (q = itr) then set_bft t (bs_num t) else t) < bs_num s)).
    - left. by eexists.
    - right. eexists. split; [done|lia]. }
  induction 1 as [p Hp Hpr|q j p Hq IH Hj Hp Hpr].
  { destruct (Hsplit p Hp) as [Hl|Hge]; [left|by right].
    apply bft_reach_child; [|done]. rewrite marked_children. by apply list_elem_of_filter. }
  destruct (Hsplit p Hp) as [Hl|Hge]; [left|by right].
  destruct (decide (q = itr)) as [->|Hne].
  { apply bft_reach_child; [|done]. rewrite marked_children. apply list_elem_of_filter.
    by rewrite (has_id_fun _ _ _ _ Hid Hj). }
  destruct IH as [Hr|(t & Ht & Hge)].
  - eapply bft_reach_step; [done| | |done].
    + unfold has_id. by rewrite marked_key.
    + rewrite marked_children. by apply list_elem_of_filter.
  - exfalso. pose proof (above_indexed _ _ _ Hq) as Hqin.
    destruct (dw_alloc _ Hwf q Hqin) as [tq Htq]. destruct (dw_alloc _ Hwf p Hp) as [tp Htp].
    rewrite (marked_lookup _ itr q tq), decide_False in Ht by done. simplify_eq.
    destruct Hl as (t' & Ht' & Hlt). rewrite (marked_lookup _ itr p tp) in Ht' by done. simplify_eq.
    destruct (decide (p = itr)) as [->|]; [simplify_eq; by apply Z.lt_irrefl in Hlt|].
    assert (bs_bft t <= bs_bft tp); [|lia].
    eapply (Hmono p q); try done. unfold has_prev, has_id in *.
    rewrite Htp in Hpr. rewrite Htq in Hj. simpl in *. congruence.
Qed.

(** ** Branches *)

(** The indexed block that a block builds on, and the blocks reached by going [n] links back. *)
Definition parent (db : fork_database) (p : ptr) : option ptr :=
  s ← heap db !! p; find_id db (bs_prev s).

Fixpoint ancestor (db : fork_database) (n : nat) (p : ptr) : option ptr :=
  match n with
  | O => Some p
  | S n => q ← parent db p; ancestor db n q
  end.

(** The first [n] blocks on the way back from [p]. *)
Fixpoint path (db : fork_database) (n : nat) (p : ptr) : list ptr :=
  match n with
  | O => []
  | S n => p :: match parent db p with Some q => path db n q | None => [] end
  end.

Lemma parent_num db p q n :
  db_wf db → db_linked db → p ∈ by_prev db → has_num (heap db) n p → parent db p = Some q →
  q ∈ by_prev db ∧ has_num (heap db) (n - 1) q.
Proof.
  intros Hwf Hl Hp (s & Hs & ->)%fmap_Some Hq. unfold parent in Hq. rewrite Hs in Hq. simpl in Hq.
  apply find_id_Some in Hq as [Hq Hid]; [|done]. split; [done|].
  apply fmap_Some in Hid as (t & Ht & Hid). unfold has_num. rewrite Ht. simpl. f_equal.
  rewrite (Hl p q s t) by done. lia.
Qed.

Lemma ancestor_num db n p q m :
  db_wf db → db_linked db → p ∈ by_prev db → has_num (heap db) m p → ancestor db n p = Some q →
  q ∈ by_prev db ∧ has_num (heap db) (m - Z.of_nat n) q.
Proof.
  intros Hwf Hl. revert p m. induction n as [|n IH]; intros p m Hp Hm Hq; simpl in Hq.
  - simplify_eq. split; [done|]. by rewrite Z.sub_0_r.
  - destruct (parent db p) as [r|] eqn:Hr; [|done]. simpl in Hq.
    destruct (parent_num _ _ _ _ Hwf Hl Hp Hm Hr) as [Hrin Hrn].
    replace (m - Z.of_nat (S n)) with (m - 1 - Z.of_nat n) by lia. by apply (IH r).
Qed.

Lemma ancestor_add db n k p :
  ancestor db (n + k) p = q ← ancestor db n p; ancestor db k q.
Proof.
  revert p. induction n as [|n IH]; intros p; [done|]. simpl.
  destruct (parent db p); [apply IH|done].
Qed.

Lemma path_add db n k p q :
  ancestor db n p = Some q → path db (n + k) p = path db n p ++ path db k q.
Proof.
  revert p. induction n as [|n IH]; intros p Hq; simpl in *; [by simplify_eq|].
  destruct (parent db p) as [r|]; [|done]. simpl in *. by rewrite (IH r).
Qed.

Lemma path_elem db n p x :
  x ∈ path db n p → ∃ k, (k < n)%nat ∧ ancestor db k p = Some x.
Proof.
  revert p. induction n as [|n IH]; intros p; simpl; [by intros ?%not_elem_of_nil|].
  intros [->|Hx]%elem_of_cons; [exists 0%nat; split; [lia|done]|].
  destruct (parent db p) as [r|] eqn:Hr; [|by apply not_elem_of_nil in Hx].
  destruct (IH r Hx) as (k & Hk & Hkx). exists (S k). split; [lia|]. simpl. by rewrite Hr.
Qed.

Lemma path_facts db n p q m :
  db_wf db → db_linked db → p ∈ by_prev db → has_num (heap db) m p → ancestor db n p = Some q →
  length (path db (S n) p) = S n ∧ NoDup (path db (S n) p) ∧
  ∀ x, x ∈ path db (S n) p → x ∈ by_prev db.
Proof.
  intros Hwf Hl. revert p m. induction n as [|n IH]; intros p m Hp Hm Hq.
  - simpl. destruct (parent db p); split_and!; try done; try apply NoDup_singleton; set_solver.
  - pose proof (path_elem db (S n)) as Hel. cbn [path ancestor] in *.
    destruct (parent db p) as [r|] eqn:Hr; [|done]. simpl in Hq.
    destruct (parent_num _ _ _ _ Hwf Hl Hp Hm Hr) as [Hrin Hrn].
    destruct (IH r (m - 1)) as (Hlen & Hnd & Hin); try done.
    split_and!; [simpl in *; lia|..].
    + apply NoDup_cons. split; [|done]. intros Hx. apply Hel in Hx as (k & _ & Hk).
      destruct (ancestor_num db k r p (m - 1)) as [_ Hpn]; try done.
      unfold has_num in *. rewrite Hm in Hpn. simplify_eq. lia.
    + intros x [->|Hx]%elem_of_cons; [done|by apply Hin].
Qed.

Lemma ancestor_bound db n p q :
  db_wf db → db_linked db → p ∈ by_prev db → ancestor db n p = Some q →
  (n < length (by_prev db))%nat.
Proof.
  intros Hwf Hl Hp Hq. destruct (has_num_alloc db p) as [m Hm]; [done..|].
  destruct (path_facts db n p q m) as (Hlen & Hnd & Hin); try done.
  assert (Hsub : path db (S n) p ⊆+ by_prev db) by (by apply NoDup_submseteq).
  apply submseteq_length in Hsub. lia.
Qed.

Lemma parent_run db p s q :
  heap db !! p = Some s → parent db p = Some q → get_block (bs_prev s) db = (db, Ok (Some q)).
Proof. intros Hs Hq. rewrite get_block_run. unfold parent in Hq. by rewrite Hs in Hq; simpl in Hq; rewrite Hq. Qed.

Lemma fetch_down_run db bound : db_wf db → db_linked db → ∀ d fuel p q acc m,
  p ∈ by_prev db → has_num (heap db) m p → ancestor db d p = Some q →
  (d < fuel)%nat → (d = 0%nat ∧ m <= bound ∨ m = bound + Z.of_nat d) →
  fetch_down fuel bound p acc db = (db, Ok (q, acc ++ path db d p)).
Proof.
  intros Hwf Hl. induction d as [|d IH]; intros fuel p q acc m Hp Hm Hq Hfuel Hd;
    (destruct fuel as [|fuel]; [lia|]); cbn [fetch_down];
    pose proof Hm as (s & Hs & ->)%fmap_Some; rewrite (st_bind_run _ _ _ _ _ (deref_run _ _ _ Hs)).
  - destruct (bound <? bs_num s) eqn:E; reflect_bools; [lia|]. simpl in Hq. simplify_eq.
    by rewrite app_nil_r.
  - destruct (bound <? bs_num s) eqn:E; reflect_bools; [|lia].
    cbn [ancestor] in Hq. destruct (parent db p) as [r|] eqn:Hr; [|done]. simpl in Hq.
    destruct (parent_num _ _ _ _ Hwf Hl Hp Hm Hr) as [Hrin Hrn].
    rewrite (st_bind_run _ _ _ _ _ (parent_run _ _ _ _ Hs Hr)). cbn [of_option]. rewrite st_lift_run.
    rewrite (IH fuel r q (acc ++ [p]) (bs_num s - 1)); try done; [|lia|lia].
    cbn [path]. by rewrite Hr, <-app_assoc.
Qed.

(** Two blocks build on the same id. *)
Definition same_prev (db : fork_database) (p q : ptr) : Prop :=
  bs_prev <$> heap db !! p = bs_prev <$> heap db !! q.

Lemma fetch_both_run db : db_wf db → ∀ m fuel p q a b accp accq,
  p ∈ by_prev db → q ∈ by_prev db →
  ancestor db m p = Some a → ancestor db m q = Some b → same_prev db a b → (m < fuel)%nat →
  ∃ j a' b', (j <= m)%nat ∧ ancestor db j p = Some a' ∧ ancestor db j q = Some b' ∧
    same_prev db a' b' ∧
    (∀ i x y, (i < j)%nat → ancestor db i p = Some x → ancestor db i q = Some y → ¬ same_prev db x y) ∧
    fetch_both fuel p q accp accq db =
      (db, Ok (accp ++ path db (S j) p, accq ++ path db (S j) q)).
Proof.
  intros Hwf. induction m as [|m IH]; intros fuel p q a b accp accq Hp Hq Ha Hb Hab Hfuel;
    (destruct fuel as [|fuel]; [lia|]);
    destruct (dw_alloc _ Hwf p Hp) as [s Hs], (dw_alloc _ Hwf q Hq) as [t Ht].
  - simpl in Ha, Hb. simplify_eq. exists 0%nat, a, b. split_and!; [lia|done|done|done|intros i ? ? Hi; lia|].
    cbn [fetch_both]. rewrite (st_bind_run _ _ _ _ _ (deref_run _ _ _ Hs)),
      (st_bind_run _ _ _ _ _ (deref_run _ _ _ Ht)).
    unfold same_prev in Hab. rewrite Hs, Ht in Hab. simplify_eq/=.
    rewrite bool_decide_eq_true_2 by done. cbn [path].
    by destruct (parent db a), (parent db b).
  - cbn [fetch_both]. rewrite (st_bind_run _ _ _ _ _ (deref_run _ _ _ Hs)),
      (st_bind_run _ _ _ _ _ (deref_run _ _ _ Ht)).
    destruct (decide (bs_prev s = bs_prev t)) as [He|He].
    + rewrite bool_decide_eq_true_2 by done. exists 0%nat, p, q.
      split_and!; [lia|done|done| |intros i ? ? Hi; lia|].
      { unfold same_prev. rewrite Hs, Ht. simpl. by rewrite He. }
      cbn [path]. by destruct (parent db p), (parent db q).
    + rewrite bool_decide_eq_false_2 by done. cbn [ancestor] in Ha, Hb.
      destruct (parent db p) as [p'|] eqn:Hpp; [|done]. destruct (parent db q) as [q'|] eqn:Hqp; [|done].
      simpl in Ha, Hb.
      rewrite (st_bind_run _ _ _ _ _ (parent_run _ _ _ _ Hs Hpp)),
        (st_bind_run _ _ _ _ _ (parent_run _ _ _ _ Ht Hqp)). cbn [of_option]. rewrite !st_lift_run.
      assert (Hp' : p' ∈ by_prev db).
      { unfold parent in Hpp. rewrite Hs in Hpp. by apply find_id_Some_1 in Hpp as [? _]. }
      assert (Hq' : q' ∈ by_prev db).
      { unfold parent in Hqp. rewrite Ht in Hqp. by apply find_id_Some_1 in Hqp as [? _]. }
      destruct (IH fuel p' q' a b (accp ++ [p]) (accq ++ [q])) as (j & a' & b' & Hj & Ha' & Hb' & Hs' & Hmin & Hrun);
        try done; [lia|].
      exists (S j), a', b'. cbn [ancestor]. rewrite Hpp, Hqp. split_and!; [lia|done|done|done|..].
      * intros [|k] x y Hi Hx Hy; simpl in Hx, Hy.
        { simplify_eq. unfold same_prev. rewrite Hs, Ht. simpl. congruence. }
        rewrite Hpp in Hx. rewrite Hqp in Hy. simpl in Hx, Hy. apply (Hmin k); [lia|done|done].
      * rewrite Hrun. rewrite <-!app_assoc. cbn [path]. by rewrite Hpp, Hqp.
Qed.

(** ** Saving and loading *)

Definition head_alloc (db : fork_database) : Prop :=
  ∀ h, fork_head db = Some h → is_Some (heap db !! h).

Definition id_matches (s : block_state) : Prop := bs_id s = header_id (hdr (header (bhs s))).

Lemma set_run db p s :
  db_wf db → head_alloc db → heap db !! p = Some s → id_matches s → find_id db (bs_id s) = None →
  ∃ db', set p db = (db', Ok tt) ∧ db_wf db' ∧ head_alloc db' ∧ heap db' = heap db ∧
    next_ptr db' = next_ptr db ∧ by_prev db' = by_prev db ++ [p].
Proof.
  intros Hwf Hha Hs Hid Hf. pose proof (set_wf p db Hwf) as Hwf'.
  assert (Hins : ∃ db1, db_insert db p = Some db1 ∧ heap db1 = heap db ∧ next_ptr db1 = next_ptr db ∧
    by_prev db1 = by_prev db ++ [p] ∧ fork_head db1 = fork_head db).
  { unfold db_insert. rewrite Hs. simpl. rewrite Hf. by eexists. }
  destruct Hins as (db1 & Hins & Hh1 & Hn1 & Hp1 & Hd1).
  assert (Hrun : ∃ hd, set p db = (set_head db1 (Some hd), Ok tt) ∧ is_Some (heap db !! hd) ∨
    set p db = (db1, Ok tt) ∧ fork_head db = Some hd ∧ is_Some (heap db !! hd)).
  { unfold set. rewrite (st_bind_run _ _ _ _ _ (deref_run _ _ _ Hs)).
    rewrite (st_bind_run _ _ db db1 true) by (unfold insert_node; by rewrite st_get_run, Hins).
    rewrite bool_decide_eq_true_2 by done.
    rewrite !(st_bind_run _ _ db1 db1 tt), st_get_run, Hd1 by done.
    destruct (fork_head db) as [h|] eqn:Hhd.
    - destruct (Hha h Hhd) as [sh Hsh]. rewrite (st_bind_run _ _ _ _ sh) by (apply deref_run; congruence).
      destruct (bs_num sh <? bs_num s); [exists p; left|exists h; right]; by eauto.
    - exists p. left. by eauto. }
  destruct Hrun as (hd & [[Hrun Hhd]|(Hrun & Hhd & Hal)]); rewrite Hrun in Hwf' |- *;
    eexists; (split; [done|]); split_and!; try done.
  - intros h [= <-]. simpl. by rewrite Hh1.
  - intros h Hh. rewrite Hd1, Hhd in Hh. simplify_eq. by rewrite Hh1.
Qed.

Lemma make_shared_run db s :
  db_wf db → head_alloc db →
  ∃ db', make_shared s db = (db', Ok (next_ptr db)) ∧ db_wf db' ∧ head_alloc db' ∧
    heap db' = <[next_ptr db := s]> (heap db) ∧ next_ptr db' = S (next_ptr db) ∧
    by_prev db' = by_prev db.
Proof.
  intros Hwf Hha. pose proof (make_shared_wf s db Hwf) as Hwf'. eexists. split; [done|].
  split_and!; try done. intros h Hh%Hha. simpl. destruct Hh as [t Ht].
  destruct (decide (next_ptr db = h)) as [<-|]; [by rewrite lookup_insert_eq|].
  rewrite lookup_insert_ne by done. by eexists.
Qed.

(** Loading adds each block of the file under its id, and keeps the ones before. *)
Lemma open_blocks_run blocks : ∀ db,
  db_wf db → head_alloc db → Forall id_matches blocks →
  NoDup ((bs_id <$> blocks) ++ ids_of db (by_prev db)) →
  ∃ db', open_blocks blocks db = (db', Ok tt) ∧ db_wf db' ∧
    ∀ s, (∃ p, p ∈ by_prev db' ∧ heap db' !! p = Some s) ↔
      s ∈ blocks ∨ ∃ p, p ∈ by_prev db ∧ heap db !! p = Some s.
Proof.
  induction blocks as [|s blocks IH]; intros db Hwf Hha Hids Hnd.
  { exists db. split_and!; [done|done|]. intros s. set_solver. }
  apply Forall_cons in Hids as [Hid Hids]. simpl in Hnd. apply NoDup_cons in Hnd as [Hnew Hnd].
  destruct (make_shared_run db s Hwf Hha) as (db1 & Hmk & Hwf1 & Hha1 & Hh1 & _ & Hp1).
  assert (Hold : ∀ p, p ∈ by_prev db → heap db1 !! p = heap db !! p).
  { intros p Hp. rewrite Hh1, lookup_insert_ne; [done|].
    apply dw_alloc in Hp; [|done]. apply dw_fresh in Hp; [|done]. lia. }
  assert (Hs1 : heap db1 !! next_ptr db = Some s) by (by rewrite Hh1, lookup_insert_eq).
  assert (Hf : find_id db1 (bs_id s) = None).
  { apply find_id_None. intros p Hp Hpi. rewrite Hp1 in Hp. unfold has_id in Hpi. rewrite Hold in Hpi by done.
    apply Hnew, elem_of_app. right. apply ids_of_elem. by exists p. }
  destruct (set_run db1 _ s Hwf1 Hha1 Hs1 Hid Hf) as (db2 & Hset & Hwf2 & Hha2 & Hh2 & _ & Hp2).
  assert (Hids2 : ids_of db2 (by_prev db2) = ids_of db (by_prev db) ++ [bs_id s]).
  { rewrite Hp2, Hp1, ids_of_app. f_equal.
    - unfold ids_of. rewrite Hh2. apply list_omap_ext, Forall2_same_length_lookup_2; [done|].
      intros i x y Hx Hy. simplify_eq. rewrite Hold by (by eapply list_elem_of_lookup_2). done.
    - unfold ids_of. simpl. by rewrite Hh2, Hs1. }
  destruct (IH db2 Hwf2 Hha2 Hids) as (db' & Hrun & Hwf' & Hin).
  { rewrite Hids2. rewrite app_assoc. apply NoDup_app. split; [done|]. split; [|apply NoDup_singleton].
    intros x Hx ->%list_elem_of_singleton. by apply Hnew. }
  exists db'. split_and!; [|done|].
  { cbn [open_blocks]. by rewrite (st_bind_run _ _ _ _ _ Hmk), (st_bind_run _ _ _ _ _ Hset). }
  intros t. rewrite Hin, elem_of_cons. split.
  - intros [?|(p & Hp & Ht)]; [by left; right|]. rewrite Hp2, Hp1 in Hp. rewrite Hh2 in Ht.
    apply elem_of_app in Hp as [Hp| ->%list_elem_of_singleton].
    + right. exists p. by rewrite <-Hold.
    + left. left. congruence.
  - intros [[->|?]|(p & Hp & Ht)]; [right|by left|right].
    + exists (next_ptr db). rewrite Hp2, Hh2. split; [set_solver|done].
    + exists p. rewrite Hp2, Hp1, Hh2, Hold by done. split; [set_solver|done].
Qed.

(** ** Termination *)

(** Steps that read the store or check a condition do not run out of fuel. *)
Ltac no_fuel :=
  repeat first
  [ done
  | progress intros
  | match goal with
    | |- ((_ ≫= _) _).2 ≠ _ => apply st_bind_not_throw
    | |- (st_lift (of_option ?o _) _).2 ≠ _ => destruct o
    | |- (st_assert ?c _ _).2 ≠ _ => destruct c
    | |- (deref _ _).2 ≠ _ => unfold deref
    | |- (first_of _ _).2 ≠ _ => unfold first_of
    | |- ((match ?x with _ => _ end) _).2 ≠ _ => destruct x
    end ].

Lemma remove_terminates db i : db_wf db → (remove i db).2 ≠ Throw out_of_fuel.
Proof. intros Hwf. destruct (remove_run db i Hwf) as (Q & _ & ->). by destruct (head _). Qed.

Lemma insert_node_terminates p db : (insert_node p db).2 ≠ Throw out_of_fuel.
Proof. unfold insert_node. rewrite st_get_run. by destruct (db_insert db p). Qed.

Lemma add_block_state_terminates n skip db :
  db_wf db → (add_block_state n skip db).2 ≠ Throw out_of_fuel.
Proof.
  intros Hwf. unfold add_block_state.
  apply st_bind_not_throw; [by destruct n|intros db1 n' Hn]. inv_fdb.
  apply st_bind_not_throw; [done|intros ? ? ?]. inv_fdb.
  apply st_bind_not_throw; [by destruct (fork_head _)|intros ? hd Hhd]. inv_fdb.
  apply st_bind_not_throw; [no_fuel|intros ? s Hs]. inv_fdb.
  apply st_bind_not_throw; [no_fuel|intros db1 [] Hk].
  match type of Hk with _ ?d = _ => assert (db1 = d) as -> by (destruct skip; by inv_fdb) end.
  apply st_bind_not_throw; [apply insert_node_terminates|intros db1 b Hb].
  assert (Hwf1 : db_wf db1).
  { replace db1 with (insert_node n' db).1 by (by rewrite Hb). by apply insert_node_wf. }
  apply st_bind_not_throw; [by destruct b|intros ? ? ?]. inv_fdb.
  apply st_bind_not_throw; [no_fuel|intros ? ? ?]. inv_fdb.
  apply st_bind_not_throw; [done|intros ? ? ?]. inv_fdb.
  apply st_bind_not_throw; [no_fuel|intros ? h Hh]. inv_fdb.
  apply st_bind_not_throw; [no_fuel|intros ? old Hold]. inv_fdb.
  apply st_bind_not_throw; [no_fuel|intros ? o Ho]. inv_fdb.
  apply st_bind_not_throw; [|done].
  destruct (bs_num o <? bs_lib h); [|done]. by apply prune_terminates, set_head_wf.
Qed.

Lemma close_terminates order db : db_wf db → (close order db).2 ≠ Throw out_of_fuel.
Proof.
  intros Hwf. unfold close. rewrite st_get_run. destruct (length (by_prev db) =? 0)%nat; [done|].
  cbv zeta.
  apply st_bind_not_throw; [by destruct (fork_head db)|intros ? hd Hhd]. inv_fdb.
  apply st_bind_not_throw; [no_fuel|intros ? h Hh]. inv_fdb.
  apply st_bind_not_throw; [no_fuel|intros ? old Hold]. inv_fdb.
  apply st_bind_not_throw; [no_fuel|intros ? o Ho]. inv_fdb.
  apply st_bind_not_throw; [|by no_fuel].
  destruct (bs_num o <=? bs_lib h); [|done]. by apply prune_terminates.
Qed.

Lemma set_bft_terminates i db : db_wf db → (set_bft_irreversible i db).2 ≠ Throw out_of_fuel.
Proof.
  intros Hwf. destruct (find_id db i) as [itr|] eqn:Hf.
  - pose proof (find_id_Some_1 _ _ _ Hf) as [Hin _]. destruct (dw_alloc _ Hwf _ Hin) as [s Hs].
    by destruct (set_bft_irreversible_run db i itr s Hwf Hf Hs) as (U & db' & -> & _).
  - unfold set_bft_irreversible. by rewrite st_get_run, Hf.
Qed.

(** ** Theorems *)

(** C22: From an empty database, any sequence of calls of the public interface (with any
    arguments, and whether the calls return or throw) leaves the store well-formed: ids are
    unique, the indexes agree, and each ordered index is sorted by its current keys, also after
    blocks are modified in place. *)
Theorem fork_db_invariant db : rtc fork_step db_empty db → db_wf db.
Proof.
  intros Hr. eapply fork_steps_wf; [exact Hr|apply db_empty_wf].
Qed.

(** [remove] terminates; it removes exactly the block with the id and the blocks that build
    on it, touches nothing else, and makes the best remaining block the head.  On a database
    that it empties it dereferences the end of an index. *)
Theorem remove_exact db i db' r :
  db_wf db → remove i db = (db', r) →
  heap db' = heap db ∧
  (∀ p, p ∈ by_prev db' ↔ p ∈ by_prev db ∧ ¬ under db i p) ∧
  by_prev db' `sublist_of` by_prev db ∧
  by_block_num db' `sublist_of` by_block_num db ∧
  by_lib_block_num db' `sublist_of` by_lib_block_num db ∧
  irreversible_signals db' = irreversible_signals db ∧
  match by_prev db' with
  | [] => r = Throw undefined_behaviour
  | _ => r = Ok tt ∧ ∃ hd, fork_head db' = Some hd ∧ is_best db' hd
  end.
Proof.
  intros Hwf Hr. pose proof (remove_wf i db Hwf) as Hwf'. rewrite Hr in Hwf'. simpl in Hwf'.
  destruct (remove_run db i Hwf) as (Q & HQ & Hrun). rewrite Hr in Hrun.
  assert (Hel : ∀ p, p ∈ by_prev (without db Q) ↔ p ∈ by_prev db ∧ ¬ under db i p).
  { intros p. rewrite without_elem. split; intros [Hp Hn]; split; try done; by rewrite ?HQ, <-?HQ in *. }
  destruct (head (by_lib_block_num (without db Q))) as [hd|] eqn:Hh; simplify_eq.
  - split_and!; try done; try apply sublist_filter.
    destruct (by_prev (set_head (without db Q) (Some hd))) eqn:E.
    + pose proof (dw_libs _ Hwf') as Hp. rewrite E in Hp. apply Permutation_nil_r in Hp.
      simpl in Hp, Hh. by rewrite Hp in Hh.
    + split; [done|]. exists hd. split; [done|]. by apply first_is_best.
  - split_and!; try done; try apply sublist_filter.
    apply head_None_nil in Hh. simpl in Hh |- *.
    by rewrite (filter_perm_nil _ _ _ (dw_libs _ Hwf) Hh).
Qed.

(** Pruning the oldest block of a linked database whose next block builds on it returns: it
    reports that block as irreversible, and no other, and keeps exactly the blocks that neither
    have its number nor build on a competing block with that number. *)
Theorem prune_oldest db h s c :
  db_wf db → db_linked db →
  head (by_block_num db) = Some h → heap db !! h = Some s →
  lower_bound_num db (bs_num s + 1) = Some c → has_prev (heap db) (bs_id s) c →
  ∃ db', prune prune_fuel h db = (db', Ok tt) ∧
    db_wf db' ∧ heap db' = heap db ∧
    irreversible_signals db' = irreversible_signals db ++ [h] ∧
    ∀ p, p ∈ by_prev db' ↔ p ∈ by_prev db ∧ p ≠ h ∧ ¬ on_fork (pruned_one db h) (bs_num s) p.
Proof.
  intros Hwf Hlk Hh Hs Hlb Hcp. unfold prune_fuel. rewrite (prune_first_run _ _ _ s) by done.
  assert (Hsub : sub_db (pruned_one db h) db).
  { split; [done|]. intros p Hp. by apply pruned_one_elem in Hp as [? _]. }
  pose proof (head_Some_elem_of _ _ Hh) as Hhin. rewrite nums_indexed in Hhin by done.
  assert (Hhn : has_num (heap db) (bs_num s) h) by (unfold has_num; by rewrite Hs).
  assert (Hhi : has_id (heap db) (bs_id s) h) by (unfold has_id; by rewrite Hs).
  destruct (lower_bound_Some _ _ _ Hlb) as (l1 & l2 & Hsplit & Hc & _).
  assert (Hcin : c ∈ by_prev db) by (rewrite <-nums_indexed, Hsplit by done; set_solver).
  assert (Hch : c ≠ h).
  { intros ->. rewrite (at_least_num _ _ _ _ Hhn) in Hc. lia. }
  destruct (prune_forks_run (bs_num s) c (S (length (by_block_num (pruned_one db h)))) (pruned_one db h))
    as (db' & Hrun & Hwf' & Hheap & Hsig & Hin).
  - by apply pruned_one_wf.
  - by eapply db_linked_sub.
  - lia.
  - intros p m [Hp _]%pruned_one_elem Hm. destruct (by_block_num db) as [|h' l] eqn:Hl; simplify_eq/=.
    eapply (num_sorted_le db h l p); [done|done|by apply nums_indexed|done|done].
  - eapply lower_bound_filter; [done|done| |by eauto].
    apply nums_indexed, pruned_one_elem; [by apply pruned_one_wf|done].
  - intros (f & i & [Hf Hfh]%pruned_one_elem & Hfn & Hfi & Hu). simpl in Hfn, Hfi.
    inversion Hu as [? _ Hci|? _ Hcpi|q j ? Hq Hj _ Hcpj]; subst; simpl in *.
    + assert (c = f) as -> by (by eapply dw_id_inj).
      rewrite (at_least_num _ _ _ _ Hfn) in Hc. lia.
    + apply Hfh. eapply dw_id_inj; [done..|]. by rewrite <-(has_prev_fun _ _ _ _ Hcp Hcpi).
    + apply under_indexed, pruned_one_elem in Hq as [Hq Hqh]. apply Hqh.
      eapply dw_id_inj; [done..|]. by rewrite <-(has_prev_fun _ _ _ _ Hcp Hcpj).
  - exists db'. split_and!; try done. intros p. rewrite Hin, pruned_one_elem. tauto.
Qed.

(** C39: When a block state is added successfully, it was not known before, the database had a
    head, and afterwards the head is a block that no indexed block beats (by irreversible
    numbers first, then by number). *)
Theorem add_selects_best db n skip db' p :
  db_wf db →
  (∀ q s, heap db !! q = Some s → bs_lib s <= bs_num s) →
  add_block_state (Some n) skip db = (db', Ok p) →
  p = n ∧ is_Some (fork_head db) ∧
  (∃ s, heap db !! n = Some s ∧ find_id db (bs_id s) = None) ∧
  ∃ hd, fork_head db' = Some hd ∧ is_best db' hd.
Proof.
  intros Hwf Hlib (-> & Hhd0 & s & db1 & hd & h & old & o & [] & Hs & Hins & Hhd & Hh & Hold & Ho & Hp)
    %add_block_state_inv.
  pose proof (db_insert_wf _ _ _ Hwf Hins) as Hwf1.
  destruct (db_insert_inv _ _ _ Hins) as (s' & Hs' & Hnew & Hheap & _). simplify_eq.
  assert (Hf : head_first (set_head db1 (Some hd))).
  { split_and!; [by apply set_head_wf|by eexists|done]. }
  assert (Hf' : head_first db').
  { destruct (bs_num o <? bs_lib h) eqn:Hlt; reflect_bools.
    - eapply prune_first_head_first; [exact Hf|done|done| |done]. simpl. intros [= ->].
      simplify_eq. rewrite Hheap in Hh. specialize (Hlib _ _ Hh). lia.
    - inv_fdb. done. }
  destruct Hf' as (Hwf' & [hd' Hhd'] & Hfirst). split_and!; [done|done|by eauto|].
  exists hd'. split; [done|]. apply first_is_best; [done|]. by rewrite <-Hfirst.
Qed.

(** [set_bft_irreversible] terminates.  When BFT irreversibility is monotone along the forks,
    it sets the block to its own number, raises every block that builds on it to at least that
    number, and changes no other block, the index by id, the head or the signals. *)
Theorem bft_irreversible_propagates db i itr s :
  db_wf db → bft_monotone db → find_id db i = Some itr → heap db !! itr = Some s →
  ∃ db', set_bft_irreversible i db = (db', Ok tt) ∧ db_wf db' ∧
    by_prev db' = by_prev db ∧ fork_head db' = fork_head db ∧
    irreversible_signals db' = irreversible_signals db ∧
    heap db' !! itr = Some (set_bft s (bs_num s)) ∧
    (∀ p t, p ≠ itr → above db i p → heap db !! p = Some t →
       heap db' !! p = Some (set_bft t (Z.max (bs_bft t) (bs_num s)))) ∧
    (∀ p, p ≠ itr → ¬ above db i p → heap db' !! p = heap db !! p).
Proof.
  intros Hwf Hmono Hf Hs. pose proof (find_id_Some_1 _ _ _ Hf) as [Hitr Hid].
  destruct (set_bft_irreversible_run db i itr s Hwf Hf Hs) as (U & db' & Hrun & Hr & HU).
  pose proof (set_bft_irreversible_wf i db Hwf) as Hwf'. rewrite Hrun in Hwf'.
  exists db'. split_and!; try done; try apply Hr.
  - rewrite (ra_heap _ _ _ _ Hr), (marked_lookup _ itr itr s), decide_False, decide_True; try done.
    rewrite HU. intros Hre.
    apply bft_reach_low in Hre as (t & Ht & Hlt).
    rewrite (marked_lookup _ itr itr s), decide_True in Ht by done. simplify_eq. by apply Z.lt_irrefl in Hlt.
  - intros p t Hne Ha Ht. rewrite (ra_heap _ _ _ _ Hr), (marked_lookup _ itr p t Ht).
    rewrite (decide_False (P := p = itr)) by done.
    destruct (decide (p ∈ U)) as [Hp|Hp].
    + assert (bft_low (bft_marked db itr) (bs_num s) p) as (t' & Ht' & Hlt) by (by apply Hr).
      rewrite (marked_lookup _ itr p t Ht), decide_False in Ht' by done. simplify_eq.
      simpl. by rewrite Z.max_r by lia.
    + destruct (above_raised db itr i s p) as [Hre|(t' & Ht' & Hge)]; try done.
      { by rewrite <-HU in Hre. }
      rewrite (marked_lookup _ itr p t Ht), decide_False in Ht' by done. simplify_eq.
      rewrite Z.max_l by lia. unfold set_bft, set_bhs, with_bft_irreversible, bs_bft.
      by destruct t' as [[] ? ? ? ?].
  - intros p Hne Hna. rewrite (ra_heap _ _ _ _ Hr), decide_False.
    + simpl. by rewrite lookup_alter_ne.
    + rewrite HU. intros Hre. by apply Hna, (bft_reach_above db itr i (bs_num s)).
Qed.

(** Given two known blocks whose histories meet, [fetch_branch_from] terminates and returns
    the two histories, newest first, down to the first pair of blocks at the same height that
    build on the same block. *)
Theorem fetch_branch_correct db first second p q m k a b :
  db_wf db → db_linked db → find_id db first = Some p → find_id db second = Some q →
  ancestor db m p = Some a → ancestor db k q = Some b → same_prev db a b →
  bs_num <$> heap db !! a = bs_num <$> heap db !! b →
  ∃ j1 j2 a' b',
    fetch_branch_from first second db = (db, Ok (path db (S j1) p, path db (S j2) q)) ∧
    (j1 <= m)%nat ∧ (j2 <= k)%nat ∧
    ancestor db j1 p = Some a' ∧ ancestor db j2 q = Some b' ∧
    same_prev db a' b' ∧ bs_num <$> heap db !! a' = bs_num <$> heap db !! b' ∧
    ∀ i1 i2 x y, (i1 < j1)%nat → (i2 < j2)%nat →
      ancestor db i1 p = Some x → ancestor db i2 q = Some y →
      bs_num <$> heap db !! x = bs_num <$> heap db !! y → ¬ same_prev db x y.
Proof.
  intros Hwf Hl Hp Hq Ha Hb Hab Hnum.
  pose proof (find_id_Some_1 _ _ _ Hp) as [Hpin _]. pose proof (find_id_Some_1 _ _ _ Hq) as [Hqin _].
  destruct (has_num_alloc db p) as [mp Hmp]; [done..|].
  destruct (has_num_alloc db q) as [mq Hmq]; [done..|].
  destruct (ancestor_num db m p a mp) as [_ Han]; try done.
  destruct (ancestor_num db k q b mq) as [_ Hbn]; try done.
  assert (Hd : mp - Z.of_nat m = mq - Z.of_nat k) by (unfold has_num in *; congruence).
  remember (m - k)%nat as d1. remember (k - m)%nat as d2. remember (Nat.min m k) as n.
  replace m with (d1 + n)%nat in Ha by lia. replace k with (d2 + n)%nat in Hb by lia.
  rewrite ancestor_add in Ha, Hb.
  destruct (ancestor db d1 p) as [p1|] eqn:Hp1; [|done].
  destruct (ancestor db d2 q) as [q1|] eqn:Hq1; [|done]. simpl in Ha, Hb.
  destruct (ancestor_num db d1 p p1 mp) as [Hp1in Hp1n]; try done.
  destruct (ancestor_num db d2 q q1 mq) as [Hq1in Hq1n]; try done.
  destruct (fetch_both_run db Hwf n (S (length (by_prev db))) p1 q1 a b (path db d1 p) (path db d2 q))
    as (j & a' & b' & Hj & Ha' & Hb' & Hs' & Hmin & Hrun); try done.
  { pose proof (ancestor_bound db n p1 a). naive_solver lia. }
  pose proof Hmq as (t & Ht & ->)%fmap_Some. pose proof Hp1n as (s1 & Hs1 & Hs1n)%fmap_Some.
  exists (d1 + j)%nat, (d2 + j)%nat, a', b'. split_and!.
  - unfold fetch_branch_from. rewrite st_get_run. cbv zeta.
    rewrite !(st_bind_run _ _ _ _ _ (get_block_run db _)), Hp, Hq. cbn [of_option].
    rewrite !st_lift_run, (st_bind_run _ _ _ _ _ (deref_run _ _ _ Ht)).
    erewrite st_bind_run.
    2:{ eapply (fetch_down_run db _ Hwf Hl d1); [done..| |lia].
        pose proof (ancestor_bound db d1 p p1). naive_solver lia. }
    cbv beta iota. rewrite (st_bind_run _ _ _ _ _ (deref_run _ _ _ Hs1)).
    erewrite st_bind_run.
    2:{ eapply (fetch_down_run db _ Hwf Hl d2); [done..| |lia].
        pose proof (ancestor_bound db d2 q q1). naive_solver lia. }
    cbv beta iota. rewrite !app_nil_l, Hrun, <-(Nat.add_succ_r d1), <-(Nat.add_succ_r d2).
    by rewrite (path_add db d1 (S j) p p1), (path_add db d2 (S j) q q1).
  - lia.
  - lia.
  - rewrite ancestor_add, Hp1. done.
  - rewrite ancestor_add, Hq1. done.
  - done.
  - destruct (ancestor_num db j p1 a' (mp - Z.of_nat d1)) as [_ ->]; try done.
    destruct (ancestor_num db j q1 b' (bs_num t - Z.of_nat d2)) as [_ ->]; try done. f_equal. lia.
  - intros i1 i2 x y Hi1 Hi2 Hx Hy Hxy.
    destruct (ancestor_num db i1 p x mp) as [_ Hxn]; try done.
    destruct (ancestor_num db i2 q y (bs_num t)) as [_ Hyn]; try done.
    rewrite Hxn, Hyn in Hxy. simplify_eq Hxy. intros Hxy'.
    replace i1 with (d1 + (i1 - d1))%nat in Hx by lia.
    replace i2 with (d2 + (i1 - d1))%nat in Hy by lia.
    rewrite ancestor_add, Hp1 in Hx. rewrite ancestor_add, Hq1 in Hy. simpl in Hx, Hy.
    apply (Hmin (i1 - d1)%nat); [lia|done|done].
Qed.

(** [fetch_branch_from] does not report a missing block: when the history of the higher block
    leaves the database, the failing assertion dereferences the null pointer it reports. *)
Theorem fetch_branch_missing db first second p q s t :
  db_wf db → find_id db first = Some p → find_id db second = Some q →
  heap db !! p = Some s → heap db !! q = Some t →
  bs_num t < bs_num s → find_id db (bs_prev s) = None →
  fetch_branch_from first second db = (db, Throw undefined_behaviour).
Proof.
  intros Hwf Hp Hq Hs Ht Hlt Hnone. unfold fetch_branch_from. rewrite st_get_run. cbv zeta.
  rewrite !(st_bind_run _ _ _ _ _ (get_block_run db _)), Hp, Hq. cbn [of_option].
  rewrite !st_lift_run, (st_bind_run _ _ _ _ _ (deref_run _ _ _ Ht)).
  erewrite st_bind_throw; [done|]. cbn [fetch_down].
  rewrite (st_bind_run _ _ _ _ _ (deref_run _ _ _ Hs)).
  destruct (bs_num t <? bs_num s) eqn:E; reflect_bools; [|lia].
  by rewrite (st_bind_run _ _ _ _ _ (get_block_run db _)), Hnone.
Qed.

(** Closing the database and opening it from the file restores every block, without its
    transaction metadata, under its id, and the head. *)
Theorem close_open_roundtrip db order db1 file hd :
  db_wf db → order ≡ₚ by_prev db →
  (∀ p s, p ∈ by_prev db → heap db !! p = Some s → id_matches s) →
  fork_head db = Some hd → hd ∈ by_prev db →
  close order db = (db1, Ok (Some file)) →
  ∃ db2, open (Some file) db_empty = (db2, Ok tt) ∧ db_wf db2 ∧
    (∀ s, (∃ p, p ∈ by_prev db2 ∧ heap db2 !! p = Some s) ↔
          ∃ p t, p ∈ by_prev db ∧ heap db !! p = Some t ∧ s = reloaded t) ∧
    ∃ hd2, fork_head db2 = Some hd2 ∧
      bs_id <$> heap db2 !! hd2 = bs_id <$> heap db !! hd.
Proof.
  intros Hwf Hord Hids Hhd Hhdin Hc. destruct file as [blocks head_id].
  assert (Hfile : blocks = omap (λ p, reloaded <$> heap db !! p) order ∧
    bs_id <$> heap db !! hd = Some head_id).
  { unfold close in Hc. rewrite st_get_run in Hc.
    destruct (length (by_prev db) =? 0)%nat; [done|]. cbv zeta in Hc. inv_fdb.
    match goal with H : Some _ = Some (_, _) |- _ => injection H as -> -> end. split; [done|].
    rewrite Hhd. simpl. destruct (dw_alloc _ Hwf hd Hhdin) as [s ->]. done. }
  destruct Hfile as [-> Hheadid].
  assert (Hel : ∀ s, s ∈ omap (λ p, reloaded <$> heap db !! p) order ↔
    ∃ p t, p ∈ by_prev db ∧ heap db !! p = Some t ∧ s = reloaded t).
  { intros s. rewrite list_elem_of_omap. setoid_rewrite fmap_Some.
    assert (Ho : ∀ p, p ∈ order ↔ p ∈ by_prev db) by (intros p; by rewrite Hord).
    setoid_rewrite Ho. naive_solver. }
  destruct (open_blocks_run (omap (λ p, reloaded <$> heap db !! p) order) db_empty)
    as (db2 & Hrun & Hwf2 & Hin).
  - apply db_empty_wf.
  - by intros h.
  - apply Forall_forall. intros s (p & t & Hp & Ht & ->)%Hel. by apply (Hids p t).
  - simpl. rewrite app_nil_r. rewrite list_fmap_omap.
    assert (Ho : omap (λ p, bs_id <$> (reloaded <$> heap db !! p)) order = ids_of db order).
    { unfold ids_of. apply list_omap_ext, Forall2_same_length_lookup_2; [done|].
      intros i x y Hx Hy. simplify_eq. destruct (heap db !! x); done. }
    rewrite Ho. apply ids_of_nodup; [done|by rewrite Hord; apply dw_nodup|]. intros p. by rewrite Hord.
  - assert (Hin' : ∀ s, (∃ p, p ∈ by_prev db2 ∧ heap db2 !! p = Some s) ↔
      ∃ p t, p ∈ by_prev db ∧ heap db !! p = Some t ∧ s = reloaded t).
    { intros s. rewrite Hin, Hel. set_solver. }
    pose proof Hheadid as (th & Hth & ->)%fmap_Some.
    destruct (proj2 (Hin' (reloaded th))) as (hd2 & Hhd2 & Hs2); [by eauto|].
    exists (set_head db2 (Some hd2)). split_and!; [|by apply set_head_wf|done|].
    + unfold open. rewrite (st_bind_run _ _ _ _ _ Hrun), (st_bind_run _ _ _ _ _ (get_block_run _ _)).
      assert (find_id db2 (bs_id th) = Some hd2) as ->; [|done].
      apply find_id_Some; [done|]. split; [done|]. unfold has_id. by rewrite Hs2.
    + exists hd2. split; [done|]. simpl. by rewrite Hs2, Hheadid.
Qed.

(** On a well-formed database the loops and recursions of the fork database terminate, with
    any arguments: the breadth-first removal, the recursive pruning, the insertion and the
    shutdown that call it, and the propagation of BFT irreversibility. *)
Theorem fork_db_terminates db :
  db_wf db →
  (∀ i, (remove i db).2 ≠ Throw out_of_fuel) ∧
  (∀ h, (prune prune_fuel h db).2 ≠ Throw out_of_fuel) ∧
  (∀ n skip, (add_block_state n skip db).2 ≠ Throw out_of_fuel) ∧
  (∀ order, (close order db).2 ≠ Throw out_of_fuel) ∧
  (∀ i, (set_bft_irreversible i db).2 ≠ Throw out_of_fuel).
Proof.
  intros Hwf. split_and!; intros.
  - by apply remove_terminates.
  - by apply prune_terminates.
  - by apply add_block_state_terminates.
  - by apply close_terminates.
  - by apply set_bft_terminates.
Qed.

(** [get_block_in_current_chain_by_num] finds a block of the current chain with that number
    exactly when there is one. *)
Theorem current_chain_lookup db n :
  db_wf db →
  match get_block_in_current_chain_by_num n db with
  | (db', Ok (Some p)) => db' = db ∧ p ∈ by_prev db ∧
      ∃ s, heap db !! p = Some s ∧ bs_num s = n ∧ in_current_chain s = true
  | (db', Ok None) => db' = db ∧ ∀ p s, p ∈ by_prev db → heap db !! p = Some s →
      bs_num s = n → in_current_chain s = false
  | (_, Throw _) => False
  end.
Proof.
  intros Hwf. unfold get_block_in_current_chain_by_num. rewrite st_get_run.
  destruct (lower_bound_num db n) as [c|] eqn:Hlb.
  - pose proof (lower_bound_Some _ _ _ Hlb) as (l1 & l2 & Hl & Hc & Hno).
    assert (Hcin : c ∈ by_prev db) by (rewrite <-nums_indexed, Hl by done; set_solver).
    destruct (dw_alloc _ Hwf c Hcin) as [s Hs].
    rewrite (st_bind_run _ _ _ _ _ (deref_run _ _ _ Hs)). unfold mret, stM_ret.
    destruct (negb (bs_num s =? n) || negb (in_current_chain s)) eqn:E.
    2:{ reflect_bools. split_and!; [done|done|]. by exists s. }
    split; [done|]. intros p t Hp Ht Htn.
    destruct (in_current_chain t) eqn:Hcur; [|done]. exfalso.
    rewrite <-nums_indexed, Hl in Hp by done. apply elem_of_app in Hp as [Hp|Hp].
    { rewrite Forall_forall in Hno. apply (Hno p Hp). unfold at_least. rewrite Ht. simpl. lia. }
    unfold at_least in Hc. rewrite Hs in Hc. simpl in Hc.
    apply elem_of_cons in Hp as [->|Hp]; [simplify_eq; rewrite Z.eqb_refl, Hcur in E; done|].
    pose proof (dw_nums_sorted db Hwf) as Hsort. rewrite Hl in Hsort.
    apply StronglySorted_app_1_r in Hsort. apply (StronglySorted_head _ _ _ _ Hsort) in Hp.
    unfold index_le, ptr_lt in Hp. rewrite Ht, Hs in Hp. unfold num_lt in Hp.
    revert Hp E. rewrite Hcur. destruct (in_current_chain s); simpl; lia.
  - split; [done|]. intros p s Hp Hs Hn. exfalso.
    unfold lower_bound_num in Hlb. rewrite fmap_None, list_find_None, Forall_forall in Hlb.
    apply (Hlb p); [by apply nums_indexed|]. unfold at_least. rewrite Hs. simpl. lia.
Qed.

(** A block state is refused, and the database left as it was, when there is none, when the
    database has no head, when the block does not link to a known block, and when its id is
    known already. *)
Theorem add_refuses db n s hd b skip :
  heap db !! n = Some s → block s = Some b →
  add_block_state None skip db = (db, Throw fork_database_exception) ∧
  (fork_head db = None →
     add_block_state (Some n) skip db = (db, Throw fork_db_block_not_found)) ∧
  (fork_head db = Some hd → find_id db (previous (hdr (sb_header b))) = None →
     add_block_state (Some n) false db = (db, Throw unlinkable_block_exception)) ∧
  (fork_head db = Some hd → is_Some (find_id db (previous (hdr (sb_header b)))) →
     is_Some (find_id db (bs_id s)) →
     add_block_state (Some n) skip db = (db, Throw fork_database_exception)).
Proof.
  intros Hs Hb. unfold add_block_state. cbn [of_option]. split_and!.
  - done.
  - intros Hhd. by rewrite st_lift_run, st_get_run, Hhd.
  - intros Hhd Hnone. rewrite st_lift_run, st_get_run, Hhd. cbn [of_option].
    rewrite st_lift_run, (st_bind_run _ _ _ _ _ (deref_run _ _ _ Hs)).
    erewrite st_bind_throw; [done|]. rewrite Hb. cbn [of_option]. by rewrite st_lift_run, Hnone.
  - intros Hhd [q Hq] [r Hr]. rewrite st_lift_run, st_get_run, Hhd. cbn [of_option].
    rewrite st_lift_run, (st_bind_run _ _ _ _ _ (deref_run _ _ _ Hs)).
    rewrite (st_bind_run _ _ db db tt).
    2:{ destruct skip; [done|]. rewrite Hb. cbn [of_option]. by rewrite st_lift_run, Hq. }
    rewrite (st_bind_run _ _ db db false); [done|]. unfold insert_node. rewrite st_get_run.
    unfold db_insert. rewrite Hs. simpl. by rewrite Hr.
Qed.

End fork_database.

(** ** An ordered index *)

(** Insertion into an ordered_non_unique index goes to the upper bound of the key. *)
Fixpoint upper_insert (lt : ptr → ptr → bool) (p : ptr) (l : list ptr) : list ptr :=
  match l with
  | [] => [p]
  | q :: l' => if lt p q then p :: l else q :: upper_insert lt p l'
  end.

(** Repositioning after [modify]: an element that is still between its neighbours stays, another
    one is unlinked and inserted again. *)
Definition upper_modify (lt : ptr → ptr → bool) (p : ptr) (l : list ptr) : list ptr :=
  match list_find (p =.) l with
  | Some (i, _) =>
      let l1 := take i l in
      let l2 := drop (S i) l in
      let after_pred := match last l1 with Some q => negb (lt p q) | None => true end in
      let before_succ := match head l2 with Some q => negb (lt q p) | None => true end in
      if after_pred && before_succ then l else upper_insert lt p (l1 ++ l2)
  | None => l
  end.

#[export] Instance upper_index : OrderedIndex :=
  {| index_insert := upper_insert; index_modify := upper_modify |}.

Section upper_index.
Context (lt : ptr → ptr → bool) `{!StrictWeak lt}.

Lemma upper_insert_perm p l : upper_insert lt p l ≡ₚ p :: l.
Proof.
  induction l as [|q l IH]; simpl; [done|]. destruct (lt p q); [done|].
  rewrite IH. apply Permutation_swap.
Qed.

Lemma upper_insert_sorted p l :
  StronglySorted (index_le lt) l → StronglySorted (index_le lt) (upper_insert lt p l).
Proof.
  induction 1 as [|q l Hs IH Hq]; simpl; [repeat constructor|].
  destruct (lt p q) eqn:E.
  - constructor; [by constructor|]. constructor; [by apply sw_asym|].
    eapply Forall_impl; [exact Hq|]. intros x Hx. eapply sw_trans; [|exact Hx]. by apply sw_asym.
  - constructor; [done|]. rewrite upper_insert_perm. by constructor.
Qed.

Lemma upper_modify_perm p l : upper_modify lt p l ≡ₚ l.
Proof.
  unfold upper_modify. destruct (list_find (p =.) l) as [[i q]|] eqn:E; [|done].
  apply list_find_Some in E as (Hi & -> & _). case_match; [done|].
  rewrite upper_insert_perm, Permutation_middle, take_drop_middle; done.
Qed.

Lemma index_le_last p l1 q :
  StronglySorted (index_le lt) l1 → last l1 = Some q → index_le lt q p →
  Forall (λ x, index_le lt x p) l1.
Proof.
  intros Hs. induction Hs as [|x l Hs IH Hx]; intros Hl Hp; [done|].
  destruct l as [|y l].
  - simpl in Hl. simplify_eq. by repeat constructor.
  - assert (Hall : Forall (λ x, index_le lt x p) (y :: l)) by (by apply IH).
    constructor; [|done]. apply Forall_cons in Hall as [Hy _]. apply Forall_cons in Hx as [Hxy _].
    unfold index_le in *. eapply sw_trans; eauto.
Qed.

Lemma StronglySorted_middle l1 p l2 :
  StronglySorted (index_le lt) (l1 ++ l2) → Forall (λ x, index_le lt x p) l1 →
  Forall (λ x, index_le lt p x) l2 → StronglySorted (index_le lt) (l1 ++ p :: l2).
Proof.
  induction l1 as [|x l1 IH]; simpl; intros Hs H1 H2; [by constructor|].
  apply StronglySorted_inv in Hs as [Hs Hx]. apply Forall_cons in H1 as [Hxp H1].
  constructor; [by apply IH|]. apply Forall_app in Hx as [Hx1 Hx2].
  apply Forall_app. split; [done|]. by constructor.
Qed.

Lemma filter_ne_split (p : ptr) (l1 l2 : list ptr) :
  NoDup (l1 ++ p :: l2) → filter (p ≠.) (l1 ++ p :: l2) = l1 ++ l2.
Proof.
  intros (Hn1 & Hd & Hn2)%NoDup_app. apply NoDup_cons in Hn2 as [Hp _].
  rewrite filter_app, filter_cons_False by auto.
  f_equal; apply filter_all, Forall_forall; intros x Hx; [|set_solver].
  intros ->. apply (Hd x Hx). left.
Qed.

Lemma upper_modify_sorted p l :
  NoDup l → StronglySorted (index_le lt) (filter (p ≠.) l) →
  (p ∉ l → StronglySorted (index_le lt) l) →
  StronglySorted (index_le lt) (upper_modify lt p l).
Proof.
  intros Hnd Hs Hno. unfold upper_modify. destruct (list_find (p =.) l) as [[i q]|] eqn:E.
  2:{ apply list_find_None in E. rewrite Forall_forall in E. apply Hno. intros Hp. by apply (E p). }
  apply list_find_Some in E as (Hi & <- & _).
  assert (Hl : l = take i l ++ p :: drop (S i) l) by by rewrite take_drop_middle.
  set (l1 := take i l) in *. set (l2 := drop (S i) l) in *. clearbody l1 l2. subst l.
  rewrite filter_ne_split in Hs by done.
  case_match eqn:Hc; [|by apply upper_insert_sorted].
  apply andb_true_iff in Hc as [H1 H2]. apply StronglySorted_middle; [done|..].
  - destruct (last l1) as [q|] eqn:El.
    + apply negb_true_iff in H1. eapply index_le_last; [|exact El|done].
      eapply StronglySorted_app_1_l; exact Hs.
    + apply last_None in El as ->. constructor.
  - destruct l2 as [|q l2]; [constructor|]. simpl in H2. apply negb_true_iff in H2.
    apply StronglySorted_app_1_r in Hs. constructor; [done|].
    apply StronglySorted_inv in Hs as [_ Hs]. eapply Forall_impl; [exact Hs|].
    intros x Hx. unfold index_le in *. eapply sw_trans; eauto.
Qed.

End upper_index.

#[export] Instance upper_index_laws : OrderedIndexLaws.
Proof.
  split; intros; [by apply upper_insert_perm|by apply upper_insert_sorted|
    by apply upper_modify_perm|by apply upper_modify_sorted].
Qed.

(** ** A concrete database *)
Section witnesses.
#[local] Existing Instances toy_fc toy_fc_hash.

Definition toy_payload : Payload := {| packed_transaction := Z; transaction_metadata := Z |}.
#[local] Existing Instance toy_payload.

(** A block with a timestamp, a previous id and a number. *)
Definition toy_block (ts num : Z) (prev : digest) (current : bool) (lib bft : Z) : block_state :=
  let h := SignedBlockHeader (BlockHeader ts 1 1 prev digest_zero digest_zero 0 0 None []) 11 in
  BlockState
    {| id := header_id (hdr h);
       block_num := num;
       header := h;
       dpos_proposed_irreversible_blocknum := lib;
       dpos_irreversible_blocknum := lib;
       bft_irreversible_blocknum := bft;
       pending_schedule_lib_num := 0;
       pending_schedule_hash := digest_zero;
       pending_schedule := schedule_default;
       active_schedule := toy_schedule 0;
       blockroot_merkle := IncrementalMerkle 0 [];
       producer_to_last_produced := ∅;
       producer_to_last_implied_irb := ∅;
       block_signing_key := 11;
       confirm_count := [];
       confirmations := [] |}
    (Some (SignedBlock h [] [])) false current [7].

(** Two branches from block 1: 2a - 3a, which is current, and 2b - 3b. *)
Definition blk1 := toy_block 1 1 digest_zero true 0 0.
Definition blk2a := toy_block 2 2 (bs_id blk1) true 0 0.
Definition blk2b := toy_block 3 2 (bs_id blk1) false 0 0.
Definition blk3a := toy_block 4 3 (bs_id blk2a) true 0 0.
Definition blk3b := toy_block 5 3 (bs_id blk2b) false 0 0.
Definition blk4a := toy_block 6 4 (bs_id blk3a) false 2 0.

Definition toy_ops : list fork_op :=
  [OpMake blk1; OpSet 0%nat; OpMake blk2a; OpAddState (Some 1%nat) false;
   OpMake blk2b; OpAddState (Some 2%nat) false; OpMake blk3b; OpAddState (Some 3%nat) false;
   OpMake blk3a; OpAddState (Some 4%nat) false; OpMake blk4a].

Definition run_ops (ops : list fork_op) : fork_database := foldl (λ db op, fork_run op db) db_empty ops.
Definition toy_db : fork_database := run_ops toy_ops.

Lemma run_ops_steps ops : rtc fork_step db_empty (run_ops ops).
Proof.
  unfold run_ops. generalize db_empty. induction ops as [|op ops IH]; intros db; simpl; [done|].
  eapply rtc_l; [apply ForkStep|apply IH].
Qed.

Lemma run_ops_wf ops : db_wf (run_ops ops).
Proof.
  eapply fork_steps_wf; [apply run_ops_steps|apply db_empty_wf].
Qed.

(** Deciding properties of all indexed blocks. *)
Definition all_pairs (P : block_state → block_state → bool) (db : fork_database) : bool :=
  forallb (λ p, forallb (λ q,
    match heap db !! p, heap db !! q with Some s, Some t => P s t | _, _ => true end)
    (by_prev db)) (by_prev db).

Lemma all_pairs_spec P db p q s t :
  all_pairs P db = true → p ∈ by_prev db → q ∈ by_prev db →
  heap db !! p = Some s → heap db !! q = Some t → P s t = true.
Proof.
  unfold all_pairs. rewrite forallb_Forall, Forall_forall. intros Hall Hp Hq Hs Ht.
  specialize (Hall p Hp). rewrite forallb_Forall, Forall_forall in Hall.
  specialize (Hall q Hq). simpl in Hall. by rewrite Hs, Ht in Hall.
Qed.

Definition linkedb (s t : block_state) : bool :=
  negb (bool_decide (bs_prev s = bs_id t)) || (bs_num s =? bs_num t + 1).

Lemma linkedb_spec db : all_pairs linkedb db = true → db_linked db.
Proof.
  intros Hall p q s t Hp Hq Hs Ht He.
  pose proof (all_pairs_spec _ _ _ _ _ _ Hall Hp Hq Hs Ht) as Hl. unfold linkedb in Hl.
  rewrite bool_decide_eq_true_2 in Hl by done. simpl in Hl. lia.
Qed.

Lemma toy_db_linked : db_linked toy_db.
Proof. apply linkedb_spec. vm_compute. reflexivity. Qed.

Lemma toy_db_bft : bft_monotone toy_db.
Proof.
  intros p q s t Hp Hq Hs Ht _.
  assert (Hall : all_pairs (λ s t, bs_bft t <=? bs_bft s) toy_db = true) by (vm_compute; reflexivity).
  pose proof (all_pairs_spec _ _ _ _ _ _ Hall Hp Hq Hs Ht) as Hb. simpl in Hb. lia.
Qed.

Lemma fork_db_invariant_witness : db_wf toy_db.
Proof. exact (fork_db_invariant toy_db (run_ops_steps toy_ops)). Defined.

Lemma remove_exact_witness :
  by_prev (remove (bs_id blk2b) toy_db).1 = [0; 1; 4]%nat ∧
  ∀ p, p ∈ by_prev (remove (bs_id blk2b) toy_db).1 ↔
    p ∈ by_prev toy_db ∧ ¬ under toy_db (bs_id blk2b) p.
Proof.
  split; [vm_compute; reflexivity|].
  destruct (remove_exact toy_db (bs_id blk2b) _ _ (run_ops_wf _) (surjective_pairing _))
    as (_ & Hin & _). exact Hin.
Defined.

Lemma prune_oldest_witness :
  ∃ db', prune prune_fuel 0%nat toy_db = (db', Ok tt) ∧
    irreversible_signals db' = irreversible_signals toy_db ++ [0%nat].
Proof.
  assert (Hk : (λ s, (bs_num s, bs_id s)) <$> heap toy_db !! 0%nat = Some (1, bs_id blk1))
    by (vm_compute; reflexivity).
  apply fmap_Some in Hk as (s & Hs & Hk). injection Hk as Hnum Hid.
  destruct (prune_oldest toy_db 0%nat s 1%nat (run_ops_wf _) toy_db_linked)
    as (db' & Hrun & _ & _ & Hsig & _).
  - vm_compute. reflexivity.
  - exact Hs.
  - rewrite <-Hnum. vm_compute. reflexivity.
  - rewrite <-Hid. vm_compute. reflexivity.
  - exists db'. split; [exact Hrun|exact Hsig].
Defined.

Lemma add_selects_best_witness :
  ∃ db' hd, add_block_state (Some 5%nat) false toy_db = (db', Ok 5%nat) ∧
    fork_head db' = Some hd ∧ is_best db' hd.
Proof.
  assert (Hok : is_ok (add_block_state (Some 5%nat) false toy_db).2 = true) by (vm_compute; reflexivity).
  destruct (add_block_state (Some 5%nat) false toy_db) as [db' [p|e]] eqn:Hrun; [|discriminate Hok].
  destruct (add_selects_best toy_db 5%nat false db' p (run_ops_wf _)) as (-> & _ & _ & hd & Hhd & Hb).
  - intros q s Hq.
    assert (Hall : forallb (λ kv, bs_lib kv.2 <=? bs_num kv.2) (map_to_list (heap toy_db)) = true)
      by (vm_compute; reflexivity).
    rewrite forallb_Forall, Forall_forall in Hall. apply Z.leb_le.
    apply (Hall (q, s)). by apply elem_of_map_to_list.
  - exact Hrun.
  - exists db', hd. split; [reflexivity|]. split; [exact Hhd|exact Hb].
Defined.

Lemma bft_irreversible_propagates_witness :
  ∃ db', set_bft_irreversible (bs_id blk2a) toy_db = (db', Ok tt) ∧ db_wf db'.
Proof.
  assert (Hk : bs_num <$> heap toy_db !! 1%nat = Some 2) by (vm_compute; reflexivity).
  apply fmap_Some in Hk as (s & Hs & _).
  destruct (bft_irreversible_propagates toy_db (bs_id blk2a) 1%nat s (run_ops_wf _) toy_db_bft)
    as (db' & Hrun & Hwf & _).
  - vm_compute. reflexivity.
  - exact Hs.
  - exists db'. split; [exact Hrun|exact Hwf].
Defined.

Lemma fetch_branch_correct_witness :
  ∃ b1 b2, fetch_branch_from (bs_id blk3a) (bs_id blk2b) toy_db = (toy_db, Ok (b1, b2)).
Proof.
  destruct (fetch_branch_correct toy_db (bs_id blk3a) (bs_id blk2b) 4%nat 2%nat 1 0 1%nat 2%nat
    (run_ops_wf _) toy_db_linked) as (j1 & j2 & a' & b' & Hrun & _);
    [vm_compute; reflexivity..|]. by eexists _, _.
Defined.

(** Block 1 is on no branch of a database whose oldest block it is. *)
Lemma fetch_branch_missing_witness :
  fetch_branch_from (bs_id blk3a) (bs_id blk2b) (db_erase toy_db 1%nat) =
    (db_erase toy_db 1%nat, Throw undefined_behaviour).
Proof.
  assert (Hk : (λ s, (bs_num s, bs_prev s)) <$> heap toy_db !! 4%nat = Some (3, bs_id blk2a))
    by (vm_compute; reflexivity).
  assert (Hm : bs_num <$> heap toy_db !! 2%nat = Some 2) by (vm_compute; reflexivity).
  apply fmap_Some in Hk as (s & Hs & Hk), Hm as (t & Ht & Hm). injection Hk as Hn Hp.
  apply (fetch_branch_missing (db_erase toy_db 1%nat) _ _ 4%nat 2%nat s t).
  - apply db_erase_wf, run_ops_wf.
  - vm_compute. reflexivity.
  - vm_compute. reflexivity.
  - exact Hs.
  - exact Ht.
  - rewrite <-Hn, <-Hm. reflexivity.
  - rewrite <-Hp. vm_compute. reflexivity.
Defined.

Lemma close_open_roundtrip_witness :
  ∃ file db1 db2, close [4; 3; 2; 1; 0]%nat toy_db = (db1, Ok (Some file)) ∧
    open (Some file) db_empty = (db2, Ok tt).
Proof.
  assert (Hok : (match (close [4; 3; 2; 1; 0]%nat toy_db).2 with Ok (Some _) => true | _ => false end)
    = true) by (vm_compute; reflexivity).
  destruct (close [4; 3; 2; 1; 0]%nat toy_db) as [db1 [[file|]|e]] eqn:Hc; [|discriminate Hok..].
  destruct (close_open_roundtrip toy_db [4; 3; 2; 1; 0]%nat db1 file 3%nat (run_ops_wf _))
    as (db2 & Hopen & _).
  - assert (by_prev toy_db = [0; 1; 2; 3; 4]%nat) as -> by (vm_compute; reflexivity).
    symmetry. apply (Permutation_rev [0; 1; 2; 3; 4]%nat).
  - intros p s Hp Hs.
    assert (Hall : all_pairs (λ s _, bool_decide (bs_id s = header_id (hdr (header (bhs s))))) toy_db
      = true) by (vm_compute; reflexivity).
    pose proof (all_pairs_spec _ _ _ _ _ _ Hall Hp Hp Hs Hs) as Hb. simpl in Hb.
    by apply bool_decide_eq_true_1 in Hb.
  - vm_compute. reflexivity.
  - assert (by_prev toy_db = [0; 1; 2; 3; 4]%nat) as -> by (vm_compute; reflexivity).
    do 3 right. left.
  - exact Hc.
  - exists file, db1, db2. split; [reflexivity|exact Hopen].
Defined.

Lemma fork_db_terminates_witness : (remove (bs_id blk2b) toy_db).2 ≠ Throw out_of_fuel.
Proof. exact (proj1 (fork_db_terminates toy_db (run_ops_wf _)) (bs_id blk2b)). Defined.

Lemma current_chain_lookup_witness :
  (get_block_in_current_chain_by_num 3 toy_db).2 = Ok (Some 4%nat) ∧
  match get_block_in_current_chain_by_num 3 toy_db with
  | (_, Ok (Some p)) => p ∈ by_prev toy_db | _ => True end.
Proof.
  split; [vm_compute; reflexivity|].
  pose proof (current_chain_lookup toy_db 3 (run_ops_wf _)) as H.
  destruct (get_block_in_current_chain_by_num 3 toy_db) as [db' [[p|]|e]]; [|exact I..].
  destruct H as (_ & Hp & _). exact Hp.
Defined.

Lemma add_refuses_witness :
  add_block_state (Some 1%nat) true toy_db = (toy_db, Throw fork_database_exception).
Proof.
  assert (Hk : (λ s, (bs_id s, (λ b, previous (hdr (sb_header b))) <$> block s)) <$> heap toy_db !! 1%nat
    = Some (bs_id blk2a, Some (bs_id blk1))) by (vm_compute; reflexivity).
  apply fmap_Some in Hk as (s & Hs & Hk). injection Hk as Hid Hb.
  symmetry in Hb. apply fmap_Some in Hb as (b & Hb & Hp).
  destruct (add_refuses toy_db 1%nat s 3%nat b true Hs Hb) as (_ & _ & _ & Hdup).
  apply Hdup.
  - vm_compute. reflexivity.
  - rewrite <-Hp. exists 0%nat. vm_compute. reflexivity.
  - rewrite <-Hid. exists 1%nat. vm_compute. reflexivity.
Defined.

(** Two competing blocks 2 with one child each, none of them marked as current: the child of the
    later one comes first in by_block_num. *)
Definition dangling_ops : list fork_op :=
  [OpMake blk1; OpSet 0%nat; OpMake (toy_block 2 2 (bs_id blk1) true 0 0); OpAddState (Some 1%nat) false;
   OpMake blk2b; OpAddState (Some 2%nat) false; OpMake blk3b; OpAddState (Some 3%nat) false;
   OpMake (toy_block 4 3 (bs_id blk2a) false 0 0); OpAddState (Some 4%nat) false; OpPrune 0%nat].

(** Pruning uses an erased iterator when the block after the last competing one builds on it:
    the loop of [prune] advances before it removes a branch, and the removal takes the block that
    the iterator points at. *)
Theorem prune_dangling_iterator :
  (prune prune_fuel 1%nat (run_ops dangling_ops)).2 = Throw undefined_behaviour ∧
  by_prev (prune prune_fuel 1%nat (run_ops dangling_ops)).1 = [4%nat].
Proof. split; vm_compute; reflexivity. Qed.

End witnesses.
