(* ===== verification/Resources.v ===== *)
(** * Resource limits

    Models resource_limits.{hpp,cpp} and resource_limits_private.hpp of libraries/chain: the
    exponential moving average that accounts for CPU and NET usage, the elastic block limits, the
    RAM counters, and the account limits that are set as pending and folded into the totals at
    the end of a block.  The chainbase tables are finite maps over their unique keys; an operation
    that throws leaves no trace, since the caller's undo session discards it. *)

From stdpp Require Import sorting.
From S2P Require Import Prelude BlockHeader.

(** ** Configuration constants (config.hpp) *)
Definition percent_100 : Z := 10000.
Definition percent_1 : Z := 100.
Definition account_cpu_usage_average_window_ms : Z := 24 * 60 * 60 * 1000.
Definition account_net_usage_average_window_ms : Z := 24 * 60 * 60 * 1000.
Definition block_cpu_usage_average_window_ms : Z := 60 * 1000.
Definition block_size_average_window_ms : Z := 60 * 1000.
Definition rate_limiting_precision : Z := 1000 * 1000.
Definition default_max_block_net_usage : Z := 1024 * 1024.
Definition default_target_block_net_usage_pct : Z := 10 * percent_1.
Definition default_max_block_cpu_usage : Z := 200000.
Definition default_target_block_cpu_usage_pct : Z := 10 * percent_1.

Definition EOS_PERCENT (value percentage : Z) : Z := u64 (value * percentage) / percent_100.

(** ** impl: ratios, rounding and casts *)
Record ratio := Ratio { numerator : Z; denominator : Z }.

(** [operator*( uint64_t, ratio )]; dividing by a zero denominator has no behaviour. *)
Definition ratio_mul (value : Z) (r : ratio) : result Z :=
  _ ← EOS_ASSERT ((numerator r =? 0) || (value <=? UINT64_MAX / numerator r))
        rate_limiting_state_inconsistent;
  _ ← EOS_ASSERT (negb (denominator r =? 0)) undefined_behaviour;
  mret (u64 (value * numerator r) / denominator r).

Definition integer_divide_ceil (num den : Z) : Z :=
  num / den + (if 0 <? num mod den then 1 else 0).

(** [downgrade_cast<uint64_t>] and [downgrade_cast<int64_t>] of a uint128. *)
Definition downgrade_cast_u64 (val : Z) : result Z :=
  _ ← EOS_ASSERT ((0 <=? val) && (val <=? UINT64_MAX)) rate_limiting_state_inconsistent;
  mret val.
Definition downgrade_cast_i64 (val : Z) : result Z :=
  _ ← EOS_ASSERT ((0 <=? val) && (val <=? INT64_MAX)) rate_limiting_state_inconsistent;
  mret val.

(** ** exponential_moving_average_accumulator *)
Record usage_accumulator := UsageAccumulator {
  last_ordinal : Z;
  value_ex : Z;
  consumed : Z;
}.

Definition accumulator_default : usage_accumulator := UsageAccumulator 0 0 0.
Definition max_raw_value : Z := UINT64_MAX / rate_limiting_precision.

Definition average (a : usage_accumulator) : Z :=
  integer_divide_ceil (value_ex a) rate_limiting_precision.

Definition accumulator_add (a : usage_accumulator) (units ordinal window_size : Z)
    : result usage_accumulator :=
  _ ← EOS_ASSERT (units <=? max_raw_value) rate_limiting_state_inconsistent;
  _ ← EOS_ASSERT (units <=? UINT64_MAX - consumed a) rate_limiting_state_inconsistent;
  _ ← EOS_ASSERT (negb (window_size =? 0)) undefined_behaviour;
  value_ex_contrib ← downgrade_cast_u64
    (integer_divide_ceil (u128 (units * rate_limiting_precision)) window_size);
  _ ← EOS_ASSERT (value_ex_contrib <=? UINT64_MAX - value_ex a) rate_limiting_state_inconsistent;
  a ← (if negb (last_ordinal a =? ordinal) then
         _ ← EOS_ASSERT (last_ordinal a <? ordinal) resource_limit_exception;
         v ← (if ordinal <? last_ordinal a + window_size then
                let delta := u32 (ordinal - last_ordinal a) in
                ratio_mul (value_ex a) (Ratio (u64 (window_size - delta)) window_size)
              else mret 0);
         let a := UsageAccumulator ordinal v (consumed a) in
         mret (UsageAccumulator ordinal v (average a))
       else mret a);
  mret (UsageAccumulator (last_ordinal a) (u64 (value_ex a + value_ex_contrib))
          (u64 (consumed a + units))).

(** ** Elastic limits *)
Record elastic_limit_parameters := ElasticLimitParameters {
  target : Z;
  max : Z;
  periods : Z;
  max_multiplier : Z;
  contract_rate : ratio;
  expand_rate : ratio;
}.

Definition validate (p : elastic_limit_parameters) : result unit :=
  _ ← EOS_ASSERT (0 <? periods p) resource_limit_exception;
  _ ← EOS_ASSERT (0 <? denominator (contract_rate p)) resource_limit_exception;
  EOS_ASSERT (0 <? denominator (expand_rate p)) resource_limit_exception.

Definition update_elastic_limit (current_limit average_usage : Z) (params : elastic_limit_parameters)
    : result Z :=
  r ← (if target params <? average_usage
       then ratio_mul current_limit (contract_rate params)
       else ratio_mul current_limit (expand_rate params));
  mret (Z.min (Z.max r (max params)) (u64 (max params * max_multiplier params))).

(** ** The tables *)
Record resource_limits_object := ResourceLimits {
  net_weight : Z;
  cpu_weight : Z;
  ram_bytes : Z;
}.
Definition limits_default : resource_limits_object := ResourceLimits (-1) (-1) (-1).

Record resource_usage_object := ResourceUsage {
  net_usage : usage_accumulator;
  cpu_usage : usage_accumulator;
  ram_usage : Z;
}.
Definition usage_default : resource_usage_object :=
  ResourceUsage accumulator_default accumulator_default 0.

Record resource_limits_config_object := ResourceConfig {
  cpu_limit_parameters : elastic_limit_parameters;
  net_limit_parameters : elastic_limit_parameters;
  account_cpu_usage_average_window : Z;
  account_net_usage_average_window : Z;
}.

Definition config_default : resource_limits_config_object := {|
  cpu_limit_parameters := ElasticLimitParameters
    (EOS_PERCENT default_max_block_cpu_usage default_target_block_cpu_usage_pct)
    default_max_block_cpu_usage (block_cpu_usage_average_window_ms / block_interval_ms) 1000
    (Ratio 99 100) (Ratio 1000 999);
  net_limit_parameters := ElasticLimitParameters
    (EOS_PERCENT default_max_block_net_usage default_target_block_net_usage_pct)
    default_max_block_net_usage (block_size_average_window_ms / block_interval_ms) 1000
    (Ratio 99 100) (Ratio 1000 999);
  account_cpu_usage_average_window := account_cpu_usage_average_window_ms / block_interval_ms;
  account_net_usage_average_window := account_net_usage_average_window_ms / block_interval_ms;
|}.

Record resource_limits_state_object := ResourceState {
  average_block_net_usage : usage_accumulator;
  average_block_cpu_usage : usage_accumulator;
  pending_net_usage : Z;
  pending_cpu_usage : Z;
  total_net_weight : Z;
  total_cpu_weight : Z;
  total_ram_bytes : Z;
  virtual_net_limit : Z;
  virtual_cpu_limit : Z;
}.

(** The rows: limits by (pending, owner), usage by owner, and the two single rows. *)
Record resource_db := ResourceDb {
  limits_index : gmap (bool * account_name) resource_limits_object;
  usage_index : gmap account_name resource_usage_object;
  rl_config : resource_limits_config_object;
  rl_state : resource_limits_state_object;
}.

Definition with_limits (db : resource_db) (l : gmap (bool * account_name) resource_limits_object) :=
  ResourceDb l (usage_index db) (rl_config db) (rl_state db).
Definition with_usage (db : resource_db) (u : gmap account_name resource_usage_object) :=
  ResourceDb (limits_index db) u (rl_config db) (rl_state db).
Definition with_config (db : resource_db) (c : resource_limits_config_object) :=
  ResourceDb (limits_index db) (usage_index db) c (rl_state db).
Definition with_state (db : resource_db) (s : resource_limits_state_object) :=
  ResourceDb (limits_index db) (usage_index db) (rl_config db) s.

Definition set_totals (s : resource_limits_state_object) (ram cpu net : Z) :=
  ResourceState (average_block_net_usage s) (average_block_cpu_usage s) (pending_net_usage s)
    (pending_cpu_usage s) net cpu ram (virtual_net_limit s) (virtual_cpu_limit s).
Definition set_pending_usage (s : resource_limits_state_object) (cpu net : Z) :=
  ResourceState (average_block_net_usage s) (average_block_cpu_usage s) net cpu
    (total_net_weight s) (total_cpu_weight s) (total_ram_bytes s) (virtual_net_limit s)
    (virtual_cpu_limit s).
Definition set_cpu_block (s : resource_limits_state_object) (avg : usage_accumulator) (virt : Z) :=
  ResourceState (average_block_net_usage s) avg (pending_net_usage s) 0
    (total_net_weight s) (total_cpu_weight s) (total_ram_bytes s) (virtual_net_limit s) virt.
Definition set_net_block (s : resource_limits_state_object) (avg : usage_accumulator) (virt : Z) :=
  ResourceState avg (average_block_cpu_usage s) 0 (pending_cpu_usage s)
    (total_net_weight s) (total_cpu_weight s) (total_ram_bytes s) virt (virtual_cpu_limit s).

(** ** resource_limits_manager *)
Definition initialize_database : resource_db :=
  let config := config_default in
  ResourceDb ∅ ∅ config
    (ResourceState accumulator_default accumulator_default 0 0 0 0 0
       (max (net_limit_parameters config)) (max (cpu_limit_parameters config))).

Definition initialize_account (db : resource_db) (account : account_name) : result resource_db :=
  _ ← EOS_ASSERT (bool_decide (limits_index db !! (false, account) = None)) db_uniqueness_violation;
  let db := with_limits db (<[(false, account) := limits_default]> (limits_index db)) in
  _ ← EOS_ASSERT (bool_decide (usage_index db !! account = None)) db_uniqueness_violation;
  mret (with_usage db (<[account := usage_default]> (usage_index db))).

Definition set_block_parameters (db : resource_db) (cpu net : elastic_limit_parameters)
    : result resource_db :=
  _ ← validate cpu;
  _ ← validate net;
  let c := rl_config db in
  mret (with_config db (ResourceConfig cpu net (account_cpu_usage_average_window c)
    (account_net_usage_average_window c))).

Definition get_usage (db : resource_db) (a : account_name) : result resource_usage_object :=
  of_option (usage_index db !! a) db_not_found.

(** The body of the two billing lambdas. *)
Definition bill_usage (c : resource_limits_config_object) (bu : resource_usage_object)
    (cpu net time_slot : Z) : result resource_usage_object :=
  n ← accumulator_add (net_usage bu) net time_slot (account_net_usage_average_window c);
  p ← accumulator_add (cpu_usage bu) cpu time_slot (account_cpu_usage_average_window c);
  mret (ResourceUsage n p (ram_usage bu)).

Fixpoint update_account_usage (db : resource_db) (accounts : list account_name) (time_slot : Z)
    : result resource_db :=
  match accounts with
  | [] => mret db
  | a :: accounts =>
      usage ← get_usage db a;
      bu ← bill_usage (rl_config db) usage 0 0 time_slot;
      update_account_usage (with_usage db (<[a := bu]> (usage_index db))) accounts time_slot
  end.

(** (ram_bytes, net_weight, cpu_weight) *)
Definition get_account_limits (db : resource_db) (account : account_name) : result (Z * Z * Z) :=
  match limits_index db !! (true, account) with
  | Some b => mret (ram_bytes b, net_weight b, cpu_weight b)
  | None =>
      b ← of_option (limits_index db !! (false, account)) db_not_found;
      mret (ram_bytes b, net_weight b, cpu_weight b)
  end.

(** What an account may use in a window, and what it used, in uint128 arithmetic. *)
Definition max_user_use_in_window (virtual_limit window weight total : Z) : Z :=
  u128 (u128 (virtual_limit * window) * weight) / total.
Definition used_in_window (a : usage_accumulator) (window : Z) : Z :=
  u128 (value_ex a * window) / rate_limiting_precision.

Definition bill_account (db : resource_db) (a : account_name) (cpu net time_slot : Z)
    : result resource_db :=
  let c := rl_config db in
  let s := rl_state db in
  usage ← get_usage db a;
  '(_, nw, cw) ← get_account_limits db a;
  bu ← bill_usage c usage cpu net time_slot;
  let db := with_usage db (<[a := bu]> (usage_index db)) in
  _ ← (if (0 <=? cw) && (0 <? total_cpu_weight s) then
         let window := account_cpu_usage_average_window c in
         EOS_ASSERT (used_in_window (cpu_usage bu) window <=?
                     max_user_use_in_window (virtual_cpu_limit s) window cw (total_cpu_weight s))
           tx_cpu_usage_exceeded
       else mret tt);
  _ ← (if (0 <=? nw) && (0 <? total_net_weight s) then
         let window := account_net_usage_average_window c in
         EOS_ASSERT (used_in_window (net_usage bu) window <=?
                     max_user_use_in_window (virtual_net_limit s) window nw (total_net_weight s))
           tx_net_usage_exceeded
       else mret tt);
  mret db.

Fixpoint bill_accounts (db : resource_db) (accounts : list account_name) (cpu net time_slot : Z)
    : result resource_db :=
  match accounts with
  | [] => mret db
  | a :: accounts =>
      db ← bill_account db a cpu net time_slot;
      bill_accounts db accounts cpu net time_slot
  end.

Definition add_transaction_usage (db : resource_db) (accounts : list account_name)
    (cpu net time_slot : Z) : result resource_db :=
  db ← bill_accounts db accounts cpu net time_slot;
  let s := rl_state db in
  let s := set_pending_usage s (u64 (pending_cpu_usage s + cpu)) (u64 (pending_net_usage s + net)) in
  _ ← EOS_ASSERT (pending_cpu_usage s <=? max (cpu_limit_parameters (rl_config db)))
        block_resource_exhausted;
  _ ← EOS_ASSERT (pending_net_usage s <=? max (net_limit_parameters (rl_config db)))
        block_resource_exhausted;
  mret (with_state db s).

Definition add_pending_ram_usage (db : resource_db) (account : account_name) (ram_delta : Z)
    : result resource_db :=
  if ram_delta =? 0 then mret db
  else
    usage ← get_usage db account;
    _ ← EOS_ASSERT ((ram_delta <=? 0) || (u64 ram_delta <=? UINT64_MAX - ram_usage usage))
          transaction_exception;
    _ ← EOS_ASSERT ((0 <=? ram_delta) || (u64 (- ram_delta) <=? ram_usage usage))
          transaction_exception;
    let u := ResourceUsage (net_usage usage) (cpu_usage usage) (u64 (ram_usage usage + ram_delta)) in
    mret (with_usage db (<[account := u]> (usage_index db))).

Definition verify_account_ram_usage (db : resource_db) (account : account_name) : result unit :=
  '(ram, _, _) ← get_account_limits db account;
  usage ← get_usage db account;
  if 0 <=? ram then EOS_ASSERT (ram_usage usage <=? ram) ram_usage_exceeded else mret tt.

Definition get_account_ram_usage (db : resource_db) (account : account_name) : result Z :=
  usage ← get_usage db account; mret (i64 (ram_usage usage)).

(** Returns whether the RAM limit became more restrictive. *)
Definition set_account_limits (db : resource_db) (account : account_name) (ram net cpu : Z)
    : result (resource_db * bool) :=
  limits ← (match limits_index db !! (true, account) with
            | Some l => mret l
            | None => of_option (limits_index db !! (false, account)) db_not_found
            end);
  let decreased_limit :=
    if 0 <=? ram then (ram_bytes limits <? 0) || (ram <? ram_bytes limits) else false in
  mret (with_limits db (<[(true, account) := ResourceLimits net cpu ram]> (limits_index db)),
        decreased_limit).

(** The lambda [update_state_and_value]: the new total; the value becomes the pending one. *)
Definition update_state_and_value (total value pending_value : Z) : result Z :=
  total ← (if 0 <? value then
             _ ← EOS_ASSERT (value <=? total) rate_limiting_state_inconsistent;
             mret (u64 (total - value))
           else mret total);
  if 0 <? pending_value then
    _ ← EOS_ASSERT (pending_value <=? UINT64_MAX - total) rate_limiting_state_inconsistent;
    mret (u64 (total + pending_value))
  else mret total.

(** [by_owner_index.lower_bound( true )]: the pending row with the least owner. *)
Definition pending_owners (db : resource_db) : list account_name :=
  merge_sort Z.le (snd <$> filter (λ k, k.1 = true) (map_to_list (limits_index db)).*1).

Definition process_one_limit (db : resource_db) (owner : account_name) : result resource_db :=
  pending ← of_option (limits_index db !! (true, owner)) undefined_behaviour;
  actual ← of_option (limits_index db !! (false, owner)) db_not_found;
  let s := rl_state db in
  ram ← update_state_and_value (total_ram_bytes s) (ram_bytes actual) (ram_bytes pending);
  cpu ← update_state_and_value (total_cpu_weight s) (cpu_weight actual) (cpu_weight pending);
  net ← update_state_and_value (total_net_weight s) (net_weight actual) (net_weight pending);
  let db := with_limits db (<[(false, owner) := ResourceLimits (net_weight pending)
              (cpu_weight pending) (ram_bytes pending)]> (limits_index db)) in
  let db := with_limits db (delete (true, owner) (limits_index db)) in
  mret (with_state db (set_totals s ram cpu net)).

Fixpoint process_limits_while (fuel : nat) (db : resource_db) : result resource_db :=
  match fuel with
  | O => Throw out_of_fuel
  | S fuel =>
      match head (pending_owners db) with
      | None => mret db
      | Some owner => db ← process_one_limit db owner; process_limits_while fuel db
      end
  end.

(** Every round of the loop removes a pending row. *)
Definition process_account_limit_updates (db : resource_db) : result resource_db :=
  process_limits_while (S (length (pending_owners db))) db.

Definition update_virtual_cpu_limit (s : resource_limits_state_object) (avg : usage_accumulator)
    (c : resource_limits_config_object) : result Z :=
  update_elastic_limit (virtual_cpu_limit s) (average avg) (cpu_limit_parameters c).
Definition update_virtual_net_limit (s : resource_limits_state_object) (avg : usage_accumulator)
    (c : resource_limits_config_object) : result Z :=
  update_elastic_limit (virtual_net_limit s) (average avg) (net_limit_parameters c).

Definition process_block_usage (db : resource_db) (block_num : Z) : result resource_db :=
  let c := rl_config db in
  let s := rl_state db in
  avg ← accumulator_add (average_block_cpu_usage s) (pending_cpu_usage s) block_num
          (periods (cpu_limit_parameters c));
  virt ← update_virtual_cpu_limit s avg c;
  let s := set_cpu_block s avg virt in
  avg ← accumulator_add (average_block_net_usage s) (pending_net_usage s) block_num
          (periods (net_limit_parameters c));
  virt ← update_virtual_net_limit s avg c;
  mret (with_state db (set_net_block s avg virt)).

Definition get_virtual_block_cpu_limit (db : resource_db) : Z := virtual_cpu_limit (rl_state db).
Definition get_virtual_block_net_limit (db : resource_db) : Z := virtual_net_limit (rl_state db).
Definition get_block_cpu_limit (db : resource_db) : Z :=
  u64 (max (cpu_limit_parameters (rl_config db)) - pending_cpu_usage (rl_state db)).
Definition get_block_net_limit (db : resource_db) : Z :=
  u64 (max (net_limit_parameters (rl_config db)) - pending_net_usage (rl_state db)).

Record account_resource_limit := AccountResourceLimit {
  arl_used : Z;
  arl_available : Z;
  arl_max : Z;
}.

(** The common part of the two accessors. *)
Definition resource_limit_ex (usage : usage_accumulator) (window capacity weight total : Z)
    : result account_resource_limit :=
  let max_use := max_user_use_in_window capacity window weight total in
  let used := integer_divide_ceil (u128 (value_ex usage * window)) rate_limiting_precision in
  available ← (if max_use <=? used then mret 0 else downgrade_cast_i64 (max_use - used));
  used ← downgrade_cast_i64 used;
  max_use ← downgrade_cast_i64 max_use;
  mret (AccountResourceLimit used available max_use).

Definition get_account_cpu_limit_ex (db : resource_db) (name : account_name) (elastic : bool)
    : result account_resource_limit :=
  let s := rl_state db in
  let c := rl_config db in
  usage ← get_usage db name;
  '(_, _, cw) ← get_account_limits db name;
  if (cw <? 0) || (total_cpu_weight s =? 0) then mret (AccountResourceLimit (-1) (-1) (-1))
  else
    resource_limit_ex (cpu_usage usage) (account_cpu_usage_average_window c)
      (if elastic then virtual_cpu_limit s else max (cpu_limit_parameters c)) cw (total_cpu_weight s).

Definition get_account_net_limit_ex (db : resource_db) (name : account_name) (elastic : bool)
    : result account_resource_limit :=
  let s := rl_state db in
  let c := rl_config db in
  usage ← get_usage db name;
  '(_, nw, _) ← get_account_limits db name;
  if (nw <? 0) || (total_net_weight s =? 0) then mret (AccountResourceLimit (-1) (-1) (-1))
  else
    resource_limit_ex (net_usage usage) (account_net_usage_average_window c)
      (if elastic then virtual_net_limit s else max (net_limit_parameters c)) nw (total_net_weight s).

Definition get_account_cpu_limit (db : resource_db) (name : account_name) (elastic : bool) : result Z :=
  arl ← get_account_cpu_limit_ex db name elastic; mret (arl_available arl).
Definition get_account_net_limit (db : resource_db) (name : account_name) (elastic : bool) : result Z :=
  arl ← get_account_net_limit_ex db name elastic; mret (arl_available arl).

(** ** Rounding and the accumulator *)

(** Values of the machine widths of the accumulator's fields. *)
Record acc_wf (a : usage_accumulator) : Prop := {
  aw_ordinal : in_u32 (last_ordinal a);
  aw_value : in_u64 (value_ex a);
  aw_consumed : in_u64 (consumed a);
}.

Lemma divide_ceil_spec n d : 0 < d → let c := integer_divide_ceil n d in n <= d * c < n + d.
Proof.
  intros Hd. unfold integer_divide_ceil.
  pose proof (Z.div_mod n d ltac:(lia)). pose proof (Z.mod_pos_bound n d Hd).
  destruct (0 <? n mod d) eqn:E; reflect_bools; simpl; nia.
Qed.

Lemma divide_ceil_bounds n d : 0 <= n → 0 < d → 0 <= integer_divide_ceil n d <= n.
Proof. intros Hn Hd. pose proof (divide_ceil_spec n d Hd). simpl in *. nia. Qed.

(** What is left of the value after [ordinal - last_ordinal] periods. *)
Definition decayed (a : usage_accumulator) (ordinal window : Z) : Z :=
  if ordinal =? last_ordinal a then value_ex a
  else if ordinal <? last_ordinal a + window
       then value_ex a * (window - (ordinal - last_ordinal a)) / window
       else 0.

Lemma decayed_bounds a ordinal window :
  acc_wf a → 0 < window → last_ordinal a <= ordinal → 0 <= decayed a ordinal window <= value_ex a.
Proof.
  intros [_ [Hv _] _] Hw Ho. unfold decayed.
  destruct (ordinal =? last_ordinal a) eqn:E1; [lia|].
  destruct (ordinal <? last_ordinal a + window) eqn:E2; reflect_bools; [|lia].
  split; [apply Z.div_pos; nia|]. apply Z.div_le_upper_bound; nia.
Qed.

Lemma max_raw_value_mul units : 0 <= units <= max_raw_value → 0 <= units * rate_limiting_precision < 2 ^ 64.
Proof. change max_raw_value with 18446744073709. change rate_limiting_precision with 1000000. lia. Qed.

Lemma accumulator_add_inv a units ordinal window a' :
  acc_wf a → 0 <= units → in_u32 ordinal → 0 < window < 2 ^ 32 →
  accumulator_add a units ordinal window = Ok a' →
  last_ordinal a <= ordinal ∧ units <= max_raw_value ∧
  last_ordinal a' = ordinal ∧
  value_ex a' = decayed a ordinal window +
    integer_divide_ceil (units * rate_limiting_precision) window ∧
  consumed a' = (if ordinal =? last_ordinal a then consumed a
                 else integer_divide_ceil (decayed a ordinal window) rate_limiting_precision) + units ∧
  value_ex a' <= UINT64_MAX ∧ consumed a' <= UINT64_MAX.
Proof.
  intros Hwf Hu [Ho1 Ho2] Hw Hadd. pose proof Hwf as [[Hl1 Hl2] [Hv1 Hv2] [Hc1 Hc2]].
  unfold accumulator_add in Hadd. inv_ok. unfold downgrade_cast_u64 in *. inv_ok. reflect_bools.
  pose proof (max_raw_value_mul units ltac:(lia)) as Hp. rewrite u128_small in * by lia.
  pose proof (divide_ceil_bounds (units * rate_limiting_precision) window ltac:(lia) ltac:(lia)) as Hcb.
  set (contrib := integer_divide_ceil (units * rate_limiting_precision) window) in *.
  destruct (negb (last_ordinal a =? ordinal)) eqn:Hne; reflect_bools.
  - inv_ok. reflect_bools.
    match goal with H : (if ordinal <? _ then _ else _) = Ok ?x |- _ => rename H into Hvv, x into v end.
    assert (Hdec : v = decayed a ordinal window).
    { unfold decayed. destruct (ordinal =? last_ordinal a) eqn:E; reflect_bools; [lia|].
      destruct (ordinal <? last_ordinal a + window) eqn:E2; [|by inv_ok]. reflect_bools.
      unfold ratio_mul in Hvv. inv_ok. reflect_bools. simpl in *.
      rewrite u32_small in * by lia. rewrite (u64_small (window - _)) in * by lia.
      match goal with H : _ || _ = true |- _ => apply orb_true_iff in H as [Hle|Hle] end;
        reflect_bools; [lia|].
      rewrite u64_small; [done|]. split; [nia|].
      pose proof (Z.mul_div_le UINT64_MAX (window - (ordinal - last_ordinal a)) ltac:(lia)).
      unfold UINT64_MAX in *. nia. }
    subst v. pose proof (decayed_bounds a ordinal window Hwf ltac:(lia) ltac:(lia)) as Hd.
    unfold average. simpl.
    pose proof (divide_ceil_spec (decayed a ordinal window) rate_limiting_precision ltac:(done)) as Hcs.
    change rate_limiting_precision with 1000000 in *. change max_raw_value with 18446744073709 in *.
    unfold UINT64_MAX in *. simpl in Hcs.
    destruct (ordinal =? last_ordinal a) eqn:E; reflect_bools; [lia|].
    rewrite !u64_small by lia. lia.
  - inv_ok. rewrite Z.eqb_refl. unfold decayed. rewrite Z.eqb_refl. simpl.
    unfold UINT64_MAX in *. rewrite !u64_small by lia. lia.
Qed.

Lemma accumulator_add_wf a units ordinal window a' :
  acc_wf a → 0 <= units → in_u32 ordinal → 0 < window < 2 ^ 32 →
  accumulator_add a units ordinal window = Ok a' → acc_wf a'.
Proof.
  intros Hwf Hu Ho Hw Hadd.
  destruct (accumulator_add_inv a units ordinal window a') as (Hle & Hmax & Hl & Hv & Hc & Hvm & Hcm);
    try done.
  pose proof (decayed_bounds a ordinal window Hwf ltac:(lia) Hle) as Hd.
  pose proof (divide_ceil_bounds (decayed a ordinal window) rate_limiting_precision ltac:(lia) ltac:(done)).
  pose proof (divide_ceil_bounds (units * rate_limiting_precision) window ltac:(unfold rate_limiting_precision; lia) ltac:(lia)).
  pose proof (aw_consumed _ Hwf) as [? ?]. unfold UINT64_MAX in *.
  split; rewrite ?Hl; [done|unfold in_u64; lia|].
  unfold in_u64. destruct (ordinal =? last_ordinal a); lia.
Qed.

(** ** Totals of the account limits *)

(** The contribution of a row to a total: pending rows do not count, nor do unlimited ones. *)
Definition active_part (f : resource_limits_object → Z) (k : bool * account_name)
    (l : resource_limits_object) : Z :=
  if k.1 then 0 else Z.max 0 (f l).
Definition total_of (f : resource_limits_object → Z) (db : resource_db) : Z :=
  msum (active_part f) (limits_index db).

(** The contribution of all rows, pending or not. *)
Definition gross_part (f : resource_limits_object → Z) (k : bool * account_name)
    (l : resource_limits_object) : Z := Z.max 0 (f l).
Definition gross_of (f : resource_limits_object → Z) (db : resource_db) : Z :=
  msum (gross_part f) (limits_index db).

(** Rows are of machine width. *)
Record usage_wf (u : resource_usage_object) : Prop := {
  uw_net : acc_wf (net_usage u);
  uw_cpu : acc_wf (cpu_usage u);
  uw_ram : in_u64 (ram_usage u);
}.

(** The invariant of the tables: the totals are the sums of the active limits, a pending limit
    belongs to a known account, accounts have both rows, and counters are of machine width. *)
Record resource_inv (db : resource_db) : Prop := {
  ri_ram : total_ram_bytes (rl_state db) = total_of ram_bytes db;
  ri_cpu : total_cpu_weight (rl_state db) = total_of cpu_weight db;
  ri_net : total_net_weight (rl_state db) = total_of net_weight db;
  ri_totals : in_u64 (total_of ram_bytes db) ∧ in_u64 (total_of cpu_weight db) ∧
    in_u64 (total_of net_weight db);
  ri_pending : ∀ a, is_Some (limits_index db !! (true, a)) → is_Some (limits_index db !! (false, a));
  ri_usage : ∀ a, is_Some (limits_index db !! (false, a)) ↔ is_Some (usage_index db !! a);
  ri_usage_wf : map_Forall (λ _ u, usage_wf u) (usage_index db);
  ri_blocks : acc_wf (average_block_cpu_usage (rl_state db)) ∧
    acc_wf (average_block_net_usage (rl_state db)) ∧
    in_u64 (pending_cpu_usage (rl_state db)) ∧ in_u64 (pending_net_usage (rl_state db));
  ri_windows : 0 < account_cpu_usage_average_window (rl_config db) < 2 ^ 32 ∧
    0 < account_net_usage_average_window (rl_config db) < 2 ^ 32;
  ri_periods : 0 < periods (cpu_limit_parameters (rl_config db)) < 2 ^ 32 ∧
    0 < periods (net_limit_parameters (rl_config db)) < 2 ^ 32;
}.

Lemma active_part_nonneg f k l : 0 <= active_part f k l.
Proof. unfold active_part. destruct k.1; lia. Qed.

Lemma total_ge f db a l :
  limits_index db !! (false, a) = Some l → Z.max 0 (f l) <= total_of f db.
Proof.
  intros Hl. apply (msum_ge (active_part f) _ (false, a) l); [apply active_part_nonneg|done].
Qed.

Lemma total_nonneg f db : 0 <= total_of f db.
Proof. apply msum_nonneg, active_part_nonneg. Qed.

Lemma total_le_gross f db : total_of f db <= gross_of f db.
Proof. apply msum_le. intros k l _. unfold active_part, gross_part. destruct k.1; lia. Qed.

Lemma update_state_and_value_ok total value pending :
  in_u64 total → Z.max 0 value <= total →
  update_state_and_value total value pending =
    let new := total - Z.max 0 value + Z.max 0 pending in
    if new <=? UINT64_MAX then Ok new else Throw rate_limiting_state_inconsistent.
Proof.
  intros [Ht1 Ht2] Hv. unfold update_state_and_value. cbv zeta.
  assert (Hrev : (if 0 <? value then _ ← EOS_ASSERT (value <=? total) rate_limiting_state_inconsistent;
                  mret (u64 (total - value)) else mret total) = Ok (total - Z.max 0 value)).
  { destruct (0 <? value) eqn:E; reflect_bools; [|rewrite Z.max_l by lia; by rewrite Z.sub_0_r].
    rewrite (proj2 (Z.leb_le value total)) by lia. simpl. unfold mret, result_ret.
    rewrite u64_small by lia. by rewrite Z.max_r by lia. }
  rewrite Hrev. simpl.
  destruct (0 <? pending) eqn:E; reflect_bools.
  - rewrite (Z.max_r 0 pending) by lia. unfold UINT64_MAX.
    destruct (total - Z.max 0 value + pending <=? 2 ^ 64 - 1) eqn:E2; reflect_bools.
    + rewrite (proj2 (Z.leb_le pending _)) by lia. simpl. unfold mret, result_ret.
      by rewrite u64_small by lia.
    + by rewrite (proj2 (Z.leb_gt pending _)) by lia.
  - rewrite (Z.max_l 0 pending) by lia. rewrite Z.add_0_r.
    rewrite (proj2 (Z.leb_le _ UINT64_MAX)); [done|]. unfold UINT64_MAX. lia.
Qed.

(** ** Folding pending limits *)

Lemma pending_owners_elem db a :
  a ∈ pending_owners db ↔ is_Some (limits_index db !! (true, a)).
Proof.
  unfold pending_owners. rewrite merge_sort_Permutation, list_elem_of_fmap. split.
  - intros ([b a'] & -> & [Hb Hin]%list_elem_of_filter). simpl in *. subst b.
    apply list_elem_of_fmap in Hin as ([k l] & Hk & Hin). simpl in Hk. subst k.
    apply elem_of_map_to_list in Hin. by eexists.
  - intros [l Hl]. exists (true, a). split; [done|]. apply list_elem_of_filter. split; [done|].
    apply list_elem_of_fmap. exists ((true, a), l). split; [done|]. by apply elem_of_map_to_list.
Qed.

Lemma pending_owners_nodup db : NoDup (pending_owners db).
Proof.
  unfold pending_owners. rewrite merge_sort_Permutation. apply NoDup_fmap_2_strong.
  - intros [b a] [b' a'] [Hb _]%list_elem_of_filter [Hb' _]%list_elem_of_filter Ha.
    simpl in *. congruence.
  - apply NoDup_filter, NoDup_fst_map_to_list.
Qed.

(** The database after a pending limit of [owner] replaced the active one. *)
Definition folded (db : resource_db) (owner : account_name) (actual pending : resource_limits_object)
    : resource_db :=
  let new (f : resource_limits_object → Z) (g : Z) := g - Z.max 0 (f actual) + Z.max 0 (f pending) in
  ResourceDb (delete (true, owner) (<[(false, owner) := ResourceLimits (net_weight pending)
      (cpu_weight pending) (ram_bytes pending)]> (limits_index db)))
    (usage_index db) (rl_config db)
    (set_totals (rl_state db) (new ram_bytes (total_ram_bytes (rl_state db)))
       (new cpu_weight (total_cpu_weight (rl_state db)))
       (new net_weight (total_net_weight (rl_state db)))).

Lemma folded_lookup db owner actual pending (b : bool) (a : account_name) :
  limits_index (folded db owner actual pending) !! (b, a) =
    if decide (a = owner) then if b then None else Some pending
    else limits_index db !! (b, a).
Proof.
  simpl. destruct (decide (a = owner)) as [->|Hne].
  - destruct b; [apply lookup_delete_eq|].
    rewrite lookup_delete_ne, lookup_insert_eq by done. by destruct pending.
  - rewrite lookup_delete_ne, lookup_insert_ne; [done|congruence..].
Qed.

Lemma folded_total f db owner actual pending :
  limits_index db !! (false, owner) = Some actual →
  limits_index db !! (true, owner) = Some pending →
  (∀ l l', net_weight l = net_weight l' → cpu_weight l = cpu_weight l' → ram_bytes l = ram_bytes l' →
     f l = f l') →
  total_of f (folded db owner actual pending) =
    total_of f db - Z.max 0 (f actual) + Z.max 0 (f pending).
Proof.
  intros Ha Hp Hf. unfold total_of, folded. cbn [limits_index].
  rewrite msum_delete_any, lookup_insert_ne, Hp by done. rewrite msum_insert, Ha. simpl.
  unfold active_part. simpl.
  replace (f (ResourceLimits (net_weight pending) (cpu_weight pending) (ram_bytes pending)))
    with (f pending) by (by apply Hf). lia.
Qed.

Lemma folded_gross f db owner actual pending :
  limits_index db !! (false, owner) = Some actual →
  limits_index db !! (true, owner) = Some pending →
  (∀ l l', net_weight l = net_weight l' → cpu_weight l = cpu_weight l' → ram_bytes l = ram_bytes l' →
     f l = f l') →
  gross_of f (folded db owner actual pending) = gross_of f db - Z.max 0 (f actual).
Proof.
  intros Ha Hp Hf. unfold gross_of, folded. cbn [limits_index].
  rewrite msum_delete_any, lookup_insert_ne, Hp by done. rewrite msum_insert, Ha. simpl. unfold gross_part.
  replace (f (ResourceLimits (net_weight pending) (cpu_weight pending) (ram_bytes pending)))
    with (f pending) by (by apply Hf). lia.
Qed.

Lemma gross_ge f db a actual pending :
  limits_index db !! (false, a) = Some actual → limits_index db !! (true, a) = Some pending →
  total_of f db - Z.max 0 (f actual) + Z.max 0 (f pending) <= gross_of f db.
Proof.
  intros Ha Hp. unfold total_of, gross_of.
  rewrite (msum_delete (active_part f) _ (true, a) pending) by done.
  rewrite (msum_delete (gross_part f) _ (true, a) pending) by done.
  assert (msum (active_part f) (delete (true, a) (limits_index db)) <=
    msum (gross_part f) (delete (true, a) (limits_index db))); [|unfold active_part, gross_part in *; simpl; lia].
  apply msum_le. intros k l _. unfold active_part, gross_part. destruct k.1; lia.
Qed.

Definition row_field (f : resource_limits_object → Z) : Prop :=
  f = ram_bytes ∨ f = cpu_weight ∨ f = net_weight.

Lemma row_field_ext f l l' :
  row_field f → net_weight l = net_weight l' → cpu_weight l = cpu_weight l' →
  ram_bytes l = ram_bytes l' → f l = f l'.
Proof. by intros [->|[->| ->]]. Qed.

(** Some total would exceed 64 bits. *)
Definition totals_overflow (db : resource_db) : Prop :=
  UINT64_MAX < gross_of ram_bytes db ∨ UINT64_MAX < gross_of cpu_weight db ∨
  UINT64_MAX < gross_of net_weight db.

Lemma folded_inv db owner actual pending :
  resource_inv db → limits_index db !! (false, owner) = Some actual →
  limits_index db !! (true, owner) = Some pending →
  (∀ f, row_field f → total_of f db - Z.max 0 (f actual) + Z.max 0 (f pending) <= UINT64_MAX) →
  resource_inv (folded db owner actual pending).
Proof.
  intros Hi Ha Hp Hmax.
  assert (Htot : ∀ f, row_field f → total_of f (folded db owner actual pending) =
    total_of f db - Z.max 0 (f actual) + Z.max 0 (f pending)).
  { intros f Hf. apply folded_total; [done|done|]. intros l l'. by apply row_field_ext. }
  assert (Hu : ∀ f, row_field f → in_u64 (total_of f (folded db owner actual pending))).
  { intros f Hf. split; [apply total_nonneg|]. rewrite Htot by done. specialize (Hmax f Hf).
    unfold UINT64_MAX in Hmax. lia. }
  unfold row_field in *. split.
  - rewrite Htot by tauto. simpl. by rewrite (ri_ram _ Hi).
  - rewrite Htot by tauto. simpl. by rewrite (ri_cpu _ Hi).
  - rewrite Htot by tauto. simpl. by rewrite (ri_net _ Hi).
  - split_and!; apply Hu; tauto.
  - intros a. rewrite !folded_lookup. case_decide; [by intros [? ?]|]. apply (ri_pending _ Hi).
  - intros a. rewrite folded_lookup. case_decide; [subst|apply (ri_usage _ Hi)].
    cbn [usage_index folded]. rewrite <-(ri_usage _ Hi), Ha. split; by eexists.
  - apply (ri_usage_wf _ Hi).
  - apply (ri_blocks _ Hi).
  - apply (ri_windows _ Hi).
  - apply (ri_periods _ Hi).
Qed.

Lemma process_one_run db owner actual pending :
  resource_inv db → limits_index db !! (false, owner) = Some actual →
  limits_index db !! (true, owner) = Some pending →
  process_one_limit db owner = Ok (folded db owner actual pending) ∧
    resource_inv (folded db owner actual pending) ∨
  process_one_limit db owner = Throw rate_limiting_state_inconsistent ∧ totals_overflow db.
Proof.
  intros Hi Ha Hp. pose proof (ri_totals _ Hi) as (Hr & Hc & Hn).
  unfold process_one_limit. rewrite Hp, Ha. cbn [of_option]. cbn [mbind result_bind].
  rewrite (ri_ram _ Hi), (ri_cpu _ Hi), (ri_net _ Hi).
  rewrite !update_state_and_value_ok by (first [done|by eapply total_ge]). cbv zeta.
  pose proof (gross_ge ram_bytes db owner actual pending Ha Hp).
  pose proof (gross_ge cpu_weight db owner actual pending Ha Hp).
  pose proof (gross_ge net_weight db owner actual pending Ha Hp).
  unfold totals_overflow.
  destruct (total_of ram_bytes db - _ + _ <=? UINT64_MAX) eqn:E1; reflect_bools;
    [|right; split; [done|lia]].
  destruct (total_of cpu_weight db - _ + _ <=? UINT64_MAX) eqn:E2; reflect_bools;
    [|right; split; [done|lia]].
  destruct (total_of net_weight db - _ + _ <=? UINT64_MAX) eqn:E3; reflect_bools;
    [|right; split; [done|lia]].
  left. split.
  - unfold mret, result_ret. simpl. unfold folded, with_limits, with_state. simpl.
    by rewrite (ri_ram _ Hi), (ri_cpu _ Hi), (ri_net _ Hi).
  - apply folded_inv; try done. intros f [->|[->| ->]]; done.
Qed.

Lemma folded_pending_length db owner actual pending :
  limits_index db !! (true, owner) = Some pending →
  (length (pending_owners (folded db owner actual pending)) < length (pending_owners db))%nat.
Proof.
  intros Hp.
  assert (Hsub : owner :: pending_owners (folded db owner actual pending) ⊆+ pending_owners db).
  { apply NoDup_submseteq.
    - constructor; [|apply pending_owners_nodup].
      rewrite pending_owners_elem, folded_lookup, decide_True by done. by intros [? ?].
    - intros a [->|Ha]%elem_of_cons; [apply pending_owners_elem; by eexists|].
      rewrite pending_owners_elem in Ha |- *. rewrite folded_lookup in Ha.
      case_decide; [by destruct Ha|done]. }
  apply submseteq_length in Hsub. simpl in Hsub. lia.
Qed.

(** The limits that apply once the pending ones are folded. *)
Definition effective_limit (db : resource_db) (a : account_name) : option resource_limits_object :=
  match limits_index db !! (true, a) with
  | Some l => Some l
  | None => limits_index db !! (false, a)
  end.

Lemma folded_effective db owner actual pending a :
  limits_index db !! (true, owner) = Some pending →
  effective_limit (folded db owner actual pending) a = effective_limit db a.
Proof.
  intros Hp. unfold effective_limit. rewrite !folded_lookup.
  case_decide; [subst; by rewrite Hp|done].
Qed.

Lemma totals_overflow_folded db owner actual pending :
  limits_index db !! (false, owner) = Some actual →
  limits_index db !! (true, owner) = Some pending →
  totals_overflow (folded db owner actual pending) → totals_overflow db.
Proof.
  intros Ha Hp. unfold totals_overflow.
  rewrite !(folded_gross _ db owner actual pending) by
    (try done; intros l l'; apply row_field_ext; unfold row_field; tauto).
  lia.
Qed.

Lemma process_limits_while_run : ∀ fuel db,
  resource_inv db → (length (pending_owners db) < fuel)%nat →
  match process_limits_while fuel db with
  | Ok db' => resource_inv db' ∧ usage_index db' = usage_index db ∧
      ∀ a, limits_index db' !! (true, a) = None ∧
           limits_index db' !! (false, a) = effective_limit db a
  | Throw e => e = rate_limiting_state_inconsistent ∧ totals_overflow db
  end.
Proof.
  induction fuel as [|fuel IH]; intros db Hi Hfuel; [lia|]. cbn [process_limits_while].
  destruct (head (pending_owners db)) as [owner|] eqn:Hh.
  - apply head_Some_elem_of in Hh. rewrite pending_owners_elem in Hh.
    pose proof (ri_pending _ Hi owner Hh) as [actual Ha]. destruct Hh as [pending Hp].
    destruct (process_one_run db owner actual pending Hi Ha Hp) as [[-> Hi']|[-> Hov]]; [|by simpl].
    cbn [mbind result_bind].
    pose proof (folded_pending_length db owner actual pending Hp) as Hlen.
    specialize (IH (folded db owner actual pending) Hi' ltac:(lia)).
    destruct (process_limits_while fuel _) as [db'|e].
    + destruct IH as (Hinv & Hus & Hl). split_and!; [done|done|]. intros a.
      destruct (Hl a) as [? Hla]. split; [done|]. by rewrite Hla, folded_effective.
    + destruct IH as [-> Hov]. split; [done|]. by eapply totals_overflow_folded.
  - split_and!; [done|done|]. intros a.
    assert (Hnone : limits_index db !! (true, a) = None).
    { apply eq_None_not_Some. rewrite <-pending_owners_elem.
      destruct (pending_owners db); [apply not_elem_of_nil|done]. }
    unfold effective_limit. by rewrite Hnone.
Qed.

(** ** The operations keep the invariant *)

Lemma initialize_database_inv : resource_inv initialize_database.
Proof.
  split; try done.
  - intros a. simpl. rewrite !lookup_empty. by split; intros [? ?].
Qed.

Lemma usage_default_wf : usage_wf usage_default.
Proof. by repeat split. Qed.

Lemma initialize_account_inv db a db' :
  resource_inv db → initialize_account db a = Ok db' → resource_inv db'.
Proof.
  intros Hi Hr. unfold initialize_account in Hr. inv_ok. reflect_bools. simpl in *.
  assert (Htot : ∀ f, row_field f → total_of f (with_limits db
    (<[(false, a) := limits_default]> (limits_index db))) = total_of f db).
  { intros f Hf. unfold total_of. simpl. rewrite msum_insert_None by done.
    destruct Hf as [->|[->| ->]]; done. }
  unfold row_field in Htot. destruct Hi. split; simpl; try done.
  - unfold total_of in *. simpl in *. rewrite Htot by tauto. done.
  - unfold total_of in *. simpl in *. rewrite Htot by tauto. done.
  - unfold total_of in *. simpl in *. rewrite Htot by tauto. done.
  - unfold total_of in *. simpl in *. rewrite !Htot by tauto. done.
  - intros b Hb. rewrite lookup_insert_ne in Hb by done.
    destruct (decide (a = b)) as [->|]; [rewrite lookup_insert_eq; by eexists|].
    rewrite lookup_insert_ne by congruence. by apply ri_pending0.
  - intros b. destruct (decide (a = b)) as [->|].
    + rewrite !lookup_insert_eq. split; by eexists.
    + rewrite !lookup_insert_ne by congruence. apply ri_usage0.
  - apply map_Forall_insert_2; [apply usage_default_wf|done].
Qed.

Lemma set_block_parameters_inv db cpu net db' :
  resource_inv db → in_u32 (periods cpu) → in_u32 (periods net) →
  set_block_parameters db cpu net = Ok db' → resource_inv db'.
Proof.
  intros Hi [Hc1 Hc2] [Hn1 Hn2] Hr. unfold set_block_parameters, validate in Hr. inv_ok. reflect_bools.
  destruct Hi. split; try done. 
Qed.

Lemma with_usage_inv db a u u' :
  resource_inv db → usage_index db !! a = Some u → usage_wf u' →
  resource_inv (with_usage db (<[a := u']> (usage_index db))).
Proof.
  intros Hi Hu Hwf. destruct Hi. split; try done.
  - intros b. simpl. destruct (decide (a = b)) as [->|].
    + rewrite ri_usage0, Hu, lookup_insert_eq. split; by eexists.
    + rewrite lookup_insert_ne by done. apply ri_usage0.
  - simpl. by apply map_Forall_insert_2.
Qed.

Lemma bill_usage_wf db u cpu net slot u' :
  resource_inv db → usage_wf u → 0 <= cpu → 0 <= net → in_u32 slot →
  bill_usage (rl_config db) u cpu net slot = Ok u' → usage_wf u'.
Proof.
  intros Hi [Hn Hc Hr] Hcpu Hnet Hs Hb. unfold bill_usage in Hb. inv_ok.
  pose proof (ri_windows _ Hi) as [? ?].
  split; simpl; [by eapply accumulator_add_wf; [..|eassumption]|
    by eapply accumulator_add_wf; [..|eassumption]|done].
Qed.

Lemma get_usage_wf db a u : resource_inv db → get_usage db a = Ok u →
  usage_index db !! a = Some u ∧ usage_wf u.
Proof.
  intros Hi Hu. unfold get_usage in Hu. inv_ok. split; [done|]. by apply (ri_usage_wf _ Hi a).
Qed.

Lemma update_account_usage_inv slot accounts : ∀ db db',
  resource_inv db → in_u32 slot → update_account_usage db accounts slot = Ok db' → resource_inv db'.
Proof.
  induction accounts as [|a accounts IH]; intros db db' Hi Hs Hr; simpl in Hr; inv_ok; [done|].
  match goal with H : get_usage db a = Ok _ |- _ => apply get_usage_wf in H as [Hu Hwf]; [|done] end.
  eapply IH; [|done|done]. eapply with_usage_inv; [done|done|]. by eapply bill_usage_wf; [..|eassumption].
Qed.

(** A billed account is within its limits. *)
Definition cpu_within (db : resource_db) (weight : Z) (u : resource_usage_object) : Prop :=
  let window := account_cpu_usage_average_window (rl_config db) in
  0 <= weight → 0 < total_cpu_weight (rl_state db) →
  used_in_window (cpu_usage u) window <=
    max_user_use_in_window (virtual_cpu_limit (rl_state db)) window weight
      (total_cpu_weight (rl_state db)).
Definition net_within (db : resource_db) (weight : Z) (u : resource_usage_object) : Prop :=
  let window := account_net_usage_average_window (rl_config db) in
  0 <= weight → 0 < total_net_weight (rl_state db) →
  used_in_window (net_usage u) window <=
    max_user_use_in_window (virtual_net_limit (rl_state db)) window weight
      (total_net_weight (rl_state db)).

Lemma bill_account_inv db a cpu net slot db' :
  bill_account db a cpu net slot = Ok db' →
  ∃ u u' ram nw cw, usage_index db !! a = Some u ∧ get_account_limits db a = Ok (ram, nw, cw) ∧
    bill_usage (rl_config db) u cpu net slot = Ok u' ∧
    db' = with_usage db (<[a := u']> (usage_index db)) ∧
    cpu_within db cw u' ∧ net_within db nw u'.
Proof.
  intros Hr. unfold bill_account, get_usage in Hr. inv_ok.
  match goal with H : get_account_limits db a = Ok ?x |- _ => destruct x as [[ram nw] cw] end. inv_ok.
  eexists _, _, ram, nw, cw. split_and!; try done.
  - intros Hw Ht. rewrite (proj2 (Z.leb_le 0 cw)), (proj2 (Z.ltb_lt 0 _)) in Hrun2 by done.
    simpl in Hrun2. inv_ok. by reflect_bools.
  - intros Hw Ht. rewrite (proj2 (Z.leb_le 0 nw)), (proj2 (Z.ltb_lt 0 _)) in Hrun3 by done.
    simpl in Hrun3. inv_ok. by reflect_bools.
Qed.

Lemma bill_account_frame db a cpu net slot db' :
  bill_account db a cpu net slot = Ok db' →
  limits_index db' = limits_index db ∧ rl_config db' = rl_config db ∧ rl_state db' = rl_state db ∧
  ∀ b, b ≠ a → usage_index db' !! b = usage_index db !! b.
Proof.
  intros (u & u' & ram & nw & cw & _ & _ & _ & -> & _)%bill_account_inv. split_and!; try done.
  intros b Hb. simpl. by rewrite lookup_insert_ne.
Qed.

Lemma bill_account_keeps db a cpu net slot db' :
  resource_inv db → 0 <= cpu → 0 <= net → in_u32 slot →
  bill_account db a cpu net slot = Ok db' → resource_inv db'.
Proof.
  intros Hi Hc Hn Hs (u & u' & ram & nw & cw & Hu & _ & Hb & -> & _)%bill_account_inv.
  eapply with_usage_inv; [done|done|]. eapply bill_usage_wf; [..|done]; try done.
  by apply (ri_usage_wf _ Hi a).
Qed.

Lemma bill_accounts_keeps cpu net slot accounts : ∀ db db',
  resource_inv db → 0 <= cpu → 0 <= net → in_u32 slot →
  bill_accounts db accounts cpu net slot = Ok db' → resource_inv db'.
Proof.
  induction accounts as [|a accounts IH]; intros db db' Hi Hc Hn Hs Hr; simpl in Hr; inv_ok; [done|].
  eapply IH; [|done..]. by eapply bill_account_keeps; [..|eassumption].
Qed.

Lemma add_transaction_usage_inv db accounts cpu net slot db' :
  resource_inv db → 0 <= cpu → 0 <= net → in_u32 slot →
  add_transaction_usage db accounts cpu net slot = Ok db' → resource_inv db'.
Proof.
  intros Hi Hc Hn Hs Hr. unfold add_transaction_usage in Hr. inv_ok.
  match goal with H : bill_accounts _ _ _ _ _ = Ok ?d |- _ =>
    apply bill_accounts_keeps in H; try done; destruct H end.
  split; try done. simpl. destruct ri_blocks0 as (? & ? & _). split_and!; auto with chain.
Qed.

Lemma add_pending_ram_usage_inv db a delta db' :
  resource_inv db → add_pending_ram_usage db a delta = Ok db' → resource_inv db'.
Proof.
  intros Hi Hr. unfold add_pending_ram_usage in Hr. destruct (delta =? 0); inv_ok; [done|].
  match goal with H : get_usage db a = Ok _ |- _ => apply get_usage_wf in H as [Hu [Hn Hc _]]; [|done] end.
  eapply with_usage_inv; [done|done|]. split; simpl; auto with chain.
Qed.

Lemma set_account_limits_inv db a ram net cpu db' b :
  resource_inv db → set_account_limits db a ram net cpu = Ok (db', b) → resource_inv db'.
Proof.
  intros Hi Hr. unfold set_account_limits in Hr. inv_ok. simplify_eq.
  assert (Hact : is_Some (limits_index db !! (false, a))).
  { match goal with H : match ?x with _ => _ end = Ok _ |- _ => destruct x eqn:E end.
    - apply (ri_pending _ Hi). by eexists.
    - inv_ok. by eexists. }
  assert (Htot : ∀ f l, msum (active_part f) (<[(true, a) := l]> (limits_index db)) = total_of f db).
  { intros f l. rewrite msum_insert. unfold total_of.
    destruct (limits_index db !! (true, a)); simpl; unfold active_part; simpl; lia. }
  destruct Hi. unfold total_of in *. split; unfold total_of; simpl; rewrite ?Htot; try done.
  - intros c Hc. destruct (decide (a = c)) as [->|].
    + by rewrite lookup_insert_ne.
    + rewrite lookup_insert_ne in Hc by congruence. rewrite lookup_insert_ne by done. by apply ri_pending0.
  - intros c. rewrite lookup_insert_ne by done. apply ri_usage0.
Qed.

Lemma process_block_usage_inv db n db' :
  resource_inv db → in_u32 n → process_block_usage db n = Ok db' → resource_inv db'.
Proof.
  intros Hi Hn Hr. unfold process_block_usage in Hr. inv_ok. simpl in *.
  pose proof (ri_blocks _ Hi) as (Hc & Hne & [Hp1 _] & [Hp2 _]).
  pose proof (ri_periods _ Hi) as [? ?].
  destruct Hi. split; try done. simpl.
  split_and!; [by eapply accumulator_add_wf; [..|eassumption]|
    by eapply accumulator_add_wf; [..|eassumption]|done|done].
Qed.

(** ** Runs *)
Inductive resource_step : relation resource_db :=
| StepInitAccount db a db' : initialize_account db a = Ok db' → resource_step db db'
| StepParameters db cpu net db' :
    in_u32 (periods cpu) → in_u32 (periods net) →
    set_block_parameters db cpu net = Ok db' → resource_step db db'
| StepUpdateUsage db accounts slot db' :
    in_u32 slot → update_account_usage db accounts slot = Ok db' → resource_step db db'
| StepTransaction db accounts cpu net slot db' :
    in_u64 cpu → in_u64 net → in_u32 slot →
    add_transaction_usage db accounts cpu net slot = Ok db' → resource_step db db'
| StepRam db a delta db' :
    in_i64 delta → add_pending_ram_usage db a delta = Ok db' → resource_step db db'
| StepSetLimits db a ram net cpu db' b :
    in_i64 ram → in_i64 net → in_i64 cpu →
    set_account_limits db a ram net cpu = Ok (db', b) → resource_step db db'
| StepFold db db' : process_account_limit_updates db = Ok db' → resource_step db db'
| StepBlock db n db' : in_u32 n → process_block_usage db n = Ok db' → resource_step db db'.

Lemma process_account_limit_updates_run db :
  resource_inv db →
  match process_account_limit_updates db with
  | Ok db' => resource_inv db' ∧ usage_index db' = usage_index db ∧
      ∀ a, limits_index db' !! (true, a) = None ∧
           limits_index db' !! (false, a) = effective_limit db a
  | Throw e => e = rate_limiting_state_inconsistent ∧ totals_overflow db
  end.
Proof. intros Hi. apply process_limits_while_run; [done|lia]. Qed.

Lemma resource_step_inv db db' : resource_step db db' → resource_inv db → resource_inv db'.
Proof.
  intros Hstep Hi. destruct Hstep.
  - by eapply initialize_account_inv; [..|eassumption].
  - by eapply set_block_parameters_inv; [..|eassumption].
  - by eapply update_account_usage_inv; [..|eassumption].
  - eapply add_transaction_usage_inv; [done| | | |done]; [match goal with H : in_u64 ?x |- 0 <= ?x => apply H end..|done].
  - by eapply add_pending_ram_usage_inv; [..|eassumption].
  - by eapply set_account_limits_inv; [..|eassumption].
  - pose proof (process_account_limit_updates_run _ Hi) as Hp.
    match goal with H : process_account_limit_updates _ = Ok _ |- _ => rewrite H in Hp end. apply Hp.
  - by eapply process_block_usage_inv; [..|eassumption].
Qed.

Lemma resource_steps_inv db db' : rtc resource_step db db' → resource_inv db → resource_inv db'.
Proof. induction 1; eauto using resource_step_inv. Qed.

Lemma bill_accounts_frame cpu net slot accounts : ∀ db db',
  bill_accounts db accounts cpu net slot = Ok db' →
  limits_index db' = limits_index db ∧ rl_config db' = rl_config db ∧ rl_state db' = rl_state db ∧
  ∀ b, b ∉ accounts → usage_index db' !! b = usage_index db !! b.
Proof.
  induction accounts as [|a accounts IH]; intros db db' Hr; simpl in Hr; inv_ok; [done|].
  match goal with H : bill_account _ _ _ _ _ = Ok _ |- _ =>
    apply bill_account_frame in H as (Hl & Hc & Hs & Hu) end.
  apply IH in Hr as (Hl' & Hc' & Hs' & Hu'). split_and!; [congruence..|].
  intros b Hb. rewrite Hu' by set_solver. apply Hu. set_solver.
Qed.

(** The usage that is recorded in a window is at least what was just charged. *)
Lemma charged_is_used a units ordinal window a' :
  acc_wf a → 0 <= units → in_u32 ordinal → 0 < window < 2 ^ 32 →
  accumulator_add a units ordinal window = Ok a' → units <= used_in_window a' window.
Proof.
  intros Hwf Hu Ho Hw Hadd.
  destruct (accumulator_add_inv a units ordinal window a') as (Hle & Hmax & Hl & Hv & _ & Hvm & _);
    try done.
  pose proof (decayed_bounds a ordinal window Hwf ltac:(lia) Hle) as Hd.
  pose proof (divide_ceil_spec (units * rate_limiting_precision) window ltac:(lia)) as Hc. simpl in Hc.
  unfold used_in_window, UINT64_MAX in *. change rate_limiting_precision with 1000000 in *.
  rewrite u128_small by nia. apply Z.div_le_lower_bound; [lia|]. nia.
Qed.

(** What [add_transaction_usage] establishes for one account. *)
Definition billed_within (db : resource_db) (a : account_name) (cpu net : Z) (u : resource_usage_object)
    : Prop :=
  ∃ ram nw cw, get_account_limits db a = Ok (ram, nw, cw) ∧
    cpu_within db cw u ∧ net_within db nw u ∧
    cpu <= used_in_window (cpu_usage u) (account_cpu_usage_average_window (rl_config db)) ∧
    net <= used_in_window (net_usage u) (account_net_usage_average_window (rl_config db)).

Lemma billed_within_frame db db1 a cpu net u :
  limits_index db1 = limits_index db → rl_config db1 = rl_config db → rl_state db1 = rl_state db →
  billed_within db1 a cpu net u → billed_within db a cpu net u.
Proof.
  intros Hl Hc Hs. unfold billed_within, get_account_limits, cpu_within, net_within.
  by rewrite Hl, Hc, Hs.
Qed.

Lemma bill_account_within db a cpu net slot db' :
  resource_inv db → 0 <= cpu → 0 <= net → in_u32 slot →
  bill_account db a cpu net slot = Ok db' →
  ∃ u, usage_index db' !! a = Some u ∧ billed_within db a cpu net u.
Proof.
  intros Hi Hc Hn Hs (u & u' & ram & nw & cw & Hu & Hl & Hb & -> & Hcw & Hnw)%bill_account_inv.
  exists u'. simpl. rewrite lookup_insert_eq. split; [done|]. exists ram, nw, cw.
  pose proof (ri_usage_wf _ Hi a u Hu) as [Hun Huc _]. pose proof (ri_windows _ Hi) as [? ?].
  unfold bill_usage in Hb. inv_ok. split_and!; try done.
  - by eapply charged_is_used; [..|eassumption].
  - by eapply charged_is_used; [..|eassumption].
Qed.

Lemma bill_accounts_within cpu net slot accounts : ∀ db db',
  resource_inv db → 0 <= cpu → 0 <= net → in_u32 slot → NoDup accounts →
  bill_accounts db accounts cpu net slot = Ok db' →
  ∀ a, a ∈ accounts → ∃ u, usage_index db' !! a = Some u ∧ billed_within db a cpu net u.
Proof.
  induction accounts as [|b accounts IH]; intros db db' Hi Hc Hn Hs Hnd Hr a Ha; [set_solver|].
  simpl in Hr. inv_ok. apply NoDup_cons in Hnd as [Hb Hnd].
  match goal with H : bill_account db b _ _ _ = Ok ?d |- _ => rename H into H1, d into db1 end.
  pose proof (bill_account_frame _ _ _ _ _ _ H1) as (Hl & Hcf & Hst & _).
  apply elem_of_cons in Ha as [->|Ha].
  - pose proof (bill_accounts_frame _ _ _ _ _ _ Hr) as (_ & _ & _ & Hu). rewrite Hu by done.
    by eapply bill_account_within; [..|eassumption].
  - destruct (IH db1 db') with (a := a) as (u & Hu & Hw); try done.
    { by eapply bill_account_keeps; [..|eassumption]. }
    exists u. split; [done|]. by eapply billed_within_frame.
Qed.

Lemma ratio_mul_ok v r x :
  0 <= v → 0 <= numerator r → ratio_mul v r = Ok x → in_u64 v →
  denominator r ≠ 0 ∧ x = v * numerator r / denominator r.
Proof.
  intros Hv Hn Hr [_ Hv2]. unfold ratio_mul in Hr. inv_ok. reflect_bools. split; [done|].
  rewrite u64_small; [done|]. split; [nia|].
  match goal with H : _ || _ = true |- _ => apply orb_true_iff in H as [E|E] end; reflect_bools.
  - rewrite E. lia.
  - destruct (decide (numerator r = 0)) as [->|]; [lia|].
    pose proof (Z.mul_div_le UINT64_MAX (numerator r) ltac:(lia)). unfold UINT64_MAX in *. nia.
Qed.

(** ** Theorems *)

(** C23: From the initial tables, every sequence of operations keeps the totals equal to the sums
    of the active account limits, and keeps counters within their machine widths. *)
Theorem resource_limits_invariant db : rtc resource_step initialize_database db → resource_inv db.
Proof.
  intros Hr. eapply resource_steps_inv; [exact Hr|apply initialize_database_inv].
Qed.

(** Folding the pending limits terminates: every account then has its last limits as active
    ones, no pending limit is left, usage is untouched and the totals are again the sums.  It
    fails only when a total would exceed 64 bits, and never by underflow. *)
Theorem fold_pending_limits db :
  resource_inv db →
  match process_account_limit_updates db with
  | Ok db' => resource_inv db' ∧ usage_index db' = usage_index db ∧
      ∀ a, limits_index db' !! (true, a) = None ∧
           limits_index db' !! (false, a) = effective_limit db a
  | Throw e => e = rate_limiting_state_inconsistent ∧ totals_overflow db
  end.
Proof. apply process_account_limit_updates_run. Qed.

(** The moving average is exact: without any wrap-around, charging [units] decays the value
    linearly in the periods since the last charge, adds the rounded-up share of the window, and
    restarts the consumed counter from the average when the period changed. *)
Theorem accumulator_add_exact a units ordinal window a' :
  acc_wf a → 0 <= units → in_u32 ordinal → 0 < window < 2 ^ 32 →
  accumulator_add a units ordinal window = Ok a' →
  acc_wf a' ∧ last_ordinal a <= ordinal ∧ last_ordinal a' = ordinal ∧
  value_ex a' = decayed a ordinal window +
    integer_divide_ceil (units * rate_limiting_precision) window ∧
  consumed a' = (if ordinal =? last_ordinal a then consumed a
                 else integer_divide_ceil (decayed a ordinal window) rate_limiting_precision) + units.
Proof.
  intros Hwf Hu Ho Hw Hadd.
  destruct (accumulator_add_inv a units ordinal window a') as (Hle & _ & Hl & Hv & Hc & _ & _); try done.
  split_and!; try done. by eapply accumulator_add_wf; [..|eassumption].
Qed.

(** The elastic block limit stays between the maximum and its multiple; it does not grow above
    the larger of itself and the maximum under congestion, and does not shrink below the multiple
    otherwise. *)
Theorem elastic_limit_bounds limit usage p r :
  in_u64 limit → in_u64 (max p) → 1 <= max_multiplier p → max p * max_multiplier p < 2 ^ 64 →
  0 <= numerator (contract_rate p) <= denominator (contract_rate p) →
  0 < denominator (expand_rate p) <= numerator (expand_rate p) →
  update_elastic_limit limit usage p = Ok r →
  max p <= r <= max p * max_multiplier p ∧
  (target p < usage → r <= Z.max limit (max p)) ∧
  (usage <= target p → Z.min limit (max p * max_multiplier p) <= r).
Proof.
  intros [Hl1 Hl2] [Hm1 Hm2] Hmult Hov Hc He Hr. unfold update_elastic_limit in Hr. inv_ok.
  rewrite u64_small by nia.
  destruct (target p <? usage) eqn:E; reflect_bools.
  - apply ratio_mul_ok in Hrun as [Hd ->]; [|lia|lia|done].
    assert (limit * numerator (contract_rate p) / denominator (contract_rate p) <= limit).
    { apply Z.div_le_upper_bound; nia. }
    split; [nia|]. split; [|lia]. intros _. lia.
  - apply ratio_mul_ok in Hrun as [Hd ->]; [|lia|lia|done].
    assert (limit <= limit * numerator (expand_rate p) / denominator (expand_rate p)).
    { apply Z.div_le_lower_bound; nia. }
    split; [nia|]. split; [lia|]. intros _. lia.
Qed.

(** A billed transaction leaves every charged account with its usage recorded and within the
    share of the virtual capacity that its weight gives it, and the block within its limits. *)
Theorem transaction_within_limits db accounts cpu net slot db' :
  resource_inv db → in_u64 cpu → in_u64 net → in_u32 slot → NoDup accounts →
  add_transaction_usage db accounts cpu net slot = Ok db' →
  (∀ a, a ∈ accounts → ∃ u, usage_index db' !! a = Some u ∧ billed_within db a cpu net u) ∧
  (∀ a, a ∉ accounts → usage_index db' !! a = usage_index db !! a) ∧
  limits_index db' = limits_index db ∧
  pending_cpu_usage (rl_state db') <= max (cpu_limit_parameters (rl_config db)) ∧
  pending_net_usage (rl_state db') <= max (net_limit_parameters (rl_config db)).
Proof.
  intros Hi [Hc _] [Hn _] Hs Hnd Hr. unfold add_transaction_usage in Hr. inv_ok. reflect_bools.
  match goal with H : bill_accounts _ _ _ _ _ = Ok _ |- _ =>
    pose proof (bill_accounts_within _ _ _ _ _ _ Hi Hc Hn Hs Hnd H) as Hw;
    pose proof (bill_accounts_frame _ _ _ _ _ _ H) as (Hl & Hcf & Hst & Hu) end.
  rewrite <-Hcf. split_and!; done.
Qed.

(** The shares of all accounts together do not exceed the virtual CPU capacity of a window:
    weights never promise more than there is (as long as the 128-bit products do not wrap). *)
Theorem cpu_never_overcommitted db :
  resource_inv db → 0 < total_cpu_weight (rl_state db) → 0 <= virtual_cpu_limit (rl_state db) →
  let s := rl_state db in
  let window := account_cpu_usage_average_window (rl_config db) in
  virtual_cpu_limit s * window * total_cpu_weight s < 2 ^ 128 →
  msum (λ k l, if k.1 || (cpu_weight l <? 0) then 0
    else max_user_use_in_window (virtual_cpu_limit s) window (cpu_weight l) (total_cpu_weight s))
    (limits_index db) <= virtual_cpu_limit s * window.
Proof.
  intros Hi Ht Hv s window Hov. pose proof (ri_windows _ Hi) as [[Hw _] _]. fold window in Hw.
  set (T := total_cpu_weight s) in *. set (C := virtual_cpu_limit s * window) in *.
  assert (HC : 0 <= C) by (unfold C, s; nia). change (0 < T) in Ht.
  apply (Z.mul_le_mono_pos_l _ _ T Ht). rewrite <-msum_scale.
  assert (HT : T = msum (active_part cpu_weight) (limits_index db)) by apply (ri_cpu _ Hi).
  replace (T * C) with (C * msum (active_part cpu_weight) (limits_index db)) by (rewrite <-HT; lia).
  rewrite <-msum_scale.
  apply msum_le. intros [b a] l Hl. unfold active_part. cbn [fst].
  destruct b; [simpl; lia|]. simpl. destruct (cpu_weight l <? 0) eqn:E; reflect_bools; [nia|].
  pose proof (total_ge cpu_weight db a l Hl) as Hge. rewrite <-(ri_cpu _ Hi) in Hge. fold s T in Hge.
  rewrite Z.max_r in * by lia. unfold max_user_use_in_window.
  assert (C <= C * T) by nia. assert (0 <= C * cpu_weight l <= C * T) by nia.
  fold C. rewrite (u128_small C), (u128_small (C * _)) by lia.
  pose proof (Z.mul_div_le (C * cpu_weight l) T Ht). lia.
Qed.

(** RAM accounting does not wrap: the counter moves by exactly the delta, or the operation
    throws and the delta would have left the 64-bit range; verification then bounds it by the
    account's limit. *)
Theorem ram_usage_exact db a delta u :
  resource_inv db → in_i64 delta → usage_index db !! a = Some u →
  match add_pending_ram_usage db a delta with
  | Ok db' => ∃ u', usage_index db' !! a = Some u' ∧ ram_usage u' = ram_usage u + delta ∧
      in_u64 (ram_usage u') ∧
      (∀ ram nw cw, get_account_limits db' a = Ok (ram, nw, cw) → 0 <= ram →
         (verify_account_ram_usage db' a = Ok tt ↔ ram_usage u' <= ram))
  | Throw e => e = transaction_exception ∧ ¬ in_u64 (ram_usage u + delta)
  end.
Proof.
  intros Hi [Hd1 Hd2] Hu. pose proof (ri_usage_wf _ Hi a u Hu) as [_ _ [Hr1 Hr2]].
  assert (Hver : ∀ db' u', usage_index db' !! a = Some u' → ∀ ram nw cw,
    get_account_limits db' a = Ok (ram, nw, cw) → 0 <= ram →
    verify_account_ram_usage db' a = Ok tt ↔ ram_usage u' <= ram).
  { intros db' u' Hu' ram nw cw Hl Hram. unfold verify_account_ram_usage, get_usage.
    rewrite Hl. cbn [mbind result_bind]. rewrite Hu'. cbn [of_option mbind result_bind].
    rewrite (proj2 (Z.leb_le 0 ram)) by done. by rewrite assert_ok, Z.leb_le. }
  unfold add_pending_ram_usage, get_usage. destruct (delta =? 0) eqn:E; reflect_bools.
  { exists u. split_and!; [done|lia|done|]. by apply Hver. }
  rewrite Hu. cbn [of_option mbind result_bind].
  unfold UINT64_MAX, in_u64. destruct (decide (0 <= delta)) as [Hpos|Hneg].
  - rewrite (u64_small delta) by lia. rewrite (proj2 (Z.leb_gt delta 0)) by lia.
    rewrite (proj2 (Z.leb_le 0 delta)) by lia. simpl.
    destruct (delta <=? 2 ^ 64 - 1 - ram_usage u) eqn:E2; reflect_bools; simpl; [|split; [done|lia]].
    eexists. rewrite lookup_insert_eq. split; [done|]. simpl. rewrite u64_small by lia.
    split_and!; [done|lia|lia|]. intros ram nw cw Hl Hram.
    refine (Hver _ (ResourceUsage (net_usage u) (cpu_usage u) (ram_usage u + delta)) _ ram nw cw Hl Hram).
    apply lookup_insert_eq.
  - rewrite (proj2 (Z.leb_le delta 0)) by lia. rewrite (proj2 (Z.leb_gt 0 delta)) by lia.
    rewrite (u64_small (- delta)) by lia. simpl.
    destruct (- delta <=? ram_usage u) eqn:E2; reflect_bools; simpl; [|split; [done|lia]].
    eexists. rewrite lookup_insert_eq. split; [done|]. simpl. rewrite u64_small by lia.
    split_and!; [done|lia|lia|]. intros ram nw cw Hl Hram.
    refine (Hver _ (ResourceUsage (net_usage u) (cpu_usage u) (ram_usage u + delta)) _ ram nw cw Hl Hram).
    apply lookup_insert_eq.
Qed.

(** ** A concrete run *)
Definition toy_resources : result resource_db :=
  db ← initialize_account initialize_database 1;
  db ← initialize_account db 2;
  '(db, _) ← set_account_limits db 1 1000 10 20;
  '(db, _) ← set_account_limits db 2 (-1) 30 30;
  mret db.

Definition toy_rdb : resource_db :=
  match toy_resources with Ok db => db | Throw _ => initialize_database end.
Definition toy_folded : resource_db :=
  match process_account_limit_updates toy_rdb with Ok db => db | Throw _ => toy_rdb end.

Lemma toy_resources_steps : rtc resource_step initialize_database toy_rdb.
Proof.
  assert (Hok : is_ok toy_resources = true) by (vm_compute; reflexivity).
  unfold toy_rdb. destruct toy_resources as [db|e] eqn:E; [|discriminate Hok].
  unfold toy_resources in E.
  repeat (inv_ok; match goal with x : resource_db * bool |- _ => destruct x end). inv_ok.
  eapply rtc_l; [eapply StepInitAccount; eassumption|].
  eapply rtc_l; [eapply StepInitAccount; eassumption|].
  eapply rtc_l; [eapply StepSetLimits; [..|eassumption]; unfold in_i64; lia|].
  eapply rtc_l; [eapply StepSetLimits; [..|eassumption]; unfold in_i64; lia|]. done.
Qed.

Lemma toy_rdb_inv : resource_inv toy_rdb.
Proof. eapply resource_steps_inv; [apply toy_resources_steps|apply initialize_database_inv]. Qed.

Lemma toy_folded_inv : resource_inv toy_folded.
Proof.
  pose proof (process_account_limit_updates_run _ toy_rdb_inv) as H. unfold toy_folded.
  destruct (process_account_limit_updates toy_rdb); [apply H|apply toy_rdb_inv].
Qed.

Lemma resource_limits_invariant_witness : resource_inv toy_rdb.
Proof. exact (resource_limits_invariant toy_rdb toy_resources_steps). Defined.

Lemma fold_pending_limits_witness :
  is_ok (process_account_limit_updates toy_rdb) = true ∧
  match process_account_limit_updates toy_rdb with Ok db' => resource_inv db' | Throw _ => False end.
Proof.
  assert (Hok : is_ok (process_account_limit_updates toy_rdb) = true) by (vm_compute; reflexivity).
  split; [exact Hok|]. pose proof (fold_pending_limits toy_rdb toy_rdb_inv) as H.
  destruct (process_account_limit_updates toy_rdb); [exact (proj1 H)|discriminate Hok].
Defined.

Lemma accumulator_add_exact_witness :
  accumulator_add (UsageAccumulator 10 5000000 3) 7 12 10 = Ok (UsageAccumulator 12 4700000 11) ∧
  acc_wf (UsageAccumulator 12 4700000 11).
Proof.
  assert (Hr : accumulator_add (UsageAccumulator 10 5000000 3) 7 12 10 =
    Ok (UsageAccumulator 12 4700000 11)) by (vm_compute; reflexivity).
  split; [exact Hr|].
  apply (accumulator_add_exact (UsageAccumulator 10 5000000 3) 7 12 10 _).
  - split; unfold in_u32, in_u64; simpl; lia.
  - lia.
  - unfold in_u32; lia.
  - lia.
  - exact Hr.
Defined.

Lemma elastic_limit_bounds_witness :
  update_elastic_limit 300000 10 (cpu_limit_parameters config_default) = Ok 300300 ∧
  200000 <= 300300 <= 200000 * 1000.
Proof.
  assert (Hr : update_elastic_limit 300000 10 (cpu_limit_parameters config_default) = Ok 300300)
    by (vm_compute; reflexivity).
  split; [exact Hr|].
  apply (elastic_limit_bounds 300000 10 (cpu_limit_parameters config_default) 300300);
    [by vm_compute..|exact Hr].
Defined.

Lemma transaction_within_limits_witness :
  ∃ db' u, add_transaction_usage toy_folded [1; 2] 100 200 5 = Ok db' ∧
    usage_index db' !! 1 = Some u ∧ billed_within toy_folded 1 100 200 u.
Proof.
  assert (Hok : is_ok (add_transaction_usage toy_folded [1; 2] 100 200 5) = true)
    by (vm_compute; reflexivity).
  destruct (add_transaction_usage toy_folded [1; 2] 100 200 5) as [db'|e] eqn:E; [|discriminate Hok].
  destruct (transaction_within_limits toy_folded [1; 2] 100 200 5 db' toy_folded_inv) as (Hw & _).
  - unfold in_u64; simpl; lia.
  - unfold in_u64; simpl; lia.
  - unfold in_u32; lia.
  - clear. constructor; [set_solver|]. constructor; [set_solver|constructor].
  - exact E.
  - destruct (Hw 1 ltac:(left)) as (u & Hu & Hb). exists db', u.
    split; [reflexivity|]. split; [exact Hu|exact Hb].
Defined.

Lemma cpu_never_overcommitted_witness :
  msum (λ k l, if k.1 || (cpu_weight l <? 0) then 0
    else max_user_use_in_window 200000 172800 (cpu_weight l) 50) (limits_index toy_folded)
    <= 200000 * 172800.
Proof.
  apply (cpu_never_overcommitted toy_folded toy_folded_inv); vm_compute; [reflexivity|discriminate|reflexivity].
Defined.

Lemma ram_usage_exact_witness :
  match add_pending_ram_usage toy_folded 1 500 with
  | Ok db' => ∃ u', usage_index db' !! 1 = Some u' ∧ ram_usage u' = 500
  | Throw _ => False end.
Proof.
  assert (Hu : usage_index toy_folded !! 1 = Some usage_default) by (vm_compute; reflexivity).
  assert (Hok : is_ok (add_pending_ram_usage toy_folded 1 500) = true) by (vm_compute; reflexivity).
  pose proof (ram_usage_exact toy_folded 1 500 usage_default toy_folded_inv ltac:(unfold in_i64; lia) Hu) as H.
  destruct (add_pending_ram_usage toy_folded 1 500); [|discriminate Hok].
  destruct H as (u' & Hu' & Hr & _). exists u'. split; [exact Hu'|exact Hr].
Defined.
