(* ===== verification/Authority.v ===== *)
(** * Authorities and the authority checker

    Models authority.hpp, authority_checker.hpp, parallel_markers.hpp and permission_level of
    action.hpp of libraries/chain: weighted authorities, their validation, and the recursive check
    that a set of keys, permissions and a delay satisfies an authority.  The function from
    permission levels to authorities is the template parameter of the checker. *)

From Stdlib Require Import Sorted.
From S2P Require Import Prelude Merkle BlockHeader.

(** ** permission_level (action.hpp) *)
Record permission_level := PermissionLevel { actor : account_name; permission : Z }.

Global Instance permission_level_eq_dec : EqDecision permission_level.
Proof. solve_decision. Defined.
Global Instance permission_level_countable : Countable permission_level.
Proof.
  apply (inj_countable' (λ p, (actor p, permission p)) (λ '(a, b), PermissionLevel a b)).
  by intros [].
Defined.

(** [operator<] and [operator>=]: lexicographic. *)
Definition level_ltb (a b : permission_level) : bool :=
  (actor a <? actor b) || (actor a =? actor b) && (permission a <? permission b).
Definition level_geb (a b : permission_level) : bool := negb (level_ltb a b).

(** The order of public keys is fc's. *)
Class FcKeyOrder `{Fc} := { key_ltb : public_key → public_key → bool }.
Class FcKeyOrderLaws `{FcKeyOrder} : Prop := {
  key_ltb_irrefl : ∀ k, key_ltb k k = false;
  key_ltb_trans : ∀ a b c, key_ltb a b = true → key_ltb b c = true → key_ltb a c = true;
}.

(** The cache of the checker (authority_checker.hpp). *)
Inductive permission_cache_status := being_evaluated | permission_unsatisfied | permission_satisfied.
Abbreviation permission_cache := (gmap permission_level permission_cache_status).

Section authority.
Context {FC : Fc} {KO : FcKeyOrder}.

(** ** authority.hpp *)
Record permission_level_weight := PermissionLevelWeight {
  plw_permission : permission_level;
  plw_weight : Z;
}.
Record key_weight := KeyWeight { kw_key : public_key; kw_weight : Z }.
Record wait_weight := WaitWeight { wait_sec : Z; ww_weight : Z }.

Record authority := Authority {
  threshold : Z;
  keys : list key_weight;
  accounts : list permission_level_weight;
  waits : list wait_weight;
}.

(** [authority( k, delay_sec )] *)
Definition authority_of_key (k : public_key) (delay_sec : Z) : authority :=
  if 0 <? delay_sec then Authority 2 [KeyWeight k 1] [] [WaitWeight delay_sec 1]
  else Authority 1 [KeyWeight k 1] [] [].

(** shared_authority: the same data in shared memory; conversions copy element by element. *)
Definition shared_authority_assign (a : authority) : authority :=
  Authority (threshold a) (keys a) (accounts a) (waits a).
Definition to_authority (a : authority) : authority :=
  Authority (threshold a) (foldl (λ l k, l ++ [k]) [] (keys a))
    (foldl (λ l k, l ++ [k]) [] (accounts a)) (foldl (λ l k, l ++ [k]) [] (waits a)).

(** Sizes are billed in multiples of [billable_alignment] (config.hpp). *)
Definition billable_alignment : Z := 16.
Definition billable_size_v (value : Z) : Z :=
  (value + billable_alignment - 1) / billable_alignment * billable_alignment.

(** Billable sizes; [pack_size] is the serialized size of a key. *)
Definition get_billable_size (pack_size : public_key → Z) (a : authority) : Z :=
  let accounts_size := Z.of_nat (length (accounts a)) * billable_size_v 24 in
  let waits_size := Z.of_nat (length (waits a)) * billable_size_v 16 in
  let keys_size := foldl (λ s k, s + billable_size_v 8 + pack_size (kw_key k)) 0 (keys a) in
  accounts_size + waits_size + keys_size.

(** The loop over keys, accounts or waits of [validate]: [refuse prev x] is its test of two
    neighbours, and [None] its [return false]. *)
Fixpoint validate_loop {A} (refuse : A → A → bool) (weight : A → Z)
    (prev : option A) (total_weight : Z) (l : list A) : option Z :=
  match l with
  | [] => Some total_weight
  | x :: l =>
      if match prev with Some p => refuse p x | None => false end then None
      else validate_loop refuse weight (Some x) (u32 (total_weight + weight x)) l
  end.

Definition validate_keys (total : Z) (l : list key_weight) : option Z :=
  validate_loop (λ prev k, negb (key_ltb (kw_key prev) (kw_key k))) kw_weight None total l.
Definition validate_accounts (total : Z) (l : list permission_level_weight) : option Z :=
  validate_loop (λ prev a, level_geb (plw_permission prev) (plw_permission a)) plw_weight None total l.
Definition validate_waits (total : Z) (l : list wait_weight) : option Z :=
  validate_loop (λ prev w, wait_sec w <=? wait_sec prev) ww_weight None total l.

Definition validate (auth : authority) : bool :=
  if 65536 <? Z.of_nat (length (keys auth) + length (accounts auth) + length (waits auth)) then false
  else if threshold auth =? 0 then false
  else
    match validate_keys 0 (keys auth) with
    | None => false
    | Some total =>
        match validate_accounts total (accounts auth) with
        | None => false
        | Some total =>
            if match waits auth with w :: _ => wait_sec w =? 0 | [] => false end then false
            else
              match validate_waits total (waits auth) with
              | None => false
              | Some total => threshold auth <=? total
              end
        end
    end.

(** ** authority_checker.hpp *)

(** The alternatives in the order of the variant; [which] is their index. *)
Inductive meta_permission :=
| MAccount (p : permission_level_weight)
| MKey (k : key_weight)
| MWait (w : wait_weight).

Definition meta_weight (m : meta_permission) : Z :=
  match m with MAccount p => plw_weight p | MKey k => kw_weight k | MWait w => ww_weight w end.
Definition meta_which (m : meta_permission) : Z :=
  match m with MAccount _ => 0 | MKey _ => 1 | MWait _ => 2 end.

(** Descending by weight, then by alternative. *)
Definition meta_before (a b : meta_permission) : bool :=
  (meta_weight b <? meta_weight a) ||
  (meta_weight a =? meta_weight b) && (meta_which b <? meta_which a).

(** Insertion into the flat_multiset: after the equivalent elements. *)
Fixpoint meta_insert (x : meta_permission) (l : list meta_permission) : list meta_permission :=
  match l with
  | [] => [x]
  | y :: l' => if meta_before x y then x :: l else y :: meta_insert x l'
  end.

Definition meta_permissions (auth : authority) : list meta_permission :=
  foldl (λ l x, meta_insert x l) []
    ((MWait <$> waits auth) ++ (MKey <$> keys auth) ++ (MAccount <$> accounts auth)).

Definition permission_status_in_cache (c : permission_cache) (level : permission_level)
    : option permission_cache_status :=
  match c !! level with
  | Some s => Some s
  | None => c !! PermissionLevel (actor level) 0
  end.

Record checker := Checker {
  permission_to_authority : permission_level → result authority;
  provided_keys : list public_key;
  provided_permissions : list permission_level;
  recursion_depth_limit : nat;
}.

(** What a check changes: the markers of used keys and the cache. *)
Record checker_state := CheckerState {
  _used_keys : list bool;
  cached_permissions : permission_cache;
}.

Definition set_used (st : checker_state) (u : list bool) : checker_state :=
  CheckerState u (cached_permissions st).
Definition set_cache (st : checker_state) (p : permission_level) (s : permission_cache_status)
    : checker_state :=
  CheckerState (_used_keys st) (<[p := s]> (cached_permissions st)).

Definition initialize_permission_cache (c : checker) : permission_cache :=
  foldl (λ m p, <[p := permission_satisfied]> m) ∅ (provided_permissions c).

(** fc::seconds( s ) in microseconds. *)
Definition seconds (s : Z) : Z := s * 1000000.

(** The visitor on a wait and on a key. *)
Definition visit_wait (delay : Z) (total : Z) (w : wait_weight) : Z :=
  if seconds (wait_sec w) <=? delay then u32 (total + ww_weight w) else total.

Definition visit_key (c : checker) (st : checker_state) (total : Z) (k : key_weight)
    : checker_state * Z :=
  match list_find (λ x, x = kw_key k) (provided_keys c) with
  | Some (i, _) => (set_used st (<[i := true]> (_used_keys st)), u32 (total + kw_weight k))
  | None => (st, total)
  end.

(** The visitor on a permission level; [rec] checks an authority one level deeper, and is absent
    at the depth limit. *)
Definition visit_account (c : checker) (rec : option (authority → checker_state → result (checker_state * bool)))
    (st : checker_state) (total : Z) (p : permission_level_weight) : result (checker_state * Z) :=
  match permission_status_in_cache (cached_permissions st) (plw_permission p) with
  | Some permission_satisfied => mret (st, u32 (total + plw_weight p))
  | Some _ => mret (st, total)
  | None =>
      match rec with
      | None => mret (st, total)
      | Some rec =>
          match permission_to_authority c (plw_permission p) with
          | Throw e => if decide (e = permission_query_exception) then mret (st, total) else Throw e
          | Ok auth =>
              '(st, r) ← rec auth (set_cache st (plw_permission p) being_evaluated);
              mret (if r : bool
                    then (set_cache st (plw_permission p) permission_satisfied,
                          u32 (total + plw_weight p))
                    else (set_cache st (plw_permission p) permission_unsatisfied, total))
          end
      end
  end.

Definition visit (c : checker) (delay : Z)
    (rec : option (authority → checker_state → result (checker_state * bool)))
    (st : checker_state) (total : Z) (m : meta_permission) : result (checker_state * Z) :=
  match m with
  | MWait w => mret (st, visit_wait delay total w)
  | MKey k => mret (visit_key c st total k)
  | MAccount p => visit_account c rec st total p
  end.

(** The loop over the permissions; [saved] are the key markers that a failure restores. *)
Fixpoint tally (c : checker) (delay : Z)
    (rec : option (authority → checker_state → result (checker_state * bool)))
    (threshold : Z) (saved : list bool) (st : checker_state) (total : Z) (l : list meta_permission)
    : result (checker_state * bool) :=
  match l with
  | [] => mret (set_used st saved, false)
  | m :: l =>
      '(st, total) ← visit c delay rec st total m;
      if threshold <=? total then mret (st, true)
      else tally c delay rec threshold saved st total l
  end.

(** The private [satisfied( authority, cache, depth )]; [k] levels are left to the limit. *)
Fixpoint satisfied_at (c : checker) (delay : Z) (k : nat) (auth : authority) (st : checker_state)
    : result (checker_state * bool) :=
  tally c delay (match k with O => None | S k => Some (satisfied_at c delay k) end)
    (threshold auth) (_used_keys st) st 0 (meta_permissions auth).

(** The public [satisfied] of a permission level, with a fresh cache and an overriding delay. *)
Definition satisfied_level (c : checker) (used : list bool) (p : permission_level) (delay : Z)
    : result (list bool * bool) :=
  let st := CheckerState used (initialize_permission_cache c) in
  let rec := match recursion_depth_limit c with O => None | S k => Some (satisfied_at c delay k) end in
  '(st, total) ← visit_account c rec st 0 (PermissionLevelWeight p 1);
  mret (_used_keys st, 0 <? total).

(** The public [satisfied] of an authority. *)
Definition satisfied_authority (c : checker) (used : list bool) (a : authority) (delay : Z)
    : result (list bool * bool) :=
  '(st, r) ← satisfied_at c delay (recursion_depth_limit c) a
               (CheckerState used (initialize_permission_cache c));
  mret (_used_keys st, r).

Definition no_used_keys (c : checker) : list bool := replicate (length (provided_keys c)) false.

(** [filter_data_by_marker] *)
Definition filter_data_by_marker {A} (data : list A) (markers : list bool) (marker : bool) : list A :=
  snd <$> filter (λ md, md.1 = marker) (zip markers data).

Definition all_keys_used (used : list bool) : bool := forallb (Bool.eqb true) used.
Definition used_keys (c : checker) (used : list bool) : list public_key :=
  filter_data_by_marker (provided_keys c) used true.
Definition unused_keys (c : checker) (used : list bool) : list public_key :=
  filter_data_by_marker (provided_keys c) used false.

(** ** Specification *)

(** The weights are uint16, the threshold and the waits are uint32. *)
Definition authority_wf (a : authority) : Prop :=
  in_u32 (threshold a) ∧ Forall (λ k, in_u16 (kw_weight k)) (keys a) ∧
  Forall (λ p, in_u16 (plw_weight p)) (accounts a) ∧
  Forall (λ w, in_u32 (wait_sec w) ∧ in_u16 (ww_weight w)) (waits a).

(** The factors of an authority and their exact total weight. *)
Definition factors (a : authority) : list meta_permission :=
  (MWait <$> waits a) ++ (MKey <$> keys a) ++ (MAccount <$> accounts a).
Definition meta_sum (l : list meta_permission) : Z := foldr (λ m s, meta_weight m + s) 0 l.

Definition valid_authority (a : authority) : Prop :=
  0 < threshold a ∧ Z.of_nat (length (factors a)) <= 65536 ∧
  StronglySorted (λ x y, key_ltb (kw_key x) (kw_key y) = true) (keys a) ∧
  StronglySorted (λ x y, level_ltb (plw_permission x) (plw_permission y) = true) (accounts a) ∧
  StronglySorted (λ x y, wait_sec x < wait_sec y) (waits a) ∧
  Forall (λ w, wait_sec w ≠ 0) (waits a) ∧ threshold a <= meta_sum (factors a).

(** What it means that the provided factors satisfy a permission level: it is provided (itself or
    by the empty permission of its account), or enough weight of its authority is satisfied. *)
Inductive level_sat (c : checker) (delay : Z) : permission_level → Prop :=
| level_provided p : p ∈ provided_permissions c → level_sat c delay p
| level_provided_any p :
    PermissionLevel (actor p) 0 ∈ provided_permissions c → level_sat c delay p
| level_by_authority p a fs :
    permission_to_authority c p = Ok a → fs ⊆+ factors a →
    (∀ q, MAccount q ∈ fs → level_sat c delay (plw_permission q)) →
    (∀ k, MKey k ∈ fs → kw_key k ∈ provided_keys c) →
    (∀ w, MWait w ∈ fs → seconds (wait_sec w) <= delay) →
    threshold a <= meta_sum fs → level_sat c delay p.

Definition meta_sat (c : checker) (delay : Z) (m : meta_permission) : Prop :=
  match m with
  | MAccount q => level_sat c delay (plw_permission q)
  | MKey k => kw_key k ∈ provided_keys c
  | MWait w => seconds (wait_sec w) <= delay
  end.

Definition authority_sat (c : checker) (delay : Z) (a : authority) : Prop :=
  ∃ fs, fs ⊆+ factors a ∧ Forall (meta_sat c delay) fs ∧ threshold a <= meta_sum fs.

End authority.

(** ** Validation *)
Section validate_lemmas.
Context {FC : Fc} {KO : FcKeyOrder} {KL : FcKeyOrderLaws}.

Lemma meta_sum_app l1 l2 : meta_sum (l1 ++ l2) = meta_sum l1 + meta_sum l2.
Proof. induction l1; simpl; lia. Qed.

Global Instance meta_sum_proper : Proper ((≡ₚ) ==> (=)) meta_sum.
Proof. induction 1; simpl; lia. Qed.

Lemma meta_sum_bounds l :
  Forall (λ m, in_u16 (meta_weight m)) l → 0 <= meta_sum l <= Z.of_nat (length l) * 65535.
Proof. unfold in_u16. induction 1; simpl; lia. Qed.

Lemma meta_sum_submseteq l1 l2 :
  l1 ⊆+ l2 → Forall (λ m, in_u16 (meta_weight m)) l2 → meta_sum l1 <= meta_sum l2.
Proof.
  intros (k & ->)%submseteq_Permutation [_ Hk]%Forall_app. rewrite meta_sum_app.
  pose proof (meta_sum_bounds k Hk). lia.
Qed.

Lemma factors_wf a : authority_wf a → Forall (λ m, in_u16 (meta_weight m)) (factors a).
Proof.
  intros (_ & Hk & Ha & Hw). unfold factors. rewrite !Forall_app, !Forall_fmap.
  repeat split; [|done..]. eapply Forall_impl; [exact Hw|]. by intros w [].
Qed.

Global Instance level_ltb_trans : Transitive (λ a b, level_ltb a b = true).
Proof. intros [a1 a2] [b1 b2] [c1 c2]. unfold level_ltb. simpl. lia. Qed.

(** One lemma for the three loops: [prev] is the last element of the sorted prefix. *)
Lemma sorted_cons_prev {A} (R : A → A → Prop) x l :
  Transitive R → StronglySorted R (x :: l) ↔
  StronglySorted R l ∧ match l with [] => True | y :: _ => R x y end.
Proof.
  intros HR. split.
  - intros [Hs Hf]%StronglySorted_inv. split; [done|]. destruct l; [done|]. by inv Hf.
  - intros [Hs Hy]. constructor; [done|]. destruct l as [|y l]; [constructor|].
    apply StronglySorted_inv in Hs as [_ Hf]. constructor; [done|].
    eapply Forall_impl; [exact Hf|]. simpl. intros z. by transitivity y.
Qed.

Lemma validate_loop_spec {A} (R : A → A → Prop) (refuse : A → A → bool) weight prev total l r :
  Transitive R → (∀ x y, refuse x y = false ↔ R x y) →
  validate_loop refuse weight prev total l = Some r ↔
  StronglySorted R l ∧
  match prev, l with Some p, x :: _ => R p x | _, _ => True end ∧
  r = foldl (λ t x, u32 (t + weight x)) total l.
Proof.
  intros HT HR. revert prev total. induction l as [|x l IH]; intros prev total; simpl.
  { destruct prev; split; [intros [= <-]| |intros [= <-]|]; try naive_solver;
      repeat split; constructor. }
  rewrite (sorted_cons_prev _ x l HT).
  destruct prev as [p|]; [rewrite <-HR; destruct (refuse p x)|]; rewrite ?IH; naive_solver.
Qed.

Lemma foldl_u32_exact {A} (weight : A → Z) (f : A → meta_permission) l total :
  (∀ x, meta_weight (f x) = weight x) → 0 <= total →
  Forall (λ m, in_u16 (meta_weight m)) (f <$> l) → total + meta_sum (f <$> l) < 2 ^ 32 →
  foldl (λ t x, u32 (t + weight x)) total l = total + meta_sum (f <$> l).
Proof.
  intros Hf. revert total. induction l as [|x l IH]; intros total Ht Hl Hs; simpl in *; [lia|].
  change (list_fmap A _ f l) with (f <$> l) in *. apply Forall_cons in Hl as [Hx Hl]. pose proof (meta_sum_bounds _ Hl). unfold in_u16 in *.
  rewrite Hf in Hx, Hs |- *. rewrite u32_small by lia. rewrite IH; [lia|lia|done|lia].
Qed.

Lemma validate_keys_spec total l r :
  validate_keys total l = Some r ↔
  StronglySorted (λ x y, key_ltb (kw_key x) (kw_key y) = true) l ∧
  r = foldl (λ t k, u32 (t + kw_weight k)) total l.
Proof.
  unfold validate_keys. rewrite validate_loop_spec; [naive_solver| |].
  - intros x y z. apply key_ltb_trans.
  - intros x y. apply negb_false_iff.
Qed.

Lemma validate_accounts_spec total l r :
  validate_accounts total l = Some r ↔
  StronglySorted (λ x y, level_ltb (plw_permission x) (plw_permission y) = true) l ∧
  r = foldl (λ t p, u32 (t + plw_weight p)) total l.
Proof.
  unfold validate_accounts, level_geb. rewrite validate_loop_spec; [naive_solver| |].
  - intros x y z. apply level_ltb_trans.
  - intros x y. apply negb_false_iff.
Qed.

Lemma validate_waits_spec total l r :
  validate_waits total l = Some r ↔
  StronglySorted (λ x y, wait_sec x < wait_sec y) l ∧
  r = foldl (λ t w, u32 (t + ww_weight w)) total l.
Proof.
  unfold validate_waits. rewrite validate_loop_spec; [naive_solver| |].
  - intros x y z. lia.
  - intros x y. apply Z.leb_gt.
Qed.

Lemma sorted_waits_nonzero l :
  Forall (λ w, in_u32 (wait_sec w)) l → StronglySorted (λ x y, wait_sec x < wait_sec y) l →
  Forall (λ w, wait_sec w ≠ 0) l ↔ match l with w :: _ => wait_sec w ≠ 0 | [] => True end.
Proof.
  intros Hu Hs. destruct l as [|w l]; [done|]. split; [by intros [? _]%Forall_cons|]. intros Hw.
  apply Forall_cons in Hu as [Hu0 Hu]. apply StronglySorted_inv in Hs as [_ Hf].
  constructor; [done|]. eapply Forall_impl; [exact Hf|]. simpl. unfold in_u32 in *. lia.
Qed.

(** The sums of the three loops never wrap. *)
Lemma validate_total a :
  authority_wf a → Z.of_nat (length (factors a)) <= 65536 →
  foldl (λ t w, u32 (t + ww_weight w))
    (foldl (λ t p, u32 (t + plw_weight p))
       (foldl (λ t k, u32 (t + kw_weight k)) 0 (keys a)) (accounts a)) (waits a)
  = meta_sum (factors a).
Proof.
  intros Hwf%factors_wf Hl. pose proof (meta_sum_bounds _ Hwf) as Hb.
  unfold factors in *. rewrite !Forall_app in Hwf. destruct Hwf as (Hw & Hk & Ha).
  rewrite !meta_sum_app in *.
  pose proof (meta_sum_bounds _ Hw). pose proof (meta_sum_bounds _ Hk).
  pose proof (meta_sum_bounds _ Ha).
  rewrite (foldl_u32_exact kw_weight MKey) by (done || lia).
  rewrite (foldl_u32_exact plw_weight MAccount) by (done || lia).
  rewrite (foldl_u32_exact ww_weight MWait) by (done || lia). lia.
Qed.

(** [validate] accepts exactly the authorities whose threshold is positive and reachable, that
    have at most 2^16 factors, and whose keys, accounts and (positive) waits are strictly sorted;
    the uint32 total it compares with the threshold never overflows. *)
Theorem validate_exact a : authority_wf a → validate a = true ↔ valid_authority a.
Proof.
  intros Hwf. unfold validate, valid_authority.
  assert (length (factors a) = length (keys a) + length (accounts a) + length (waits a))%nat as Hlen.
  { unfold factors. rewrite !length_app, !length_fmap. lia. }
  rewrite <-Hlen. destruct (65536 <? _) eqn:El; [split; [done|lia]|].
  destruct (threshold a =? 0) eqn:Et; [split; [done|lia]|].
  assert (0 < threshold a) as Ht by (destruct Hwf; unfold in_u32 in *; lia).
  rewrite <-(validate_total a Hwf) by lia.
  split.
  - intros Hv. destruct (validate_keys _ _) eqn:Ek; [|done].
    destruct (validate_accounts _ _) eqn:Ea; [|done].
    destruct (match waits a with [] => _ | _ => _ end) eqn:E0; [done|].
    destruct (validate_waits _ _) eqn:Ew; [|done].
    apply validate_keys_spec in Ek as [? ->]. apply validate_accounts_spec in Ea as [? ->].
    apply validate_waits_spec in Ew as [? ->]. apply Z.leb_le in Hv.
    repeat split; try done; [lia|]. apply sorted_waits_nonzero; [|done|].
    + eapply Forall_impl; [apply Hwf|]. by intros w [].
    + destruct (waits a); [done|lia].
  - intros (_ & _ & Hk & Ha & Hw & H0 & Hs).
    rewrite (proj2 (validate_keys_spec _ _ _) (conj Hk eq_refl)).
    rewrite (proj2 (validate_accounts_spec _ _ _) (conj Ha eq_refl)).
    destruct (match waits a with [] => _ | _ => _ end) eqn:E0.
    { destruct (waits a); [done|]. apply Forall_cons in H0 as [? _]. lia. }
    rewrite (proj2 (validate_waits_spec _ _ _) (conj Hw eq_refl)). by apply Z.leb_le.
Qed.

End validate_lemmas.

(** ** The checker *)
Section checker_lemmas.
Context {FC : Fc} {KO : FcKeyOrder}.
Context (c : checker) (delay : Z).

Lemma meta_insert_Permutation x l : meta_insert x l ≡ₚ x :: l.
Proof.
  induction l as [|y l IH]; simpl; [done|]. destruct (meta_before x y); [done|].
  rewrite IH. apply Permutation_swap.
Qed.

Lemma meta_permissions_Permutation a : meta_permissions a ≡ₚ factors a.
Proof.
  unfold meta_permissions. fold (factors a).
  assert (∀ l acc, foldl (λ l x, meta_insert x l) acc l ≡ₚ l ++ acc) as H.
  { induction l as [|x l IH]; intros acc; simpl; [done|].
    rewrite IH, meta_insert_Permutation. by rewrite Permutation_middle. }
  by rewrite H, app_nil_r.
Qed.

Lemma authority_sat_level p a :
  permission_to_authority c p = Ok a → authority_sat c delay a → level_sat c delay p.
Proof.
  intros Hp (fs & Hfs & Hall & Ht). rewrite Forall_forall in Hall.
  eapply level_by_authority; [done|done| | | |done]; intros x Hx; exact (Hall _ Hx).
Qed.

Lemma level_sat_inv p :
  level_sat c delay p ↔
  p ∈ provided_permissions c ∨ PermissionLevel (actor p) 0 ∈ provided_permissions c ∨
  ∃ a, permission_to_authority c p = Ok a ∧ authority_sat c delay a.
Proof.
  split.
  - destruct 1 as [| |p a fs Hp Hfs Ha Hk Hw Ht]; [auto|auto|]. do 2 right. exists a. split; [done|].
    exists fs. split_and!; [done| |done]. apply Forall_forall. intros [] ?; simpl; auto.
  - intros [?|[?|(a & ? & ?)]]; [by apply level_provided|by apply level_provided_any|].
    by eapply authority_sat_level.
Qed.

(** What the cache claims is true, and the empty permission is only there when provided. *)
Definition cache_sound (m : permission_cache) : Prop :=
  ∀ q, m !! q = Some permission_satisfied →
    level_sat c delay q ∧ (permission q = 0 → q ∈ provided_permissions c).

Lemma status_sound m p :
  cache_sound m → permission_status_in_cache m p = Some permission_satisfied → level_sat c delay p.
Proof.
  intros Hm. unfold permission_status_in_cache. destruct (m !! p) eqn:E.
  - intros [= ->]. by apply Hm.
  - intros H. apply level_provided_any. by apply (Hm _ H).
Qed.

Lemma initialize_cache_lookup q :
  initialize_permission_cache c !! q =
  if bool_decide (q ∈ provided_permissions c) then Some permission_satisfied else None.
Proof.
  unfold initialize_permission_cache.
  assert (∀ l (m : permission_cache), foldl (λ m p, <[p:=permission_satisfied]> m) m l !! q =
    if bool_decide (q ∈ l) then Some permission_satisfied else m !! q) as H; [|by rewrite H, lookup_empty].
  induction l as [|p l IH]; intros m; cbn [foldl].
  { rewrite bool_decide_eq_false_2; [done|]. apply not_elem_of_nil. }
  rewrite IH. case_bool_decide as Hq.
  - rewrite bool_decide_eq_true_2; [done|]. by right.
  - destruct (decide (q = p)) as [->|Hne].
    + rewrite lookup_insert_eq, bool_decide_eq_true_2; [done|]. by left.
    + rewrite lookup_insert_ne by done. rewrite bool_decide_eq_false_2; [done|]. set_solver.
Qed.

Lemma initialize_cache_sound : cache_sound (initialize_permission_cache c).
Proof.
  intros q. rewrite initialize_cache_lookup. case_bool_decide; [|done]. intros _.
  split; [by apply level_provided|done].
Qed.

Lemma cache_sound_insert m p s :
  cache_sound m →
  (s = permission_satisfied → level_sat c delay p ∧ permission p ≠ 0) →
  cache_sound (<[p := s]> m).
Proof.
  intros Hm Hs q [[-> [= ->]]|[? ?]]%lookup_insert_Some; [|by apply Hm].
  destruct Hs; [done|]. by split.
Qed.

(** The permission named by the empty name has no authority: [get_permission] refuses it. *)
Hypothesis no_empty_permission : ∀ a auth, permission_to_authority c (PermissionLevel a 0) ≠ Ok auth.
(** Authorities are within their machine types. *)
Hypothesis authorities_wf : ∀ p auth, permission_to_authority c p = Ok auth → authority_wf auth.

Lemma authority_not_empty p auth : permission_to_authority c p = Ok auth → permission p ≠ 0.
Proof. destruct p as [a p]. simpl. intros H ->. by eapply no_empty_permission. Qed.

(** The contract of the recursive call. *)
Definition rec_sound (rec : option (authority → checker_state → result (checker_state * bool))) :=
  ∀ r auth st st' b, rec = Some r → r auth st = Ok (st', b) → authority_wf auth →
    cache_sound (cached_permissions st) →
    cache_sound (cached_permissions st') ∧ (b = true → authority_sat c delay auth).

Lemma visit_sound rec st total m st' total' :
  rec_sound rec → cache_sound (cached_permissions st) →
  visit c delay rec st total m = Ok (st', total') →
  cache_sound (cached_permissions st') ∧
  (total' = total ∨ meta_sat c delay m ∧ total' = u32 (total + meta_weight m)).
Proof.
  intros Hrec Hst. destruct m as [p|k|w]; simpl.
  - unfold visit_account. destruct (permission_status_in_cache _ _) as [[]|] eqn:Es.
    1-3: intros [= <- <-]; split; [done|];
      first [by left | right; split; [by eapply status_sound|done]].
    destruct rec as [rec|]; [|intros [= <- <-]; auto].
    destruct (permission_to_authority _ _) as [auth|e] eqn:Ep; [|by destruct (decide _); intros [= <- <-]; auto].
    intros ([st1 r] & Hr & H)%bind_ok. simplify_eq/=.
    pose proof (authority_not_empty _ _ Ep).
    destruct (Hrec rec auth _ st1 r eq_refl Hr (authorities_wf _ _ Ep)) as [Hst1 Hsat].
    { by apply cache_sound_insert. }
    destruct r; injection H as <- <-; simpl.
    + assert (level_sat c delay (plw_permission p)) by eauto using authority_sat_level.
      split; [by apply cache_sound_insert|]. auto.
    + split; [by apply cache_sound_insert|]. auto.
  - unfold visit_key. destruct (list_find _ _) as [[i x]|] eqn:E; intros [= <- <-]; split; auto.
    right. apply list_find_Some in E as (Hl & <- & _). split; [|done].
    by eapply list_elem_of_lookup_2.
  - unfold visit_wait. intros [= <- <-]. split; [done|]. destruct (_ <=? _) eqn:E; [right|by left].
    split; [lia|done].
Qed.

Lemma u32_le z : 0 <= z → 0 <= u32 z <= z.
Proof. intros. unfold u32. split; [apply Z.mod_pos_bound; lia|apply Z.mod_le; lia]. Qed.

(** [fs] are the satisfied factors among those already visited. *)
Lemma tally_sound rec thr saved fs st total l st' b :
  rec_sound rec → cache_sound (cached_permissions st) →
  Forall (λ m, in_u16 (meta_weight m)) l →
  Forall (meta_sat c delay) fs → 0 <= total <= meta_sum fs →
  tally c delay rec thr saved st total l = Ok (st', b) →
  cache_sound (cached_permissions st') ∧
  (b = true → ∃ gs, gs ⊆+ l ++ fs ∧ Forall (meta_sat c delay) gs ∧ thr <= meta_sum gs).
Proof.
  intros Hrec. revert st total fs. induction l as [|m l IH]; intros st total fs Hst Hl Hfs Ht; cbn [tally].
  { by intros [= <- <-]. }
  apply Forall_cons in Hl as [Hm Hl]. unfold in_u16 in Hm.
  intros ([st1 t1] & Hv & H)%bind_ok. destruct (visit_sound _ _ _ _ _ _ Hrec Hst Hv) as [Hst1 Hcase].
  assert (∃ fs', fs' ⊆+ m :: fs ∧ Forall (meta_sat c delay) fs' ∧ 0 <= t1 <= meta_sum fs')
    as (fs' & Hsub & Hfs' & Ht1).
  { destruct Hcase as [->|[Hms ->]]; [exists fs; by split; [apply submseteq_cons|]|].
    exists (m :: fs). split; [done|]. split; [by constructor|]. simpl.
    pose proof (u32_le (total + meta_weight m)). lia. }
  assert (l ++ fs' ⊆+ (m :: l) ++ fs) as Hperm.
  { transitivity (l ++ m :: fs); [by apply submseteq_app|]. simpl. by rewrite Permutation_middle. }
  destruct (thr <=? t1) eqn:E.
  - injection H as <- <-. split; [done|]. intros _. exists fs'. split; [|split; [done|lia]].
    transitivity (l ++ fs'); [by apply submseteq_inserts_l|done].
  - destruct (IH st1 t1 fs' Hst1 Hl Hfs' Ht1 H) as [? Hb]. split; [done|]. intros Hb'.
    destruct (Hb Hb') as (gs & ? & ? & ?). exists gs. split; [|done]. by transitivity (l ++ fs').
Qed.

Lemma tally_authority rec auth st st' b :
  rec_sound rec → cache_sound (cached_permissions st) → authority_wf auth →
  tally c delay rec (threshold auth) (_used_keys st) st 0 (meta_permissions auth) = Ok (st', b) →
  cache_sound (cached_permissions st') ∧ (b = true → authority_sat c delay auth).
Proof.
  intros Hrec Hst Hwf H. eapply (tally_sound rec _ _ []) in H; [|done|done| |done|simpl; lia].
  - rewrite app_nil_r in H. destruct H as [? H]. split; [done|]. intros Hb.
    destruct (H Hb) as (gs & Hgs & ?). exists gs. split; [|done]. by rewrite <-meta_permissions_Permutation.
  - rewrite meta_permissions_Permutation. by apply factors_wf.
Qed.

Lemma satisfied_at_sound k : rec_sound (Some (satisfied_at c delay k)).
Proof.
  induction k as [|k IH]; intros r auth st st' b [= <-] H Hwf Hst; eapply tally_authority in H; eauto.
  by intros ??.
Qed.

Lemma depth_rec_sound k :
  rec_sound match k with O => None | S k => Some (satisfied_at c delay k) end.
Proof. destruct k; [by intros ??|apply satisfied_at_sound]. Qed.

Lemma satisfied_level_sound used used' p :
  satisfied_level c used p delay = Ok (used', true) → level_sat c delay p.
Proof.
  unfold satisfied_level. intros ([st t] & Hv & H)%bind_ok. injection H as _ Ht.
  apply (visit_sound _ _ _ (MAccount (PermissionLevelWeight p 1))) in Hv as [_ [->|[? _]]];
    [done|done|apply depth_rec_sound|apply initialize_cache_sound].
Qed.

(** C13: soundness of the authority checker: when [satisfied] accepts a permission level, then the
    level is provided, or enough weight of its authority is: by provided keys, by the delay, or by
    accounts that are satisfied in turn.  This holds for every cache the recursion builds, for
    authorities that refer to each other in cycles, and though the uint32 tally may wrap. *)
Theorem checker_sound used used' p :
  satisfied_level c used p delay = Ok (used', true) → level_sat c delay p.
Proof. apply satisfied_level_sound. Qed.

(** the same for an authority that is not the one of a stored permission. *)
Theorem checker_authority_sound used used' a :
  authority_wf a → satisfied_authority c used a delay = Ok (used', true) → authority_sat c delay a.
Proof.
  unfold satisfied_authority. intros Hwf ([st b] & Hr & H)%bind_ok. injection H as _ ->.
  destruct (satisfied_at_sound _ _ _ _ _ _ eq_refl Hr Hwf) as [_ Hs];
    [apply initialize_cache_sound|by apply Hs].
Qed.

End checker_lemmas.

(** ** Completeness of the checker on authorities without cycles *)
Section checker_exact.
Context {FC : Fc} {KO : FcKeyOrder} {KL : FcKeyOrderLaws}.
Context (c : checker) (delay : Z) (rank : permission_level → nat).

Definition named (p : permission_level) : Prop := actor p ≠ 0 ∧ permission p ≠ 0.

(** The hypotheses of the group: stored authorities are validated and their accounts have names and
    a lower rank; a named permission without authority is reported by a permission_query_exception. *)
Record acyclic_authorities : Prop := {
  acyclic_no_empty : ∀ a auth, permission_to_authority c (PermissionLevel a 0) ≠ Ok auth;
  acyclic_wf : ∀ p auth, permission_to_authority c p = Ok auth →
    authority_wf auth ∧ validate auth = true;
  acyclic_rank : ∀ p auth q, permission_to_authority c p = Ok auth → q ∈ accounts auth →
    named (plw_permission q) ∧ (rank (plw_permission q) < rank p)%nat;
  acyclic_throw : ∀ p e, named p → permission_to_authority c p = Throw e →
    e = permission_query_exception;
}.
Context (HC : acyclic_authorities).

(** The cache is right, and what is being evaluated has at least rank [R]. *)
Record cache_exact (R : nat) (m : permission_cache) : Prop := {
  exact_status : ∀ q s, m !! q = Some s →
    match s with
    | permission_satisfied => level_sat c delay q
    | permission_unsatisfied => ¬ level_sat c delay q
    | being_evaluated => (R ≤ rank q)%nat
    end;
  exact_provided : ∀ q, q ∈ provided_permissions c → m !! q = Some permission_satisfied;
  exact_empty : ∀ q s, m !! q = Some s → permission q = 0 → q ∈ provided_permissions c;
}.

Definition same_evaluated (m m' : permission_cache) : Prop :=
  ∀ q, m' !! q = Some being_evaluated → m !! q = Some being_evaluated.

Global Instance same_evaluated_preorder : PreOrder same_evaluated.
Proof. split; [by intros m q|]. intros m1 m2 m3 H1 H2 q Hq. by apply H1, H2. Qed.

Lemma status_exact R m p :
  cache_exact R m → (rank p < R)%nat →
  match permission_status_in_cache m p with
  | Some permission_satisfied => level_sat c delay p
  | Some permission_unsatisfied => ¬ level_sat c delay p
  | Some being_evaluated => False
  | None => (p ∉ provided_permissions c) ∧ (PermissionLevel (actor p) 0 ∉ provided_permissions c)
  end.
Proof.
  intros Hm Hr. unfold permission_status_in_cache. destruct (m !! p) as [s|] eqn:E.
  - apply (exact_status _ _ Hm) in E. destruct s; [lia|done..].
  - assert (p ∉ provided_permissions c) by (intros Hq%(exact_provided _ _ Hm); congruence).
    destruct (m !! PermissionLevel _ _) as [s|] eqn:E0.
    + pose proof (exact_empty _ _ Hm _ _ E0 eq_refl) as Hp.
      rewrite (exact_provided _ _ Hm _ Hp) in E0. injection E0 as <-. by apply level_provided_any.
    + split; [done|]. intros H'%(exact_provided _ _ Hm). congruence.
Qed.

Lemma cache_exact_insert R m p s :
  cache_exact R m → p ∉ provided_permissions c → permission p ≠ 0 →
  match s with
  | permission_satisfied => level_sat c delay p
  | permission_unsatisfied => ¬ level_sat c delay p
  | being_evaluated => (R ≤ rank p)%nat
  end →
  cache_exact R (<[p := s]> m).
Proof.
  intros Hm Hp H0 Hs. split.
  - intros q s' [[-> ->]|[? ?]]%lookup_insert_Some; [done|]. by apply (exact_status _ _ Hm).
  - intros q Hq. rewrite lookup_insert_ne by congruence. by apply (exact_provided _ _ Hm).
  - intros q s' [[-> ->]|[? ?]]%lookup_insert_Some; [done|]. by eapply (exact_empty _ _ Hm).
Qed.

Lemma cache_exact_raise R R' m m' :
  cache_exact R m → cache_exact R' m' → same_evaluated m m' → cache_exact R m'.
Proof.
  intros Hm Hm' He. split; [|apply Hm'|apply Hm'].
  intros q s Hq. pose proof (exact_status _ _ Hm' _ _ Hq). destruct s; [|done..].
  by apply (exact_status _ _ Hm _ _ (He _ Hq)).
Qed.

(** The contract of a check of an authority with [k] levels left. *)
Definition rec_exact (k : nat) (r : authority → checker_state → result (checker_state * bool)) :=
  ∀ R auth st, (R ≤ k)%nat → Forall (λ q, named (plw_permission q) ∧ (rank (plw_permission q) < R)%nat) (accounts auth) →
    authority_wf auth → validate auth = true → cache_exact R (cached_permissions st) →
    ∃ st' b, r auth st = Ok (st', b) ∧ (b = true ↔ authority_sat c delay auth) ∧
      cache_exact R (cached_permissions st') ∧
      same_evaluated (cached_permissions st) (cached_permissions st').

Lemma cache_exact_weaken R R' m : (R' ≤ R)%nat → cache_exact R m → cache_exact R' m.
Proof.
  intros HR Hm. split; [|apply Hm..]. intros q s Hq.
  pose proof (exact_status _ _ Hm _ _ Hq). destruct s; [lia|done..].
Qed.

Lemma visit_account_exact k rec R st total p :
  match rec with Some r => (0 < k)%nat ∧ rec_exact (k - 1) r | None => k = O end →
  (R ≤ k)%nat → named (plw_permission p) → (rank (plw_permission p) < R)%nat → cache_exact R (cached_permissions st) →
  in_u32 total → in_u32 (total + plw_weight p) →
  ∃ st' (b : bool), visit_account c rec st total p = Ok (st', if b then total + plw_weight p else total) ∧
    (b = true ↔ level_sat c delay (plw_permission p)) ∧ cache_exact R (cached_permissions st') ∧
    same_evaluated (cached_permissions st) (cached_permissions st').
Proof.
  intros Hrec HRk Hnm Hrank Hst Ht Htw. unfold visit_account. rewrite u32_small by done.
  set (l := plw_permission p) in *.
  pose proof (status_exact _ _ _ Hst Hrank) as Hstat. destruct (permission_status_in_cache _ _) as [[]|].
  { done. }
  { exists st, false. split; [done|]. by split. }
  { exists st, true. split; [done|]. by split. }
  destruct Hstat as [Hnp Hna]. destruct rec as [r|]; [|lia]. destruct Hrec as [Hk Hrec].
  pose proof (level_sat_inv c delay l) as Hl.
  destruct (permission_to_authority c l) as [auth|e] eqn:Ep.
  2: { rewrite decide_True by (by eapply acyclic_throw). exists st, false. split; [done|]. split; [|by split].
       split; [done|]. rewrite Hl. by intros [?|[?|(a & ? & ?)]]. }
  destruct (acyclic_wf HC _ _ Ep) as [Hwf Hv].
  assert (permission l ≠ 0) as H0 by by eapply (authority_not_empty c (acyclic_no_empty HC)).
  destruct (Hrec (rank l) auth (set_cache st l being_evaluated)) as (st1 & b & Hr & Hb & Hst1 & He).
  { lia. }
  { apply Forall_forall. intros q Hq. by eapply (acyclic_rank HC). }
  { done. }
  { done. }
  { apply cache_exact_insert; [|done..]. eapply cache_exact_weaken; [|done]. lia. }
  assert (same_evaluated (cached_permissions st)
    (<[l := if b then permission_satisfied else permission_unsatisfied]> (cached_permissions st1)))
    as Hsame.
  { intros q [[-> ?]|[? Hq]]%lookup_insert_Some; [by destruct b|].
    apply He in Hq. simpl in Hq. by rewrite lookup_insert_ne in Hq. }
  rewrite Hr. assert (b = true ↔ level_sat c delay l) as Hbl.
  { rewrite Hb, Hl. split; [by eauto 10|]. by intros [?|[?|(a & [= <-] & ?)]]. }
  exists (set_cache st1 l (if b then permission_satisfied else permission_unsatisfied)), b.
  split; [by destruct b|]. split; [done|]. split; [|done].
  apply (cache_exact_raise _ (rank l) _ _ Hst); [|done].
  apply cache_exact_insert; [done..|]. destruct b; naive_solver.
Qed.

Lemma visit_exact k rec R st total m :
  match rec with Some r => (0 < k)%nat ∧ rec_exact (k - 1) r | None => k = O end →
  (R ≤ k)%nat → match m with MAccount q => named (plw_permission q) ∧ (rank (plw_permission q) < R)%nat | _ => True end →
  cache_exact R (cached_permissions st) → in_u32 total → in_u32 (total + meta_weight m) →
  ∃ st' (b : bool), visit c delay rec st total m = Ok (st', if b then total + meta_weight m else total) ∧
    (b = true ↔ meta_sat c delay m) ∧ cache_exact R (cached_permissions st') ∧
    same_evaluated (cached_permissions st) (cached_permissions st').
Proof.
  intros Hrec HR Hm Hst Ht Htw. destruct m as [p|k'|w]; cbn [meta_weight meta_sat visit] in *.
  - destruct Hm. by eapply visit_account_exact.
  - unfold visit_key. rewrite u32_small by done.
    destruct (list_find _ _) as [[i x]|] eqn:E.
    + exists (set_used st (<[i := true]> (_used_keys st))), true. split; [done|]. split; [|done].
      split; [|done]. intros _. apply list_find_Some in E as (Hl & <- & _).
      by eapply list_elem_of_lookup_2.
    + exists st, false. split; [done|]. split; [|done]. split; [done|]. intros Hin.
      apply list_find_None in E. rewrite Forall_forall in E. by destruct (E _ Hin).
  - unfold visit_wait. rewrite u32_small by done.
    exists st, (seconds (wait_sec w) <=? delay). split; [by destruct (_ <=? _)|].
    split; [by rewrite Z.leb_le|done].
Qed.

Lemma satisfied_part {A} (P : A → Prop) fs ns gs :
  Forall (λ x, ¬ P x) ns → gs ⊆+ fs ++ ns → Forall P gs → gs ⊆+ fs.
Proof.
  intros Hns (g1 & g2 & Hg & Hg1 & Hg2)%submseteq_app_r. rewrite Hg, Forall_app. intros [_ Hs].
  destruct g2 as [|x g2]; [by rewrite app_nil_r|]. exfalso.
  apply Forall_cons in Hs as [Hx _]. rewrite Forall_forall in Hns. apply (Hns x); [|done].
  eapply elem_of_submseteq; [|done]. by left.
Qed.

(** [fs] and [ns] are the satisfied and the unsatisfied factors already visited. *)
Lemma tally_exact k rec R thr saved fs ns l st :
  match rec with Some r => (0 < k)%nat ∧ rec_exact (k - 1) r | None => k = O end →
  (R ≤ k)%nat →
  Forall (λ m, match m with MAccount q => named (plw_permission q) ∧ (rank (plw_permission q) < R)%nat | _ => True end) l →
  Forall (λ m, in_u16 (meta_weight m)) (l ++ fs) → meta_sum (l ++ fs) < 2 ^ 32 →
  Forall (meta_sat c delay) fs → Forall (λ m, ¬ meta_sat c delay m) ns → meta_sum fs < thr →
  cache_exact R (cached_permissions st) →
  ∃ st' b, tally c delay rec thr saved st (meta_sum fs) l = Ok (st', b) ∧
    (b = true ↔ ∃ gs, gs ⊆+ l ++ fs ++ ns ∧ Forall (meta_sat c delay) gs ∧ thr <= meta_sum gs) ∧
    cache_exact R (cached_permissions st') ∧
    same_evaluated (cached_permissions st) (cached_permissions st').
Proof.
  intros Hrec HR. revert fs ns st. induction l as [|m l IH]; intros fs ns st Hl Hw Hs Hfs Hns Hlt Hst.
  { exists (set_used st saved), false. split; [done|]. split; [|done]. split; [done|].
    intros (gs & Hgs & Hsat & Hthr). apply (satisfied_part _ _ _ _ Hns) in Hgs; [|done].
    apply meta_sum_submseteq in Hgs; [lia|done]. }
  apply Forall_cons in Hl as [Hm Hl]. pose proof (meta_sum_bounds _ Hw) as Hb.
  simpl in Hw, Hs. apply Forall_cons in Hw as [Hmw Hw]. unfold in_u16 in Hmw.
  rewrite meta_sum_app in Hs. pose proof (proj1 (Forall_app _ _ _) Hw) as [Hw1 Hw2].
  pose proof (meta_sum_bounds _ Hw1). pose proof (meta_sum_bounds _ Hw2).
  destruct (visit_exact k rec R st (meta_sum fs) m) as (st1 & b & Hv & Hbm & Hst1 & He1);
    [done|done|done|done|unfold in_u32; lia|unfold in_u32; lia|].
  cbn [tally]. rewrite Hv. cbn [mbind result_bind].
  set (fs' := if b then m :: fs else fs). set (ns' := if b then ns else m :: ns).
  replace (if b then meta_sum fs + meta_weight m else meta_sum fs) with (meta_sum fs')
    by (unfold fs'; destruct b; simpl; lia).
  assert (Forall (meta_sat c delay) fs' ∧ Forall (λ m, ¬ meta_sat c delay m) ns') as [Hfs' Hns'].
  { unfold fs', ns'. destruct b; split; try done; constructor; naive_solver. }
  assert ((m :: l) ++ fs ++ ns ≡ₚ l ++ fs' ++ ns') as Hperm.
  { unfold fs', ns'. destruct b; simpl; [by rewrite Permutation_middle|].
    rewrite <-(Permutation_middle fs ns). by rewrite Permutation_middle. }
  destruct (thr <=? meta_sum fs') eqn:E.
  - exists st1, true. split; [done|]. split; [|done]. split; [|done]. intros _. exists fs'.
    split; [|split; [done|lia]]. rewrite Hperm.
    by apply submseteq_inserts_l, submseteq_inserts_r.
  - destruct (IH fs' ns' st1) as (st2 & b2 & Ht & Hb2 & Hst2 & He2); [done| | |done|done|lia|done|].
    + unfold fs'. destruct b; [|done]. rewrite <-Permutation_middle. by constructor.
    + rewrite meta_sum_app. unfold fs'. destruct b; simpl; lia.
    + exists st2, b2. split; [done|]. setoid_rewrite Hperm. split; [done|]. split; [done|].
      by transitivity (cached_permissions st1).
Qed.

Lemma tally_authority_exact k rec :
  match rec with Some r => (0 < k)%nat ∧ rec_exact (k - 1) r | None => k = O end →
  rec_exact k (λ auth st,
    tally c delay rec (threshold auth) (_used_keys st) st 0 (meta_permissions auth)).
Proof.
  intros Hrec R auth st HR Hacc Hwf Hv Hst.
  pose proof (meta_permissions_Permutation auth) as Hperm.
  apply validate_exact in Hv as (Ht & Hlen & _); [|done].
  pose proof (factors_wf _ Hwf) as Hfw. pose proof (meta_sum_bounds _ Hfw).
  destruct (tally_exact k rec R (threshold auth) (_used_keys st) [] [] (meta_permissions auth) st)
    as (st' & b & Htal & Hb & ?); [done|done| | | |done|done|simpl; lia|done|].
  - rewrite Hperm. unfold factors. rewrite !Forall_app, !Forall_fmap.
    split; [by apply Forall_true|]. split; [by apply Forall_true|done].
  - rewrite app_nil_r, Hperm. done.
  - rewrite app_nil_r, Hperm. lia.
  - exists st', b. split; [done|]. split; [|done]. rewrite Hb. simpl. rewrite app_nil_r.
    unfold authority_sat. by setoid_rewrite Hperm.
Qed.

Lemma satisfied_at_exact k : rec_exact k (satisfied_at c delay k).
Proof.
  induction k as [|k IH]; [by apply (tally_authority_exact 0 None)|].
  apply (tally_authority_exact (S k) (Some (satisfied_at c delay k))).
  split; [lia|]. by rewrite Nat.sub_succ, Nat.sub_0_r.
Qed.

Lemma initialize_cache_exact R : cache_exact R (initialize_permission_cache c).
Proof.
  split.
  - intros q s. rewrite initialize_cache_lookup. case_bool_decide; [|done].
    intros [= <-]. by apply level_provided.
  - intros q Hq. by rewrite initialize_cache_lookup, bool_decide_eq_true_2.
  - intros q s. rewrite initialize_cache_lookup. by case_bool_decide.
Qed.

(** C12: the checker decides satisfaction: over validated authorities that do not refer to each other
    in cycles, and for a permission whose nesting is below the depth limit, [satisfied] returns,
    and it answers true exactly when the provided keys, permissions and delay satisfy it. *)
Theorem checker_decides used p :
  named p → (rank p < recursion_depth_limit c)%nat →
  ∃ used' b, satisfied_level c used p delay = Ok (used', b) ∧ (b = true ↔ level_sat c delay p).
Proof.
  intros Hn Hp. unfold satisfied_level.
  destruct (visit_account_exact (recursion_depth_limit c)
    (match recursion_depth_limit c with O => None | S k => Some (satisfied_at c delay k) end)
    (S (rank p)) (CheckerState used (initialize_permission_cache c)) 0 (PermissionLevelWeight p 1))
    as (st & b & Hv & Hb & _); [|lia|done|simpl; lia|apply initialize_cache_exact|done|done|].
  - destruct (recursion_depth_limit c) as [|k]; [done|]. split; [lia|].
    rewrite Nat.sub_succ, Nat.sub_0_r. apply satisfied_at_exact.
  - rewrite Hv. exists (_used_keys st), b. split; [by destruct b|done].
Qed.

End checker_exact.

(** ** The markers of used keys *)
Section markers.
Context {FC : Fc} {KO : FcKeyOrder}.
Context (c : checker) (delay : Z).

Definition marks_le (u u' : list bool) : Prop :=
  length u = length u' ∧ ∀ i, u !! i = Some true → u' !! i = Some true.

Global Instance marks_le_preorder : PreOrder marks_le.
Proof. split; [by split|]. intros u1 u2 u3 [? H1] [? H2]. split; [lia|auto]. Qed.

(** From markers [u], a check that succeeds only sets markers of provided keys, and a check that
    fails restores them. *)
Definition rec_marks (rec : option (authority → checker_state → result (checker_state * bool))) :=
  ∀ r auth st st' b, rec = Some r → r auth st = Ok (st', b) →
    marks_le (_used_keys st) (_used_keys st') ∧ (b = false → _used_keys st' = _used_keys st).

Lemma visit_account_marks rec st total p st' total' :
  rec_marks rec → visit_account c rec st total p = Ok (st', total') →
  marks_le (_used_keys st) (_used_keys st') ∧ (_used_keys st' = _used_keys st ∨
    total' = u32 (total + plw_weight p)).
Proof.
  intros Hrec. unfold visit_account. destruct (permission_status_in_cache _ _) as [[]|].
  1-3: intros [= <- <-]; by split; [|left].
  destruct rec as [r|]; [|intros [= <- <-]; by split; [|left]].
  destruct (permission_to_authority _ _) as [auth|e];
    [|by destruct (decide _); intros [= <- <-]; split; [|left]].
  intros ([st1 b] & Hr & H)%bind_ok. destruct (Hrec _ _ _ _ _ eq_refl Hr) as [Hle Hf].
  destruct b; injection H as <- <-; simpl in *; auto.
Qed.

Lemma visit_marks rec st total m st' total' :
  rec_marks rec → visit c delay rec st total m = Ok (st', total') →
  marks_le (_used_keys st) (_used_keys st').
Proof.
  intros Hrec. destruct m as [p|k|w]; cbn [visit].
  - intros H. by eapply visit_account_marks in H as [? _].
  - unfold visit_key. destruct (list_find _ _) as [[i x]|]; intros [= <- <-]; [|done].
    split; [symmetry; apply length_insert|]. intros j Hj. simpl.
    destruct (decide (i = j)) as [->|]; [|by rewrite list_lookup_insert_ne].
    apply list_lookup_insert_eq. by eapply lookup_lt_Some.
  - by intros [= <- <-].
Qed.

Lemma tally_marks rec thr saved st total l st' b :
  rec_marks rec → marks_le saved (_used_keys st) →
  tally c delay rec thr saved st total l = Ok (st', b) →
  marks_le saved (_used_keys st') ∧ (b = false → _used_keys st' = saved).
Proof.
  intros Hrec. revert st total. induction l as [|m l IH]; intros st total Hle; cbn [tally].
  { by intros [= <- <-]. }
  intros ([st1 t1] & Hv & H)%bind_ok. apply visit_marks in Hv; [|done].
  assert (marks_le saved (_used_keys st1)) by by etransitivity.
  destruct (thr <=? t1); [by injection H as <- <-|]. by eapply IH.
Qed.

Lemma satisfied_at_marks k : rec_marks (Some (satisfied_at c delay k)).
Proof.
  induction k as [|k IH]; intros r auth st st' b [= <-] H; eapply tally_marks in H; done.
Qed.

(** a check of a permission that fails leaves the markers of used keys as they were, and one
    that succeeds never clears a marker. *)
Theorem used_keys_behaviour used p used' b :
  satisfied_level c used p delay = Ok (used', b) →
  (b = false → used' = used) ∧ length used' = length used ∧
  ∀ i, used !! i = Some true → used' !! i = Some true.
Proof.
  unfold satisfied_level. intros ([st t] & Hv & H)%bind_ok. injection H as <- <-.
  apply visit_account_marks in Hv as [[Hlen Hle] Hcase].
  - simpl in *. split; [|by split]. intros Ht. destruct Hcase as [?| ->]; [done|by vm_compute in Ht].
  - destruct (recursion_depth_limit c); [by intros ??|apply satisfied_at_marks].
Qed.

End markers.

(** ** A concrete instance: keys are numbers *)
#[local] Existing Instance toy_fc.

Definition toy_key_order : @FcKeyOrder toy_fc := {| key_ltb := Z.ltb |}.
Lemma toy_key_order_laws : @FcKeyOrderLaws toy_fc toy_key_order.
Proof. split; simpl; intros; lia. Qed.
#[local] Existing Instances toy_key_order toy_key_order_laws.

(** Account 1 is controlled by key 7 and account 2, account 2 by key 8 or a wait of an hour. *)
Definition toy_two_of_two : authority :=
  Authority 2 [@KeyWeight toy_fc 7 1] [PermissionLevelWeight (PermissionLevel 2 10) 1] [].
Definition toy_key_or_wait : authority := Authority 1 [@KeyWeight toy_fc 8 1] [] [WaitWeight 3600 1].
Definition toy_pta (p : permission_level) : result authority :=
  if decide (p = PermissionLevel 1 10) then Ok toy_two_of_two
  else if decide (p = PermissionLevel 2 10) then Ok toy_key_or_wait
  else Throw permission_query_exception.
Definition toy_checker : checker := Checker toy_pta [7] [] 6.

Lemma toy_pta_cases p a :
  toy_pta p = Ok a →
  p = PermissionLevel 1 10 ∧ a = toy_two_of_two ∨ p = PermissionLevel 2 10 ∧ a = toy_key_or_wait.
Proof. unfold toy_pta. repeat case_decide; naive_solver. Qed.

Lemma toy_authorities_wf p a : toy_pta p = Ok a → authority_wf a.
Proof.
  intros [[_ ->]|[_ ->]]%toy_pta_cases; repeat split; repeat constructor; vm_compute; done.
Qed.

Lemma validate_exact_witness : valid_authority toy_two_of_two.
Proof.
  apply (validate_exact toy_two_of_two); [|vm_compute; reflexivity].
  apply (toy_authorities_wf (PermissionLevel 1 10)). reflexivity.
Defined.

Lemma checker_sound_witness : level_sat toy_checker 3600000000 (PermissionLevel 1 10).
Proof.
  apply (checker_sound toy_checker 3600000000) with (used := [false]) (used' := [true]).
  - intros a auth [[? _]|[? _]]%toy_pta_cases; discriminate.
  - exact toy_authorities_wf.
  - vm_compute. reflexivity.
Defined.

Lemma checker_authority_sound_witness : authority_sat toy_checker 3600000000 toy_two_of_two.
Proof.
  apply (checker_authority_sound toy_checker 3600000000) with (used := [false]) (used' := [true]).
  - intros a auth [[? _]|[? _]]%toy_pta_cases; discriminate.
  - exact toy_authorities_wf.
  - apply (toy_authorities_wf (PermissionLevel 1 10)). reflexivity.
  - vm_compute. reflexivity.
Defined.

Definition toy_rank (p : permission_level) : nat := if actor p =? 1 then 1 else 0.

Lemma toy_acyclic : acyclic_authorities toy_checker toy_rank.
Proof.
  split.
  - intros a auth [[? _]|[? _]]%toy_pta_cases; discriminate.
  - intros p auth Hp. split; [by eapply toy_authorities_wf|].
    by apply toy_pta_cases in Hp as [[_ ->]|[_ ->]].
  - intros p auth q [[-> ->]|[-> ->]]%toy_pta_cases Hq; simpl in Hq.
    + apply list_elem_of_singleton in Hq as ->. by repeat split; vm_compute; lia.
    + by apply elem_of_nil in Hq.
  - simpl. unfold toy_pta. intros p e _. repeat case_decide; naive_solver.
Qed.

Lemma checker_decides_witness :
  ∃ used' b, satisfied_level toy_checker [false] (PermissionLevel 1 10) 0 = Ok (used', b) ∧
    (b = true ↔ level_sat toy_checker 0 (PermissionLevel 1 10)).
Proof.
  apply (checker_decides toy_checker 0 toy_rank toy_acyclic); [by split|vm_compute; lia].
Defined.

Lemma used_keys_behaviour_witness :
  (false = false → [false] = [false]) ∧ length [false] = length [false] ∧
  ∀ i, [false] !! i = Some true → [false] !! i = Some true.
Proof.
  apply (used_keys_behaviour toy_checker 0 [false] (PermissionLevel 1 10)). vm_compute. reflexivity.
Defined.

(** Permission 1 is satisfied through 3 and then 4, which key 7 controls; permission 2, tried first,
    also needs the missing key 9. *)
Definition toy_shared_pta (p : permission_level) : result authority :=
  match actor p with
  | 1 => Ok (Authority 1 [] [PermissionLevelWeight (PermissionLevel 2 10) 2;
                             PermissionLevelWeight (PermissionLevel 3 10) 1] [])
  | 2 => Ok (Authority 2 [@KeyWeight toy_fc 9 1] [PermissionLevelWeight (PermissionLevel 4 10) 1] [])
  | 3 => Ok (Authority 1 [] [PermissionLevelWeight (PermissionLevel 4 10) 1] [])
  | 4 => Ok (Authority 1 [@KeyWeight toy_fc 7 1] [] [])
  | _ => Throw permission_query_exception
  end.

(** the markers can miss a key that was needed: what a failed branch satisfied stays cached
    while its key markers are reverted, so a later use of the cached permission leaves the key
    marked unused, although without that key the permission is not satisfied.  The caller then
    rejects the signature as irrelevant. *)
Theorem used_keys_missed :
  satisfied_level (Checker toy_shared_pta [7] [] 6) [false] (PermissionLevel 1 10) 0
    = Ok ([false], true) ∧
  all_keys_used [false] = false ∧
  satisfied_level (Checker toy_shared_pta [] [] 6) [] (PermissionLevel 1 10) 0 = Ok ([], false).
Proof. split; [|split]; vm_compute; reflexivity. Qed.
