(* ===== verification/ChainConfig.v ===== *)
(** * Chain configuration

    Models chain_config.hpp, chain_config.cpp, the defaults of genesis_state.hpp and config.hpp, and
    the step of controller::finalize_block (controller.cpp) that turns the configuration into the
    block parameters of the resource limits. *)

From S2P Require Import Prelude Merkle BlockHeader Resources.

Record chain_config := ChainConfig {
  max_block_net_usage : Z;
  target_block_net_usage_pct : Z;
  max_transaction_net_usage : Z;
  base_per_transaction_net_usage : Z;
  net_usage_leeway : Z;
  context_free_discount_net_usage_num : Z;
  context_free_discount_net_usage_den : Z;
  max_block_cpu_usage : Z;
  target_block_cpu_usage_pct : Z;
  max_transaction_cpu_usage : Z;
  min_transaction_cpu_usage : Z;
  max_transaction_lifetime : Z;
  deferred_trx_expiration_window : Z;
  max_transaction_delay : Z;
  max_inline_action_size : Z;
  max_inline_action_depth : Z;
  max_authority_depth : Z;
}.

Definition min_net_usage_delta_between_base_and_max_for_trx : Z := 10 * 1024.

Definition config_validate (c : chain_config) : result unit :=
  _ ← EOS_ASSERT (target_block_net_usage_pct c <=? percent_100) action_validate_exception;
  _ ← EOS_ASSERT (percent_1 / 10 <=? target_block_net_usage_pct c) action_validate_exception;
  _ ← EOS_ASSERT (target_block_cpu_usage_pct c <=? percent_100) action_validate_exception;
  _ ← EOS_ASSERT (percent_1 / 10 <=? target_block_cpu_usage_pct c) action_validate_exception;
  _ ← EOS_ASSERT (max_transaction_net_usage c <? max_block_net_usage c) action_validate_exception;
  _ ← EOS_ASSERT (max_transaction_cpu_usage c <? max_block_cpu_usage c) action_validate_exception;
  _ ← EOS_ASSERT (base_per_transaction_net_usage c <? max_transaction_net_usage c)
        action_validate_exception;
  _ ← EOS_ASSERT (min_net_usage_delta_between_base_and_max_for_trx <=?
                  u32 (max_transaction_net_usage c - base_per_transaction_net_usage c))
        action_validate_exception;
  _ ← EOS_ASSERT (0 <? context_free_discount_net_usage_den c) action_validate_exception;
  _ ← EOS_ASSERT (context_free_discount_net_usage_num c <=? context_free_discount_net_usage_den c)
        action_validate_exception;
  _ ← EOS_ASSERT (min_transaction_cpu_usage c <=? max_transaction_cpu_usage c)
        action_validate_exception;
  _ ← EOS_ASSERT (max_transaction_cpu_usage c <?
                  u32 (max_block_cpu_usage c - min_transaction_cpu_usage c))
        action_validate_exception;
  EOS_ASSERT (1 <=? max_authority_depth c) action_validate_exception.

(** [operator==], as it is written: it compares max_transaction_cpu_usage twice. *)
Definition config_eqb (l r : chain_config) : bool :=
  (max_block_net_usage l =? max_block_net_usage r) &&
  (target_block_net_usage_pct l =? target_block_net_usage_pct r) &&
  (max_transaction_net_usage l =? max_transaction_net_usage r) &&
  (base_per_transaction_net_usage l =? base_per_transaction_net_usage r) &&
  (net_usage_leeway l =? net_usage_leeway r) &&
  (context_free_discount_net_usage_num l =? context_free_discount_net_usage_num r) &&
  (context_free_discount_net_usage_den l =? context_free_discount_net_usage_den r) &&
  (max_block_cpu_usage l =? max_block_cpu_usage r) &&
  (target_block_cpu_usage_pct l =? target_block_cpu_usage_pct r) &&
  (max_transaction_cpu_usage l =? max_transaction_cpu_usage r) &&
  (max_transaction_cpu_usage l =? max_transaction_cpu_usage r) &&
  (max_transaction_lifetime l =? max_transaction_lifetime r) &&
  (deferred_trx_expiration_window l =? deferred_trx_expiration_window r) &&
  (max_transaction_delay l =? max_transaction_delay r) &&
  (max_inline_action_size l =? max_inline_action_size r) &&
  (max_inline_action_depth l =? max_inline_action_depth r) &&
  (max_authority_depth l =? max_authority_depth r).

(** The configuration of the genesis state. *)
Definition initial_configuration : chain_config := {|
  max_block_net_usage := default_max_block_net_usage;
  target_block_net_usage_pct := default_target_block_net_usage_pct;
  max_transaction_net_usage := default_max_block_net_usage / 2;
  base_per_transaction_net_usage := 12;
  net_usage_leeway := 500;
  context_free_discount_net_usage_num := 20;
  context_free_discount_net_usage_den := 100;
  max_block_cpu_usage := default_max_block_cpu_usage;
  target_block_cpu_usage_pct := default_target_block_cpu_usage_pct;
  max_transaction_cpu_usage := 3 * default_max_block_cpu_usage / 4;
  min_transaction_cpu_usage := 100;
  max_transaction_lifetime := 60 * 60;
  deferred_trx_expiration_window := 10 * 60;
  max_transaction_delay := 45 * 24 * 3600;
  max_inline_action_size := 4 * 1024;
  max_inline_action_depth := 4;
  max_authority_depth := 6;
|}.

(** [EOS_PERCENT_CEIL] on unsigned numbers of unbounded width. *)
Definition EOS_PERCENT_CEIL (value percentage : Z) : Z :=
  (value * percentage + percent_100 - percent_1) / percent_100.

(** The parameters that finalize_block passes to set_block_parameters. *)
Definition block_cpu_parameters (c : chain_config) : elastic_limit_parameters := {|
  target := EOS_PERCENT (max_block_cpu_usage c) (target_block_cpu_usage_pct c);
  Resources.max := max_block_cpu_usage c;
  periods := block_cpu_usage_average_window_ms / block_interval_ms;
  max_multiplier := 1000;
  contract_rate := Ratio 99 100;
  expand_rate := Ratio 1000 999;
|}.
Definition block_net_parameters (c : chain_config) : elastic_limit_parameters := {|
  target := EOS_PERCENT (max_block_net_usage c) (target_block_net_usage_pct c);
  Resources.max := max_block_net_usage c;
  periods := block_size_average_window_ms / block_interval_ms;
  max_multiplier := 1000;
  contract_rate := Ratio 99 100;
  expand_rate := Ratio 1000 999;
|}.

(** The resource-limit part of [finalize_block]. *)
Definition finalize_resources (db : resource_db) (c : chain_config) (block_num : Z)
    : result resource_db :=
  db ← process_account_limit_updates db;
  db ← set_block_parameters db (block_cpu_parameters c) (block_net_parameters c);
  process_block_usage db block_num.

(** ** Properties *)

(** The fields are within their machine types. *)
Record config_wf (c : chain_config) : Prop := {
  wf_max_block_net : in_u64 (max_block_net_usage c);
  wf_net_pct : in_u32 (target_block_net_usage_pct c);
  wf_max_trx_net : in_u32 (max_transaction_net_usage c);
  wf_base_net : in_u32 (base_per_transaction_net_usage c);
  wf_max_block_cpu : in_u32 (max_block_cpu_usage c);
  wf_cpu_pct : in_u32 (target_block_cpu_usage_pct c);
  wf_max_trx_cpu : in_u32 (max_transaction_cpu_usage c);
  wf_min_trx_cpu : in_u32 (min_transaction_cpu_usage c);
}.

(** What the messages of [validate] say, in exact arithmetic. *)
Record config_valid (c : chain_config) : Prop := {
  valid_net_pct : 10 <= target_block_net_usage_pct c <= 10000;
  valid_cpu_pct : 10 <= target_block_cpu_usage_pct c <= 10000;
  valid_net : max_transaction_net_usage c < max_block_net_usage c;
  valid_base_net : base_per_transaction_net_usage c + 10240 <= max_transaction_net_usage c;
  valid_den : 0 < context_free_discount_net_usage_den c;
  valid_num : context_free_discount_net_usage_num c <= context_free_discount_net_usage_den c;
  valid_min_cpu : min_transaction_cpu_usage c <= max_transaction_cpu_usage c;
  valid_cpu : max_transaction_cpu_usage c + min_transaction_cpu_usage c < max_block_cpu_usage c;
  valid_depth : 1 <= max_authority_depth c;
}.

Lemma config_validate_iff c : config_wf c → config_validate c = Ok tt ↔ config_valid c.
Proof.
  intros []. unfold in_u32, in_u64 in *. split.
  - intros H. unfold config_validate in H. inv_ok.
    change (percent_1 / 10) with 10 in *. unfold percent_100 in *. reflect_bools.
    rewrite u32_small in * by lia.
    unfold min_net_usage_delta_between_base_and_max_for_trx in *. constructor; lia.
  - intros []. unfold config_validate, min_net_usage_delta_between_base_and_max_for_trx.
    rewrite !u32_small by lia. change (percent_1 / 10) with 10. unfold percent_100, percent_1.
    repeat match goal with
      | |- context [EOS_ASSERT ?b _] =>
          replace b with true by (symmetry; first [apply Z.leb_le | apply Z.ltb_lt]; lia)
      end.
    reflexivity.
Qed.

Lemma EOS_PERCENT_exact v p :
  0 <= v → 0 <= p <= 10000 → v * 10000 < 2 ^ 64 → EOS_PERCENT v p = v * p / 10000 ∧ EOS_PERCENT v p <= v.
Proof.
  intros Hv Hp Ho. unfold EOS_PERCENT. rewrite u64_small by nia. change percent_100 with 10000.
  split; [done|]. apply Z.div_le_upper_bound; nia.
Qed.

(** [chain_config::validate] accepts exactly the configurations its messages describe, its
    uint32 differences never wrap; and for an accepted configuration whose block net usage fits the
    percent arithmetic the block parameters derived at the end of a block are accepted, with
    targets that are the exact percentage of the maximum and do not exceed it. *)
Theorem config_validate_exact c :
  config_wf c →
  (config_validate c = Ok tt ↔ config_valid c) ∧
  (config_validate c = Ok tt → max_block_net_usage c * 10000 < 2 ^ 64 →
   ∀ db, is_ok (set_block_parameters db (block_cpu_parameters c) (block_net_parameters c)) = true ∧
     target (block_cpu_parameters c) = max_block_cpu_usage c * target_block_cpu_usage_pct c / 10000 ∧
     target (block_net_parameters c) = max_block_net_usage c * target_block_net_usage_pct c / 10000 ∧
     target (block_cpu_parameters c) <= max_block_cpu_usage c ∧
     target (block_net_parameters c) <= max_block_net_usage c).
Proof.
  intros Hwf. split; [by apply config_validate_iff|].
  intros Hv%config_validate_iff Ho db; [|done]. destruct Hv, Hwf. unfold in_u32, in_u64 in *.
  destruct (EOS_PERCENT_exact (max_block_cpu_usage c) (target_block_cpu_usage_pct c)); [lia..|].
  destruct (EOS_PERCENT_exact (max_block_net_usage c) (target_block_net_usage_pct c)); [lia..|].
  done.
Qed.

Lemma initial_configuration_wf : config_wf initial_configuration.
Proof. by split; vm_compute. Qed.

Lemma config_validate_exact_witness : config_valid initial_configuration.
Proof.
  apply (config_validate_exact initial_configuration initial_configuration_wf).
  vm_compute. reflexivity.
Defined.

(** [operator==] misses min_transaction_cpu_usage: two valid configurations that differ only in
    it compare equal. *)
Theorem config_equality_misses_a_field :
  ∃ c, config_validate c = Ok tt ∧ config_eqb c initial_configuration = true ∧
    min_transaction_cpu_usage c ≠ min_transaction_cpu_usage initial_configuration.
Proof.
  exists (ChainConfig 1048576 1000 524288 12 500 20 100 200000 1000 150000 200 3600 600 3888000 4096 4 6).
  split; [|split]; vm_compute; done.
Qed.

(** [EOS_PERCENT_CEIL] does not round up: it adds 9900 instead of 9999 before it divides by
    10000, so a product with a remainder of at most 99 is rounded down. *)
Theorem percent_ceil_rounds_down v p :
  0 < (v * p) mod 10000 < 100 → EOS_PERCENT_CEIL v p = v * p / 10000.
Proof.
  intros H. unfold EOS_PERCENT_CEIL, percent_100, percent_1.
  rewrite (Z.div_mod (v * p) 10000) at 1 by lia.
  replace (10000 * (v * p / 10000) + (v * p) mod 10000 + 10000 - 100)
    with (((v * p) mod 10000 + 9900) + (v * p / 10000) * 10000) by lia.
  rewrite Z.div_add by lia. rewrite Z.div_small by lia. lia.
Qed.

Lemma percent_ceil_rounds_down_witness : EOS_PERCENT_CEIL 5 10 = 0.
Proof. apply (percent_ceil_rounds_down 5 10). vm_compute. done. Defined.
