(* ===== verification/AuthManager.v ===== *)
(** * The authorization manager

    Models authorization_manager.cpp with permission_object.hpp and permission_link_object.hpp of
    libraries/chain, and the argument structs of the native actions of contract_types.hpp: the tables
    of permissions, their usage and their links, the parent relation between the permissions of an
    account, and the check that the declared authorizations of a transaction suffice and are
    satisfied.  Decoding the data of an action and unpacking a stored transaction are parameters. *)

From Stdlib Require Import Sorted.
From stdpp Require Import strings.
From S2P Require Import Prelude Names Merkle BlockHeader Authority ChainConfig.

(** ** Names (config.hpp, contract_types.hpp): [N(...)] is [string_to_name] *)
Definition system_account_name : Z := Eval vm_compute in string_to_name (codes "eonio").
Definition active_name : Z := Eval vm_compute in string_to_name (codes "active").
Definition owner_name : Z := Eval vm_compute in string_to_name (codes "owner").
Definition eosio_any_name : Z := Eval vm_compute in string_to_name (codes "eonio.any").
Definition eosio_code_name : Z := Eval vm_compute in string_to_name (codes "eonio.code").
Definition updateauth_name : Z := Eval vm_compute in string_to_name (codes "updateauth").
Definition deleteauth_name : Z := Eval vm_compute in string_to_name (codes "deleteauth").
Definition linkauth_name : Z := Eval vm_compute in string_to_name (codes "linkauth").
Definition unlinkauth_name : Z := Eval vm_compute in string_to_name (codes "unlinkauth").
Definition canceldelay_name : Z := Eval vm_compute in string_to_name (codes "canceldelay").

(** Permission, action and transaction identifiers. *)
Definition permission_name := Z.
Definition action_name := Z.
Definition time_point := Z.

Section contract_types.
Context {FC : Fc}.

(** ** Arguments of the native actions (contract_types.hpp) *)
Record newaccount := NewAccount {
  na_creator : account_name;
  na_name : account_name;
  na_owner : authority;
  na_active : authority;
}.
Record setcode := SetCode {
  sc_account : account_name;
  sc_vmtype : Z;
  sc_vmversion : Z;
  sc_code : list Z;
}.
Record setabi := SetAbi { sa_account : account_name; sa_abi : list Z }.
Record updateauth := UpdateAuth {
  ua_account : account_name;
  ua_permission : permission_name;
  ua_parent : permission_name;
  ua_auth : authority;
}.
Record deleteauth := DeleteAuth { da_account : account_name; da_permission : permission_name }.
Record linkauth := LinkAuth {
  la_account : account_name;
  la_code : account_name;
  la_type : action_name;
  la_requirement : permission_name;
}.
Record unlinkauth := UnlinkAuth {
  ul_account : account_name;
  ul_code : account_name;
  ul_type : action_name;
}.
Record canceldelay := CancelDelay { cd_canceling_auth : permission_level; cd_trx_id : digest }.

End contract_types.

(** fc::raw::unpack of the data of an action into an argument struct. *)
Class ActionCodec `{Fc} := {
  action_data : Type;
  unpack_newaccount : action_data → result newaccount;
  unpack_setcode : action_data → result setcode;
  unpack_setabi : action_data → result setabi;
  unpack_updateauth : action_data → result updateauth;
  unpack_deleteauth : action_data → result deleteauth;
  unpack_linkauth : action_data → result linkauth;
  unpack_unlinkauth : action_data → result unlinkauth;
  unpack_canceldelay : action_data → result canceldelay;
}.

(** action.hpp *)
Record action `{ActionCodec} := Action {
  act_account : account_name;
  act_name : action_name;
  act_authorization : list permission_level;
  act_data : action_data;
}.
Arguments Action {_ _} _ _ _ _.

(** [data_as<T>]: [name] is T::get_name(), and every T here has the system account. *)
Definition data_as `{ActionCodec} {T} (name : action_name) (unpack : action_data → result T)
    (act : action) : result T :=
  _ ← EOS_ASSERT (act_account act =? system_account_name) action_type_exception;
  _ ← EOS_ASSERT (act_name act =? name) action_type_exception;
  unpack (act_data act).

(** Stored transactions are packed; what is used of them here are their actions. *)
Class TransactionCodec `{ActionCodec} := {
  packed_trx : Type;
  unpack_actions : packed_trx → result (list action);
}.

Section auth_manager.
Context {FC : Fc} {AC : ActionCodec} {TC : TransactionCodec}.

(** ** permission_object.hpp, permission_link_object.hpp *)
Record permission_object := PermissionObject {
  po_id : Z;
  po_usage_id : Z;
  po_parent : Z;
  po_owner : account_name;
  po_name : permission_name;
  po_last_updated : time_point;
  po_auth : authority;
}.

(** The three tables with the next ids of chainbase: permissions and their usage by id, and links
    by (account, code, message_type). *)
Record auth_db := AuthDb {
  permission_index : gmap Z permission_object;
  next_permission_id : Z;
  permission_usage_index : gmap Z time_point;
  next_usage_id : Z;
  permission_link_index : gmap (account_name * account_name * action_name) permission_name;
}.

Definition with_permissions (db : auth_db) (m : gmap Z permission_object) : auth_db :=
  AuthDb m (next_permission_id db) (permission_usage_index db) (next_usage_id db)
    (permission_link_index db).
Definition with_usages (db : auth_db) (m : gmap Z time_point) : auth_db :=
  AuthDb (permission_index db) (next_permission_id db) m (next_usage_id db)
    (permission_link_index db).
Definition with_links (db : auth_db)
    (m : gmap (account_name * account_name * action_name) permission_name) : auth_db :=
  AuthDb (permission_index db) (next_permission_id db) (permission_usage_index db)
    (next_usage_id db) m.

(** The unique index by_owner. *)
Definition find_by_owner (db : auth_db) (owner : account_name) (name : permission_name)
    : option permission_object :=
  snd <$> map_find (λ ip, po_owner ip.2 = owner ∧ po_name ip.2 = name) (permission_index db).

(** The loop of [satisfies]: it climbs from [parent], an object of the index, to the root. *)
Fixpoint satisfies_while (fuel : nat) (index : gmap Z permission_object) (id : Z)
    (parent : permission_object) : result bool :=
  match fuel with
  | O => Throw out_of_fuel
  | S fuel =>
      if id =? po_parent parent then mret true
      else if po_parent parent =? 0 then mret false
      else
        next ← of_option (index !! po_parent parent) undefined_behaviour;
        satisfies_while fuel index id next
  end.

Definition satisfies (this other : permission_object) (index : gmap Z permission_object)
    : result bool :=
  if negb (po_owner this =? po_owner other) then mret false
  else if (po_id this =? po_id other) || (po_id this =? po_parent other) then mret true
  else
    parent ← of_option (index !! po_parent other) undefined_behaviour;
    satisfies_while (S (size index)) index (po_id this) parent.

(** ** authorization_manager.cpp *)

(** An object whose fields are default-initialized, with the id chainbase gave it. *)
Definition permission_default (id : Z) : permission_object :=
  PermissionObject id 0 0 0 0 0 (Authority 0 [] [] []).

(** [_db.create<permission_object>]: the id is the next one, the indexes are unique. *)
Definition create_permission_object (db : auth_db) (f : permission_object → permission_object)
    : result (auth_db * permission_object) :=
  let p := f (permission_default (next_permission_id db)) in
  _ ← EOS_ASSERT (bool_decide (find_by_owner db (po_owner p) (po_name p) = None))
        db_uniqueness_violation;
  mret (AuthDb (<[next_permission_id db := p]> (permission_index db)) (next_permission_id db + 1)
          (permission_usage_index db) (next_usage_id db) (permission_link_index db), p).

Definition initialize_permissions : result auth_db :=
  '(db, _) ← create_permission_object (AuthDb ∅ 0 ∅ 0 ∅) (λ p, p);
  mret db.

Definition create_usage (db : auth_db) (last_used : time_point) : auth_db * Z :=
  (AuthDb (permission_index db) (next_permission_id db)
     (<[next_usage_id db := last_used]> (permission_usage_index db)) (next_usage_id db + 1)
     (permission_link_index db), next_usage_id db).

(** Both overloads; [pending_block_time] is the controller's. *)
Definition create_permission (pending_block_time : time_point) (db : auth_db)
    (account : account_name) (name : permission_name) (parent : Z) (auth : authority)
    (initial_creation_time : time_point) : result (auth_db * permission_object) :=
  let creation_time :=
    if initial_creation_time =? 0 then pending_block_time else initial_creation_time in
  let '(db, usage_id) := create_usage db creation_time in
  create_permission_object db
    (λ p, PermissionObject (po_id p) usage_id parent account name creation_time auth).

Definition modify_permission (pending_block_time : time_point) (db : auth_db)
    (p : permission_object) (auth : authority) : auth_db :=
  with_permissions db
    (<[po_id p := PermissionObject (po_id p) (po_usage_id p) (po_parent p) (po_owner p) (po_name p)
                    pending_block_time auth]> (permission_index db)).

(** The children in the index by_parent. *)
Definition child_permissions (db : auth_db) (id : Z) : list Z :=
  (filter (λ ip, po_parent ip.2 = id) (map_to_list (permission_index db))).*1.

Definition remove_permission (db : auth_db) (p : permission_object) : result auth_db :=
  _ ← EOS_ASSERT (bool_decide (child_permissions db (po_id p) = [])) action_validate_exception;
  _ ← of_option (permission_usage_index db !! po_usage_id p) db_not_found;
  let db := with_usages db (delete (po_usage_id p) (permission_usage_index db)) in
  mret (with_permissions db (delete (po_id p) (permission_index db))).

Definition update_permission_usage (pending_block_time : time_point) (db : auth_db)
    (p : permission_object) : result auth_db :=
  _ ← of_option (permission_usage_index db !! po_usage_id p) db_not_found;
  mret (with_usages db (<[po_usage_id p := pending_block_time]> (permission_usage_index db))).

Definition get_permission_last_used (db : auth_db) (p : permission_object) : result time_point :=
  of_option (permission_usage_index db !! po_usage_id p) db_not_found.

(** A chain_exception such as invalid_permission passes through EOS_RETHROW_EXCEPTIONS; the
    out_of_range of the database becomes a permission_query_exception. *)
Definition find_permission (db : auth_db) (level : permission_level)
    : result (option permission_object) :=
  _ ← EOS_ASSERT (negb (actor level =? 0) && negb (permission level =? 0)) invalid_permission;
  mret (find_by_owner db (actor level) (permission level)).

Definition get_permission (db : auth_db) (level : permission_level) : result permission_object :=
  _ ← EOS_ASSERT (negb (actor level =? 0) && negb (permission level =? 0)) invalid_permission;
  of_option (find_by_owner db (actor level) (permission level)) permission_query_exception.

Definition lookup_linked_permission (db : auth_db) (authorizer scope : account_name)
    (act_name : action_name) : option permission_name :=
  match permission_link_index db !! (authorizer, scope, act_name) with
  | Some p => Some p
  | None => permission_link_index db !! (authorizer, scope, 0)
  end.

Definition unlinkable (act_name : action_name) : bool :=
  (act_name =? updateauth_name) || (act_name =? deleteauth_name) || (act_name =? linkauth_name) ||
  (act_name =? unlinkauth_name) || (act_name =? canceldelay_name).

Definition lookup_minimum_permission (db : auth_db) (authorizer scope : account_name)
    (act_name : action_name) : result (option permission_name) :=
  _ ← (if scope =? system_account_name
       then EOS_ASSERT (negb (unlinkable act_name)) unlinkable_min_permission_action
       else mret tt);
  match lookup_linked_permission db authorizer scope act_name with
  | None => mret (Some active_name)
  | Some linked => if linked =? eosio_any_name then mret None else mret (Some linked)
  end.

(** [EOS_ASSERT( get_permission(auth).satisfies( min, ... ), irrelevant_auth_exception, ... )] *)
Definition require_satisfies (db : auth_db) (auth : permission_level) (min : permission_object)
    : result unit :=
  p ← get_permission db auth;
  s ← satisfies p min (permission_index db);
  EOS_ASSERT s irrelevant_auth_exception.

Definition single_auth (auths : list permission_level) : result permission_level :=
  match auths with
  | [auth] => mret auth
  | _ => Throw irrelevant_auth_exception
  end.

(** The permission that an updateauth must be authorized by: the one it changes, or the parent of
    the one it creates. *)
Definition updateauth_minimum (db : auth_db) (update : updateauth) : result permission_object :=
  found ← find_permission db (PermissionLevel (ua_account update) (ua_permission update));
  match found with
  | Some p => mret p
  | None => get_permission db (PermissionLevel (ua_account update) (ua_parent update))
  end.

Definition check_updateauth_authorization (db : auth_db) (update : updateauth)
    (auths : list permission_level) : result unit :=
  auth ← single_auth auths;
  _ ← EOS_ASSERT (actor auth =? ua_account update) irrelevant_auth_exception;
  min_permission ← updateauth_minimum db update;
  require_satisfies db auth min_permission.

Definition check_deleteauth_authorization (db : auth_db) (del : deleteauth)
    (auths : list permission_level) : result unit :=
  auth ← single_auth auths;
  _ ← EOS_ASSERT (actor auth =? da_account del) irrelevant_auth_exception;
  min_permission ← get_permission db (PermissionLevel (da_account del) (da_permission del));
  require_satisfies db auth min_permission.

Definition check_linkauth_authorization (db : auth_db) (link : linkauth)
    (auths : list permission_level) : result unit :=
  auth ← single_auth auths;
  _ ← EOS_ASSERT (actor auth =? la_account link) irrelevant_auth_exception;
  _ ← EOS_ASSERT (negb (unlinkable (la_type link))) action_validate_exception;
  linked ← lookup_minimum_permission db (la_account link) (la_code link) (la_type link);
  match linked with
  | None => mret tt
  | Some name =>
      min_permission ← get_permission db (PermissionLevel (la_account link) name);
      require_satisfies db auth min_permission
  end.

Definition check_unlinkauth_authorization (db : auth_db) (unlink : unlinkauth)
    (auths : list permission_level) : result unit :=
  auth ← single_auth auths;
  _ ← EOS_ASSERT (actor auth =? ul_account unlink) irrelevant_auth_exception;
  name ← of_option (lookup_linked_permission db (ul_account unlink) (ul_code unlink) (ul_type unlink))
           transaction_exception;
  if name =? eosio_any_name then mret tt
  else
    min_permission ← get_permission db (PermissionLevel (ul_account unlink) name);
    require_satisfies db auth min_permission.

(** generated_transaction_object.hpp: the fields read here. *)
Record generated_transaction := GeneratedTransaction {
  gt_sender : account_name;
  gt_sender_id : Z;
  gt_payer : account_name;
  gt_delay_until : time_point;
  gt_expiration : time_point;
  gt_published : time_point;
  gt_packed_trx : packed_trx;
}.

(** Returns the delay of the transaction that is cancelled.  [generated] is the index by_trx_id. *)
Definition check_canceldelay_authorization (db : auth_db) (generated : gmap digest generated_transaction)
    (cancel : canceldelay) (auths : list permission_level) : result Z :=
  auth ← single_auth auths;
  canceling ← get_permission db (cd_canceling_auth cancel);
  _ ← require_satisfies db auth canceling;
  gto ← of_option (generated !! cd_trx_id cancel) tx_not_found;
  _ ← EOS_ASSERT (gt_sender gto =? 0) tx_not_found;
  actions ← unpack_actions (gt_packed_trx gto);
  _ ← EOS_ASSERT (existsb (λ act, existsb (λ a, bool_decide (a = cd_canceling_auth cancel))
                                    (act_authorization act)) actions) action_validate_exception;
  mret (gt_delay_until gto - gt_published gto).

(** fc::microseconds::maximum() *)
Definition microseconds_maximum : Z := INT64_MAX.

Definition effective_delay (cfg : chain_config) (provided_delay : Z) : Z :=
  if seconds (max_transaction_delay cfg) <=? provided_delay then microseconds_maximum
  else provided_delay.

(** The checker that the three checks below make. *)
Definition make_auth_checker (db : auth_db) (cfg : chain_config) (provided_keys : list public_key)
    (provided_permissions : list permission_level) : checker :=
  Checker (λ p, o ← get_permission db p; mret (po_auth o)) provided_keys provided_permissions
    (Z.to_nat (max_authority_depth cfg)).

(** The native actions with a check of their own: whether the action is one of them, and the delay
    its authorizations get. *)
Definition check_special_case (db : auth_db) (generated : gmap digest generated_transaction)
    (delay : Z) (act : action) : result (bool * Z) :=
  if negb (act_account act =? system_account_name) then mret (false, delay)
  else if act_name act =? updateauth_name then
    a ← data_as updateauth_name unpack_updateauth act;
    _ ← check_updateauth_authorization db a (act_authorization act); mret (true, delay)
  else if act_name act =? deleteauth_name then
    a ← data_as deleteauth_name unpack_deleteauth act;
    _ ← check_deleteauth_authorization db a (act_authorization act); mret (true, delay)
  else if act_name act =? linkauth_name then
    a ← data_as linkauth_name unpack_linkauth act;
    _ ← check_linkauth_authorization db a (act_authorization act); mret (true, delay)
  else if act_name act =? unlinkauth_name then
    a ← data_as unlinkauth_name unpack_unlinkauth act;
    _ ← check_unlinkauth_authorization db a (act_authorization act); mret (true, delay)
  else if act_name act =? canceldelay_name then
    a ← data_as canceldelay_name unpack_canceldelay act;
    d ← check_canceldelay_authorization db generated a (act_authorization act);
    mret (true, Z.max delay d)
  else mret (false, delay).

(** [permissions_to_satisfy], a std::map: a sorted association list.  [emplace], and keeping the
    lower delay when the permission is already there. *)
Fixpoint emplace_min (p : permission_level) (delay : Z) (m : list (permission_level * Z))
    : list (permission_level * Z) :=
  match m with
  | [] => [(p, delay)]
  | (q, d) :: m' =>
      if level_ltb p q then (p, delay) :: m
      else if level_ltb q p then (q, d) :: emplace_min p delay m'
      else (q, if delay <? d then delay else d) :: m'
  end.

(** A declared authorization of an ordinary action must be at least the minimum permission. *)
Definition check_declared_auth (db : auth_db) (act : action) (declared : permission_level)
    : result unit :=
  name ← lookup_minimum_permission db (actor declared) (act_account act) (act_name act);
  match name with
  | None => mret tt
  | Some name =>
      min_permission ← get_permission db (PermissionLevel (actor declared) name);
      require_satisfies db declared min_permission
  end.

Fixpoint collect_declared (db : auth_db) (satisfied_authorizations : list permission_level)
    (act : action) (special_case : bool) (delay : Z) (auths : list permission_level)
    (m : list (permission_level * Z)) : result (list (permission_level * Z)) :=
  match auths with
  | [] => mret m
  | declared :: auths =>
      _ ← (if special_case then mret tt else check_declared_auth db act declared);
      let m := if bool_decide (declared ∈ satisfied_authorizations) then m
               else emplace_min declared delay m in
      collect_declared db satisfied_authorizations act special_case delay auths m
  end.

Fixpoint collect_permissions (db : auth_db) (generated : gmap digest generated_transaction)
    (satisfied_authorizations : list permission_level) (effective_delay : Z) (actions : list action)
    (m : list (permission_level * Z)) : result (list (permission_level * Z)) :=
  match actions with
  | [] => mret m
  | act :: actions =>
      '(special_case, delay) ← check_special_case db generated effective_delay act;
      m ← collect_declared db satisfied_authorizations act special_case delay
            (act_authorization act) m;
      collect_permissions db generated satisfied_authorizations effective_delay actions m
  end.

(** The second loop, in ascending order of the permission levels. *)
Fixpoint check_satisfied (c : checker) (used : list bool) (m : list (permission_level * Z))
    : result (list bool) :=
  match m with
  | [] => mret used
  | (p, delay) :: m =>
      '(used, s) ← satisfied_level c used p delay;
      _ ← EOS_ASSERT s unsatisfied_authorization;
      check_satisfied c used m
  end.

Definition check_unused_keys (allow_unused_keys : bool) (used : list bool) : result unit :=
  if allow_unused_keys then mret tt else EOS_ASSERT (all_keys_used used) tx_irrelevant_sig.

(** [check_authorization] of a transaction's actions. *)
Definition check_authorization (db : auth_db) (generated : gmap digest generated_transaction)
    (cfg : chain_config) (actions : list action) (provided_keys : list public_key)
    (provided_permissions : list permission_level) (provided_delay : Z) (allow_unused_keys : bool)
    (satisfied_authorizations : list permission_level) : result unit :=
  let delay := effective_delay cfg provided_delay in
  let c := make_auth_checker db cfg provided_keys provided_permissions in
  m ← collect_permissions db generated satisfied_authorizations delay actions [];
  used ← check_satisfied c (no_used_keys c) m;
  check_unused_keys allow_unused_keys used.

(** [check_authorization] of one permission. *)
Definition check_authorization_level (db : auth_db) (cfg : chain_config) (account : account_name)
    (permission : permission_name) (provided_keys : list public_key)
    (provided_permissions : list permission_level) (provided_delay : Z) (allow_unused_keys : bool)
    : result unit :=
  let c := make_auth_checker db cfg provided_keys provided_permissions in
  '(used, s) ← satisfied_level c (no_used_keys c) (PermissionLevel account permission)
                 (effective_delay cfg provided_delay);
  _ ← EOS_ASSERT s unsatisfied_authorization;
  check_unused_keys allow_unused_keys used.

(** [get_required_keys] *)
Fixpoint require_declared (c : checker) (delay : Z) (used : list bool)
    (auths : list permission_level) : result (list bool) :=
  match auths with
  | [] => mret used
  | declared :: auths =>
      '(used, s) ← satisfied_level c used declared delay;
      _ ← EOS_ASSERT s unsatisfied_authorization;
      require_declared c delay used auths
  end.

Definition get_required_keys (db : auth_db) (cfg : chain_config) (actions : list action)
    (candidate_keys : list public_key) (provided_delay : Z) : result (list public_key) :=
  let c := make_auth_checker db cfg candidate_keys [] in
  used ← require_declared c provided_delay (no_used_keys c) (actions ≫= act_authorization);
  mret (used_keys c used).

End auth_manager.

(** ** The permissions of an account form a tree *)
Section permission_forest.
Context {FC : Fc}.
Implicit Types db : auth_db.

(** [x] has the parent [y]. *)
Definition parent_step (index : gmap Z permission_object) (x y : Z) : Prop :=
  ∃ p, index !! x = Some p ∧ po_parent p = y.

(** Row 0 is reserved.  Every other row has an owner, an older row as its parent, which is row 0 or
    belongs to the same account, and a usage row of its own; no account has two permissions of the
    same name. *)
Record permissions_wf (db : auth_db) : Prop := {
  pw_reserved : ∃ d, permission_index db !! 0 = Some d ∧ po_owner d = 0 ∧ po_parent d = 0;
  pw_id : ∀ id p, permission_index db !! id = Some p →
    po_id p = id ∧ 0 <= id < next_permission_id db;
  pw_parent : ∀ id p, permission_index db !! id = Some p → id ≠ 0 →
    po_owner p ≠ 0 ∧ 0 <= po_parent p < id ∧
    ∃ q, permission_index db !! po_parent p = Some q ∧ (po_parent p = 0 ∨ po_owner q = po_owner p);
  pw_unique : ∀ i j p q, permission_index db !! i = Some p → permission_index db !! j = Some q →
    po_owner p = po_owner q → po_name p = po_name q → i = j;
  pw_usage : ∀ id p, permission_index db !! id = Some p → id ≠ 0 →
    is_Some (permission_usage_index db !! po_usage_id p);
  pw_usage_unique : ∀ i j p q, permission_index db !! i = Some p → permission_index db !! j = Some q →
    i ≠ 0 → j ≠ 0 → po_usage_id p = po_usage_id q → i = j;
  pw_usage_fresh : ∀ u t, permission_usage_index db !! u = Some t → u < next_usage_id db;
}.

Lemma find_by_owner_Some_1 db o n p :
  find_by_owner db o n = Some p →
  ∃ id, permission_index db !! id = Some p ∧ po_owner p = o ∧ po_name p = n.
Proof.
  unfold find_by_owner. intros ([id p'] & E & ->)%fmap_Some.
  apply map_find_Some_1 in E as (? & ? & ?). eauto.
Qed.

Lemma find_by_owner_None db o n :
  find_by_owner db o n = None ↔
  ∀ id p, permission_index db !! id = Some p → ¬ (po_owner p = o ∧ po_name p = n).
Proof. unfold find_by_owner. rewrite fmap_None, map_find_None. done. Qed.

Lemma find_by_owner_Some db o n id p :
  permissions_wf db → permission_index db !! id = Some p → po_owner p = o → po_name p = n →
  find_by_owner db o n = Some p.
Proof.
  intros Hwf Hid Ho Hn. unfold find_by_owner.
  erewrite (map_find_unique _ _ id p); [done|done|done|].
  intros id' p' Hid' [Ho' Hn']. simpl in *. eapply (pw_unique _ Hwf); [done|done| |]; congruence.
Qed.

Lemma get_permission_ok db l p :
  get_permission db l = Ok p →
  actor l ≠ 0 ∧ permission l ≠ 0 ∧ find_by_owner db (actor l) (permission l) = Some p.
Proof. unfold get_permission. intros H. inv_ok. reflect_bools. split_and!; done || lia. Qed.

(** The row of a permission that was looked up. *)
Lemma get_permission_row db l p :
  permissions_wf db → get_permission db l = Ok p →
  permission_index db !! po_id p = Some p ∧ po_id p ≠ 0 ∧ po_owner p = actor l ∧
  po_name p = permission l.
Proof.
  intros Hwf (Ha & Hn & Hf)%get_permission_ok.
  apply find_by_owner_Some_1 in Hf as (id & Hid & Ho & Hname).
  destruct (pw_id _ Hwf _ _ Hid) as [<- _]. split_and!; try done.
  intros E. rewrite E in Hid. destruct (pw_reserved _ Hwf) as (d & Hd & Hd0 & _). simplify_eq. lia.
Qed.

Lemma parent_step_owner db x y p q :
  permissions_wf db → parent_step (permission_index db) x y →
  permission_index db !! x = Some p → permission_index db !! y = Some q → y ≠ 0 →
  po_owner q = po_owner p.
Proof.
  intros Hwf (p' & Hp' & <-) Hp Hq Hy.
  rewrite Hp in Hp'. injection Hp' as <-. destruct (decide (x = 0)) as [->|Hx].
  - destruct (pw_reserved _ Hwf) as (d & Hd & _ & Hd0). simplify_eq.
  - destruct (pw_parent _ Hwf _ _ Hp Hx) as (_ & _ & q' & Hq' & [?|?]); [done|]. by simplify_eq.
Qed.

Lemma reserved_stays db y : permissions_wf db → rtc (parent_step (permission_index db)) 0 y → y = 0.
Proof.
  intros Hwf. cut (∀ z, rtc (parent_step (permission_index db)) z y → z = 0 → y = 0); [by eauto|].
  induction 1 as [|z z' y (r & Hr' & <-) _ IH]; [done|]. intros ->. apply IH.
  destruct (pw_reserved _ Hwf) as (d & Hd & _ & Hd0). by simplify_eq.
Qed.

(** All permissions above one belong to its account. *)
Lemma ancestor_owner db x y p q :
  permissions_wf db → rtc (parent_step (permission_index db)) x y →
  permission_index db !! x = Some p → permission_index db !! y = Some q → y ≠ 0 →
  po_owner q = po_owner p.
Proof.
  intros Hwf Hr. revert p. induction Hr as [x|x z y Hxz Hr IH]; intros p Hp Hq Hy; [by simplify_eq|].
  assert (is_Some (permission_index db !! z)) as [r Hz].
  { inv Hr as [|? ? ? (r & Hr' & _)]; eauto. }
  destruct (decide (z = 0)) as [->|Hz0].
  - by apply reserved_stays in Hr.
  - rewrite (IH r Hz Hq Hy). by eapply parent_step_owner.
Qed.

(** The climb terminates, and finds [id] exactly above the starting row. *)
Lemma satisfies_while_spec db id fuel p :
  permissions_wf db → permission_index db !! po_id p = Some p → id ≠ 0 →
  (size (rows_below (permission_index db) (po_id p)) < fuel)%nat →
  ∃ b, satisfies_while fuel (permission_index db) id p = Ok b ∧
    (b = true ↔ rtc (parent_step (permission_index db)) (po_parent p) id).
Proof.
  intros Hwf. revert p. induction fuel as [|fuel IH]; intros p Hp Hid Hf; [lia|]. cbn [satisfies_while].
  destruct (id =? po_parent p) eqn:E1; reflect_bools.
  { exists true. split; [done|]. subst. split; [|done]. intros _. apply rtc_refl. }
  destruct (po_parent p =? 0) eqn:E2; reflect_bools.
  { exists false. split; [done|]. split; [done|]. rewrite E2. by intros ->%reserved_stays. }
  assert (po_id p ≠ 0) as Hp0.
  { intros E. rewrite E in Hp. destruct (pw_reserved _ Hwf) as (d & Hd & _ & ?). by simplify_eq. }
  destruct (pw_parent _ Hwf _ _ Hp Hp0) as (_ & Hlt & q & Hq & _). rewrite Hq.
  destruct (pw_id _ Hwf _ _ Hq) as [Eq _].
  destruct (IH q) as (b & Hb & Hiff); [by rewrite Eq|done| |].
  { pose proof (rows_below_lt _ _ (po_id p) _ Hq). rewrite Eq. lia. }
  exists b. split; [done|]. rewrite Hiff. split; intros Hr.
  - eapply rtc_l; [|exact Hr]. by exists q.
  - inv Hr as [|? z ? (q' & Hq' & <-) Hr']; by simplify_eq.
Qed.

Lemma satisfies_exact db this other :
  permissions_wf db → permission_index db !! po_id this = Some this →
  permission_index db !! po_id other = Some other → po_id this ≠ 0 → po_id other ≠ 0 →
  ∃ b, satisfies this other (permission_index db) = Ok b ∧
    (b = true ↔ rtc (parent_step (permission_index db)) (po_id other) (po_id this)).
Proof.
  intros Hwf Ht Ho Ht0 Ho0. unfold satisfies.
  destruct (po_owner this =? po_owner other) eqn:Eo; simpl; reflect_bools.
  2: { exists false. split; [done|]. split; [done|]. intros Hr. destruct Eo.
       by eapply ancestor_owner. }
  destruct (pw_parent _ Hwf _ _ Ho Ho0) as (_ & Hlt & q & Hq & _).
  destruct (pw_id _ Hwf _ _ Hq) as [Eq _].
  destruct (_ || _) eqn:E1.
  { exists true. split; [done|]. split; [|done]. intros _.
    apply orb_true_iff in E1 as [E1|E1]; reflect_bools; rewrite E1; [apply rtc_refl|].
    apply rtc_once. by exists other. }
  apply orb_false_iff in E1 as [E1 E2]. reflect_bools. rewrite Hq.
  destruct (satisfies_while_spec db (po_id this) (S (size (permission_index db))) q)
    as (b & Hb & Hiff); [done|by rewrite Eq|done| |].
  { pose proof (rows_below_le (permission_index db) (po_id q)). lia. }
  exists b. split; [done|]. rewrite Hiff. split; intros Hr.
  - apply (rtc_l _ _ (po_parent other)); [by exists other|].
    by apply (rtc_l _ _ (po_parent q)); [exists q|].
  - inv Hr as [|? z ? (o' & Ho' & <-) Hr']; simplify_eq.
    inv Hr' as [|? z ? (q' & Hq' & <-) Hr'']; by simplify_eq.
Qed.

End permission_forest.

(** ** Every operation keeps the tables well-formed *)
Section preservation.
Context {FC : Fc}.
Implicit Types db : auth_db.

Lemma initialize_permissions_eq :
  initialize_permissions = Ok (AuthDb (<[0 := permission_default 0]> ∅) 1 ∅ 0 ∅).
Proof. reflexivity. Qed.

Lemma initialize_permissions_wf db : initialize_permissions = Ok db → permissions_wf db.
Proof.
  rewrite initialize_permissions_eq. intros [= <-].
  split; cbn [permission_index next_permission_id permission_usage_index];
    try setoid_rewrite lookup_insert_Some.
  - exists (permission_default 0). split; [by left|done].
  - intros id p [[<- <-]|[_ H]]; [simpl; lia|by rewrite lookup_empty in H].
  - intros id p [[<- _]|[_ H]]; [done|by rewrite lookup_empty in H].
  - intros i j p q [[<- _]|[_ H]] [[<- _]|[_ H']]; try done; by rewrite lookup_empty in *.
  - intros id p [[<- _]|[_ H]]; [done|by rewrite lookup_empty in H].
  - intros i j p q [[<- _]|[_ H]] [[<- _]|[_ H']]; try done; by rewrite lookup_empty in *.
  - intros u t H. by rewrite lookup_empty in H.
Qed.

Definition new_permission (now : time_point) (db : auth_db) (account : account_name)
    (name : permission_name) (parent : Z) (auth : authority) (t : time_point) : permission_object :=
  PermissionObject (next_permission_id db) (next_usage_id db) parent account name
    (if t =? 0 then now else t) auth.

Lemma create_permission_ok now db account name parent auth t db' p :
  create_permission now db account name parent auth t = Ok (db', p) ↔
  find_by_owner db account name = None ∧ p = new_permission now db account name parent auth t ∧
  db' = AuthDb (<[next_permission_id db := p]> (permission_index db)) (next_permission_id db + 1)
          (<[next_usage_id db := if t =? 0 then now else t]> (permission_usage_index db))
          (next_usage_id db + 1) (permission_link_index db).
Proof.
  unfold create_permission, create_permission_object, create_usage, new_permission. cbn.
  change (find_by_owner (AuthDb _ _ _ _ _)) with (find_by_owner db).
  case_bool_decide as E; simpl; split.
  - by intros [= <- <-].
  - by intros (_ & -> & ->).
  - done.
  - by intros [? _].
Qed.

Lemma create_permission_wf now db account name parent auth t db' p :
  permissions_wf db → create_permission now db account name parent auth t = Ok (db', p) →
  account ≠ 0 →
  (∃ q, permission_index db !! parent = Some q ∧ (parent = 0 ∨ po_owner q = account)) →
  permissions_wf db'.
Proof.
  intros Hwf (Hnone & -> & ->)%create_permission_ok Hacc (q & Hq & Hqo).
  destruct (pw_id _ Hwf _ _ Hq) as [_ Hqr]. destruct (pw_reserved _ Hwf) as (d & Hd & Hd0 & Hd1).
  destruct (pw_id _ Hwf _ _ Hd) as [_ Hdr].
  assert (∀ id p, permission_index db !! id = Some p → id ≠ next_permission_id db) as Hfresh.
  { intros id p Hp ->. destruct (pw_id _ Hwf _ _ Hp). lia. }
  assert (∀ id p, permission_index db !! id = Some p → id ≠ 0 → po_usage_id p ≠ next_usage_id db)
    as Hufresh.
  { intros id p Hp Hid E. destruct (pw_usage _ Hwf _ _ Hp Hid) as [u Hu].
    apply (pw_usage_fresh _ Hwf) in Hu. lia. }
  rewrite find_by_owner_None in Hnone.
  split; cbn [permission_index next_permission_id permission_usage_index next_usage_id].
  - exists d. by rewrite lookup_insert_ne by lia.
  - intros id p [[<- <-]|[_ Hp]]%lookup_insert_Some; [simpl; lia|].
    destruct (pw_id _ Hwf _ _ Hp). lia.
  - intros id p [[<- <-]|[_ Hp]]%lookup_insert_Some Hid.
    + simpl. split; [done|]. split; [lia|]. exists q. by rewrite lookup_insert_ne by lia.
    + destruct (pw_parent _ Hwf _ _ Hp Hid) as (? & ? & q' & Hq' & ?). split; [done|]. split; [done|].
      exists q'. by rewrite lookup_insert_ne by (by apply not_eq_sym, (Hfresh _ q')).
  - intros i j p1 p2 [[<- <-]|[_ Hi]]%lookup_insert_Some [[<- <-]|[_ Hj]]%lookup_insert_Some Ho Hn.
    + done.
    + by destruct (Hnone _ _ Hj).
    + by destruct (Hnone _ _ Hi).
    + by eapply (pw_unique _ Hwf).
  - intros id p [[<- <-]|[_ Hp]]%lookup_insert_Some Hid; simpl; [by rewrite lookup_insert_eq|].
    destruct (decide (po_usage_id p = next_usage_id db)) as [->|].
    + by rewrite lookup_insert_eq.
    + rewrite lookup_insert_ne by done. by eapply (pw_usage _ Hwf).
  - intros i j p1 p2 [[<- <-]|[_ Hi]]%lookup_insert_Some [[<- <-]|[_ Hj]]%lookup_insert_Some Hi0 Hj0 Hu.
    + done.
    + by destruct (Hufresh _ _ Hj Hj0).
    + by destruct (Hufresh _ _ Hi Hi0).
    + by eapply (pw_usage_unique _ Hwf).
  - intros u t' [[<- _]|[_ Hu]]%lookup_insert_Some; [lia|]. apply (pw_usage_fresh _ Hwf) in Hu. lia.
Qed.

(** A row replaced by one with the same identity. *)
Lemma modify_permission_wf now db p auth :
  permissions_wf db → permission_index db !! po_id p = Some p → po_id p ≠ 0 →
  permissions_wf (modify_permission now db p auth).
Proof.
  intros Hwf Hp Hp0. unfold modify_permission.
  set (p' := PermissionObject _ _ _ _ _ _ _).
  assert (∀ id r, <[po_id p := p']> (permission_index db) !! id = Some r →
    ∃ r', permission_index db !! id = Some r' ∧ po_id r = po_id r' ∧ po_usage_id r = po_usage_id r' ∧
      po_parent r = po_parent r' ∧ po_owner r = po_owner r' ∧ po_name r = po_name r') as Hback.
  { intros id r [[<- <-]|[_ Hr]]%lookup_insert_Some; eauto 10. }
  assert (∀ id r', permission_index db !! id = Some r' →
    ∃ r, <[po_id p := p']> (permission_index db) !! id = Some r ∧ po_owner r = po_owner r') as Hfwd.
  { intros id r' Hr'. destruct (decide (po_id p = id)) as [<-|].
    - exists p'. rewrite lookup_insert_eq. by simplify_eq.
    - exists r'. by rewrite lookup_insert_ne. }
  split; cbn [with_permissions permission_index next_permission_id permission_usage_index next_usage_id].
  - destruct (pw_reserved _ Hwf) as (d & ? & ?). exists d. by rewrite lookup_insert_ne.
  - intros id r (r' & Hr & -> & _)%Hback. by apply (pw_id _ Hwf).
  - intros id r (r' & Hr & _ & _ & -> & -> & _)%Hback Hid.
    destruct (pw_parent _ Hwf _ _ Hr Hid) as (? & ? & q & Hq & Hqo). split; [done|]. split; [done|].
    destruct (Hfwd _ _ Hq) as (q' & ? & Hq'). rewrite <-Hq' in Hqo. eauto.
  - intros i j r s (r' & Hr & _ & _ & _ & -> & ->)%Hback (s' & Hs & _ & _ & _ & -> & ->)%Hback.
    by apply (pw_unique _ Hwf).
  - intros id r (r' & Hr & _ & -> & _)%Hback. by apply (pw_usage _ Hwf).
  - intros i j r s (r' & Hr & _ & -> & _)%Hback (s' & Hs & _ & -> & _)%Hback.
    by apply (pw_usage_unique _ Hwf).
  - apply (pw_usage_fresh _ Hwf).
Qed.

Lemma children_nil db id :
  child_permissions db id = [] ↔ ∀ i p, permission_index db !! i = Some p → po_parent p ≠ id.
Proof.
  unfold child_permissions. split.
  - intros Hnil%fmap_nil_inv i p Hp E.
    apply (filter_nil_not_elem_of _ _ (i, p) Hnil E). by apply elem_of_map_to_list.
  - intros Hall. destruct (filter _ _) as [|[i p] l] eqn:E; [done|].
    assert ((i, p) ∈ (i, p) :: l) as Hin by by left. rewrite <-E in Hin.
    apply list_elem_of_filter in Hin as [Hp Hin%elem_of_map_to_list]. by apply Hall in Hin.
Qed.

Lemma remove_permission_ok db p db' :
  remove_permission db p = Ok db' →
  (∀ i q, permission_index db !! i = Some q → po_parent q ≠ po_id p) ∧
  db' = with_permissions (with_usages db (delete (po_usage_id p) (permission_usage_index db)))
          (delete (po_id p) (permission_index db)).
Proof.
  unfold remove_permission. intros ([] & Hc%assert_ok & (u & Hu & [= <-])%bind_ok)%bind_ok.
  apply bool_decide_eq_true in Hc. by rewrite children_nil in Hc.
Qed.

Lemma remove_permission_wf db p db' :
  permissions_wf db → permission_index db !! po_id p = Some p → po_id p ≠ 0 →
  remove_permission db p = Ok db' → permissions_wf db'.
Proof.
  intros Hwf Hp Hp0 (Hch & ->)%remove_permission_ok.
  split; cbn [with_permissions with_usages permission_index next_permission_id
              permission_usage_index next_usage_id].
  - destruct (pw_reserved _ Hwf) as (d & ? & ?). exists d. by rewrite lookup_delete_ne.
  - intros id r [_ Hr]%lookup_delete_Some. by apply (pw_id _ Hwf).
  - intros id r [_ Hr]%lookup_delete_Some Hid.
    destruct (pw_parent _ Hwf _ _ Hr Hid) as (? & ? & q & Hq & ?). split; [done|]. split; [done|].
    exists q. rewrite lookup_delete_ne; [done|]. by apply not_eq_sym, (Hch id).
  - intros i j r s [_ Hr]%lookup_delete_Some [_ Hs]%lookup_delete_Some. by apply (pw_unique _ Hwf).
  - intros id r [Hne Hr]%lookup_delete_Some Hid. rewrite lookup_delete_ne.
    + by eapply (pw_usage _ Hwf).
    + intros E. apply Hne. by eapply (pw_usage_unique _ Hwf).
  - intros i j r s [_ Hr]%lookup_delete_Some [_ Hs]%lookup_delete_Some.
    by apply (pw_usage_unique _ Hwf).
  - intros u t [_ Hu]%lookup_delete_Some. by eapply (pw_usage_fresh _ Hwf).
Qed.

Lemma with_links_wf db m : permissions_wf db → permissions_wf (with_links db m).
Proof. intros []. by split. Qed.

Lemma update_permission_usage_wf now db p db' :
  permissions_wf db → update_permission_usage now db p = Ok db' → permissions_wf db'.
Proof.
  unfold update_permission_usage. intros Hwf H. inv_ok. destruct Hwf. split; try done; cbn.
  - intros id q Hq Hid. destruct (decide (po_usage_id p = po_usage_id q)) as [->|].
    + by rewrite lookup_insert_eq.
    + rewrite lookup_insert_ne by done. eauto.
  - intros u t [[<- _]|[_ Hu]]%lookup_insert_Some; eauto.
Qed.

End preservation.

#[export] Hint Resolve create_permission_wf modify_permission_wf remove_permission_wf with_links_wf
  update_permission_usage_wf : chain.

(** ** What the checks accept *)
Section authorization.
Context {FC : Fc} {AC : ActionCodec} {TC : TransactionCodec} {KO : FcKeyOrder}.
Implicit Types db : auth_db.

(** [auth] names a permission that is [min] or one of its ancestors. *)
Definition at_least (db : auth_db) (auth : permission_level) (min : permission_object) : Prop :=
  ∃ p, get_permission db auth = Ok p ∧
    rtc (parent_step (permission_index db)) (po_id min) (po_id p).

Lemma require_satisfies_ok db auth min :
  permissions_wf db → permission_index db !! po_id min = Some min → po_id min ≠ 0 →
  require_satisfies db auth min = Ok tt ↔ at_least db auth min.
Proof.
  intros Hwf Hm Hm0. unfold require_satisfies, at_least.
  destruct (get_permission db auth) as [p|e] eqn:Ep; simpl; [|naive_solver].
  destruct (get_permission_row _ _ _ Hwf Ep) as (Hp & Hp0 & _).
  destruct (satisfies_exact db p min Hwf Hp Hm Hp0 Hm0) as (b & Hb & Hiff). rewrite Hb. simpl.
  rewrite assert_ok, Hiff. split; [by eauto|]. by intros (? & [= <-] & ?).
Qed.

Lemma bind_require db l auth :
  permissions_wf db →
  (min ← get_permission db l; require_satisfies db auth min) = Ok tt ↔
  ∃ min, get_permission db l = Ok min ∧ at_least db auth min.
Proof.
  intros Hwf. rewrite bind_ok. split; intros (min & Hmin & H); exists min; split; try done.
  all: destruct (get_permission_row _ _ _ Hwf Hmin) as (? & ? & _).
  - by apply require_satisfies_ok in H.
  - by apply require_satisfies_ok.
Qed.

Lemma single_auth_ok auths auth : single_auth auths = Ok auth ↔ auths = [auth].
Proof.
  destruct auths as [|a [|]]; cbv [single_auth mret result_ret]; split; intros H; by simplify_eq.
Qed.

Lemma updateauth_minimum_row db update min :
  permissions_wf db → updateauth_minimum db update = Ok min →
  permission_index db !! po_id min = Some min ∧ po_id min ≠ 0 ∧ po_owner min = ua_account update.
Proof.
  intros Hwf (found & Hf & Hmin)%bind_ok. destruct found as [p|].
  - injection Hmin as <-. destruct (get_permission_row db
      (PermissionLevel (ua_account update) (ua_permission update)) p Hwf) as (? & ? & ? & _); [|done].
    unfold find_permission in Hf. apply bind_ok in Hf as ([] & Hass & [= Hf]).
    unfold get_permission. rewrite Hass. simpl in *. by rewrite Hf.
  - by destruct (get_permission_row _ _ _ Hwf Hmin) as (? & ? & ? & _).
Qed.

(** the check of an updateauth action accepts exactly one declared authorization, which belongs
    to the account and names the permission that is changed (or the parent of the one that is
    created) or one of its ancestors; the walk up the parents terminates. *)
Theorem updateauth_authorization_exact db update auths :
  permissions_wf db →
  check_updateauth_authorization db update auths = Ok tt ↔
  ∃ auth min, auths = [auth] ∧ actor auth = ua_account update ∧
    updateauth_minimum db update = Ok min ∧ at_least db auth min.
Proof.
  intros Hwf. unfold check_updateauth_authorization. split.
  - intros (auth & Ha%single_auth_ok & H)%bind_ok.
    apply bind_ok in H as ([] & Hact%assert_ok & (min & Hmin & H)%bind_ok). reflect_bools.
    destruct (updateauth_minimum_row _ _ _ Hwf Hmin) as (? & ? & _).
    apply require_satisfies_ok in H; [|done..]. eauto 10.
  - intros (auth & min & -> & Hact & Hmin & Hat). simpl. rewrite (proj2 (Z.eqb_eq _ _) Hact). simpl.
    destruct (updateauth_minimum_row _ _ _ Hwf Hmin) as (? & ? & _).
    rewrite Hmin. simpl. by apply require_satisfies_ok.
Qed.

Definition declared_ok (db : auth_db) (act : action) (d : permission_level) : Prop :=
  ∃ name, lookup_minimum_permission db (actor d) (act_account act) (act_name act) = Ok name ∧
    match name with
    | None => True
    | Some n => ∃ min, get_permission db (PermissionLevel (actor d) n) = Ok min ∧ at_least db d min
    end.

Lemma check_declared_auth_ok db act d :
  permissions_wf db → check_declared_auth db act d = Ok tt ↔ declared_ok db act d.
Proof.
  intros Hwf. unfold check_declared_auth, declared_ok. rewrite bind_ok.
  split; intros ([n|] & Hn & H); (exists (Some n) || exists None); split; try done.
  all: by apply bind_require.
Qed.

Lemma level_sat_mono c d d' p : d <= d' → level_sat c d p → level_sat c d' p.
Proof.
  intros Hd. induction 1 as [| |p a fs Hp Hfs _ IH Hk Hw Ht].
  - by apply level_provided.
  - by apply level_provided_any.
  - eapply level_by_authority; [done|done|done|done| |done]. intros w Hin. specialize (Hw w Hin). lia.
Qed.

(** [p] is in the map with at most the delay [d]. *)
Definition covered (m : list (permission_level * Z)) (p : permission_level) (d : Z) : Prop :=
  ∃ d', (p, d') ∈ m ∧ d' <= d.

Lemma level_ltb_total p q : level_ltb p q = false → level_ltb q p = false → p = q.
Proof. destruct p, q. unfold level_ltb. simpl. intros. f_equal; lia. Qed.

Lemma emplace_min_covered m p d : covered (emplace_min p d m) p d.
Proof.
  unfold covered. induction m as [|[q e] m IH]; simpl; [exists d; split; [by left|lia]|].
  destruct (level_ltb p q) eqn:E1; [exists d; split; [by left|lia]|].
  destruct (level_ltb q p) eqn:E2.
  - destruct IH as (d' & ? & ?). exists d'. split; [by right|done].
  - rewrite (level_ltb_total p q) by done. eexists. split; [by left|]. destruct (d <? e) eqn:E; lia.
Qed.

Lemma emplace_min_keeps m p d q e : covered m q e → covered (emplace_min p d m) q e.
Proof.
  unfold covered. intros (e' & Hin & He). induction m as [|[r f] m IH]; [by apply elem_of_nil in Hin|].
  simpl. destruct (level_ltb p r) eqn:E1; [exists e'; split; [by right|done]|].
  apply elem_of_cons in Hin as [[= -> ->]|Hin].
  - destruct (level_ltb r p) eqn:E2; [exists f; split; [by left|done]|].
    eexists. split; [by left|]. destruct (d <? f) eqn:E; lia.
  - destruct (level_ltb r p) eqn:E2; [|exists e'; split; [by right|done]].
    destruct (IH Hin) as (e'' & ? & ?). exists e''. split; [by right|done].
Qed.

Lemma collect_declared_spec db sat act special delay auths m m' :
  collect_declared db sat act special delay auths m = Ok m' →
  (∀ q e, covered m q e → covered m' q e) ∧
  ∀ d, d ∈ auths → (d ∈ sat ∨ covered m' d delay) ∧
    (special = false → check_declared_auth db act d = Ok tt).
Proof.
  revert m. induction auths as [|a auths IH]; intros m; cbn [collect_declared].
  { intros [= <-]. split; [done|]. intros d H. by apply elem_of_nil in H. }
  intros ([] & Hchk & H)%bind_ok. apply IH in H as [Hkeep Hin]. split.
  - intros q e Hq. apply Hkeep. case_bool_decide; [done|]. by apply emplace_min_keeps.
  - intros d [->|Hd]%elem_of_cons; [|by apply Hin]. split; [|by intros ->].
    case_bool_decide as Hs; [by left|right]. apply Hkeep, emplace_min_covered.
Qed.

Lemma collect_permissions_spec db gen sat eff actions m m' :
  collect_permissions db gen sat eff actions m = Ok m' →
  (∀ q e, covered m q e → covered m' q e) ∧
  ∀ act d, act ∈ actions → d ∈ act_authorization act →
    ∃ special delay, check_special_case db gen eff act = Ok (special, delay) ∧
      (d ∈ sat ∨ covered m' d delay) ∧ (special = false → check_declared_auth db act d = Ok tt).
Proof.
  revert m. induction actions as [|a actions IH]; intros m; cbn [collect_permissions].
  { intros [= <-]. split; [done|]. intros act d H. by apply elem_of_nil in H. }
  intros ([special delay] & Hsp & (m1 & Hm1 & H)%bind_ok)%bind_ok.
  apply IH in H as [Hkeep Hin]. apply collect_declared_spec in Hm1 as [Hkeep1 Hin1]. split; [by auto|].
  intros act d [->|Hact]%elem_of_cons Hd; [|by apply Hin].
  exists special, delay. destruct (Hin1 d Hd) as [Hc Hs]. split; [done|]. split; [|done].
  destruct Hc; auto.
Qed.

(** Stored authorities are within their machine types. *)
Definition authorities_in_range (db : auth_db) : Prop :=
  ∀ id p, permission_index db !! id = Some p → authority_wf (po_auth p).

Lemma checker_authority db cfg ks ps p a :
  permission_to_authority (make_auth_checker db cfg ks ps) p = Ok a →
  permission p ≠ 0 ∧ ∃ id o, permission_index db !! id = Some o ∧ a = po_auth o.
Proof.
  intros (o & Ho & [= <-])%bind_ok. apply get_permission_ok in Ho as (_ & Hp & Hf).
  apply find_by_owner_Some_1 in Hf as (id & Hid & _). eauto.
Qed.

Lemma check_satisfied_sound db cfg ks ps used m used' p d :
  authorities_in_range db → check_satisfied (make_auth_checker db cfg ks ps) used m = Ok used' →
  (p, d) ∈ m → level_sat (make_auth_checker db cfg ks ps) d p.
Proof.
  intros Hr. revert used. induction m as [|[q e] m IH]; intros used; cbn [check_satisfied].
  { intros _ H. by apply elem_of_nil in H. }
  intros ([u s] & Hs & ([] & Ha%assert_ok & H)%bind_ok)%bind_ok [[= -> ->]|Hin]%elem_of_cons;
    [|by eapply IH].
  subst s. eapply satisfied_level_sound; [| |exact Hs].
  - intros a auth Ha. by apply checker_authority in Ha as [Ha _].
  - intros q' auth (_ & id & o & Ho & ->)%checker_authority. by eapply Hr.
Qed.

Lemma check_authorization_ok db gen cfg actions ks ps delay allow sat :
  permissions_wf db → authorities_in_range db →
  check_authorization db gen cfg actions ks ps delay allow sat = Ok tt →
  ∀ act d, act ∈ actions → d ∈ act_authorization act →
    ∃ special delay',
      check_special_case db gen (effective_delay cfg delay) act = Ok (special, delay') ∧
      (special = false → declared_ok db act d) ∧
      (d ∈ sat ∨ level_sat (make_auth_checker db cfg ks ps) delay' d).
Proof.
  intros Hwf Hr (m & Hm & (used & Hu & _)%bind_ok)%bind_ok act d Hact Hd.
  apply collect_permissions_spec in Hm as [_ Hin].
  destruct (Hin act d Hact Hd) as (special & delay' & Hsp & Hc & Hdecl).
  exists special, delay'. split; [done|]. split.
  - intros E. by apply check_declared_auth_ok, Hdecl.
  - destruct Hc as [?|(d' & Hd' & Hle)]; [by left|right].
    eapply level_sat_mono; [exact Hle|]. by eapply check_satisfied_sound.
Qed.

(** What the authorization [d] of an action must be, and the delay with which it must be satisfied when
    the transaction has the effective delay [delay].  The five native actions on permissions have one
    authorization, of the account that they change. *)
Definition native (act : action) (name : action_name) : Prop :=
  act_account act = system_account_name ∧ act_name act = name.
Inductive required (db : auth_db) (gen : gmap digest generated_transaction) (delay : Z) (act : action)
    (d : permission_level) : Z → Prop :=
| RequiredLinked :
    act_account act ≠ system_account_name ∨ unlinkable (act_name act) = false →
    declared_ok db act d → required db gen delay act d delay
| RequiredUpdateauth u min :
    native act updateauth_name → unpack_updateauth (act_data act) = Ok u →
    act_authorization act = [d] → actor d = ua_account u →
    (find_permission db (PermissionLevel (ua_account u) (ua_permission u)) = Ok (Some min) ∨
     find_permission db (PermissionLevel (ua_account u) (ua_permission u)) = Ok None ∧
     get_permission db (PermissionLevel (ua_account u) (ua_parent u)) = Ok min) →
    at_least db d min → required db gen delay act d delay
| RequiredDeleteauth x min :
    native act deleteauth_name → unpack_deleteauth (act_data act) = Ok x →
    act_authorization act = [d] → actor d = da_account x →
    get_permission db (PermissionLevel (da_account x) (da_permission x)) = Ok min →
    at_least db d min → required db gen delay act d delay
| RequiredLinkauth l name :
    native act linkauth_name → unpack_linkauth (act_data act) = Ok l →
    act_authorization act = [d] → actor d = la_account l → unlinkable (la_type l) = false →
    lookup_minimum_permission db (la_account l) (la_code l) (la_type l) = Ok name →
    (∀ n, name = Some n →
       ∃ min, get_permission db (PermissionLevel (la_account l) n) = Ok min ∧ at_least db d min) →
    required db gen delay act d delay
| RequiredUnlinkauth u name :
    native act unlinkauth_name → unpack_unlinkauth (act_data act) = Ok u →
    act_authorization act = [d] → actor d = ul_account u →
    lookup_linked_permission db (ul_account u) (ul_code u) (ul_type u) = Some name →
    (name ≠ eosio_any_name →
       ∃ min, get_permission db (PermissionLevel (ul_account u) name) = Ok min ∧ at_least db d min) →
    required db gen delay act d delay
| RequiredCanceldelay c min gto acts act' :
    native act canceldelay_name → unpack_canceldelay (act_data act) = Ok c →
    act_authorization act = [d] →
    get_permission db (cd_canceling_auth c) = Ok min → at_least db d min →
    gen !! cd_trx_id c = Some gto → gt_sender gto = 0 → unpack_actions (gt_packed_trx gto) = Ok acts →
    act' ∈ acts → cd_canceling_auth c ∈ act_authorization act' →
    required db gen delay act d (Z.max delay (gt_delay_until gto - gt_published gto)).

Lemma only_auth act auth (d : permission_level) :
  single_auth (act_authorization act) = Ok auth → d ∈ act_authorization act → act_authorization act = [d].
Proof. intros E%single_auth_ok. rewrite E. by intros ->%list_elem_of_singleton. Qed.
Lemma data_as_ok {T} name (unpack : action_data → result T) act a :
  data_as name unpack act = Ok a → native act name ∧ unpack (act_data act) = Ok a.
Proof. intros H. unfold data_as in H. inv_ok. reflect_bools. by repeat split. Qed.
Lemma updateauth_required db act u d :
  permissions_wf db → check_updateauth_authorization db u (act_authorization act) = Ok tt → d ∈ act_authorization act →
  act_authorization act = [d] ∧ actor d = ua_account u ∧ ∃ min,
    (find_permission db (PermissionLevel (ua_account u) (ua_permission u)) = Ok (Some min) ∨
     find_permission db (PermissionLevel (ua_account u) (ua_permission u)) = Ok None ∧
     get_permission db (PermissionLevel (ua_account u) (ua_parent u)) = Ok min) ∧ at_least db d min.
Proof.
  intros Hwf (auth & min & E & Ha & Hmin & Hat)%updateauth_authorization_exact Hd; [|done]. rewrite E in *.
  apply list_elem_of_singleton in Hd as ->. split_and!; [done|done|]. exists min. split; [|done].
  apply bind_ok in Hmin as ([p|] & Hf & Hmin); [|by right]. injection Hmin as ->. by left.
Qed.

Lemma canceldelay_required db gen delay act c x d :
  permissions_wf db → native act canceldelay_name → unpack_canceldelay (act_data act) = Ok c →
  check_canceldelay_authorization db gen c (act_authorization act) = Ok x → d ∈ act_authorization act →
  required db gen delay act d (Z.max delay x).
Proof.
  intros Hwf Hn Hu Hc Hd. unfold check_canceldelay_authorization in Hc.
  apply bind_ok in Hc as (auth & Ha & (min & Hmin & ([] & Hs & Hc)%bind_ok)%bind_ok).
  apply (only_auth _ _ _ Ha) in Hd as E. rewrite E in Ha. injection Ha as <-.
  destruct (get_permission_row _ _ _ Hwf Hmin) as (? & ? & _). apply require_satisfies_ok in Hs; [|done..].
  apply bind_ok in Hc as (gto & Hg & ([] & Hz%assert_ok & (acts & Ha & ([] & Hx%assert_ok & [= <-])%bind_ok)%bind_ok)%bind_ok).
  destruct (gen !! cd_trx_id c) as [g|] eqn:Eg; [|discriminate Hg]. injection Hg as <-. reflect_bools.
  apply existsb_exists in Hx as (act' & Hin & (l & Hl & ->%bool_decide_eq_true)%existsb_exists).
  eapply RequiredCanceldelay; [done..| |]; by apply list_elem_of_In.
Qed.
Lemma check_special_case_required db gen delay act special delay' d :
  permissions_wf db → check_special_case db gen delay act = Ok (special, delay') → d ∈ act_authorization act →
  (special = false → declared_ok db act d) → required db gen delay act d delay'.
Proof.
  intros Hwf Hsp Hd Hdecl. unfold check_special_case in Hsp.
  destruct (negb _) eqn:E0; [injection Hsp as <- <-; apply RequiredLinked; [|by apply Hdecl]; left; by reflect_bools|].
  destruct (act_name act =? updateauth_name) eqn:E1.
  { apply bind_ok in Hsp as (u & [Hn Hu]%data_as_ok & ([] & Hc & [= <- <-])%bind_ok).
    destruct (updateauth_required _ _ _ _ Hwf Hc Hd) as (? & ? & min & ? & ?). by eapply RequiredUpdateauth. }
  destruct (act_name act =? deleteauth_name) eqn:E2.
  { apply bind_ok in Hsp as (x & [Hn Hu]%data_as_ok & ([] & Hc & [= <- <-])%bind_ok).
    unfold check_deleteauth_authorization in Hc. apply bind_ok in Hc as (auth & Ha & ([] & He%assert_ok & Hc)%bind_ok).
    apply (only_auth _ _ _ Ha) in Hd as E. rewrite E in Ha. injection Ha as <-. reflect_bools.
    apply bind_require in Hc as (min & ? & ?); [|done]. by eapply RequiredDeleteauth. }
  destruct (act_name act =? linkauth_name) eqn:E3.
  { apply bind_ok in Hsp as (l & [Hn Hu]%data_as_ok & ([] & Hc & [= <- <-])%bind_ok).
    unfold check_linkauth_authorization in Hc. apply bind_ok in Hc as (auth & Ha & ([] & He%assert_ok & Hc)%bind_ok).
    apply bind_ok in Hc as ([] & Hl%assert_ok & (name & Hm & Hc)%bind_ok).
    apply (only_auth _ _ _ Ha) in Hd as E. rewrite E in Ha. injection Ha as <-. reflect_bools.
    eapply RequiredLinkauth; [done..|]. intros n ->. by apply bind_require. }
  destruct (act_name act =? unlinkauth_name) eqn:E4.
  { apply bind_ok in Hsp as (u & [Hn Hu]%data_as_ok & ([] & Hc & [= <- <-])%bind_ok).
    unfold check_unlinkauth_authorization in Hc. apply bind_ok in Hc as (auth & Ha & ([] & He%assert_ok & Hc)%bind_ok).
    apply bind_ok in Hc as (name & Hl & Hc). apply (only_auth _ _ _ Ha) in Hd as E. rewrite E in Ha. injection Ha as <-.
    reflect_bools. destruct (lookup_linked_permission _ _ _ _) as [n|] eqn:El; [|discriminate Hl]. injection Hl as ->.
    eapply RequiredUnlinkauth; [done..|]. intros Hne. rewrite (proj2 (Z.eqb_neq _ _) Hne) in Hc. by apply bind_require. }
  destruct (act_name act =? canceldelay_name) eqn:E5.
  { apply bind_ok in Hsp as (c & [Hn Hu]%data_as_ok & (x & Hc & [= <- <-])%bind_ok).
    by eapply canceldelay_required. }
  injection Hsp as <- <-. apply RequiredLinked; [|by apply Hdecl]. right. unfold unlinkable. by rewrite E1, E2, E3, E4, E5.
Qed.

(** C4: when [check_authorization] accepts a transaction, then for every declared authorization of every
    action: it is one that was already satisfied (the inherited ones that [check_authorization] is given),
    or it is satisfied by the provided keys and permissions with the delay that is required; and whether
    or not it was already satisfied, it is at least the permission that the action requires.  An action
    of a contract requires the permission that its actor linked to it, or active; a native action on
    permissions has one authorization, of the account that it changes, and requires the permission that
    it changes (for updateauth, the parent of one that it creates; for linkauth and unlinkauth, that of
    the action that is linked; for canceldelay, the cancelling permission, which must be one of the
    transaction that is cancelled, whose delay is then required too).  [permissions_wf] is an invariant
    of the permission tables, and the stored authorities are within their machine types. *)
Theorem check_authorization_sound db gen cfg actions ks ps delay allow sat :
  permissions_wf db → authorities_in_range db →
  check_authorization db gen cfg actions ks ps delay allow sat = Ok tt →
  ∀ act d, act ∈ actions → d ∈ act_authorization act →
    ∃ delay', required db gen (effective_delay cfg delay) act d delay' ∧
      (d ∈ sat ∨ level_sat (make_auth_checker db cfg ks ps) delay' d).
Proof.
  intros Hwf Hr Hc act d Hact Hd.
  destruct (check_authorization_ok _ _ _ _ _ _ _ _ _ Hwf Hr Hc act d Hact Hd) as (sp & dl & Hsp & Hdecl & Hs).
  exists dl. split; [|done]. by eapply check_special_case_required.
Qed.

(** ** What the check reads *)

(** The same permissions and links; when they were last used does not matter. *)
Record same_permissions (db db' : auth_db) : Prop := {
  sp_permissions : permission_index db = permission_index db';
  sp_links : permission_link_index db = permission_link_index db';
}.
(** The transactions that the actions cancel are the same. *)
Definition same_cancelled (gen gen' : gmap digest generated_transaction) (actions : list action) : Prop :=
  ∀ act c, act ∈ actions → native act canceldelay_name → unpack_canceldelay (act_data act) = Ok c →
    gen !! cd_trx_id c = gen' !! cd_trx_id c.
Record same_limits (cfg cfg' : chain_config) : Prop := {
  sl_delay : max_transaction_delay cfg = max_transaction_delay cfg';
  sl_depth : max_authority_depth cfg = max_authority_depth cfg';
}.

Lemma same_special_case db db' gen gen' delay act :
  same_permissions db db' → same_cancelled gen gen' [act] →
  check_special_case db gen delay act = check_special_case db' gen' delay act.
Proof.
  intros [Hp Hl] Hg. destruct db as [p n u nu l], db' as [p' n' u' nu' l']. simpl in *. subst p' l'.
  unfold check_special_case. do 5 (match goal with |- context [if ?b then _ else _] => destruct b end; [reflexivity|]).
  match goal with |- context [if ?b then _ else _] => destruct b end; [|reflexivity].
  destruct (data_as canceldelay_name unpack_canceldelay act) as [c|e] eqn:Ec; [|reflexivity]. simpl.
  apply data_as_ok in Ec as [Hn Hu]. unfold check_canceldelay_authorization.
  rewrite (Hg act c) by (done || by left). reflexivity.
Qed.
Lemma same_collect_declared db db' sat act special delay auths m :
  same_permissions db db' →
  collect_declared db sat act special delay auths m = collect_declared db' sat act special delay auths m.
Proof.
  intros [Hp Hl]. revert m. induction auths as [|d auths IH]; intros m; cbn [collect_declared]; [done|].
  assert (check_declared_auth db act d = check_declared_auth db' act d) as ->.
  { clear IH. destruct db as [p n u nu l], db' as [p' n' u' nu' l']. simpl in *. by subst p' l'. }
  destruct (if special then _ else _) as [[]|e]; [|done]. apply IH.
Qed.
Lemma same_collect_permissions db db' gen gen' sat delay actions m :
  same_permissions db db' → same_cancelled gen gen' actions →
  collect_permissions db gen sat delay actions m = collect_permissions db' gen' sat delay actions m.
Proof.
  intros Hs Hg. revert m. induction actions as [|act actions IH]; intros m; cbn [collect_permissions]; [done|].
  rewrite (same_special_case db db' gen gen'); [|done|].
  2: { intros act' c ->%list_elem_of_singleton. apply Hg. by left. }
  destruct (check_special_case _ _ _ _) as [[special delay']|e]; [|done]. cbn.
  rewrite (same_collect_declared db db') by done. destruct (collect_declared _ _ _ _ _ _ _) as [m'|e]; [|done]. cbn.
  apply IH. intros act' c Hin. apply Hg. by right.
Qed.
Lemma same_check db db' gen gen' cfg cfg' actions ks ps delay allow sat :
  same_permissions db db' → same_cancelled gen gen' actions → same_limits cfg cfg' →
  check_authorization db gen cfg actions ks ps delay allow sat =
  check_authorization db' gen' cfg' actions ks ps delay allow sat.
Proof.
  intros Hs Hg [Hd Hm]. unfold check_authorization, effective_delay. rewrite Hd.
  rewrite (same_collect_permissions db db' gen gen') by done.
  assert (make_auth_checker db cfg ks ps = make_auth_checker db' cfg' ks ps) as ->; [|done].
  unfold make_auth_checker. rewrite Hm. destruct Hs as [Hp Hl], db, db'. simpl in *. by subst.
Qed.

End authorization.

(** ** A concrete instance *)
#[local] Existing Instances toy_fc toy_key_order.

Inductive toy_action_data :=
| ToyUpdateAuth (a : updateauth)
| ToyLinkAuth (a : linkauth)
| ToyDeleteAuth (a : deleteauth)
| ToyOther.

Definition toy_action_codec : ActionCodec := {|
  action_data := toy_action_data;
  unpack_newaccount := λ _, Throw unpack_exception;
  unpack_setcode := λ _, Throw unpack_exception;
  unpack_setabi := λ _, Throw unpack_exception;
  unpack_updateauth := λ d, match d with ToyUpdateAuth a => Ok a | _ => Throw unpack_exception end;
  unpack_deleteauth := λ d, match d with ToyDeleteAuth a => Ok a | _ => Throw unpack_exception end;
  unpack_linkauth := λ d, match d with ToyLinkAuth a => Ok a | _ => Throw unpack_exception end;
  unpack_unlinkauth := λ _, Throw unpack_exception;
  unpack_canceldelay := λ _, Throw unpack_exception;
|}.
#[local] Existing Instance toy_action_codec.

Definition toy_transaction_codec : TransactionCodec := {|
  packed_trx := list action;
  unpack_actions := λ l, Ok l;
|}.
#[local] Existing Instance toy_transaction_codec.

(** Account 1 has an owner and an active permission, held by the keys 7 and 8. *)
Definition toy_auth_db : result auth_db :=
  db ← initialize_permissions;
  '(db, owner) ← create_permission 1000 db 1 owner_name 0 (authority_of_key 7 0) 0;
  '(db, _) ← create_permission 1000 db 1 active_name (po_id owner) (authority_of_key 8 0) 0;
  mret db.

Lemma authority_of_key_wf (FC : Fc) (k : @public_key FC) d :
  in_u32 d → authority_wf (authority_of_key k d).
Proof.
  intros Hd. unfold authority_of_key. destruct (0 <? d); repeat split; repeat constructor;
    simpl; try lia; by destruct Hd.
Qed.

Lemma toy_auth_db_wf db :
  toy_auth_db = Ok db → permissions_wf db ∧ authorities_in_range db.
Proof.
  unfold toy_auth_db. intros (db0 & H0 & ([db1 owner] & H1 & ([db2 p2] & H2 & [= <-])%bind_ok)%bind_ok)%bind_ok.
  pose proof (initialize_permissions_wf _ H0) as Hwf0.
  destruct (pw_reserved _ Hwf0) as (d & Hd & _).
  assert (permissions_wf db1) as Hwf1 by (eapply create_permission_wf; [done|exact H1|done|eauto]).
  pose proof H1 as (_ & Ho & Hdb1)%create_permission_ok.
  assert (permissions_wf db2) as Hwf2.
  { eapply create_permission_wf; [exact Hwf1|exact H2|done|]. exists owner. subst.
    split; [|by right]. apply lookup_insert_eq. }
  split; [done|]. apply create_permission_ok in H2 as (_ & -> & ->).
  intros id p. subst. cbn [permission_index].
  intros [[_ <-]|[_ [[_ <-]|[_ Hp]]%lookup_insert_Some]]%lookup_insert_Some.
  1-2: by apply authority_of_key_wf.
  rewrite initialize_permissions_eq in H0. injection H0 as <-. cbn [permission_index] in Hp.
  apply lookup_insert_Some in Hp as [[_ <-]|[_ Hp]]; [|by rewrite lookup_empty in Hp].
  split; [by vm_compute|]. split; [constructor|]. split; constructor.
Qed.

Definition toy_transfer : action := Action 99 77 [PermissionLevel 1 active_name] ToyOther.

Lemma check_authorization_sound_witness :
  ∃ db delay', toy_auth_db = Ok db ∧
    required db ∅ (effective_delay initial_configuration 0) toy_transfer (PermissionLevel 1 active_name) delay' ∧
    (PermissionLevel 1 active_name ∈ [] ∨
     level_sat (make_auth_checker db initial_configuration [8] []) delay' (PermissionLevel 1 active_name)).
Proof.
  assert (Hok : is_ok (db ← toy_auth_db;
    check_authorization db ∅ initial_configuration [toy_transfer] [8] [] 0 false []) = true)
    by (vm_compute; reflexivity).
  destruct toy_auth_db as [db|e] eqn:E; [|discriminate Hok]. exists db.
  destruct (toy_auth_db_wf db E) as [Hwf Hr].
  destruct (check_authorization db ∅ initial_configuration [toy_transfer] [8] [] 0 false [])
    as [[]|e] eqn:Ec; [|simpl in Hok; rewrite Ec in Hok; discriminate Hok].
  destruct (check_authorization_sound db ∅ initial_configuration [toy_transfer] [8] [] 0 false []
    Hwf Hr Ec toy_transfer (PermissionLevel 1 active_name)) as (delay' & H).
  - left.
  - left.
  - exists delay'. split; [reflexivity|exact H].
Defined.

Definition toy_update : updateauth := UpdateAuth 1 active_name owner_name (authority_of_key 9 0).

Lemma updateauth_authorization_exact_witness :
  ∃ db auth min, toy_auth_db = Ok db ∧ [PermissionLevel 1 owner_name] = [auth] ∧ actor auth = 1 ∧
    updateauth_minimum db toy_update = Ok min ∧ at_least db auth min.
Proof.
  assert (Hok : is_ok (db ← toy_auth_db;
    check_updateauth_authorization db toy_update [PermissionLevel 1 owner_name]) = true)
    by (vm_compute; reflexivity).
  destruct toy_auth_db as [db|e] eqn:E; [|discriminate Hok]. exists db.
  destruct (toy_auth_db_wf db E) as [Hwf _].
  destruct (check_updateauth_authorization db toy_update [PermissionLevel 1 owner_name])
    as [[]|e] eqn:Ec; [|simpl in Hok; rewrite Ec in Hok; discriminate Hok].
  destruct (proj1 (updateauth_authorization_exact db toy_update _ Hwf) Ec) as (auth & min & H).
  exists auth, min. split; [reflexivity|exact H].
Defined.
