(* ===== verification/AccessLists.v ===== *)
(** * White and black lists of the controller

    Models check_actor_list, check_contract_list, check_action_list, check_key_list and
    sender_avoids_whitelist_blacklist_enforcement of controller.cpp.  A flat_set of names is its
    strictly ascending list.  The merge-like scans with a moving lower bound are shown to decide
    inclusion in the whitelist and intersection with the blacklist. *)

From Stdlib Require Import Sorted.
From S2P Require Import Prelude Merkle BlockHeader.

Section access_lists.
Context {FC : Fc}.

(** The lists of controller::config. *)
Record access_lists := AccessLists {
  sender_bypass_whiteblacklist : list account_name;
  actor_whitelist : list account_name;
  actor_blacklist : list account_name;
  contract_whitelist : list account_name;
  contract_blacklist : list account_name;
  action_blacklist : list (account_name * Z);
  key_blacklist : list public_key;
}.

Definition sender_avoids_whitelist_blacklist_enforcement (conf : access_lists) (sender : account_name)
    : bool :=
  bool_decide (sender ∈ sender_bypass_whiteblacklist conf).

(** [std::lower_bound] on a sorted range: the rest of the range from the first element that is not
    less than [x]. *)
Fixpoint lower_bound (range : list account_name) (x : account_name) : list account_name :=
  match range with
  | [] => []
  | y :: range' => if y <? x then lower_bound range' x else range
  end.

(** The loop over the actors; [range] starts at the moving lower bound. *)
Fixpoint whitelist_loop (actors range : list account_name) : bool :=
  match actors with
  | [] => true
  | actor :: actors =>
      match lower_bound range actor with
      | [] => false
      | y :: next => if y =? actor then whitelist_loop actors next else false
      end
  end.

Fixpoint blacklist_loop (actors range : list account_name) : bool :=
  match actors with
  | [] => false
  | actor :: actors =>
      match lower_bound range actor with
      | [] => false
      | (y :: _) as lb => if y =? actor then true else blacklist_loop actors lb
      end
  end.

(** [*set.cbegin()] and [*set.crbegin()] *)
Definition set_begin (l : list Z) : Z := hd 0 l.
Definition set_rbegin (l : list Z) : Z := List.last l 0.

Definition check_actor_list (conf : access_lists) (actors : list account_name) : result unit :=
  if bool_decide (actors = []) then mret tt
  else if bool_decide (actor_whitelist conf ≠ []) then
    let whitelist := actor_whitelist conf in
    let is_subset :=
      if (set_begin whitelist <=? set_begin actors) && (set_rbegin actors <=? set_rbegin whitelist)
      then whitelist_loop actors whitelist else false in
    EOS_ASSERT is_subset actor_whitelist_exception
  else if bool_decide (actor_blacklist conf ≠ []) then
    let blacklist := actor_blacklist conf in
    let intersects :=
      if (set_begin actors <=? set_rbegin blacklist) && (set_begin blacklist <=? set_rbegin actors)
      then blacklist_loop actors blacklist else false in
    EOS_ASSERT (negb intersects) actor_blacklist_exception
  else mret tt.

Definition check_contract_list (conf : access_lists) (code : account_name) : result unit :=
  if bool_decide (contract_whitelist conf ≠ []) then
    EOS_ASSERT (bool_decide (code ∈ contract_whitelist conf)) contract_whitelist_exception
  else if bool_decide (contract_blacklist conf ≠ []) then
    EOS_ASSERT (bool_decide (code ∉ contract_blacklist conf)) contract_blacklist_exception
  else mret tt.

Definition check_action_list (conf : access_lists) (code : account_name) (action : Z) : result unit :=
  if bool_decide (action_blacklist conf ≠ []) then
    EOS_ASSERT (bool_decide ((code, action) ∉ action_blacklist conf)) action_blacklist_exception
  else mret tt.

Definition check_key_list (conf : access_lists) (key : public_key) : result unit :=
  if bool_decide (key_blacklist conf ≠ []) then
    EOS_ASSERT (bool_decide (key ∉ key_blacklist conf)) key_blacklist_exception
  else mret tt.

End access_lists.

(** ** The scans decide inclusion and intersection *)

Abbreviation ascending := (StronglySorted Z.lt).

Lemma lower_bound_spec range x :
  ascending range →
  ascending (lower_bound range x) ∧ Forall (λ y, x <= y) (lower_bound range x) ∧
  ∀ y, x <= y → y ∈ range ↔ y ∈ lower_bound range x.
Proof.
  induction 1 as [|y range Hs IH Hf]; simpl; [by repeat split; try constructor|].
  destruct (y <? x) eqn:E; reflect_bools.
  - destruct IH as (? & ? & Hin). split; [done|]. split; [done|].
    intros z Hz. rewrite elem_of_cons, <-Hin by done. split; [|by right]. intros [->|?]; [lia|done].
  - split; [by constructor|]. split; [|done]. constructor; [done|].
    eapply Forall_impl; [exact Hf|]. simpl. lia.
Qed.

Lemma whitelist_loop_spec actors range :
  ascending actors → ascending range →
  whitelist_loop actors range = true ↔ ∀ a, a ∈ actors → a ∈ range.
Proof.
  intros Ha. revert range. induction Ha as [|a actors Ha IH Hf]; intros range Hr; simpl.
  { split; [|done]. intros _ a Hin. by apply elem_of_nil in Hin. }
  destruct (lower_bound_spec range a Hr) as (Hs & Hge & Hin). rewrite Forall_forall in Hf.
  destruct (lower_bound range a) as [|y next].
  { split; [done|]. intros Hall. specialize (Hall a ltac:(by left)).
    rewrite Hin in Hall by lia. by apply elem_of_nil in Hall. }
  apply StronglySorted_inv in Hs as [Hs Hlt]. apply Forall_cons in Hge as [Hy _].
  rewrite Forall_forall in Hlt.
  destruct (y =? a) eqn:E; reflect_bools.
  - subst y. rewrite IH by done. split.
    + intros Hall b [->|Hb]%elem_of_cons; [by apply Hin; [lia|left]|].
      apply Hin; [specialize (Hf b Hb); lia|]. right. by apply Hall.
    + intros Hall b Hb. assert (b ∈ range) as Hbr by (apply Hall; by right).
      specialize (Hf b Hb). apply Hin in Hbr; [|lia].
      apply elem_of_cons in Hbr as [->|?]; [lia|done].
  - split; [done|]. intros Hall. specialize (Hall a ltac:(by left)).
    apply Hin in Hall; [|lia]. apply elem_of_cons in Hall as [->|Hb]; [done|].
    specialize (Hlt a Hb). lia.
Qed.

Lemma blacklist_loop_spec actors range :
  ascending actors → ascending range →
  blacklist_loop actors range = true ↔ ∃ a, a ∈ actors ∧ a ∈ range.
Proof.
  intros Ha. revert range. induction Ha as [|a actors Ha IH Hf]; intros range Hr; simpl.
  { split; [done|]. intros (a & Hin & _). by apply elem_of_nil in Hin. }
  destruct (lower_bound_spec range a Hr) as (Hs & Hge & Hin). rewrite Forall_forall in Hf, Hge.
  assert (∀ b, b ∈ a :: actors → b ∈ range ↔ b ∈ lower_bound range a) as Hin'.
  { intros b [->|Hb]%elem_of_cons; apply Hin; [lia|]. specialize (Hf b Hb). lia. }
  destruct (lower_bound range a) as [|y next].
  { split; [done|]. intros (b & Hb & Hbr). apply Hin' in Hbr; [|done]. by apply elem_of_nil in Hbr. }
  destruct (y =? a) eqn:E; reflect_bools.
  - subst y. split; [|done]. intros _. exists a. split; [by left|]. apply Hin; [lia|by left].
  - rewrite IH by done. split.
    + intros (b & Hb & Hbr). exists b. split; [by right|]. apply Hin'; [by right|done].
    + intros (b & Hb & Hbr). apply Hin' in Hbr; [|done]. exists b. split; [|done].
      apply elem_of_cons in Hb as [->|?]; [|done]. exfalso.
      apply StronglySorted_inv in Hs as [_ Hlt]. rewrite Forall_forall in Hlt.
      apply elem_of_cons in Hbr as [->|Hb]; [done|]. specialize (Hlt _ Hb).
      specialize (Hge y ltac:(by left)). lia.
Qed.

Lemma ascending_extents l : ascending l → ∀ a, a ∈ l → set_begin l <= a <= set_rbegin l.
Proof.
  unfold set_begin, set_rbegin. induction 1 as [|x l Hs IH Hf]; intros a Hin; [by apply elem_of_nil in Hin|].
  rewrite Forall_forall in Hf. destruct l as [|y l].
  - apply list_elem_of_singleton in Hin as ->. simpl. lia.
  - pose proof (Hf y ltac:(by left)). cbn [hd] in IH.
    change (List.last (x :: y :: l) 0) with (List.last (y :: l) 0).
    assert (y ∈ y :: l) as Hy by by left. pose proof (IH y Hy).
    apply elem_of_cons in Hin as [->|Hin]; [cbn [hd]; lia|]. specialize (IH a Hin). cbn [hd]. lia.
Qed.

Lemma set_ends_in l : l ≠ [] → set_begin l ∈ l ∧ set_rbegin l ∈ l.
Proof.
  intros Hl. unfold set_begin, set_rbegin. split; [destruct l; [done|by left]|].
  induction l as [|x [|y l] IH]; [done|by left|]. right. by apply IH.
Qed.

(** the scans with a moving lower bound decide what they are for: a non-empty set of actors is
    accepted exactly when it is included in a non-empty whitelist, or, without a whitelist, when it
    does not meet the blacklist. *)
Theorem check_actor_list_exact `{Fc} conf actors :
  ascending actors → ascending (actor_whitelist conf) → ascending (actor_blacklist conf) →
  check_actor_list conf actors = Ok tt ↔
  actors = [] ∨
  if bool_decide (actor_whitelist conf ≠ []) then ∀ a, a ∈ actors → a ∈ actor_whitelist conf
  else ∀ a, a ∈ actors → a ∉ actor_blacklist conf.
Proof.
  intros Ha Hw Hb. unfold check_actor_list. case_bool_decide as E0; [by split; [left|]|].
  assert (∀ P, actors = [] ∨ P ↔ P) as Hor by naive_solver. rewrite Hor. clear Hor.
  destruct (set_ends_in actors E0) as [Hfst Hlst].
  case_bool_decide as Ew; [|case_bool_decide as Eb].
  - rewrite assert_ok. destruct (_ && _) eqn:E; [by apply whitelist_loop_spec|].
    split; [done|]. intros Hall. apply andb_false_iff in E.
    pose proof (ascending_extents _ Hw _ (Hall _ Hfst)).
    pose proof (ascending_extents _ Hw _ (Hall _ Hlst)). destruct E; reflect_bools; lia.
  - rewrite assert_ok, negb_true_iff. destruct (_ && _) eqn:E.
    + rewrite <-not_true_iff_false, blacklist_loop_spec by done. naive_solver.
    + split; [|done]. intros _ a Hin Hbl. apply andb_false_iff in E.
      pose proof (ascending_extents _ Ha _ Hin). pose proof (ascending_extents _ Hb _ Hbl).
      destruct E; reflect_bools; lia.
  - split; [|done]. intros _ a _ Hbl. assert (actor_blacklist conf = []) as Hn.
    { destruct (actor_blacklist conf); [done|]. by destruct Eb. }
    rewrite Hn in Hbl. by apply elem_of_nil in Hbl.
Qed.

Definition toy_lists : @access_lists toy_fc := @AccessLists toy_fc [] [1; 2; 3; 5] [] [] [] [] [].

Lemma check_actor_list_exact_witness :
  [2; 5] = [] ∨ ∀ a, a ∈ [2; 5] → a ∈ actor_whitelist toy_lists.
Proof.
  apply (@check_actor_list_exact toy_fc toy_lists [2; 5]).
  - by repeat constructor.
  - by repeat constructor.
  - by repeat constructor.
  - vm_compute. reflexivity.
Defined.
