(* ===== verification/ApplyContext.v ===== *)
(** * The context of an action

    Models apply_context.cpp and apply_context.hpp of libraries/chain without the contract tables
    (those are in ContractDb): authorization and recipients, RAM accounting, inline and deferred
    transactions, sequence numbers; with account_object.hpp, the deferred transactions of
    generated_transaction_object.hpp, and the parts of transaction_context.cpp they call.

    An operation is a function on [apply_state], the database and what the context itself holds; what
    does not change during an action is in [apply_env]. *)

From stdpp Require Import sorting.
From S2P Require Import Prelude Names Merkle BlockHeader Resources Authority ChainConfig AuthManager.
From S2P Require Import AccessLists.

(** ** Billable sizes (config.hpp and the object headers) *)
Definition overhead_per_row_per_index_ram_bytes : Z := 32.
Definition generated_transaction_size : Z :=
  billable_size_v (96 + 4 + overhead_per_row_per_index_ram_bytes * 5).
Definition transaction_id_net_usage : Z := 32.

(** ** account_object.hpp *)
Record account_object := AccountObject {
  ao_vm_type : Z;
  ao_vm_version : Z;
  ao_privileged : bool;
  ao_last_code_update : time_point;
  ao_code_version : digest;
  ao_creation_date : Z;
  ao_code : list Z;
  ao_abi : list Z;
}.
Definition account_default : account_object := AccountObject 0 0 false 0 digest_zero 0 [] [].

Record account_sequence_object := AccountSequence {
  recv_sequence : Z;
  auth_sequence : Z;
  code_sequence : Z;
  abi_sequence : Z;
}.
Definition sequence_default : account_sequence_object := AccountSequence 0 0 0 0.

(** What a transaction needs here besides its actions; [packed_size] is fc::raw::pack_size, [trx_id]
    the id of a packed transaction. *)
Class PackSizes `{TransactionCodec} := {
  packed_size : packed_trx → Z;
  trx_id : packed_trx → digest;
  trx_delay_sec : packed_trx → Z;
  trx_context_free_actions : packed_trx → list action;
  (** the transaction with the expiration and the reference block that it gets when it is scheduled in
      the pending block of a time; that time also says which block is the head *)
  trx_prepared : time_point → packed_trx → packed_trx;
  key_pack_size : public_key → Z;
}.

(** pack_size is a size, of 32 bits. *)
Class PackSizesLaws `{PackSizes} : Prop := {
  packed_size_range : ∀ t, 0 <= packed_size t < 2 ^ 32;
  key_pack_size_range : ∀ k, 0 <= key_pack_size k < 2 ^ 32;
}.

Section apply_context.
Context {FC : Fc} {AC : ActionCodec} {TC : TransactionCodec} {PS : PackSizes}.

(** ** State *)

(** The tables of the chain: accounts and sequences by name, deferred transactions by trx_id. *)
Record chain_db := ChainDb {
  db_accounts : gmap account_name account_object;
  db_sequences : gmap account_name account_sequence_object;
  db_auth : auth_db;
  db_resources : resource_db;
  db_generated : gmap digest generated_transaction;
  global_action_sequence : Z;
}.

Record apply_state := ApplyState {
  st_db : chain_db;
  used_authorizations : list bool;
  account_ram_deltas : gmap account_name Z;
  validate_ram_usage : gset account_name;
  notified : list account_name;
  inline_actions : list action;
  cfa_inline_actions : list action;
  trx_net_usage : Z;
}.

(** What the controller, the transaction context and the receiver fix for an action. *)
Record apply_env := ApplyEnv {
  env_receiver : account_name;
  env_act : action;
  env_privileged : bool;
  env_config : chain_config;
  env_pending_block_time : time_point;
  env_published : time_point;
  env_producing_block : bool;
  env_allow_ram_billing_in_notify : bool;
  env_skip_auth_check : bool;
  env_enforce_whiteblacklist : bool;
  env_lists : access_lists;
  env_skip_trx_checks : bool;
  env_eager_net_limit : Z;
  env_net_limit_due_to_block : bool;
  env_net_limit_due_to_greylist : bool;
}.

Definition set_db (s : apply_state) (d : chain_db) : apply_state :=
  ApplyState d (used_authorizations s) (account_ram_deltas s) (validate_ram_usage s) (notified s)
    (inline_actions s) (cfa_inline_actions s) (trx_net_usage s).
Definition set_used_authorizations (s : apply_state) (u : list bool) : apply_state :=
  ApplyState (st_db s) u (account_ram_deltas s) (validate_ram_usage s) (notified s)
    (inline_actions s) (cfa_inline_actions s) (trx_net_usage s).
Definition set_ram (s : apply_state) (d : gmap account_name Z) (v : gset account_name) : apply_state :=
  ApplyState (st_db s) (used_authorizations s) d v (notified s) (inline_actions s)
    (cfa_inline_actions s) (trx_net_usage s).
Definition set_notified (s : apply_state) (n : list account_name) : apply_state :=
  ApplyState (st_db s) (used_authorizations s) (account_ram_deltas s) (validate_ram_usage s) n
    (inline_actions s) (cfa_inline_actions s) (trx_net_usage s).
Definition set_inline (s : apply_state) (i c : list action) : apply_state :=
  ApplyState (st_db s) (used_authorizations s) (account_ram_deltas s) (validate_ram_usage s)
    (notified s) i c (trx_net_usage s).
Definition set_net_usage (s : apply_state) (n : Z) : apply_state :=
  ApplyState (st_db s) (used_authorizations s) (account_ram_deltas s) (validate_ram_usage s)
    (notified s) (inline_actions s) (cfa_inline_actions s) n.

Definition with_accounts (d : chain_db) (m : gmap account_name account_object) : chain_db :=
  ChainDb m (db_sequences d) (db_auth d) (db_resources d) (db_generated d) (global_action_sequence d).
Definition with_sequences (d : chain_db) (m : gmap account_name account_sequence_object) : chain_db :=
  ChainDb (db_accounts d) m (db_auth d) (db_resources d) (db_generated d) (global_action_sequence d).
Definition with_auth (d : chain_db) (a : auth_db) : chain_db :=
  ChainDb (db_accounts d) (db_sequences d) a (db_resources d) (db_generated d)
    (global_action_sequence d).
Definition with_resources (d : chain_db) (r : resource_db) : chain_db :=
  ChainDb (db_accounts d) (db_sequences d) (db_auth d) r (db_generated d) (global_action_sequence d).
Definition with_generated (d : chain_db) (g : gmap digest generated_transaction) : chain_db :=
  ChainDb (db_accounts d) (db_sequences d) (db_auth d) (db_resources d) g (global_action_sequence d).
Definition with_global_sequence (d : chain_db) (n : Z) : chain_db :=
  ChainDb (db_accounts d) (db_sequences d) (db_auth d) (db_resources d) (db_generated d) n.

Abbreviation apply := (stM apply_state).

(** [if( c ) { m }] *)
Definition when (c : bool) (m : apply unit) : apply unit := if c then m else mret tt.
Definition get_db : apply chain_db := s ← st_get; mret (st_db s).
Definition put_db (d : chain_db) : apply unit := st_modify (λ s, set_db s d).

(** [control.is_ram_billing_in_notify_allowed()] *)
Definition is_ram_billing_in_notify_allowed (env : apply_env) : bool :=
  negb (env_producing_block env) || env_allow_ram_billing_in_notify env.

(** ** Authorization and recipients *)
Definition is_account (account : account_name) : apply bool :=
  d ← get_db; mret (bool_decide (is_Some (db_accounts d !! account))).

(** The position of the first declared authorization that satisfies [P]. *)
Definition require_auth (env : apply_env) (P : permission_level → bool) : apply unit :=
  match list_find (λ a, P a = true) (act_authorization (env_act env)) with
  | Some (i, _) => st_modify (λ s, set_used_authorizations s (<[i := true]> (used_authorizations s)))
  | None => st_throw missing_auth_exception
  end.

Definition require_authorization (env : apply_env) (account : account_name) : apply unit :=
  require_auth env (λ a, actor a =? account).

Definition require_authorization_permission (env : apply_env) (account : account_name)
    (perm : permission_name) : apply unit :=
  require_auth env (λ a, (actor a =? account) && (permission a =? perm)).

Definition has_authorization (env : apply_env) (account : account_name) : bool :=
  existsb (λ a, actor a =? account) (act_authorization (env_act env)).

Definition has_recipient (code : account_name) : apply bool :=
  s ← st_get; mret (existsb (Z.eqb code) (notified s)).

Definition require_recipient (recipient : account_name) : apply unit :=
  b ← has_recipient recipient;
  when (negb b) (st_modify (λ s, set_notified s (notified s ++ [recipient]))).

(** ** RAM *)

(** transaction_context::add_ram_usage and apply_context::add_ram_usage *)
Definition add_ram_usage (account : account_name) (ram_delta : Z) : apply unit :=
  d ← get_db;
  r ← st_lift (add_pending_ram_usage (db_resources d) account ram_delta);
  _ ← put_db (with_resources d r);
  st_modify (λ s, set_ram s
    (<[account := default 0 (account_ram_deltas s !! account) + ram_delta]> (account_ram_deltas s))
    (if 0 <? ram_delta then {[account]} ∪ validate_ram_usage s else validate_ram_usage s)).

Definition update_db_usage (env : apply_env) (payer : account_name) (delta : Z) : apply unit :=
  _ ← when ((0 <? delta) && negb (env_privileged env || (payer =? env_receiver env)))
        (_ ← st_assert (is_ram_billing_in_notify_allowed env ||
                        (env_receiver env =? act_account (env_act env)))
               subjective_block_production_exception;
         require_authorization env payer);
  add_ram_usage payer delta.

(** ** Deferred transactions *)

(** The index by_sender_id. *)
Definition find_generated (d : chain_db) (sender : account_name) (sender_id : Z)
    : option (digest * generated_transaction) :=
  map_find (λ ig, gt_sender ig.2 = sender ∧ gt_sender_id ig.2 = sender_id) (db_generated d).

Definition cancel_deferred_transaction (sender_id : Z) (sender : account_name) : apply bool :=
  d ← get_db;
  match find_generated d sender sender_id with
  | Some (id, gto) =>
      _ ← add_ram_usage (gt_payer gto)
            (- (generated_transaction_size + packed_size (gt_packed_trx gto)));
      d ← get_db;
      _ ← put_db (with_generated d (delete id (db_generated d)));
      mret true
  | None => mret false
  end.

(** transaction_context::add_net_usage and check_net_usage *)
Definition add_net_usage (env : apply_env) (u : Z) : apply unit :=
  _ ← st_modify (λ s, set_net_usage s (u64 (trx_net_usage s + u)));
  s ← st_get;
  when (negb (env_skip_trx_checks env) && (env_eager_net_limit env <? trx_net_usage s))
    (st_throw (if env_net_limit_due_to_block env then block_net_usage_exceeded
               else if env_net_limit_due_to_greylist env then greylist_net_usage_exceeded
               else tx_net_usage_exceeded)).

(** transaction_context::validate_referenced_accounts *)
Definition check_code_account (d : chain_db) (a : action) : result unit :=
  EOS_ASSERT (bool_decide (is_Some (db_accounts d !! act_account a))) transaction_exception.

Definition check_actor (d : chain_db) (auth : permission_level) : result unit :=
  _ ← EOS_ASSERT (bool_decide (is_Some (db_accounts d !! actor auth))) transaction_exception;
  p ← find_permission (db_auth d) auth;
  EOS_ASSERT (bool_decide (is_Some p)) transaction_exception.

Fixpoint check_all {A} (f : A → result unit) (l : list A) : result unit :=
  match l with
  | [] => mret tt
  | x :: l => _ ← f x; check_all f l
  end.

(** A flat_set of the names, in ascending order. *)
Definition flat_set_of (l : list account_name) : list account_name :=
  merge_sort Z.le (remove_dups l).

Definition validate_referenced_accounts (lists : access_lists) (d : chain_db) (cfa acts : list action)
    (enforce : bool) : result unit :=
  _ ← check_all (λ a, _ ← check_code_account d a;
                      EOS_ASSERT (bool_decide (act_authorization a = [])) transaction_exception) cfa;
  _ ← check_all (λ a, _ ← check_code_account d a; check_all (check_actor d) (act_authorization a)) acts;
  let auths := acts ≫= act_authorization in
  _ ← EOS_ASSERT (bool_decide (auths ≠ [])) tx_no_auths;
  if enforce then check_actor_list lists (flat_set_of (actor <$> auths)) else mret tt.

(** The outcome of an authorization check whose failure is forgiven for actions sent to oneself,
    unless a block is being produced. *)
Definition forgive_self (env : apply_env) (to_self : bool) (r : result unit) : result unit :=
  match r with
  | Ok _ => mret tt
  | Throw e =>
      if negb to_self then Throw e
      else if env_producing_block env then Throw subjective_block_production_exception
      else mret tt
  end.

(** [{{receiver, config::eosio_code_name}}] *)
Definition code_permission (env : apply_env) : list permission_level :=
  [PermissionLevel (env_receiver env) eosio_code_name].

Definition schedule_deferred_transaction (env : apply_env) (sender_id : Z) (payer : account_name)
    (trx : packed_trx) (replace_existing : bool) : apply unit :=
  _ ← st_assert (bool_decide (trx_context_free_actions trx = [])) cfa_inside_generated_tx;
  let trx := trx_prepared (env_pending_block_time env) trx in
  acts ← st_lift (unpack_actions trx);
  let enforce := env_enforce_whiteblacklist env && env_producing_block env &&
    negb (sender_avoids_whitelist_blacklist_enforcement (env_lists env) (env_receiver env)) in
  d ← get_db;
  _ ← st_lift (validate_referenced_accounts (env_lists env) d (trx_context_free_actions trx) acts enforce);
  _ ← add_net_usage env (base_per_transaction_net_usage (env_config env) + transaction_id_net_usage);
  let delay := seconds (trx_delay_sec trx) in
  _ ← when (negb (env_skip_auth_check env) && negb (env_privileged env))
        (_ ← when (negb (payer =? env_receiver env)) (require_authorization env payer);
         d ← get_db;
         st_lift (forgive_self env
           (forallb (λ a, act_account a =? env_receiver env) acts)
           (check_authorization (db_auth d) (db_generated d) (env_config env) acts []
              (code_permission env) delay false [])));
  let published := env_pending_block_time env in
  let gtx := GeneratedTransaction (env_receiver env) sender_id payer (published + delay)
    (published + delay + seconds (deferred_trx_expiration_window (env_config env))) published trx in
  d ← get_db;
  _ ← (match find_generated d (env_receiver env) sender_id with
       | Some (id, _) =>
           _ ← st_assert replace_existing deferred_tx_duplicate;
           _ ← st_assert (negb (env_producing_block env)) subjective_block_production_exception;
           put_db (with_generated d (<[id := gtx]> (db_generated d)))
       | None =>
           _ ← st_assert (bool_decide (db_generated d !! trx_id trx = None)) db_uniqueness_violation;
           put_db (with_generated d (<[trx_id trx := gtx]> (db_generated d)))
       end);
  _ ← st_assert (is_ram_billing_in_notify_allowed env ||
                 (env_receiver env =? act_account (env_act env)) ||
                 (env_receiver env =? payer) || env_privileged env)
        subjective_block_production_exception;
  add_ram_usage payer (generated_transaction_size + packed_size trx).

(** ** Inline actions *)
Definition check_inline_actor (d : chain_db) (auth : permission_level) : result unit :=
  _ ← EOS_ASSERT (bool_decide (is_Some (db_accounts d !! actor auth))) action_validate_exception;
  p ← find_permission (db_auth d) auth;
  EOS_ASSERT (bool_decide (is_Some p)) action_validate_exception.

Definition execute_inline (env : apply_env) (a : action) : apply unit :=
  d ← get_db;
  _ ← st_assert (bool_decide (is_Some (db_accounts d !! act_account a))) action_validate_exception;
  let enforce := env_enforce_whiteblacklist env && env_producing_block env in
  let send_to_self := act_account a =? env_receiver env in
  let inherit := send_to_self && (env_receiver env =? act_account (env_act env)) &&
    env_producing_block env in
  _ ← st_lift (check_all (check_inline_actor d) (act_authorization a));
  let inherited := if inherit
    then filter (λ p, p ∈ act_authorization (env_act env)) (act_authorization a) else [] in
  _ ← st_lift (if enforce
               then check_actor_list (env_lists env) (flat_set_of (actor <$> act_authorization a))
               else mret tt);
  _ ← when (negb (env_skip_auth_check env) && negb (env_privileged env))
        (st_lift (forgive_self env send_to_self
           (check_authorization (db_auth d) (db_generated d) (env_config env) [a] []
              (code_permission env) (env_pending_block_time env - env_published env) false inherited)));
  st_modify (λ s, set_inline s (inline_actions s ++ [a]) (cfa_inline_actions s)).

Definition execute_context_free_inline (a : action) : apply unit :=
  d ← get_db;
  _ ← st_assert (bool_decide (is_Some (db_accounts d !! act_account a))) action_validate_exception;
  _ ← st_assert (bool_decide (act_authorization a = [])) action_validate_exception;
  st_modify (λ s, set_inline s (inline_actions s) (cfa_inline_actions s ++ [a])).

(** ** Sequence numbers *)
Definition next_global_sequence : apply Z :=
  d ← get_db;
  let n := u64 (global_action_sequence d + 1) in
  _ ← put_db (with_global_sequence d n);
  mret n.

Definition next_recv_sequence (receiver : account_name) : apply Z :=
  d ← get_db;
  rs ← st_lift (of_option (db_sequences d !! receiver) db_not_found);
  let n := u64 (recv_sequence rs + 1) in
  _ ← put_db (with_sequences d (<[receiver := AccountSequence n (auth_sequence rs) (code_sequence rs)
                                                (abi_sequence rs)]> (db_sequences d)));
  mret n.

Definition next_auth_sequence (actor : account_name) : apply Z :=
  d ← get_db;
  rs ← st_lift (of_option (db_sequences d !! actor) db_not_found);
  let n := u64 (auth_sequence rs + 1) in
  _ ← put_db (with_sequences d (<[actor := AccountSequence (recv_sequence rs) n (code_sequence rs)
                                             (abi_sequence rs)]> (db_sequences d)));
  mret n.

End apply_context.

Abbreviation apply := (stM apply_state).

(** ** Runs *)
Section runs.
Context {FC : Fc} {AC : ActionCodec} {TC : TransactionCodec} {PS : PackSizes}.
Implicit Types s : apply_state.

Lemma get_db_ok s s' d : get_db s = (s', Ok d) ↔ s' = s ∧ d = st_db s.
Proof. unfold get_db. split; [intros H; by inv_st|by intros [-> ->]]. Qed.

Lemma put_db_ok s s' d u : put_db d s = (s', Ok u) ↔ s' = set_db s d.
Proof. unfold put_db. by rewrite st_modify_ok. Qed.

Lemma when_ok c m s s' u :
  when c m s = (s', Ok u) ↔ (c = true ∧ m s = (s', Ok u)) ∨ (c = false ∧ s' = s).
Proof. unfold when. destruct c, u; rewrite ?st_ret_ok; naive_solver. Qed.

Lemma require_auth_db env P s s' u : require_auth env P s = (s', Ok u) → st_db s' = st_db s.
Proof. unfold require_auth. destruct (list_find _ _) as [[i a]|]; intros H; by inv_st. Qed.

(** RAM counters of accounts, and their machine range. *)
Definition ram_of (d : chain_db) (a : account_name) : Z :=
  match usage_index (db_resources d) !! a with Some u => ram_usage u | None => 0 end.
Definition ram_in_range (d : chain_db) : Prop :=
  ∀ a u, usage_index (db_resources d) !! a = Some u → in_u64 (ram_usage u).

Lemma add_pending_ram_usage_exact r a delta r' :
  (∀ b u, usage_index r !! b = Some u → in_u64 (ram_usage u)) → in_i64 delta →
  add_pending_ram_usage r a delta = Ok r' →
  ∃ f, r' = with_usage r f ∧
  (∀ b u, f !! b = Some u → in_u64 (ram_usage u)) ∧
  ∀ b, match f !! b with Some u => ram_usage u | None => 0 end =
    match usage_index r !! b with Some u => ram_usage u | None => 0 end + if decide (b = a) then delta else 0.
Proof.
  intros Hr [Hd1 Hd2]. unfold add_pending_ram_usage, get_usage.
  destruct (delta =? 0) eqn:E0; reflect_bools.
  { intros [= <-]. exists (usage_index r). split; [by destruct r|]. split; [done|].
    intros b. case_decide; lia. }
  intros H. inv_ok. rename r0 into u. pose proof (Hr a u Hrun) as [Hu1 Hu2].
  unfold UINT64_MAX in *. apply orb_true_iff in Hrun0, Hrun1.
  assert (0 <= ram_usage u + delta < 2 ^ 64) as Hin.
  { destruct (decide (0 <= delta)).
    - destruct Hrun0 as [?|Hp]; reflect_bools; [lia|]. rewrite u64_small in Hp by lia. lia.
    - destruct Hrun1 as [?|Hn]; reflect_bools; [lia|]. rewrite u64_small in Hn by lia. lia. }
  eexists. split; [done|]. split.
  - intros b v [[<- <-]|[_ Hv]]%lookup_insert_Some; [simpl; apply u64_range|by eapply Hr].
  - intros b. destruct (decide (b = a)) as [->|Hne].
    + rewrite lookup_insert_eq, Hrun. simpl. by rewrite u64_small.
    + rewrite lookup_insert_ne by done. lia.
Qed.

Lemma add_ram_usage_exact a delta s s' u :
  ram_in_range (st_db s) → in_i64 delta → add_ram_usage a delta s = (s', Ok u) →
  ∃ f, st_db s' = with_resources (st_db s) (with_usage (db_resources (st_db s)) f) ∧
    ram_in_range (st_db s') ∧
    ∀ b, ram_of (st_db s') b = ram_of (st_db s) b + if decide (b = a) then delta else 0.
Proof.
  unfold add_ram_usage. intros Hr Hd H. inv_st. apply get_db_ok in Hrun as [-> ->].
  apply put_db_ok in Hrun1 as ->.
  destruct (add_pending_ram_usage_exact _ _ _ _ Hr Hd H0) as (f & -> & Hf & Hb).
  exists f. split; [done|]. split; [exact Hf|exact Hb].
Qed.

End runs.

(** Turns a successful run of the context into the equations of its steps. *)
Ltac inv_apply :=
  repeat (inv_st; match goal with
  | H : get_db _ = (_, Ok _) |- _ => apply get_db_ok in H as [? ?]; subst
  | H : put_db _ _ = (_, Ok _) |- _ => apply put_db_ok in H; subst
  end); inv_st.

(** ** RAM of deferred transactions *)
Section deferred.
Context {FC : Fc} {AC : ActionCodec} {TC : TransactionCodec} {PS : PackSizes} {PL : PackSizesLaws}.
Implicit Types s : apply_state.

(** The bytes that a stored transaction is billed for. *)
Definition generated_bytes (g : generated_transaction) : Z :=
  generated_transaction_size + packed_size (gt_packed_trx g).
Definition generated_footprint (d : chain_db) (a : account_name) : Z :=
  msum (λ _ g, if decide (gt_payer g = a) then generated_bytes g else 0) (db_generated d).

Lemma generated_bytes_range g : 0 < generated_bytes g < 2 ^ 33.
Proof.
  unfold generated_bytes. pose proof (packed_size_range (gt_packed_trx g)).
  change generated_transaction_size with 272. lia.
Qed.

Lemma add_net_usage_db env n s s' u : add_net_usage env n s = (s', Ok u) → st_db s' = st_db s.
Proof.
  unfold add_net_usage. intros H. inv_st.
  apply when_ok in H as [[_ H]|[_ ->]]; [by inv_st|done].
Qed.

Lemma cancel_deferred_exact sender_id sender s s' b :
  ram_in_range (st_db s) → cancel_deferred_transaction sender_id sender s = (s', Ok b) →
  ram_in_range (st_db s') ∧
  db_accounts (st_db s') = db_accounts (st_db s) ∧ db_sequences (st_db s') = db_sequences (st_db s) ∧
  db_auth (st_db s') = db_auth (st_db s) ∧
  db_generated (st_db s') =
    match find_generated (st_db s) sender sender_id with
    | Some (id, _) => delete id (db_generated (st_db s))
    | None => db_generated (st_db s)
    end ∧
  ∀ a, ram_of (st_db s') a - ram_of (st_db s) a =
       generated_footprint (st_db s') a - generated_footprint (st_db s) a.
Proof.
  unfold cancel_deferred_transaction. intros Hr H. inv_apply.
  destruct (find_generated _ _ _) as [[id g]|] eqn:Ef; inv_apply.
  2: { split_and!; try done. intros a. lia. }
  apply add_ram_usage_exact in Hrun as (f & Hdb & Hr' & Hram); [|done|].
  2: { pose proof (generated_bytes_range g). unfold generated_bytes, in_i64 in *. lia. }
  simpl. split; [exact Hr'|]. rewrite Hdb. simpl. split_and!; try done.
  intros a. unfold ram_of in *. simpl in *. rewrite Hdb in Hram. simpl in Hram. rewrite Hram.
  unfold generated_footprint. simpl.
  apply map_find_Some_1 in Ef as [Hg _]. rewrite msum_delete_any, Hg. simpl.
  unfold generated_bytes. repeat case_decide; subst; try done; lia.
Qed.

(** What scheduling stores: a new row, or the row with the same sender and sender_id replaced. *)
Lemma schedule_deferred_stores env sender_id payer trx replace_existing s s' u :
  schedule_deferred_transaction env sender_id payer trx replace_existing s = (s', Ok u) →
  ∃ s0 s1 id g, st_db s0 = st_db s ∧ gt_payer g = payer ∧ gt_packed_trx g = trx_prepared (env_pending_block_time env) trx ∧
    (gt_sender g = env_receiver env ∧ gt_sender_id g = sender_id) ∧
    match find_generated (st_db s) (env_receiver env) sender_id with
    | Some (id', _) => id = id'
    | None => db_generated (st_db s) !! id = None
    end ∧
    s1 = set_db s0 (with_generated (st_db s) (<[id := g]> (db_generated (st_db s)))) ∧
    add_ram_usage payer (generated_transaction_size + packed_size (trx_prepared (env_pending_block_time env) trx)) s1 = (s', Ok u).
Proof.
  unfold schedule_deferred_transaction. intros H. inv_apply.
  apply add_net_usage_db in Hrun3. exists s5.
  assert (st_db s5 = st_db s) as Hs5.
  { apply when_ok in Hrun4 as [[_ Hw]|[_ ->]]; [|done]. inv_apply.
    apply when_ok in Hrun as [[_ Hw]|[_ ->]]; [|done].
    apply require_auth_db in Hw. congruence. }
  rewrite Hs5 in Hrun6.
  destruct (find_generated _ _ _) as [[id old]|] eqn:Ef; inv_apply; reflect_bools;
    (do 3 eexists; split; [done|]; split; [|split; [|split; [|split; [|split; [reflexivity|eassumption]]]]]; done).
Qed.

Lemma scheduled_row env sender_id payer trx replace_existing s s' u :
  schedule_deferred_transaction env sender_id payer trx replace_existing s = (s', Ok u) →
  ∃ id g, db_generated (st_db s') !! id = Some g ∧ gt_sender g = env_receiver env ∧
    gt_sender_id g = sender_id ∧ gt_payer g = payer ∧ gt_packed_trx g = trx_prepared (env_pending_block_time env) trx.
Proof.
  intros (s0 & s1 & id & g & Hs0 & Hp & Hg & [Hse Hsi] & Hid & -> & H)%schedule_deferred_stores.
  exists id, g. unfold add_ram_usage in H. inv_apply. cbn. split; [apply lookup_insert_eq|done].
Qed.

Lemma schedule_deferred_range env sender_id payer trx replace_existing s s' u :
  ram_in_range (st_db s) →
  schedule_deferred_transaction env sender_id payer trx replace_existing s = (s', Ok u) →
  ram_in_range (st_db s').
Proof.
  intros Hr H.
  apply schedule_deferred_stores in H as (s0 & s1 & id & g & Hs0 & <- & Hg & _ & Hid & -> & H).
  rewrite <-Hg in H. change (_ + packed_size _) with (generated_bytes g) in H.
  apply add_ram_usage_exact in H as (f & _ & ? & _); [done|exact Hr|].
  pose proof (generated_bytes_range g). unfold in_i64. lia.
Qed.

(** RAM accounting of deferred transactions: scheduling one bills its payer exactly for the
    stored row; but when it replaces an earlier one of the same sender and sender_id, the bytes of
    the replaced row stay billed to its payer, although the row is gone. *)
Theorem schedule_deferred_ram env sender_id payer trx replace_existing s s' u :
  ram_in_range (st_db s) →
  schedule_deferred_transaction env sender_id payer trx replace_existing s = (s', Ok u) →
  ∀ a, ram_of (st_db s') a - ram_of (st_db s) a =
    generated_footprint (st_db s') a - generated_footprint (st_db s) a +
    match find_generated (st_db s) (env_receiver env) sender_id with
    | Some (_, old) => if decide (gt_payer old = a) then generated_bytes old else 0
    | None => 0
    end.
Proof.
  intros Hr H a.
  apply schedule_deferred_stores in H as (s0 & s1 & id & g & Hs0 & <- & Hg & _ & Hid & -> & H).
  rewrite <-Hg in H. change (_ + packed_size _) with (generated_bytes g) in H.
  apply add_ram_usage_exact in H as (f & Hdb & _ & Hram); [|exact Hr|].
  2: { pose proof (generated_bytes_range g). unfold in_i64. lia. }
  rewrite Hram. change (ram_of (st_db (set_db _ _))) with (ram_of (st_db s)).
  unfold generated_footprint. rewrite Hdb. simpl. rewrite msum_insert.
  destruct (find_generated _ _ _) as [[id' old]|] eqn:Ef.
  - subst id'. apply map_find_Some_1 in Ef as [Hold _]. rewrite Hold. simpl.
    repeat case_decide; subst; try done; lia.
  - rewrite Hid. simpl. repeat case_decide; subst; try done; lia.
Qed.

End deferred.

(** ** A concrete instance *)
#[local] Existing Instances toy_fc toy_action_codec toy_transaction_codec.

(** A transaction is its list of actions; it takes ten bytes for each. *)
Definition toy_pack_sizes : @PackSizes toy_fc toy_action_codec toy_transaction_codec := {|
  packed_size := λ t, u32 (10 * Z.of_nat (length t));
  trx_id := λ t, Digest (Z.of_nat (length t)) 0 0 0;
  trx_delay_sec := λ _, 60;
  trx_context_free_actions := λ _, [];
  trx_prepared := λ _ t, t;
  key_pack_size := λ _, 33;
|}.
#[local] Existing Instance toy_pack_sizes.

Lemma toy_pack_sizes_laws : PackSizesLaws.
Proof. split; [intros t; apply u32_range|]. intros k. vm_compute. split; [done|reflexivity]. Qed.
#[local] Existing Instance toy_pack_sizes_laws.

(** Account 1 with its permissions and an empty RAM counter. *)
Definition toy_chain : result chain_db :=
  a ← toy_auth_db;
  r ← initialize_account initialize_database 1;
  mret (ChainDb {[1 := account_default]} {[1 := sequence_default]} a r ∅ 0).

Definition toy_apply_state (d : chain_db) : apply_state := ApplyState d [false] ∅ ∅ [1] [] [] 0.

Definition toy_act : action := Action 1 5 [PermissionLevel 1 active_name] ToyOther.
Definition toy_env : apply_env :=
  ApplyEnv 1 toy_act true initial_configuration 1000000 1000000 false false false false
    (AccessLists [] [] [] [] [] [] []) false 100000 false false.

Definition toy_trx1 : packed_trx := [toy_act].
Definition toy_trx2 : packed_trx := [toy_act; toy_act].

(** Account 1 schedules a deferred transaction of one action, and replaces it by one of two. *)
Definition toy_scheduled : result apply_state :=
  d ← toy_chain;
  let '(s, r) := schedule_deferred_transaction toy_env 7 1 toy_trx1 false (toy_apply_state d) in
  _ ← r; mret s.

Lemma toy_chain_ram d : toy_chain = Ok d → ram_in_range d.
Proof.
  unfold toy_chain. intros (a & _ & (r & Hr & [= <-])%bind_ok)%bind_ok b u. simpl.
  unfold initialize_account in Hr. inv_ok. simpl.
  intros [[_ <-]|[_ Hu]]%lookup_insert_Some; [by vm_compute|by rewrite lookup_empty in Hu].
Qed.

Lemma schedule_deferred_ram_witness :
  ∃ s s' old, toy_scheduled = Ok s ∧
    schedule_deferred_transaction toy_env 7 1 toy_trx2 true s = (s', Ok tt) ∧
    find_generated (st_db s) 1 7 = Some old ∧
    ram_of (st_db s') 1 - ram_of (st_db s) 1 =
      generated_footprint (st_db s') 1 - generated_footprint (st_db s) 1 + 282.
Proof.
  assert (Hok : is_ok (s ← toy_scheduled;
    (schedule_deferred_transaction toy_env 7 1 toy_trx2 true s).2) = true)
    by (vm_compute; reflexivity).
  assert (Hold : (s ← toy_scheduled; mret (generated_bytes ∘ snd <$> find_generated (st_db s) 1 7,
    gt_payer ∘ snd <$> find_generated (st_db s) 1 7)) = Ok (Some 282, Some 1))
    by (vm_compute; reflexivity).
  destruct toy_scheduled as [s|e] eqn:Es; [|discriminate Hok]. exists s.
  assert (Hr : ram_in_range (st_db s)).
  { unfold toy_scheduled in Es. apply bind_ok in Es as (d & Hd%toy_chain_ram & Es).
    destruct (schedule_deferred_transaction toy_env 7 1 toy_trx1 false _) as [s0 [[]|e]] eqn:E1;
      [|discriminate Es].
    injection Es as <-. by eapply schedule_deferred_range in E1. }
  destruct (schedule_deferred_transaction toy_env 7 1 toy_trx2 true s) as [s' [[]|e]] eqn:E2.
  2: { simpl in Hok. rewrite E2 in Hok. discriminate Hok. }
  exists s'. simpl in Hold. destruct (find_generated (st_db s) 1 7) as [[id old]|] eqn:Ef; [|discriminate Hold].
  injection Hold as Hb Hp.
  exists (id, old). split; [reflexivity|]. split; [reflexivity|]. split; [reflexivity|].
  rewrite (schedule_deferred_ram toy_env 7 1 toy_trx2 true s s' tt Hr E2 1).
  simpl env_receiver. rewrite Ef, Hp, Hb. reflexivity.
Defined.
