(* ===== verification/ContractDb.v ===== *)
(** * The tables of contracts

    Models contract_table_objects.hpp, the class iterator_cache and the class template generic_index
    of apply_context.hpp, and the functions find_table, find_or_create_table, remove_table and db_*_i64
    of apply_context.cpp.

    Rows live in tables by id, as in chainbase, and a pointer to a row is its id: to follow a pointer
    to a row that is gone is undefined behaviour.  The ordered indexes are what lower_bound,
    upper_bound and the increment and decrement of their iterators compute ([min_row] of Prelude).
    Secondary keys are the integers of their bits; the order of the two floating-point types is a
    parameter.

    Results: the indexes, the row counts and the iterator caches stay consistent and RAM is billed
    exactly along every sequence of calls; the calls on the primary index refine operations on finite
    maps from keys to values; no call follows a dangling pointer, except db_previous_i64 and
    previous_* on the end iterator of a table that has been removed. *)

From stdpp Require Import sorting.
From S2P Require Import Prelude Names Merkle BlockHeader Resources Authority ChainConfig AuthManager.
From S2P Require Import AccessLists ApplyContext.

(** ** contract_table_objects.hpp *)
Record table_id_object := TableId {
  ti_code : Z;
  ti_scope : Z;
  ti_table : Z;
  ti_payer : Z;
  ti_count : Z;
}.

Record key_value_object := KeyValue {
  kv_t_id : Z;
  kv_primary_key : Z;
  kv_payer : Z;
  kv_value : list Z;
}.

Record index_object := IndexObject {
  ix_t_id : Z;
  ix_primary_key : Z;
  ix_payer : Z;
  ix_secondary_key : Z;
}.

(** The five instances of secondary_index. *)
Inductive index_kind := Idx64 | Idx128 | Idx256 | IdxDouble | IdxLongDouble.
#[global] Instance index_kind_eq_dec : EqDecision index_kind.
Proof. solve_decision. Defined.

Definition table_id_size : Z := billable_size_v (44 + overhead_per_row_per_index_ram_bytes * 2).
Definition key_value_size : Z := billable_size_v (32 + 8 + 4 + overhead_per_row_per_index_ram_bytes * 2).
Definition index_size (k : index_kind) : Z :=
  billable_size_v (24 + match k with
                        | Idx64 | IdxDouble => 8
                        | Idx128 | IdxLongDouble => 16
                        | Idx256 => 32
                        end + overhead_per_row_per_index_ram_bytes * 3).

(** Comparisons of softfloat on the bits of the numbers. *)
Class SoftFloat := {
  f64_lt : Z → Z → bool;
  f128_lt : Z → Z → bool;
  f64_is_nan : Z → bool;
  f128_is_nan : Z → bool;
}.

(** ** iterator_cache *)
Record iterator_cache := IteratorCache {
  table_cache : gmap Z Z;
  end_iterator_to_table : list Z;
  iterator_to_object : list (option Z);
  object_to_iterator : gmap Z Z;
}.
Definition cache_empty : iterator_cache := IteratorCache ∅ [] [] ∅.

Definition end_iterator_to_index (ei : Z) : Z := - ei - 2.
Definition index_to_end_iterator (indx : Z) : Z := - (indx + 2).

Definition cache_table (c : iterator_cache) (tobj : Z) : iterator_cache * Z :=
  match table_cache c !! tobj with
  | Some ei => (c, ei)
  | None =>
      let ei := index_to_end_iterator (Z.of_nat (length (end_iterator_to_table c))) in
      (IteratorCache (<[tobj := ei]> (table_cache c)) (end_iterator_to_table c ++ [tobj])
         (iterator_to_object c) (object_to_iterator c), ei)
  end.

(** The pointer that is cached for a table id. *)
Definition get_table (c : iterator_cache) (i : Z) : result Z :=
  _ ← of_option (table_cache c !! i) table_not_in_cache; mret i.

Definition get_end_iterator_by_table_id (c : iterator_cache) (i : Z) : result Z :=
  of_option (table_cache c !! i) table_not_in_cache.

Definition find_table_by_end_iterator (c : iterator_cache) (ei : Z) : result (option Z) :=
  _ ← EOS_ASSERT (ei <? -1) invalid_table_iterator;
  let indx := end_iterator_to_index ei in
  if Z.of_nat (length (end_iterator_to_table c)) <=? indx then mret None
  else mret (end_iterator_to_table c !! Z.to_nat indx).

(** The checks that [get] and [remove] share, and the entry of the iterator. *)
Definition iterator_entry (c : iterator_cache) (iterator : Z) : result (option Z) :=
  _ ← EOS_ASSERT (negb (iterator =? -1)) invalid_table_iterator;
  _ ← EOS_ASSERT (0 <=? iterator) table_operation_not_permitted;
  _ ← EOS_ASSERT (iterator <? Z.of_nat (length (iterator_to_object c))) invalid_table_iterator;
  of_option (iterator_to_object c !! Z.to_nat iterator) undefined_behaviour.

Definition cache_get (c : iterator_cache) (iterator : Z) : result Z :=
  entry ← iterator_entry c iterator;
  of_option entry table_operation_not_permitted.

Definition cache_remove (c : iterator_cache) (iterator : Z) : result iterator_cache :=
  entry ← iterator_entry c iterator;
  match entry with
  | None => mret c
  | Some obj =>
      mret (IteratorCache (table_cache c) (end_iterator_to_table c)
              (<[Z.to_nat iterator := None]> (iterator_to_object c))
              (delete obj (object_to_iterator c)))
  end.

Definition cache_add (c : iterator_cache) (obj : Z) : iterator_cache * Z :=
  match object_to_iterator c !! obj with
  | Some i => (c, i)
  | None =>
      let i := Z.of_nat (length (iterator_to_object c)) in
      (IteratorCache (table_cache c) (end_iterator_to_table c) (iterator_to_object c ++ [Some obj])
         (<[obj := i]> (object_to_iterator c)), i)
  end.

(** ** State *)

(** The rows of an index by id with the next id of chainbase, and the cache of its iterators. *)
Record rows (A : Type) := Rows {
  r_rows : gmap Z A;
  r_next : Z;
  r_cache : iterator_cache;
}.
Arguments Rows {A} _ _ _.
Arguments r_rows {A} _.
Arguments r_next {A} _.
Arguments r_cache {A} _.
Definition with_rows {A} (r : rows A) (m : gmap Z A) : rows A := Rows m (r_next r) (r_cache r).
Definition with_cache {A} (r : rows A) (c : iterator_cache) : rows A := Rows (r_rows r) (r_next r) c.
Definition new_row {A} (r : rows A) (a : A) : rows A :=
  Rows (<[r_next r := a]> (r_rows r)) (r_next r + 1) (r_cache r).

(** The columns that all row types have. *)
Class Row (A : Type) := {
  t_id : A → Z;
  primary_key : A → Z;
  row_payer : A → Z;
}.
#[global] Instance key_value_row : Row key_value_object := {|
  t_id := kv_t_id; primary_key := kv_primary_key; row_payer := kv_payer |}.
#[global] Instance index_row : Row index_object := {|
  t_id := ix_t_id; primary_key := ix_primary_key; row_payer := ix_payer |}.

(** by_scope_primary and by_primary *)
Definition primary_lt {A} `{Row A} (a b : A) : bool :=
  (t_id a <? t_id b) || ((t_id a =? t_id b) && (primary_key a <? primary_key b)).

Section contract_db.
Context {FC : Fc} {AC : ActionCodec} {TC : TransactionCodec} {PS : PackSizes} {SF : SoftFloat}.

Record contract_state := ContractState {
  cs_apply : apply_state;
  cs_tables : gmap Z table_id_object;
  cs_next_table : Z;
  cs_kv : rows key_value_object;
  cs_idx64 : rows index_object;
  cs_idx128 : rows index_object;
  cs_idx256 : rows index_object;
  cs_idx_double : rows index_object;
  cs_idx_long_double : rows index_object;
}.
Definition set_apply (s : contract_state) (a : apply_state) : contract_state :=
  ContractState a (cs_tables s) (cs_next_table s) (cs_kv s) (cs_idx64 s) (cs_idx128 s) (cs_idx256 s)
    (cs_idx_double s) (cs_idx_long_double s).
Definition set_tables (s : contract_state) (m : gmap Z table_id_object) (n : Z) : contract_state :=
  ContractState (cs_apply s) m n (cs_kv s) (cs_idx64 s) (cs_idx128 s) (cs_idx256 s)
    (cs_idx_double s) (cs_idx_long_double s).
Definition set_kv (s : contract_state) (r : rows key_value_object) : contract_state :=
  ContractState (cs_apply s) (cs_tables s) (cs_next_table s) r (cs_idx64 s) (cs_idx128 s)
    (cs_idx256 s) (cs_idx_double s) (cs_idx_long_double s).
Definition cs_index (s : contract_state) (k : index_kind) : rows index_object :=
  match k with
  | Idx64 => cs_idx64 s
  | Idx128 => cs_idx128 s
  | Idx256 => cs_idx256 s
  | IdxDouble => cs_idx_double s
  | IdxLongDouble => cs_idx_long_double s
  end.
Definition set_index (k : index_kind) (s : contract_state) (r : rows index_object) : contract_state :=
  let 'ContractState a t n kv i1 i2 i3 i4 i5 := s in
  match k with
  | Idx64 => ContractState a t n kv r i2 i3 i4 i5
  | Idx128 => ContractState a t n kv i1 r i3 i4 i5
  | Idx256 => ContractState a t n kv i1 i2 r i4 i5
  | IdxDouble => ContractState a t n kv i1 i2 i3 r i5
  | IdxLongDouble => ContractState a t n kv i1 i2 i3 i4 r
  end.

(** The part of the state that an index is. *)
Record part (A : Type) := Part {
  part_get : contract_state → rows A;
  part_set : contract_state → rows A → contract_state;
}.
Definition kv_part : part key_value_object := Part _ cs_kv set_kv.
Definition index_part (k : index_kind) : part index_object := Part _ (λ s, cs_index s k) (set_index k).

Abbreviation ctx := (stM contract_state).

Definition st_map {A B} (f : A → B) (m : ctx A) : ctx B := a ← m; mret (f a).
#[local] Infix "<$$>" := st_map (at level 61, left associativity).

Definition in_apply {A} (m : stM apply_state A) : ctx A := λ s,
  let '(a, r) := m (cs_apply s) in (set_apply s a, r).

(** ** Tables *)
Definition find_table (code scope table : Z) : ctx (option (Z * table_id_object)) :=
  s ← st_get;
  mret (map_find (λ it, ti_code it.2 = code ∧ ti_scope it.2 = scope ∧ ti_table it.2 = table) (cs_tables s)).

Definition find_or_create_table (env : apply_env) (code scope table payer : Z)
    : ctx (Z * table_id_object) :=
  existing_tid ← find_table code scope table;
  match existing_tid with
  | Some tid => mret tid
  | None =>
      _ ← in_apply (update_db_usage env payer table_id_size);
      s ← st_get;
      let t := TableId code scope table payer 0 in
      _ ← st_put (set_tables s (<[cs_next_table s := t]> (cs_tables s)) (cs_next_table s + 1));
      mret (cs_next_table s, t)
  end.

(** A table that a pointer refers to. *)
Definition deref_table (tid : Z) : ctx table_id_object :=
  s ← st_get;
  st_lift (of_option (cs_tables s !! tid) undefined_behaviour).

Definition remove_table (env : apply_env) (tid : Z) : ctx unit :=
  t ← deref_table tid;
  _ ← in_apply (update_db_usage env (ti_payer t) (- table_id_size));
  st_modify (λ s, set_tables s (delete tid (cs_tables s)) (cs_next_table s)).

(** [db.modify( tab, ... count ... )]; the new count. *)
Definition change_count (tid : Z) (f : Z → Z) : ctx Z :=
  t ← deref_table tid;
  let n := u32 (f (ti_count t)) in
  _ ← st_modify (λ s, set_tables s
        (<[tid := TableId (ti_code t) (ti_scope t) (ti_table t) (ti_payer t) n]> (cs_tables s))
        (cs_next_table s));
  mret n.

(** ** What the primary and the secondary indexes have in common *)
Section part.
Context {A : Type} {RA : Row A} (L : part A).

Definition cached_table (tid : Z) : ctx Z :=
  s ← st_get;
  let r := part_get _ L s in
  let '(c, ei) := cache_table (r_cache r) tid in
  _ ← st_put (part_set _ L s (with_cache r c));
  mret ei.

Definition add_object (obj : Z) : ctx Z :=
  s ← st_get;
  let r := part_get _ L s in
  let '(c, i) := cache_add (r_cache r) obj in
  _ ← st_put (part_set _ L s (with_cache r c));
  mret i.

(** [itr_cache.get( iterator )], with the object that the pointer refers to. *)
Definition get_object (iterator : Z) : ctx (Z * A) :=
  s ← st_get;
  obj ← st_lift (cache_get (r_cache (part_get _ L s)) iterator);
  a ← st_lift (of_option (r_rows (part_get _ L s) !! obj) undefined_behaviour);
  mret (obj, a).

Definition remove_iterator (iterator : Z) : ctx unit :=
  s ← st_get;
  let r := part_get _ L s in
  c ← st_lift (cache_remove (r_cache r) iterator);
  st_put (part_set _ L s (with_cache r c)).

(** [db.create<ObjectType>]: the indexes are unique. *)
Definition create_row (a : A) : ctx Z :=
  s ← st_get;
  let r := part_get _ L s in
  _ ← st_assert (bool_decide (map_find (λ ib, t_id ib.2 = t_id a ∧ primary_key ib.2 = primary_key a)
                                (r_rows r) = None)) db_uniqueness_violation;
  _ ← st_put (part_set _ L s (new_row r a));
  mret (r_next r).

Definition modify_row (obj : Z) (a : A) : ctx unit :=
  st_modify (λ s, part_set _ L s (with_rows (part_get _ L s) (<[obj := a]> (r_rows (part_get _ L s))))).

Definition delete_row (obj : Z) : ctx unit :=
  st_modify (λ s, part_set _ L s (with_rows (part_get _ L s) (delete obj (r_rows (part_get _ L s))))).

(** The first row at or after a position, when it belongs to the table, and else [table_end]: the
    iterator and the primary key. *)
Definition seek_forward (lt : A → A → bool) (from : A → bool) (tid table_end : Z)
    : ctx (Z * option A) :=
  s ← st_get;
  match min_row lt from (r_rows (part_get _ L s)) with
  | Some (obj, a) =>
      if negb (t_id a =? tid) then mret (table_end, None)
      else i ← add_object obj; mret (i, Some a)
  | None => mret (table_end, None)
  end.

(** The last row before a position, when it belongs to the table. *)
Definition seek_backward (lt : A → A → bool) (before : A → bool) (tid : Z) : ctx (Z * option A) :=
  s ← st_get;
  match min_row (λ a b, lt b a) before (r_rows (part_get _ L s)) with
  | Some (obj, a) =>
      if negb (t_id a =? tid) then mret (-1, None)
      else i ← add_object obj; mret (i, Some a)
  | None => mret (-1, None)
  end.

(** lower_bound and upper_bound of an index: [from] are the rows at or after the position. *)
Definition bound (lt : A → A → bool) (from : Z → A → bool) (code scope table : Z)
    : ctx (Z * option A) :=
  tab ← find_table code scope table;
  match tab with
  | None => mret (-1, None)
  | Some (tid, _) =>
      table_end_itr ← cached_table tid;
      seek_forward lt (from tid) tid table_end_itr
  end.

(** The row with a given primary key of a table. *)
Definition find_by_primary (code scope table id : Z) : ctx (Z * option A) :=
  tab ← find_table code scope table;
  match tab with
  | None => mret (-1, None)
  | Some (tid, _) =>
      table_end_itr ← cached_table tid;
      s ← st_get;
      match map_find (λ ia, t_id ia.2 = tid ∧ primary_key ia.2 = id) (r_rows (part_get _ L s)) with
      | None => mret (table_end_itr, None)
      | Some (obj, a) => i ← add_object obj; mret (i, Some a)
      end
  end.

Definition end_iterator (code scope table : Z) : ctx Z :=
  tab ← find_table code scope table;
  match tab with
  | None => mret (-1)
  | Some (tid, _) => cached_table tid
  end.

Definition next_row (lt : A → A → bool) (iterator : Z) : ctx (Z * option A) :=
  if iterator <? -1 then mret (-1, None)
  else
    '(_, obj) ← get_object iterator;
    s ← st_get;
    match min_row lt (λ a, lt obj a) (r_rows (part_get _ L s)) with
    | Some (id, a) =>
        if negb (t_id a =? t_id obj) then
          ei ← st_lift (get_end_iterator_by_table_id (r_cache (part_get _ L s)) (t_id obj));
          mret (ei, None)
        else i ← add_object id; mret (i, Some a)
    | None =>
        ei ← st_lift (get_end_iterator_by_table_id (r_cache (part_get _ L s)) (t_id obj));
        mret (ei, None)
    end.

Definition previous_row (lt : A → A → bool) (iterator : Z) : ctx (Z * option A) :=
  if iterator <? -1 then
    s ← st_get;
    tab ← st_lift (find_table_by_end_iterator (r_cache (part_get _ L s)) iterator);
    tid ← st_lift (of_option tab invalid_table_iterator);
    _ ← deref_table tid;
    seek_backward lt (λ a, t_id a <=? tid) tid
  else
    '(_, obj) ← get_object iterator;
    seek_backward lt (λ a, lt a obj) (t_id obj).

End part.

(** A new row of a table: stored, counted, billed and cached. *)
Definition insert_row {A} `{Row A} (L : part A) (env : apply_env) (tableid payer : Z) (a : A) (size : Z)
    : ctx Z :=
  obj ← create_row L a;
  _ ← change_count tableid (λ n, n + 1);
  _ ← in_apply (update_db_usage env payer size);
  _ ← cached_table L tableid;
  add_object L obj.

(** The table of a row, which must belong to the receiver. *)
Definition own_table {A} `{Row A} (L : part A) (env : apply_env) (obj : A) : ctx Z :=
  s ← st_get;
  tid ← st_lift (get_table (r_cache (part_get _ L s)) (t_id obj));
  table_obj ← deref_table tid;
  _ ← st_assert (ti_code table_obj =? env_receiver env) table_access_violation;
  mret tid.

(** A row is removed with its iterator, and its table with the last row. *)
Definition drop_row {A} `{Row A} (L : part A) (env : apply_env) (tid id iterator : Z) : ctx unit :=
  count ← change_count tid (λ n, n - 1);
  _ ← delete_row L id;
  _ ← (if count =? 0 then remove_table env tid else mret tt);
  remove_iterator L iterator.

(** A changed row: the old payer is refunded and the new one charged, or the difference. *)
Definition rebill (env : apply_env) (old_payer payer old_size new_size : Z) : ctx unit :=
  if negb (old_payer =? payer) then
    _ ← in_apply (update_db_usage env old_payer (- old_size));
    in_apply (update_db_usage env payer new_size)
  else if negb (old_size =? new_size) then
    in_apply (update_db_usage env old_payer (new_size - old_size))
  else mret tt.

(** ** The primary index: db_*_i64 *)
Definition db_store_i64 (env : apply_env) (code scope table payer id : Z) (buffer : list Z) : ctx Z :=
  '(tableid, _) ← find_or_create_table env code scope table payer;
  _ ← st_assert (negb (payer =? 0)) invalid_table_payer;
  insert_row kv_part env tableid payer (KeyValue tableid id payer buffer)
    (Z.of_nat (length buffer) + key_value_size).

Definition db_update_i64 (env : apply_env) (iterator payer : Z) (buffer : list Z) : ctx unit :=
  '(id, obj) ← get_object kv_part iterator;
  _ ← own_table kv_part env obj;
  let old_size := Z.of_nat (length (kv_value obj)) + key_value_size in
  let new_size := Z.of_nat (length buffer) + key_value_size in
  let payer := if payer =? 0 then kv_payer obj else payer in
  _ ← rebill env (kv_payer obj) payer old_size new_size;
  modify_row kv_part id (KeyValue (kv_t_id obj) (kv_primary_key obj) payer buffer).

Definition db_remove_i64 (env : apply_env) (iterator : Z) : ctx unit :=
  '(id, obj) ← get_object kv_part iterator;
  tid ← own_table kv_part env obj;
  _ ← in_apply (update_db_usage env (kv_payer obj)
                  (- (Z.of_nat (length (kv_value obj)) + key_value_size)));
  drop_row kv_part env tid id iterator.

(** The size of the value, and the bytes that are copied to a buffer of [buffer_size] bytes. *)
Definition db_get_i64 (iterator buffer_size : Z) : ctx (Z * list Z) :=
  '(_, obj) ← get_object kv_part iterator;
  let s := Z.of_nat (length (kv_value obj)) in
  if buffer_size =? 0 then mret (s, [])
  else
    let copy_size := Z.min buffer_size s in
    mret (copy_size, take (Z.to_nat copy_size) (kv_value obj)).

Definition db_next_i64 (iterator : Z) : ctx (Z * option Z) :=
  '(i, a) ← next_row kv_part primary_lt iterator; mret (i, primary_key <$> a).
Definition db_previous_i64 (iterator : Z) : ctx (Z * option Z) :=
  '(i, a) ← previous_row kv_part primary_lt iterator; mret (i, primary_key <$> a).
Definition db_find_i64 (code scope table id : Z) : ctx Z :=
  '(i, _) ← find_by_primary kv_part code scope table id; mret i.
Definition db_end_i64 (code scope table : Z) : ctx Z := end_iterator kv_part code scope table.

(** The rows at or after (at: inclusive) the key of a table. *)
Definition from_primary {A} `{Row A} (inclusive : bool) (id tid : Z) (a : A) : bool :=
  (tid <? t_id a) || ((t_id a =? tid) && (if inclusive then id <=? primary_key a else id <? primary_key a)).
Definition db_lowerbound_i64 (code scope table id : Z) : ctx Z :=
  '(i, _) ← bound kv_part primary_lt (from_primary true id) code scope table; mret i.
Definition db_upperbound_i64 (code scope table id : Z) : ctx Z :=
  '(i, _) ← bound kv_part primary_lt (from_primary false id) code scope table; mret i.

(** ** The secondary indexes: generic_index *)
Section generic_index.
Variable k : index_kind.

Definition secondary_key_lt (x y : Z) : bool :=
  match k with
  | IdxDouble => f64_lt x y
  | IdxLongDouble => f128_lt x y
  | _ => x <? y
  end.

(** by_secondary *)
Definition secondary_lt (a b : index_object) : bool :=
  (ix_t_id a <? ix_t_id b) ||
  ((ix_t_id a =? ix_t_id b) &&
   (secondary_key_lt (ix_secondary_key a) (ix_secondary_key b) ||
    (negb (secondary_key_lt (ix_secondary_key b) (ix_secondary_key a)) &&
     (ix_primary_key a <? ix_primary_key b)))).

Definition idx_store (env : apply_env) (scope table payer id value : Z) : ctx Z :=
  _ ← st_assert (negb (payer =? 0)) invalid_table_payer;
  '(tableid, _) ← find_or_create_table env (env_receiver env) scope table payer;
  insert_row (index_part k) env tableid payer (IndexObject tableid id payer value) (index_size k).

Definition idx_remove (env : apply_env) (iterator : Z) : ctx unit :=
  '(id, obj) ← get_object (index_part k) iterator;
  _ ← in_apply (update_db_usage env (ix_payer obj) (- index_size k));
  tid ← own_table (index_part k) env obj;
  drop_row (index_part k) env tid id iterator.

Definition idx_update (env : apply_env) (iterator payer secondary : Z) : ctx unit :=
  '(id, obj) ← get_object (index_part k) iterator;
  _ ← own_table (index_part k) env obj;
  let payer := if payer =? 0 then ix_payer obj else payer in
  _ ← rebill env (ix_payer obj) payer (index_size k) (index_size k);
  modify_row (index_part k) id (IndexObject (ix_t_id obj) (ix_primary_key obj) payer secondary).

(** The rows at or after a secondary key of a table. *)
Definition from_secondary (inclusive : bool) (secondary tid : Z) (a : index_object) : bool :=
  (tid <? ix_t_id a) ||
  ((ix_t_id a =? tid) &&
   (if inclusive then negb (secondary_key_lt (ix_secondary_key a) secondary)
    else secondary_key_lt secondary (ix_secondary_key a))).

(** The row with an equivalent key: the first one at the key. *)
Definition find_secondary (code scope table secondary : Z) : ctx (Z * option Z) :=
  tab ← find_table code scope table;
  match tab with
  | None => mret (-1, None)
  | Some (tid, _) =>
      table_end_itr ← cached_table (index_part k) tid;
      s ← st_get;
      match min_row secondary_lt (from_secondary true secondary tid) (r_rows (cs_index s k)) with
      | Some (id, a) =>
          if (ix_t_id a =? tid) && negb (secondary_key_lt secondary (ix_secondary_key a)) then
            i ← add_object (index_part k) id; mret (i, Some (ix_primary_key a))
          else mret (table_end_itr, None)
      | None => mret (table_end_itr, None)
      end
  end.

(** The iterator with the primary and the secondary key of its row. *)
Definition keys_of (r : Z * option index_object) : Z * option (Z * Z) :=
  (r.1, (λ a, (ix_primary_key a, ix_secondary_key a)) <$> r.2).
Definition lowerbound_secondary (code scope table secondary : Z) : ctx (Z * option (Z * Z)) :=
  r ← bound (index_part k) secondary_lt (from_secondary true secondary) code scope table;
  mret (keys_of r).
Definition upperbound_secondary (code scope table secondary : Z) : ctx (Z * option (Z * Z)) :=
  r ← bound (index_part k) secondary_lt (from_secondary false secondary) code scope table;
  mret (keys_of r).
Definition end_secondary (code scope table : Z) : ctx Z := end_iterator (index_part k) code scope table.
Definition next_secondary (iterator : Z) : ctx (Z * option Z) :=
  '(i, a) ← next_row (index_part k) secondary_lt iterator; mret (i, ix_primary_key <$> a).
Definition previous_secondary (iterator : Z) : ctx (Z * option Z) :=
  '(i, a) ← previous_row (index_part k) secondary_lt iterator; mret (i, ix_primary_key <$> a).

Definition find_primary (code scope table primary : Z) : ctx (Z * option Z) :=
  '(i, a) ← find_by_primary (index_part k) code scope table primary; mret (i, ix_secondary_key <$> a).
Definition lowerbound_primary (code scope table primary : Z) : ctx Z :=
  '(i, _) ← bound (index_part k) primary_lt (from_primary true primary) code scope table; mret i.
Definition upperbound_primary (code scope table primary : Z) : ctx Z :=
  '(i, _) ← bound (index_part k) primary_lt (from_primary false primary) code scope table; mret i.
Definition next_primary (iterator : Z) : ctx (Z * option Z) :=
  '(i, a) ← next_row (index_part k) primary_lt iterator; mret (i, ix_primary_key <$> a).
Definition previous_primary (iterator : Z) : ctx (Z * option Z) :=
  '(i, a) ← previous_row (index_part k) primary_lt iterator; mret (i, ix_primary_key <$> a).
Definition idx_get (iterator : Z) : ctx (Z * Z) :=
  '(_, obj) ← get_object (index_part k) iterator;
  mret (ix_primary_key obj, ix_secondary_key obj).

End generic_index.
(** ** The calls that contracts make: class database_api of wasm_interface.cpp *)
Inductive kv_call :=
| Store (scope table payer id : Z) (buffer : list Z)
| Update (itr payer : Z) (buffer : list Z)
| Remove (itr : Z)
| Get (itr buffer_size : Z)
| Next (itr : Z)
| Previous (itr : Z)
| Find (code scope table id : Z)
| LowerBound (code scope table id : Z)
| UpperBound (code scope table id : Z)
| EndOf (code scope table : Z).

(** The number that a call returns and the bytes or the key that it writes. *)
Inductive answer := NoAnswer | Number (n : Z) | Keyed (n : Z) (key : option Z) | Bytes (n : Z) (l : list Z).

Definition kv_run (env : apply_env) (c : kv_call) : ctx answer :=
  match c with
  | Store scope table payer id buffer =>
      Number <$$> db_store_i64 env (env_receiver env) scope table payer id buffer
  | Update itr payer buffer => (λ _, NoAnswer) <$$> db_update_i64 env itr payer buffer
  | Remove itr => (λ _, NoAnswer) <$$> db_remove_i64 env itr
  | Get itr buffer_size => (λ r, Bytes r.1 r.2) <$$> db_get_i64 itr buffer_size
  | Next itr => (λ r, Keyed r.1 r.2) <$$> db_next_i64 itr
  | Previous itr => (λ r, Keyed r.1 r.2) <$$> db_previous_i64 itr
  | Find code scope table id => Number <$$> db_find_i64 code scope table id
  | LowerBound code scope table id => Number <$$> db_lowerbound_i64 code scope table id
  | UpperBound code scope table id => Number <$$> db_upperbound_i64 code scope table id
  | EndOf code scope table => Number <$$> db_end_i64 code scope table
  end.

(** DB_API_METHOD_WRAPPERS_*_SECONDARY: a secondary key is passed as [data], one number or, for
    idx256, an array of 128-bit numbers, which are compared from the first one on. *)
Definition check_array (k : index_kind) (data : list Z) : result unit :=
  match k with
  | Idx256 => EOS_ASSERT (Z.of_nat (length data) =? 2) db_api_exception
  | _ => mret tt
  end.
Definition check_nan (k : index_kind) (secondary : Z) : result unit :=
  match k with
  | IdxDouble => EOS_ASSERT (negb (f64_is_nan secondary)) transaction_exception
  | IdxLongDouble => EOS_ASSERT (negb (f128_is_nan secondary)) transaction_exception
  | _ => mret tt
  end.
Definition secondary_of (k : index_kind) (data : list Z) : result Z :=
  _ ← check_array k data;
  let secondary := foldl (λ x y, x * 2 ^ 128 + y) 0 data in
  _ ← check_nan k secondary;
  mret secondary.

Inductive idx_call :=
| IStore (scope table payer id : Z) (data : list Z)
| IUpdate (itr payer : Z) (data : list Z)
| IRemove (itr : Z)
| IFindSecondary (code scope table : Z) (data : list Z)
| IFindPrimary (code scope table : Z) (data : list Z) (primary : Z)
| ILowerBound (code scope table : Z) (data : list Z)
| IUpperBound (code scope table : Z) (data : list Z)
| IEnd (code scope table : Z)
| INext (itr : Z)
| IPrevious (itr : Z).

Definition idx_run (k : index_kind) (env : apply_env) (c : idx_call) : ctx answer :=
  match c with
  | IStore scope table payer id data =>
      x ← st_lift (secondary_of k data); Number <$$> idx_store k env scope table payer id x
  | IUpdate itr payer data =>
      x ← st_lift (secondary_of k data); (λ _, NoAnswer) <$$> idx_update k env itr payer x
  | IRemove itr => (λ _, NoAnswer) <$$> idx_remove k env itr
  | IFindSecondary code scope table data =>
      x ← st_lift (secondary_of k data);
      (λ r, Keyed r.1 r.2) <$$> find_secondary k code scope table x
  | IFindPrimary code scope table data primary =>
      _ ← st_lift (check_array k data);
      (λ r, Keyed r.1 r.2) <$$> find_primary k code scope table primary
  | ILowerBound code scope table data =>
      x ← st_lift (secondary_of k data);
      (λ r, Keyed r.1 (fst <$> r.2)) <$$> lowerbound_secondary k code scope table x
  | IUpperBound code scope table data =>
      x ← st_lift (secondary_of k data);
      (λ r, Keyed r.1 (fst <$> r.2)) <$$> upperbound_secondary k code scope table x
  | IEnd code scope table => Number <$$> end_secondary k code scope table
  | INext itr => (λ r, Keyed r.1 r.2) <$$> next_secondary k itr
  | IPrevious itr => (λ r, Keyed r.1 r.2) <$$> previous_secondary k itr
  end.

End contract_db.

Abbreviation ctx := (stM contract_state).

(** ** Consistency *)
Section rows_wf.
Context {A : Type} {RA : Row A}.
Implicit Types (T : gmap Z table_id_object) (N : Z) (r : rows A) (c : iterator_cache).

(** The cache of the iterators: a bijection between live iterators and objects, and one between
    cached tables and end iterators; the objects exist and their tables are cached. *)
Record cache_wf (m : gmap Z A) (N : Z) (c : iterator_cache) : Prop := {
  ca_objects : ∀ obj i, object_to_iterator c !! obj = Some i ↔
    0 <= i ∧ iterator_to_object c !! Z.to_nat i = Some (Some obj);
  ca_alive : ∀ obj i, object_to_iterator c !! obj = Some i →
    ∃ a, m !! obj = Some a ∧ is_Some (table_cache c !! t_id a);
  ca_tables : ∀ t ei, table_cache c !! t = Some ei ↔
    ∃ n, end_iterator_to_table c !! n = Some t ∧ ei = index_to_end_iterator (Z.of_nat n);
  ca_old : ∀ t, is_Some (table_cache c !! t) → t < N;
}.

(** Rows belong to tables and are unique in them. *)
Record rows_wf T N r : Prop := {
  rw_fresh : ∀ id a, r_rows r !! id = Some a → id < r_next r;
  rw_table : ∀ id a, r_rows r !! id = Some a → is_Some (T !! t_id a);
  rw_unique : ∀ i j a b, r_rows r !! i = Some a → r_rows r !! j = Some b →
    t_id a = t_id b → primary_key a = primary_key b → i = j;
  rw_cache : cache_wf (r_rows r) N (r_cache r);
}.

(** The number of rows of a table. *)
Definition table_rows r (tid : Z) : Z :=
  msum (λ _ a, if decide (t_id a = tid) then 1 else 0) (r_rows r).
(** The bytes that an account pays for rows. *)
Definition row_bytes (bytes : A → Z) r (b : Z) : Z :=
  msum (λ _ a, if decide (row_payer a = b) then bytes a else 0) (r_rows r).

Lemma table_rows_nonneg r tid : 0 <= table_rows r tid.
Proof. apply msum_nonneg. intros _ a. by case_decide. Qed.

Lemma table_rows_zero r tid :
  table_rows r tid = 0 → ∀ id a, r_rows r !! id = Some a → t_id a ≠ tid.
Proof.
  intros H0 id a Ha E.
  assert ((if decide (t_id a = tid) then 1 else 0) <= table_rows r tid) as H.
  { eapply (msum_ge (λ _ b, if decide (t_id b = tid) then 1 else 0) (r_rows r) id a); [|done].
    intros _ b. by case_decide. }
  rewrite decide_True in H by done. lia.
Qed.

Lemma table_rows_none r tid :
  (∀ id a, r_rows r !! id = Some a → t_id a ≠ tid) → table_rows r tid = 0.
Proof. intros H. apply msum_zero. intros id a Ha. rewrite decide_False; [done|]. eauto. Qed.

Lemma cache_wf_empty m N : cache_wf m N cache_empty.
Proof.
  split; simpl.
  - intros obj i. rewrite lookup_empty. split; [done|]. intros [_ H]. by rewrite lookup_nil in H.
  - intros obj i H. by rewrite lookup_empty in H.
  - intros t ei. rewrite lookup_empty. split; [done|]. intros (n & H & _). by rewrite lookup_nil in H.
  - intros t [ei H]. by rewrite lookup_empty in H.
Qed.

(** More rows and tables keep a cache. *)
Lemma cache_wf_mono m m' N N' c :
  cache_wf m N c → N <= N' →
  (∀ obj a, m !! obj = Some a → ∃ a', m' !! obj = Some a' ∧ t_id a' = t_id a) → cache_wf m' N' c.
Proof.
  intros [] HN Hm. split; try done.
  - intros obj i Hi. destruct (ca_alive0 _ _ Hi) as (a & Ha & Hc).
    destruct (Hm _ _ Ha) as (a' & ? & E). exists a'. by rewrite E.
  - intros t Ht. specialize (ca_old0 t Ht). lia.
Qed.

Lemma cache_table_wf m N c tid c' ei :
  cache_wf m N c → tid < N → cache_table c tid = (c', ei) →
  cache_wf m N c' ∧ table_cache c' !! tid = Some ei ∧ object_to_iterator c' = object_to_iterator c ∧
  iterator_to_object c' = iterator_to_object c ∧
  (∀ t e, table_cache c !! t = Some e → table_cache c' !! t = Some e).
Proof.
  intros [] Ht. unfold cache_table. destruct (table_cache c !! tid) as [e|] eqn:E.
  { intros [= <- <-]. split; [by split|]. done. }
  intros [= <- <-]. split; [|simpl; rewrite lookup_insert_eq; split_and!; try done].
  2: { intros t e Hte. rewrite lookup_insert_ne; [done|]. congruence. }
  split; simpl; [done| | |].
  - intros obj i Hi. destruct (ca_alive0 _ _ Hi) as (a & Ha & Hc). exists a. split; [done|].
    apply lookup_insert_is_Some'. by right.
  - intros t e. rewrite lookup_insert_Some. split.
    + intros [[<- <-]|[Hne Hte]].
      * exists (length (end_iterator_to_table c)). by rewrite list_lookup_middle.
      * apply ca_tables0 in Hte as (n & Hn & ->). exists n. by rewrite (lookup_app_l_Some _ _ _ _ Hn).
    + intros (n & [Hn|[Hn1 Hn2]]%lookup_app_Some & ->).
      * right. assert (table_cache c !! t = Some (index_to_end_iterator (Z.of_nat n)))
          by (apply ca_tables0; eauto). split; [congruence|done].
      * apply list_lookup_singleton_Some in Hn2 as [Hn2 ->]. left. split; [done|]. f_equal. lia.
  - intros t [<-|[_ Ht']]%lookup_insert_is_Some; [done|by apply ca_old0].
Qed.

Lemma cache_add_wf m N c obj a c' i :
  cache_wf m N c → m !! obj = Some a → is_Some (table_cache c !! t_id a) →
  cache_add c obj = (c', i) →
  cache_wf m N c' ∧ object_to_iterator c' !! obj = Some i ∧ table_cache c' = table_cache c ∧
  (∀ o j, object_to_iterator c !! o = Some j → object_to_iterator c' !! o = Some j).
Proof.
  intros [] Ha Hc. unfold cache_add. destruct (object_to_iterator c !! obj) as [j|] eqn:E.
  { intros [= <- <-]. split; [by split|]. done. }
  intros [= <- <-]. split; [|simpl; rewrite lookup_insert_eq; split_and!; try done].
  2: { intros o j Ho. rewrite lookup_insert_ne; [done|]. congruence. }
  split; simpl; [| |done|done].
  - intros o j. rewrite lookup_insert_Some. split.
    + intros [[<- <-]|[Hne Ho]].
      * split; [lia|]. by rewrite Nat2Z.id, list_lookup_middle.
      * apply ca_objects0 in Ho as [Hj Ho]. split; [done|]. by apply lookup_app_l_Some.
    + intros (Hj & [Ho|[Hl Ho]]%lookup_app_Some).
      * right. assert (object_to_iterator c !! o = Some j) by by apply ca_objects0. split; congruence.
      * apply list_lookup_singleton_Some in Ho as [Ho [= ->]]. left. split; [done|]. lia.
  - intros o j [[<- _]|[_ Ho]]%lookup_insert_Some; [by exists a|eauto].
Qed.

Lemma cache_get_ok m N c iterator obj :
  cache_wf m N c → cache_get c iterator = Ok obj ↔ object_to_iterator c !! obj = Some iterator.
Proof.
  intros []. unfold cache_get, iterator_entry. rewrite ca_objects0. split.
  - intros H. inv_ok. reflect_bools. subst. done.
  - intros [Hi Ho]. apply lookup_lt_Some in Ho as Hlt.
    rewrite (proj2 (Z.eqb_neq iterator (-1))), (proj2 (Z.leb_le 0 iterator)),
      (proj2 (Z.ltb_lt iterator _)) by lia. simpl. by rewrite Ho.
Qed.

(** The row of a live iterator is removed together with the iterator. *)
Lemma cache_remove_wf m N c iterator obj c' :
  cache_wf m N c → object_to_iterator c !! obj = Some iterator → cache_remove c iterator = Ok c' →
  cache_wf (delete obj m) N c'.
Proof.
  intros Hwf Ho. pose proof (proj2 (cache_get_ok _ _ _ iterator obj Hwf) Ho) as Hg.
  unfold cache_get in Hg. inv_ok. unfold cache_remove. rewrite Hrun. simpl. subst.
  intros [= <-]. destruct Hwf. split; simpl; [| |done|done].
  - intros o i. apply ca_objects0 in Ho as Hob. rewrite lookup_delete_Some, ca_objects0. split.
    + intros (Hne & Hi & Hoi). split; [done|]. rewrite list_lookup_insert_ne; [done|].
      intros E. apply Hne. destruct Hob as [? Hob]. rewrite E in Hob. congruence.
    + intros (Hi & Hoi). apply list_lookup_insert_Some in Hoi as [(_ & [=] & _)|[Hne Hoi]].
      split_and!; try done. intros <-. assert (object_to_iterator c !! obj = Some i) by by apply ca_objects0.
      simplify_eq.
  - intros o i [Hne Hi]%lookup_delete_Some. destruct (ca_alive0 _ _ Hi) as (a & Ha & Hc).
    exists a. by rewrite lookup_delete_ne.
Qed.

Lemma cache_remove_objects m N c iterator obj c' :
  cache_wf m N c → object_to_iterator c !! obj = Some iterator → cache_remove c iterator = Ok c' →
  object_to_iterator c' = delete obj (object_to_iterator c).
Proof.
  intros Hwf Ho. pose proof (proj2 (cache_get_ok _ _ _ iterator obj Hwf) Ho) as Hg.
  unfold cache_get in Hg. inv_ok. unfold cache_remove. rewrite Hrun. simpl. subst. by intros [= <-].
Qed.
End rows_wf.

Section consistency.
Context {FC : Fc} {AC : ActionCodec} {TC : TransactionCodec} {PS : PackSizes} {SF : SoftFloat}.
Implicit Types (s : contract_state) (tid : Z).

Definition sum_kinds (f : index_kind → Z) : Z :=
  f Idx64 + f Idx128 + f Idx256 + f IdxDouble + f IdxLongDouble.

Definition kv_bytes (a : key_value_object) : Z := Z.of_nat (length (kv_value a)) + key_value_size.

(** Rows of a table, in all indexes; the counters of tables are 32 bits wide. *)
Definition total_rows s tid : Z :=
  table_rows (cs_kv s) tid + sum_kinds (λ k, table_rows (cs_index s k) tid).
(** The bytes of rows and of tables. *)
Definition rows_bytes s (b : Z) : Z :=
  row_bytes kv_bytes (cs_kv s) b +
  sum_kinds (λ k, row_bytes (λ _, index_size k) (cs_index s k) b).
Definition tables_bytes s (b : Z) : Z :=
  msum (λ _ t, if decide (ti_payer t = b) then table_id_size else 0) (cs_tables s).

Definition parts_wf T N s : Prop := rows_wf T N (cs_kv s) ∧ ∀ k, rows_wf T N (cs_index s k).

(** Values come from the 32-bit memory of a contract. *)
Definition small_values s : Prop := ∀ id a, r_rows (cs_kv s) !! id = Some a → kv_bytes a < 2 ^ 33.

(** [dc] is how much the counters are ahead of the rows: zero outside of operations. *)
Record counted (dc : Z → Z) s : Prop := {
  ct_range : ram_in_range (st_db (cs_apply s));
  ct_fresh : ∀ tid t, cs_tables s !! tid = Some t → tid < cs_next_table s;
  ct_unique : ∀ i j t t', cs_tables s !! i = Some t → cs_tables s !! j = Some t' →
    ti_code t = ti_code t' → ti_scope t = ti_scope t' → ti_table t = ti_table t' → i = j;
  ct_count : ∀ tid t, cs_tables s !! tid = Some t → ti_count t = total_rows s tid + dc tid;
  ct_parts : parts_wf (cs_tables s) (cs_next_table s) s;
  ct_values : small_values s;
}.

Definition contract_wf s : Prop :=
  counted (λ _, 0) s ∧ ∀ tid t, cs_tables s !! tid = Some t → 0 < ti_count t < 2 ^ 32.

(** RAM that is billed beyond the bytes of the contract tables. *)
Definition surplus s (b : Z) : Z := ram_of (st_db (cs_apply s)) b - rows_bytes s b - tables_bytes s b.

(** What the operations rely on about a part of the state. *)
Class PartLaws {A} {RA : Row A} (L : part A) (bytes : A → Z) : Prop := {
  part_get_set : ∀ s r, part_get _ L (part_set _ L s r) = r;
  part_frame : ∀ s r, cs_apply (part_set _ L s r) = cs_apply s ∧
    cs_tables (part_set _ L s r) = cs_tables s ∧ cs_next_table (part_set _ L s r) = cs_next_table s;
  part_get_frame : ∀ s m n a, part_get _ L (set_tables s m n) = part_get _ L s ∧
    part_get _ L (set_apply s a) = part_get _ L s;
  part_ext : ∀ s s', cs_kv s' = cs_kv s → (∀ k, cs_index s' k = cs_index s k) →
    part_get _ L s' = part_get _ L s;
  part_set_get : ∀ s, part_set _ L s (part_get _ L s) = s;
  part_set_set : ∀ s r r', part_set _ L (part_set _ L s r) r' = part_set _ L s r';
  part_set_frame : ∀ s m n a r, part_set _ L (set_tables s m n) r = set_tables (part_set _ L s r) m n ∧
    part_set _ L (set_apply s a) r = set_apply (part_set _ L s r) a;
  part_rows : ∀ s r tid, total_rows (part_set _ L s r) tid =
    total_rows s tid - table_rows (part_get _ L s) tid + table_rows r tid;
  part_bytes : ∀ s r b, rows_bytes (part_set _ L s r) b =
    rows_bytes s b - row_bytes bytes (part_get _ L s) b + row_bytes bytes r b;
  part_wf : ∀ T N s, parts_wf T N s → rows_wf T N (part_get _ L s);
  part_wf_set : ∀ T N s r, parts_wf T N s → rows_wf T N r → parts_wf T N (part_set _ L s r);
  part_small : ∀ s id a, small_values s → r_rows (part_get _ L s) !! id = Some a → 0 <= bytes a < 2 ^ 33;
  part_small_set : ∀ s r, small_values s → (∀ id a, r_rows r !! id = Some a → bytes a < 2 ^ 33) →
    small_values (part_set _ L s r);
}.

#[local] Instance kv_part_laws : PartLaws kv_part kv_bytes.
Proof.
  split; try done.
  - by intros [].
  - intros s r tid. unfold total_rows, sum_kinds. simpl. lia.
  - intros s r b. unfold rows_bytes, sum_kinds. simpl. lia.
  - by intros T N s [? _].
  - by intros T N s r [_ ?].
  - intros s id a Hs Ha. specialize (Hs id a Ha). unfold kv_bytes in *.
    change key_value_size with 112 in *. lia.
Qed.

#[local] Instance index_part_laws k : PartLaws (index_part k) (λ _, index_size k).
Proof.
  split; try (intros [] *; by destruct k).
  - intros s s' _ H. apply H.
  - intros [] r tid. unfold total_rows, sum_kinds. destruct k; simpl; lia.
  - intros [] r b. unfold rows_bytes, sum_kinds. destruct k; simpl; lia.
  - intros T N s [_ H]. apply H.
  - intros T N [] r [? H] Hr.
    split; [by destruct k|]. intros k'. specialize (H k'). destruct k, k'; simpl in *; done.
Qed.

Lemma table_rows_total s tid :
  table_rows (cs_kv s) tid <= total_rows s tid ∧ ∀ k, table_rows (cs_index s k) tid <= total_rows s tid.
Proof.
  unfold total_rows, sum_kinds.
  pose proof (table_rows_nonneg (cs_kv s) tid).
  pose proof (λ k, table_rows_nonneg (cs_index s k) tid) as H'.
  pose proof (H' Idx64). pose proof (H' Idx128). pose proof (H' Idx256). pose proof (H' IdxDouble).
  pose proof (H' IdxLongDouble). split; [lia|]. intros []; lia.
Qed.

(** Tables may come, and go when they are empty. *)
Lemma rows_wf_tables {A} {RA : Row A} T T' N N' (r : rows A) :
  rows_wf T N r → N <= N' →
  (∀ tid, is_Some (T !! tid) → is_Some (T' !! tid) ∨ table_rows r tid = 0) → rows_wf T' N' r.
Proof.
  intros [] HN HT. split; try done.
  - intros id a Ha. destruct (HT _ (rw_table0 _ _ Ha)) as [?|H0]; [done|].
    by destruct (table_rows_zero _ _ H0 _ _ Ha).
  - eapply cache_wf_mono; [done|done|]. eauto.
Qed.

Lemma parts_wf_tables T T' N N' s :
  parts_wf T N s → N <= N' →
  (∀ tid, is_Some (T !! tid) → is_Some (T' !! tid) ∨ total_rows s tid = 0) → parts_wf T' N' s.
Proof.
  intros [Hkv Hix] HN HT.
  assert (∀ tid, total_rows s tid = 0 → table_rows (cs_kv s) tid = 0 ∧
    ∀ k, table_rows (cs_index s k) tid = 0) as Hz.
  { intros tid H0. destruct (table_rows_total s tid) as [Hk Hi].
    pose proof (table_rows_nonneg (cs_kv s) tid). split; [lia|].
    intros k. pose proof (table_rows_nonneg (cs_index s k) tid). specialize (Hi k). lia. }
  split; [|intros k]; (eapply rows_wf_tables; [done|done|]);
    intros tid Ht; destruct (HT tid Ht) as [?|H0%Hz]; [by left|right; apply H0|by left|right; apply H0].
Qed.

Lemma update_db_usage_exact env p delta a a' u :
  ram_in_range (st_db a) → in_i64 delta → update_db_usage env p delta a = (a', Ok u) →
  ram_in_range (st_db a') ∧
  ∀ b, ram_of (st_db a') b = ram_of (st_db a) b + if decide (b = p) then delta else 0.
Proof.
  unfold update_db_usage. intros Hr Hd H. inv_st.
  assert (st_db s = st_db a) as Hs.
  { apply when_ok in Hrun as [[_ Hw]|[_ ->]]; [|done]. inv_st. by apply require_auth_db in Hw. }
  rewrite <-Hs in *. apply add_ram_usage_exact in H as (f & _ & ? & ?); done.
Qed.

Lemma in_apply_usage dc env p delta s s' u :
  counted dc s → in_i64 delta → in_apply (update_db_usage env p delta) s = (s', Ok u) →
  counted dc s' ∧ s' = set_apply s (cs_apply s') ∧
  ∀ b, surplus s' b = surplus s b + if decide (b = p) then delta else 0.
Proof.
  unfold in_apply. intros [] Hd. destruct (update_db_usage _ _ _ _) as [a' [[]|e]] eqn:E; [|done].
  intros [= <-]. apply update_db_usage_exact in E as [Hr Hram]; [|done|done].
  split; [by split|]. split; [done|]. intros b. unfold surplus. simpl. rewrite Hram.
  change (rows_bytes (set_apply s a')) with (rows_bytes s).
  change (tables_bytes (set_apply s a')) with (tables_bytes s). repeat case_decide; lia.
Qed.

Lemma find_table_ok code scope table s s' o :
  find_table code scope table s = (s', Ok o) → s' = s ∧
  match o with
  | Some (tid, t) => cs_tables s !! tid = Some t ∧ ti_code t = code ∧ ti_scope t = scope ∧ ti_table t = table
  | None => ∀ tid t, cs_tables s !! tid = Some t → ¬ (ti_code t = code ∧ ti_scope t = scope ∧ ti_table t = table)
  end.
Proof.
  unfold find_table. intros H. inv_st. split; [done|].
  destruct (map_find _ _) as [[tid t]|] eqn:E.
  - apply map_find_Some_1 in E as (? & ? & ? & ?). done.
  - by rewrite map_find_None in E.
Qed.

Lemma new_table_rows dc s : counted dc s → total_rows s (cs_next_table s) = 0.
Proof.
  intros []. destruct ct_parts0 as [Hkv Hix].
  assert (∀ A (RA : Row A) (r : rows A), rows_wf (cs_tables s) (cs_next_table s) r →
    table_rows r (cs_next_table s) = 0) as Hz.
  { intros A RA r Hr. apply table_rows_none. intros id a Ha E.
    destruct (rw_table _ _ _ Hr _ _ Ha) as [t Ht]. apply ct_fresh0 in Ht. lia. }
  unfold total_rows, sum_kinds. rewrite (Hz _ _ _ Hkv), !(Hz _ _ _ (Hix _)). done.
Qed.

Lemma new_table_counted s t :
  counted (λ _, 0) s → ti_count t = 0 →
  (∀ i u, cs_tables s !! i = Some u →
     ¬ (ti_code u = ti_code t ∧ ti_scope u = ti_scope t ∧ ti_table u = ti_table t)) →
  let s' := set_tables s (<[cs_next_table s := t]> (cs_tables s)) (cs_next_table s + 1) in
  counted (λ _, 0) s' ∧
  ∀ b, surplus s' b = surplus s b - if decide (b = ti_payer t) then table_id_size else 0.
Proof.
  intros Hwf Hc Hnew. pose proof (new_table_rows _ _ Hwf) as Hz. destruct Hwf. simpl.
  assert (cs_tables s !! cs_next_table s = None) as Hnone.
  { apply eq_None_not_Some. intros [u Hu%ct_fresh0]. lia. }
  split.
  - split; simpl; try done.
    + intros i u [[<- _]|[_ Hu%ct_fresh0]]%lookup_insert_Some; lia.
    + intros i j u v [[<- <-]|[_ Hu]]%lookup_insert_Some [[<- <-]|[_ Hv]]%lookup_insert_Some E1 E2 E3.
      * done.
      * by destruct (Hnew _ _ Hv).
      * by destruct (Hnew _ _ Hu).
      * by eapply ct_unique0.
    + intros i u [[<- <-]|[_ Hu]]%lookup_insert_Some; [|by apply ct_count0].
      rewrite Hc. change (total_rows (set_tables _ _ _)) with (total_rows s). lia.
    + eapply (parts_wf_tables _ _ _ _ s); [exact ct_parts0|lia|].
      intros tid Ht. left. apply lookup_insert_is_Some'. by right.
  - intros b. unfold surplus, tables_bytes. simpl. rewrite msum_insert_None by done.
    change (rows_bytes (set_tables _ _ _)) with (rows_bytes s). repeat case_decide; subst; try done; lia.
Qed.

Lemma find_or_create_spec env code scope table payer s s' tid t :
  contract_wf s → find_or_create_table env code scope table payer s = (s', Ok (tid, t)) →
  counted (λ _, 0) s' ∧ cs_tables s' !! tid = Some t ∧
  ti_code t = code ∧ ti_scope t = scope ∧ ti_table t = table ∧ 0 <= ti_count t < 2 ^ 32 ∧
  cs_kv s' = cs_kv s ∧ (∀ k, cs_index s' k = cs_index s k) ∧
  (cs_tables s' = cs_tables s ∨
   (cs_tables s !! tid = None ∧ total_rows s tid = 0 ∧ cs_tables s' = <[tid := t]> (cs_tables s) ∧
    ∀ i u, cs_tables s !! i = Some u →
      ¬ (ti_code u = code ∧ ti_scope u = scope ∧ ti_table u = table))) ∧
  ∀ b, surplus s' b = surplus s b.
Proof.
  intros [Hwf Hpos] H. unfold find_or_create_table in H. inv_st.
  apply find_table_ok in Hrun as [-> Ho]. destruct r as [[i u]|].
  { inv_st. destruct Ho as (Ht & ? & ? & ?). simplify_eq. specialize (Hpos _ _ Ht).
    split_and!; try done; try lia; by left. }
  inv_st. apply (in_apply_usage (λ _, 0)) in Hrun as (Hwf1 & Hs0 & Hsur); [|done|done].
  assert (cs_tables s0 = cs_tables s) as Et by by rewrite Hs0.
  injection H0 as -> ->.
  destruct (new_table_counted s0 (TableId code scope table payer 0)) as [Hwf2 Hsur2];
    [done|done|by rewrite Et|]. split_and!; [exact Hwf2|..]; try done; simpl.
  - by rewrite lookup_insert_eq.
  - by rewrite Hs0.
  - by rewrite Hs0.
  - right. rewrite <-Et. split_and!; try done.
    + apply eq_None_not_Some. intros [v Hv]. apply (ct_fresh _ _ Hwf1) in Hv. lia.
    + rewrite <-(new_table_rows _ _ Hwf1). by rewrite Hs0.
    + by rewrite Et.
  - intros b. rewrite Hsur2, Hsur. simpl. repeat case_decide; done || lia.
Qed.

Lemma counted_ext dc dc' s : (∀ tid, is_Some (cs_tables s !! tid) → dc tid = dc' tid) → counted dc s → counted dc' s.
Proof. intros E []. split; try done. intros tid t Ht. rewrite <-E by done. by apply ct_count0. Qed.

(** The counter of a table changes. *)
Lemma change_count_spec dc tid f s s' n :
  counted dc s → change_count tid f s = (s', Ok n) →
  ∃ t, cs_tables s !! tid = Some t ∧ n = u32 (f (ti_count t)) ∧
    let t' := TableId (ti_code t) (ti_scope t) (ti_table t) (ti_payer t) n in
    s' = set_tables s (<[tid := t']> (cs_tables s)) (cs_next_table s) ∧
    counted (λ i, dc i + if decide (i = tid) then n - ti_count t else 0) s' ∧
    ∀ b, surplus s' b = surplus s b.
Proof.
  intros [] H. unfold change_count, deref_table in H. inv_st. rename select (_ !! tid = Some _) into Htid.
  exists r. split; [done|]. split; [done|].
  intros t'. split; [done|]. split.
  - split; simpl; try done.
    + intros i u [[<- <-]|[_ Hu]]%lookup_insert_Some; eauto.
    + intros i j u v [[<- <-]|[_ Hu]]%lookup_insert_Some [[<- <-]|[_ Hv]]%lookup_insert_Some; simpl; eauto.
    + intros i u [[<- <-]|[Hne Hu]]%lookup_insert_Some.
      * rewrite decide_True by done. simpl. change (total_rows (set_tables _ _ _)) with (total_rows s).
        specialize (ct_count0 _ _ Htid). lia.
      * rewrite decide_False by done. change (total_rows (set_tables _ _ _)) with (total_rows s).
        specialize (ct_count0 _ _ Hu). lia.
    + eapply (parts_wf_tables _ _ _ _ s); [exact ct_parts0|done|]. intros i Hi. left.
      apply lookup_insert_is_Some'. by right.
  - intros b. unfold surplus, tables_bytes. simpl. rewrite msum_insert, Htid. simpl.
    change (rows_bytes (set_tables _ _ _)) with (rows_bytes s). case_decide; lia.
Qed.

Section part_ops.
Context {A : Type} {RA : Row A} (L : part A) (bytes : A → Z) {PL : PartLaws L bytes}.

(** A part of the state is replaced. *)
Lemma part_set_counted dc s r :
  counted dc s → rows_wf (cs_tables s) (cs_next_table s) r →
  (∀ id a, r_rows r !! id = Some a → bytes a < 2 ^ 33) →
  counted (λ i, dc i + table_rows (part_get _ L s) i - table_rows r i) (part_set _ L s r) ∧
  ∀ b, surplus (part_set _ L s r) b =
       surplus s b + row_bytes bytes (part_get _ L s) b - row_bytes bytes r b.
Proof.
  intros [] Hr Hs. destruct (part_frame s r) as (Ea & Et & En). split.
  - split; rewrite ?Ea, ?Et, ?En; try done.
    + intros tid t Ht. rewrite part_rows, (ct_count0 _ _ Ht). lia.
    + by apply part_wf_set.
    + by apply part_small_set.
  - intros b. unfold surplus, tables_bytes. rewrite Ea, Et, part_bytes. lia.
Qed.

Lemma part_small_rows dc s id a :
  counted dc s → r_rows (part_get _ L s) !! id = Some a → bytes a < 2 ^ 33.
Proof. intros Hwf Ha. by apply (part_small s id a (ct_values _ _ Hwf)). Qed.

(** Only the cache of a part changes. *)
Lemma part_cache_counted dc s c :
  counted dc s → cache_wf (r_rows (part_get _ L s)) (cs_next_table s) c →
  let s' := part_set _ L s (with_cache (part_get _ L s) c) in
  counted dc s' ∧ ∀ b, surplus s' b = surplus s b.
Proof.
  intros Hwf Hc. destruct (part_wf _ _ _ (ct_parts _ _ Hwf)) as [H1 H2 H3 _].
  destruct (part_set_counted dc s (with_cache (part_get _ L s) c)) as [Hwf' Hs]; [done|by split| |].
  { intros id a. by apply (part_small_rows dc). }
  split.
  - eapply counted_ext; [|exact Hwf']. intros tid _. simpl.
    change (table_rows (with_cache _ c)) with (table_rows (part_get _ L s)). lia.
  - intros b. rewrite Hs. change (row_bytes bytes (with_cache _ c)) with (row_bytes bytes (part_get _ L s)). lia.
Qed.

Lemma cached_table_spec dc s s' tid ei :
  counted dc s → is_Some (cs_tables s !! tid) → cached_table L tid s = (s', Ok ei) →
  ∃ c, s' = part_set _ L s (with_cache (part_get _ L s) c) ∧
    cache_table (r_cache (part_get _ L s)) tid = (c, ei) ∧ table_cache c !! tid = Some ei ∧
    object_to_iterator c = object_to_iterator (r_cache (part_get _ L s)) ∧
    counted dc s' ∧ ∀ b, surplus s' b = surplus s b.
Proof.
  intros Hwf [t Ht] H. unfold cached_table in H. rewrite st_get_run in H.
  destruct (cache_table _ tid) as [c e] eqn:E. inv_st. exists c.
  pose proof (part_wf _ _ _ (ct_parts _ _ Hwf)) as Hr.
  destruct (cache_table_wf _ _ _ _ _ _ (rw_cache _ _ _ Hr) (ct_fresh _ _ Hwf _ _ Ht) E) as (Hc & ? & ? & _).
  destruct (part_cache_counted dc s c Hwf Hc). done.
Qed.

Lemma add_object_spec dc s s' obj a i :
  counted dc s → r_rows (part_get _ L s) !! obj = Some a →
  is_Some (table_cache (r_cache (part_get _ L s)) !! t_id a) → add_object L obj s = (s', Ok i) →
  ∃ c, s' = part_set _ L s (with_cache (part_get _ L s) c) ∧
    object_to_iterator c !! obj = Some i ∧ table_cache c = table_cache (r_cache (part_get _ L s)) ∧
    (∀ o j, object_to_iterator (r_cache (part_get _ L s)) !! o = Some j →
            object_to_iterator c !! o = Some j) ∧
    counted dc s' ∧ ∀ b, surplus s' b = surplus s b.
Proof.
  intros Hwf Ha Ht H. unfold add_object in H. rewrite st_get_run in H.
  destruct (cache_add _ obj) as [c e] eqn:E. inv_st. exists c.
  pose proof (part_wf _ _ _ (ct_parts _ _ Hwf)) as Hr.
  destruct (cache_add_wf _ _ _ _ _ _ _ (rw_cache _ _ _ Hr) Ha Ht E) as (Hc & ? & ? & ?).
  destruct (part_cache_counted dc s c Hwf Hc). done.
Qed.

Lemma new_row_wf T N r a :
  rows_wf T N r → is_Some (T !! t_id a) →
  (∀ id b, r_rows r !! id = Some b → ¬ (t_id b = t_id a ∧ primary_key b = primary_key a)) →
  rows_wf T N (new_row r a) ∧ r_rows r !! r_next r = None.
Proof.
  intros [] Ht Hnew.
  assert (r_rows r !! r_next r = None) as Hnone.
  { apply eq_None_not_Some. intros [b Hb%rw_fresh0]. lia. }
  split; [|done]. split; simpl.
  - intros id b [[<- _]|[_ Hb%rw_fresh0]]%lookup_insert_Some; lia.
  - intros id b [[_ <-]|[_ Hb]]%lookup_insert_Some; eauto.
  - intros i j b c [[<- <-]|[_ Hb]]%lookup_insert_Some [[<- <-]|[_ Hc]]%lookup_insert_Some E1 E2.
    + done.
    + by destruct (Hnew _ _ Hc).
    + by destruct (Hnew _ _ Hb).
    + eauto.
  - eapply cache_wf_mono; [done|done|]. intros obj b Hb. exists b.
    rewrite lookup_insert_ne; [done|]. congruence.
Qed.

Lemma create_row_spec dc s s' a obj :
  counted dc s → is_Some (cs_tables s !! t_id a) → bytes a < 2 ^ 33 →
  create_row L a s = (s', Ok obj) →
  s' = part_set _ L s (new_row (part_get _ L s) a) ∧ obj = r_next (part_get _ L s) ∧
  (∀ id b, r_rows (part_get _ L s) !! id = Some b →
     ¬ (t_id b = t_id a ∧ primary_key b = primary_key a)) ∧
  counted (λ i, dc i - if decide (i = t_id a) then 1 else 0) s' ∧
  ∀ b, surplus s' b = surplus s b - if decide (b = row_payer a) then bytes a else 0.
Proof.
  intros Hwf Ht Ha H. unfold create_row in H. inv_st. reflect_bools.
  rename select (map_find _ _ = None) into Hnew. rewrite map_find_None in Hnew. simpl in Hnew.
  destruct (new_row_wf _ _ _ _ (part_wf _ _ _ (ct_parts _ _ Hwf)) Ht Hnew) as [Hr Hnone].
  destruct (part_set_counted dc s _ Hwf Hr) as [Hwf' Hs].
  { simpl. intros id b [[_ <-]|[_ Hb]]%lookup_insert_Some; [done|by eapply part_small_rows]. }
  split_and!; try done.
  - eapply counted_ext; [|exact Hwf']. intros i _. simpl. unfold table_rows at 2. simpl.
    rewrite msum_insert_None by done. fold (table_rows (part_get _ L s) i).
    repeat case_decide; subst; try done; lia.
  - intros b. rewrite Hs. unfold row_bytes at 2. simpl. rewrite msum_insert_None by done.
    fold (row_bytes bytes (part_get _ L s) b). repeat case_decide; subst; try done; lia.
Qed.

(** The rows that an operation leaves in a part: those before, with one added, replaced or removed. *)
Lemma insert_row_spec s s' env tid t a iterator :
  counted (λ _, 0) s → cs_tables s !! tid = Some t → 0 <= ti_count t → ti_count t + 1 < 2 ^ 32 →
  t_id a = tid → 0 <= bytes a < 2 ^ 33 →
  insert_row L env tid (row_payer a) a (bytes a) s = (s', Ok iterator) →
  (∀ id b, r_rows (part_get _ L s) !! id = Some b → ¬ (t_id b = tid ∧ primary_key b = primary_key a)) ∧
  counted (λ _, 0) s' ∧ (∀ b, surplus s' b = surplus s b) ∧
  cs_tables s' = <[tid := TableId (ti_code t) (ti_scope t) (ti_table t) (ti_payer t) (ti_count t + 1)]>
    (cs_tables s) ∧
  r_rows (part_get _ L s') = <[r_next (part_get _ L s) := a]> (r_rows (part_get _ L s)) ∧
  object_to_iterator (r_cache (part_get _ L s')) !! r_next (part_get _ L s) = Some iterator ∧
  (∀ o j, object_to_iterator (r_cache (part_get _ L s)) !! o = Some j →
          object_to_iterator (r_cache (part_get _ L s')) !! o = Some j).
Proof.
  intros Hwf Ht Hc0 Hc1 <- Hb H. unfold insert_row in H. inv_st.
  apply (create_row_spec (λ _, 0)) in Hrun as (-> & -> & Hnew & Hwf1 & Hs1); [|done|by eexists|lia].
  apply (change_count_spec _ _ _ _ _ _ Hwf1) in Hrun0 as (t1 & Ht1 & -> & E2 & Hwf2 & Hs2).
  destruct (part_frame s (new_row (part_get _ L s) a)) as (_ & Et & _).
  rewrite Et, Ht in Ht1. injection Ht1 as <-. rewrite u32_small in * by lia.
  apply (counted_ext _ (λ _, 0)) in Hwf2; [|intros i _; case_decide; lia].
  apply (in_apply_usage _ _ _ _ _ _ _ Hwf2) in Hrun1 as (Hwf3 & E3 & Hs3); [|unfold in_i64; lia].
  assert (part_get _ L s2 = new_row (part_get _ L s) a) as Eg.
  { rewrite E3, (proj2 (part_get_frame _ ∅ 0 _)), E2, (proj1 (part_get_frame _ _ _ (cs_apply s))).
    apply part_get_set. }
  assert (cs_tables s2 = cs_tables s1) as Et2 by by rewrite E3.
  apply (cached_table_spec _ _ _ _ _ Hwf3) in Hrun2 as (c & -> & _ & Hc & Eo & Hwf4 & Hs4);
    [|rewrite Et2, E2; simpl; by rewrite lookup_insert_eq].
  destruct (part_frame s2 (with_cache (part_get _ L s2) c)) as (_ & Et3 & _).
  eapply (add_object_spec _ _ _ _ a) in H as (c' & -> & Hi & _ & Hk & Hwf5 & Hs5); 
    [|exact Hwf4|by rewrite part_get_set, Eg; simpl; rewrite lookup_insert_eq
     |by rewrite part_get_set; eexists].
  destruct (part_frame (part_set _ L s2 (with_cache (part_get _ L s2) c))
    (with_cache (part_get _ L (part_set _ L s2 (with_cache (part_get _ L s2) c))) c')) as (_ & Et4 & _).
  split_and!; try done.
  - intros b. rewrite Hs5, Hs4, Hs3, Hs2, Hs1. repeat case_decide; done || lia.
  - rewrite Et4, Et3, Et2, E2. simpl. by rewrite Et.
  - rewrite !part_get_set. simpl. by rewrite Eg.
  - by rewrite part_get_set.
  - intros o j Hj. rewrite part_get_set in *. apply Hk. simpl. by rewrite Eo, Eg.
Qed.

Lemma get_object_ok dc s s' iterator id a :
  counted dc s → get_object L iterator s = (s', Ok (id, a)) →
  s' = s ∧ r_rows (part_get _ L s) !! id = Some a ∧
  object_to_iterator (r_cache (part_get _ L s)) !! id = Some iterator.
Proof.
  intros Hwf H. unfold get_object in H. inv_st. injection H2 as -> ->.
  pose proof (part_wf _ _ _ (ct_parts _ _ Hwf)) as Hr.
  split; [done|]. split; [done|]. by eapply (cache_get_ok _ _ _ _ _ (rw_cache _ _ _ Hr)).
Qed.

Lemma own_table_ok env a s s' tid :
  own_table L env a s = (s', Ok tid) →
  s' = s ∧ tid = t_id a ∧ ∃ t, cs_tables s !! tid = Some t ∧ ti_code t = env_receiver env.
Proof.
  unfold own_table, get_table, deref_table. intros H. inv_st. inv_ok. reflect_bools. eauto.
Qed.

(** A row replaced by one with the same keys. *)
Lemma modify_row_spec dc s s' id a a' u :
  counted dc s → r_rows (part_get _ L s) !! id = Some a → t_id a' = t_id a →
  primary_key a' = primary_key a → bytes a' < 2 ^ 33 → modify_row L id a' s = (s', Ok u) →
  s' = part_set _ L s (with_rows (part_get _ L s) (<[id := a']> (r_rows (part_get _ L s)))) ∧
  counted dc s' ∧
  ∀ b, surplus s' b = surplus s b + (if decide (b = row_payer a) then bytes a else 0) -
                      (if decide (b = row_payer a') then bytes a' else 0).
Proof.
  intros Hwf Ha Et Ep Hb H. unfold modify_row in H. inv_st. split; [done|].
  pose proof (part_wf _ _ _ (ct_parts _ _ Hwf)) as []. set (r := part_get _ L s) in *.
  assert (∀ i b, <[id := a']> (r_rows r) !! i = Some b →
    ∃ b', r_rows r !! i = Some b' ∧ t_id b = t_id b' ∧ primary_key b = primary_key b') as Hback.
  { intros i b [[<- <-]|[_ Hi]]%lookup_insert_Some; eauto. }
  destruct (part_set_counted dc s (with_rows r (<[id := a']> (r_rows r)))) as [Hwf' Hs]; [done| | |].
  - split; simpl.
    + intros i b (b' & ? & _)%Hback. eauto.
    + intros i b (b' & ? & -> & _)%Hback. eauto.
    + intros i j b c (b' & ? & -> & ->)%Hback (c' & ? & -> & ->)%Hback. eauto.
    + eapply cache_wf_mono; [exact rw_cache0|done|]. intros i b Hi.
      destruct (decide (id = i)) as [<-|].
      * exists a'. rewrite lookup_insert_eq. by simplify_eq.
      * exists b. by rewrite lookup_insert_ne.
  - simpl. intros i b [[_ <-]|[_ Hi]]%lookup_insert_Some; [done|by eapply part_small_rows].
  - split.
    + eapply counted_ext; [|exact Hwf']. intros i _. fold r. simpl. unfold table_rows at 2. simpl.
      rewrite msum_insert, Ha. simpl. fold (table_rows r i). rewrite Et. lia.
    + intros b. rewrite Hs. fold r. unfold row_bytes at 2. simpl. rewrite msum_insert, Ha. simpl.
      fold (row_bytes bytes r b). repeat case_decide; subst; try done; lia.
Qed.

Lemma rebill_spec dc env p p' n n' s s' u :
  counted dc s → 0 <= n < 2 ^ 33 → 0 <= n' < 2 ^ 33 → rebill env p p' n n' s = (s', Ok u) →
  counted dc s' ∧ s' = set_apply s (cs_apply s') ∧
  ∀ b, surplus s' b = surplus s b - (if decide (b = p) then n else 0) + (if decide (b = p') then n' else 0).
Proof.
  intros Hwf Hn Hn' H. unfold rebill in H.
  destruct (p =? p') eqn:Ep; reflect_bools; simpl in H; [destruct (n =? n') eqn:En; reflect_bools; simpl in H|].
  - inv_st. subst. split; [done|]. split; [by destruct s|]. intros b. lia.
  - apply (in_apply_usage dc) in H as (? & ? & Hs); [|done|unfold in_i64; lia].
    split; [done|]. split; [done|]. subst. intros b. rewrite Hs. case_decide; lia.
  - inv_st. apply (in_apply_usage dc) in Hrun as (Hwf1 & E1 & Hs1); [|done|unfold in_i64; lia].
    apply (in_apply_usage dc) in H as (Hwf2 & E2 & Hs2); [|done|unfold in_i64; lia].
    split; [done|]. split; [by rewrite E2, E1|]. intros b. rewrite Hs2, Hs1. repeat case_decide; lia.
Qed.

(** The row of an iterator is removed together with the iterator. *)
Lemma remove_row_counted dc s id a iterator c :
  counted dc s → r_rows (part_get _ L s) !! id = Some a →
  object_to_iterator (r_cache (part_get _ L s)) !! id = Some iterator →
  cache_remove (r_cache (part_get _ L s)) iterator = Ok c →
  let s' := part_set _ L s (Rows (delete id (r_rows (part_get _ L s))) (r_next (part_get _ L s)) c) in
  counted (λ i, dc i + if decide (i = t_id a) then 1 else 0) s' ∧
  (∀ i, total_rows s' i = total_rows s i - if decide (i = t_id a) then 1 else 0) ∧
  ∀ b, surplus s' b = surplus s b + if decide (b = row_payer a) then bytes a else 0.
Proof.
  intros Hwf Ha Ho Hc. pose proof (part_wf _ _ _ (ct_parts _ _ Hwf)) as [].
  set (r := part_get _ L s) in *. set (r' := Rows _ _ _).
  assert (∀ i, table_rows r' i = table_rows r i - if decide (i = t_id a) then 1 else 0) as Hrows.
  { intros i. unfold table_rows, r'. simpl. rewrite msum_delete_any, Ha. simpl.
    repeat case_decide; subst; try done; lia. }
  destruct (part_set_counted dc s r') as [Hwf' Hs]; [done| | |].
  - split; simpl.
    + intros i b [_ Hb]%lookup_delete_Some. eauto.
    + intros i b [_ Hb]%lookup_delete_Some. eauto.
    + intros i j b b' [_ Hb]%lookup_delete_Some [_ Hb']%lookup_delete_Some. eauto.
    + by eapply cache_remove_wf.
  - simpl. intros i b [_ Hb]%lookup_delete_Some. by eapply part_small_rows.
  - split_and!.
    + eapply counted_ext; [|exact Hwf']. intros i _. cbv beta. fold r. rewrite Hrows. lia.
    + intros i. rewrite part_rows. fold r. rewrite Hrows. lia.
    + intros b. rewrite Hs. fold r. unfold row_bytes at 2. simpl. rewrite msum_delete_any, Ha. simpl.
      fold (row_bytes bytes r b). repeat case_decide; subst; try done; lia.
Qed.
End part_ops.

(** An empty table is removed and refunded. *)
Lemma table_removed env s a' tid t u :
  counted (λ _, 0) s → cs_tables s !! tid = Some t → total_rows s tid = 0 →
  update_db_usage env (ti_payer t) (- table_id_size) (cs_apply s) = (a', Ok u) →
  let s' := set_tables (set_apply s a') (delete tid (cs_tables s)) (cs_next_table s) in
  counted (λ _, 0) s' ∧ ∀ b, surplus s' b = surplus s b.
Proof.
  intros [] Ht Hz H. apply update_db_usage_exact in H as [Hr Hram]; [|done|done]. split.
  - split; simpl; try done.
    + intros i v [_ Hv]%lookup_delete_Some. eauto.
    + intros i j v w [_ Hv]%lookup_delete_Some [_ Hw]%lookup_delete_Some. eauto.
    + intros i v [_ Hv]%lookup_delete_Some. by apply ct_count0.
    + eapply (parts_wf_tables _ _ _ _ s); [exact ct_parts0|done|]. intros i Hi.
      destruct (decide (tid = i)) as [<-|]; [by right|left]. by rewrite lookup_delete_ne.
  - intros b. unfold surplus, tables_bytes. simpl. rewrite Hram, msum_delete_any, Ht. simpl.
    change (rows_bytes (set_tables _ _ _)) with (rows_bytes s). repeat case_decide; subst; try done; lia.
Qed.

Section drop.
Context {A : Type} {RA : Row A} (L : part A) (bytes : A → Z) {PL : PartLaws L bytes}.

Lemma drop_row_spec env s s' id a iterator t u :
  counted (λ _, 0) s → cs_tables s !! t_id a = Some t → 0 < ti_count t < 2 ^ 32 →
  r_rows (part_get _ L s) !! id = Some a →
  object_to_iterator (r_cache (part_get _ L s)) !! id = Some iterator →
  drop_row L env (t_id a) id iterator s = (s', Ok u) →
  counted (λ _, 0) s' ∧
  (∀ b, surplus s' b = surplus s b + if decide (b = row_payer a) then bytes a else 0) ∧
  cs_tables s' =
    (if decide (ti_count t = 1) then delete (t_id a) (cs_tables s)
     else <[t_id a := TableId (ti_code t) (ti_scope t) (ti_table t) (ti_payer t) (ti_count t - 1)]>
            (cs_tables s)) ∧
  (∃ c, cache_remove (r_cache (part_get _ L s)) iterator = Ok c ∧
        part_get _ L s' = Rows (delete id (r_rows (part_get _ L s))) (r_next (part_get _ L s)) c).
Proof.
  intros Hwf Ht Hpos Ha Ho H. unfold drop_row, delete_row, remove_iterator in H. inv_st.
  apply (change_count_spec _ _ _ _ _ _ Hwf) in Hrun as (t1 & Ht1 & -> & E1 & Hwf1 & Hs1).
  rewrite Ht in Ht1. injection Ht1 as <-. rewrite u32_small in * by lia.
  assert (part_get _ L s0 = part_get _ L s) as Eg
    by (rewrite E1; apply (part_get_frame s _ _ (cs_apply s))).
  assert (cs_tables s0 !! t_id a =
    Some (TableId (ti_code t) (ti_scope t) (ti_table t) (ti_payer t) (ti_count t - 1))) as Ht0.
  { rewrite E1. simpl. by rewrite lookup_insert_eq. }
  assert (cs_next_table s0 = cs_next_table s ∧ cs_tables s0 = <[t_id a := TableId (ti_code t)
    (ti_scope t) (ti_table t) (ti_payer t) (ti_count t - 1)]> (cs_tables s)) as [En Etab] by by rewrite E1.
  clear E1.
  pose proof (λ dc, remove_row_counted L bytes dc s0 id a iterator) as Hrm. rewrite Eg in *.
  set (r := part_get _ L s) in *.
  destruct (ti_count t - 1 =? 0) eqn:E; reflect_bools.
  - unfold remove_table, deref_table in Hrun1. inv_st.
    destruct (part_frame s0 (with_rows r (delete id (r_rows r)))) as (Ea & Et & Enx).
    rewrite Et, Ht0 in H. injection H as <-. unfold in_apply in Hrun0. rewrite Ea in Hrun0.
    destruct (update_db_usage _ _ _ _) as [a' [[]|e]] eqn:Eu; [|done]. injection Hrun0 as <- <-.
    rewrite (proj1 (part_get_frame _ _ _ a')), (proj2 (part_get_frame _ ∅ 0 a')), part_get_set in *.
    rewrite (proj1 (part_set_frame _ _ _ a' _)), (proj2 (part_set_frame _ ∅ 0 a' _)), part_set_set.
    simpl in H0. destruct (Hrm _ r3 Hwf1 Ha Ho H0) as (Hwf2 & Hz & Hs2).
    apply (counted_ext _ (λ _, 0)) in Hwf2; [|intros i _; case_decide; lia].
    set (s2 := part_set _ L s0 (Rows (delete id (r_rows r)) (r_next r) r3)) in *.
    simpl. rewrite Et, Enx.
    change (with_cache _ r3) with (Rows (delete id (r_rows r)) (r_next r) r3). fold s2.
    destruct (part_frame s0 (Rows (delete id (r_rows r)) (r_next r) r3)) as (Ea2 & Et2 & Enx2).
    fold s2 in Ea2, Et2, Enx2. rewrite <-Et2, <-Enx2.
    destruct (table_removed env s2 a' (t_id a) _ tt Hwf2 (eq_trans (f_equal (.!! t_id a) Et2) Ht0)) as [Hwf3 Hs3].
    + rewrite Hz, decide_True by done. pose proof (ct_count _ _ Hwf1 _ _ Ht0) as Hc. simpl in Hc.
      rewrite decide_True in Hc by done. lia.
    + by rewrite Ea2.
    + split_and!; [done| | |].
      * intros b. rewrite Hs3, Hs2, Hs1. done.
      * rewrite decide_True by lia. rewrite Et2, Etab. apply delete_insert_eq.
      * exists r3. split; [done|].
        rewrite (proj1 (part_get_frame _ _ _ a')), (proj2 (part_get_frame _ ∅ 0 a')).
        unfold s2. by rewrite part_get_set.
  - inv_st. rewrite part_get_set in *. simpl in H0. rewrite part_set_set.
    destruct (Hrm _ r3 Hwf1 Ha Ho H0) as (Hwf2 & Hz & Hs2).
    change (with_cache _ r3) with (Rows (delete id (r_rows r)) (r_next r) r3).
    destruct (part_frame s0 (Rows (delete id (r_rows r)) (r_next r) r3)) as (_ & Et2 & _).
    split_and!.
    + eapply counted_ext; [|exact Hwf2]. intros i _. cbv beta. case_decide; lia.
    + intros b. by rewrite Hs2, Hs1.
    + by rewrite decide_False, Et2, Etab by lia.
    + exists r3. by rewrite part_get_set.
Qed.
End drop.

(** *** Reading *)
Lemma wf_same_tables s s' :
  contract_wf s → counted (λ _, 0) s' → cs_tables s' = cs_tables s → contract_wf s'.
Proof. intros [_ Hpos] Hwf E. split; [done|]. rewrite E. done. Qed.

Section reading.
Context {A : Type} {RA : Row A} (L : part A) (bytes : A → Z) {PL : PartLaws L bytes}.

(** Reading changes the cache of one index only, where iterators stay what they are. *)
Definition reads s s' : Prop :=
  ∃ c, s' = part_set _ L s (with_cache (part_get _ L s) c) ∧ counted (λ _, 0) s' ∧
    (∀ b, surplus s' b = surplus s b) ∧
    (∀ o j, object_to_iterator (r_cache (part_get _ L s)) !! o = Some j →
            object_to_iterator c !! o = Some j) ∧
    (∀ t e, table_cache (r_cache (part_get _ L s)) !! t = Some e → table_cache c !! t = Some e).

Lemma reads_refl s : counted (λ _, 0) s → reads s s.
Proof.
  intros Hwf. exists (r_cache (part_get _ L s)).
  assert (with_cache (part_get _ L s) (r_cache (part_get _ L s)) = part_get _ L s) as ->
    by by destruct (part_get _ L s).
  by rewrite part_set_get.
Qed.

Lemma reads_trans s1 s2 s3 : reads s1 s2 → reads s2 s3 → reads s1 s3.
Proof.
  intros (c & -> & Hwf & Hs & Ho & Ht) (c' & -> & Hwf' & Hs' & Ho' & Ht').
  rewrite part_get_set in *. exists c'. rewrite part_set_set in *.
  split; [done|]. split; [done|]. split; [|split; eauto]. intros b. by rewrite Hs', Hs.
Qed.

Lemma reads_frame s s' :
  reads s s' → cs_tables s' = cs_tables s ∧ r_rows (part_get _ L s') = r_rows (part_get _ L s) ∧
  (contract_wf s → contract_wf s').
Proof.
  intros (c & -> & Hwf & _). destruct (part_frame s (with_cache (part_get _ L s) c)) as (_ & Et & _).
  rewrite part_get_set. split_and!; try done. intros Hw. by eapply wf_same_tables.
Qed.

Lemma reads_cached_table s s' tid ei :
  counted (λ _, 0) s → is_Some (cs_tables s !! tid) → cached_table L tid s = (s', Ok ei) →
  reads s s' ∧ table_cache (r_cache (part_get _ L s')) !! tid = Some ei.
Proof.
  intros Hwf Ht H.
  pose proof (part_wf _ _ _ (ct_parts _ _ Hwf)) as Hr. destruct Ht as [t Ht].
  apply (cached_table_spec L bytes _ _ _ _ _ Hwf) in H as (c & -> & Hc & Hei & Eo' & Hwf' & Hs); [|by eexists].
  destruct (cache_table_wf _ _ _ _ _ _ (rw_cache _ _ _ Hr) (ct_fresh _ _ Hwf _ _ Ht) Hc)
    as (_ & _ & Eo & _ & Hk).
  rewrite part_get_set. split; [|done]. exists c. rewrite Eo. done.
Qed.

Lemma reads_add_object s s' obj a i :
  counted (λ _, 0) s → r_rows (part_get _ L s) !! obj = Some a →
  is_Some (table_cache (r_cache (part_get _ L s)) !! t_id a) → add_object L obj s = (s', Ok i) →
  reads s s' ∧ object_to_iterator (r_cache (part_get _ L s')) !! obj = Some i.
Proof.
  intros Hwf Ha Ht H.
  apply (add_object_spec L bytes _ _ _ _ _ _ Hwf Ha Ht) in H as (c & -> & Hi & Et & Hk & Hwf' & Hs).
  rewrite part_get_set. split; [|done]. exists c. rewrite Et. done.
Qed.

(** The row that an answer refers to: an iterator of it, or [none] for no row. *)
Definition answers s (answer : Z * option A) (none : Z) : Prop :=
  match answer.2 with
  | Some a => ∃ id, r_rows (part_get _ L s) !! id = Some a ∧
      object_to_iterator (r_cache (part_get _ L s)) !! id = Some answer.1
  | None => answer.1 = none
  end.

Lemma seek_forward_spec s s' lt from tid te ans :
  counted (λ _, 0) s → is_Some (table_cache (r_cache (part_get _ L s)) !! tid) →
  seek_forward L lt from tid te s = (s', Ok ans) →
  reads s s' ∧ answers s' ans te ∧
  ans.2 = match min_row lt from (r_rows (part_get _ L s)) with
          | Some (_, a) => if t_id a =? tid then Some a else None
          | None => None
          end.
Proof.
  intros Hwf Ht H. unfold seek_forward in H. inv_st.
  destruct (min_row lt from _) as [[obj a]|] eqn:E.
  - assert (r_rows (part_get _ L s) !! obj = Some a) as Ha by by eapply min_row_elem.
    destruct (t_id a =? tid) eqn:Et; simpl in H; inv_st.
    + reflect_bools. subst tid. eapply reads_add_object in Hrun as [Hr Hi]; [|done|done|done].
      split; [done|]. split; [|done]. exists obj. destruct (reads_frame _ _ Hr) as (_ & -> & _). done.
    + split; [by apply reads_refl|]. done.
  - inv_st. split; [by apply reads_refl|]. done.
Qed.

Lemma seek_backward_spec s s' lt before tid ans :
  counted (λ _, 0) s → is_Some (table_cache (r_cache (part_get _ L s)) !! tid) →
  seek_backward L lt before tid s = (s', Ok ans) →
  reads s s' ∧ answers s' ans (-1) ∧
  ans.2 = match min_row (λ a b, lt b a) before (r_rows (part_get _ L s)) with
          | Some (_, a) => if t_id a =? tid then Some a else None
          | None => None
          end.
Proof. apply seek_forward_spec. Qed.

(** An answer about the table with a given key, which is -1 when there is no such table. *)
Definition about s s' (code scope table : Z) (ans : Z * option A) (row : Z → option A) : Prop :=
  (∃ tid t te, cs_tables s !! tid = Some t ∧ (ti_code t, ti_scope t, ti_table t) = (code, scope, table) ∧
     table_cache (r_cache (part_get _ L s')) !! tid = Some te ∧ answers s' ans te ∧ ans.2 = row tid) ∨
  ((∀ tid t, cs_tables s !! tid = Some t → (ti_code t, ti_scope t, ti_table t) ≠ (code, scope, table)) ∧
   ans = (-1, None)).

Lemma bound_spec s s' lt from code scope table ans :
  counted (λ _, 0) s → bound L lt from code scope table s = (s', Ok ans) →
  reads s s' ∧
  about s s' code scope table ans (λ tid,
    match min_row lt (from tid) (r_rows (part_get _ L s)) with
    | Some (_, a) => if t_id a =? tid then Some a else None
    | None => None
    end).
Proof.
  intros Hwf H. unfold bound in H. inv_st. apply find_table_ok in Hrun as [-> Ho].
  destruct r as [[tid t]|]; inv_st.
  - destruct Ho as (Ht & <- & <- & <-).
    apply reads_cached_table in Hrun as [Hr1 Hei]; [|done|by eexists].
    destruct (reads_frame _ _ Hr1) as (Et & Er & _). pose proof Hr1 as (c & _ & Hwf1 & _).
    apply seek_forward_spec in H as (Hr2 & Ha & Hans); [|done|by eexists].
    split; [by eapply reads_trans|]. left. rewrite Er in Hans.
    assert (table_cache (r_cache (part_get _ L s')) !! tid = table_cache (r_cache (part_get _ L s0)) !! tid)
      as Etc. { destruct Hr2 as (c2 & -> & _ & _ & _ & Hk). rewrite part_get_set, Hei. by apply Hk. }
    rewrite Hei in Etc. by do 3 eexists.
  - split; [by apply reads_refl|]. right. split; [|done]. intros tid t Ht [= E1 E2 E3]. by apply (Ho tid t Ht).
Qed.

Lemma find_by_primary_spec s s' code scope table id ans :
  counted (λ _, 0) s → find_by_primary L code scope table id s = (s', Ok ans) →
  reads s s' ∧
  about s s' code scope table ans (λ tid,
    snd <$> map_find (λ ia, t_id ia.2 = tid ∧ primary_key ia.2 = id) (r_rows (part_get _ L s))).
Proof.
  intros Hwf H. unfold find_by_primary in H. inv_st. apply find_table_ok in Hrun as [-> Ho].
  destruct r as [[tid t]|]; inv_st.
  - destruct Ho as (Ht & <- & <- & <-).
    apply reads_cached_table in Hrun as [Hr1 Hei]; [|done|by eexists].
    destruct (reads_frame _ _ Hr1) as (Et & Er & _). pose proof Hr1 as (c & _ & Hwf1 & _).
    rewrite Er in H. destruct (map_find _ _) as [[obj a]|] eqn:E; inv_st.
    + apply map_find_Some_1 in E as E'. destruct E' as (Ha & Etid & _). simpl in Etid. subst tid.
      eapply reads_add_object in Hrun as [Hr2 Hi]; [|done|by rewrite Er|by eexists].
      split; [by eapply reads_trans|]. left.
      destruct (reads_frame _ _ Hr2) as (_ & Er2 & _).
      destruct Hr2 as (c2 & -> & _ & _ & _ & Hk). rewrite part_get_set in *. apply Hk in Hei.
      exists (t_id a), t. eexists. rewrite E. split_and!; try done.
      exists obj. rewrite part_get_set. by rewrite Er2, Er.
    + split; [done|]. left. exists tid, t. eexists. by rewrite E.
  - split; [by apply reads_refl|]. right. split; [|done]. intros tid t Ht [= E1 E2 E3]. by apply (Ho tid t Ht).
Qed.

Lemma end_iterator_spec s s' code scope table i :
  counted (λ _, 0) s → end_iterator L code scope table s = (s', Ok i) →
  reads s s' ∧ about s s' code scope table (i, None) (λ _, None).
Proof.
  intros Hwf H. unfold end_iterator in H. inv_st. apply find_table_ok in Hrun as [-> Ho].
  destruct r as [[tid t]|]; inv_st.
  - destruct Ho as (Ht & <- & <- & <-).
    apply reads_cached_table in H as [Hr1 Hei]; [|done|by eexists].
    split; [done|]. left. by exists tid, t, i.
  - split; [by apply reads_refl|]. right. split; [|done]. intros tid t Ht [= E1 E2 E3]. by apply (Ho tid t Ht).
Qed.

(** The table of the row of an iterator is cached. *)
Lemma object_table dc s id a iterator :
  counted dc s → object_to_iterator (r_cache (part_get _ L s)) !! id = Some iterator →
  r_rows (part_get _ L s) !! id = Some a →
  is_Some (table_cache (r_cache (part_get _ L s)) !! t_id a) ∧ is_Some (cs_tables s !! t_id a).
Proof.
  intros Hwf Ho Ha. pose proof (part_wf _ _ _ (ct_parts _ _ Hwf)) as [].
  destruct (ca_alive _ _ _ rw_cache0 _ _ Ho) as (a' & Ha' & Hc). split; [by simplify_eq|eauto].
Qed.

Lemma next_row_spec s s' lt iterator ans :
  counted (λ _, 0) s → next_row L lt iterator s = (s', Ok ans) →
  (iterator < -1 ∧ ans = (-1, None) ∧ s' = s) ∨
  (reads s s' ∧ ∃ id a te, r_rows (part_get _ L s) !! id = Some a ∧
     object_to_iterator (r_cache (part_get _ L s)) !! id = Some iterator ∧
     table_cache (r_cache (part_get _ L s')) !! t_id a = Some te ∧ answers s' ans te ∧
     ans.2 = match min_row lt (lt a) (r_rows (part_get _ L s)) with
             | Some (_, b) => if t_id b =? t_id a then Some b else None
             | None => None
             end).
Proof.
  intros Hwf H. unfold next_row in H. destruct (iterator <? -1) eqn:Ei; reflect_bools.
  { inv_st. by left. }
  right. inv_st. destruct r as [id a]. inv_st.
  apply (get_object_ok L bytes _ _ _ _ _ _ Hwf) in Hrun as (-> & Ha & Ho).
  destruct (object_table _ _ _ _ _ Hwf Ho Ha) as [[te Hte] _].
  destruct (min_row lt (lt a) _) as [[obj b]|] eqn:E.
  - destruct (t_id b =? t_id a) eqn:Et; simpl in H; inv_st; reflect_bools.
    + eapply reads_add_object in Hrun as [Hr Hi]; [|done|by eapply min_row_elem|by rewrite Et; eexists].
      split; [done|]. exists id, a, te. rewrite E. simpl. rewrite (proj2 (Z.eqb_eq _ _) Et).
      destruct (reads_frame _ _ Hr) as (_ & Er & _).
      split_and!; try done.
      * destruct Hr as (c2 & -> & _ & _ & _ & Hk). rewrite part_get_set. by apply Hk.
      * exists obj. rewrite Er. split; [by eapply min_row_elem|done].
    + split; [by apply reads_refl|]. exists id, a, te. rewrite E, (proj2 (Z.eqb_neq _ _) Et).
      split_and!; try done. unfold answers, get_end_iterator_by_table_id in *. simpl. inv_st. congruence.
  - inv_st. split; [by apply reads_refl|]. exists id, a, te. rewrite E.
    split_and!; try done. unfold answers, get_end_iterator_by_table_id in *. simpl. inv_st. congruence.
Qed.

Lemma previous_row_spec s s' lt iterator ans :
  counted (λ _, 0) s → previous_row L lt iterator s = (s', Ok ans) →
  reads s s' ∧ answers s' ans (-1) ∧ ∃ before tid,
  ans.2 = match min_row (λ a b, lt b a) before (r_rows (part_get _ L s)) with
          | Some (_, b) => if t_id b =? tid then Some b else None
          | None => None
          end ∧ is_Some (cs_tables s !! tid) ∧
  ((iterator < -1 ∧ before = (λ a, t_id a <=? tid) ∧
    table_cache (r_cache (part_get _ L s)) !! tid = Some iterator) ∨
   (∃ id a, r_rows (part_get _ L s) !! id = Some a ∧
     object_to_iterator (r_cache (part_get _ L s)) !! id = Some iterator ∧
     before = (λ b, lt b a) ∧ tid = t_id a)).
Proof.
  intros Hwf H. pose proof (part_wf _ _ _ (ct_parts _ _ Hwf)) as Hr.
  unfold previous_row in H. destruct (iterator <? -1) eqn:Ei; reflect_bools.
  - unfold deref_table, find_table_by_end_iterator in H. inv_st. subst. inv_ok. reflect_bools.
    destruct (_ <=? _) in H2; [discriminate H2|]. injection H2 as Htab.
    assert (table_cache (r_cache (part_get _ L s)) !! r1 = Some iterator) as Hc.
    { apply (ca_tables _ _ _ (rw_cache _ _ _ Hr)). eexists. split; [exact Htab|].
      unfold end_iterator_to_index, index_to_end_iterator. lia. }
    apply seek_backward_spec in H as (? & ? & ?); [|done|by eexists].
    split; [done|]. split; [done|]. eexists _, r1. split; [done|]. split; [by eexists|]. by left.
  - inv_st. destruct r as [id a].
    apply (get_object_ok L bytes _ _ _ _ _ _ Hwf) in Hrun as (-> & Ha & Ho).
    destruct (object_table _ _ _ _ _ Hwf Ho Ha) as [Hte Htab].
    apply seek_backward_spec in H as (? & ? & ?); [|done|done].
    split; [done|]. split; [done|]. eexists _, (t_id a). split; [done|]. split; [done|].
    right. by exists id, a.
Qed.
End reading.

(** *** The operations *)

(** The key of a table; tables are compared by their keys. *)
Definition tkey (t : table_id_object) : Z * Z * Z := (ti_code t, ti_scope t, ti_table t).
Definition room s : Prop := ∀ tid, total_rows s tid + 1 < 2 ^ 32.
Definition kept s s' : Prop := contract_wf s' ∧ ∀ b, surplus s' b = surplus s b.

Section operations.
Context {A : Type} {RA : Row A} (L : part A) (bytes : A → Z) {PL : PartLaws L bytes}.

Lemma reads_kept s s' : contract_wf s → reads L s s' → kept s s'.
Proof.
  intros Hwf Hr. split; [by eapply (reads_frame L bytes)|]. by destruct Hr as (c & _ & _ & ? & _).
Qed.

Lemma store_spec s s1 s' env code scope table tid t a iterator :
  contract_wf s → room s →
  find_or_create_table env code scope table (row_payer a) s = (s1, Ok (tid, t)) →
  t_id a = tid → 0 <= bytes a < 2 ^ 33 →
  insert_row L env tid (row_payer a) a (bytes a) s1 = (s', Ok iterator) →
  kept s s' ∧
  (∀ i, tkey <$> cs_tables s' !! i = if decide (i = tid) then Some (code, scope, table)
                                     else tkey <$> cs_tables s !! i) ∧
  (tkey <$> cs_tables s !! tid = Some (code, scope, table) ∨
   cs_tables s !! tid = None ∧ ∀ i, tkey <$> cs_tables s !! i ≠ Some (code, scope, table)) ∧
  part_get _ L s1 = part_get _ L s ∧
  (∀ id b, r_rows (part_get _ L s) !! id = Some b → ¬ (t_id b = tid ∧ primary_key b = primary_key a)) ∧
  r_rows (part_get _ L s') = <[r_next (part_get _ L s) := a]> (r_rows (part_get _ L s)) ∧
  object_to_iterator (r_cache (part_get _ L s')) !! r_next (part_get _ L s) = Some iterator ∧
  (∀ o j, object_to_iterator (r_cache (part_get _ L s)) !! o = Some j →
          object_to_iterator (r_cache (part_get _ L s')) !! o = Some j).
Proof.
  intros Hwf Hroom H1 Hat Hb H2.
  destruct (find_or_create_spec _ _ _ _ _ _ _ _ _ Hwf H1)
    as (Hwf1 & Ht & Hc & Hsc & Hta & Hcnt & Ekv & Eix & Htabs & Hs1).
  assert (part_get _ L s1 = part_get _ L s) as Eg by by apply part_ext.
  assert (total_rows s1 tid = total_rows s tid) as Etot.
  { unfold total_rows, sum_kinds. by rewrite Ekv, !Eix. }
  assert (ti_count t + 1 < 2 ^ 32) as Hlt.
  { pose proof (ct_count _ _ Hwf1 _ _ Ht) as Hct. cbv beta in Hct. specialize (Hroom tid). lia. }
  apply (insert_row_spec L bytes s1 s' env tid t a iterator Hwf1 Ht) in H2
    as (Hnew & Hwf2 & Hs2 & Et2 & Er2 & Hi & Hk); [|lia|done|done|done].
  rewrite Eg in *. split_and!; try done.
  - split; [|intros b; by rewrite Hs2, Hs1]. split; [done|]. rewrite Et2.
    intros i u [[<- <-]|[Hne Hu]]%lookup_insert_Some; [simpl; lia|].
    destruct Hwf as [_ Hpos]. destruct Htabs as [E|(_ & _ & E & _)].
    + rewrite E in Hu. eauto.
    + rewrite E, lookup_insert_ne in Hu by done. eauto.
  - intros i. rewrite Et2. destruct (decide (i = tid)) as [->|Hne].
    + rewrite lookup_insert_eq. simpl. unfold tkey. simpl. by rewrite Hc, Hsc, Hta.
    + rewrite lookup_insert_ne by done. destruct Htabs as [->|(_ & _ & -> & _)]; [done|].
      by rewrite lookup_insert_ne.
  - destruct Htabs as [E|(Hfree & _ & _ & Hno)].
    + left. rewrite <-E, Ht. simpl. unfold tkey. by rewrite Hc, Hsc, Hta.
    + right. split; [done|]. intros i Hi'. apply fmap_Some in Hi' as (u & Hu & E). apply (Hno _ _ Hu).
      unfold tkey in E. by simplify_eq.
Qed.

Lemma update_spec s s' env iterator (f : A → A) u :
  contract_wf s → (∀ a, t_id (f a) = t_id a ∧ primary_key (f a) = primary_key a) →
  (∀ a, 0 <= bytes (f a) < 2 ^ 33) →
  ('(id, obj) ← get_object L iterator;
   _ ← own_table L env obj;
   _ ← rebill env (row_payer obj) (row_payer (f obj)) (bytes obj) (bytes (f obj));
   modify_row L id (f obj)) s = (s', Ok u) →
  kept s s' ∧ cs_tables s' = cs_tables s ∧
  ∃ id a t, r_rows (part_get _ L s) !! id = Some a ∧
    object_to_iterator (r_cache (part_get _ L s)) !! id = Some iterator ∧
    cs_tables s !! t_id a = Some t ∧ ti_code t = env_receiver env ∧
    part_get _ L s' = with_rows (part_get _ L s) (<[id := f a]> (r_rows (part_get _ L s))).
Proof.
  intros [Hwf Hpos] Hf Hb H. inv_st. destruct r as [id a]. inv_st.
  match goal with _ : modify_row _ _ _ ?x = _ |- _ => rename x into sm end.
  apply (get_object_ok L bytes _ _ _ _ _ _ Hwf) in Hrun as (-> & Ha & Ho).
  apply own_table_ok in Hrun0 as (-> & -> & t & Ht & Hcode).
  pose proof (part_small s id a (ct_values _ _ Hwf) Ha).
  apply (rebill_spec _ _ _ _ _ _ _ _ _ Hwf) in Hrun1 as (Hwf1 & E1 & Hs1); [|done|done].
  assert (part_get _ L sm = part_get _ L s) as Eg
    by (rewrite E1; apply (part_get_frame s ∅ 0 _)).
  destruct (Hf a) as [Hf1 Hf2]. rewrite <-Eg in Ha.
  apply (modify_row_spec L bytes _ _ _ _ _ _ _ Hwf1 Ha Hf1 Hf2) in H as (-> & Hwf2 & Hs2); [|by apply Hb].
  destruct (part_frame sm (with_rows (part_get _ L sm) (<[id := f a]> (r_rows (part_get _ L sm)))))
    as (_ & Et & _).
  assert (cs_tables sm = cs_tables s) as Et0 by by rewrite E1.
  split; [|split; [by rewrite Et, Et0|]].
  - split; [|intros b; rewrite Hs2, Hs1; repeat case_decide; lia].
    eapply wf_same_tables; [split; [exact Hwf|exact Hpos]|done|by rewrite Et, Et0].
  - exists id, a, t. rewrite Eg in Ha. by rewrite part_get_set, Eg.
Qed.

(** The refund of a row, and then its removal. *)
Lemma remove_spec s s1 s' env iterator id a t u :
  contract_wf s → s1 = set_apply s (cs_apply s1) → counted (λ _, 0) s1 →
  (∀ b, surplus s1 b = surplus s b + if decide (b = row_payer a) then - bytes a else 0) →
  r_rows (part_get _ L s) !! id = Some a →
  object_to_iterator (r_cache (part_get _ L s)) !! id = Some iterator →
  cs_tables s !! t_id a = Some t →
  drop_row L env (t_id a) id iterator s1 = (s', Ok u) →
  kept s s' ∧
  (∀ i, tkey <$> cs_tables s' !! i =
        if decide (i = t_id a ∧ ti_count t = 1) then None else tkey <$> cs_tables s !! i) ∧
  (∃ c, cache_remove (r_cache (part_get _ L s)) iterator = Ok c ∧
        part_get _ L s' = Rows (delete id (r_rows (part_get _ L s))) (r_next (part_get _ L s)) c).
Proof.
  intros [Hwf Hpos] E1 Hwf1 Hs1 Ha Ho Ht H.
  assert (part_get _ L s1 = part_get _ L s) as Eg
    by (rewrite E1; apply (part_get_frame s ∅ 0 _)).
  assert (cs_tables s1 = cs_tables s) as Et1 by by rewrite E1.
  specialize (Hpos _ _ Ht) as Hp.
  apply (drop_row_spec L bytes env s1 s' id a iterator t) in H as (Hwf2 & Hs2 & Et2 & Hc);
    [|done|by rewrite Et1|done|by rewrite Eg|by rewrite Eg].
  rewrite Et1 in Et2. rewrite Eg in Hc. split; [|split; [|done]].
  - split; [|intros b; rewrite Hs2, Hs1; repeat case_decide; lia]. split; [done|]. rewrite Et2.
    case_decide.
    + intros i v [_ Hv]%lookup_delete_Some. eauto.
    + intros i v [[<- <-]|[_ Hv]]%lookup_insert_Some; [simpl; lia|eauto].
  - intros i. rewrite Et2. destruct (decide (ti_count t = 1)) as [E|E].
    + destruct (decide (i = t_id a)) as [->|].
      * rewrite lookup_delete_eq, decide_True by done. done.
      * rewrite lookup_delete_ne, decide_False by naive_solver. done.
    + rewrite decide_False by naive_solver. destruct (decide (i = t_id a)) as [->|].
      * by rewrite lookup_insert_eq, Ht.
      * by rewrite lookup_insert_ne.
Qed.
End operations.

(** A step of the contract tables: a successful call in which at most one row is added, with values
    from the memory of a contract. *)
Definition small_call (c : kv_call) : Prop :=
  match c with
  | Store _ _ _ _ buffer | Update _ _ buffer => Z.of_nat (length buffer) < 2 ^ 32
  | _ => True
  end.

Inductive db_step : contract_state → contract_state → Prop :=
| step_kv env c s s' r :
    room s → small_call c → kv_run env c s = (s', Ok r) → db_step s s'
| step_idx env k c s s' r : room s → idx_run k env c s = (s', Ok r) → db_step s s'.

Lemma st_map_ok {A B} (f : A → B) (m : ctx A) s s' b :
  st_map f m s = (s', Ok b) → ∃ a, m s = (s', Ok a) ∧ b = f a.
Proof. unfold st_map. intros H. inv_st. eauto. Qed.

Lemma kv_bytes_range (v : list Z) : Z.of_nat (length v) < 2 ^ 32 → 0 <= Z.of_nat (length v) + key_value_size < 2 ^ 33.
Proof. change key_value_size with 112. lia. Qed.

Lemma index_size_range k : 0 <= index_size k < 2 ^ 33.
Proof. by destruct k. Qed.

Lemma db_store_kept env code scope table payer id buffer s s' i :
  contract_wf s → room s → Z.of_nat (length buffer) < 2 ^ 32 →
  db_store_i64 env code scope table payer id buffer s = (s', Ok i) → kept s s'.
Proof.
  intros Hwf Hroom Hb H. unfold db_store_i64 in H. inv_st. destruct r as [tid t]. inv_st.
  by destruct (store_spec (RA:=key_value_row) kv_part kv_bytes s _ s' env code scope table tid t (KeyValue tid id payer buffer)
    i Hwf Hroom Hrun eq_refl (kv_bytes_range _ Hb) H).
Qed.

Lemma db_update_kept env itr payer buffer s s' u :
  contract_wf s → Z.of_nat (length buffer) < 2 ^ 32 →
  db_update_i64 env itr payer buffer s = (s', Ok u) → kept s s'.
Proof.
  intros Hwf Hb H.
  by destruct (update_spec (RA:=key_value_row) kv_part kv_bytes s s' env itr
    (λ obj, KeyValue (kv_t_id obj) (kv_primary_key obj) (if payer =? 0 then kv_payer obj else payer) buffer)
    u Hwf (λ _, conj eq_refl eq_refl) (λ _, kv_bytes_range _ Hb) H).
Qed.

Lemma db_remove_kept env itr s s' u :
  contract_wf s → db_remove_i64 env itr s = (s', Ok u) → kept s s'.
Proof.
  intros Hwf H. unfold db_remove_i64 in H. inv_st. destruct r as [id a]. inv_st.
  destruct Hwf as [Hwf Hpos].
  apply (get_object_ok kv_part kv_bytes _ _ _ _ _ _ Hwf) in Hrun as (-> & Ha & Ho).
  apply own_table_ok in Hrun0 as (-> & -> & t & Ht & _).
  pose proof (part_small s id a (ct_values _ _ Hwf) Ha).
  apply (in_apply_usage _ _ _ _ _ _ _ Hwf) in Hrun1 as (Hwf1 & E1 & Hs1).
  2: { unfold kv_bytes, in_i64 in *. lia. }
  by destruct (remove_spec (RA:=key_value_row) kv_part kv_bytes s _ s' env itr id a t u
    (conj Hwf Hpos) E1 Hwf1 Hs1 Ha Ho Ht H).
Qed.

Lemma idx_store_kept k env scope table payer id x s s' i :
  contract_wf s → room s → idx_store k env scope table payer id x s = (s', Ok i) → kept s s'.
Proof.
  intros Hwf Hroom H. unfold idx_store in H. inv_st. destruct r0 as [tid t].
  by destruct (store_spec (RA:=index_row) (index_part k) (λ _, index_size k) s _ s' env (env_receiver env)
    scope table tid t (IndexObject tid id payer x) i Hwf Hroom Hrun0 eq_refl (index_size_range k) H).
Qed.

Lemma idx_update_kept k env itr payer x s s' u :
  contract_wf s → idx_update k env itr payer x s = (s', Ok u) → kept s s'.
Proof.
  intros Hwf H.
  by destruct (update_spec (RA:=index_row) (index_part k) (λ _, index_size k) s s' env itr
    (λ obj, IndexObject (ix_t_id obj) (ix_primary_key obj) (if payer =? 0 then ix_payer obj else payer) x)
    u Hwf (λ _, conj eq_refl eq_refl) (λ _, index_size_range k) H).
Qed.

Lemma idx_remove_kept k env itr s s' u :
  contract_wf s → idx_remove k env itr s = (s', Ok u) → kept s s'.
Proof.
  intros Hwf H. unfold idx_remove in H. inv_st. destruct r as [id a]. inv_st.
  destruct Hwf as [Hwf Hpos].
  apply (get_object_ok (index_part k) (λ _, index_size k) _ _ _ _ _ _ Hwf) in Hrun as (-> & Ha & Ho).
  apply (in_apply_usage _ _ _ _ _ _ _ Hwf) in Hrun0 as (Hwf1 & E1 & Hs1).
  2: { pose proof (index_size_range k). unfold in_i64. lia. }
  apply own_table_ok in Hrun1 as (-> & -> & t & Ht & _).
  match goal with _ : drop_row _ _ _ _ _ ?x = _ |- _ => rename x into sm end.
  assert (cs_tables sm = cs_tables s) as Et by by rewrite E1. rewrite Et in Ht.
  by destruct (remove_spec (RA:=index_row) (index_part k) (λ _, index_size k) s _ s' env itr id a t u
    (conj Hwf Hpos) E1 Hwf1 Hs1 Ha Ho Ht H).
Qed.

Lemma find_secondary_kept k code scope table x s s' r :
  contract_wf s → find_secondary k code scope table x s = (s', Ok r) → kept s s'.
Proof.
  intros Hwf H. unfold find_secondary in H. inv_st. apply find_table_ok in Hrun as [-> Ho].
  destruct r0 as [[tid t]|]; inv_st; [|by split]. destruct Ho as (Ht & _).
  apply (reads_cached_table (index_part k) (λ _, index_size k)) in Hrun as [Hr Hei];
    [|apply Hwf|by eexists].
  destruct (reads_kept _ _ _ _ Hwf Hr) as [Hwf1 Hs1].
  destruct (min_row _ _ _) as [[id a]|] eqn:E; [|by inv_st].
  destruct (_ =? tid) eqn:Et; simpl in H; [destruct (secondary_key_lt _ _ _); simpl in H|]; inv_st; try done.
  reflect_bools. subst tid. apply min_row_elem in E as [Ha _].
  eapply (reads_add_object (index_part k) (λ _, index_size k)) in Hrun as [Hr2 _];
    [|apply Hwf1|exact Ha|by eexists].
  destruct (reads_kept _ _ _ _ Hwf1 Hr2) as [Hwf2 Hs2]. split; [done|]. intros b. by rewrite Hs2, Hs1.
Qed.

(** Reading calls. *)
Section reading_kept.
Context {A : Type} {RA : Row A} (L : part A) (bytes : A → Z) {PL : PartLaws L bytes}.

Lemma bound_kept lt from code scope table s s' r :
  contract_wf s → bound L lt from code scope table s = (s', Ok r) → kept s s'.
Proof. intros Hwf [Hr _]%(bound_spec L bytes); [by apply (reads_kept L bytes)|apply Hwf]. Qed.
Lemma find_by_primary_kept code scope table id s s' r :
  contract_wf s → find_by_primary L code scope table id s = (s', Ok r) → kept s s'.
Proof. intros Hwf [Hr _]%(find_by_primary_spec L bytes); [by apply (reads_kept L bytes)|apply Hwf]. Qed.
Lemma end_iterator_kept code scope table s s' r :
  contract_wf s → end_iterator L code scope table s = (s', Ok r) → kept s s'.
Proof. intros Hwf [Hr _]%(end_iterator_spec L bytes); [by apply (reads_kept L bytes)|apply Hwf]. Qed.
Lemma next_row_kept lt itr s s' r : contract_wf s → next_row L lt itr s = (s', Ok r) → kept s s'.
Proof.
  intros Hwf [(_ & _ & ->)|[Hr _]]%(next_row_spec L bytes); [by split|by apply (reads_kept L bytes)|apply Hwf].
Qed.
Lemma previous_row_kept lt itr s s' r : contract_wf s → previous_row L lt itr s = (s', Ok r) → kept s s'.
Proof. intros Hwf [Hr _]%(previous_row_spec L bytes); [by apply (reads_kept L bytes)|apply Hwf]. Qed.
End reading_kept.

Lemma kv_run_kept env c s s' r :
  contract_wf s → room s → small_call c → kv_run env c s = (s', Ok r) → kept s s'.
Proof.
  intros Hwf Hroom Hc H.
  destruct c; apply st_map_ok in H as (x & H & _);
    unfold db_find_i64, db_lowerbound_i64, db_upperbound_i64, db_next_i64, db_previous_i64, db_end_i64,
      db_get_i64 in H; inv_st;
    try match goal with r : _ * _ |- _ => destruct r; inv_st end.
  - by eapply db_store_kept.
  - by eapply db_update_kept.
  - by eapply db_remove_kept.
  - eapply (get_object_ok kv_part kv_bytes) in Hrun as (-> & _); [|apply Hwf].
    destruct (_ =? 0) in H; inv_st; by split.
  - by eapply (next_row_kept kv_part kv_bytes).
  - by eapply (previous_row_kept kv_part kv_bytes).
  - by eapply (find_by_primary_kept kv_part kv_bytes).
  - by eapply (bound_kept kv_part kv_bytes).
  - by eapply (bound_kept kv_part kv_bytes).
  - by eapply (end_iterator_kept kv_part kv_bytes).
Qed.

Lemma idx_run_kept k env c s s' r :
  contract_wf s → room s → idx_run k env c s = (s', Ok r) → kept s s'.
Proof.
  intros Hwf Hroom H.
  destruct c; unfold idx_run in H; inv_st; apply st_map_ok in H as (x & H & _);
    unfold find_primary, lowerbound_secondary, upperbound_secondary, next_secondary, previous_secondary,
      end_secondary in H; inv_st;
    try match goal with r : _ * option index_object |- _ => destruct r; inv_st end.
  - by eapply idx_store_kept.
  - by eapply idx_update_kept.
  - by eapply idx_remove_kept.
  - by eapply find_secondary_kept.
  - by eapply (find_by_primary_kept (index_part k) (λ _, index_size k)).
  - by eapply (bound_kept (index_part k) (λ _, index_size k)).
  - by eapply (bound_kept (index_part k) (λ _, index_size k)).
  - by eapply (end_iterator_kept (index_part k) (λ _, index_size k)).
  - by eapply (next_row_kept (index_part k) (λ _, index_size k)).
  - by eapply (previous_row_kept (index_part k) (λ _, index_size k)).
Qed.

(** C20: Along every sequence of calls of a contract on its tables, primary and secondary, the row
    counts of the tables are exact and positive, keys are unique, every row has its table, iterators
    refer to existing rows, and the RAM billed to each account changes by exactly the bytes of the
    tables and rows that it pays for. *)
Theorem contract_db_invariant s s' :
  contract_wf s → rtc db_step s s' →
  contract_wf s' ∧ ∀ b, ram_of (st_db (cs_apply s')) b - rows_bytes s' b - tables_bytes s' b =
                        ram_of (st_db (cs_apply s)) b - rows_bytes s b - tables_bytes s b.
Proof.
  intros Hwf H. induction H as [s|s s1 s' Hs _ IH]; [done|].
  assert (kept s s1) as [Hwf1 Hs1].
  { destruct Hs as [env c s s1 r ? ? Hr|env k c s s1 r ? Hr];
      [by eapply kv_run_kept|by eapply idx_run_kept]. }
  destruct (IH Hwf1) as [? Hs']. split; [done|]. intros b. rewrite Hs'. apply Hs1.
Qed.

(** ** Refinement: the primary index as a finite map *)
(** The abstract contents: payer and value of the rows, by code, scope, table and primary key. *)
Abbreviation kv_map := (gmap (Z * Z * Z * Z) (Z * list Z)).

Definition stored s (key : Z * Z * Z) (p id : Z) (a : key_value_object) : Prop :=
  r_rows (cs_kv s) !! id = Some a ∧ tkey <$> cs_tables s !! kv_t_id a = Some key ∧ kv_primary_key a = p.
Definition represents s (m : kv_map) : Prop :=
  ∀ key p v, m !! (key, p) = Some v ↔ ∃ id a, stored s key p id a ∧ v = (kv_payer a, kv_value a).

(** What an iterator denotes: a row, or the end of a table. *)
Definition row_iterator s (i : Z) (key : Z * Z * Z) (p : Z) : Prop :=
  ∃ id a, stored s key p id a ∧ object_to_iterator (r_cache (cs_kv s)) !! id = Some i.
Definition end_of s (i : Z) (key : Z * Z * Z) : Prop :=
  ∃ tid, tkey <$> cs_tables s !! tid = Some key ∧ table_cache (r_cache (cs_kv s)) !! tid = Some i.
(** -1 stands for a table without rows. *)
Definition position s (m : kv_map) (i : Z) (key : Z * Z * Z) (o : option Z) : Prop :=
  match o with
  | Some p => row_iterator s i key p
  | None => end_of s i key ∨ (i = -1 ∧ ∀ p, m !! (key, p) = None)
  end.

(** The first key of a table with [P], in the order [le]. *)
Definition first_key (le : Z → Z → Prop) (m : kv_map) (key : Z * Z * Z) (P : Z → Prop) (o : option Z) : Prop :=
  match o with
  | Some p => is_Some (m !! (key, p)) ∧ P p ∧ ∀ q, is_Some (m !! (key, q)) → P q → le p q
  | None => ∀ q, is_Some (m !! (key, q)) → ¬ P q
  end.

(** What each call does, in terms of the map. *)
Definition kv_spec (env : apply_env) s (m : kv_map) (c : kv_call) s' (m' : kv_map) (ans : answer) : Prop :=
  match c, ans with
  | Store scope table payer id buffer, Number i =>
      let key := (env_receiver env, scope, table) in
      payer ≠ 0 ∧ m !! (key, id) = None ∧ m' = <[(key, id) := (payer, buffer)]> m ∧ row_iterator s' i key id
  | Update itr payer buffer, NoAnswer => ∃ scope table p v,
      let key := (env_receiver env, scope, table) in
      row_iterator s itr key p ∧ m !! (key, p) = Some v ∧
      m' = <[(key, p) := (if payer =? 0 then v.1 else payer, buffer)]> m
  | Remove itr, NoAnswer => ∃ scope table p,
      let key := (env_receiver env, scope, table) in
      row_iterator s itr key p ∧ m' = delete (key, p) m
  | Get itr size, Bytes n l => m' = m ∧ ∃ key p v,
      row_iterator s itr key p ∧ m !! (key, p) = Some v ∧
      n = (if size =? 0 then Z.of_nat (length v.2) else Z.min size (Z.of_nat (length v.2))) ∧
      l = if size =? 0 then [] else take (Z.to_nat n) v.2
  | Next itr, Keyed i o => m' = m ∧
      ((itr < -1 ∧ i = -1 ∧ o = None) ∨
       ∃ key p, row_iterator s itr key p ∧ first_key Z.le m key (λ q, p < q) o ∧
         match o with Some q => row_iterator s' i key q | None => end_of s' i key end)
  | Previous itr, Keyed i o => m' = m ∧ ∃ key P,
      (end_of s itr key ∧ P = (λ _, True) ∨ ∃ p, row_iterator s itr key p ∧ P = (λ q, q < p)) ∧
      first_key Z.ge m key P o ∧
      match o with Some q => row_iterator s' i key q | None => i = -1 end
  | Find code scope table id, Number i => m' = m ∧
      let key := (code, scope, table) in
      position s' m i key ((λ _, id) <$> m !! (key, id))
  | LowerBound code scope table id, Number i => m' = m ∧
      ∃ o, first_key Z.le m (code, scope, table) (λ q, id <= q) o ∧ position s' m i (code, scope, table) o
  | UpperBound code scope table id, Number i => m' = m ∧
      ∃ o, first_key Z.le m (code, scope, table) (λ q, id < q) o ∧ position s' m i (code, scope, table) o
  | EndOf code scope table, Number i => m' = m ∧ position s' m i (code, scope, table) None
  | _, _ => False
  end.

(** Iterators go on denoting the rows that remain. *)
Definition iterators_kept s s' (m' : kv_map) : Prop :=
  ∀ i key p, row_iterator s i key p → is_Some (m' !! (key, p)) → row_iterator s' i key p.

Section refinement.
Implicit Types (m : kv_map) (key : Z * Z * Z).

Lemma stored_tables s tid tid' key :
  counted (λ _, 0) s → tkey <$> cs_tables s !! tid = Some key → tkey <$> cs_tables s !! tid' = Some key →
  tid = tid'.
Proof.
  intros Hwf (t & Ht & E)%fmap_Some (t' & Ht' & E')%fmap_Some. unfold tkey in *. simplify_eq.
  by eapply (ct_unique _ _ Hwf).
Qed.

Lemma stored_unique s key p id id' a a' :
  counted (λ _, 0) s → stored s key p id a → stored s key p id' a' → id = id' ∧ a = a'.
Proof.
  intros Hwf (Ha & Ht & Hp) (Ha' & Ht' & Hp').
  pose proof (stored_tables _ _ _ _ Hwf Ht Ht') as E.
  destruct (ct_parts _ _ Hwf) as [Hr _]. assert (id = id') as ->; [|by simplify_eq].
  eapply (rw_unique _ _ _ Hr); [exact Ha|exact Ha'|done|by simpl; congruence].
Qed.

Lemma represents_stored s m key p id a :
  represents s m → stored s key p id a → m !! (key, p) = Some (kv_payer a, kv_value a).
Proof. intros Hm Hs. apply Hm. eauto. Qed.

Lemma represents_is_Some s m key p :
  represents s m → is_Some (m !! (key, p)) ↔ ∃ id a, stored s key p id a.
Proof.
  intros Hm. split.
  - intros [v (id & a & ? & _)%Hm]. eauto.
  - intros (id & a & Hs). eexists. by eapply represents_stored.
Qed.

(** Reading changes neither the map nor what iterators denote. *)
Lemma reads_stored s s' key p id a : reads kv_part s s' → stored s' key p id a ↔ stored s key p id a.
Proof.
  intros Hr. destruct (reads_frame (RA:=key_value_row) kv_part kv_bytes _ _ Hr) as (Et & Er & _).
  unfold stored. by rewrite Et, (Er : r_rows (cs_kv s') = r_rows (cs_kv s)).
Qed.

Lemma reads_refines s s' m :
  reads kv_part s s' → represents s m → represents s' m ∧ iterators_kept s s' m.
Proof.
  intros Hr Hm. split.
  - intros key p v. rewrite (Hm key p v). by setoid_rewrite (reads_stored s s' _ _ _ _ Hr).
  - intros i key p (id & a & Hs & Ho) _. exists id, a. rewrite (reads_stored _ _ _ _ _ _ Hr). split; [done|].
    destruct Hr as (c & -> & _ & _ & Hk & _). by apply Hk.
Qed.

(** The least row at or after a position is the first key of its table there. *)
Lemma first_row_key (sg : Z) (le : Z → Z → Prop) (row_lt : key_value_object → key_value_object → bool)
    s m tid key from P :
  counted (λ _, 0) s → represents s m → tkey <$> cs_tables s !! tid = Some key →
  (sg = 1 ∨ sg = -1) → (∀ x y, sg * x <= sg * y → le x y) →
  (∀ a b, row_lt a b = true ↔ sg * kv_t_id a < sg * kv_t_id b ∨
     (kv_t_id a = kv_t_id b ∧ sg * kv_primary_key a < sg * kv_primary_key b)) →
  (∀ a, from a = true ↔ sg * tid < sg * kv_t_id a ∨ (kv_t_id a = tid ∧ P (kv_primary_key a))) →
  first_key le m key P (primary_key <$>
    match min_row row_lt from (r_rows (cs_kv s)) with
    | Some (_, a) => if t_id a =? tid then Some a else None
    | None => None
    end).
Proof.
  intros Hwf Hm Ht Hsg Hle Hlt Hfrom.
  assert (∀ a b, row_lt a b = false ↔ ¬ (sg * kv_t_id a < sg * kv_t_id b ∨
     (kv_t_id a = kv_t_id b ∧ sg * kv_primary_key a < sg * kv_primary_key b))) as Hnlt.
  { intros a b. by rewrite <-Hlt, not_true_iff_false. }
  assert (∀ q, is_Some (m !! (key, q)) → P q → ∃ id a, r_rows (cs_kv s) !! id = Some a ∧
    kv_t_id a = tid ∧ kv_primary_key a = q ∧ from a = true) as Hrows.
  { intros q (id & a & Ha & Hta & Hq)%(represents_is_Some _ _ _ _ Hm) HP.
    pose proof (stored_tables _ _ _ _ Hwf Hta Ht) as E. exists id, a. rewrite Hfrom. subst. naive_solver. }
  destruct (min_row _ _ _) as [[id a]|] eqn:E; simpl.
  - apply min_row_Some in E as (Ha & Hf & Hmin).
    2: { intros x. apply Hnlt. lia. }
    2: { intros x y z. rewrite !Hlt. lia. }
    2: { intros x y z. rewrite !Hnlt. lia. }
    setoid_rewrite Hnlt in Hmin. apply Hfrom in Hf. destruct (kv_t_id a =? tid) eqn:Et; reflect_bools; simpl.
    + split; [|split].
      * apply (represents_is_Some _ _ _ _ Hm). exists id, a. unfold stored. by rewrite Et.
      * destruct Hf as [Hf|[_ Hf]]; [lia|done].
      * intros q Hq HP. destruct (Hrows q Hq HP) as (id' & a' & Ha' & Ht' & Hq' & Hf').
        specialize (Hmin _ _ Ha' Hf'). apply Hle. simpl. subst. lia.
    + intros q Hq HP. destruct (Hrows q Hq HP) as (id' & a' & Ha' & Ht' & Hq' & Hf').
      specialize (Hmin _ _ Ha' Hf'). subst. naive_solver.
  - intros q Hq HP. destruct (Hrows q Hq HP) as (id' & a' & Ha' & _ & _ & Hf').
    rewrite min_row_None in E. rewrite (E _ _ Ha') in Hf'. done.
Qed.

Lemma primary_lt_true (a b : key_value_object) :
  primary_lt a b = true ↔ kv_t_id a < kv_t_id b ∨ (kv_t_id a = kv_t_id b ∧ kv_primary_key a < kv_primary_key b).
Proof. unfold primary_lt. simpl. rewrite orb_true_iff, andb_true_iff, !Z.ltb_lt, Z.eqb_eq. done. Qed.

Lemma least_row_key s m tid key from P :
  counted (λ _, 0) s → represents s m → tkey <$> cs_tables s !! tid = Some key →
  (∀ a, from a = true ↔ tid < kv_t_id a ∨ (kv_t_id a = tid ∧ P (kv_primary_key a))) →
  first_key Z.le m key P (primary_key <$>
    match min_row primary_lt from (r_rows (cs_kv s)) with
    | Some (_, a) => if t_id a =? tid then Some a else None
    | None => None
    end).
Proof.
  intros Hwf Hm Ht Hfrom. apply (first_row_key 1); try done; [by left|lia| |].
  - intros a b. rewrite primary_lt_true. lia.
  - intros a. rewrite Hfrom. by rewrite !Z.mul_1_l.
Qed.

Lemma greatest_row_key s m tid key before P :
  counted (λ _, 0) s → represents s m → tkey <$> cs_tables s !! tid = Some key →
  (∀ a, before a = true ↔ kv_t_id a < tid ∨ (kv_t_id a = tid ∧ P (kv_primary_key a))) →
  first_key Z.ge m key P (primary_key <$>
    match min_row (λ a b, primary_lt b a) before (r_rows (cs_kv s)) with
    | Some (_, a) => if t_id a =? tid then Some a else None
    | None => None
    end).
Proof.
  intros Hwf Hm Ht Hbefore. apply (first_row_key (-1)); try done; [by right|lia| |].
  - intros a b. rewrite primary_lt_true. lia.
  - intros a. rewrite Hbefore. assert (-1 * tid < -1 * kv_t_id a ↔ kv_t_id a < tid) as -> by lia. done.
Qed.

(** The answers of the reading calls. *)
Lemma answers_row s s' ans te key a :
  reads kv_part s s' → answers kv_part s' ans te → ans.2 = Some a →
  tkey <$> cs_tables s !! kv_t_id a = Some key → row_iterator s' ans.1 key (kv_primary_key a).
Proof.
  intros Hr Ha E Ht. unfold answers in Ha. rewrite E in Ha. destruct Ha as (id & Ha & Ho).
  exists id, a. split; [|done]. destruct (reads_frame (RA:=key_value_row) kv_part kv_bytes _ _ Hr) as (Et & _).
  split; [exact Ha|]. by rewrite Et.
Qed.

Lemma no_table_no_rows s m key :
  represents s m → (∀ tid t, cs_tables s !! tid = Some t → tkey t ≠ key) → ∀ p, m !! (key, p) = None.
Proof.
  intros Hm Hno p. apply eq_None_not_Some. rewrite (represents_is_Some _ _ _ _ Hm).
  intros (id & a & _ & (t & Ht & E)%fmap_Some & _). by apply (Hno _ _ Ht).
Qed.

(** [first tid] is the abstract answer for a table. *)
Lemma about_position s s' m code scope table ans row (Q : option Z → Prop) :
  represents s m → reads kv_part s s' → about kv_part s s' code scope table ans row →
  (∀ tid a, row tid = Some a → kv_t_id a = tid) →
  (∀ tid, tkey <$> cs_tables s !! tid = Some (code, scope, table) → Q (primary_key <$> row tid)) →
  ((∀ p, m !! (code, scope, table, p) = None) → Q None) →
  Q (primary_key <$> ans.2) ∧ position s' m ans.1 (code, scope, table) (primary_key <$> ans.2).
Proof.
  intros Hm Hr Hab Hrow HQ HN.
  destruct Hab as [(tid & t & te & Ht & Hkey & Hte & Hans & E)|[Hno ->]].
  - assert (tkey <$> cs_tables s !! tid = Some (code, scope, table)) as Hk by (rewrite Ht; simpl; by f_equal).
    split; [rewrite E; by apply HQ|]. destruct (ans.2) as [a|] eqn:Ea; simpl.
    + eapply (answers_row _ _ _ _ _ _ Hr Hans); [done|]. by rewrite (Hrow tid a).
    + left. exists tid. destruct (reads_frame (RA:=key_value_row) kv_part kv_bytes _ _ Hr) as (Et & _).
      rewrite Et. split; [done|]. unfold answers in Hans. rewrite Ea in Hans. rewrite Hans. exact Hte.
  - assert (∀ p, m !! (code, scope, table, p) = None) as Hp by by apply (no_table_no_rows _ _ _ Hm).
    split; [by apply HN|]. simpl. right. done.
Qed.

Lemma first_key_empty le m key P : (∀ p, m !! (key, p) = None) → first_key le m key P None.
Proof. intros E q [v Hv]. by rewrite E in Hv. Qed.

Lemma row_of_min tid (r : option (Z * key_value_object)) a :
  match r with Some (_, a) => if kv_t_id a =? tid then Some a else None | None => None end = Some a →
  kv_t_id a = tid.
Proof. destruct r as [[id b]|]; [|done]. destruct (_ =? tid) eqn:E; [|done]. intros [= <-]. by reflect_bools. Qed.

Lemma bound_refines s s' m incl id code scope table ans :
  counted (λ _, 0) s → represents s m →
  bound kv_part primary_lt (from_primary incl id) code scope table s = (s', Ok ans) →
  reads kv_part s s' ∧ ∃ o,
    first_key Z.le m (code, scope, table) (λ q, if incl then id <= q else id < q) o ∧
    position s' m ans.1 (code, scope, table) o.
Proof.
  intros Hwf Hm H. apply (bound_spec kv_part kv_bytes _ _ _ _ _ _ _ _ Hwf) in H as [Hr Hab].
  split; [done|]. eexists. eapply (about_position _ _ _ _ _ _ _ _ _ Hm Hr Hab).
  - intros tid a. apply row_of_min.
  - intros tid Ht. apply (least_row_key _ _ _ _ _ _ Hwf Hm Ht). intros a.
    unfold from_primary. simpl. rewrite orb_true_iff, andb_true_iff, Z.ltb_lt, Z.eqb_eq.
    by destruct incl; rewrite ?Z.leb_le, ?Z.ltb_lt.
  - apply first_key_empty.
Qed.

Lemma find_refines s s' m id code scope table ans :
  counted (λ _, 0) s → represents s m → find_by_primary kv_part code scope table id s = (s', Ok ans) →
  reads kv_part s s' ∧
  position s' m ans.1 (code, scope, table) ((λ _, id) <$> m !! (code, scope, table, id)).
Proof.
  intros Hwf Hm H. apply (find_by_primary_spec kv_part kv_bytes _ _ _ _ _ _ _ Hwf) in H as [Hr Hab].
  split; [done|].
  destruct (about_position _ _ _ _ _ _ _ _ (λ o, o = (λ _, id) <$> m !! (code, scope, table, id)) Hm Hr Hab)
    as [<- ?]; [| | |done].
  - intros tid a. destruct (map_find _ _) as [[i b]|] eqn:E; [|done]. intros [= <-].
    apply map_find_Some_1 in E as (_ & <- & _). done.
  - intros tid Ht. destruct (map_find _ _) as [[i b]|] eqn:E; simpl.
    + apply map_find_Some_1 in E as (Ha & Htid & Hid). simpl in Htid, Hid. subst tid id.
      by rewrite (represents_stored _ _ _ _ i b Hm).
    + symmetry. apply fmap_None, eq_None_not_Some. rewrite (represents_is_Some _ _ _ _ Hm).
      intros (i & a & Ha & Hta & Hp). apply (proj1 (map_find_None _ _) E i a Ha).
      split; [|done]. by eapply stored_tables.
  - intros ->. done.
Qed.

Lemma next_refines s s' m itr ans :
  counted (λ _, 0) s → represents s m → next_row kv_part primary_lt itr s = (s', Ok ans) →
  (itr < -1 ∧ ans = (-1, None) ∧ s' = s) ∨
  (reads kv_part s s' ∧ ∃ key p, row_iterator s itr key p ∧
     first_key Z.le m key (λ q, p < q) (primary_key <$> ans.2) ∧
     match primary_key <$> ans.2 with Some q => row_iterator s' ans.1 key q | None => end_of s' ans.1 key end).
Proof.
  intros Hwf Hm [Hend|(Hr & id & a & te & Ha & Ho & Hte & Hans & E)]%(next_row_spec kv_part kv_bytes); [by left|right|done].
  split; [done|]. destruct (reads_frame (RA:=key_value_row) kv_part kv_bytes _ _ Hr) as (Et & _).
  destruct (object_table kv_part kv_bytes _ _ _ _ _ Hwf Ho Ha) as [_ [t Ht]].
  exists (tkey t), (kv_primary_key a). assert (tkey <$> cs_tables s !! kv_t_id a = Some (tkey t)) as Hk.
  { by rewrite (Ht : cs_tables s !! kv_t_id a = Some t). }
  split; [by exists id, a|]. split.
  - rewrite E. apply (least_row_key _ _ _ _ _ _ Hwf Hm Hk). intros b. rewrite primary_lt_true. intuition lia.
  - destruct (ans.2) as [b|] eqn:Eb; simpl.
    + eapply (answers_row _ _ _ _ _ _ Hr Hans); [done|]. by rewrite (row_of_min _ _ _ (eq_sym E)).
    + exists (kv_t_id a). rewrite Et. split; [done|]. unfold answers in Hans. rewrite Eb in Hans.
      rewrite Hans. exact Hte.
Qed.

Lemma previous_refines s s' m itr ans :
  counted (λ _, 0) s → represents s m → previous_row kv_part primary_lt itr s = (s', Ok ans) →
  reads kv_part s s' ∧ ∃ key P,
    (end_of s itr key ∧ P = (λ _, True) ∨ ∃ p, row_iterator s itr key p ∧ P = (λ q, q < p)) ∧
    first_key Z.ge m key P (primary_key <$> ans.2) ∧
    match primary_key <$> ans.2 with Some q => row_iterator s' ans.1 key q | None => ans.1 = -1 end.
Proof.
  intros Hwf Hm (Hr & Hans & before & tid & E & [t Ht] & Hcase)%(previous_row_spec kv_part kv_bytes); [|done].
  split; [done|]. assert (tkey <$> cs_tables s !! tid = Some (tkey t)) as Hk by by rewrite Ht.
  assert (∀ P, (∀ a, before a = true ↔ kv_t_id a < tid ∨ (kv_t_id a = tid ∧ P (kv_primary_key a))) →
    first_key Z.ge m (tkey t) P (primary_key <$> ans.2) ∧
    match primary_key <$> ans.2 with Some q => row_iterator s' ans.1 (tkey t) q | None => ans.1 = -1 end) as Hres.
  { intros P HP. split; [rewrite E; by apply greatest_row_key|].
    destruct (ans.2) as [b|] eqn:Eb; simpl.
    - eapply (answers_row _ _ _ _ _ _ Hr Hans); [done|]. by rewrite (row_of_min _ _ _ (eq_sym E)).
    - unfold answers in Hans. by rewrite Eb in Hans. }
  destruct Hcase as [(_ & -> & Hc)|(id & a & Ha & Ho & -> & ->)].
  - exists (tkey t), (λ _, True). split; [left; split; [by exists tid|done]|]. apply Hres.
    intros a. rewrite Z.leb_le. simpl. intuition lia.
  - exists (tkey t), (λ q, q < kv_primary_key a). split; [right; eexists; split; [by exists id, a|done]|].
    apply Hres. intros b. apply primary_lt_true.
Qed.

Lemma store_refines env scope table payer id buffer s s' m i :
  contract_wf s → room s → Z.of_nat (length buffer) < 2 ^ 32 → represents s m →
  let key := (env_receiver env, scope, table) in
  db_store_i64 env (env_receiver env) scope table payer id buffer s = (s', Ok i) →
  payer ≠ 0 ∧ m !! (key, id) = None ∧ row_iterator s' i key id ∧
  represents s' (<[(key, id) := (payer, buffer)]> m) ∧
  iterators_kept s s' (<[(key, id) := (payer, buffer)]> m).
Proof.
  intros Hwf Hroom Hb Hm key H. unfold db_store_i64 in H. inv_st. destruct r as [tid t]. inv_st. reflect_bools.
  destruct (store_spec (RA:=key_value_row) kv_part kv_bytes s _ s' env (env_receiver env) scope table tid t
    (KeyValue tid id payer buffer) i Hwf Hroom Hrun eq_refl (kv_bytes_range _ Hb) H)
    as (_ & Htab & Hold & _ & Hnew & Er & Hi & Hk).
  change (r_rows (cs_kv s') = <[r_next (cs_kv s) := KeyValue tid id payer buffer]> (r_rows (cs_kv s))) in Er.
  destruct Hwf as [Hwf _]. destruct (ct_parts _ _ Hwf) as [Hrw _].
  assert (∀ j, r_rows (cs_kv s) !! j = None ∨ j ≠ r_next (cs_kv s)) as Hfresh.
  { intros j. destruct (_ !! j) eqn:Ej; [|by left]. apply (rw_fresh _ _ _ Hrw) in Ej. right. lia. }
  assert (∀ j b, r_rows (cs_kv s) !! j = Some b →
    tkey <$> cs_tables s' !! kv_t_id b = tkey <$> cs_tables s !! kv_t_id b) as Hsame.
  { intros j b Hj. rewrite Htab. case_decide as E; [|done].
    destruct Hold as [Hold|[Hfree _]]; [by rewrite E|].
    apply (rw_table _ _ _ Hrw) in Hj as [u Hu]. simpl in Hu. by rewrite E, Hfree in Hu. }
  assert (∀ key' p j b, stored s' key' p j b ↔ stored s key' p j b ∨
    (j = r_next (cs_kv s) ∧ b = KeyValue tid id payer buffer ∧ key' = key ∧ p = id)) as Hst.
  { intros key' p j b. unfold stored. rewrite Er, lookup_insert_Some. split.
    - intros ([[<- <-]|[Hne Hj]] & Hkey & Hp).
      + right. simpl in Hkey. rewrite Htab, decide_True in Hkey by done. by simplify_eq.
      + left. by rewrite <-(Hsame _ _ Hj).
    - intros [(Hj & Hkey & Hp)|(-> & -> & -> & ->)].
      + split; [right; split; [destruct (Hfresh j); naive_solver|done]|]. by rewrite (Hsame _ _ Hj).
      + split; [by left|]. simpl. by rewrite Htab, decide_True. }
  assert (m !! (key, id) = None) as Hnone.
  { apply eq_None_not_Some. rewrite (represents_is_Some _ _ _ _ Hm). intros (j & b & Hj & Hkey & Hp).
    apply (Hnew _ _ Hj). split; [|done]. simpl. destruct Hold as [Hold|[_ Hno]]; [|by apply Hno in Hkey].
    by eapply stored_tables. }
  split_and!; try done.
  - eexists _, _. rewrite Hst. split; [right; done|]. exact Hi.
  - intros key' p v. rewrite lookup_insert_Some. setoid_rewrite Hst. split.
    + intros [[[= <- <-] <-]|[_ (j & b & Hj & Hv)%Hm]]; [|by exists j, b; auto].
      eexists _, _. split; [by right|done].
    + intros (j & b & [Hj|(-> & -> & -> & ->)] & ->); [|by left].
      pose proof (represents_stored _ _ _ _ _ _ Hm Hj) as Hv. right. split; [|done]. intros E.
      rewrite <-E in Hv. pose proof (eq_trans (eq_sym Hv) Hnone). done.
  - intros i' key' p (j & b & Hj & Ho) _. exists j, b. rewrite Hst. split; [by left|]. by apply Hk.
Qed.

Lemma update_refines env itr payer buffer s s' m u :
  contract_wf s → Z.of_nat (length buffer) < 2 ^ 32 → represents s m →
  db_update_i64 env itr payer buffer s = (s', Ok u) →
  ∃ scope table p v, let key := (env_receiver env, scope, table) in
    let m' := <[(key, p) := (if payer =? 0 then v.1 else payer, buffer)]> m in
    row_iterator s itr key p ∧ m !! (key, p) = Some v ∧ represents s' m' ∧ iterators_kept s s' m'.
Proof.
  intros Hwf Hb Hm H.
  set (f obj := KeyValue (kv_t_id obj) (kv_primary_key obj) (if payer =? 0 then kv_payer obj else payer) buffer).
  destruct (update_spec (RA:=key_value_row) kv_part kv_bytes s s' env itr f u Hwf
    (λ _, conj eq_refl eq_refl) (λ _, kv_bytes_range _ Hb) H) as (_ & Et & id & a & t & Ha & Ho & Ht & Hcode & Er).
  change (cs_kv s' = with_rows (cs_kv s) (<[id := f a]> (r_rows (cs_kv s)))) in Er.
  destruct Hwf as [Hwf _].
  assert (stored s (env_receiver env, ti_scope t, ti_table t) (kv_primary_key a) id a) as Hs.
  { split; [done|]. split; [|done]. simpl in Ht. rewrite Ht. simpl. unfold tkey. by rewrite Hcode. }
  exists (ti_scope t), (ti_table t), (kv_primary_key a), (kv_payer a, kv_value a). cbv zeta.
  split; [by exists id, a|]. split; [by apply (represents_stored _ _ _ _ _ _ Hm Hs)|]. simpl.
  assert (∀ key p j b, stored s' key p j b ↔
    (j ≠ id ∧ stored s key p j b) ∨ (j = id ∧ b = f a ∧ stored s key p id a)) as Hst.
  { intros key p j b. unfold stored. rewrite Et, Er. simpl. rewrite lookup_insert_Some. split.
    - intros ([[<- <-]|[Hne Hj]] & Hkey & Hp); [right|left]; done.
    - intros [(Hne & Hj & Hkey & Hp)|(-> & -> & _ & Hkey & Hp)]; (split; [|done]); [right|left]; done. }
  split.
  - intros key p v. rewrite lookup_insert_Some. setoid_rewrite Hst. split.
    + intros [[[= <- <-] <-]|[Hne (j & b & Hj & Hv)%Hm]]; [by exists id, (f a); split; [right|]|].
      exists j, b. split; [left; split; [|done]|done]. intros ->. apply Hne.
      destruct Hj as (Hj & Hk & Hp). destruct Hs as (? & Hk' & ?). by simplify_eq.
    + intros (j & b & [[Hne Hj]|(-> & -> & Hj)] & ->).
      * right. split; [|by eapply represents_stored]. intros [= <- <-].
        apply Hne. by eapply (stored_unique s).
      * left. destruct Hj as (_ & Hk & Hp). destruct Hs as (_ & Hk' & _). by simplify_eq.
  - intros i key p (j & b & Hj & Hi) _. unfold row_iterator. setoid_rewrite Hst. rewrite Er. simpl.
    destruct (decide (j = id)) as [->|Hne]; [|by exists j, b; split; [left|]].
    destruct (Hj) as (Hj' & _). simpl in Ha. assert (b = a) as -> by congruence. exists id, (f a). split; [by right|done].
Qed.

Lemma remove_refines env itr s s' m u :
  contract_wf s → represents s m → db_remove_i64 env itr s = (s', Ok u) →
  ∃ scope table p, let key := (env_receiver env, scope, table) in
    row_iterator s itr key p ∧ represents s' (delete (key, p) m) ∧ iterators_kept s s' (delete (key, p) m).
Proof.
  intros Hwf0 Hm H. unfold db_remove_i64 in H. inv_st. destruct r as [id a]. inv_st.
  pose proof Hwf0 as [Hwf Hpos].
  apply (get_object_ok kv_part kv_bytes _ _ _ _ _ _ Hwf) in Hrun as (-> & Ha & Ho).
  apply own_table_ok in Hrun0 as (-> & -> & t & Ht & Hcode).
  pose proof (part_small s id a (ct_values _ _ Hwf) Ha).
  apply (in_apply_usage _ _ _ _ _ _ _ Hwf) in Hrun1 as (Hwf1 & E1 & Hs1).
  2: { unfold kv_bytes, in_i64 in *. lia. }
  destruct (remove_spec (RA:=key_value_row) kv_part kv_bytes s _ s' env itr id a t u
    Hwf0 E1 Hwf1 Hs1 Ha Ho Ht H) as ([[Hwf' _] _] & Htab & c & Hc & Er).
  change (cs_kv s' = Rows (delete id (r_rows (cs_kv s))) (r_next (cs_kv s)) c) in Er.
  destruct (ct_parts _ _ Hwf) as [Hrw _]. destruct (ct_parts _ _ Hwf') as [Hrw' _].
  apply (cache_remove_objects _ _ _ _ _ _ (rw_cache _ _ _ Hrw) Ho) in Hc.
  assert (stored s (env_receiver env, ti_scope t, ti_table t) (kv_primary_key a) id a) as Hs.
  { split; [done|]. split; [|done]. simpl in Ht. rewrite Ht. simpl. unfold tkey. by rewrite Hcode. }
  exists (ti_scope t), (ti_table t), (kv_primary_key a). cbv zeta. split; [by exists id, a|].
  assert (∀ key p j b, stored s' key p j b ↔ j ≠ id ∧ stored s key p j b) as Hst.
  { intros key p j b. unfold stored. rewrite Er. simpl.
    assert (delete id (r_rows (cs_kv s)) !! j = Some b →
      tkey <$> cs_tables s' !! kv_t_id b = tkey <$> cs_tables s !! kv_t_id b) as Hsame.
    { intros Hj. assert (r_rows (cs_kv s') !! j = Some b) as [u' Hu]%(rw_table _ _ _ Hrw') by by rewrite Er.
      specialize (Htab (kv_t_id b)). simpl in Hu, Htab. rewrite Hu in Htab |- *.
      destruct (decide (kv_t_id b = kv_t_id a ∧ ti_count t = 1)); done. }
    rewrite lookup_delete_Some in Hsame |- *. split.
    - intros ((? & ?) & Hkey & ?). rewrite Hsame in Hkey by done. done.
    - intros (? & ? & ? & ?). by rewrite Hsame. }
  split.
  - intros key p v. rewrite lookup_delete_Some. setoid_rewrite Hst. split.
    + intros [Hne (j & b & Hj & ->)%Hm]. exists j, b. split; [split; [|done]|done]. intros ->. apply Hne.
      destruct Hj as (Hj & Hk & Hp). destruct Hs as (? & Hk' & ?). by simplify_eq.
    + intros (j & b & [Hne Hj] & ->). split; [|by eapply represents_stored].
      intros [= <- <-]. apply Hne. by eapply (stored_unique s).
  - intros i key p (j & b & Hj & Hi) [v [Hne _]%lookup_delete_Some]. exists j, b.
    rewrite Hst, Er. simpl. rewrite Hc, lookup_delete_Some.
    assert (j ≠ id); [|done]. intros ->. apply Hne.
    destruct Hj as (Hj & Hk & Hp). destruct Hs as (? & Hk' & ?). by simplify_eq.
Qed.

(** C19: The primary index implements a finite map from (code, scope, table, primary key) to payers and
    values: every successful call does what the specification of the call says about the map and the
    iterators (only the owner of a table changes it, a key is stored once, the bounds, next and
    previous give the neighbouring keys of the same table), and iterators of remaining rows stay valid. *)
Theorem kv_refinement env c s s' m ans :
  contract_wf s → room s → small_call c → represents s m → kv_run env c s = (s', Ok ans) →
  ∃ m', kv_spec env s m c s' m' ans ∧ represents s' m' ∧ iterators_kept s s' m'.
Proof.
  intros Hwf Hroom Hc Hm H. pose proof Hwf as [Hwf' _].
  destruct c; apply st_map_ok in H as (x & H & ->); simpl in Hc |- *;
    unfold db_find_i64, db_lowerbound_i64, db_upperbound_i64, db_next_i64, db_previous_i64, db_end_i64,
      db_get_i64 in H; inv_st;
    try match goal with r : _ * _ |- _ => destruct r; inv_st end; simpl.
  - apply (store_refines _ _ _ _ _ _ _ _ m) in H as (? & ? & ? & ? & ?); [|done..].
    eexists. split; [|done]. done.
  - apply (update_refines _ _ _ _ _ _ m) in H as (? & ? & ? & ? & ? & ? & ? & ?); [|done..].
    eexists. split; [by do 4 eexists|done].
  - apply (remove_refines _ _ _ _ m) in H as (? & ? & ? & ? & ? & ?); [|done..].
    eexists. split; [by do 3 eexists|done].
  - apply (get_object_ok kv_part kv_bytes _ _ _ _ _ _ Hwf') in Hrun as (-> & Ha & Ho).
    destruct (object_table kv_part kv_bytes _ _ _ _ _ Hwf' Ho Ha) as [_ [t Ht]].
    assert (stored s (tkey t) (kv_primary_key k) z k) as Hs.
    { split; [done|]. split; [|done]. by rewrite (Ht : cs_tables s !! kv_t_id k = Some t). }
    exists m. destruct (buffer_size =? 0) eqn:E; inv_st; simpl; rewrite ?E;
      (split; [split; [done|]|by apply reads_refines; [apply (reads_refl kv_part kv_bytes)|]]);
      exists (tkey t), (kv_primary_key k), (kv_payer k, kv_value k);
      (split; [by exists z, k|]); (split; [by apply (represents_stored _ _ _ _ _ _ Hm Hs)|done]).
  - apply (next_refines _ _ m _ _ Hwf' Hm) in Hrun as [(? & [= -> ->] & ->)|(Hr & ? & ? & ? & ? & ?)];
      exists m.
    + split; [by auto|]. apply reads_refines; [by apply (reads_refl kv_part kv_bytes)|done].
    + split; [split; [done|]; right; by do 2 eexists|]. by apply reads_refines.
  - apply (previous_refines _ _ m _ _ Hwf' Hm) in Hrun as (Hr & ? & ? & ? & ? & ?). exists m.
    split; [split; [done|]; by do 2 eexists|]. by apply reads_refines.
  - apply (find_refines _ _ m _ _ _ _ _ Hwf' Hm) in Hrun as [Hr ?]. exists m. split; [done|]. by apply reads_refines.
  - apply (bound_refines _ _ m _ _ _ _ _ _ Hwf' Hm) in Hrun as [Hr ?]. exists m. split; [done|]. by apply reads_refines.
  - apply (bound_refines _ _ m _ _ _ _ _ _ Hwf' Hm) in Hrun as [Hr ?]. exists m. split; [done|]. by apply reads_refines.
  - apply (end_iterator_spec kv_part kv_bytes _ _ _ _ _ _ Hwf') in H as [Hr Hab]. exists m.
    split; [|by apply reads_refines]. split; [done|].
    by destruct (about_position _ _ _ _ _ _ _ _ (λ _, True) Hm Hr Hab).
Qed.
End refinement.

(** ** Pointers *)
(** A computation that follows no dangling pointer. *)
Definition safe {S A} (m : stM S A) (x : S) : Prop := (m x).2 ≠ Throw undefined_behaviour.

Lemma safe_bind {S A B} (m : stM S A) (f : A → stM S B) (x : S) :
  safe m x → (∀ y a, m x = (y, Ok a) → safe (f a) y) → safe (m ≫= f) x.
Proof. apply st_bind_not_throw. Qed.

Ltac safe_steps := repeat first
  [ done
  | match goal with |- safe (_ ≫= _) _ => apply safe_bind; [|intros ? ? ?; inv_st] end
  | match goal with |- safe (match ?x with _ => _ end) _ => destruct x end ].

Lemma safe_assert {S} c e (x : S) : e ≠ undefined_behaviour → safe (st_assert c e) x.
Proof. intros He. unfold safe, st_assert, st_lift. simpl. by destruct c; simpl; [|congruence]. Qed.

Lemma safe_in_apply {A} (m : stM apply_state A) s : safe m (cs_apply s) → safe (in_apply m) s.
Proof. unfold safe, in_apply. by destruct (m (cs_apply s)). Qed.

Lemma update_db_usage_safe env p delta (x : apply_state) : safe (update_db_usage env p delta) x.
Proof.
  unfold update_db_usage. apply safe_bind; [|intros y u _].
  - destruct (_ && _); [|done]. simpl. apply safe_bind; [by apply safe_assert|]. intros y u _.
    unfold require_authorization, require_auth. by destruct (list_find _ _) as [[]|].
  - unfold add_ram_usage. safe_steps. unfold safe, st_lift, add_pending_ram_usage, get_usage. simpl.
    destruct (_ =? 0); [done|]. destruct (_ !! p); simpl; [|done].
    by repeat (destruct (_ || _); simpl).
Qed.

Lemma usage_safe env p delta s : safe (in_apply (update_db_usage env p delta)) s.
Proof. apply safe_in_apply, update_db_usage_safe. Qed.

Lemma rebill_safe env p p' n n' s : safe (rebill env p p' n n') s.
Proof.
  unfold rebill. destruct (negb _); [apply safe_bind; [|intros ? ? _]; apply usage_safe|].
  destruct (negb _); [apply usage_safe|done].
Qed.

Lemma deref_table_safe tid s : is_Some (cs_tables s !! tid) → safe (deref_table tid) s.
Proof. intros [t Ht]. unfold deref_table, safe, st_get, mbind, stM_bind. simpl. by rewrite Ht. Qed.

Lemma change_count_safe tid f s : is_Some (cs_tables s !! tid) → safe (change_count tid f) s.
Proof. intros Ht. unfold change_count. apply safe_bind; [by apply deref_table_safe|]. by safe_steps. Qed.

Lemma find_or_create_safe env code scope table payer s :
  safe (find_or_create_table env code scope table payer) s.
Proof. unfold find_or_create_table. safe_steps. apply usage_safe. Qed.

Lemma iterator_entry_safe c iterator : iterator_entry c iterator ≠ Throw undefined_behaviour.
Proof.
  unfold iterator_entry. destruct (negb _); [|done]. destruct (0 <=? _) eqn:E1; [|done].
  destruct (_ <? _) eqn:E2; [|done]. simpl. reflect_bools.
  destruct (lookup_lt_is_Some_2 (iterator_to_object c) (Z.to_nat iterator)) as [x ->]; [lia|done].
Qed.

Section part_safe.
Context {A : Type} {RA : Row A} (L : part A) (bytes : A → Z) {PL : PartLaws L bytes}.

Lemma cached_table_safe tid s : safe (cached_table L tid) s.
Proof. unfold cached_table. by safe_steps. Qed.
Lemma add_object_safe obj s : safe (add_object L obj) s.
Proof. unfold add_object. by safe_steps. Qed.

Lemma remove_iterator_safe iterator s : safe (remove_iterator L iterator) s.
Proof.
  unfold remove_iterator. safe_steps. unfold safe, st_lift, cache_remove. simpl.
  pose proof (iterator_entry_safe (r_cache (part_get _ L s)) iterator).
  destruct (iterator_entry _ _) as [[]|]; simpl; naive_solver.
Qed.

Lemma get_object_safe dc iterator s : counted dc s → safe (get_object L iterator) s.
Proof.
  intros Hwf. unfold get_object. safe_steps.
  - unfold safe, st_lift, cache_get. simpl. pose proof (iterator_entry_safe (r_cache (part_get _ L s)) iterator).
    destruct (iterator_entry _ _) as [[x|]|e]; simpl; naive_solver.
  - pose proof (part_wf _ _ _ (ct_parts _ _ Hwf)) as Hr.
    rename select (cache_get _ _ = _) into Hg. apply (cache_get_ok _ _ _ _ _ (rw_cache _ _ _ Hr)) in Hg.
    destruct (ca_alive _ _ _ (rw_cache _ _ _ Hr) _ _ Hg) as (b & Hb & _).
    unfold safe, st_lift. simpl. by rewrite Hb.
Qed.

Lemma own_table_safe dc env id a s :
  counted dc s → r_rows (part_get _ L s) !! id = Some a → safe (own_table L env a) s.
Proof.
  intros Hwf Ha. unfold own_table. safe_steps.
  - unfold safe, st_lift, get_table. simpl. by destruct (table_cache _ !! _).
  - unfold get_table in *. inv_ok. inv_st.
    pose proof (part_wf _ _ _ (ct_parts _ _ Hwf)) as Hr. apply deref_table_safe. by eapply (rw_table _ _ _ Hr).
  - by apply safe_assert.
Qed.

Lemma insert_row_safe env tid payer a size s :
  is_Some (cs_tables s !! tid) → safe (insert_row L env tid payer a size) s.
Proof.
  intros Ht. unfold insert_row. apply safe_bind.
  { unfold create_row. safe_steps. by apply safe_assert. }
  intros s1 obj Hc. apply safe_bind.
  { apply change_count_safe. unfold create_row in Hc. inv_st.
    destruct (part_frame s (new_row (part_get _ L s) a)) as (_ & -> & _). done. }
  intros s2 u _. apply safe_bind; [apply usage_safe|]. intros ? ? _.
  apply safe_bind; [apply cached_table_safe|]. intros ? ? _. apply add_object_safe.
Qed.

Lemma drop_row_safe dc env tid id iterator s :
  counted dc s → is_Some (cs_tables s !! tid) → safe (drop_row L env tid id iterator) s.
Proof.
  intros Hwf Ht. unfold drop_row. apply safe_bind; [by apply change_count_safe|].
  intros s1 n Hc. apply (change_count_spec _ _ _ _ _ _ Hwf) in Hc as (t & _ & _ & -> & _).
  apply safe_bind; [done|]. intros s2 u Hd. apply safe_bind; [|intros ? ? _; apply remove_iterator_safe].
  destruct (n =? 0); [|done]. unfold remove_table. apply safe_bind.
  - unfold delete_row in Hd. inv_st. apply deref_table_safe.
    match goal with |- context [part_set _ L ?x ?y] => destruct (part_frame x y) as (_ & -> & _) end.
    simpl. rewrite lookup_insert_eq. by eexists.
  - intros ? ? _. apply safe_bind; [apply usage_safe|done].
Qed.

Lemma seek_forward_safe lt from tid te s : safe (seek_forward L lt from tid te) s.
Proof.
  unfold seek_forward. safe_steps. apply add_object_safe.
Qed.

Lemma bound_safe lt from code scope table s : safe (bound L lt from code scope table) s.
Proof.
  unfold bound. apply safe_bind; [done|]. intros ? [[]|] _; [|done].
  apply safe_bind; [apply cached_table_safe|]. intros ? ? _. apply seek_forward_safe.
Qed.

Lemma find_by_primary_safe code scope table id s : safe (find_by_primary L code scope table id) s.
Proof.
  unfold find_by_primary. apply safe_bind; [done|]. intros ? [[]|] _; [|done].
  apply safe_bind; [apply cached_table_safe|]. intros ? ? _. apply safe_bind; [done|]. intros ? ? _.
  destruct (map_find _ _) as [[]|]; [|done]. apply safe_bind; [apply add_object_safe|done].
Qed.

Lemma end_iterator_safe code scope table s : safe (end_iterator L code scope table) s.
Proof.
  unfold end_iterator. apply safe_bind; [done|]. intros ? [[]|] _; [|done]. apply cached_table_safe.
Qed.

Lemma end_lookup_safe (c : iterator_cache) tid s :
  safe (ei ← st_lift (get_end_iterator_by_table_id c tid); mret (ei, @None A)) s.
Proof. unfold safe, get_end_iterator_by_table_id, st_lift, mbind, stM_bind. simpl. by destruct (_ !! tid). Qed.

Lemma next_row_safe dc lt iterator s : counted dc s → safe (next_row L lt iterator) s.
Proof.
  intros Hwf. unfold next_row. destruct (_ <? -1); [done|].
  apply safe_bind; [by eapply get_object_safe|]. intros ? [id a] _. apply safe_bind; [done|]. intros ? x _.
  destruct (min_row _ _ _) as [[]|]; [destruct (negb _)|]; try apply end_lookup_safe.
  apply safe_bind; [apply add_object_safe|done].
Qed.

(** The only dangling pointer that a call can follow: the table of an end iterator. *)
Lemma previous_row_safe dc lt iterator s :
  counted dc s → ¬ safe (previous_row L lt iterator) s →
  ∃ tid, table_cache (r_cache (part_get _ L s)) !! tid = Some iterator ∧ cs_tables s !! tid = None.
Proof.
  intros Hwf. pose proof (part_wf _ _ _ (ct_parts _ _ Hwf)) as Hr. unfold previous_row.
  destruct (iterator <? -1) eqn:Ei; intros Hn.
  - reflect_bools.
    destruct (find_table_by_end_iterator (r_cache (part_get _ L s)) iterator) as [[tid|]|e] eqn:Ef.
    + exists tid. split.
      * unfold find_table_by_end_iterator in Ef. inv_ok. destruct (_ <=? _) in Ef; [discriminate Ef|].
        injection Ef as Htab. apply (ca_tables _ _ _ (rw_cache _ _ _ Hr)). eexists. split; [exact Htab|].
        unfold end_iterator_to_index, index_to_end_iterator. lia.
      * destruct (cs_tables s !! tid) as [t|] eqn:Et; [|done]. exfalso. apply Hn.
        unfold safe, mbind, stM_bind, st_get, st_lift. simpl. rewrite Ef. simpl.
        apply (safe_bind (deref_table tid) (λ _, seek_backward L lt (λ a, t_id a <=? tid) tid));
          [apply deref_table_safe; by eexists|]. intros ? ? _. apply seek_forward_safe.
    + exfalso. apply Hn. unfold safe, mbind, stM_bind, st_get, st_lift. simpl. by rewrite Ef.
    + exfalso. apply Hn. unfold safe, mbind, stM_bind, st_get, st_lift. simpl. rewrite Ef. simpl.
      unfold find_table_by_end_iterator in Ef. destruct (iterator <? -1); simpl in Ef; [|congruence].
      by destruct (_ <=? _) in Ef.
  - exfalso. apply Hn. apply safe_bind; [by eapply get_object_safe|]. intros ? [id a] _. apply seek_forward_safe.
Qed.
End part_safe.

Lemma st_map_safe {A B} (f : A → B) (m : ctx A) s : safe m s → safe (st_map f m) s.
Proof. intros Hm. unfold st_map. by apply safe_bind. Qed.

Lemma store_safe {A} {RA : Row A} (L : part A) (bytes : A → Z) {PL : PartLaws L bytes}
    env code scope table payer p (a : Z → A) size s :
  contract_wf s →
  safe ('(tid, _) ← find_or_create_table env code scope table payer; insert_row L env tid p (a tid) size) s.
Proof.
  intros Hwf. apply safe_bind; [apply find_or_create_safe|]. intros s1 [tid t] H.
  apply (find_or_create_spec _ _ _ _ _ _ _ _ _ Hwf) in H as (_ & Ht & _).
  apply (insert_row_safe L bytes). by eexists.
Qed.

Lemma update_safe {A} {RA : Row A} (L : part A) (bytes : A → Z) {PL : PartLaws L bytes}
    env iterator (p p' n n' : A → Z) f s :
  contract_wf s →
  safe ('(id, obj) ← get_object L iterator; _ ← own_table L env obj;
        _ ← rebill env (p obj) (p' obj) (n obj) (n' obj); modify_row L id (f obj)) s.
Proof.
  intros [Hwf _]. apply safe_bind; [by eapply get_object_safe|]. intros s1 [id a] H.
  apply (get_object_ok L bytes _ _ _ _ _ _ Hwf) in H as (-> & Ha & _).
  apply safe_bind; [by eapply own_table_safe|]. intros ? ? _.
  apply safe_bind; [apply rebill_safe|done].
Qed.

Lemma kv_run_safe env c s :
  contract_wf s → (∀ itr, c ≠ Previous itr) → safe (kv_run env c) s.
Proof.
  intros Hwf Hc. pose proof Hwf as [Hwf' _]. destruct c; try (by destruct (Hc itr)); apply st_map_safe.
  - apply safe_bind; [apply find_or_create_safe|]. intros s1 [tid t] H.
    apply (find_or_create_spec _ _ _ _ _ _ _ _ _ Hwf) in H as (_ & Ht & _).
    apply safe_bind; [by apply safe_assert|]. intros ? ? ?. inv_st. apply (insert_row_safe kv_part kv_bytes). by eexists.
  - by apply (update_safe kv_part kv_bytes env itr kv_payer (λ obj, if payer =? 0 then kv_payer obj else payer)
      (λ obj, Z.of_nat (length (kv_value obj)) + key_value_size)).
  - apply safe_bind; [by eapply (get_object_safe kv_part kv_bytes)|]. intros s1 [id a] H.
    apply (get_object_ok kv_part kv_bytes _ _ _ _ _ _ Hwf') in H as (-> & Ha & _).
    apply safe_bind; [by eapply (own_table_safe kv_part kv_bytes)|]. intros s2 tid H.
    apply own_table_ok in H as (-> & -> & t & Ht & _).
    apply safe_bind; [apply usage_safe|]. intros s2 u Hu.
    pose proof (part_small s id a (ct_values _ _ Hwf') Ha).
    apply (in_apply_usage _ _ _ _ _ _ _ Hwf') in Hu as (Hwf1 & E1 & _).
    2: { unfold kv_bytes, in_i64 in *. lia. }
    eapply (drop_row_safe kv_part kv_bytes); [exact Hwf1|]. rewrite E1. by eexists.
  - apply safe_bind; [by eapply (get_object_safe kv_part kv_bytes)|]. intros ? [id a] _. by destruct (_ =? 0).
  - apply safe_bind; [by eapply (next_row_safe kv_part kv_bytes)|]. by intros ? [] _.
  - apply safe_bind; [apply find_by_primary_safe|]. by intros ? [] _.
  - apply safe_bind; [apply bound_safe|]. by intros ? [] _.
  - apply safe_bind; [apply bound_safe|]. by intros ? [] _.
  - apply end_iterator_safe.
Qed.

Lemma secondary_of_safe k data s : safe (st_lift (secondary_of k data)) s.
Proof.
  unfold safe, st_lift, secondary_of, check_array, check_nan. simpl.
  destruct k; simpl; try done; by destruct (_ : bool).
Qed.

Lemma idx_run_safe k env c s :
  contract_wf s → (∀ itr, c ≠ IPrevious itr) → safe (idx_run k env c) s.
Proof.
  intros Hwf Hc. pose proof Hwf as [Hwf' _]. destruct c; try (by destruct (Hc itr));
    try (apply safe_bind; [apply secondary_of_safe|]; intros ? x Hx; inv_st); try apply st_map_safe.
  - apply safe_bind; [by apply safe_assert|]. intros ? ? ?. inv_st.
    by apply (store_safe (index_part k) (λ _, index_size k) _ _ _ _ _ _ (λ tid, IndexObject tid id payer x)).
  - by apply (update_safe (index_part k) (λ _, index_size k) env itr ix_payer
      (λ obj, if payer =? 0 then ix_payer obj else payer) (λ _, index_size k) (λ _, index_size k)).
  - apply safe_bind; [by eapply (get_object_safe (index_part k) (λ _, index_size k))|]. intros s1 [id a] H.
    apply (get_object_ok (index_part k) (λ _, index_size k) _ _ _ _ _ _ Hwf') in H as (-> & Ha & _).
    apply safe_bind; [apply usage_safe|]. intros s2 u Hu.
    apply (in_apply_usage _ _ _ _ _ _ _ Hwf') in Hu as (Hwf1 & E1 & _).
    2: { pose proof (index_size_range k). unfold in_i64. lia. }
    apply safe_bind.
    { eapply (own_table_safe (index_part k) (λ _, index_size k)); [exact Hwf1|]. rewrite E1. exact Ha. }
    intros s3 tid H. apply own_table_ok in H as (-> & -> & t & Ht & _).
    eapply (drop_row_safe (index_part k) (λ _, index_size k)); [exact Hwf1|by eexists].
  - unfold find_secondary. apply safe_bind; [done|]. intros ? [[]|] _; [|done].
    apply safe_bind; [apply cached_table_safe|]. intros ? ? _. apply safe_bind; [done|]. intros ? ? _.
    destruct (min_row _ _ _) as [[]|]; [|done]. destruct (_ && _); [|done].
    apply safe_bind; [apply add_object_safe|done].
  - apply safe_bind; [by unfold safe, st_lift, check_array; destruct k; simpl; try done; destruct (_ : bool)|].
    intros ? ? _. apply st_map_safe. apply safe_bind; [apply find_by_primary_safe|]. by intros ? [] _.
  - apply safe_bind; [apply bound_safe|done].
  - apply safe_bind; [apply bound_safe|done].
  - apply end_iterator_safe.
  - apply safe_bind; [by eapply (next_row_safe (index_part k) (λ _, index_size k))|]. by intros ? [] _.
Qed.

Lemma map_unsafe {A B} (f : A → B) (m : ctx A) s : ¬ safe (st_map f m) s → ¬ safe m s.
Proof. intros H Hm. by apply H, st_map_safe. Qed.

(** C21: Memory safety of the iterators: no call on a consistent state follows a dangling pointer to a
    row or a table, except previous on the end iterator of a table that has been removed. *)
Theorem only_end_iterators_dangle s :
  contract_wf s →
  (∀ env c, (kv_run env c s).2 = Throw undefined_behaviour →
     ∃ itr tid, c = Previous itr ∧ table_cache (r_cache (cs_kv s)) !! tid = Some itr ∧
       cs_tables s !! tid = None) ∧
  (∀ k env c, (idx_run k env c s).2 = Throw undefined_behaviour →
     ∃ itr tid, c = IPrevious itr ∧ table_cache (r_cache (cs_index s k)) !! tid = Some itr ∧
       cs_tables s !! tid = None).
Proof.
  intros Hwf. split.
  - intros env c H. destruct (match c with Previous itr => Some itr | _ => None end) as [itr|] eqn:Ec.
    2: { destruct (kv_run_safe env c s Hwf); [by intros i ->|done]. }
    destruct c; simplify_eq. exists itr.
    assert (¬ safe (previous_row kv_part primary_lt itr) s) as Hn.
    { intros Hs. assert (safe (kv_run env (Previous itr)) s) as Hk; [|done].
      apply st_map_safe, safe_bind; [done|]. by intros ? [] _. }
    eapply (previous_row_safe kv_part kv_bytes) in Hn as (tid & ? & ?); [|apply Hwf]. by exists tid.
  - intros k env c H. destruct (match c with IPrevious itr => Some itr | _ => None end) as [itr|] eqn:Ec.
    2: { destruct (idx_run_safe k env c s Hwf); [by intros i ->|done]. }
    destruct c; simplify_eq. exists itr.
    assert (¬ safe (previous_row (index_part k) (secondary_lt k) itr) s) as Hn.
    { intros Hs. assert (safe (idx_run k env (IPrevious itr)) s) as Hk; [|done].
      apply st_map_safe, safe_bind; [done|]. by intros ? [] _. }
    eapply (previous_row_safe (index_part k) (λ _, index_size k)) in Hn as (tid & ? & ?); [|apply Hwf]. by exists tid.
Qed.
End consistency.

(** ** A concrete instance *)
#[local] Existing Instances toy_fc toy_action_codec toy_transaction_codec toy_pack_sizes.
Definition toy_soft_float : SoftFloat := {|
  f64_lt := Z.ltb; f128_lt := Z.ltb; f64_is_nan := λ _, false; f128_is_nan := λ _, false |}.
#[local] Existing Instance toy_soft_float.

(** No tables, before the first action. *)
Definition no_rows {A} : rows A := Rows ∅ 0 cache_empty.
Definition toy_contract_state (d : chain_db) : contract_state :=
  ContractState (toy_apply_state d) ∅ 0 no_rows no_rows no_rows no_rows no_rows no_rows.

Lemma no_rows_wf {A} {RA : Row A} T N : rows_wf T N (@no_rows A).
Proof. split; simpl; try (intros; by simplify_map_eq). apply cache_wf_empty. Qed.

Lemma toy_contract_wf d : ram_in_range d → contract_wf (toy_contract_state d).
Proof.
  intros Hr. split; [|intros tid t Ht; by simplify_map_eq].
  split; simpl; try done.
  split; [apply no_rows_wf|]. intros []; apply no_rows_wf.
Qed.

Lemma toy_room d : room (toy_contract_state d).
Proof. intros tid. unfold total_rows, sum_kinds, table_rows. simpl. by rewrite !msum_empty. Qed.

Definition toy_store : kv_call := Store 3 4 1 9 [65; 66].
Lemma toy_stores :
  ∃ d s' i, toy_chain = Ok d ∧ kv_run toy_env toy_store (toy_contract_state d) = (s', Ok (Number i)).
Proof.
  assert (Hok : (d ← toy_chain; (kv_run toy_env toy_store (toy_contract_state d)).2) = Ok (Number 0))
    by (vm_compute; reflexivity).
  apply bind_ok in Hok as (d & Hd & Hok).
  exists d, (kv_run toy_env toy_store (toy_contract_state d)).1, 0. split; [done|].
  rewrite <-Hok. apply surjective_pairing.
Qed.

Lemma contract_db_invariant_witness :
  ∃ d s' i, toy_chain = Ok d ∧ kv_run toy_env toy_store (toy_contract_state d) = (s', Ok (Number i)) ∧
    contract_wf s' ∧ ∀ b,
      ram_of (st_db (cs_apply s')) b - rows_bytes s' b - tables_bytes s' b =
      ram_of (st_db (cs_apply (toy_contract_state d))) b - rows_bytes (toy_contract_state d) b -
        tables_bytes (toy_contract_state d) b.
Proof.
  destruct toy_stores as (d & s' & i & Hd & H). exists d, s', i. split; [exact Hd|]. split; [exact H|].
  apply (contract_db_invariant (toy_contract_state d) s').
  - apply toy_contract_wf, toy_chain_ram, Hd.
  - apply rtc_once. apply (step_kv toy_env toy_store _ _ (Number i)); [apply toy_room|reflexivity|exact H].
Defined.

Lemma kv_refinement_witness :
  ∃ d s' i m', toy_chain = Ok d ∧ kv_run toy_env toy_store (toy_contract_state d) = (s', Ok (Number i)) ∧
    kv_spec toy_env (toy_contract_state d) ∅ toy_store s' m' (Number i) ∧ represents s' m'.
Proof.
  destruct toy_stores as (d & s' & i & Hd & H).
  destruct (kv_refinement toy_env toy_store (toy_contract_state d) s' ∅ (Number i)) as (m' & Hs & Hr & _).
  - apply toy_contract_wf, toy_chain_ram, Hd.
  - apply toy_room.
  - reflexivity.
  - intros key p v. split; [by rewrite lookup_empty|]. intros (id & a & (Ha & _) & _). discriminate Ha.
  - exact H.
  - by exists d, s', i, m'.
Defined.

Lemma only_end_iterators_dangle_witness :
  ∃ d, toy_chain = Ok d ∧ ∀ env c,
    (kv_run env c (toy_contract_state d)).2 = Throw undefined_behaviour →
    ∃ itr tid, c = Previous itr ∧
      table_cache (r_cache (cs_kv (toy_contract_state d))) !! tid = Some itr ∧
      cs_tables (toy_contract_state d) !! tid = None.
Proof.
  destruct toy_stores as (d & _ & _ & Hd & _). exists d. split; [exact Hd|].
  apply (only_end_iterators_dangle (toy_contract_state d)). apply toy_contract_wf, toy_chain_ram, Hd.
Defined.

(** The exception occurs: a contract stores a row, asks for the end of the table, removes the row and
    with it the table, and steps back from the end. *)
Theorem previous_dangles :
  (d ← toy_chain;
   ((_ ← kv_run toy_env toy_store; _ ← kv_run toy_env (EndOf 1 3 4); _ ← kv_run toy_env (Remove 0);
    kv_run toy_env (Previous (-2))) (toy_contract_state d)).2) = Throw undefined_behaviour.
Proof. vm_compute. reflexivity. Qed.
