(* ===== verification/NativeContract.v ===== *)
(** * The native contract

    Models eosio_contract.cpp of libraries/chain: the handlers of newaccount, setcode, setabi,
    updateauth, deleteauth, linkauth, unlinkauth and canceldelay, on the state of ApplyContext.
    Hashing code and validating WebAssembly are parameters.

    Results: every handler keeps the tables well-formed (the permissions form trees rooted at the
    owner permissions, authorities are valid, every account has its owner and active permission),
    and charges exactly the RAM by which the billable size of the objects of an account changes. *)

From stdpp Require Import strings.
From S2P Require Import Prelude Names Merkle BlockHeader Resources Authority ChainConfig AuthManager.
From S2P Require Import AccessLists ApplyContext.

(** ** Billable sizes (config.hpp, authority.hpp, permission_object.hpp, permission_link_object.hpp) *)
Definition fixed_overhead_shared_vector_ram_bytes : Z := 16.
Definition overhead_per_account_ram_bytes : Z := 2 * 1024.
Definition setcode_ram_bytes_multiplier : Z := 10.
Definition shared_authority_size : Z := billable_size_v (3 * fixed_overhead_shared_vector_ram_bytes + 4).
Definition permission_object_size : Z :=
  billable_size_v ((shared_authority_size + 64) + 5 * overhead_per_row_per_index_ram_bytes).
Definition permission_link_size : Z :=
  billable_size_v (40 + overhead_per_row_per_index_ram_bytes * 3).

Definition newaccount_name : Z := Eval vm_compute in string_to_name (codes "newaccount").
Definition setcode_name : Z := Eval vm_compute in string_to_name (codes "setcode").
Definition setabi_name : Z := Eval vm_compute in string_to_name (codes "setabi").
Definition eonio_prefix : list Z := Eval vm_compute in codes "eonio.".

(** fc::sha256::hash of the code and wasm_interface::validate. *)
Class CodeChecks := {
  code_hash : list Z → digest;
  wasm_validate : list Z → result unit;
}.

Section native.
Context {FC : Fc} {KO : FcKeyOrder} {AC : ActionCodec} {TC : TransactionCodec} {PS : PackSizes}
  {CC : CodeChecks}.

(** The second 64-bit half of the id, as fc::uint128_t( hi, lo ). *)
Definition transaction_id_to_sender_id (tid : digest) : Z :=
  Z.shiftl (_hash3 tid) 64 + _hash2 tid.

Definition check_authority_account (d : chain_db) (a : permission_level_weight) : result unit :=
  let l := plw_permission a in
  _ ← EOS_ASSERT (bool_decide (is_Some (db_accounts d !! actor l))) action_validate_exception;
  if (permission l =? owner_name) || (permission l =? active_name) then mret tt
  else if permission l =? eosio_code_name then mret tt
  else
    match get_permission (db_auth d) l with
    | Ok _ => mret tt
    | Throw e => if decide (e = permission_query_exception) then Throw action_validate_exception
                 else Throw e
    end.

Definition validate_authority_precondition (env : apply_env) (auth : authority) : apply unit :=
  d ← get_db;
  _ ← st_lift (check_all (check_authority_account d) (accounts auth));
  when (env_enforce_whiteblacklist env && env_producing_block env)
    (st_lift (check_all (λ k, check_key_list (env_lists env) (kw_key k)) (keys auth))).

(** [name_str.find( "eonio." ) == 0] *)
Definition has_eonio_prefix (name : Z) : bool :=
  bool_decide (take 6 (name_to_string name) = eonio_prefix).

Definition auth_size (a : authority) : Z := get_billable_size key_pack_size a.

Definition apply_eonio_newaccount (env : apply_env) : apply unit :=
  create ← st_lift (data_as newaccount_name unpack_newaccount (env_act env));
  _ ← require_authorization env (na_creator create);
  _ ← st_assert (validate (na_owner create)) action_validate_exception;
  _ ← st_assert (validate (na_active create)) action_validate_exception;
  _ ← st_assert (negb (na_name create =? 0)) action_validate_exception;
  _ ← st_assert (bool_decide (length (name_to_string (na_name create)) ≤ 12)%nat)
        action_validate_exception;
  d ← get_db;
  creator ← st_lift (of_option (db_accounts d !! na_creator create) db_not_found);
  _ ← when (negb (ao_privileged creator))
        (st_assert (negb (has_eonio_prefix (na_name create))) action_validate_exception);
  _ ← st_assert (bool_decide (db_accounts d !! na_name create = None)) account_name_exists_exception;
  let account := AccountObject 0 0 false 0 digest_zero
    (of_time_point (env_pending_block_time env)) [] [] in
  _ ← put_db (with_accounts d (<[na_name create := account]> (db_accounts d)));
  d ← get_db;
  _ ← st_assert (bool_decide (db_sequences d !! na_name create = None)) db_uniqueness_violation;
  _ ← put_db (with_sequences d (<[na_name create := sequence_default]> (db_sequences d)));
  _ ← validate_authority_precondition env (na_owner create);
  _ ← validate_authority_precondition env (na_active create);
  d ← get_db;
  '(a, owner_permission) ← st_lift (create_permission (env_pending_block_time env) (db_auth d)
     (na_name create) owner_name 0 (na_owner create) 0);
  _ ← put_db (with_auth d a);
  d ← get_db;
  '(a, active_permission) ← st_lift (create_permission (env_pending_block_time env) (db_auth d)
     (na_name create) active_name (po_id owner_permission) (na_active create) 0);
  _ ← put_db (with_auth d a);
  d ← get_db;
  r ← st_lift (initialize_account (db_resources d) (na_name create));
  _ ← put_db (with_resources d r);
  add_ram_usage (na_name create)
    (overhead_per_account_ram_bytes + 2 * permission_object_size +
     auth_size (po_auth owner_permission) + auth_size (po_auth active_permission)).

Definition apply_eonio_setcode (env : apply_env) : apply unit :=
  act ← st_lift (data_as setcode_name unpack_setcode (env_act env));
  _ ← require_authorization env (sc_account act);
  _ ← st_assert (sc_vmtype act =? 0) invalid_contract_vm_type;
  _ ← st_assert (sc_vmversion act =? 0) invalid_contract_vm_version;
  let code_id := if bool_decide (sc_code act = []) then digest_zero else code_hash (sc_code act) in
  _ ← when (bool_decide (sc_code act ≠ [])) (st_lift (wasm_validate (sc_code act)));
  d ← get_db;
  account ← st_lift (of_option (db_accounts d !! sc_account act) db_not_found);
  let old_size := Z.of_nat (length (ao_code account)) * setcode_ram_bytes_multiplier in
  let new_size := Z.of_nat (length (sc_code act)) * setcode_ram_bytes_multiplier in
  _ ← st_assert (bool_decide (ao_code_version account ≠ code_id)) set_exact_code;
  let account := AccountObject (ao_vm_type account) (ao_vm_version account) (ao_privileged account)
    (env_pending_block_time env) code_id (ao_creation_date account) (sc_code act) (ao_abi account) in
  _ ← put_db (with_accounts d (<[sc_account act := account]> (db_accounts d)));
  d ← get_db;
  seq ← st_lift (of_option (db_sequences d !! sc_account act) db_not_found);
  let seq := AccountSequence (recv_sequence seq) (auth_sequence seq) (u64 (code_sequence seq + 1))
    (abi_sequence seq) in
  _ ← put_db (with_sequences d (<[sc_account act := seq]> (db_sequences d)));
  when (negb (new_size =? old_size)) (add_ram_usage (sc_account act) (new_size - old_size)).

Definition apply_eonio_setabi (env : apply_env) : apply unit :=
  act ← st_lift (data_as setabi_name unpack_setabi (env_act env));
  _ ← require_authorization env (sa_account act);
  d ← get_db;
  account ← st_lift (of_option (db_accounts d !! sa_account act) db_not_found);
  let old_size := Z.of_nat (length (ao_abi account)) in
  let new_size := Z.of_nat (length (sa_abi act)) in
  let account := AccountObject (ao_vm_type account) (ao_vm_version account) (ao_privileged account)
    (ao_last_code_update account) (ao_code_version account) (ao_creation_date account)
    (ao_code account) (sa_abi act) in
  _ ← put_db (with_accounts d (<[sa_account act := account]> (db_accounts d)));
  d ← get_db;
  seq ← st_lift (of_option (db_sequences d !! sa_account act) db_not_found);
  let seq := AccountSequence (recv_sequence seq) (auth_sequence seq) (code_sequence seq)
    (u64 (abi_sequence seq + 1)) in
  _ ← put_db (with_sequences d (<[sa_account act := seq]> (db_sequences d)));
  when (negb (new_size =? old_size)) (add_ram_usage (sa_account act) (new_size - old_size)).

(** The checks of the arguments of updateauth. *)
Definition check_updateauth (env : apply_env) (update : updateauth) : apply unit :=
  _ ← st_assert (negb (ua_permission update =? 0)) action_validate_exception;
  _ ← st_assert (negb (has_eonio_prefix (ua_permission update))) action_validate_exception;
  _ ← st_assert (negb (ua_permission update =? ua_parent update)) action_validate_exception;
  d ← get_db;
  _ ← st_lift (of_option (db_accounts d !! ua_account update) db_not_found);
  _ ← st_assert (validate (ua_auth update)) action_validate_exception;
  _ ← when (ua_permission update =? active_name)
        (st_assert (ua_parent update =? owner_name) action_validate_exception);
  _ ← (if ua_permission update =? owner_name
       then st_assert (ua_parent update =? 0) action_validate_exception
       else st_assert (negb (ua_parent update =? 0)) action_validate_exception);
  _ ← (match last (waits (ua_auth update)) with
       | Some w => st_assert (wait_sec w <=? max_transaction_delay (env_config env))
                     action_validate_exception
       | None => mret tt
       end);
  validate_authority_precondition env (ua_auth update).

Definition apply_eonio_updateauth (env : apply_env) : apply unit :=
  update ← st_lift (data_as updateauth_name unpack_updateauth (env_act env));
  _ ← require_authorization env (ua_account update);
  _ ← check_updateauth env update;
  d ← get_db;
  permission ← st_lift (find_permission (db_auth d)
                 (PermissionLevel (ua_account update) (ua_permission update)));
  parent_id ← st_lift (if negb (ua_permission update =? owner_name) then
                         parent ← get_permission (db_auth d)
                           (PermissionLevel (ua_account update) (ua_parent update));
                         mret (po_id parent)
                       else mret 0);
  match permission with
  | Some p =>
      _ ← st_assert (parent_id =? po_parent p) action_validate_exception;
      let old_size := permission_object_size + auth_size (po_auth p) in
      _ ← put_db (with_auth d (modify_permission (env_pending_block_time env) (db_auth d) p
                                 (ua_auth update)));
      let new_size := permission_object_size + auth_size (ua_auth update) in
      add_ram_usage (po_owner p) (new_size - old_size)
  | None =>
      '(a, p) ← st_lift (create_permission (env_pending_block_time env) (db_auth d)
                  (ua_account update) (ua_permission update) parent_id (ua_auth update) 0);
      _ ← put_db (with_auth d a);
      add_ram_usage (ua_account update) (permission_object_size + auth_size (po_auth p))
  end.

(** The range of the index by_permission_name. *)
Definition links_to (a : auth_db) (account : account_name) (perm : permission_name)
    : list (account_name * account_name * action_name) :=
  (filter (λ lp, lp.1.1.1 = account ∧ lp.2 = perm) (map_to_list (permission_link_index a))).*1.

Definition apply_eonio_deleteauth (env : apply_env) : apply unit :=
  remove ← st_lift (data_as deleteauth_name unpack_deleteauth (env_act env));
  _ ← require_authorization env (da_account remove);
  _ ← st_assert (negb (da_permission remove =? active_name)) action_validate_exception;
  _ ← st_assert (negb (da_permission remove =? owner_name)) action_validate_exception;
  d ← get_db;
  _ ← st_assert (bool_decide (links_to (db_auth d) (da_account remove) (da_permission remove) = []))
        action_validate_exception;
  permission ← st_lift (get_permission (db_auth d)
                 (PermissionLevel (da_account remove) (da_permission remove)));
  let old_size := permission_object_size + auth_size (po_auth permission) in
  a ← st_lift (remove_permission (db_auth d) permission);
  _ ← put_db (with_auth d a);
  add_ram_usage (da_account remove) (- old_size).

(** [db.find<permission_object, by_name>( name )]: by_name is ordered by (name, id), and a partial
    key finds a permission of that name of any account. *)
Definition find_by_name (a : auth_db) (name : permission_name) : option permission_object :=
  snd <$> map_find (λ ip, po_name ip.2 = name) (permission_index a).

Definition apply_eonio_linkauth (env : apply_env) : apply unit :=
  requirement ← st_lift (data_as linkauth_name unpack_linkauth (env_act env));
  _ ← st_assert (negb (la_requirement requirement =? 0)) action_validate_exception;
  _ ← require_authorization env (la_account requirement);
  d ← get_db;
  _ ← st_assert (bool_decide (is_Some (db_accounts d !! la_account requirement)))
        account_query_exception;
  _ ← st_assert (bool_decide (is_Some (db_accounts d !! la_code requirement)))
        account_query_exception;
  _ ← when (negb (la_requirement requirement =? eosio_any_name))
        (st_assert (bool_decide (is_Some (find_by_name (db_auth d) (la_requirement requirement))))
           permission_query_exception);
  let link_key := (la_account requirement, la_code requirement, la_type requirement) in
  let set_link := put_db (with_auth d (with_links (db_auth d)
    (<[link_key := la_requirement requirement]> (permission_link_index (db_auth d))))) in
  match permission_link_index (db_auth d) !! link_key with
  | Some required_permission =>
      _ ← st_assert (negb (required_permission =? la_requirement requirement))
            action_validate_exception;
      set_link
  | None =>
      _ ← set_link;
      add_ram_usage (la_account requirement) permission_link_size
  end.

Definition apply_eonio_unlinkauth (env : apply_env) : apply unit :=
  unlink ← st_lift (data_as unlinkauth_name unpack_unlinkauth (env_act env));
  _ ← require_authorization env (ul_account unlink);
  d ← get_db;
  let link_key := (ul_account unlink, ul_code unlink, ul_type unlink) in
  _ ← st_assert (bool_decide (is_Some (permission_link_index (db_auth d) !! link_key)))
        action_validate_exception;
  _ ← add_ram_usage (ul_account unlink) (- permission_link_size);
  d ← get_db;
  put_db (with_auth d (with_links (db_auth d) (delete link_key (permission_link_index (db_auth d))))).

Definition apply_eonio_canceldelay (env : apply_env) : apply unit :=
  cancel ← st_lift (data_as canceldelay_name unpack_canceldelay (env_act env));
  _ ← require_authorization env (actor (cd_canceling_auth cancel));
  _ ← cancel_deferred_transaction (transaction_id_to_sender_id (cd_trx_id cancel)) 0;
  mret tt.

(** The handlers that controller_impl registers for the system account. *)
Definition find_apply_handler (receiver scope : account_name) (name : action_name)
    : option (apply_env → apply unit) :=
  if negb ((receiver =? system_account_name) && (scope =? system_account_name)) then None
  else if name =? newaccount_name then Some apply_eonio_newaccount
  else if name =? setcode_name then Some apply_eonio_setcode
  else if name =? setabi_name then Some apply_eonio_setabi
  else if name =? updateauth_name then Some apply_eonio_updateauth
  else if name =? deleteauth_name then Some apply_eonio_deleteauth
  else if name =? linkauth_name then Some apply_eonio_linkauth
  else if name =? unlinkauth_name then Some apply_eonio_unlinkauth
  else if name =? canceldelay_name then Some apply_eonio_canceldelay
  else None.

End native.

Abbreviation apply := (stM apply_state).

(** ** Well-formed tables and the RAM they are billed for *)

(** What the serialization guarantees: byte vectors have a 32-bit length, and the integers of an
    authority have their width. *)
Class ActionCodecLaws `{ActionCodec} : Prop := {
  unpack_setcode_range : ∀ d a, unpack_setcode d = Ok a → Z.of_nat (length (sc_code a)) < 2 ^ 32;
  unpack_setabi_range : ∀ d a, unpack_setabi d = Ok a → Z.of_nat (length (sa_abi a)) < 2 ^ 32;
  unpack_newaccount_wf : ∀ d a, unpack_newaccount d = Ok a →
    authority_wf (na_owner a) ∧ authority_wf (na_active a);
  unpack_updateauth_wf : ∀ d a, unpack_updateauth d = Ok a → authority_wf (ua_auth a);
}.

Section native_spec.
Context {FC : Fc} {KO : FcKeyOrder} {AC : ActionCodec} {TC : TransactionCodec} {PS : PackSizes}
  {CC : CodeChecks} {ACL : ActionCodecLaws} {PSL : PackSizesLaws}.
Implicit Types (d : chain_db) (s : apply_state).

(** [authority( 1, {}, {} )], which nothing satisfies. *)
Definition empty_authority : authority := Authority 1 [] [] [].
Definition stored_authority (a : authority) : Prop :=
  authority_wf a ∧ (validate a = true ∨ a = empty_authority).

(** The permissions form trees (see [permissions_wf]), one for each account: its root, and only its
    root, is the owner permission, and the active permission is a child of the root. *)
Record tables_wf (d : chain_db) : Prop := {
  tw_permissions : permissions_wf (db_auth d);
  tw_authorities : ∀ id p, permission_index (db_auth d) !! id = Some p → id ≠ 0 →
    stored_authority (po_auth p);
  tw_owners : ∀ id p, permission_index (db_auth d) !! id = Some p → id ≠ 0 →
    is_Some (db_accounts d !! po_owner p) ∧ (po_parent p = 0 ↔ po_name p = owner_name);
  tw_accounts : ∀ a, is_Some (db_accounts d !! a) → a ≠ 0 ∧
    ∃ owner active, find_by_owner (db_auth d) a owner_name = Some owner ∧
      find_by_owner (db_auth d) a active_name = Some active ∧ po_parent active = po_id owner;
  tw_sequences : ∀ a, is_Some (db_accounts d !! a) → is_Some (db_sequences d !! a);
  tw_code : ∀ a o, db_accounts d !! a = Some o →
    Z.of_nat (length (ao_code o)) < 2 ^ 32 ∧ Z.of_nat (length (ao_abi o)) < 2 ^ 32;
}.

Definition chain_wf (d : chain_db) : Prop := tables_wf d ∧ ram_in_range d.

(** The bytes of the objects that an account pays for. *)
Definition account_bytes (o : account_object) : Z :=
  overhead_per_account_ram_bytes +
  Z.of_nat (length (ao_code o)) * setcode_ram_bytes_multiplier + Z.of_nat (length (ao_abi o)).
Definition permission_bytes (p : permission_object) : Z := permission_object_size + auth_size (po_auth p).
Definition permissions_footprint (a : auth_db) (b : account_name) : Z :=
  msum (λ _ p, if decide (po_owner p = b) then permission_bytes p else 0) (permission_index a).
Definition links_footprint (a : auth_db) (b : account_name) : Z :=
  msum (λ k _, if decide (k.1.1 = b) then permission_link_size else 0) (permission_link_index a).
Definition footprint (d : chain_db) (b : account_name) : Z :=
  from_option account_bytes 0 (db_accounts d !! b) + permissions_footprint (db_auth d) b +
  links_footprint (db_auth d) b + generated_footprint d b.

(** [d'] is well-formed and every counter changed by as much as the bytes of its account. *)
Definition billed (d d' : chain_db) : Prop :=
  chain_wf d' ∧ ∀ b, ram_of d' b - footprint d' b = ram_of d b - footprint d b.

(** *** Sizes *)
Lemma keys_size_range f l n :
  (∀ k, 0 <= f k < 2 ^ 32) →
  n <= foldl (λ t k, t + billable_size_v 8 + f (kw_key k)) n l <= n + Z.of_nat (length l) * 2 ^ 33.
Proof.
  intros Hf. revert n. induction l as [|k l IH]; intros n; simpl; [lia|].
  specialize (IH (n + billable_size_v 8 + f (kw_key k))). specialize (Hf (kw_key k)).
  change (billable_size_v 8) with 16 in *. lia.
Qed.

Lemma auth_size_range a : stored_authority a → 0 <= auth_size a < 2 ^ 60.
Proof.
  intros [_ Hv].
  assert (Z.of_nat (length (keys a) + length (accounts a) + length (waits a)) <= 65536) as Hl.
  { destruct Hv as [Hv|Hv]; [|by subst a].
    apply Z.nlt_ge. intros Hl%Z.ltb_lt. unfold validate in Hv. by rewrite Hl in Hv. }
  unfold auth_size, get_billable_size.
  pose proof (keys_size_range key_pack_size (keys a) 0 key_pack_size_range).
  change (billable_size_v 24) with 32. change (billable_size_v 16) with 16. lia.
Qed.

Lemma permission_bytes_range p : stored_authority (po_auth p) → 0 <= permission_bytes p < 2 ^ 61.
Proof.
  intros H%auth_size_range. unfold permission_bytes. change permission_object_size with 288. lia.
Qed.

(** *** Billing *)

(** Tables changed to [st_db s] without touching the counters, then one counter is charged. *)
Lemma add_ram_usage_billed d s s' a delta u :
  tables_wf (st_db s) → ram_in_range d → in_i64 delta →
  (∀ b, ram_of (st_db s) b = ram_of d b) → ram_in_range (st_db s) →
  (∀ b, footprint (st_db s) b = footprint d b + if decide (b = a) then delta else 0) →
  add_ram_usage a delta s = (s', Ok u) → billed d (st_db s').
Proof.
  intros Hwf _ Hd Hram Hr Hf H.
  apply add_ram_usage_exact in H as (f & Hdb & Hr' & Hram'); [|done|done].
  split.
  - split; [|done]. rewrite Hdb. destruct Hwf. by split.
  - intros b. rewrite Hram', Hram.
    assert (footprint (st_db s') b = footprint (st_db s) b) as -> by by rewrite Hdb.
    rewrite Hf. lia.
Qed.

(** *** Changes of single tables *)
Lemma footprint_accounts d a o b :
  footprint (with_accounts d (<[a := o]> (db_accounts d))) b =
  footprint d b +
  if decide (b = a) then account_bytes o - from_option account_bytes 0 (db_accounts d !! a) else 0.
Proof.
  unfold footprint. cbn [with_accounts db_accounts db_auth].
  change (generated_footprint (with_accounts _ _)) with (generated_footprint d).
  destruct (decide (b = a)) as [->|].
  - rewrite lookup_insert_eq. simpl. lia.
  - rewrite lookup_insert_ne by done. lia.
Qed.

Lemma permissions_footprint_insert a id p b a' :
  permission_index a' = <[id := p]> (permission_index a) →
  permissions_footprint a' b = permissions_footprint a b +
  (if decide (po_owner p = b) then permission_bytes p else 0) -
  from_option (λ q, if decide (po_owner q = b) then permission_bytes q else 0) 0
    (permission_index a !! id).
Proof. intros E. unfold permissions_footprint. rewrite E, msum_insert. done. Qed.

(** An account keeps its owner and active permissions when the rows that carry these names are
    kept. *)
Lemma accounts_keep_permissions d a' m :
  permissions_wf (db_auth d) → permissions_wf a' →
  (∀ id p, permission_index (db_auth d) !! id = Some p →
     po_name p = owner_name ∨ po_name p = active_name →
     ∃ p', permission_index a' !! id = Some p' ∧ po_id p' = po_id p ∧ po_parent p' = po_parent p ∧
       po_owner p' = po_owner p ∧ po_name p' = po_name p) →
  ∀ owner active, find_by_owner (db_auth d) m owner_name = Some owner →
    find_by_owner (db_auth d) m active_name = Some active → po_parent active = po_id owner →
  ∃ owner active, find_by_owner a' m owner_name = Some owner ∧
    find_by_owner a' m active_name = Some active ∧ po_parent active = po_id owner.
Proof.
  intros Hwf Hwf' Hk owner active Ho Ha Hp.
  apply find_by_owner_Some_1 in Ho as (i & Hi & Hi1 & Hi2).
  apply find_by_owner_Some_1 in Ha as (j & Hj & Hj1 & Hj2).
  destruct (Hk _ _ Hi) as (o' & ? & ? & ? & ? & ?); [by left|].
  destruct (Hk _ _ Hj) as (a0 & ? & ? & ? & ? & ?); [by right|].
  exists o', a0. split_and!; [eapply find_by_owner_Some; (done || congruence)..|congruence].
Qed.

Lemma tables_wf_account d a o :
  tables_wf d → is_Some (db_accounts d !! a) →
  Z.of_nat (length (ao_code o)) < 2 ^ 32 → Z.of_nat (length (ao_abi o)) < 2 ^ 32 →
  tables_wf (with_accounts d (<[a := o]> (db_accounts d))).
Proof.
  intros [] Ha Hc Hb.
  assert (∀ b, is_Some (<[a := o]> (db_accounts d) !! b) ↔ is_Some (db_accounts d !! b)) as Hdom.
  { intros b. rewrite lookup_insert_is_Some. destruct (decide (a = b)) as [->|]; naive_solver. }
  split; cbn [with_accounts db_accounts db_auth db_sequences]; try done.
  - intros id p. rewrite Hdom. eauto.
  - intros b. rewrite Hdom. eauto.
  - intros b. rewrite Hdom. eauto.
  - intros b o' [[_ <-]|[_ Hb']]%lookup_insert_Some; eauto.
Qed.

Lemma tables_wf_sequence d a q :
  tables_wf d → tables_wf (with_sequences d (<[a := q]> (db_sequences d))).
Proof.
  intros []. split; try done. intros b Hb. apply lookup_insert_is_Some'. by right; apply tw_sequences0.
Qed.

(** setcode and setabi: the account is replaced, the sequences too, and a difference of the sizes is
    charged. *)
Lemma account_changed d s1 s' a o o' q n m u :
  tables_wf d → ram_in_range d → db_accounts d !! a = Some o →
  Z.of_nat (length (ao_code o')) < 2 ^ 32 → Z.of_nat (length (ao_abi o')) < 2 ^ 32 →
  account_bytes o' - account_bytes o = n - m →
  st_db s1 = with_sequences (with_accounts d (<[a := o']> (db_accounts d)))
               (<[a := q]> (db_sequences d)) →
  when (negb (n =? m)) (add_ram_usage a (n - m)) s1 = (s', Ok u) → billed d (st_db s').
Proof.
  intros Hwf Hr Ha Hc Hb Hnm Hs1 H.
  assert (tables_wf (st_db s1)) as Hwf1.
  { rewrite Hs1. apply (tables_wf_sequence (with_accounts _ _)), tables_wf_account; eauto. }
  assert (∀ b, footprint (st_db s1) b = footprint d b + if decide (b = a) then n - m else 0) as Hf.
  { intros b. rewrite Hs1. change (footprint (with_sequences ?x _)) with (footprint x).
    rewrite footprint_accounts, Ha. simpl. case_decide; lia. }
  assert (∀ b, ram_of (st_db s1) b = ram_of d b) as Hram by (intros; by rewrite Hs1).
  assert (ram_in_range (st_db s1)) as Hr1 by by rewrite Hs1.
  apply when_ok in H as [[_ H]|[E ->]].
  - eapply add_ram_usage_billed; [exact Hwf1|exact Hr| |done..].
    destruct (tw_code _ Hwf _ _ Ha). rewrite <-Hnm. unfold account_bytes, in_i64.
    change setcode_ram_bytes_multiplier with 10. lia.
  - reflect_bools. split; [done|]. intros b. rewrite Hram, Hf. case_decide; lia.
Qed.

Lemma setcode_spec env s s' u :
  chain_wf (st_db s) → apply_eonio_setcode env s = (s', Ok u) → billed (st_db s) (st_db s').
Proof.
  intros [Hwf Hr] H. unfold apply_eonio_setcode in H. inv_apply.
  apply require_auth_db in Hrun0. rewrite <-Hrun0 in *.
  assert (s4 = s1) as -> by (apply when_ok in Hrun3 as [[_ ?]|[_ ->]]; by inv_st).
  unfold data_as in H2. inv_ok. pose proof (unpack_setcode_range _ _ H2).
  destruct (tw_code _ Hwf _ _ H1).
  eapply account_changed; [exact Hwf|exact Hr|exact H1|..]; cycle 4;
    [exact H|..]; cycle 3; [reflexivity|done|done|]. unfold account_bytes. simpl. lia.
Qed.

Lemma setabi_spec env s s' u :
  chain_wf (st_db s) → apply_eonio_setabi env s = (s', Ok u) → billed (st_db s) (st_db s').
Proof.
  intros [Hwf Hr] H. unfold apply_eonio_setabi in H. inv_apply.
  apply require_auth_db in Hrun0. rewrite <-Hrun0 in *.
  unfold data_as in H2. inv_ok. pose proof (unpack_setabi_range _ _ H2).
  destruct (tw_code _ Hwf _ _ H1).
  eapply account_changed; [exact Hwf|exact Hr|exact H1|..]; cycle 4;
    [exact H|..]; cycle 3; [reflexivity|done|done|]. unfold account_bytes. simpl. lia.
Qed.

Lemma tables_wf_links d m : tables_wf d → tables_wf (with_auth d (with_links (db_auth d) m)).
Proof. intros []. split; try done. by apply with_links_wf. Qed.

Lemma footprint_links d m b :
  footprint (with_auth d (with_links (db_auth d) m)) b =
  footprint d b + links_footprint (with_links (db_auth d) m) b - links_footprint (db_auth d) b.
Proof.
  unfold footprint. change (generated_footprint (with_auth _ _)) with (generated_footprint d).
  change (permissions_footprint (db_auth (with_auth _ _))) with (permissions_footprint (db_auth d)).
  simpl. lia.
Qed.

Lemma links_footprint_insert a k p b o :
  permission_link_index a !! k = o →
  links_footprint (with_links a (<[k := p]> (permission_link_index a))) b =
  links_footprint a b + if o is None then if decide (k.1.1 = b) then permission_link_size else 0 else 0.
Proof.
  intros Ho. unfold links_footprint. cbn [with_links permission_link_index].
  rewrite msum_insert, Ho. destruct o; simpl; lia.
Qed.

Lemma links_footprint_delete a k b :
  is_Some (permission_link_index a !! k) →
  links_footprint (with_links a (delete k (permission_link_index a))) b =
  links_footprint a b - if decide (k.1.1 = b) then permission_link_size else 0.
Proof.
  intros [p Hp]. unfold links_footprint. cbn [with_links permission_link_index].
  rewrite msum_delete_any. by rewrite Hp.
Qed.

Lemma linkauth_spec env s s' u :
  chain_wf (st_db s) → apply_eonio_linkauth env s = (s', Ok u) → billed (st_db s) (st_db s').
Proof.
  intros [Hwf Hr] H. unfold apply_eonio_linkauth in H. inv_apply.
  apply require_auth_db in Hrun1. rewrite <-Hrun1 in *.
  destruct (permission_link_index _ !! _) as [required|] eqn:El; inv_apply.
  - simpl. split; [by split; [apply tables_wf_links|]|]. intros b. rewrite footprint_links.
    rewrite (links_footprint_insert _ _ _ _ _ El). change (ram_of (with_auth _ _)) with (ram_of (st_db s2)). lia.
  - eapply add_ram_usage_billed; [..|exact H]; try done; [by apply tables_wf_links|].
    intros b. simpl. rewrite footprint_links, (links_footprint_insert _ _ _ _ _ El). simpl.
    repeat case_decide; subst; try done; lia.
Qed.

Lemma unlinkauth_spec env s s' u :
  chain_wf (st_db s) → apply_eonio_unlinkauth env s = (s', Ok u) → billed (st_db s) (st_db s').
Proof.
  intros [Hwf Hr] H. unfold apply_eonio_unlinkauth in H. inv_apply.
  apply require_auth_db in Hrun0. rewrite <-Hrun0 in *. reflect_bools. destruct H1 as [p Hp].
  apply add_ram_usage_exact in Hrun3 as (f & Hdb & Hr' & Hram); [|done|done].
  split; [split; [|exact Hr']|].
  - simpl. apply (tables_wf_links (st_db s4)). rewrite Hdb. destruct Hwf. by split.
  - intros b. simpl. rewrite footprint_links. change (ram_of (with_auth _ _)) with (ram_of (st_db s4)).
    rewrite Hram, Hdb, links_footprint_delete by (by exists p).
    change (footprint (with_resources _ _)) with (footprint (st_db s1)). simpl.
    repeat case_decide; subst; try done; lia.
Qed.

Lemma cancel_deferred_spec sender_id sender s s' b :
  chain_wf (st_db s) → cancel_deferred_transaction sender_id sender s = (s', Ok b) →
  billed (st_db s) (st_db s').
Proof.
  intros [Hwf Hr] (Hr' & Ha & Hq & Hp & _ & Hram)%cancel_deferred_exact; [|done].
  split; [split; [|done]|].
  - destruct Hwf. split; rewrite ?Ha, ?Hq, ?Hp; done.
  - intros c. unfold footprint. rewrite Ha, Hp. specialize (Hram c). lia.
Qed.

Lemma canceldelay_spec env s s' u :
  chain_wf (st_db s) → apply_eonio_canceldelay env s = (s', Ok u) → billed (st_db s) (st_db s').
Proof.
  intros [Hwf Hr] H. unfold apply_eonio_canceldelay in H. inv_apply.
  apply require_auth_db in Hrun0. rewrite <-Hrun0 in *.
  by apply (cancel_deferred_spec _ _ _ _ _ (conj Hwf Hr)) in Hrun1.
Qed.

Lemma schedule_deferred_spec env sender_id payer trx s s' u :
  chain_wf (st_db s) → find_generated (st_db s) (env_receiver env) sender_id = None →
  schedule_deferred_transaction env sender_id payer trx false s = (s', Ok u) →
  billed (st_db s) (st_db s').
Proof.
  intros [Hwf Hr] Hnone H.
  apply schedule_deferred_stores in H as (s0 & s1 & id & g & Hs0 & <- & Hg & _ & Hid & -> & H).
  rewrite Hnone in Hid. rewrite <-Hg in H. change (_ + packed_size _) with (generated_bytes g) in H.
  eapply add_ram_usage_billed; [..|exact H]; try done; [by destruct Hwf| |].
  - pose proof (generated_bytes_range g). unfold in_i64. lia.
  - intros b. simpl. unfold footprint. cbn [with_generated db_accounts db_auth].
    unfold generated_footprint. cbn [with_generated db_generated].
    rewrite msum_insert, Hid. simpl. repeat case_decide; subst; try done; lia.
Qed.

(** *** Changes of the permissions *)
Definition row_wf (d : chain_db) (p : permission_object) : Prop :=
  stored_authority (po_auth p) ∧ is_Some (db_accounts d !! po_owner p) ∧
  (po_parent p = 0 ↔ po_name p = owner_name).

Lemma tables_wf_auth d a' :
  tables_wf d → permissions_wf a' →
  (∀ id p, permission_index a' !! id = Some p → id ≠ 0 →
     permission_index (db_auth d) !! id = Some p ∨ row_wf d p) →
  (∀ id p, permission_index (db_auth d) !! id = Some p →
     po_name p = owner_name ∨ po_name p = active_name →
     ∃ p', permission_index a' !! id = Some p' ∧ po_id p' = po_id p ∧ po_parent p' = po_parent p ∧
       po_owner p' = po_owner p ∧ po_name p' = po_name p) →
  tables_wf (with_auth d a').
Proof.
  intros [] Hwf' Hrows Hkeep. split; cbn [with_auth db_auth db_accounts db_sequences]; try done.
  - intros id p Hp Hid. destruct (Hrows id p Hp Hid) as [Hold|[? _]]; eauto.
  - intros id p Hp Hid. destruct (Hrows id p Hp Hid) as [Hold|[_ ?]]; eauto.
  - intros a Ha. destruct (tw_accounts0 a Ha) as (? & o & v & ? & ? & ?). split; [done|].
    by eapply accounts_keep_permissions.
Qed.

Lemma footprint_auth d a' b :
  permission_link_index a' = permission_link_index (db_auth d) →
  footprint (with_auth d a') b =
  footprint d b + permissions_footprint a' b - permissions_footprint (db_auth d) b.
Proof.
  intros E. unfold footprint. change (generated_footprint (with_auth _ _)) with (generated_footprint d).
  assert (links_footprint (db_auth (with_auth d a')) b = links_footprint (db_auth d) b) as ->.
  { unfold links_footprint. simpl. by rewrite E. }
  simpl. lia.
Qed.

Lemma fresh_permission a : permissions_wf a → permission_index a !! next_permission_id a = None.
Proof.
  intros Hwf. apply eq_None_not_Some. intros [p Hp]. destruct (pw_id _ Hwf _ _ Hp). lia.
Qed.

(** A new permission below an existing one. *)
Lemma create_permission_tables now d account name parent q auth t a' p :
  tables_wf d → create_permission now (db_auth d) account name parent auth t = Ok (a', p) →
  is_Some (db_accounts d !! account) → stored_authority auth → name ≠ owner_name →
  permission_index (db_auth d) !! parent = Some q → parent ≠ 0 → po_owner q = account →
  tables_wf (with_auth d a').
Proof.
  intros Hwf Hc Hacc Hauth Hname Hq Hp0 Hqo. pose proof (tw_permissions _ Hwf) as Hpw.
  assert (permissions_wf a') as Hpw'.
  { eapply create_permission_wf; [done|exact Hc| |eauto]. by apply (tw_accounts _ Hwf). }
  apply create_permission_ok in Hc as (_ & Hp & ->). cbn [permission_index] in *.
  apply tables_wf_auth; [done|done|..]; cbn [permission_index].
  - intros id r [[_ <-]|[_ Hr]]%lookup_insert_Some _; [right|by left]. subst p. simpl.
    split; [done|]. split; [done|]. done.
  - intros id r Hr _. exists r. rewrite lookup_insert_ne; [done|].
    intros <-. by rewrite fresh_permission in Hr.
Qed.

Lemma create_permission_footprint now d account name parent auth t a' p b :
  permissions_wf (db_auth d) →
  create_permission now (db_auth d) account name parent auth t = Ok (a', p) →
  footprint (with_auth d a') b =
  footprint d b + if decide (b = account) then permission_object_size + auth_size auth else 0.
Proof.
  intros Hwf (_ & -> & ->)%create_permission_ok. rewrite footprint_auth by done.
  erewrite permissions_footprint_insert by done. rewrite fresh_permission by done.
  simpl. unfold permission_bytes. repeat case_decide; subst; try done; simpl; lia.
Qed.

Lemma modify_permission_tables now d p auth :
  tables_wf d → permission_index (db_auth d) !! po_id p = Some p → po_id p ≠ 0 →
  stored_authority auth → tables_wf (with_auth d (modify_permission now (db_auth d) p auth)).
Proof.
  intros Hwf Hp Hp0 Hauth. destruct (tw_owners _ Hwf _ _ Hp Hp0) as [Ho Hroot].
  apply tables_wf_auth; [done|by apply modify_permission_wf; [apply Hwf|..]|..]; simpl.
  - intros id r [[_ <-]|[_ Hr]]%lookup_insert_Some _; [right|by left]. by split.
  - intros id r Hr _. destruct (decide (po_id p = id)) as [<-|].
    + rewrite lookup_insert_eq. eexists. split; [done|]. by simplify_eq.
    + rewrite lookup_insert_ne by done. by exists r.
Qed.

Lemma remove_permission_tables d p a' :
  tables_wf d → permission_index (db_auth d) !! po_id p = Some p → po_id p ≠ 0 →
  po_name p ≠ owner_name → po_name p ≠ active_name →
  remove_permission (db_auth d) p = Ok a' → tables_wf (with_auth d a').
Proof.
  intros Hwf Hp Hp0 Hn1 Hn2 Hrm. pose proof (remove_permission_wf _ _ _ (tw_permissions _ Hwf) Hp Hp0 Hrm).
  apply remove_permission_ok in Hrm as (_ & ->).
  apply tables_wf_auth; [done|done|..]; simpl.
  - intros id r [_ Hr]%lookup_delete_Some _. by left.
  - intros id r Hr Hname. exists r. split; [|done]. rewrite lookup_delete_ne; [done|].
    intros <-. simplify_eq. naive_solver.
Qed.

Lemma deleteauth_spec env s s' u :
  chain_wf (st_db s) → apply_eonio_deleteauth env s = (s', Ok u) → billed (st_db s) (st_db s').
Proof.
  intros [Hwf Hr] H. unfold apply_eonio_deleteauth in H. inv_apply.
  apply require_auth_db in Hrun0. rewrite <-Hrun0 in *. reflect_bools.
  destruct (get_permission_row _ _ _ (tw_permissions _ Hwf) H1) as (Hp & Hp0 & Hpo & Hpn).
  simpl in Hpo, Hpn.
  assert (stored_authority (po_auth r5)) as Hauth by by eapply (tw_authorities _ Hwf).
  eapply add_ram_usage_billed; [..|exact H]; try done.
  - simpl. eapply remove_permission_tables; try done; congruence.
  - pose proof (permission_bytes_range r5 Hauth). unfold permission_bytes, in_i64 in *. lia.
  - intros b. apply remove_permission_ok in H0 as (_ & ->). simpl. rewrite footprint_auth by done.
    unfold permissions_footprint. simpl. rewrite msum_delete_any, Hp. simpl.
    unfold permission_bytes. repeat case_decide; subst; try done; lia.
Qed.

Lemma validate_precondition_state env auth s s' u :
  validate_authority_precondition env auth s = (s', Ok u) → s' = s.
Proof.
  unfold validate_authority_precondition. intros H. inv_apply.
  apply when_ok in H as [[_ H]|[_ ->]]; by inv_st.
Qed.

Lemma check_updateauth_ok env update s s' u :
  check_updateauth env update s = (s', Ok u) →
  s' = s ∧ validate (ua_auth update) = true ∧ is_Some (db_accounts (st_db s) !! ua_account update).
Proof.
  unfold check_updateauth. intros H. inv_apply.
  apply when_ok in Hrun5 as Hs.
  assert (s' = s); [|by subst; split_and!; eauto].
  apply validate_precondition_state in H as ->.
  transitivity s7; [|transitivity s6].
  - destruct (last _); by inv_st.
  - destruct (ua_permission update =? owner_name); by inv_st.
  - destruct Hs as [[_ Hs]|[_ ->]]; by inv_st.
Qed.

Lemma updateauth_spec env s s' u :
  chain_wf (st_db s) → apply_eonio_updateauth env s = (s', Ok u) → billed (st_db s) (st_db s').
Proof.
  intros [Hwf Hr] H. unfold apply_eonio_updateauth in H. inv_apply.
  apply require_auth_db in Hrun0. rewrite <-Hrun0 in *.
  apply check_updateauth_ok in Hrun1 as (-> & Hval & Hacc).
  unfold data_as in H2. inv_ok. apply unpack_updateauth_wf in H2.
  assert (stored_authority (ua_auth r)) as Hauth by (split; [done|by left]).
  unfold find_permission in H1. inv_ok. pose proof (auth_size_range _ Hauth) as Hsz.
  destruct (find_by_owner _ _ _) as [p|] eqn:Ef; inv_apply.
  - assert (get_permission (db_auth (st_db s1)) (PermissionLevel (ua_account r) (ua_permission r)) = Ok p)
      as Hg by (unfold get_permission; by rewrite Hrun2; simpl; rewrite Ef).
    apply (get_permission_row _ _ _ (tw_permissions _ Hwf)) in Hg as (Hp & Hp0 & Hpo & Hpn).
    pose proof (auth_size_range _ (tw_authorities _ Hwf _ _ Hp Hp0)).
    eapply add_ram_usage_billed; [..|exact H]; try done.
    + by apply modify_permission_tables.
    + unfold in_i64. lia.
    + intros b. simpl. rewrite footprint_auth by done.
      erewrite permissions_footprint_insert by done. rewrite Hp. simpl.
      unfold permission_bytes. repeat case_decide; subst; simpl in *; try done; lia.
  - destruct (tw_accounts _ Hwf _ Hacc) as (_ & o & _ & Ho & _).
    assert (ua_permission r ≠ owner_name) as Hne by congruence.
    rewrite (proj2 (Z.eqb_neq _ _) Hne) in H0. simpl in H0. inv_ok.
    destruct (get_permission_row _ _ _ (tw_permissions _ Hwf) Hrun3) as (Hq & Hq0 & Hqo & _).
    destruct r3 as [a p]. inv_apply.
    assert (po_auth p = ua_auth r) as Hpa by by apply create_permission_ok in H1 as (_ & -> & _).
    eapply add_ram_usage_billed; [..|exact H]; try done.
    + by eapply create_permission_tables.
    + rewrite Hpa. unfold in_i64. change permission_object_size with 288. lia.
    + intros b. simpl. rewrite Hpa. eapply create_permission_footprint; [apply Hwf|done].
Qed.

(** *** New accounts *)
Section new_account.
Variables (d d' : chain_db) (now t : time_point) (n : account_name) (o : account_object)
  (q : account_sequence_object) (owner active : authority) (a1 a2 : auth_db)
  (po pa : permission_object).
Hypotheses (Hwf : tables_wf d) (Hn : n ≠ 0) (Hnew : db_accounts d !! n = None)
  (Howner : stored_authority owner) (Hactive : stored_authority active)
  (Hcode : Z.of_nat (length (ao_code o)) < 2 ^ 32) (Habi : Z.of_nat (length (ao_abi o)) < 2 ^ 32)
  (H1 : create_permission now (db_auth d) n owner_name 0 owner t = Ok (a1, po))
  (H2 : create_permission now a1 n active_name (po_id po) active t = Ok (a2, pa))
  (Haccounts : db_accounts d' = <[n := o]> (db_accounts d))
  (Hsequences : db_sequences d' = <[n := q]> (db_sequences d))
  (Hauth : db_auth d' = a2).

Lemma new_account_permissions : permissions_wf a1 ∧ permissions_wf a2.
Proof using Hwf Hn H1 H2.
  destruct (pw_reserved _ (tw_permissions _ Hwf)) as (r & Hr & _).
  assert (permissions_wf a1) as Hwf1
    by (eapply create_permission_wf; [apply Hwf|exact H1|done|eauto]).
  split; [done|]. eapply create_permission_wf; [done|exact H2|done|].
  apply create_permission_ok in H1 as (_ & E & E1). rewrite E1, E.
  eexists. split; [apply lookup_insert_eq|by right].
Qed.

Lemma new_account_rows id p :
  permission_index a2 !! id = Some p →
  p = pa ∨ p = po ∨ permission_index (db_auth d) !! id = Some p.
Proof using H1 H2.
  apply create_permission_ok in H1 as (_ & _ & E1). apply create_permission_ok in H2 as (_ & _ & E2).
  rewrite E2, E1. cbn [permission_index]. intros [[_ <-]|[_ [[_ <-]|[_ Hp]]%lookup_insert_Some]]%lookup_insert_Some; auto.
Qed.

Lemma new_account_keeps id p :
  permission_index (db_auth d) !! id = Some p → permission_index a2 !! id = Some p.
Proof using Hwf Hn H1 H2.
  destruct new_account_permissions as [Hw1 _]. pose proof (fresh_permission _ Hw1) as Hf1.
  pose proof (fresh_permission _ (tw_permissions _ Hwf)) as Hf.
  apply create_permission_ok in H1 as (_ & _ & E1). apply create_permission_ok in H2 as (_ & _ & E2).
  rewrite E1 in Hf1. rewrite E2, E1. cbn [permission_index next_permission_id] in *. intros Hp.
  destruct (decide (next_permission_id (db_auth d) = id)) as [<-|Hne]; [congruence|].
  rewrite lookup_insert_ne; [by rewrite lookup_insert_ne|].
  intros E. rewrite E, lookup_insert_ne in Hf1 by done. congruence.
Qed.

Lemma new_account_find :
  find_by_owner a2 n owner_name = Some po ∧ find_by_owner a2 n active_name = Some pa ∧
  po_parent pa = po_id po ∧ po_parent po = 0 ∧ po_id po ≠ 0 ∧ po_auth po = owner ∧ po_auth pa = active ∧
  po_owner po = n ∧ po_owner pa = n ∧ po_name po = owner_name ∧ po_name pa = active_name.
Proof using Hwf Hn H1 H2 o.
  destruct new_account_permissions as [Hw1 Hw2]. pose proof (fresh_permission _ Hw1) as Hf.
  apply create_permission_ok in H1 as E1. apply create_permission_ok in H2 as E2.
  destruct E1 as (_ & Ep & Ea1), E2 as (_ & Ev & Ea2).
  assert (permission_index a2 !! po_id po = Some po) as Hpo.
  { rewrite Ea2. simpl. rewrite lookup_insert_ne.
    - rewrite Ea1, Ep. apply lookup_insert_eq.
    - rewrite Ea1, Ep. simpl. lia. }
  assert (permission_index a2 !! po_id pa = Some pa) as Hpa.
  { rewrite Ea2, Ev. simpl. apply lookup_insert_eq. }
  assert (0 < next_permission_id (db_auth d)) as Hpos.
  { destruct (pw_reserved _ (tw_permissions _ Hwf)) as (r & Hr & _).
    destruct (pw_id _ (tw_permissions _ Hwf) _ _ Hr). lia. }
  split; [eapply find_by_owner_Some; [done|exact Hpo|by rewrite Ep..]|].
  split; [eapply find_by_owner_Some; [done|exact Hpa|by rewrite Ev..]|].
  rewrite Ev, Ep. simpl. split_and!; try done. lia.
Qed.

Lemma new_account_tables : tables_wf d'.
Proof using All.
  destruct new_account_permissions as [_ Hw2].
  destruct new_account_find as (Hfo & Hfa & Hpar & Hroot & Hid & Ho & Ha & Hoo & Hao & Hon & Han).
  assert (∀ b, is_Some (db_accounts d' !! b) ↔ b = n ∨ is_Some (db_accounts d !! b)) as Hdom.
  { intros b. rewrite Haccounts, lookup_insert_is_Some. destruct (decide (n = b)); naive_solver. }
  split; rewrite ?Hauth.
  - done.
  - intros id p [->|[->|Hp]]%new_account_rows Hid0; [by rewrite Ha|by rewrite Ho|].
    by eapply (tw_authorities _ Hwf).
  - intros id p [->|[->|Hp]]%new_account_rows Hid0; rewrite Hdom.
    + split; [by left|]. rewrite Hpar, Han. by split.
    + split; [by left|]. by rewrite Hroot, Hon.
    + destruct (tw_owners _ Hwf _ _ Hp Hid0). split; [by right|done].
  - intros b [->|Hb]%Hdom; [split; [done|]; by exists po, pa|].
    destruct (tw_accounts _ Hwf b Hb) as (? & v & w & ? & ? & ?). split; [done|].
    eapply (accounts_keep_permissions d); try done; [apply Hwf|].
    intros id p Hp%new_account_keeps _. by exists p.
  - intros b [->|Hb]%Hdom; rewrite Hsequences; [by rewrite lookup_insert_eq|].
    apply lookup_insert_is_Some'. right. by apply (tw_sequences _ Hwf).
  - intros b c. rewrite Haccounts. intros [[_ <-]|[_ Hb]]%lookup_insert_Some; [done|].
    by eapply (tw_code _ Hwf).
Qed.

Lemma new_account_footprint b :
  db_generated d' = db_generated d →
  footprint d' b = footprint d b + if decide (b = n) then
    account_bytes o + 2 * permission_object_size + auth_size owner + auth_size active else 0.
Proof using Hwf Hn H1 H2 Hnew Haccounts Hauth.
  intros Hg. destruct new_account_permissions as [Hw1 _].
  set (d1 := with_accounts (with_auth d a1) (<[n := o]> (db_accounts d))).
  assert (footprint d' b = footprint (with_auth d1 a2) b) as ->.
  { unfold footprint, generated_footprint. rewrite Haccounts, Hauth, Hg. done. }
  erewrite (create_permission_footprint _ d1) by (exact Hw1 || exact H2).
  unfold d1. rewrite (footprint_accounts (with_auth d a1)). cbn [with_auth db_accounts]. rewrite Hnew.
  erewrite create_permission_footprint by (exact H1 || apply Hwf).
  simpl. repeat case_decide; lia.
Qed.
End new_account.

Lemma initialize_account_ram r n r' :
  initialize_account r n = Ok r' →
  usage_index r !! n = None ∧ usage_index r' = <[n := usage_default]> (usage_index r).
Proof. unfold initialize_account. intros H. inv_ok. by reflect_bools. Qed.

Lemma newaccount_spec env s s' u :
  chain_wf (st_db s) → apply_eonio_newaccount env s = (s', Ok u) → billed (st_db s) (st_db s').
Proof.
  intros [Hwf Hr] H. unfold apply_eonio_newaccount in H. inv_apply.
  apply require_auth_db in Hrun0. rewrite <-Hrun0 in *. clear s Hrun0.
  assert (s8 = s1) as -> by (apply when_ok in Hrun7 as [[_ ?]|[_ ->]]; by inv_st).
  apply validate_precondition_state in Hrun14 as ->. apply validate_precondition_state in Hrun13 as ->.
  destruct r16 as [a1 po]. inv_apply. destruct r15 as [a2 pa]. inv_apply. reflect_bools.
  cbn [set_db st_db with_auth with_accounts with_sequences with_resources db_auth db_accounts
       db_sequences db_resources] in *.
  unfold data_as in H2. inv_ok. apply unpack_newaccount_wf in H2 as [Hw1 Hw2].
  assert (stored_authority (na_owner r)) as Ho by (split; [done|by left]).
  assert (stored_authority (na_active r)) as Ha by (split; [done|by left]).
  pose proof (auth_size_range _ Ho). pose proof (auth_size_range _ Ha).
  destruct (new_account_find _ _ _ _ account_default _ _ _ _ _ _ Hwf H6 H0 H9)
    as (_ & _ & _ & _ & _ & Eo & Ea & _).
  apply initialize_account_ram in H10 as [Hnone Husage]. rewrite Eo, Ea in H.
  change (overhead_per_account_ram_bytes) with (2048) in H.
  eapply add_ram_usage_billed; [..|exact H]; try done.
  - eapply new_account_tables; [exact Hwf|exact H6|exact H4|exact Ho|exact Ha|..]; cycle 2;
      [exact H0|exact H9|reflexivity..|done|done].
  - unfold in_i64. change permission_object_size with 288. lia.
  - intros b. unfold ram_of. simpl. rewrite Husage. destruct (decide (na_name r = b)) as [<-|].
    + by rewrite lookup_insert_eq, Hnone.
    + by rewrite lookup_insert_ne.
  - intros b v. simpl. rewrite Husage. intros [[_ <-]|[_ Hv]]%lookup_insert_Some; [done|by eapply Hr].
  - intros b. erewrite new_account_footprint;
      [|exact Hwf|exact H6|exact H4|exact H0|exact H9|reflexivity..]. done.
Qed.

(** *** Steps of the tables *)

(** A handler of the native contract, or an operation that a contract may call; deferred
    transactions that replace others are left out (see [schedule_deferred_ram]). *)
Inductive chain_step : chain_db → chain_db → Prop :=
| step_native env s s' h u :
    find_apply_handler (env_receiver env) (act_account (env_act env)) (act_name (env_act env)) = Some h →
    h env s = (s', Ok u) → chain_step (st_db s) (st_db s')
| step_schedule env sender_id payer trx s s' u :
    find_generated (st_db s) (env_receiver env) sender_id = None →
    schedule_deferred_transaction env sender_id payer trx false s = (s', Ok u) →
    chain_step (st_db s) (st_db s')
| step_cancel sender_id sender s s' b :
    cancel_deferred_transaction sender_id sender s = (s', Ok b) → chain_step (st_db s) (st_db s')
| step_global s s' n : next_global_sequence s = (s', Ok n) → chain_step (st_db s) (st_db s')
| step_recv a s s' n : next_recv_sequence a s = (s', Ok n) → chain_step (st_db s) (st_db s')
| step_auth a s s' n : next_auth_sequence a s = (s', Ok n) → chain_step (st_db s) (st_db s').

Lemma handler_spec receiver scope name h env s s' u :
  find_apply_handler receiver scope name = Some h → chain_wf (st_db s) → h env s = (s', Ok u) →
  billed (st_db s) (st_db s').
Proof.
  unfold find_apply_handler. intros Hh Hwf.
  repeat match type of Hh with
  | (if ?c then _ else _) = _ => destruct c; [first [discriminate Hh|injection Hh as <-]|]
  end; [eauto using newaccount_spec, setcode_spec, setabi_spec, updateauth_spec, deleteauth_spec,
          linkauth_spec, unlinkauth_spec, canceldelay_spec..|done].
Qed.

Lemma billed_sequences d a q :
  chain_wf d → billed d (with_sequences d (<[a := q]> (db_sequences d))).
Proof. intros [Hwf Hr]. split; [split; [by apply tables_wf_sequence|done]|done]. Qed.

Lemma chain_step_billed d d' : chain_step d d' → chain_wf d → billed d d'.
Proof.
  intros [env s s' h u Hh H|env i p t s s' u Hn H|i p s s' b H|s s' n H|a s s' n H|a s s' n H] Hwf.
  - by eapply handler_spec.
  - by eapply schedule_deferred_spec.
  - by eapply cancel_deferred_spec.
  - unfold next_global_sequence in H. inv_apply. destruct Hwf as [[] ?].
    split; [split; [by split|done]|done].
  - unfold next_recv_sequence in H. inv_apply. by apply billed_sequences.
  - unfold next_auth_sequence in H. inv_apply. by apply billed_sequences.
Qed.

Lemma chain_steps_billed d d' : rtc chain_step d d' → chain_wf d → billed d d'.
Proof.
  induction 1 as [d|d d1 d' Hs _ IH]; intros Hwf; [by split|].
  destruct (chain_step_billed _ _ Hs Hwf) as [Hwf1 Hb1]. destruct (IH Hwf1) as [? Hb].
  split; [done|]. intros b. by rewrite Hb, Hb1.
Qed.

End native_spec.
