(* ===== verification/Genesis.v ===== *)
(** * The database at genesis

    Models create_native_account and initialize_database of controller.cpp, which build the tables
    that the native contract works on: the accounts eonio, eonio.null and eonio.prods with their
    permissions.  The packed ABI of the system account is a parameter.

    Results: the initial tables are well-formed, and from there every sequence of native actions,
    deferred transactions and sequence numbers keeps them well-formed; the RAM counter of an account
    starts as the size of its objects, less what genesis leaves unbilled: the ABI of eonio and two
    permissions of eonio.prods. *)

From stdpp Require Import strings.
From S2P Require Import Prelude Names Merkle BlockHeader Resources Authority ChainConfig AuthManager.
From S2P Require Import AccessLists ApplyContext NativeContract.

Definition null_account_name : Z := Eval vm_compute in string_to_name (codes "eonio.null").
Definition producers_account_name : Z := Eval vm_compute in string_to_name (codes "eonio.prods").
Definition majority_producers_permission_name : Z :=
  Eval vm_compute in string_to_name (codes "prod.major").
Definition minority_producers_permission_name : Z :=
  Eval vm_compute in string_to_name (codes "prod.minor").

(** The serialization of [eosio_contract_abi( abi_def() )]. *)
Class SystemAbi := { system_abi : list Z }.
Class SystemAbiLaws `{SystemAbi} : Prop := {
  system_abi_range : Z.of_nat (length system_abi) < 2 ^ 32;
}.

Section genesis.
Context {FC : Fc} {KO : FcKeyOrder} {AC : ActionCodec} {TC : TransactionCodec} {PS : PackSizes}
  {CC : CodeChecks} {SA : SystemAbi}.

Record genesis_state := GenesisState {
  initial_configuration : chain_config;
  initial_timestamp : time_point;
  initial_key : public_key;
}.

(** The tables that initialize_database fills. *)
Record genesis_db := GenesisDb {
  block_summaries : list digest;
  global_configuration : chain_config;
  chain_tables : chain_db;
}.

(** [create_permission] at genesis: without a pending block, a creation time of zero cannot be
    replaced by the pending block time. *)
Definition create_permission_at_genesis (g : genesis_state) (a : auth_db) (account : account_name)
    (name : permission_name) (parent : Z) (auth : authority) : result (auth_db * permission_object) :=
  _ ← EOS_ASSERT (negb (initial_timestamp g =? 0)) block_validate_exception;
  create_permission 0 a account name parent auth (initial_timestamp g).

Definition create_native_account (g : genesis_state) (d : chain_db) (name : account_name)
    (owner active : authority) (is_privileged : bool) : result chain_db :=
  _ ← EOS_ASSERT (bool_decide (db_accounts d !! name = None)) db_uniqueness_violation;
  let account := AccountObject 0 0 is_privileged 0 digest_zero (of_time_point (initial_timestamp g)) []
    (if name =? system_account_name then system_abi else []) in
  let d := with_accounts d (<[name := account]> (db_accounts d)) in
  _ ← EOS_ASSERT (bool_decide (db_sequences d !! name = None)) db_uniqueness_violation;
  let d := with_sequences d (<[name := sequence_default]> (db_sequences d)) in
  '(a, owner_permission) ← create_permission_at_genesis g (db_auth d) name owner_name 0 owner;
  '(a, active_permission) ← create_permission_at_genesis g a name active_name
                              (po_id owner_permission) active;
  r ← initialize_account (db_resources d) name;
  let ram_delta := overhead_per_account_ram_bytes + 2 * permission_object_size +
    auth_size (po_auth owner_permission) + auth_size (po_auth active_permission) in
  r ← add_pending_ram_usage r name ram_delta;
  _ ← verify_account_ram_usage r name;
  mret (with_resources (with_auth d a) r).

(** [authority( 1, {}, {} )] with one account. *)
Definition active_producers_authority : authority :=
  Authority 1 [] [PermissionLevelWeight (PermissionLevel system_account_name active_name) 1] [].

Definition create_native_accounts (g : genesis_state) (d : chain_db) : result chain_db :=
  let system_auth := authority_of_key (initial_key g) 0 in
  d ← create_native_account g d system_account_name system_auth system_auth true;
  d ← create_native_account g d null_account_name empty_authority empty_authority false;
  d ← create_native_account g d producers_account_name empty_authority active_producers_authority false;
  active_permission ← get_permission (db_auth d) (PermissionLevel producers_account_name active_name);
  '(a, majority_permission) ← create_permission_at_genesis g (db_auth d) producers_account_name
     majority_producers_permission_name (po_id active_permission) active_producers_authority;
  '(a, _) ← create_permission_at_genesis g a producers_account_name
     minority_producers_permission_name (po_id majority_permission) active_producers_authority;
  mret (with_auth d a).

(** 2^16 rows, of which row 1 is the genesis block. *)
Definition initial_block_summaries (head_id : digest) : list digest :=
  <[1%nat := head_id]> (replicate (Z.to_nat 65536) digest_zero).

Definition initialize_database (g : genesis_state) (head_id : digest) : result genesis_db :=
  _ ← config_validate (initial_configuration g);
  a ← initialize_permissions;
  d ← create_native_accounts g (ChainDb ∅ ∅ a Resources.initialize_database ∅ 0);
  mret (GenesisDb (initial_block_summaries head_id) (initial_configuration g) d).

End genesis.

(** ** The ledger from genesis on *)
Section ledger.
Context {FC : Fc} {KO : FcKeyOrder} {AC : ActionCodec} {TC : TransactionCodec} {PS : PackSizes}
  {CC : CodeChecks} {SA : SystemAbi} {ACL : ActionCodecLaws} {PSL : PackSizesLaws} {SAL : SystemAbiLaws}.
Implicit Types d : chain_db.

Lemma create_at_genesis_ok g a account name parent auth a' p :
  create_permission_at_genesis g a account name parent auth = Ok (a', p) →
  create_permission 0 a account name parent auth (initial_timestamp g) = Ok (a', p).
Proof. unfold create_permission_at_genesis. intros H. by inv_ok. Qed.

(** Every authority of genesis can be stored. *)
Lemma system_authority_stored k : stored_authority (authority_of_key k 0).
Proof. split; [by apply authority_of_key_wf|by left]. Qed.
Lemma empty_authority_stored : stored_authority empty_authority.
Proof. split; [|by right]. split; [by vm_compute|]. by repeat constructor. Qed.
Lemma producers_authority_stored : stored_authority active_producers_authority.
Proof.
  split; [|by left]. split; [by vm_compute|]. split; [constructor|]. split; [|constructor].
  by repeat constructor.
Qed.
#[local] Hint Resolve system_authority_stored empty_authority_stored producers_authority_stored : core.

(** A native account is billed for its objects, without its ABI. *)
Lemma native_account_spec g d name owner active priv d' :
  chain_wf d → name ≠ 0 → stored_authority owner → stored_authority active →
  create_native_account g d name owner active priv = Ok d' →
  chain_wf d' ∧ ∀ b, ram_of d' b - footprint d' b = ram_of d b - footprint d b -
    if decide (b = name ∧ name = system_account_name) then Z.of_nat (length system_abi) else 0.
Proof.
  intros [Hwf Hr] Hn Ho Ha H. unfold create_native_account in H. inv_ok.
  destruct r1 as [a1 po]. inv_ok. destruct r1 as [a2 pa]. inv_ok. reflect_bools.
  apply create_at_genesis_ok in Hrun1. apply create_at_genesis_ok in Hrun2.
  destruct (new_account_find _ _ _ _ account_default _ _ _ _ _ _ Hwf Hn Hrun1 Hrun2)
    as (_ & _ & _ & _ & _ & Eo & Ea & _). rewrite Eo, Ea in *.
  pose proof (auth_size_range _ Ho). pose proof (auth_size_range _ Ha).
  assert (Z.of_nat (length (if name =? system_account_name then system_abi else [])) < 2 ^ 32) as Habi.
  { destruct (_ =? _); [apply system_abi_range|done]. }
  apply initialize_account_ram in Hrun3 as [Hnone Husage].
  eapply add_pending_ram_usage_exact in Hrun4 as (f & -> & Hf & Hram).
  - split; [split|].
    + eapply new_account_tables; [exact Hwf|exact Hn|done|exact Ho|exact Ha|..]; cycle 2;
        [exact Hrun1|exact Hrun2|reflexivity..|done|exact Habi].
    + exact Hf.
    + intros b.
      erewrite (new_account_footprint d);
        [|exact Hwf|exact Hn|done|exact Hrun1|exact Hrun2|reflexivity..].
      unfold ram_of at 1. simpl. rewrite Hram, Husage. unfold account_bytes. simpl.
      change overhead_per_account_ram_bytes with 2048.
      destruct (decide (b = name)) as [->|Hb].
      * rewrite lookup_insert_eq. unfold ram_of. rewrite Hnone. simpl.
        destruct (name =? system_account_name) eqn:E; reflect_bools; simpl;
          [rewrite decide_True by done|rewrite decide_False by tauto]; lia.
      * rewrite lookup_insert_ne by done. rewrite decide_False by tauto. unfold ram_of. lia.
  - intros b v. rewrite Husage. intros [[_ <-]|[_ Hv]]%lookup_insert_Some; [by vm_compute|by eapply Hr].
  - unfold in_i64. change permission_object_size with 288. change overhead_per_account_ram_bytes with 2048. lia.
Qed.

(** A permission below another one, which nobody is billed for. *)
Lemma genesis_permission_spec g d name parent q auth a' p account :
  chain_wf d → create_permission_at_genesis g (db_auth d) account name parent auth = Ok (a', p) →
  permission_index (db_auth d) !! parent = Some q → parent ≠ 0 → po_owner q = account →
  stored_authority auth → name ≠ owner_name →
  chain_wf (with_auth d a') ∧
  (permission_index a' !! po_id p = Some p ∧ po_id p ≠ 0 ∧ po_owner p = account) ∧
  ∀ b, ram_of (with_auth d a') b - footprint (with_auth d a') b = ram_of d b - footprint d b -
    if decide (b = account) then permission_object_size + auth_size auth else 0.
Proof.
  intros [Hwf Hr] Hc%create_at_genesis_ok Hq Hp0 <- Ha Hn.
  assert (tables_wf (with_auth d a')) as Hwf'.
  { eapply create_permission_tables; try done. by eapply tw_owners. }
  split; [by split|]. split.
  - assert (0 < next_permission_id (db_auth d)).
    { destruct (pw_id _ (tw_permissions _ Hwf) _ _ Hq). lia. }
    apply create_permission_ok in Hc as (_ & -> & ->). simpl. rewrite lookup_insert_eq.
    split_and!; try done. lia.
  - intros b. rewrite (create_permission_footprint _ _ _ _ _ _ _ _ _ _ (tw_permissions _ Hwf) Hc).
    change (ram_of (with_auth d a')) with (ram_of d). lia.
Qed.

(** What genesis leaves unbilled. *)
Definition unbilled (b : account_name) : Z :=
  (if decide (b = system_account_name) then Z.of_nat (length system_abi) else 0) +
  (if decide (b = producers_account_name) then
     2 * (permission_object_size + auth_size active_producers_authority) else 0).

Lemma empty_tables a :
  initialize_permissions = Ok a →
  let d := ChainDb ∅ ∅ a Resources.initialize_database ∅ 0 in
  chain_wf d ∧ ∀ b, b ≠ 0 → ram_of d b - footprint d b = 0.
Proof.
  intros Ha. pose proof (initialize_permissions_wf _ Ha) as Hwf.
  rewrite initialize_permissions_eq in Ha. injection Ha as <-. split.
  - split; [|intros b v Hv; simpl in Hv; by rewrite lookup_empty in Hv].
    split; simpl; try done; try (intros b [x Hx]; by rewrite lookup_empty in Hx).
    + intros id p [[<- _]|[_ Hp]]%lookup_insert_Some; [done|by rewrite lookup_empty in Hp].
    + intros id p [[<- _]|[_ Hp]]%lookup_insert_Some; [done|by rewrite lookup_empty in Hp].
  - intros b Hb. unfold footprint, permissions_footprint. simpl.
    rewrite msum_insert_None by apply lookup_empty. rewrite decide_False by done. done.
Qed.

Lemma native_accounts_spec g d d' :
  chain_wf d → create_native_accounts g d = Ok d' →
  chain_wf d' ∧ ∀ b, ram_of d' b - footprint d' b = ram_of d b - footprint d b - unbilled b.
Proof.
  intros Hwf. unfold create_native_accounts. intros H. inv_ok.
  apply native_account_spec in Hrun as [Hwf1 H1]; [|done..|auto|auto].
  apply native_account_spec in Hrun0 as [Hwf2 H2]; [|done..|auto|auto].
  apply native_account_spec in Hrun1 as [Hwf3 H3]; [|done..|auto|auto].
  destruct (get_permission_row _ _ _ (tw_permissions _ (proj1 Hwf3)) Hrun2) as (Hp & Hp0 & Hpo & _).
  simpl in Hpo. destruct r3 as [a4 p4]. inv_ok. destruct r3 as [a5 p5]. inv_ok.
  eapply genesis_permission_spec in Hrun3 as (Hwf4 & (Hq & Hq0 & Hqo) & H4);
    [|exact Hwf3|exact Hp|done|done|auto|done].
  eapply (genesis_permission_spec g (with_auth r1 a4)) in Hrun as (Hwf5 & _ & H5);
    [|exact Hwf4|exact Hq|done|done|auto|done].
  split; [exact Hwf5|]. intros b. etransitivity; [exact (H5 b)|].
  rewrite H4, H3, H2, H1. unfold unbilled. repeat case_decide; naive_solver lia.
Qed.

Lemma genesis_spec g h db :
  initialize_database g h = Ok db →
  chain_wf (chain_tables db) ∧
  ∀ b, b ≠ 0 → ram_of (chain_tables db) b = footprint (chain_tables db) b - unbilled b.
Proof.
  unfold initialize_database.
  intros (? & _ & (a & Ha & (d & Hd & [= <-])%bind_ok)%bind_ok)%bind_ok. cbn [chain_tables].
  destruct (empty_tables _ Ha) as [Hwf H0].
  destruct (native_accounts_spec _ _ _ Hwf Hd) as [Hwf' Hl]. split; [done|].
  intros b Hb. specialize (Hl b). specialize (H0 b Hb). lia.
Qed.

(** C6: Along every run from genesis the tables stay well-formed: the permissions of each account are
    a tree whose root is its owner permission with the active permission below it, every stored
    authority has passed [validate] (or is the empty authority of genesis), every permission belongs
    to an account and every account has its sequence numbers. *)
Theorem reachable_chain_wf g h db d :
  initialize_database g h = Ok db → rtc chain_step (chain_tables db) d → chain_wf d.
Proof. intros [Hwf _]%genesis_spec Hs. by apply (chain_steps_billed _ _ Hs). Qed.

End ledger.

(** ** A concrete run *)
#[local] Existing Instances toy_fc toy_key_order.

(** Actions that create an account held by one key, set an ABI of two bytes, or link a permission. *)
Inductive toy_native :=
| ToyNewAccount (creator name key : Z)
| ToySetAbi (account : Z)
| ToyLink (a : linkauth)
| ToyUnlink (a : unlinkauth).

Definition toy_native_codec : ActionCodec := {|
  action_data := toy_native;
  unpack_newaccount := λ d,
    match d with
    | ToyNewAccount c n k => Ok (NewAccount c n (authority_of_key k 0) (authority_of_key k 0))
    | _ => Throw unpack_exception
    end;
  unpack_setcode := λ _, Throw unpack_exception;
  unpack_setabi := λ d, match d with ToySetAbi a => Ok (SetAbi a [1; 2]) | _ => Throw unpack_exception end;
  unpack_updateauth := λ _, Throw unpack_exception;
  unpack_deleteauth := λ _, Throw unpack_exception;
  unpack_linkauth := λ d, match d with ToyLink a => Ok a | _ => Throw unpack_exception end;
  unpack_unlinkauth := λ d, match d with ToyUnlink a => Ok a | _ => Throw unpack_exception end;
  unpack_canceldelay := λ _, Throw unpack_exception;
|}.
#[local] Existing Instance toy_native_codec.

Lemma toy_native_laws : ActionCodecLaws.
Proof.
  split; intros []; try done.
  - intros a [= <-]. done.
  - intros a [= <-]. split; by apply authority_of_key_wf.
Qed.
#[local] Existing Instance toy_native_laws.

Definition toy_native_transactions : TransactionCodec := {|
  packed_trx := list action;
  unpack_actions := λ l, Ok l;
|}.
#[local] Existing Instance toy_native_transactions.

Definition toy_native_sizes : PackSizes := {|
  packed_size := λ _, 100;
  trx_id := λ _, digest_zero;
  trx_delay_sec := λ _, 0;
  trx_context_free_actions := λ _, [];
  trx_prepared := λ _ t, t;
  key_pack_size := λ _, 34;
|}.
#[local] Existing Instance toy_native_sizes.
Lemma toy_native_sizes_laws : PackSizesLaws.
Proof. split; intros ?; by vm_compute. Qed.
#[local] Existing Instance toy_native_sizes_laws.

Definition toy_code_checks : CodeChecks := {|
  code_hash := λ c, Digest (Z.of_nat (length c)) 0 0 0;
  wasm_validate := λ _, Ok tt;
|}.
Definition toy_system_abi : SystemAbi := {| system_abi := [10; 20; 30] |}.
#[local] Existing Instances toy_code_checks toy_system_abi.
Lemma toy_system_abi_laws : SystemAbiLaws.
Proof. split. by vm_compute. Qed.
#[local] Existing Instance toy_system_abi_laws.

Definition alice : Z := Eval vm_compute in string_to_name (codes "alice").
Definition toy_genesis : genesis_state := GenesisState ChainConfig.initial_configuration 1000000 7.

(** eonio creates alice, and replaces its own ABI. *)
Definition toy_native_env (who : account_name) (name : action_name) (data : toy_native) : apply_env :=
  ApplyEnv system_account_name (Action system_account_name name [PermissionLevel who active_name] data)
    true ChainConfig.initial_configuration 1500000 1500000 false false false false
    (AccessLists [] [] [] [] [] [] []) false 100000 false false.
Definition toy_native_state (d : chain_db) : apply_state := ApplyState d [false] ∅ ∅ [] [] [] 0.
Definition toy_native_act (who : account_name) (name : action_name)
    (h : apply_env → stM apply_state unit) (data : toy_native) (d : chain_db) : result chain_db :=
  let '(s, r) := h (toy_native_env who name data) (toy_native_state d) in
  _ ← r; mret (st_db s).

Lemma toy_native_act_step who name h data d d' :
  find_apply_handler system_account_name system_account_name name = Some h →
  toy_native_act who name h data d = Ok d' → chain_step d d'.
Proof.
  unfold toy_native_act. intros Hh. destruct (h _ _) as [s [[]|e]] eqn:E; intros [= <-].
  exact (step_native (toy_native_env who name data) (toy_native_state d) s h tt Hh E).
Qed.

Definition toy_run (d : chain_db) : result chain_db :=
  d ← toy_native_act system_account_name newaccount_name apply_eonio_newaccount
        (ToyNewAccount system_account_name alice 9) d;
  toy_native_act system_account_name setabi_name apply_eonio_setabi (ToySetAbi system_account_name) d.

Lemma toy_run_steps d d' : toy_run d = Ok d' → rtc chain_step d d'.
Proof.
  unfold toy_run. intros (d1 & H1 & H2)%bind_ok.
  eapply rtc_l; [eapply toy_native_act_step; [|exact H1]; reflexivity|].
  eapply rtc_once, toy_native_act_step; [|exact H2]; reflexivity.
Qed.

Lemma toy_run_ok :
  ∃ db d, initialize_database toy_genesis digest_zero = Ok db ∧ toy_run (chain_tables db) = Ok d ∧
    ram_of d alice = 2048 + 2 * (288 + 50) ∧ ram_of d system_account_name = 2048 + 2 * (288 + 50) - 1.
Proof.
  assert (E : (db ← initialize_database toy_genesis digest_zero; d ← toy_run (chain_tables db);
     mret (ram_of d alice, ram_of d system_account_name)) =
     Ok (2048 + 2 * (288 + 50), 2048 + 2 * (288 + 50) - 1)) by (vm_compute; reflexivity).
  apply bind_ok in E as (db & Hdb & E). apply bind_ok in E as (d & Hd & E).
  exists db, d. split; [exact Hdb|]. split; [exact Hd|]. injection E as -> ->. split; reflexivity.
Qed.

Lemma reachable_chain_wf_witness :
  ∃ db d, initialize_database toy_genesis digest_zero = Ok db ∧ rtc chain_step (chain_tables db) d ∧
    ram_of d alice = 2724 ∧ chain_wf d.
Proof.
  destruct toy_run_ok as (db & d & Hdb & Hd & Ha & _). apply toy_run_steps in Hd.
  exists db, d. split; [exact Hdb|]. split; [exact Hd|]. split; [exact Ha|].
  exact (reachable_chain_wf _ _ _ _ Hdb Hd).
Defined.

(** linkauth looks the required permission up by its name alone: alice links the action 5 of eonio to
    prod.major, a permission that only eonio.prods has, and from then on every action 5 that alice
    declares is refused, because the minimum permission cannot be found. *)
Theorem linkauth_accepts_foreign_permission :
  (db ← initialize_database toy_genesis digest_zero;
   d ← toy_native_act system_account_name newaccount_name apply_eonio_newaccount
         (ToyNewAccount system_account_name alice 9) (chain_tables db);
   d ← toy_native_act alice linkauth_name apply_eonio_linkauth
         (ToyLink (LinkAuth alice system_account_name 5 majority_producers_permission_name)) d;
   mret (lookup_linked_permission (db_auth d) alice system_account_name 5,
         bool_decide (find_by_owner (db_auth d) alice majority_producers_permission_name = None),
         check_declared_auth (db_auth d)
           (Action system_account_name 5 [PermissionLevel alice active_name] (ToySetAbi alice))
           (PermissionLevel alice active_name))) =
  Ok (Some majority_producers_permission_name, true, Throw permission_query_exception).
Proof. vm_compute. reflexivity. Qed.
