(* ===== verification/TransactionContext.v ===== *)
(** * The context of a transaction

    Models transaction_context.cpp and transaction_context.hpp of libraries/chain: the limits that a
    transaction starts with, the net and CPU time it is billed for, its deadline, and the billing of
    its accounts at the end; with the header of transactions (transaction.hpp) and the checks of
    controller.cpp on the time and the reference block of a transaction.

    An operation is a function on [trx_state]; what is fixed for a transaction is in [trx_env].  The
    clock is read by its callers: [now] is what fc::time_point::now() returns, and [expired] whether
    the timer of the deadline has fired.  Running the actions is in Execution.

    Whether the bill at the end of a transaction can fail is settled in Billing and Controller. *)

From stdpp Require Import sorting.
From S2P Require Import Prelude Wp Names Merkle BlockHeader Resources Authority ChainConfig AuthManager.
From S2P Require Import AccessLists ApplyContext.

(** ** transaction.hpp *)
Record transaction `{ActionCodec} := Transaction {
  tr_expiration : Z;                      (** seconds *)
  tr_ref_block_num : Z;
  tr_ref_block_prefix : Z;
  tr_max_net_usage_words : Z;
  tr_max_cpu_usage_ms : Z;
  tr_delay_sec : Z;
  tr_context_free_actions : list action;
  tr_actions : list action;
  tr_extensions : list (Z * list Z);
}.
Arguments Transaction {_ _} _ _ _ _ _ _ _ _ _.

Section transaction_context.
Context {FC : Fc} {AC : ActionCodec} {TC : TransactionCodec} {PS : PackSizes}.

Definition first_authorizor (t : transaction) : account_name :=
  match tr_actions t ≫= act_authorization with
  | [] => 0
  | u :: _ => actor u
  end.

(** [_hash[0]] and [_hash[1]] of a block id are two words of 64 bits. *)
Definition verify_reference_block (t : transaction) (reference_block : digest) : bool :=
  (tr_ref_block_num t =? u16 (endian_reverse_u32 (u32 (_hash0 reference_block)))) &&
  (tr_ref_block_prefix t =? u32 (_hash1 reference_block)).

(** The int64 codes that say which limit the deadline comes from. *)
Inductive deadline_code := BlockCpu | TxCpu | Leeway | Deadline.
#[global] Instance deadline_code_eq_dec : EqDecision deadline_code.
Proof. solve_decision. Defined.

(** ** State *)

(** What the controller fixes for a transaction. *)
Record trx_env := TrxEnv {
  te_trx : transaction;
  te_config : chain_config;
  te_pending_block_time : time_point;
  te_producing_block : bool;
  te_skip_trx_checks : bool;
  te_skip_auth_check : bool;
  te_resource_greylist : gset account_name;
  te_lists : access_lists;
  te_allow_ram_billing_in_notify : bool;
  te_enforce_whiteblacklist : bool;
  te_start : time_point;
  te_deadline : time_point;
  te_leeway : Z;
  te_explicit_billed_cpu_time : bool;
}.

(** The fields of the context that change, but for [net_usage] and [validate_ram_usage]. *)
Record tctx := Tctx {
  tc_bill_to_accounts : list account_name;
  tc_published : time_point;
  tc_delay : Z;
  tc_is_input : bool;
  tc_apply_context_free : bool;
  tc_billed_cpu_time_us : Z;
  tc_is_initialized : bool;
  tc_net_limit : Z;
  tc_net_limit_due_to_block : bool;
  tc_net_limit_due_to_greylist : bool;
  tc_eager_net_limit : Z;
  tc_cpu_limit_due_to_greylist : bool;
  tc_initial_objective_duration_limit : Z;
  tc_objective_duration_limit : Z;
  tc_deadline : time_point;
  tc_deadline_code : deadline_code;
  tc_billing_timer_code : deadline_code;
  tc_pseudo_start : time_point;
  tc_billed_time : Z;
  tc_billing_timer_duration_limit : Z;
}.

(** fc::time_point::maximum() *)
Definition time_point_maximum : time_point := INT64_MAX.

(** The constructor. *)
Definition new_context (env : trx_env) (billed_cpu_time_us : Z) : tctx :=
  Tctx [] 0 0 false true billed_cpu_time_us false 0 true false 0 false 0 0 time_point_maximum
    BlockCpu BlockCpu (te_start env) 0 0.

Definition set_net (c : tctx) (limit : Z) (block greylist : bool) (eager : Z) : tctx :=
  Tctx (tc_bill_to_accounts c) (tc_published c) (tc_delay c) (tc_is_input c) (tc_apply_context_free c)
    (tc_billed_cpu_time_us c) (tc_is_initialized c) limit block greylist eager
    (tc_cpu_limit_due_to_greylist c) (tc_initial_objective_duration_limit c)
    (tc_objective_duration_limit c) (tc_deadline c) (tc_deadline_code c) (tc_billing_timer_code c)
    (tc_pseudo_start c) (tc_billed_time c) (tc_billing_timer_duration_limit c).
Definition set_cpu (c : tctx) (greylist : bool) (initial objective : Z) (billing : deadline_code) : tctx :=
  Tctx (tc_bill_to_accounts c) (tc_published c) (tc_delay c) (tc_is_input c) (tc_apply_context_free c)
    (tc_billed_cpu_time_us c) (tc_is_initialized c) (tc_net_limit c) (tc_net_limit_due_to_block c)
    (tc_net_limit_due_to_greylist c) (tc_eager_net_limit c) greylist initial objective (tc_deadline c)
    (tc_deadline_code c) billing (tc_pseudo_start c) (tc_billed_time c)
    (tc_billing_timer_duration_limit c).
Definition set_deadline (c : tctx) (d : time_point) (code : deadline_code) (duration : Z) : tctx :=
  Tctx (tc_bill_to_accounts c) (tc_published c) (tc_delay c) (tc_is_input c) (tc_apply_context_free c)
    (tc_billed_cpu_time_us c) (tc_is_initialized c) (tc_net_limit c) (tc_net_limit_due_to_block c)
    (tc_net_limit_due_to_greylist c) (tc_eager_net_limit c) (tc_cpu_limit_due_to_greylist c)
    (tc_initial_objective_duration_limit c) (tc_objective_duration_limit c) d code
    (tc_billing_timer_code c) (tc_pseudo_start c) (tc_billed_time c) duration.
Definition set_timer (c : tctx) (pseudo_start : time_point) (billed_time : Z) : tctx :=
  Tctx (tc_bill_to_accounts c) (tc_published c) (tc_delay c) (tc_is_input c) (tc_apply_context_free c)
    (tc_billed_cpu_time_us c) (tc_is_initialized c) (tc_net_limit c) (tc_net_limit_due_to_block c)
    (tc_net_limit_due_to_greylist c) (tc_eager_net_limit c) (tc_cpu_limit_due_to_greylist c)
    (tc_initial_objective_duration_limit c) (tc_objective_duration_limit c) (tc_deadline c)
    (tc_deadline_code c) (tc_billing_timer_code c) pseudo_start billed_time
    (tc_billing_timer_duration_limit c).
Definition set_billed (c : tctx) (accounts : list account_name) (billed : Z) : tctx :=
  Tctx accounts (tc_published c) (tc_delay c) (tc_is_input c) (tc_apply_context_free c) billed
    (tc_is_initialized c) (tc_net_limit c) (tc_net_limit_due_to_block c)
    (tc_net_limit_due_to_greylist c) (tc_eager_net_limit c) (tc_cpu_limit_due_to_greylist c)
    (tc_initial_objective_duration_limit c) (tc_objective_duration_limit c) (tc_deadline c)
    (tc_deadline_code c) (tc_billing_timer_code c) (tc_pseudo_start c) (tc_billed_time c)
    (tc_billing_timer_duration_limit c).
Definition set_mode (c : tctx) (published : time_point) (delay : Z) (input context_free initialized : bool)
    : tctx :=
  Tctx (tc_bill_to_accounts c) published delay input context_free (tc_billed_cpu_time_us c) initialized
    (tc_net_limit c) (tc_net_limit_due_to_block c) (tc_net_limit_due_to_greylist c)
    (tc_eager_net_limit c) (tc_cpu_limit_due_to_greylist c) (tc_initial_objective_duration_limit c)
    (tc_objective_duration_limit c) (tc_deadline c) (tc_deadline_code c) (tc_billing_timer_code c)
    (tc_pseudo_start c) (tc_billed_time c) (tc_billing_timer_duration_limit c).

Record trx_state := TrxState {
  tx_ctx : tctx;
  tx_db : chain_db;
  tx_validate_ram_usage : gset account_name;
  tx_net_usage : Z;
  (** transaction_object.hpp: the expiration of the recorded transactions by their id *)
  tx_transactions : gmap digest Z;
}.
Definition set_ctx (s : trx_state) (c : tctx) : trx_state :=
  TrxState c (tx_db s) (tx_validate_ram_usage s) (tx_net_usage s) (tx_transactions s).
Definition set_tx_db (s : trx_state) (d : chain_db) : trx_state :=
  TrxState (tx_ctx s) d (tx_validate_ram_usage s) (tx_net_usage s) (tx_transactions s).
Definition set_tx_net (s : trx_state) (n : Z) : trx_state :=
  TrxState (tx_ctx s) (tx_db s) (tx_validate_ram_usage s) n (tx_transactions s).
Definition set_transactions (s : trx_state) (m : gmap digest Z) : trx_state :=
  TrxState (tx_ctx s) (tx_db s) (tx_validate_ram_usage s) (tx_net_usage s) m.

Abbreviation trx := (stM trx_state).
Definition get_ctx : trx tctx := s ← st_get; mret (tx_ctx s).
Definition put_ctx (c : tctx) : trx unit := st_modify (λ s, set_ctx s c).
Definition get_rl : trx resource_db := s ← st_get; mret (db_resources (tx_db s)).
Definition put_rl (r : resource_db) : trx unit := st_modify (λ s, set_tx_db s (with_resources (tx_db s) r)).

(** ** Limits *)
Definition net_exception (c : tctx) : exception :=
  if tc_net_limit_due_to_block c then block_net_usage_exceeded
  else if tc_net_limit_due_to_greylist c then greylist_net_usage_exceeded
  else tx_net_usage_exceeded.

Definition check_net_usage (env : trx_env) : trx unit :=
  s ← st_get;
  st_assert (te_skip_trx_checks env || negb (tc_eager_net_limit (tx_ctx s) <? tx_net_usage s))
    (net_exception (tx_ctx s)).

Definition add_net_usage (env : trx_env) (u : Z) : trx unit :=
  _ ← st_modify (λ s, set_tx_net s (u64 (tx_net_usage s + u)));
  check_net_usage env.

Definition deadline_exception_of (env : trx_env) (c : tctx) : exception :=
  if te_explicit_billed_cpu_time env then deadline_exception
  else match tc_deadline_code c with
       | Deadline => deadline_exception
       | BlockCpu => block_cpu_usage_exceeded
       | TxCpu => if tc_cpu_limit_due_to_greylist c then greylist_cpu_usage_exceeded
                  else tx_cpu_usage_exceeded
       | Leeway => leeway_deadline_exception
       end.

Definition checktime (env : trx_env) (expired : bool) (now : time_point) : trx unit :=
  c ← get_ctx;
  st_assert (negb expired || negb (tc_deadline c <? now)) (deadline_exception_of env c).

Definition pause_billing_timer (env : trx_env) (now : time_point) : trx unit :=
  c ← get_ctx;
  if te_explicit_billed_cpu_time env || (tc_pseudo_start c =? 0) then mret tt
  else put_ctx (set_timer (set_deadline c (tc_deadline c) Deadline (tc_billing_timer_duration_limit c))
                  0 (now - tc_pseudo_start c)).

Definition resume_billing_timer (env : trx_env) (now : time_point) : trx unit :=
  c ← get_ctx;
  if te_explicit_billed_cpu_time env || negb (tc_pseudo_start c =? 0) then mret tt
  else
    let pseudo_start := now - tc_billed_time c in
    let limit := pseudo_start + tc_billing_timer_duration_limit c in
    let c := set_timer c pseudo_start (tc_billed_time c) in
    put_ctx (if limit <=? te_deadline env
             then set_deadline c limit (tc_billing_timer_code c) (tc_billing_timer_duration_limit c)
             else set_deadline c (te_deadline env) Deadline (tc_billing_timer_duration_limit c)).

Definition cpu_exception (c : tctx) : exception :=
  match tc_billing_timer_code c with
  | BlockCpu => block_cpu_usage_exceeded
  | _ => if tc_cpu_limit_due_to_greylist c then greylist_cpu_usage_exceeded else tx_cpu_usage_exceeded
  end.

Definition validate_cpu_usage_to_bill (env : trx_env) (billed_us : Z) (check_minimum : bool) : trx unit :=
  c ← get_ctx;
  if te_skip_trx_checks env then mret tt
  else
    _ ← st_assert (negb check_minimum || (min_transaction_cpu_usage (te_config env) <=? billed_us))
          transaction_exception;
    st_assert (billed_us <=? tc_objective_duration_limit c) (cpu_exception c).

(** The returned uint32 is the value that is stored, cut to its width. *)
Definition update_billed_cpu_time (env : trx_env) (now : time_point) : trx Z :=
  c ← get_ctx;
  if te_explicit_billed_cpu_time env then mret (u32 (tc_billed_cpu_time_us c))
  else
    let billed := Z.max (now - tc_pseudo_start c) (min_transaction_cpu_usage (te_config env)) in
    _ ← put_ctx (set_billed c (tc_bill_to_accounts c) billed);
    mret (u32 billed).

Definition large_number_no_overflow : Z := INT64_MAX / 2.

(** The net and CPU limit that all accounts can pay, and whether greylisting lowered them. *)
Record bandwidth := Bandwidth {
  bw_net : Z;
  bw_cpu : Z;
  bw_greylisted_net : bool;
  bw_greylisted_cpu : bool;
}.
Definition is_resource_greylisted (env : trx_env) (a : account_name) : bool :=
  bool_decide (a ∈ te_resource_greylist env).
Definition is_elastic (env : trx_env) (force : bool) (a : account_name) : bool :=
  force || negb (te_producing_block env && is_resource_greylisted env a).

Fixpoint bandwidth_loop (env : trx_env) (force : bool) (r : resource_db) (accounts : list account_name)
    (b : bandwidth) : result bandwidth :=
  match accounts with
  | [] => mret b
  | a :: accounts =>
      let elastic := is_elastic env force a in
      net ← get_account_net_limit r a elastic;
      let b := if 0 <=? net
               then Bandwidth (Z.min (bw_net b) net) (bw_cpu b) (bw_greylisted_net b || negb elastic)
                      (bw_greylisted_cpu b)
               else b in
      cpu ← get_account_cpu_limit r a elastic;
      let b := if 0 <=? cpu
               then Bandwidth (bw_net b) (Z.min (bw_cpu b) cpu) (bw_greylisted_net b)
                      (bw_greylisted_cpu b || negb elastic)
               else b in
      bandwidth_loop env force r accounts b
  end.
Definition max_bandwidth_billed_accounts_can_pay (env : trx_env) (force : bool) (r : resource_db)
    (accounts : list account_name) : result bandwidth :=
  bandwidth_loop env force r accounts
    (Bandwidth large_number_no_overflow large_number_no_overflow false false).

(** ** init *)

(** The net limit of the block, the configuration and the header of the transaction; whether it is
    the one of the block. *)
Definition initial_net_limit (env : trx_env) (r : resource_db) : Z * bool :=
  let l := (get_block_net_limit r, true) in
  let cfg := te_config env in
  let l := if max_transaction_net_usage cfg <=? l.1 then (max_transaction_net_usage cfg, false) else l in
  let specified := u64 (tr_max_net_usage_words (te_trx env) * 8) in
  if (0 <? specified) && (specified <=? l.1) then (specified, false) else l.

Definition initial_cpu_limit (env : trx_env) (r : resource_db) : Z * deadline_code :=
  let l := (i64 (get_block_cpu_limit r), BlockCpu) in
  let cfg := te_config env in
  let l := if max_transaction_cpu_usage cfg <=? l.1 then (max_transaction_cpu_usage cfg, TxCpu) else l in
  let ms := tr_max_cpu_usage_ms (te_trx env) in
  if (0 <? ms) && (ms * 1000 <=? l.1) then (ms * 1000, TxCpu) else l.

Definition pending_slot (env : trx_env) : block_timestamp := of_time_point (te_pending_block_time env).

(** The actors of all authorizations. *)
Definition billed_accounts (t : transaction) : list account_name :=
  flat_set_of (actor <$> (tr_actions t ≫= act_authorization)).

(** What the accounts can pay lowers the eager net limit and the deadline. *)
Definition lower_limits (env : trx_env) (b : bandwidth) (c : tctx) : tctx :=
  let new_eager := Z.min (tc_net_limit c) (u64 (bw_net b + net_usage_leeway (te_config env))) in
  let c := set_net c (tc_net_limit c)
             (if new_eager <? tc_net_limit c then false else tc_net_limit_due_to_block c)
             (tc_net_limit_due_to_greylist c || bw_greylisted_net b)
             (if new_eager <? tc_net_limit c then new_eager else tc_net_limit c) in
  let affordable := bw_cpu b + te_leeway env in
  let lower := affordable <=? tc_deadline c - te_start env in
  let d := if lower then te_start env + affordable else tc_deadline c in
  let code := if lower then Leeway else tc_billing_timer_code c in
  let c := set_cpu c (tc_cpu_limit_due_to_greylist c || bw_greylisted_cpu b)
             (tc_initial_objective_duration_limit c) (tc_objective_duration_limit c) code in
  if te_explicit_billed_cpu_time env || (te_deadline env <? d)
  then set_deadline c (te_deadline env) Deadline (d - te_start env)
  else set_deadline c d code (d - te_start env).

Definition init (env : trx_env) (expired : bool) (now : time_point) (initial_net_usage : Z) : trx unit :=
  c ← get_ctx;
  _ ← st_assert (negb (tc_is_initialized c)) transaction_exception;
  r ← get_rl;
  let '(net_limit, due_to_block) := initial_net_limit env r in
  let '(objective, code) := initial_cpu_limit env r in
  let c := set_net c net_limit due_to_block (tc_net_limit_due_to_greylist c) (tc_eager_net_limit c) in
  let c := set_cpu c (tc_cpu_limit_due_to_greylist c) objective objective code in
  let c := set_deadline c (te_start env + objective) (tc_deadline_code c)
             (tc_billing_timer_duration_limit c) in
  _ ← put_ctx c;
  _ ← (if 0 <? tc_billed_cpu_time_us c
       then validate_cpu_usage_to_bill env (tc_billed_cpu_time_us c) false else mret tt);
  let accounts := billed_accounts (te_trx env) in
  let c := set_billed c accounts (tc_billed_cpu_time_us c) in
  _ ← put_ctx c;
  r ← st_lift (update_account_usage r accounts (pending_slot env));
  _ ← put_rl r;
  b ← st_lift (max_bandwidth_billed_accounts_can_pay env false r accounts);
  let c := lower_limits env b c in
  let c := set_net c (tc_net_limit c) (tc_net_limit_due_to_block c) (tc_net_limit_due_to_greylist c)
             (tc_eager_net_limit c / 8 * 8) in
  _ ← put_ctx c;
  _ ← (if 0 <? initial_net_usage then add_net_usage env initial_net_usage else mret tt);
  _ ← checktime env expired now;
  put_ctx (set_mode c (tc_published c) (tc_delay c) (tc_is_input c) (tc_apply_context_free c) true).

Definition init_for_implicit_trx (env : trx_env) (expired : bool) (now : time_point)
    (initial_net_usage : Z) : trx unit :=
  c ← get_ctx;
  _ ← put_ctx (set_mode c (te_pending_block_time env) (tc_delay c) (tc_is_input c)
                 (tc_apply_context_free c) (tc_is_initialized c));
  init env expired now initial_net_usage.

Definition init_for_deferred_trx (env : trx_env) (expired : bool) (now published : time_point) : trx unit :=
  c ← get_ctx;
  _ ← put_ctx (set_mode c published (tc_delay c) (tc_is_input c) false (tc_is_initialized c));
  init env expired now 0.

(** The net usage that an input transaction starts with, in uint64 arithmetic. *)
Definition discounted_size (cfg : chain_config) (prunable_size : Z) : Z :=
  let num := context_free_discount_net_usage_num cfg in
  let den := context_free_discount_net_usage_den cfg in
  if (0 <? den) && (num <? den) then u64 (u64 (u64 (prunable_size * num) + den) - 1) / den
  else prunable_size.
Definition initial_net_usage (cfg : chain_config) (t : transaction) (unprunable_size prunable_size : Z) : Z :=
  let n := u64 (base_per_transaction_net_usage cfg + unprunable_size + discounted_size cfg prunable_size) in
  if 0 <? tr_delay_sec t
  then u64 (n + base_per_transaction_net_usage cfg + transaction_id_net_usage) else n.

(** controller::validate_expiration, validate_tapos; [summaries] is the table of block summaries. *)
Definition validate_expiration (env : trx_env) : result unit :=
  let expiration := seconds (tr_expiration (te_trx env)) in
  _ ← EOS_ASSERT (te_pending_block_time env <=? expiration) expired_tx_exception;
  EOS_ASSERT (expiration <=? te_pending_block_time env + seconds (max_transaction_lifetime (te_config env)))
    tx_exp_too_far_exception.
Definition validate_tapos (t : transaction) (summaries : list digest) : result unit :=
  summary ← of_option (summaries !! Z.to_nat (u16 (tr_ref_block_num t))) db_not_found;
  EOS_ASSERT (verify_reference_block t summary) invalid_ref_block_exception.

Definition record_transaction (id : digest) (expire : Z) : trx unit :=
  s ← st_get;
  _ ← st_assert (bool_decide (tx_transactions s !! id = None)) tx_duplicate;
  st_put (set_transactions s (<[id := expire]> (tx_transactions s))).

Definition init_for_input_trx (env : trx_env) (summaries : list digest) (id : digest)
    (expired : bool) (now : time_point) (unprunable_size prunable_size : Z) (skip_recording : bool)
    : trx unit :=
  let t := te_trx env in
  c ← get_ctx;
  _ ← put_ctx (set_mode c (te_pending_block_time env) (tc_delay c) true (tc_apply_context_free c)
                 (tc_is_initialized c));
  s ← st_get;
  _ ← (if te_skip_trx_checks env then mret tt
       else
         _ ← st_lift (validate_expiration env);
         _ ← st_lift (validate_tapos t summaries);
         st_lift (validate_referenced_accounts (te_lists env) (tx_db s) (tr_context_free_actions t)
           (tr_actions t) (te_enforce_whiteblacklist env && te_producing_block env)));
  _ ← init env expired now (initial_net_usage (te_config env) t unprunable_size prunable_size);
  if skip_recording then mret tt else record_transaction id (tr_expiration t).

(** ** finalize *)
Fixpoint update_usages (env : trx_env) (a : auth_db) (levels : list permission_level) : result auth_db :=
  match levels with
  | [] => mret a
  | level :: levels =>
      p ← get_permission a level;
      a ← update_permission_usage (te_pending_block_time env) a p;
      update_usages env a levels
  end.

(** What the accounts can pay now lowers both limits. *)
Definition final_limits (b : bandwidth) (c : tctx) : tctx :=
  let net := u64 (bw_net b) in
  let lower_net := net <=? tc_net_limit c in
  let net_limit := if lower_net then net else tc_net_limit c in
  let c := set_net c net_limit (if lower_net then false else tc_net_limit_due_to_block c)
             (tc_net_limit_due_to_greylist c || bw_greylisted_net b) net_limit in
  let lower_cpu := bw_cpu b <=? tc_objective_duration_limit c in
  set_cpu c (tc_cpu_limit_due_to_greylist c || bw_greylisted_cpu b) (tc_initial_objective_duration_limit c)
    (if lower_cpu then bw_cpu b else tc_objective_duration_limit c)
    (if lower_cpu then TxCpu else tc_billing_timer_code c).

(** Everything before the accounts are billed. *)
Definition finalize_checks (env : trx_env) (now : time_point) : trx unit :=
  c ← get_ctx;
  _ ← st_assert (tc_is_initialized c) transaction_exception;
  s ← st_get;
  _ ← (if tc_is_input c
       then a ← st_lift (update_usages env (db_auth (tx_db s)) (tr_actions (te_trx env) ≫= act_authorization));
            st_put (set_tx_db s (with_auth (tx_db s) a))
       else mret tt);
  r ← get_rl;
  _ ← st_lift (check_all (verify_account_ram_usage r) (elements (tx_validate_ram_usage s)));
  b ← st_lift (max_bandwidth_billed_accounts_can_pay env false r (tc_bill_to_accounts c));
  _ ← put_ctx (final_limits b c);
  _ ← st_modify (λ s, set_tx_net s (u64 (tx_net_usage s + 7) / 8 * 8));
  _ ← check_net_usage env;
  _ ← update_billed_cpu_time env now;
  c ← get_ctx;
  validate_cpu_usage_to_bill env (tc_billed_cpu_time_us c) true.

(** [add_transaction_usage], which should never fail. *)
Definition bill_usage_of_trx (env : trx_env) (s : trx_state) : result resource_db :=
  add_transaction_usage (db_resources (tx_db s)) (tc_bill_to_accounts (tx_ctx s))
    (u64 (tc_billed_cpu_time_us (tx_ctx s))) (tx_net_usage s) (pending_slot env).

Definition finalize (env : trx_env) (now : time_point) : trx unit :=
  _ ← finalize_checks env now;
  s ← st_get;
  r ← st_lift (bill_usage_of_trx env s);
  put_rl r.

(** ** schedule_transaction *)

(** [pack] is fc::raw::pack, [id_to_sender_id] is transaction_id_to_sender_id. *)
Definition schedule_transaction (env : trx_env) (pack : transaction → packed_trx) (id : digest)
    (id_to_sender_id : digest → Z) : trx unit :=
  let cfg := te_config env in
  let t := te_trx env in
  _ ← (if tr_delay_sec t =? 0
       then add_net_usage env (base_per_transaction_net_usage cfg + transaction_id_net_usage) else mret tt);
  c ← get_ctx;
  let payer := first_authorizor t in
  let published := te_pending_block_time env in
  let delay_until := published + tc_delay c in
  let packed := pack t in
  let gto := GeneratedTransaction 0 (id_to_sender_id id) payer delay_until
    (delay_until + seconds (deferred_trx_expiration_window cfg)) published packed in
  s ← st_get;
  let d := tx_db s in
  _ ← st_assert (bool_decide (db_generated d !! id = None) &&
                 bool_decide (find_generated d 0 (id_to_sender_id id) = None)) db_uniqueness_violation;
  _ ← st_put (set_tx_db s (with_generated d (<[id := gto]> (db_generated d))));
  r ← get_rl;
  let size := generated_transaction_size + packed_size packed in
  r ← st_lift (add_pending_ram_usage r payer size);
  _ ← put_rl r;
  st_modify (λ s, TrxState (tx_ctx s) (tx_db s) ({[payer]} ∪ tx_validate_ram_usage s) (tx_net_usage s)
                    (tx_transactions s)).

End transaction_context.
