(* ===== verification/Billing.v ===== *)
(** * Billing a transaction

    The last call of transaction_context::finalize adds the net and CPU usage of the transaction to the
    accounts that it bills, with the comment that this should never fail.  The limits of the accounts
    were checked before with other arithmetic: what an account can pay rounds what it used up, what it
    is billed for is rounded up and the check of the bill rounds down.

    Results: a transaction that uses net and CPU and passed the checks is billed without an error
    ([bill_succeeds]); a bill of no net, which deferred transactions may have, fails when the limit of
    an account has become smaller than what the account had used before ([over_share_bills]). *)

From stdpp Require Import sorting.
From S2P Require Import Prelude Wp Names Merkle BlockHeader Resources Authority ChainConfig AuthManager.
From S2P Require Import AccessLists ApplyContext TransactionContext.

(** ** One counter *)

(** A counter that was updated in this slot and is far from its width. *)
Record current (slot : Z) (a : usage_accumulator) : Prop := {
  cu_ordinal : last_ordinal a = slot;
  cu_value : 0 <= value_ex a < 2 ^ 63;
  cu_consumed : 0 <= consumed a < 2 ^ 63;
}.

Lemma add_current slot a units window :
  current slot a → 0 <= units < 2 ^ 32 → 0 < window →
  accumulator_add a units slot window =
    Ok (UsageAccumulator slot (value_ex a + integer_divide_ceil (units * rate_limiting_precision) window)
          (consumed a + units)).
Proof.
  intros [Ho [Hv1 Hv2] [Hc1 Hc2]] Hu Hw. unfold accumulator_add.
  pose proof (max_raw_value_mul units ltac:(change max_raw_value with 18446744073709; lia)) as Hp.
  rewrite u128_small by lia.
  assert (0 <= units * rate_limiting_precision < 2 ^ 32 * 1000000) as Hp'.
  { change rate_limiting_precision with 1000000. lia. }
  pose proof (divide_ceil_bounds (units * rate_limiting_precision) window ltac:(lia) Hw) as Hb.
  set (c := integer_divide_ceil (units * rate_limiting_precision) window) in *.
  unfold EOS_ASSERT, downgrade_cast_u64, UINT64_MAX.
  rewrite (proj2 (Z.leb_le units max_raw_value)) by (change max_raw_value with 18446744073709; lia). simpl.
  rewrite (proj2 (Z.leb_le units _)) by lia. simpl.
  rewrite (proj2 (Z.eqb_neq window 0)) by lia. simpl.
  unfold EOS_ASSERT, UINT64_MAX. rewrite (proj2 (Z.leb_le c (2 ^ 64 - 1))) by lia. simpl.
  rewrite (proj2 (Z.leb_le 0 c)) by lia. simpl.
  rewrite (proj2 (Z.leb_le c _)) by lia. simpl.
  rewrite Ho, Z.eqb_refl. simpl. rewrite Ho. unfold mret, result_ret. by rewrite !u64_small by lia.
Qed.

(** What was used, rounded up as the limit of the account rounds it. *)
Definition used_ceil (a : usage_accumulator) (window : Z) : Z :=
  integer_divide_ceil (u128 (value_ex a * window)) rate_limiting_precision.

Lemma used_after_add slot a units window :
  current slot a → 0 <= units < 2 ^ 32 → 0 < window <= 1000000 →
  used_in_window (UsageAccumulator slot
    (value_ex a + integer_divide_ceil (units * rate_limiting_precision) window) (consumed a + units)) window
  <= used_ceil a window + units.
Proof.
  intros [Ho [Hv1 Hv2] [Hc1 Hc2]] Hu Hw. unfold used_in_window, used_ceil. simpl.
  change rate_limiting_precision with 1000000.
  pose proof (divide_ceil_spec (units * 1000000) window ltac:(lia)) as Hc. simpl in Hc.
  set (c := integer_divide_ceil (units * 1000000) window) in *.
  rewrite (u128_small (value_ex a * window)) by nia.
  pose proof (divide_ceil_spec (value_ex a * window) 1000000 ltac:(lia)) as Hd. simpl in Hd.
  set (d := integer_divide_ceil (value_ex a * window) 1000000) in *.
  rewrite u128_small by nia. apply Z.lt_succ_r, Z.div_lt_upper_bound; [lia|]. nia.
Qed.

Lemma limit_available usage window capacity weight total l :
  resource_limit_ex usage window capacity weight total = Ok l →
  arl_available l =
    Z.max 0 (max_user_use_in_window capacity window weight total - used_ceil usage window).
Proof.
  unfold resource_limit_ex. fold (used_ceil usage window).
  set (m := max_user_use_in_window capacity window weight total). set (u := used_ceil usage window).
  intros H. unfold downgrade_cast_i64 in H. destruct (m <=? u) eqn:E; inv_ok; reflect_bools; simpl; lia.
Qed.

(** Either the account is not limited, or what it pays fits. *)
Lemma pays_within slot a units window capacity weight total l :
  current slot a → 0 < units < 2 ^ 32 → 0 < window <= 1000000 →
  resource_limit_ex a window capacity weight total = Ok l → units <= arl_available l →
  used_in_window (UsageAccumulator slot
    (value_ex a + integer_divide_ceil (units * rate_limiting_precision) window) (consumed a + units)) window
  <= max_user_use_in_window capacity window weight total.
Proof.
  intros Ha Hu Hw Hl%limit_available Hle. pose proof (used_after_add slot a units window Ha ltac:(lia) Hw). lia.
Qed.

(** ** One account *)

(** The windows are at most the precision, weights are int64 and the virtual capacities, which are at
    least those of a block, are narrow enough for the products of 128 bits. *)
Record limits_sound (r : resource_db) : Prop := {
  ls_windows : 0 < account_cpu_usage_average_window (rl_config r) <= 1000000 ∧
    0 < account_net_usage_average_window (rl_config r) <= 1000000;
  ls_totals : 0 <= total_cpu_weight (rl_state r) ∧ 0 <= total_net_weight (rl_state r);
  ls_cpu : 0 <= max (cpu_limit_parameters (rl_config r)) <= virtual_cpu_limit (rl_state r) ∧
    virtual_cpu_limit (rl_state r) < 2 ^ 44;
  ls_net : 0 <= max (net_limit_parameters (rl_config r)) <= virtual_net_limit (rl_state r) ∧
    virtual_net_limit (rl_state r) < 2 ^ 44;
  ls_weights k l : limits_index r !! k = Some l → cpu_weight l < 2 ^ 63 ∧ net_weight l < 2 ^ 63;
}.

Lemma share_mono window capacity capacity' weight total :
  0 < window <= 1000000 → 0 <= capacity <= capacity' → capacity' < 2 ^ 44 → 0 <= weight < 2 ^ 63 → 0 < total →
  max_user_use_in_window capacity window weight total <= max_user_use_in_window capacity' window weight total.
Proof.
  intros Hw Hc Hc' Hwt Ht. unfold max_user_use_in_window.
  assert (capacity * window <= capacity' * window < 2 ^ 64) by nia.
  assert (capacity * window * weight <= capacity' * window * weight) by nia.
  assert (capacity' * window * weight < 2 ^ 128) by nia.
  rewrite !(u128_small (_ * window)) by nia. rewrite !u128_small by nia. by apply Z.div_le_mono.
Qed.

Lemma account_weights r a ram nw cw :
  limits_sound r → get_account_limits r a = Ok (ram, nw, cw) → cw < 2 ^ 63 ∧ nw < 2 ^ 63.
Proof.
  intros Hs H. unfold get_account_limits in H.
  destruct (limits_index r !! (true, a)) eqn:E; [injection H as <- <- <-; by eapply ls_weights|].
  inv_ok. by eapply ls_weights.
Qed.

Definition billable (r : resource_db) (slot : Z) (a : account_name) : Prop :=
  ∃ u, usage_index r !! a = Some u ∧ current slot (net_usage u) ∧ current slot (cpu_usage u).

(** [l] is what an account can pay: nothing is known of an account without a limit. *)
Definition affordable (l units : Z) : Prop := 0 <= l → units <= l.

(** The check that [bill_account] makes of one counter passes, when what the account can pay by that
    counter was enough. *)
Lemma check_passes slot acc units window weight total virtual capacity l e :
  current slot acc → 0 < units < 2 ^ 32 → 0 < window <= 1000000 → weight < 2 ^ 63 → 0 <= total →
  0 <= capacity <= virtual → virtual < 2 ^ 44 →
  (if (weight <? 0) || (total =? 0) then mret (AccountResourceLimit (-1) (-1) (-1))
   else resource_limit_ex acc window capacity weight total) = Ok l →
  affordable (arl_available l) units →
  (if (0 <=? weight) && (0 <? total)
   then EOS_ASSERT (used_in_window (UsageAccumulator slot (value_ex acc +
          integer_divide_ceil (units * rate_limiting_precision) window) (consumed acc + units)) window <=?
          max_user_use_in_window virtual window weight total) e
   else mret tt) = Ok tt.
Proof.
  intros Hcur Hu Hw Hwt Ht Hc Hv Hl Ha.
  destruct (0 <=? weight) eqn:E1, (0 <? total) eqn:E2; simpl; try done; reflect_bools.
  rewrite (proj2 (Z.ltb_ge weight 0)), (proj2 (Z.eqb_neq total 0)) in Hl by lia. simpl in Hl.
  assert (units <= arl_available l) as Hle by (apply Ha; rewrite (limit_available _ _ _ _ _ _ Hl); lia).
  rewrite (proj2 (Z.leb_le _ _)); [done|].
  etransitivity; [by eapply (pays_within slot)|]. apply share_mono; lia.
Qed.

Lemma bill_account_succeeds r slot a cpu net elastic nl cl :
  limits_sound r → billable r slot a → 0 < cpu < 2 ^ 32 → 0 < net < 2 ^ 32 →
  get_account_net_limit r a elastic = Ok nl → get_account_cpu_limit r a elastic = Ok cl →
  affordable nl net → affordable cl cpu →
  ∃ u, bill_account r a cpu net slot = Ok (with_usage r (<[a := u]> (usage_index r))).
Proof.
  intros Hs (u & Hu & Hn & Hc) Hcpu Hnet Hnl Hcl Han Hac. destruct (ls_windows r Hs) as [Hw1 Hw2].
  unfold get_account_net_limit, get_account_cpu_limit, get_account_net_limit_ex, get_account_cpu_limit_ex, get_usage in *.
  rewrite Hu in *. simpl in *.
  destruct (get_account_limits r a) as [[[ram nw] cw]|] eqn:El; simpl in *; [|discriminate].
  destruct (account_weights _ _ _ _ _ Hs El). destruct (ls_totals r Hs), (ls_cpu r Hs) as [? ?], (ls_net r Hs) as [? ?].
  apply bind_ok in Hnl as (ln & Hln & [= <-]), Hcl as (lc & Hlc & [= <-]).
  unfold bill_account, get_usage. rewrite Hu. simpl. rewrite El. simpl. unfold bill_usage.
  rewrite (add_current slot), (add_current slot) by (done || lia). simpl.
  rewrite (check_passes slot _ _ _ _ _ _ (if elastic then virtual_cpu_limit (rl_state r)
    else max (cpu_limit_parameters (rl_config r))) lc _ Hc) by (done || lia || (destruct elastic; lia)). simpl.
  rewrite (check_passes slot _ _ _ _ _ _ (if elastic then virtual_net_limit (rl_state r)
    else max (net_limit_parameters (rl_config r))) ln _ Hn) by (done || lia || (destruct elastic; lia)). simpl.
  by eexists.
Qed.

(** ** A bill of no net *)

(** The account has a net limit, and what it used in its window, as of [slot], is more than its share. *)
Definition over_share (r : resource_db) (slot : Z) (a : account_name) : bool :=
  match usage_index r !! a, get_account_limits r a with
  | Some u, Ok (_, nw, _) =>
      let window := account_net_usage_average_window (rl_config r) in
      match accumulator_add (net_usage u) 0 slot window with
      | Ok n =>
          (0 <=? nw) && (0 <? total_net_weight (rl_state r)) &&
          (max_user_use_in_window (virtual_net_limit (rl_state r)) window nw (total_net_weight (rl_state r)) <?
             used_in_window n window)
      | Throw _ => false
      end
  | _, _ => false
  end.

Lemma add_zero_again a slot window a' :
  accumulator_add a 0 slot window = Ok a' → accumulator_add a' 0 slot window = Ok a'.
Proof.
  unfold accumulator_add. intros H. apply bind_ok in H as ([] & _ & ([] & _ & ([] & Hw%assert_ok & H)%bind_ok)%bind_ok).
  apply bind_ok in H as (c & Hc & ([] & _ & (x & Hx & [= <-])%bind_ok)%bind_ok). reflect_bools.
  assert (integer_divide_ceil (u128 (0 * rate_limiting_precision)) window = 0) as Ez.
  { change (u128 (0 * rate_limiting_precision)) with 0. unfold integer_divide_ceil. by rewrite Z.div_0_l, Z.mod_0_l. }
  rewrite Ez in *. change (downgrade_cast_u64 0) with (Ok 0) in *. injection Hc as <-.
  assert (last_ordinal x = slot) as Ho.
  { destruct (last_ordinal a =? slot) eqn:E; cbn [negb] in Hx; [injection Hx as <-; by reflect_bools|].
    by apply bind_ok in Hx as (_ & _ & (v & _ & [= <-])%bind_ok). }
  cbn [last_ordinal value_ex consumed]. rewrite !Z.add_0_r, Ho, Z.eqb_refl.
  pose proof (u64_range (value_ex x)) as Hv. pose proof (u64_range (consumed x)) as Hc.
  unfold in_u64 in Hv, Hc. unfold EOS_ASSERT, UINT64_MAX.
  rewrite (proj2 (Z.leb_le 0 max_raw_value)) by (change max_raw_value with 18446744073709; lia).
  cbn [mbind result_bind]. rewrite (proj2 (Z.leb_le 0 _)) by lia. cbn [mbind result_bind].
  rewrite (proj2 (Z.eqb_neq window 0)) by done. cbn [mbind result_bind negb].
  rewrite (proj2 (Z.leb_le 0 _)) by lia. cbn [mbind result_bind negb mret result_ret last_ordinal value_ex consumed].
  by rewrite !Z.add_0_r, (u64_small _ Hv), (u64_small _ Hc).
Qed.

Lemma over_share_other r slot a b u :
  a ≠ b → over_share (with_usage r (<[b := u]> (usage_index r))) slot a = over_share r slot a.
Proof. intros Hne. unfold over_share, get_account_limits. simpl. by rewrite lookup_insert_ne. Qed.

Lemma get_usage_ok r a u : get_usage r a = Ok u → usage_index r !! a = Some u.
Proof. unfold get_usage. destruct (usage_index r !! a); [by intros [= ->]|done]. Qed.
Lemma over_share_bill r slot a cpu : over_share r slot a = true → is_ok (bill_account r a cpu 0 slot) = false.
Proof.
  intros Ho. destruct (bill_account r a cpu 0 slot) as [r'|e] eqn:E; [exfalso|done]. unfold bill_account in E.
  apply bind_ok in E as (u & Hu%get_usage_ok & ([[ram nw] cw] & Hl & (bu & Hb & ([] & _ & ([] & Hn & _)%bind_ok)%bind_ok)%bind_ok)%bind_ok).
  apply bind_ok in Hb as (n & Hadd & (p & _ & [= <-])%bind_ok). unfold over_share in Ho. cbv zeta in Ho.
  rewrite Hu, Hl, Hadd in Ho. apply andb_true_iff in Ho as [Hnz Hlt]. rewrite Hnz in Hn. apply assert_ok in Hn. cbn [net_usage] in Hn. lia.
Qed.
Lemma over_share_bills r slot a cpu accounts :
  a ∈ accounts → over_share r slot a = true → is_ok (bill_accounts r accounts cpu 0 slot) = false.
Proof.
  revert r. induction accounts as [|b accounts IH]; intros r Ha Ho; [by apply elem_of_nil in Ha|].
  cbn [bill_accounts]. destruct (decide (a = b)) as [<-|Hne].
  { pose proof (over_share_bill r slot a cpu Ho). by destruct (bill_account _ _ _ _ _). }
  destruct (bill_account r b cpu 0 slot) as [r'|e] eqn:E; [|done]. cbn [mbind result_bind].
  apply elem_of_cons in Ha as [?|Ha]; [done|]. apply IH; [done|]. unfold bill_account in E.
  apply bind_ok in E as (u & _ & ([[ram nw] cw] & _ & (bu & _ & ([] & _ & ([] & _ & [= <-])%bind_ok)%bind_ok)%bind_ok)%bind_ok).
  by rewrite over_share_other.
Qed.
Lemma over_share_update slot a accounts : ∀ r r',
  update_account_usage r accounts slot = Ok r' → over_share r slot a = true → over_share r' slot a = true.
Proof.
  induction accounts as [|b accounts IH]; intros r r' H Ho; cbn [update_account_usage] in H; [by injection H as <-|].
  apply bind_ok in H as (u & Hu%get_usage_ok & (bu & Hb & H)%bind_ok). apply (IH _ _ H).
  destruct (decide (a = b)) as [<-|Hne]; [|by rewrite over_share_other].
  apply bind_ok in Hb as (n & Hn & (p & _ & [= <-])%bind_ok). unfold over_share in *. cbv zeta in *.
  change (get_account_limits (with_usage r _) a) with (get_account_limits r a).
  change (usage_index (with_usage r ?m)) with m. rewrite lookup_insert_eq. rewrite Hu in Ho.
  destruct (get_account_limits r a) as [[[ram nw] cw]|e]; [|done]. cbn [net_usage rl_config rl_state with_usage] in *.
  rewrite Hn in Ho. by rewrite (add_zero_again _ _ _ _ Hn).
Qed.

Section billing.
Context {FC : Fc} {AC : ActionCodec} {TC : TransactionCodec} {PS : PackSizes}.

(** ** All accounts *)
Lemma bill_account_other r a u b elastic :
  a ≠ b → let r' := with_usage r (<[a := u]> (usage_index r)) in
  get_account_net_limit r' b elastic = get_account_net_limit r b elastic ∧
  get_account_cpu_limit r' b elastic = get_account_cpu_limit r b elastic.
Proof.
  intros Hne. unfold get_account_net_limit, get_account_cpu_limit, get_account_net_limit_ex, get_account_cpu_limit_ex,
    get_account_limits, get_usage. simpl. by rewrite lookup_insert_ne.
Qed.

Lemma bill_accounts_succeed env slot cpu net : 0 < cpu < 2 ^ 32 → 0 < net < 2 ^ 32 → ∀ accounts r,
  limits_sound r → NoDup accounts → Forall (billable r slot) accounts →
  Forall (λ a, ∃ nl cl, get_account_net_limit r a (is_elastic env false a) = Ok nl ∧
    get_account_cpu_limit r a (is_elastic env false a) = Ok cl ∧ affordable nl net ∧ affordable cl cpu) accounts →
  ∃ m, bill_accounts r accounts cpu net slot = Ok (with_usage r m).
Proof.
  intros Hcpu Hnet. induction accounts as [|a accounts IH]; intros r Hs Hnd Hb Ha; simpl.
  { exists (usage_index r). by destruct r. }
  apply NoDup_cons in Hnd as [Hna Hnd]. apply Forall_cons in Hb as [Hb Hbs], Ha as [(nl & cl & Hnl & Hcl & Hn & Hc) Has].
  destruct (bill_account_succeeds r slot a cpu net _ nl cl Hs Hb Hcpu Hnet Hnl Hcl Hn Hc) as [u ->]. simpl.
  destruct (IH (with_usage r (<[a := u]> (usage_index r)))) as [m ->]; [| | | |by exists m].
  - by destruct Hs.
  - done.
  - rewrite Forall_forall in Hbs |- *. intros b Hin. destruct (Hbs b Hin) as (v & Hv & ?).
    exists v. simpl. rewrite lookup_insert_ne by (intros ->; done). done.
  - rewrite Forall_forall in Has |- *. intros b Hin.
    destruct (bill_account_other r a u b (is_elastic env false b)) as [-> ->]; [by intros ->|]. by apply Has.
Qed.

(** What [max_bandwidth_billed_accounts_can_pay] returns is at most what each account can pay. *)
Lemma bandwidth_loop_spec env force r accounts : ∀ b0 b,
  bandwidth_loop env force r accounts b0 = Ok b →
  bw_net b <= bw_net b0 ∧ bw_cpu b <= bw_cpu b0 ∧
  (0 <= bw_net b0 → 0 <= bw_net b) ∧ (0 <= bw_cpu b0 → 0 <= bw_cpu b) ∧
  Forall (λ a, ∃ nl cl, get_account_net_limit r a (is_elastic env force a) = Ok nl ∧
    get_account_cpu_limit r a (is_elastic env force a) = Ok cl ∧
    affordable nl (bw_net b) ∧ affordable cl (bw_cpu b)) accounts.
Proof.
  induction accounts as [|a accounts IH]; intros b0 b H; simpl in H.
  { injection H as <-. split_and!; try done || lia. }
  inv_ok. match goal with H : bandwidth_loop _ _ _ _ _ = Ok _ |- _ => apply IH in H as (Hn & Hc & Pn & Pc & Hall) end.
  destruct (0 <=? r1) eqn:E1, (0 <=? r0) eqn:E0; reflect_bools; simpl in *; split_and!; try lia.
  all: constructor; [exists r0, r1; split_and!; try done; unfold affordable; lia|done].
Qed.

(** ** The end of a transaction *)
Definition rl (s : trx_state) : resource_db := db_resources (tx_db s).

(** What init establishes and the actions of the transaction keep. *)
Record ready (env : trx_env) (s : trx_state) : Prop := {
  rd_sound : limits_sound (rl s);
  rd_accounts : NoDup (tc_bill_to_accounts (tx_ctx s)) ∧
    Forall (billable (rl s) (pending_slot env)) (tc_bill_to_accounts (tx_ctx s));
  rd_cpu : tc_objective_duration_limit (tx_ctx s) < 2 ^ 32 ∧ 0 <= pending_cpu_usage (rl_state (rl s)) ∧
    pending_cpu_usage (rl_state (rl s)) + tc_objective_duration_limit (tx_ctx s) <=
      max (cpu_limit_parameters (rl_config (rl s)));
  rd_net : tc_net_limit (tx_ctx s) < 2 ^ 32 ∧ 0 <= pending_net_usage (rl_state (rl s)) ∧
    pending_net_usage (rl_state (rl s)) + tc_net_limit (tx_ctx s) <=
      max (net_limit_parameters (rl_config (rl s)));
}.

Lemma final_limits_le b c :
  0 <= bw_net b <= large_number_no_overflow →
  let c' := final_limits b c in
  tc_bill_to_accounts c' = tc_bill_to_accounts c ∧ tc_billed_cpu_time_us c' = tc_billed_cpu_time_us c ∧
  tc_eager_net_limit c' = tc_net_limit c' ∧
  tc_net_limit c' <= tc_net_limit c ∧ tc_net_limit c' <= bw_net b ∧
  tc_objective_duration_limit c' <= tc_objective_duration_limit c ∧ tc_objective_duration_limit c' <= bw_cpu b.
Proof.
  intros Hb. unfold final_limits. cbv zeta. simpl.
  change large_number_no_overflow with 4611686018427387903 in Hb. rewrite u64_small by lia.
  destruct (bw_net b <=? tc_net_limit c) eqn:E1, (bw_cpu b <=? tc_objective_duration_limit c) eqn:E2;
    reflect_bools; split_and!; done || lia.
Qed.

(** What is known when the checks of finalize have passed. *)
Record payable (env : trx_env) (s s' : trx_state) : Prop := {
  py_rl : rl s' = rl s;
  py_accounts : tc_bill_to_accounts (tx_ctx s') = tc_bill_to_accounts (tx_ctx s);
  py_pays : ∃ b, max_bandwidth_billed_accounts_can_pay env false (rl s) (tc_bill_to_accounts (tx_ctx s)) = Ok b ∧
    tx_net_usage s' <= bw_net b ∧ tc_billed_cpu_time_us (tx_ctx s') <= bw_cpu b;
  py_net : tx_net_usage s' = u64 (tx_net_usage s + 7) / 8 * 8 ∧ tx_net_usage s' <= tc_net_limit (tx_ctx s);
  py_cpu : min_transaction_cpu_usage (te_config env) <= tc_billed_cpu_time_us (tx_ctx s') <=
    tc_objective_duration_limit (tx_ctx s);
}.

Lemma finalize_checks_payable env now s :
  te_skip_trx_checks env = false → wp (finalize_checks env now) (λ _, payable env s) s.
Proof.
  intros Hchk. pose proof (eq_refl : INT64_MAX / 2 = 4611686018427387903).
  unfold finalize_checks, check_net_usage, update_billed_cpu_time, validate_cpu_usage_to_bill, get_ctx,
    get_rl, put_ctx. rewrite Hchk. repeat (cbv zeta; wp_basic); simpl in *; reflect_bools.
  all: match goal with Hb : max_bandwidth_billed_accounts_can_pay _ _ _ _ = Ok ?b |- _ =>
    destruct (bandwidth_loop_spec _ _ _ _ _ _ Hb) as (Hn & Hc & Pn & Pc & _); simpl in *;
    unfold large_number_no_overflow in *; rewrite (u64_small (bw_net b)) in * by lia;
    split; simpl; [done|done|exists b; split; [exact Hb|]|split; [done|]|] end.
  all: repeat match goal with H : _ <= (if ?c then _ else _) |- _ => destruct c eqn:?; reflect_bools end; lia.
Qed.

Lemma bill_succeeds env s s' :
  ready env s → payable env s s' → 0 < min_transaction_cpu_usage (te_config env) → 0 < tx_net_usage s' →
  is_ok (bill_usage_of_trx env s') = true.
Proof.
  intros [Hs [Hnd Hb] (Hc1 & Hc2 & Hc3) (Hn1 & Hn2 & Hn3)] [Erl Eacc (b & Hbw & Hbn & Hbc) [_ Hpn] Hpc] Hmin Hnet.
  unfold bill_usage_of_trx, add_transaction_usage. fold (rl s'). rewrite Erl, Eacc.
  destruct (bandwidth_loop_spec _ _ _ _ _ _ Hbw) as (_ & _ & _ & _ & Hall).
  set (cpu := tc_billed_cpu_time_us (tx_ctx s')) in *. set (net := tx_net_usage s') in *.
  destruct (ls_cpu _ Hs) as [? ?], (ls_net _ Hs) as [? ?].
  rewrite (u64_small cpu) by lia.
  destruct (bill_accounts_succeed env (pending_slot env) cpu net ltac:(lia) ltac:(lia) _ (rl s) Hs Hnd Hb) as [m ->].
  - eapply Forall_impl; [exact Hall|]. intros a (nl & cl & Hnl & Hcl & An & Ac). exists nl, cl.
    unfold affordable in *. split_and!; try done; intros Hp; [specialize (An Hp)|specialize (Ac Hp)]; lia.
  - simpl. rewrite !u64_small by lia. unfold EOS_ASSERT.
    rewrite (proj2 (Z.leb_le _ _)) by lia. simpl. unfold EOS_ASSERT. by rewrite (proj2 (Z.leb_le _ _)) by lia.
Qed.

(** ** The start of a transaction *)

(** A counter of an earlier slot, or of this one. *)
Record past (slot : Z) (a : usage_accumulator) : Prop := {
  pa_ordinal : 0 <= last_ordinal a <= slot;
  pa_value : 0 <= value_ex a < 2 ^ 63;
  pa_consumed : 0 <= consumed a < 2 ^ 63;
}.
(** The tables between two transactions of a block. *)
Record between (slot : Z) (r : resource_db) : Prop := {
  bt_sound : limits_sound r;
  bt_usage a u : usage_index r !! a = Some u → past slot (net_usage u) ∧ past slot (cpu_usage u);
  bt_cpu : 0 <= pending_cpu_usage (rl_state r) <= max (cpu_limit_parameters (rl_config r));
  bt_net : 0 <= pending_net_usage (rl_state r) <= max (net_limit_parameters (rl_config r));
}.

Lemma current_past slot a : in_u32 slot → current slot a → past slot a.
Proof. intros [? ?] []. split; lia. Qed.

Lemma add_zero_current slot a window a' :
  in_u32 slot → 0 < window <= 1000000 → past slot a → accumulator_add a 0 slot window = Ok a' → current slot a'.
Proof.
  intros Hs Hw [Ho Hv Hc] H. destruct Hs as [? ?].
  apply accumulator_add_inv in H as (Hle & _ & Hl & Hva & Hco & _ & _); [|split; unfold in_u32, in_u64; lia|done|done|lia].
  change (0 * rate_limiting_precision) with 0 in Hva. unfold integer_divide_ceil in Hva at 1.
  rewrite Z.div_0_l, Z.mod_0_l in Hva by lia. simpl in Hva.
  pose proof (decayed_bounds a slot window ltac:(split; unfold in_u32, in_u64; lia) ltac:(lia) Hle).
  pose proof (divide_ceil_bounds (decayed a slot window) rate_limiting_precision ltac:(lia) ltac:(done)).
  split; [done|lia|]. destruct (slot =? last_ordinal a); lia.
Qed.

Lemma update_usage_current slot accounts : ∀ r r',
  in_u32 slot → between slot r → update_account_usage r accounts slot = Ok r' →
  between slot r' ∧ (∃ m, r' = with_usage r m) ∧ (∀ a, billable r slot a → billable r' slot a) ∧
  Forall (billable r' slot) accounts.
Proof.
  induction accounts as [|a accounts IH]; intros r r' Hslot Hr H; simpl in H.
  { injection H as <-. split_and!; [done|exists (usage_index r); by destruct r|done|done]. }
  inv_ok. unfold get_usage, bill_usage in *. inv_ok.
  destruct (bt_usage _ _ Hr a _ Hrun) as [Hpn Hpc]. destruct (ls_windows _ (bt_sound _ _ Hr)) as [Hw1 Hw2].
  apply add_zero_current in Hrun1, Hrun2; try done.
  set (u := ResourceUsage r2 r3 (ram_usage r0)) in *. set (r1 := with_usage r (<[a := u]> (usage_index r))) in *.
  assert (billable r1 slot a) as Ha by (exists u; simpl; by rewrite lookup_insert_eq).
  destruct (IH r1 r') as (Hb' & (m & ->) & Hk & Hall); try done.
  - destruct Hr as [[] Hus]. split; [by split| |done|done]. simpl. intros b v Hv.
    destruct (decide (a = b)) as [->|Hne]; [|rewrite lookup_insert_ne in Hv by done; by eapply Hus].
    rewrite lookup_insert_eq in Hv. injection Hv as <-. simpl. by split; apply current_past.
  - split; [done|]. split; [by exists m|]. split; [|constructor; [by apply Hk|done]].
    intros b Hb. apply Hk. destruct (decide (a = b)) as [->|Hne]; [done|].
    destruct Hb as (v & Hv & ?). exists v. simpl. by rewrite lookup_insert_ne.
Qed.

Lemma flat_set_nodup l : NoDup (flat_set_of l).
Proof. unfold flat_set_of. rewrite merge_sort_Permutation. apply NoDup_remove_dups. Qed.

(** Limits of the configuration are uint32. *)
Definition typed_config (c : chain_config) : Prop :=
  0 <= max_transaction_cpu_usage c < 2 ^ 32 ∧ 0 <= max_transaction_net_usage c < 2 ^ 32 ∧
  0 <= base_per_transaction_net_usage c < 2 ^ 32.

Lemma initial_net_limit_le env r slot :
  between slot r → typed_config (te_config env) → in_u32 (tr_max_net_usage_words (te_trx env)) →
  (initial_net_limit env r).1 < 2 ^ 32 ∧
  pending_net_usage (rl_state r) + (initial_net_limit env r).1 <= max (net_limit_parameters (rl_config r)).
Proof.
  intros Hr (_ & Hc & _) Hw. unfold in_u32 in Hw. pose proof (bt_net _ _ Hr). destruct (ls_net _ (bt_sound _ _ Hr)) as [? ?].
  unfold initial_net_limit, get_block_net_limit. rewrite !u64_small by lia. cbv zeta. simpl.
  destruct (max_transaction_net_usage _ <=? _) eqn:E1; simpl; reflect_bools;
    destruct (_ && _) eqn:E2; simpl; reflect_bools; try lia.
  all: apply andb_prop in E2 as [? ?]; reflect_bools; lia.
Qed.
Lemma initial_cpu_limit_le env r slot :
  between slot r → typed_config (te_config env) →
  (initial_cpu_limit env r).1 < 2 ^ 32 ∧
  pending_cpu_usage (rl_state r) + (initial_cpu_limit env r).1 <= max (cpu_limit_parameters (rl_config r)).
Proof.
  intros Hr [Hc _]. pose proof (bt_cpu _ _ Hr). destruct (ls_cpu _ (bt_sound _ _ Hr)) as [? ?].
  unfold initial_cpu_limit, get_block_cpu_limit. rewrite (u64_small (max _ - _)), i64_small by (unfold in_i64; lia). cbv zeta. simpl.
  destruct (max_transaction_cpu_usage _ <=? _) eqn:E1; simpl; reflect_bools;
    destruct (_ && _) eqn:E2; simpl; reflect_bools; try lia.
  all: apply andb_prop in E2 as [? ?]; reflect_bools; lia.
Qed.

Lemma lower_limits_frame env b c :
  tc_bill_to_accounts (lower_limits env b c) = tc_bill_to_accounts c ∧
  tc_net_limit (lower_limits env b c) = tc_net_limit c ∧
  tc_objective_duration_limit (lower_limits env b c) = tc_objective_duration_limit c.
Proof. unfold lower_limits. cbv zeta. by destruct (te_explicit_billed_cpu_time env || _). Qed.

Lemma pending_slot_range env : in_u32 (pending_slot env).
Proof. unfold pending_slot, of_time_point. apply u32_range. Qed.

(** A state whose context has the limits that init computes. *)
Lemma started_ready env s r' s' :
  between (pending_slot env) (rl s) → typed_config (te_config env) →
  in_u32 (tr_max_net_usage_words (te_trx env)) →
  update_account_usage (rl s) (billed_accounts (te_trx env)) (pending_slot env) = Ok r' → rl s' = r' →
  tc_bill_to_accounts (tx_ctx s') = billed_accounts (te_trx env) →
  tc_net_limit (tx_ctx s') = (initial_net_limit env (rl s)).1 →
  tc_objective_duration_limit (tx_ctx s') = (initial_cpu_limit env (rl s)).1 → ready env s'.
Proof.
  intros Hr Hc Hw Hu Er Ea En Ec. pose proof (initial_net_limit_le env _ _ Hr Hc Hw) as [Hn1 Hn2].
  pose proof (initial_cpu_limit_le env _ _ Hr Hc) as [Hc1 Hc2].
  apply update_usage_current in Hu as (Hb & (m & ->) & _ & Hall); [|apply pending_slot_range|done].
  destruct (bt_cpu _ _ Hr), (bt_net _ _ Hr).
  split; rewrite ?Er, ?Ea, ?En, ?Ec; simpl; [apply Hb|split; [apply flat_set_nodup|done]|done|done].
Qed.

Lemma init_ready env expired now n s :
  between (pending_slot env) (rl s) → typed_config (te_config env) →
  in_u32 (tr_max_net_usage_words (te_trx env)) →
  wp (init env expired now n) (λ _ s', ready env s' ∧
    tx_net_usage s' = if 0 <? n then u64 (tx_net_usage s + n) else tx_net_usage s) s.
Proof.
  intros Hr Hc Hw. unfold init, get_ctx, get_rl, put_ctx, put_rl, checktime, add_net_usage, check_net_usage,
    validate_cpu_usage_to_bill, get_ctx. fold (rl s).
  repeat (cbv zeta; wp_basic); simpl in *; reflect_bools.
  all: split; [|done]; eapply (started_ready env s); [exact Hr|exact Hc|exact Hw|eassumption|reflexivity|..]; simpl.
  all: rewrite ?(proj1 (lower_limits_frame _ _ _)), ?(proj1 (proj2 (lower_limits_frame _ _ _))),
    ?(proj2 (proj2 (lower_limits_frame _ _ _))); simpl; try done.
  all: match goal with H : ?f _ _ = (?z, _) |- ?z = (?f _ _).1 => by unfold rl; rewrite H end.
Qed.

(** The net usage that a transaction starts with is within the eager limit, which is at most the
    limit. *)
Lemma lower_limits_eager env b c : tc_eager_net_limit (lower_limits env b c) <= tc_net_limit c.
Proof. unfold lower_limits. cbv zeta. destruct (te_explicit_billed_cpu_time env || _); simpl; destruct (_ <? _) eqn:E; simpl; lia. Qed.

Lemma init_eager env expired now n s :
  wp (init env expired now n) (λ _ s', tc_eager_net_limit (tx_ctx s') <= tc_net_limit (tx_ctx s') ∧
    (te_skip_trx_checks env = false → 0 < n → tx_net_usage s' <= tc_eager_net_limit (tx_ctx s'))) s.
Proof.
  unfold init, get_ctx, get_rl, put_ctx, put_rl, checktime, add_net_usage, check_net_usage,
    validate_cpu_usage_to_bill, get_ctx.
  repeat (cbv zeta; wp_basic); simpl in *; reflect_bools.
  all: split; [rewrite (proj1 (proj2 (lower_limits_frame _ _ _)));
    match goal with |- tc_eager_net_limit (lower_limits ?e ?b ?c) / 8 * 8 <= _ =>
      pose proof (lower_limits_eager e b c); pose proof (Z.mul_div_le (tc_eager_net_limit (lower_limits e b c)) 8) end;
    simpl in *; lia|].
  all: intros Hs Hn; rewrite ?Hs in *; simpl in *; reflect_bools; try lia.
Qed.

End billing.


(** A check of [between] for concrete tables. *)
Definition accumulator_ok (slot : Z) (a : usage_accumulator) : bool :=
  bool_decide (0 <= last_ordinal a <= slot ∧ 0 <= value_ex a < 2 ^ 63 ∧ 0 <= consumed a < 2 ^ 63).
Definition between_ok (slot : Z) (r : resource_db) : bool :=
  let c := rl_config r in
  let s := rl_state r in
  bool_decide (0 < account_cpu_usage_average_window c <= 1000000 ∧ 0 < account_net_usage_average_window c <= 1000000 ∧
    0 <= total_cpu_weight s ∧ 0 <= total_net_weight s ∧
    0 <= max (cpu_limit_parameters c) <= virtual_cpu_limit s ∧ virtual_cpu_limit s < 2 ^ 44 ∧
    0 <= max (net_limit_parameters c) <= virtual_net_limit s ∧ virtual_net_limit s < 2 ^ 44 ∧
    0 <= pending_cpu_usage s <= max (cpu_limit_parameters c) ∧
    0 <= pending_net_usage s <= max (net_limit_parameters c)) &&
  forallb (λ kl, (cpu_weight kl.2 <? 2 ^ 63) && (net_weight kl.2 <? 2 ^ 63)) (map_to_list (limits_index r)) &&
  forallb (λ au, accumulator_ok slot (net_usage au.2) && accumulator_ok slot (cpu_usage au.2))
    (map_to_list (usage_index r)).

Lemma between_ok_spec slot r : between_ok slot r = true → between slot r.
Proof.
  unfold between_ok. cbv zeta. rewrite !andb_true_iff, bool_decide_eq_true, !forallb_forall.
  intros [[(? & ? & ? & ? & ? & ? & ? & ? & ? & ?) Hl] Hu]. split; [split; try done| |done|done].
  - intros k l Hk. apply elem_of_map_to_list, list_elem_of_In in Hk. specialize (Hl _ Hk). simpl in Hl.
    apply andb_prop in Hl as [? ?]. lia.
  - intros a u Ha. apply elem_of_map_to_list, list_elem_of_In in Ha. specialize (Hu _ Ha). simpl in Hu.
    apply andb_prop in Hu as [Hn Hc]. unfold accumulator_ok in *. apply bool_decide_eq_true in Hn, Hc.
    destruct Hn as (? & ? & ?), Hc as (? & ? & ?). by split; split.
Qed.
