(* ===== verification/ActionFrame.v ===== *)
(** * What the code of an action leaves alone

    The handlers of the native contract and the calls that a contract makes change accounts,
    permissions, deferred transactions, RAM and tables.  They leave alone what the chain itself keeps of
    an action: the counters of net and CPU usage, the limits of the block, the sequence numbers of
    actions; accounts are never removed, and only newaccount makes one.  [calm n s s'] says so of two
    states, with at most [n] new accounts, and that the inline actions that were queued have [sent],
    a property of those that [execute_inline] lets through; and that the net usage keeps [paid], which
    the fee of a deferred transaction must keep. *)

From stdpp Require Import sorting.
From S2P Require Import Prelude Wp Names Merkle BlockHeader Resources Authority ChainConfig AuthManager.
From S2P Require Import AccessLists ApplyContext ContractDb NativeContract.

(** Nothing is billed: the same limits and counters, and weights that stay int64. *)
Record quiet (r r' : resource_db) : Prop := {
  qu_state : rl_state r' = rl_state r;
  qu_config : rl_config r' = rl_config r;
  qu_usage a u : usage_index r !! a = Some u →
    ∃ u', usage_index r' !! a = Some u' ∧ net_usage u' = net_usage u ∧ cpu_usage u' = cpu_usage u;
  qu_weights : (∀ k l, limits_index r !! k = Some l → cpu_weight l < 2 ^ 63 ∧ net_weight l < 2 ^ 63) →
    ∀ k l, limits_index r' !! k = Some l → cpu_weight l < 2 ^ 63 ∧ net_weight l < 2 ^ 63;
}.

#[global] Instance quiet_refl : Reflexive quiet.
Proof. intros r. split; try done. intros a u Hu. by exists u. Qed.
#[global] Instance quiet_trans : Transitive quiet.
Proof.
  intros r1 r2 r3 [Es1 Ec1 Hu1 Hw1] [Es2 Ec2 Hu2 Hw2]. split; [congruence..| |by intros Hw; apply Hw2, Hw1].
  intros a u Hu. destruct (Hu1 a u Hu) as (u1 & H1 & E1 & E2). destruct (Hu2 a u1 H1) as (u2 & H2 & E3 & E4).
  exists u2. split; [done|]. split; congruence.
Qed.

Lemma quiet_ram r a delta r' : add_pending_ram_usage r a delta = Ok r' → quiet r r'.
Proof.
  unfold add_pending_ram_usage. destruct (delta =? 0); intros H; inv_ok; [done|].
  unfold get_usage in *. inv_ok. split; try done. simpl. intros b u Hu.
  destruct (decide (a = b)) as [->|Hne]; [|rewrite lookup_insert_ne by done; by exists u].
  rewrite lookup_insert_eq. simplify_eq. by eexists.
Qed.
Lemma quiet_account r a r' : initialize_account r a = Ok r' → quiet r r'.
Proof.
  unfold initialize_account. intros H. inv_ok. reflect_bools. simpl in *. split; try done; simpl.
  - intros b u Hu. destruct (decide (a = b)) as [->|Hne]; [congruence|].
    rewrite lookup_insert_ne by done. by exists u.
  - intros Hw k l [[<- <-]|[_ Hl]]%lookup_insert_Some; [by vm_compute|by eapply Hw].
Qed.
Lemma quiet_limits r a ram net cpu r' b :
  in_i64 net → in_i64 cpu → set_account_limits r a ram net cpu = Ok (r', b) → quiet r r'.
Proof.
  unfold set_account_limits, in_i64. intros Hn Hc H. inv_ok. simplify_eq. split; try done; simpl.
  - intros x u Hu. by exists u.
  - intros Hw k l [[<- <-]|[_ Hl]]%lookup_insert_Some; [simpl; lia|by eapply Hw].
Qed.

Section calm.
Context {FC : Fc} {KO : FcKeyOrder} {AC : ActionCodec} {TC : TransactionCodec} {PS : PackSizes} {CC : CodeChecks} {SF : SoftFloat}.
Implicit Types (s : apply_state) (d : chain_db).

(** What [execute_inline] has checked of the authorizations of an action: the context is privileged or
    is not checked, a block that others made lets the receiver send to itself, or the permission
    receiver\@eosio.code satisfies them, with those that a producer inherits from the action itself. *)
Definition inherited_auths (env : apply_env) (a : action) : list permission_level :=
  if (act_account a =? env_receiver env) && (env_receiver env =? act_account (env_act env)) &&
     env_producing_block env
  then filter (λ p, p ∈ act_authorization (env_act env)) (act_authorization a) else [].
Definition inline_authorized (env : apply_env) d (a : action) : Prop :=
  env_skip_auth_check env = true ∨ env_privileged env = true ∨
  (act_account a = env_receiver env ∧ env_producing_block env = false) ∨
  check_authorization (db_auth d) (db_generated d) (env_config env) [a] [] (code_permission env)
    (env_pending_block_time env - env_published env) false (inherited_auths env a) = Ok tt.

Definition recv_of d (x : account_name) : Z :=
  match db_sequences d !! x with Some q => recv_sequence q | None => 0 end.

Context (sent : action → Prop) (paid : Z → Prop).

(** The same for the database. *)
Record calm_db (n : nat) d d' : Prop := {
  cd_accounts : dom (db_accounts d) ⊆ dom (db_accounts d') ∧
    (size (dom (db_accounts d')) <= size (dom (db_accounts d)) + n)%nat;
  cd_sequence : global_action_sequence d' = global_action_sequence d;
  cd_recv x : recv_of d' x = recv_of d x;
  cd_resources : quiet (db_resources d) (db_resources d');
}.
Record calm (n : nat) s s' : Prop := {
  cm_db : calm_db n (st_db s) (st_db s');
  cm_notified : notified s `prefix_of` notified s';
  cm_nodup : NoDup (notified s) → NoDup (notified s');
  cm_inline : Forall sent (inline_actions s) → Forall sent (inline_actions s');
  cm_cfa : Forall (λ a, act_authorization a = []) (cfa_inline_actions s) →
    Forall (λ a, act_authorization a = []) (cfa_inline_actions s');
  cm_net : paid (trx_net_usage s) → paid (trx_net_usage s');
}.

(** The fee of a deferred transaction, within the limit. *)
Definition pays_fee (env : apply_env) : Prop :=
  ∀ n, paid n →
    let n' := u64 (n + (base_per_transaction_net_usage (env_config env) + transaction_id_net_usage)) in
    negb (env_skip_trx_checks env) && (env_eager_net_limit env <? n') = false → paid n'.

#[global] Instance calm_db_refl : Reflexive (calm_db 0).
Proof. intros d. split; [split; [done|lia]|done|done|done]. Qed.
Lemma calm_db_trans n m d1 d2 d3 : calm_db n d1 d2 → calm_db m d2 d3 → calm_db (n + m) d1 d3.
Proof.
  intros [[Hd1 Hn1] Hg1 Hr1 Hq1] [[Hd2 Hn2] Hg2 Hr2 Hq2]. split; [split; [by etransitivity|lia]|congruence| |by etransitivity].
  intros x. by rewrite Hr2.
Qed.
#[global] Instance calm_refl : Reflexive (calm 0).
Proof. by intros s. Qed.
Lemma calm_trans n m s1 s2 s3 : calm n s1 s2 → calm m s2 s3 → calm (n + m) s1 s3.
Proof. intros [] []. split; [by eapply calm_db_trans|by etransitivity|by auto..]. Qed.
Lemma calm_step n s1 s2 s3 : calm n s1 s2 → calm 0 s2 s3 → calm n s1 s3.
Proof. intros H1 H2. rewrite <-(Nat.add_0_r n). by eapply calm_trans. Qed.

Lemma calm_weaken n m s s' : (n <= m)%nat → calm n s s' → calm m s s'.
Proof. intros Hle [[[Hd Hn] ? ? ?] ? ? ? ? ?]. split; [split; [split; [done|lia]|done..]|done..]. Qed.

(** A database put back with the parts below changed. *)
Lemma calm_put n s0 s d : calm n s0 s → calm_db 0 (st_db s) d → calm n s0 (set_db s d).
Proof. intros H Hd. eapply calm_step; [done|]. by split. Qed.
Lemma calm_auth d a : calm_db 0 d (with_auth d a).
Proof. split; [split; [done|simpl; lia]|done|done|done]. Qed.
Lemma calm_generated d g : calm_db 0 d (with_generated d g).
Proof. split; [split; [done|simpl; lia]|done|done|done]. Qed.
Lemma calm_resources d r : quiet (db_resources d) r → calm_db 0 d (with_resources d r).
Proof. intros H. split; [split; [done|simpl; lia]|done|done|done]. Qed.
Lemma calm_account d x o o' : db_accounts d !! x = Some o → calm_db 0 d (with_accounts d (<[x := o']> (db_accounts d))).
Proof.
  intros H. assert (dom (<[x := o']> (db_accounts d)) = dom (db_accounts d)) as E.
  { rewrite dom_insert_L. apply elem_of_dom_2 in H. set_solver. }
  split; [simpl; rewrite E; split; [done|lia]|done|done|done].
Qed.
Lemma calm_new_account d x o : db_accounts d !! x = None → calm_db 1 d (with_accounts d (<[x := o]> (db_accounts d))).
Proof.
  intros H. split; [simpl; rewrite dom_insert_L|done|done|done]. apply not_elem_of_dom in H.
  rewrite size_union, size_singleton by set_solver. split; [set_solver|lia].
Qed.
Lemma calm_sequence d x q q' :
  db_sequences d !! x = Some q → recv_sequence q' = recv_sequence q →
  calm_db 0 d (with_sequences d (<[x := q']> (db_sequences d))).
Proof.
  intros H E. split; [split; [done|simpl; lia]|done| |done]. intros y. unfold recv_of. simpl.
  destruct (decide (x = y)) as [->|Hne]; [by rewrite lookup_insert_eq, H|by rewrite lookup_insert_ne].
Qed.
Lemma calm_new_sequence d x :
  db_sequences d !! x = None → calm_db 0 d (with_sequences d (<[x := sequence_default]> (db_sequences d))).
Proof.
  intros H. split; [split; [done|simpl; lia]|done| |done]. intros y. unfold recv_of. simpl.
  destruct (decide (x = y)) as [->|Hne]; [by rewrite lookup_insert_eq, H|by rewrite lookup_insert_ne].
Qed.

(** ** The operations of the context *)
Definition Calm {A} (n : nat) (m : stM apply_state A) : Prop :=
  ∀ k s0 s, calm k s0 s → wp m (λ _, calm (k + n) s0) s.

Lemma Calm_alone {A} n (m : stM apply_state A) : (∀ s, wp m (λ _, calm n s) s) → Calm n m.
Proof. intros H k s0 s Hs. eapply wp_mono; [apply H|]. intros a s' Hs'. by eapply calm_trans. Qed.
Lemma Calm_wp {A} (m : stM apply_state A) k s0 s : Calm 0 m → calm k s0 s → wp m (λ _, calm k s0) s.
Proof. intros H Hs. rewrite <-(Nat.add_0_r k). by apply H. Qed.

Lemma add_ram_usage_calm a delta : Calm 0 (add_ram_usage a delta).
Proof.
  apply Calm_alone. intros s. unfold add_ram_usage, get_db, put_db. repeat wp_basic.
  rename select (add_pending_ram_usage _ _ _ = _) into H. apply quiet_ram in H.
  by split; [apply calm_resources|..].
Qed.
Lemma require_auth_calm env P : Calm 0 (require_auth env P).
Proof. apply Calm_alone. intros s. unfold require_auth. by repeat wp_basic. Qed.
Lemma require_authorization_calm env a : Calm 0 (require_authorization env a).
Proof. apply require_auth_calm. Qed.
Lemma require_recipient_calm a : Calm 0 (require_recipient a).
Proof.
  apply Calm_alone. intros s. unfold require_recipient, has_recipient, when. repeat wp_basic; [|done].
  split; [done|by apply prefix_app_r| |done..]. simpl. intros Hnd. apply NoDup_app. split_and!; [done| |apply NoDup_singleton].
  intros x Hx ->%list_elem_of_singleton. apply negb_true_iff in Heqb. apply not_true_iff_false in Heqb.
  apply Heqb, existsb_exists. exists a. split; [by apply list_elem_of_In|apply Z.eqb_refl].
Qed.
Lemma update_db_usage_calm env payer delta : Calm 0 (update_db_usage env payer delta).
Proof.
  apply Calm_alone. intros s. unfold update_db_usage, when. wp_basic. apply (wp_mono _ (λ _, calm 0 s)).
  - repeat wp_basic; [|done]. by apply (Calm_wp _ _ _ _ (require_authorization_calm _ _)).
  - intros _ s' Hs'. by apply (Calm_wp _ _ _ _ (add_ram_usage_calm _ _)).
Qed.

(** A call that is known to be calm, and code that makes no other calls. *)
Ltac calm_call L := eapply wp_mono; [eapply Calm_wp; [apply L|first [eassumption|reflexivity]]|cbv beta; intros ? ? ?].
Ltac calm_steps := repeat (cbv zeta; unfold get_db, put_db, when; wp_basic).

Lemma cancel_deferred_calm sender_id sender : Calm 0 (cancel_deferred_transaction sender_id sender).
Proof.
  apply Calm_alone. intros s. unfold cancel_deferred_transaction. calm_steps; [|done].
  calm_call add_ram_usage_calm. calm_steps. apply calm_put; [done|apply calm_generated].
Qed.
Lemma add_net_usage_calm env : pays_fee env →
  Calm 0 (add_net_usage env (base_per_transaction_net_usage (env_config env) + transaction_id_net_usage)).
Proof.
  intros Hp. apply Calm_alone. intros s. unfold add_net_usage. calm_steps. split; [done..|]. simpl.
  intros Hn. by apply Hp.
Qed.
Lemma forgive_self_authorized env d a :
  forgive_self env (act_account a =? env_receiver env)
    (check_authorization (db_auth d) (db_generated d) (env_config env) [a] [] (code_permission env)
       (env_pending_block_time env - env_published env) false (inherited_auths env a)) = Ok tt →
  inline_authorized env d a.
Proof.
  unfold forgive_self, inline_authorized. intros H. right. right.
  destruct (check_authorization _ _ _ _ _ _ _ _ _) as [[]|e]; [by right|left].
  destruct (act_account a =? env_receiver env) eqn:E; simpl in H; [|done]. reflect_bools.
  by destruct (env_producing_block env).
Qed.
Lemma execute_inline_calm env a k s0 s :
  (inline_authorized env (st_db s) a → sent a) → calm k s0 s → wp (execute_inline env a) (λ _, calm k s0) s.
Proof.
  intros Ha Hs. unfold execute_inline. calm_steps.
  all: eapply calm_step; [done|]; split; [done..| |done|done]; simpl; intros Hf; apply Forall_app.
  all: split; [done|]; apply Forall_singleton, Ha.
  - match goal with H : forgive_self _ _ _ = Ok ?u |- _ => destruct u; by apply forgive_self_authorized end.
  - unfold inline_authorized. destruct (env_skip_auth_check env), (env_privileged env); naive_solver.
Qed.
Lemma execute_context_free_inline_calm a : Calm 0 (execute_context_free_inline a).
Proof.
  apply Calm_alone. intros s. unfold execute_context_free_inline. calm_steps. reflect_bools.
  split; [done..| |done]. simpl. intros Hf. apply Forall_app. by rewrite Forall_singleton.
Qed.
Lemma schedule_deferred_calm env sender_id payer trx replace :
  pays_fee env → Calm 0 (schedule_deferred_transaction env sender_id payer trx replace).
Proof.
  intros Hp. apply Calm_alone. intros s. unfold schedule_deferred_transaction. calm_steps.
  calm_call (add_net_usage_calm env Hp). apply wp_bind, (wp_mono _ (λ _, calm 0 s)).
  - calm_steps; try done. calm_call require_authorization_calm. calm_steps. done.
  - intros _ s1 Hs1. wp_basic. unfold get_db. calm_steps.
    all: match goal with |- wp _ _ (set_db ?x ?d) =>
      assert (calm 0 s (set_db x d)) by (apply calm_put; [done|apply calm_generated]) end.
    all: calm_call add_ram_usage_calm; done.
Qed.

(** ** The native handlers *)
Lemma validate_authority_calm env a : Calm 0 (validate_authority_precondition env a).
Proof. apply Calm_alone. intros s. unfold validate_authority_precondition. by calm_steps. Qed.

Lemma calm_put_new k s0 s x o :
  calm k s0 s → db_accounts (st_db s) !! x = None →
  calm (k + 1) s0 (set_db s (with_accounts (st_db s) (<[x := o]> (db_accounts (st_db s))))).
Proof. intros H Hx. eapply calm_trans; [done|]. by split; [apply calm_new_account|..]. Qed.

(** The state after some tables were put back. *)
Ltac calm_tables :=
  repeat first
    [ eassumption
    | eapply calm_put;
      [|first [ apply calm_auth | apply calm_generated
              | eapply calm_account; eassumption
              | eapply calm_sequence; [eassumption|reflexivity]
              | eapply calm_new_sequence; eassumption
              | apply calm_resources; eapply quiet_account; eassumption ]]
    | eapply (calm_put_new 0); [|eassumption] ].
Ltac calm_run L :=
  eapply wp_mono; [eapply Calm_wp; [apply L|calm_tables]|cbv beta; intros ? ? ?];
  calm_steps; inv_ok; reflect_bools.

Ltac calm_start := calm_call require_authorization_calm; calm_steps; inv_ok; reflect_bools.

Lemma newaccount_calm env : Calm 1 (apply_eonio_newaccount env).
Proof.
  apply Calm_alone. intros s. unfold apply_eonio_newaccount. calm_steps.
  calm_call require_authorization_calm. calm_steps; inv_ok; reflect_bools.
  all: calm_run validate_authority_calm; calm_run validate_authority_calm.
  all: calm_run add_ram_usage_calm; done.
Qed.
Lemma setcode_calm env : Calm 0 (apply_eonio_setcode env).
Proof.
  apply Calm_alone. intros s. unfold apply_eonio_setcode. calm_steps.
  all: calm_call require_authorization_calm; calm_steps; inv_ok; reflect_bools; try calm_tables.
  all: calm_run add_ram_usage_calm; done.
Qed.
Lemma setabi_calm env : Calm 0 (apply_eonio_setabi env).
Proof.
  apply Calm_alone. intros s. unfold apply_eonio_setabi. calm_steps.
  calm_call require_authorization_calm; calm_steps; inv_ok; reflect_bools; try calm_tables.
  calm_run add_ram_usage_calm; done.
Qed.
Lemma check_updateauth_calm env u : Calm 0 (check_updateauth env u).
Proof.
  apply Calm_alone. intros s. unfold check_updateauth. calm_steps.
  all: by calm_call validate_authority_calm.
Qed.
Lemma updateauth_calm env : Calm 0 (apply_eonio_updateauth env).
Proof.
  apply Calm_alone. intros s. unfold apply_eonio_updateauth. calm_steps.
  calm_start. all: calm_run check_updateauth_calm.
  all: calm_run add_ram_usage_calm; done.
Qed.
Lemma deleteauth_calm env : Calm 0 (apply_eonio_deleteauth env).
Proof.
  apply Calm_alone. intros s. unfold apply_eonio_deleteauth. calm_steps.
  calm_start. by calm_run add_ram_usage_calm.
Qed.
Lemma linkauth_calm env : Calm 0 (apply_eonio_linkauth env).
Proof.
  apply Calm_alone. intros s. unfold apply_eonio_linkauth. calm_steps.
  calm_start; try calm_tables. all: by calm_run add_ram_usage_calm.
Qed.
Lemma unlinkauth_calm env : Calm 0 (apply_eonio_unlinkauth env).
Proof.
  apply Calm_alone. intros s. unfold apply_eonio_unlinkauth. calm_steps.
  calm_start. calm_run add_ram_usage_calm. calm_tables.
Qed.
Lemma canceldelay_calm env : Calm 0 (apply_eonio_canceldelay env).
Proof.
  apply Calm_alone. intros s. unfold apply_eonio_canceldelay. calm_steps.
  calm_start. by calm_run cancel_deferred_calm.
Qed.

(** A handler belongs to the system account, and makes at most one account. *)
Lemma handler_calm receiver scope name h env :
  find_apply_handler receiver scope name = Some h → receiver = system_account_name ∧ Calm 1 (h env).
Proof.
  unfold find_apply_handler. intros H.
  assert (∀ m : stM apply_state unit, Calm 0 m → Calm 1 m) as Hle.
  { intros m Hm k s0 s Hs. eapply wp_mono; [by apply Hm|]. intros [] s'. apply calm_weaken. lia. }
  destruct (negb _) eqn:E in H; [discriminate|]. apply negb_false_iff, andb_prop in E as [E _]. split; [by reflect_bools|].
  repeat match type of H with (if ?c then _ else _) = _ => destruct c; [injection H as <-|] end; [..|discriminate].
  - apply newaccount_calm.
  - apply Hle, setcode_calm.
  - apply Hle, setabi_calm.
  - apply Hle, updateauth_calm.
  - apply Hle, deleteauth_calm.
  - apply Hle, linkauth_calm.
  - apply Hle, unlinkauth_calm.
  - apply Hle, canceldelay_calm.
Qed.

(** ** The calls on tables *)
Lemma wp_in_apply {A} (m : stM apply_state A) (Q : A → contract_state → Prop) (c : contract_state) :
  wp m (λ x s', Q x (set_apply c s')) (cs_apply c) → wp (in_apply m) Q c.
Proof. unfold wp, in_apply. by destruct (m (cs_apply c)) as [a [x|e]]. Qed.

(** They touch the state of the context only to bill RAM: they keep what billing keeps. *)
Section tables.
Context (R : apply_state → Prop).
Hypothesis usage_keeps : ∀ env payer delta s, R s → wp (update_db_usage env payer delta) (λ _, R) s.

Definition Keeps {A} (m : ctx A) : Prop :=
  ∀ c : contract_state, R (cs_apply c) → wp m (λ _ (c' : contract_state), R (cs_apply c')) c.
Lemma in_usage_keeps env payer delta : Keeps (in_apply (update_db_usage env payer delta)).
Proof. intros c Hc. by apply wp_in_apply, usage_keeps. Qed.

(** An index is apart from the state of the context. *)
Class Apart {A} (L : part A) : Prop := part_apart : ∀ c r, cs_apply (part_set _ L c r) = cs_apply c.
#[global] Instance kv_apart : Apart kv_part.
Proof. done. Qed.
#[global] Instance index_apart k : Apart (index_part k).
Proof. intros [] r. by destruct k. Qed.

Ltac keep_ctx :=
  repeat (cbv zeta; unfold st_map;
    lazymatch goal with
    | |- wp (in_apply (update_db_usage _ _ _)) _ _ =>
        eapply wp_mono; [apply in_usage_keeps; eassumption|cbv beta; intros ? ? ?]
    | |- _ => wp_basic
    end); try (by rewrite ?part_apart).
Ltac keep_in L := eapply wp_mono; [apply L; first [eassumption|by rewrite part_apart]|cbv beta; intros ? ? ?]; keep_ctx.

Section parts.
Context {A} {RA : Row A} (L : part A) {HL : Apart L}.

Lemma find_table_keeps code scope table : Keeps (find_table code scope table).
Proof. intros c Hc. unfold find_table. keep_ctx. Qed.
Lemma find_or_create_keeps env code scope table payer : Keeps (find_or_create_table env code scope table payer).
Proof. intros c Hc. unfold find_or_create_table. keep_ctx. keep_in find_table_keeps. Qed.
Lemma change_count_keeps tid f : Keeps (change_count tid f).
Proof. intros c Hc. unfold change_count, deref_table. keep_ctx. Qed.
Lemma cached_table_keeps tid : Keeps (cached_table L tid).
Proof. intros c Hc. unfold cached_table. keep_ctx. Qed.
Lemma add_object_keeps obj : Keeps (add_object L obj).
Proof. intros c Hc. unfold add_object. keep_ctx. Qed.
Lemma get_object_keeps i : Keeps (get_object L i).
Proof. intros c Hc. unfold get_object. keep_ctx. Qed.
Lemma seek_forward_keeps lt from tid e : Keeps (seek_forward L lt from tid e).
Proof. intros c Hc. unfold seek_forward. keep_ctx. keep_in add_object_keeps. Qed.
Lemma seek_backward_keeps lt from tid : Keeps (seek_backward L lt from tid).
Proof. intros c Hc. unfold seek_backward. keep_ctx. keep_in add_object_keeps. Qed.
Lemma bound_keeps lt from code scope table : Keeps (bound L lt from code scope table).
Proof.
  intros c Hc. unfold bound. keep_ctx. keep_in find_table_keeps. keep_in cached_table_keeps.
  by apply seek_forward_keeps.
Qed.
Lemma find_by_primary_keeps code scope table id : Keeps (find_by_primary L code scope table id).
Proof.
  intros c Hc. unfold find_by_primary. keep_ctx. keep_in find_table_keeps. keep_in cached_table_keeps.
  keep_in add_object_keeps.
Qed.
Lemma end_iterator_keeps code scope table : Keeps (end_iterator L code scope table).
Proof. intros c Hc. unfold end_iterator. keep_ctx. keep_in find_table_keeps. by apply cached_table_keeps. Qed.
Lemma next_row_keeps lt i : Keeps (next_row L lt i).
Proof. intros c Hc. unfold next_row. keep_ctx. keep_in get_object_keeps. keep_in add_object_keeps. Qed.
Lemma previous_row_keeps lt i : Keeps (previous_row L lt i).
Proof.
  intros c Hc. unfold previous_row, deref_table. keep_ctx; [by apply seek_backward_keeps|].
  keep_in get_object_keeps. by apply seek_backward_keeps.
Qed.
Lemma insert_row_keeps env tid payer a size : Keeps (insert_row L env tid payer a size).
Proof.
  intros c Hc. unfold insert_row, create_row. keep_ctx. keep_in change_count_keeps.
  keep_in cached_table_keeps. by apply add_object_keeps.
Qed.
Lemma own_table_keeps env a : Keeps (own_table L env a).
Proof. intros c Hc. unfold own_table, deref_table. keep_ctx. Qed.
Lemma drop_row_keeps env tid id i : Keeps (drop_row L env tid id i).
Proof.
  intros c Hc. unfold drop_row, delete_row, remove_table, remove_iterator, deref_table. keep_ctx.
  keep_in change_count_keeps.
  all: match goal with H : R (cs_apply ?c) |- wp _ _ (part_set _ _ ?c ?r) =>
    assert (R (cs_apply (part_set _ L c r))) by by rewrite part_apart end.
  all: keep_ctx.
Qed.
Lemma rebill_keeps env p q m n : Keeps (rebill env p q m n).
Proof. intros c Hc. unfold rebill. keep_ctx. Qed.
End parts.

Lemma kv_run_keeps env c : Keeps (kv_run env c).
Proof.
  destruct c; intros c Hc; simpl; unfold st_map; keep_ctx.
  - unfold db_store_i64. keep_ctx. keep_in find_or_create_keeps. keep_in (insert_row_keeps kv_part).
  - unfold db_update_i64, modify_row. keep_ctx. keep_in (get_object_keeps kv_part). keep_in (own_table_keeps kv_part).
    keep_in rebill_keeps.
  - unfold db_remove_i64. keep_ctx. keep_in (get_object_keeps kv_part). keep_in (own_table_keeps kv_part).
    keep_in (drop_row_keeps kv_part).
  - unfold db_get_i64. keep_ctx. keep_in (get_object_keeps kv_part).
  - unfold db_next_i64. keep_ctx. keep_in (next_row_keeps kv_part).
  - unfold db_previous_i64. keep_ctx. keep_in (previous_row_keeps kv_part).
  - unfold db_find_i64. keep_ctx. keep_in (find_by_primary_keeps kv_part).
  - unfold db_lowerbound_i64. keep_ctx. keep_in (bound_keeps kv_part).
  - unfold db_upperbound_i64. keep_ctx. keep_in (bound_keeps kv_part).
  - unfold db_end_i64. keep_ctx. keep_in (end_iterator_keeps kv_part).
Qed.

Lemma idx_run_keeps kind env c : Keeps (idx_run kind env c).
Proof.
  destruct c; intros c Hc; simpl; unfold st_map; keep_ctx.
  - unfold idx_store. keep_ctx. keep_in find_or_create_keeps. keep_in (insert_row_keeps (index_part kind)).
  - unfold idx_update, modify_row. keep_ctx. keep_in (get_object_keeps (index_part kind)).
    keep_in (own_table_keeps (index_part kind)). keep_in rebill_keeps.
  - unfold idx_remove. keep_ctx. keep_in (get_object_keeps (index_part kind)).
    keep_in (own_table_keeps (index_part kind)). keep_in (drop_row_keeps (index_part kind)).
  - unfold find_secondary. keep_ctx. keep_in find_table_keeps. keep_in (cached_table_keeps (index_part kind)).
    keep_in (add_object_keeps (index_part kind)).
  - unfold find_primary. keep_ctx. keep_in (find_by_primary_keeps (index_part kind)).
  - unfold lowerbound_secondary. keep_ctx. keep_in (bound_keeps (index_part kind)).
  - unfold upperbound_secondary. keep_ctx. keep_in (bound_keeps (index_part kind)).
  - unfold end_secondary. keep_ctx. keep_in (end_iterator_keeps (index_part kind)).
  - unfold next_secondary. keep_ctx. keep_in (next_row_keeps (index_part kind)).
  - unfold previous_secondary. keep_ctx. keep_in (previous_row_keeps (index_part kind)).
Qed.

End tables.

Definition CalmC {A} (m : ctx A) : Prop :=
  ∀ k s0 (c : contract_state), calm k s0 (cs_apply c) → wp m (λ _ (c' : contract_state), calm k s0 (cs_apply c')) c.
Lemma in_apply_calm {A} (m : stM apply_state A) : Calm 0 m → CalmC (in_apply m).
Proof. intros Hm k s0 c Hs. by apply wp_in_apply, (Calm_wp m). Qed.
Lemma kv_run_calm env c : CalmC (kv_run env c).
Proof. intros k s0. apply kv_run_keeps. intros env' payer delta s Hs. by apply (Calm_wp _ k s0 s (update_db_usage_calm _ _ _)). Qed.
Lemma idx_run_calm kind env c : CalmC (idx_run kind env c).
Proof. intros k s0. apply idx_run_keeps. intros env' payer delta s Hs. by apply (Calm_wp _ k s0 s (update_db_usage_calm _ _ _)). Qed.

End calm.
