(* ===== verification/Execution.v ===== *)
(** * Running actions

    Models how a transaction runs its actions: exec and exec_one of apply_context.cpp, exec and
    dispatch_action of transaction_context.cpp, the calls of wasm_interface.cpp by which a contract acts
    on the chain, and the receipts and traces that this leaves (action_receipt.hpp, trace.hpp).

    The code of a contract is what the virtual machine makes of it: a tree of calls and of what it does
    with their answers ([code]), given by the parameter [Wasm].  Every path of a tree is finite, as the
    deadline of the transaction stops every run.  A run is a function on [exec_state] that may throw and
    that may run out of fuel; [exec_terminates] shows that it does not. *)

From stdpp Require Import sorting.
From S2P Require Import Prelude Wp Names Merkle BlockHeader Resources Authority ChainConfig AuthManager.
From S2P Require Import AccessLists ApplyContext ContractDb NativeContract Genesis ActionFrame.

(** ** Code with fuel: [None] when there is not enough of it *)
Definition fuM (S A : Type) : Type := S → option (S * result A).
#[global] Instance fuM_ret {S} : MRet (fuM S) := λ A a s, Some (s, Ok a).
#[global] Instance fuM_bind {S} : MBind (fuM S) := λ A B f m s,
  match m s with
  | Some (s', Ok a) => f a s'
  | Some (s', Throw e) => Some (s', Throw e)
  | None => None
  end.
Definition out_of_fuel {S A} : fuM S A := λ _, None.
Definition run {S A} (m : stM S A) : fuM S A := λ s, Some (m s).

(** There is enough fuel, and a run that returns satisfies [Q]. *)
Definition twp {S A} (m : fuM S A) (Q : A → S → Prop) (s : S) : Prop :=
  match m s with Some (s', Ok a) => Q a s' | Some (_, Throw _) => True | None => False end.

Lemma twp_ret {S A} (a : A) (Q : A → S → Prop) s : Q a s → twp (mret a) Q s.
Proof. done. Qed.
Lemma twp_bind {S A B} (m : fuM S A) (f : A → fuM S B) Q s :
  twp m (λ a s', twp (f a) Q s') s → twp (m ≫= f) Q s.
Proof. unfold twp, mbind, fuM_bind. by destruct (m s) as [[s' [a|e]]|]. Qed.
Lemma twp_mono {S A} (m : fuM S A) (Q Q' : A → S → Prop) s :
  twp m Q s → (∀ a s', Q a s' → Q' a s') → twp m Q' s.
Proof. unfold twp. destruct (m s) as [[s' [a|e]]|]; naive_solver. Qed.
Lemma twp_run {S A} (m : stM S A) Q s : wp m Q s → twp (run m) Q s.
Proof. done. Qed.
Lemma twp_ok {S A} (m : fuM S A) (Q : A → S → Prop) s : twp m Q s → is_Some (m s) ∧ ∀ s' a, m s = Some (s', Ok a) → Q a s'.
Proof. unfold twp. destruct (m s) as [[s' [a|e]]|]; naive_solver. Qed.

(** digest_type::hash of an action. *)
Class ActionHash `{ActionCodec} := hash_action : action → digest.

Section execution.
Context {FC : Fc} {KO : FcKeyOrder} {AC : ActionCodec} {TC : TransactionCodec} {PS : PackSizes}
  {CC : CodeChecks} {SF : SoftFloat} {AH : ActionHash}.

(** ** Receipts and traces *)
Record action_receipt := ActionReceipt {
  ar_receiver : account_name;
  ar_act_digest : digest;
  ar_global_sequence : Z;
  ar_recv_sequence : Z;
  ar_auth_sequence : gmap account_name Z;
  ar_code_sequence : Z;
  ar_abi_sequence : Z;
}.

Inductive action_trace :=
  ActionTrace (receipt : action_receipt) (act : action) (context_free : bool)
    (account_ram_deltas : gmap account_name Z) (inline_traces : list action_trace).

(** The state of the chain and the contracts, and the receipts so far. *)
Record exec_state := ExecState {
  es_ctx : contract_state;
  es_executed : list action_receipt;
}.
Definition set_es_ctx (s : exec_state) (c : contract_state) : exec_state := ExecState c (es_executed s).
Definition in_ctx {A} (m : ctx A) : stM exec_state A := λ s,
  let '(c, r) := m (es_ctx s) in (set_es_ctx s c, r).

(** ** The calls of a contract *)
Inductive host_call :=
| RequireAuth (account : account_name)
| RequireAuth2 (account : account_name) (perm : permission_name)
| HasAuth (account : account_name)
| IsAccount (account : account_name)
| RequireRecipient (recipient : account_name)
| SendInline (data_len : Z) (a : result action)
| SendContextFreeInline (data_len : Z) (a : result action)
| SendDeferred (sender_id : Z) (payer : account_name) (trx : result packed_trx) (replace_existing : Z)
| CancelDeferred (sender_id : Z)
| SetResourceLimits (account : account_name) (ram_bytes net_weight cpu_weight : Z)
| SetPrivileged (account : account_name) (is_priv : bool)
| Kv (c : kv_call)
| Idx (k : index_kind) (c : idx_call)
(** a call that changes nothing of the state; context free if it may be made in that context *)
| Query (is_context_free : bool) (f : contract_state → result answer).

Definition bool_answer (b : bool) : answer := Number (if b then 1 else 0).
Definition no_answer (m : apply unit) : ctx answer := _ ← in_apply m; mret NoAnswer.

(** privileged_api::set_resource_limits *)
Definition set_resource_limits (account : account_name) (ram_bytes net_weight cpu_weight : Z) : apply unit :=
  _ ← st_assert (-1 <=? ram_bytes) wasm_execution_error;
  _ ← st_assert (-1 <=? net_weight) wasm_execution_error;
  _ ← st_assert (-1 <=? cpu_weight) wasm_execution_error;
  d ← get_db;
  '(r, decreased) ← st_lift (set_account_limits (db_resources d) account ram_bytes net_weight cpu_weight);
  _ ← put_db (with_resources d r);
  when decreased (st_modify (λ s, set_ram s (account_ram_deltas s) ({[account]} ∪ validate_ram_usage s))).

(** privileged_api::set_privileged *)
Definition set_privileged (n : account_name) (is_priv : bool) : apply unit :=
  d ← get_db;
  a ← st_lift (of_option (db_accounts d !! n) db_not_found);
  put_db (with_accounts d (<[n := AccountObject (ao_vm_type a) (ao_vm_version a) is_priv
    (ao_last_code_update a) (ao_code_version a) (ao_creation_date a) (ao_code a) (ao_abi a)]> (db_accounts d))).

(** transaction_api::send_inline and send_context_free_inline; [a] is what the data unpacks to. *)
Definition unpack_inline (env : apply_env) (data_len : Z) (a : result action) : apply action :=
  _ ← st_assert (data_len <? max_inline_action_size (env_config env)) inline_action_too_big;
  st_lift a.

(** The constructors of context_aware_api and privileged_api. *)
Definition is_context_free_call (c : host_call) : bool :=
  match c with Query is_context_free _ => is_context_free | _ => false end.
Definition is_privileged_call (c : host_call) : bool :=
  match c with SetResourceLimits _ _ _ _ | SetPrivileged _ _ => true | _ => false end.

Definition host_body (env : apply_env) (c : host_call) : ctx answer :=
  match c with
  | RequireAuth account => no_answer (require_authorization env account)
  | RequireAuth2 account perm => no_answer (require_authorization_permission env account perm)
  | HasAuth account => mret (bool_answer (has_authorization env account))
  | IsAccount account => b ← in_apply (is_account account); mret (bool_answer b)
  | RequireRecipient recipient => no_answer (require_recipient recipient)
  | SendInline data_len a => no_answer (a ← unpack_inline env data_len a; execute_inline env a)
  | SendContextFreeInline data_len a =>
      no_answer (a ← unpack_inline env data_len a; execute_context_free_inline a)
  | SendDeferred sender_id payer trx replace_existing =>
      no_answer (trx ← st_lift trx;
                 schedule_deferred_transaction env sender_id payer trx (negb (replace_existing =? 0)))
  | CancelDeferred sender_id =>
      b ← in_apply (cancel_deferred_transaction sender_id (env_receiver env)); mret (bool_answer b)
  | SetResourceLimits account ram_bytes net_weight cpu_weight =>
      no_answer (set_resource_limits account (i64 ram_bytes) (i64 net_weight) (i64 cpu_weight))
  | SetPrivileged account is_priv => no_answer (set_privileged account is_priv)
  | Kv c => kv_run env c
  | Idx k c => idx_run k env c
  | Query _ f => c ← st_get; st_lift (f c)
  end.

Definition host_run (env : apply_env) (context_free : bool) (c : host_call) : ctx answer :=
  _ ← st_assert (negb context_free || is_context_free_call c) unaccessible_api;
  _ ← st_assert (negb (is_privileged_call c) || env_privileged env) unaccessible_api;
  host_body env c.

(** What a contract does: it ends or exits, it traps, or it makes a call and goes on. *)
Inductive code :=
| Done
| Trap (e : exception)
| Host (c : host_call) (k : answer → code).

Fixpoint run_code (env : apply_env) (context_free : bool) (w : code) : ctx unit :=
  match w with
  | Done => mret tt
  | Trap e => st_throw e
  | Host c k => a ← host_run env context_free c; run_code env context_free (k a)
  end.

(** wasm_interface::apply: the behaviour of some code with a version for a receiver and an action. *)
Class Wasm := wasm_apply : digest → list Z → account_name → action → code.
Context {WA : Wasm}.

(** ** apply_context::exec_one *)

(** The context of an action as the transaction fixes it; receiver and privileges are those of the
    account that is notified. *)
Definition for_receiver (env : apply_env) (receiver : account_name) (privileged : bool) : apply_env :=
  ApplyEnv receiver (env_act env) privileged (env_config env) (env_pending_block_time env)
    (env_published env) (env_producing_block env) (env_allow_ram_billing_in_notify env)
    (env_skip_auth_check env) (env_enforce_whiteblacklist env) (env_lists env) (env_skip_trx_checks env)
    (env_eager_net_limit env) (env_net_limit_due_to_block env) (env_net_limit_due_to_greylist env).
Definition for_action (env : apply_env) (a : action) : apply_env :=
  ApplyEnv (act_account a) a false (env_config env) (env_pending_block_time env) (env_published env)
    (env_producing_block env) (env_allow_ram_billing_in_notify env) (env_skip_auth_check env)
    (env_enforce_whiteblacklist env) (env_lists env) (env_skip_trx_checks env)
    (env_eager_net_limit env) (env_net_limit_due_to_block env) (env_net_limit_due_to_greylist env).

Definition check_lists (env : apply_env) : result unit :=
  if env_enforce_whiteblacklist env && env_producing_block env then
    _ ← check_contract_list (env_lists env) (env_receiver env);
    check_action_list (env_lists env) (act_account (env_act env)) (act_name (env_act env))
  else mret tt.

(** controller::get_account *)
Definition get_account (name : account_name) : apply account_object :=
  d ← get_db; st_lift (of_option (db_accounts d !! name) db_not_found).

(** The native handler and the contract of the receiver. *)
Definition run_native (env : apply_env) : apply unit :=
  match find_apply_handler (env_receiver env) (act_account (env_act env)) (act_name (env_act env)) with
  | Some native => _ ← st_lift (check_lists env); native env
  | None => mret tt
  end.
Definition skips_code (env : apply_env) : bool :=
  (act_account (env_act env) =? system_account_name) && (act_name (env_act env) =? setcode_name) &&
  (env_receiver env =? system_account_name).
Definition run_contract (env : apply_env) (context_free : bool) : ctx unit :=
  a ← in_apply (get_account (env_receiver env));
  if bool_decide (ao_code a ≠ []) && negb (skips_code env) then
    _ ← st_lift (check_lists env);
    run_code env context_free (wasm_apply (ao_code_version a) (ao_code a) (env_receiver env) (env_act env))
  else mret tt.

(** [r.auth_sequence[auth.actor] = next_auth_sequence( auth.actor )] for each authorization. *)
Fixpoint auth_sequences (l : list permission_level) (m : gmap account_name Z) : apply (gmap account_name Z) :=
  match l with
  | [] => mret m
  | auth :: l => n ← next_auth_sequence (actor auth); auth_sequences l (<[actor auth := n]> m)
  end.

Definition make_receipt (env : apply_env) : apply action_receipt :=
  global ← next_global_sequence;
  recv ← next_recv_sequence (env_receiver env);
  d ← get_db;
  q ← st_lift (of_option (db_sequences d !! act_account (env_act env)) db_not_found);
  auths ← auth_sequences (act_authorization (env_act env)) ∅;
  mret (ActionReceipt (env_receiver env) (hash_action (env_act env)) global recv auths
          (code_sequence q) (abi_sequence q)).

(** finalize_trace: the RAM deltas go to the trace. *)
Definition take_ram_deltas : apply (gmap account_name Z) :=
  s ← st_get;
  _ ← st_put (set_ram s ∅ (validate_ram_usage s));
  mret (account_ram_deltas s).

Definition exec_one (env : apply_env) (context_free : bool) (receiver : account_name)
    : stM exec_state action_trace :=
  a ← in_ctx (in_apply (get_account receiver));
  let env := for_receiver env receiver (ao_privileged a) in
  _ ← in_ctx (in_apply (run_native env));
  _ ← in_ctx (run_contract env context_free);
  r ← in_ctx (in_apply (make_receipt env));
  _ ← st_modify (λ s, ExecState (es_ctx s) (es_executed s ++ [r]));
  deltas ← in_ctx (in_apply take_ram_deltas);
  mret (ActionTrace r (env_act env) context_free deltas []).

(** ** apply_context::exec and transaction_context::dispatch_action *)
Definition es_apply (s : exec_state) : apply_state := cs_apply (es_ctx s).

(** The accounts after the first one that are notified, from position [i] on. *)
Fixpoint notify (fuel : nat) (env : apply_env) (context_free : bool) (i : nat)
    : fuM exec_state (list action_trace) :=
  s ← run st_get;
  match notified (es_apply s) !! i with
  | None => mret []
  | Some receiver =>
      match fuel with
      | O => out_of_fuel
      | S fuel =>
          t ← run (exec_one env context_free receiver);
          ts ← notify fuel env context_free (S i);
          mret (t :: ts)
      end
  end.
Definition notify_fuel (s : exec_state) : nat := 2 + size (dom (db_accounts (st_db (es_apply s)))).

(** [trx_context.dispatch_action] for each action of a list. *)
Fixpoint dispatch_all (dispatch : action → fuM exec_state action_trace) (l : list action)
    : fuM exec_state (list action_trace) :=
  match l with
  | [] => mret []
  | a :: l => t ← dispatch a; ts ← dispatch_all dispatch l; mret (t :: ts)
  end.

(** The constructor of apply_context: nothing is notified, queued or cached yet. *)
Definition fresh_rows {A} (r : rows A) : rows A := with_cache r cache_empty.
Definition new_apply_context (a : action) (s : exec_state) : exec_state :=
  let c := es_ctx s in
  let p := cs_apply c in
  ExecState
    (ContractState
       (ApplyState (st_db p) (replicate (length (act_authorization a)) false) ∅ (validate_ram_usage p)
          [] [] [] (trx_net_usage p))
       (cs_tables c) (cs_next_table c) (fresh_rows (cs_kv c)) (fresh_rows (cs_idx64 c))
       (fresh_rows (cs_idx128 c)) (fresh_rows (cs_idx256 c)) (fresh_rows (cs_idx_double c))
       (fresh_rows (cs_idx_long_double c)))
    (es_executed s).

Definition add_traces (t : action_trace) (ts : list action_trace) : action_trace :=
  let 'ActionTrace r a context_free deltas l := t in ActionTrace r a context_free deltas (l ++ ts).

Fixpoint dispatch_action (fuel : nat) (env : apply_env) (context_free : bool) (recurse_depth : Z) (a : action)
    (receiver : account_name) : fuM exec_state action_trace :=
  match fuel with
  | O => out_of_fuel
  | S fuel =>
      let env := for_action env a in
      _ ← run (st_modify (new_apply_context a));
      _ ← run (in_ctx (in_apply (st_modify (λ s, set_notified s (notified s ++ [receiver])))));
      t ← run (exec_one env context_free receiver);
      s ← run st_get;
      notices ← notify (notify_fuel s) env context_free 1;
      s ← run st_get;
      let cfa := cfa_inline_actions (es_apply s) in
      let inline := inline_actions (es_apply s) in
      _ ← run (st_assert (bool_decide (cfa = [] ∧ inline = []) ||
                          (recurse_depth <? max_inline_action_depth (env_config env))) transaction_exception);
      ts1 ← dispatch_all (λ b, dispatch_action fuel env true (recurse_depth + 1) b (act_account b)) cfa;
      ts2 ← dispatch_all (λ b, dispatch_action fuel env false (recurse_depth + 1) b (act_account b)) inline;
      mret (add_traces t (notices ++ ts1 ++ ts2))
  end.

(** One level for each depth that is allowed. *)
Definition depth_fuel (env : apply_env) : nat := S (Z.to_nat (max_inline_action_depth (env_config env))).

(** ** Sequence numbers *)

(** The receipts in the order in which the actions ran. *)
Fixpoint receipts_of (t : action_trace) : list action_receipt :=
  let 'ActionTrace r _ _ _ l := t in r :: flat_map receipts_of l.

(** [f] numbers the receipts that satisfy [P], starting after [g], and [g'] is the last number. *)
Definition count (P : action_receipt → bool) (l : list action_receipt) : Z :=
  Z.of_nat (length (List.filter P l)).
Record numbered (P : action_receipt → bool) (f : action_receipt → Z) (g : Z) (l : list action_receipt) (g' : Z)
    : Prop := {
  nu_receipts i r : l !! i = Some r → P r = true → f r = u64 (g + 1 + count P (take i l));
  nu_last : u64 g' = u64 (g + count P l);
}.

Lemma count_app P l l' : count P (l ++ l') = count P l + count P l'.
Proof. unfold count. rewrite List.filter_app, length_app. lia. Qed.
Lemma u64_congr a b c : u64 a = u64 b → u64 (a + c) = u64 (b + c).
Proof. unfold u64. intros H. by rewrite <-Zplus_mod_idemp_l, H, Zplus_mod_idemp_l. Qed.

Lemma numbered_nil P f g : numbered P f g [] g.
Proof. split; [done|]. f_equal. unfold count. simpl. lia. Qed.
Lemma numbered_app P f g l g1 l' g2 :
  numbered P f g l g1 → numbered P f g1 l' g2 → numbered P f g (l ++ l') g2.
Proof.
  intros [H1 E1] [H2 E2]. split.
  - intros i r Hi Hr. apply lookup_app_Some in Hi as [Hi|[Hle Hi]].
    + rewrite take_app_le by (apply lookup_lt_Some in Hi; lia). by apply H1.
    + rewrite take_app_ge, count_app by done. rewrite (H2 _ _ Hi Hr).
      replace (g1 + 1 + _) with (g1 + (1 + count P (take (i - length l) l'))) by lia.
      rewrite (u64_congr _ _ _ E1). f_equal. lia.
  - rewrite E2, count_app, (u64_congr _ _ _ E1). f_equal. lia.
Qed.
Lemma numbered_one P f g r : (P r = true → f r = u64 (g + 1)) →
  numbered P f g [r] (if P r then u64 (g + 1) else g).
Proof.
  intros Hr. split.
  - intros [|i] r' Hi Hp; simplify_eq/=. rewrite Hr by done. f_equal. unfold count. simpl. lia.
  - unfold count. simpl. destruct (P r); simpl; [|f_equal; lia].
    by rewrite u64_small by apply u64_range.
Qed.

(** ** What a run does *)
Implicit Types (d : chain_db) (c : contract_state).
Definition es_db (s : exec_state) : chain_db := st_db (es_apply s).

(** Running [w] from [c], the call [h] is made in the state [c']. *)
Inductive makes (env : apply_env) (context_free : bool) : code → contract_state → host_call → contract_state → Prop :=
| MakesNow h k c : makes env context_free (Host h k) c h c
| MakesLater h k c c1 x h' c' :
    host_run env context_free h c = (c1, Ok x) → makes env context_free (k x) c1 h' c' →
    makes env context_free (Host h k) c h' c'.

(** Run from [s] for the action of [env], the code of [receiver] sends the inline action [a], which is
    authorized in the database of that moment, with the privileges that [receiver] has in [s]. *)
Definition sends (env : apply_env) (context_free : bool) (receiver : account_name) (s : exec_state) (a : action)
    : Prop :=
  ∃ account p code_account data_len c,
    let env' := for_receiver env receiver (ao_privileged account) in
    db_accounts (es_db s) !! receiver = Some account ∧
    run_native env' (es_apply s) = (p, Ok tt) ∧
    db_accounts (st_db p) !! receiver = Some code_account ∧
    makes env' context_free
      (wasm_apply (ao_code_version code_account) (ao_code code_account) receiver (env_act env))
      (set_apply (es_ctx s) p) (SendInline data_len (Ok a)) c ∧
    inline_authorized env' (st_db (cs_apply c)) a.

(** From [s0], the receivers that are notified of the action of [env] run one after the other: [s] is
    reached when those with the traces [ts] have run. *)
Inductive turn (env : apply_env) (context_free : bool) (s0 : exec_state) : list action_trace → exec_state → Prop :=
| TurnFirst : turn env context_free s0 [] s0
| TurnNext ts s receiver t s' :
    turn env context_free s0 ts s → notified (es_apply s) !! length ts = Some receiver →
    exec_one env context_free receiver s = (s', Ok t) → turn env context_free s0 (ts ++ [t]) s'.

(** One of these receivers sent the inline action [a]. *)
Definition sent_by (env : apply_env) (context_free : bool) (s0 : exec_state) (a : action) : Prop :=
  ∃ ts s receiver, turn env context_free s0 ts s ∧ notified (es_apply s) !! length ts = Some receiver ∧
    sends env context_free receiver s a.

(** The net usage of the transaction, which the fees keep. *)
Context (paid : Z → Prop).

(** From [s] to [s'] the actions of the receipts [l] ran, with at most [n] new accounts. *)
Record ran (n : nat) (s s' : exec_state) (l : list action_receipt) : Prop := {
  rn_accounts : dom (db_accounts (es_db s)) ⊆ dom (db_accounts (es_db s')) ∧
    (size (dom (db_accounts (es_db s'))) <= size (dom (db_accounts (es_db s))) + n)%nat;
  rn_resources : quiet (db_resources (es_db s)) (db_resources (es_db s'));
  rn_executed : es_executed s' = es_executed s ++ l;
  rn_global : numbered (λ _, true) ar_global_sequence (global_action_sequence (es_db s)) l
    (global_action_sequence (es_db s'));
  rn_recv x : numbered (λ r, ar_receiver r =? x) ar_recv_sequence (recv_of (es_db s) x) l (recv_of (es_db s') x);
  rn_net : paid (trx_net_usage (es_apply s)) → paid (trx_net_usage (es_apply s'));
}.
Lemma ran_nil s s' :
  es_db s' = es_db s → es_executed s' = es_executed s →
  trx_net_usage (es_apply s') = trx_net_usage (es_apply s) → ran 0 s s' [].
Proof.
  intros Ed Ex En. split; rewrite ?Ed; [split; [done|lia]|done|by rewrite app_nil_r|apply numbered_nil|intros x; apply numbered_nil|by rewrite En].
Qed.
Lemma ran_trans n m s1 s2 s3 l l' : ran n s1 s2 l → ran m s2 s3 l' → ran (n + m) s1 s3 (l ++ l').
Proof.
  intros [[A1 N1] Q1 X1 G1 V1 P1] [[A2 N2] Q2 X2 G2 V2 P2]. split.
  - split; [by etransitivity|lia].
  - by etransitivity.
  - by rewrite X2, X1, app_assoc.
  - by eapply numbered_app.
  - intros x. by eapply numbered_app.
  - auto.
Qed.

(** ** The calls of a contract *)
Lemma set_resource_limits_calm sent account ram net cpu :
  in_i64 net → in_i64 cpu → Calm sent paid 0 (set_resource_limits account ram net cpu).
Proof.
  intros Hn Hc. apply Calm_alone. intros s. unfold set_resource_limits, get_db, put_db, when. repeat wp_basic.
  all: subst; split; [|done..]; apply calm_resources; by apply (quiet_limits _ account ram net cpu _ _ Hn Hc) in H2.
Qed.
Lemma set_privileged_calm sent n p : Calm sent paid 0 (set_privileged n p).
Proof.
  apply Calm_alone. intros s. unfold set_privileged, get_db, put_db. repeat wp_basic. inv_ok.
  split; [|done..]. by eapply calm_account.
Qed.
Lemma no_answer_calm sent m : Calm sent paid 0 m → CalmC sent paid (no_answer m).
Proof. intros Hm k s0 c Hc. unfold no_answer. wp_basic. wp_call in_apply_calm; [done..|]. by wp_basic. Qed.

Lemma host_run_calm sent env context_free h k s0 c :
  pays_fee paid env →
  (∀ n a, h = SendInline n (Ok a) → inline_authorized env (st_db (cs_apply c)) a → sent a) →
  calm sent paid k s0 (cs_apply c) →
  wp (host_run env context_free h) (λ _ c', calm sent paid k s0 (cs_apply c')) c.
Proof.
  intros Hp Hsent Hc. unfold host_run. wp_basic. wp_basic. wp_basic. wp_basic. destruct h; simpl.
  all: lazymatch goal with
    | |- wp (no_answer (_ ← unpack_inline _ _ _; execute_inline _ _)) _ _ => idtac
    | |- wp (no_answer _) _ _ => apply no_answer_calm; [|done]
    | |- _ => idtac end.
  - apply require_authorization_calm.
  - apply require_auth_calm.
  - by wp_basic.
  - wp_basic. wp_call in_apply_calm; [|done|by wp_basic].
    apply Calm_alone. intros s. unfold is_account, get_db. by repeat wp_basic.
  - apply require_recipient_calm.
  - unfold no_answer. wp_basic. apply (wp_mono _ (λ _ c', calm sent paid k s0 (cs_apply c'))); [|intros ? ? ?; by wp_basic].
    apply wp_in_apply. unfold unpack_inline. repeat wp_basic. simpl. subst. apply execute_inline_calm; [|done]. by eapply Hsent.
  - apply Calm_alone. intros s. unfold unpack_inline. repeat wp_basic.
    by apply (Calm_wp sent paid _ 0 s s (execute_context_free_inline_calm _ _ _)).
  - apply Calm_alone. intros s. repeat wp_basic. by apply (Calm_wp sent paid _ 0 s s (schedule_deferred_calm _ _ _ _ _ _ _ Hp)).
  - wp_basic. wp_call in_apply_calm; [apply cancel_deferred_calm|done|by wp_basic].
  - apply set_resource_limits_calm; apply i64_in.
  - apply set_privileged_calm.
  - by apply kv_run_calm.
  - by apply idx_run_calm.
  - by repeat wp_basic.
Qed.

Lemma run_code_calm sent env context_free w k s0 c :
  pays_fee paid env →
  (∀ n a c', makes env context_free w c (SendInline n (Ok a)) c' →
    inline_authorized env (st_db (cs_apply c')) a → sent a) →
  calm sent paid k s0 (cs_apply c) →
  wp (run_code env context_free w) (λ _ c', calm sent paid k s0 (cs_apply c')) c.
Proof.
  intros Hp. revert c. induction w as [|e|h w IH]; intros c Hs Hc; simpl; [by wp_basic|by wp_basic|].
  wp_basic. apply (wp_mono _ (λ x c', calm sent paid k s0 (cs_apply c') ∧ host_run env context_free h c = (c', Ok x))).
  - apply wp_and; [|by apply wp_run]. apply host_run_calm; [done| |done]. intros n a ->. apply (Hs n), MakesNow.
  - intros x c' [Hc' E]. apply IH; [|done]. intros n a c'' Hm. by eapply (Hs n), MakesLater.
Qed.

(** ** One action for one receiver *)
Definition grows (receiver : account_name) : nat := if decide (receiver = system_account_name) then 1 else 0.

Lemma run_native_calm sent env : Calm sent paid (grows (env_receiver env)) (run_native env).
Proof.
  apply Calm_alone. intros s. unfold run_native. destruct (find_apply_handler _ _ _) as [native|] eqn:E.
  - apply (handler_calm sent paid _ _ _ _ env) in E as [E Hm]. rewrite E. unfold grows. rewrite decide_True by done.
    wp_basic. apply wp_lift. intros [] _. by apply (Hm 0%nat s s).
  - apply wp_ret. eapply calm_weaken; [|reflexivity]. lia.
Qed.

(** A receipt changes sequence numbers only. *)
Record receipt_made (env : apply_env) d d' (r : action_receipt) : Prop := {
  rm_accounts : db_accounts d' = db_accounts d;
  rm_resources : db_resources d' = db_resources d;
  rm_receiver : ar_receiver r = env_receiver env;
  rm_global : ar_global_sequence r = u64 (global_action_sequence d + 1) ∧
    global_action_sequence d' = u64 (global_action_sequence d + 1);
  rm_recv : ar_recv_sequence r = u64 (recv_of d (env_receiver env) + 1);
  rm_recv_of x : recv_of d' x = if env_receiver env =? x then u64 (recv_of d x + 1) else recv_of d x;
}.
Lemma auth_sequences_spec l m d s : st_db s = d →
  wp (auth_sequences l m) (λ _ s', ∃ q, s' = set_db s (with_sequences d q) ∧ ∀ x, recv_of (st_db s') x = recv_of d x) s.
Proof.
  revert m d s. induction l as [|a l IH]; intros m d s <-; simpl.
  - wp_basic. exists (db_sequences (st_db s)). split; [by destruct s as [[]]|done].
  - unfold next_auth_sequence, get_db, put_db. repeat wp_basic. inv_ok.
    rename select (db_sequences _ !! _ = Some _) into Hq. eapply wp_mono; [by eapply IH|]. cbv beta. intros m' s' (q & -> & Hx). exists q. split; [done|].
    intros x. rewrite Hx. unfold recv_of. simpl. destruct (decide (actor a = x)) as [<-|Hne].
    + by rewrite lookup_insert_eq, Hq.
    + by rewrite lookup_insert_ne.
Qed.
Lemma make_receipt_spec env s :
  wp (make_receipt env) (λ r s', receipt_made env (st_db s) (st_db s') r ∧ s' = set_db s (st_db s')) s.
Proof.
  unfold make_receipt, next_global_sequence, next_recv_sequence, get_db, put_db. repeat wp_basic. inv_ok.
  rename select (_ !! env_receiver env = Some _) into Hq. eapply wp_mono; [by eapply auth_sequences_spec|]. cbv beta. intros auths s' (q' & -> & Hx). wp_basic.
  split; [|done]. split; try done; simpl in *.
  - unfold recv_of. by rewrite Hq.
  - intros x. rewrite Hx. unfold recv_of. simpl. destruct (env_receiver env =? x) eqn:E; reflect_bools.
    + by rewrite <-E, lookup_insert_eq, Hq.
    + by rewrite lookup_insert_ne.
Qed.

Lemma wp_in_ctx {A} (m : ctx A) (Q : A → exec_state → Prop) s :
  wp m (λ x c, Q x (set_es_ctx s c)) (es_ctx s) → wp (in_ctx m) Q s.
Proof. unfold wp, in_ctx. by destruct (m (es_ctx s)) as [c [x|e]]. Qed.

(** The queues of the context. *)
Record kept (sent : action → Prop) (s s' : apply_state) : Prop := {
  ke_notified : notified s `prefix_of` notified s';
  ke_nodup : NoDup (notified s) → NoDup (notified s');
  ke_inline : Forall sent (inline_actions s) → Forall sent (inline_actions s');
  ke_cfa : Forall (λ a, act_authorization a = []) (cfa_inline_actions s) →
    Forall (λ a, act_authorization a = []) (cfa_inline_actions s');
}.
Lemma kept_refl sent s s' :
  notified s' = notified s → inline_actions s' = inline_actions s →
  cfa_inline_actions s' = cfa_inline_actions s → kept sent s s'.
Proof. by intros E1 E2 E3; split; rewrite ?E1, ?E2, ?E3. Qed.
Lemma kept_trans sent s1 s2 s3 : kept sent s1 s2 → kept sent s2 s3 → kept sent s1 s3.
Proof. intros [] []. split; [by etransitivity|by auto..]. Qed.
Lemma calm_kept sent n s s' : calm sent paid n s s' → kept sent s s'.
Proof. intros []. by split. Qed.

(** Before the receipt is made. *)
Record running (sent : action → Prop) (n : nat) (s s' : exec_state) : Prop := {
  ru_calm : calm sent paid n (es_apply s) (es_apply s');
  ru_executed : es_executed s' = es_executed s;
}.

Lemma native_running sent env s :
  wp (in_ctx (in_apply (run_native env)))
    (λ _ s', running sent (grows (env_receiver env)) s s' ∧
       ∃ p, run_native env (es_apply s) = (p, Ok tt) ∧ s' = set_es_ctx s (set_apply (es_ctx s) p)) s.
Proof.
  apply wp_in_ctx, wp_in_apply. apply wp_run. intros p [] E. split; [split; simpl; [|done]|by exists p].
  pose proof (run_native_calm sent env 0%nat _ _ (reflexivity (es_apply s))) as Hw. rewrite wp_run in Hw. by eapply Hw.
Qed.
Lemma contract_running sent env receiver account context_free n s p :
  let env' := for_receiver env receiver (ao_privileged account) in
  let s1 := set_es_ctx s (set_apply (es_ctx s) p) in
  pays_fee paid env → db_accounts (es_db s) !! receiver = Some account →
  run_native env' (es_apply s) = (p, Ok tt) → (∀ a, sends env context_free receiver s a → sent a) →
  running sent n s s1 → wp (in_ctx (run_contract env' context_free)) (λ _ s', running sent n s s') s1.
Proof.
  intros env' s1 Hp Ha Hn Hs [Hc Hx]. apply wp_in_ctx. unfold run_contract, get_account.
  apply wp_bind, wp_in_apply. unfold get_db. repeat wp_basic; [|by split]. inv_ok.
  eapply wp_mono; [apply (run_code_calm sent _ _ _ n (es_apply s)); [done| |exact Hc]|].
  - intros len b c Hm Hb. apply Hs. eexists account, p, _, len, c. split_and!; [done|done|by simpl in *|exact Hm|exact Hb].
  - cbv beta. intros _ c Hc'. by split.
Qed.

(** The trace of one receiver. *)
Definition one_trace (env : apply_env) (context_free : bool) (receiver : account_name) (t : action_trace) : Prop :=
  ∃ r deltas, t = ActionTrace r (env_act env) context_free deltas [] ∧ ar_receiver r = receiver.

Lemma receipt_ran sent env n s s1 d r receiver privileged :
  running sent n s s1 → receipt_made (for_receiver env receiver privileged) (es_db s1) d r →
  ∀ s', es_db s' = d → es_executed s' = es_executed s1 ++ [r] →
  trx_net_usage (es_apply s') = trx_net_usage (es_apply s1) → ran n s s' [r].
Proof.
  intros [[[[Ha Hn] Hg Hv Hq] _ _ _ _ Hnet] Hx] [Ea Er Ec [Eg Eg'] Ev Ev'] s' Es Ex En. simpl in *.
  fold (es_db s) (es_db s1) in *. split; rewrite ?Es, ?Ea, ?Er; [done|done|by rewrite Ex, Hx| | |by rewrite En].
  - rewrite Eg', Hg. apply (numbered_one (λ _, true)). by rewrite Eg, Hg.
  - intros x. rewrite Ev', Hv, <-Ec. apply (numbered_one (λ r, ar_receiver r =? x)). simpl.
    intros E. reflect_bools. by rewrite Ev, Hv, <-E, Ec.
Qed.

Lemma exec_one_spec sent env context_free receiver s :
  pays_fee paid env → (∀ a, sends env context_free receiver s a → sent a) →
  wp (exec_one env context_free receiver) (λ t s',
    one_trace env context_free receiver t ∧ receiver ∈ dom (db_accounts (es_db s')) ∧
    ran (grows receiver) s s' (receipts_of t) ∧ kept sent (es_apply s) (es_apply s')) s.
Proof.
  intros Hp Hs. unfold exec_one. wp_basic.
  apply (wp_mono _ (λ a s', s' = s ∧ db_accounts (es_db s) !! receiver = Some a)).
  { apply wp_in_ctx, wp_in_apply. unfold get_account, get_db. repeat wp_basic. inv_ok. by destruct s as [[]]. }
  intros account s' [-> Ha]. wp_basic. eapply wp_mono; [by apply (native_running sent)|]. cbv beta.
  intros _ s1 (H1 & p & Hn & ->).
  wp_basic. eapply wp_mono; [by eapply contract_running|]. cbv beta. clear H1. intros _ s1 H1.
  wp_basic. apply wp_in_ctx, wp_in_apply. eapply wp_mono; [apply make_receipt_spec|].
  cbv beta. intros r s2 [Hm Es]. wp_basic. wp_basic. wp_basic. apply wp_in_ctx, wp_in_apply.
  unfold take_ram_deltas. repeat wp_basic. split; [by eexists _, _; split; [|apply (rm_receiver _ _ _ _ Hm)]|].
  split; [|split].
  - change (receiver ∈ dom (db_accounts (st_db s2))). rewrite (rm_accounts _ _ _ _ Hm).
    apply (cd_accounts _ _ _ (cm_db _ _ _ _ _ (ru_calm _ _ _ _ H1))). by eapply elem_of_dom_2.
  - eapply receipt_ran; [done..|]. simpl. by rewrite Es.
  - eapply kept_trans; [eapply calm_kept, H1|]. rewrite Es. by apply kept_refl.
Qed.

(** ** Notifications *)

(** The loop at position [i]: the accounts before it exist, and there are [n] accounts, or one more when
    the system account has run. *)
Record notifying (n i : nat) (s : exec_state) : Prop := {
  no_nodup : NoDup (notified (es_apply s));
  no_exist x : x ∈ take i (notified (es_apply s)) → x ∈ dom (db_accounts (es_db s));
  no_size : (size (dom (db_accounts (es_db s))) <=
    n + (if bool_decide (system_account_name ∈ take i (notified (es_apply s))) then 1 else 0))%nat;
}.

Lemma notifying_bound n i s : notifying n i s → (i <= length (notified (es_apply s)))%nat → (i <= n + 1)%nat.
Proof.
  intros [Hnd Hex Hn] Hi. assert (NoDup (take i (notified (es_apply s)))) as Hnd'.
  { rewrite <-(take_drop i (notified (es_apply s))) in Hnd. by apply NoDup_app in Hnd as [? _]. }
  assert (i <= size (dom (db_accounts (es_db s))))%nat.
  { rewrite <-(length_take_le (notified (es_apply s)) i Hi) at 1.
    rewrite <-(size_list_to_set (C := gset account_name) _ Hnd').
    apply subseteq_size. intros x Hx%elem_of_list_to_set. by apply Hex. }
  case_bool_decide; lia.
Qed.

Lemma not_before (l : list account_name) i x : NoDup l → l !! i = Some x → x ∉ take i l.
Proof.
  intros Hnd Hi Hin. rewrite <-(take_drop_middle _ _ _ Hi) in Hnd. apply NoDup_app in Hnd as (_ & Hd & _).
  apply (Hd x Hin). by left.
Qed.

Lemma notifying_next n i s s' receiver sent l :
  notifying n i s → notified (es_apply s) !! i = Some receiver → receiver ∈ dom (db_accounts (es_db s')) →
  ran (grows receiver) s s' l → kept sent (es_apply s) (es_apply s') → notifying n (S i) s'.
Proof.
  intros [Hnd Hex Hn] Hi Hr [[Ha Hs] _ _ _ _ _] [[l' Hp] Hnd' _ _].
  assert (take (S i) (notified (es_apply s')) = take i (notified (es_apply s)) ++ [receiver]) as Et.
  { rewrite Hp, take_app_le by (apply lookup_lt_Some in Hi; lia). by apply take_S_r. }
  assert (receiver ∉ take i (notified (es_apply s))) as Hni.
  { by apply not_before. }
  split; rewrite ?Et; [by apply Hnd'|..].
  - intros x [Hx| ->%list_elem_of_singleton]%elem_of_app; [by apply Ha, Hex|done].
  - unfold grows in Hs. destruct (decide (receiver = system_account_name)) as [->|Hne].
    + rewrite bool_decide_eq_false_2 in Hn by done. case_bool_decide; [lia|]. set_solver.
    + assert (system_account_name ∈ take i (notified (es_apply s)) ↔
              system_account_name ∈ take i (notified (es_apply s)) ++ [receiver]) as Hiff by set_solver.
      rewrite <-(bool_decide_ext _ _ Hiff). lia.
Qed.

(** The traces of notifications: none is of an account before position [i]. *)
Definition notice (env : apply_env) (context_free : bool) (before : list account_name) (t : action_trace) : Prop :=
  ∃ receiver, one_trace env context_free receiver t ∧ receiver ∉ before.

Lemma notify_spec fuel n env context_free s0 ts0 s :
  turn env context_free s0 ts0 s → notifying n (length ts0) s →
  (length ts0 <= length (notified (es_apply s)))%nat → (n + 2 <= fuel + length ts0)%nat → pays_fee paid env →
  twp (notify fuel env context_free (length ts0)) (λ ts s', ∃ m, ran m s s' (flat_map receipts_of ts) ∧
    kept (sent_by env context_free s0) (es_apply s) (es_apply s') ∧
    Forall (notice env context_free (take (length ts0) (notified (es_apply s)))) ts ∧
    turn env context_free s0 (ts0 ++ ts) s' ∧ notified (es_apply s') !! length (ts0 ++ ts) = None) s.
Proof.
  revert ts0 s. induction fuel as [|fuel IH]; intros ts0 s Ht0 Hs Hi Hf Hp; simpl.
  all: apply twp_bind, twp_run, wp_get; destruct (notified (es_apply s) !! length ts0) as [receiver|] eqn:E.
  2, 4: apply twp_ret; exists 0%nat; rewrite app_nil_r; split_and!; [by apply ran_nil|by apply kept_refl|constructor|done|done].
  - pose proof (notifying_bound _ _ _ Hs Hi). apply lookup_lt_Some in E. lia.
  - apply twp_bind, twp_run. eapply wp_mono; [apply wp_and; [apply (exec_one_spec (sent_by env context_free s0)); [done|]|apply wp_run; intros ? ? Ex; exact Ex]|].
    { intros a Ha. by exists ts0, s, receiver. }
    cbv beta. intros t s1 [(Ht & Hr & Hran & Hk) Ex]. pose proof (notifying_next _ _ _ _ _ _ _ Hs E Hr Hran Hk) as Hs1.
    pose proof (ke_notified _ _ _ Hk) as [l Hl]. apply lookup_lt_Some in E as Hlt.
    pose proof (TurnNext _ _ _ _ _ _ _ _ Ht0 E Ex) as Ht1. assert (length (ts0 ++ [t]) = S (length ts0)) as El.
    { rewrite length_app. simpl. lia. }
    rewrite <-El in Hs1 |- *. apply twp_bind.
    eapply twp_mono; [apply IH; [done|done|rewrite Hl, El, length_app; lia|rewrite El; lia|done]|].
    cbv beta. intros ts s2 (m & Hran2 & Hk2 & Hts & Ht2 & Hend). apply twp_ret. exists (grows receiver + m)%nat.
    rewrite <-app_assoc in Ht2, Hend.
    split_and!; [by apply (ran_trans _ _ s s1 s2)|by eapply kept_trans|constructor|done|done].
    + exists receiver. split; [done|]. apply not_before; [apply Hs|done].
    + eapply Forall_impl; [exact Hts|]. intros t' (x & Hx & Hn). exists x. split; [done|]. intros Hin. apply Hn.
      rewrite Hl, El, take_app_le, (take_S_r _ _ _ E) by lia. apply elem_of_app. by left.
Qed.

(** ** Whole actions *)
Definition trace_receipt (t : action_trace) : action_receipt := let 'ActionTrace r _ _ _ _ := t in r.
Definition trace_act (t : action_trace) : action := let 'ActionTrace _ a _ _ _ := t in a.
Definition trace_context_free (t : action_trace) : bool := let 'ActionTrace _ _ b _ _ := t in b.

(** The trace of the action [a] for [receiver]. *)
Definition dispatched (context_free : bool) (receiver : account_name) (a : action) (t : action_trace) : Prop :=
  ar_receiver (trace_receipt t) = receiver ∧ trace_act t = a ∧ trace_context_free t = context_free.

(** The context in which the first receiver of an action runs. *)
Definition first_context (a : action) (receiver : account_name) (s : exec_state) : exec_state :=
  ExecState (set_apply (es_ctx (new_apply_context a s)) (set_notified (es_apply (new_apply_context a s)) [receiver]))
    (es_executed s).

(** [t] is the trace of a run from [s] to [s'] in which every action was checked: below it are the
    traces of the other accounts that were notified of the same action, then those of the context-free
    actions, which have no authorizations, and of the inline actions, which one of the receivers sent
    with authorization; and these are traces of the runs of exactly the actions that were queued, each
    from the state in which the run before it ended. *)
Inductive trace_ok (envs : action → apply_env) : exec_state → action_trace → exec_state → Prop :=
| TraceOk s r a context_free deltas notices ts s1 s' :
    let s0 := first_context a (ar_receiver r) s in
    turn (envs a) context_free s0 (ActionTrace r a context_free deltas [] :: notices) s1 →
    notified (es_apply s1) !! S (length notices) = None →
    Forall (notice (envs a) context_free [ar_receiver r]) notices →
    Forall (λ b, act_authorization b = []) (cfa_inline_actions (es_apply s1)) →
    Forall (sent_by (envs a) context_free s0) (inline_actions (es_apply s1)) →
    children_ok envs s1 ((pair true <$> cfa_inline_actions (es_apply s1)) ++ (pair false <$> inline_actions (es_apply s1)))
      ts s' →
    trace_ok envs s (ActionTrace r a context_free deltas (notices ++ ts)) s'
with children_ok (envs : action → apply_env) : exec_state → list (bool * action) → list action_trace → exec_state → Prop :=
| ChildrenNil s : children_ok envs s [] [] s
| ChildrenCons s context_free b l t ts s1 s' :
    dispatched context_free (act_account b) b t → trace_ok envs s t s1 → children_ok envs s1 l ts s' →
    children_ok envs s ((context_free, b) :: l) (t :: ts) s'.

Lemma children_app envs s1 l1 ts1 s2 l2 ts2 s3 :
  children_ok envs s1 l1 ts1 s2 → children_ok envs s2 l2 ts2 s3 → children_ok envs s1 (l1 ++ l2) (ts1 ++ ts2) s3.
Proof. intros H1 H2. induction H1 as [|? ? ? ? ? ? ? ? Hd Ht _ IH]; [done|]. simpl. econstructor; [exact Hd|exact Ht|by apply IH]. Qed.

Lemma dispatch_all_spec envs f context_free l s :
  (∀ a s, a ∈ l → twp (f a) (λ t s', ∃ m, ran m s s' (receipts_of t) ∧
     dispatched context_free (act_account a) a t ∧ trace_ok envs s t s') s) →
  twp (dispatch_all f l) (λ ts s', ∃ m, ran m s s' (flat_map receipts_of ts) ∧
    children_ok envs s (pair context_free <$> l) ts s') s.
Proof.
  revert s. induction l as [|a l IH]; intros s Hf; simpl.
  - apply twp_ret. exists 0%nat. split; [by apply ran_nil|constructor].
  - apply twp_bind. eapply twp_mono; [apply Hf; by left|]. cbv beta. intros t s1 (m & Hr & Ht & Ho).
    apply twp_bind. eapply twp_mono; [apply IH; intros a' s' Ha'; apply Hf; by right|].
    cbv beta. intros ts s2 (m2 & Hr2 & Hts). apply twp_ret. exists (m + m2)%nat.
    split; [by apply (ran_trans _ _ s s1 s2)|by econstructor].
Qed.

(** The first receiver of a new context. *)
Lemma notifying_first a receiver s s1 s2 sent :
  es_apply s1 = set_notified (es_apply (new_apply_context a s)) [receiver] →
  receiver ∈ dom (db_accounts (es_db s2)) → kept sent (es_apply s1) (es_apply s2) →
  notifying (size (dom (db_accounts (es_db s2)))) 1 s2 ∧ (1 <= length (notified (es_apply s2)))%nat ∧
  take 1 (notified (es_apply s2)) = [receiver] ∧ Forall sent (inline_actions (es_apply s2)) ∧
  Forall (λ a, act_authorization a = []) (cfa_inline_actions (es_apply s2)).
Proof.
  intros E Ha [[l Hl] Hnd Hi Hc]. rewrite E in Hl, Hnd, Hi, Hc. simpl in *.
  assert (take 1 (notified (es_apply s2)) = [receiver]) as Et by by rewrite Hl.
  split_and!; [|rewrite Hl; simpl; lia|done|by apply Hi|by apply Hc].
  split; rewrite ?Et; [by apply Hnd, NoDup_singleton| |case_bool_decide; lia].
  by intros x ->%list_elem_of_singleton.
Qed.

Lemma ran_first_context a receiver s : ran 0 s (first_context a receiver s) [].
Proof. by apply ran_nil. Qed.

Lemma receipts_of_add t ts : receipts_of (add_traces t ts) = receipts_of t ++ flat_map receipts_of ts.
Proof. destruct t as [r a b deltas l]. simpl. by rewrite flat_map_app. Qed.

Lemma dispatch_spec fuel env context_free depth a receiver s :
  (Z.to_nat (max_inline_action_depth (env_config env) - depth) < fuel)%nat → pays_fee paid env →
  twp (dispatch_action fuel env context_free depth a receiver) (λ t s', ∃ m, ran m s s' (receipts_of t) ∧
    dispatched context_free receiver a t ∧ trace_ok (for_action env) s t s') s.
Proof.
  revert env context_free depth a receiver s.
  induction fuel as [|fuel IH]; intros env context_free depth a receiver s Hf Hp; [lia|].
  cbn [dispatch_action]. apply twp_bind, twp_run, wp_modify, twp_bind, twp_run, wp_in_ctx, wp_in_apply, wp_modify.
  pose proof (ran_first_context a receiver s) as Hr0. change (set_es_ctx _ _) with (first_context a receiver s).
  set (s1 := first_context a receiver s) in *. set (env' := for_action env a) in *. apply twp_bind, twp_run.
  eapply wp_mono; [apply wp_and; [apply (exec_one_spec (sent_by env' context_free s1)); [done|]|apply wp_run; intros ? ? Ex; exact Ex]|].
  { intros b Hb. by exists [], s1, receiver; split; [constructor|]. }
  cbv beta. intros t s2 [(Ht & Ha & Hr & Hk) Ex].
  destruct (notifying_first a receiver s s1 s2 _ eq_refl Ha Hk) as (Hs2 & Hlen & Et & Hi & Hc).
  assert (turn env' context_free s1 [t] s2) as H2 by by apply (TurnNext _ _ _ [] s1 receiver); [constructor|..].
  apply twp_bind, twp_run, wp_get, twp_bind.
  eapply twp_mono; [eapply (notify_spec _ _ _ _ s1 [t]); [exact H2|exact Hs2|done|unfold notify_fuel, es_db; simpl; lia|done]|].
  cbv beta. simpl length. rewrite Et. intros notices s3 (m3 & Hr3 & Hk3 & Hn & Ht3 & Hend).
  apply (ke_inline _ _ _ Hk3) in Hi. apply (ke_cfa _ _ _ Hk3) in Hc.
  apply twp_bind, twp_run, wp_get, twp_bind, twp_run, wp_st_assert. intros Hd.
  assert (∀ cf b s', b ∈ cfa_inline_actions (es_apply s3) ++ inline_actions (es_apply s3) →
    twp (dispatch_action fuel env' cf (depth + 1) b (act_account b)) (λ t s'', ∃ m, ran m s' s'' (receipts_of t) ∧
      dispatched cf (act_account b) b t ∧ trace_ok (for_action env) s' t s'') s') as Hall.
  { intros cf b s' Hb. apply (IH env'); [|done]. simpl.
    apply orb_true_iff in Hd as [[E1 E2]%bool_decide_eq_true|Hd].
    - rewrite E1, E2 in Hb. by apply elem_of_nil in Hb.
    - simpl in Hd. lia. }
  apply twp_bind. eapply twp_mono; [apply (dispatch_all_spec (for_action env) _ true); intros b s' Hb; apply Hall, elem_of_app; by left|].
  cbv beta. intros ts1 s4 (m4 & Hr4 & H4).
  apply twp_bind. eapply twp_mono; [apply (dispatch_all_spec (for_action env) _ false); intros b s' Hb; apply Hall, elem_of_app; by right|].
  cbv beta. intros ts2 s5 (m5 & Hr5 & H5). apply twp_ret. eexists. split.
  - rewrite receipts_of_add, !flat_map_app. exact (ran_trans _ _ _ _ _ _ _ Hr0 (ran_trans _ _ _ _ _ _ _ Hr
      (ran_trans _ _ _ _ _ _ _ Hr3 (ran_trans _ _ _ _ _ _ _ Hr4 Hr5)))).
  - destruct Ht as (r & deltas & -> & <-). split; [done|]. simpl.
    eapply (TraceOk _ s r a context_free deltas notices (ts1 ++ ts2)); [exact Ht3|exact Hend|exact Hn|done|exact Hi|].
    eapply children_app; [exact H4|exact H5].
Qed.

End execution.

(** ** Results *)
Section results.
Context {FC : Fc} {KO : FcKeyOrder} {AC : ActionCodec} {TC : TransactionCodec} {PS : PackSizes}
  {CC : CodeChecks} {SF : SoftFloat} {AH : ActionHash} {WA : Wasm}.
Implicit Types (s : exec_state).

Lemma dispatch_action_spec fuel env context_free depth a receiver s :
  (Z.to_nat (max_inline_action_depth (env_config env) - depth) < fuel)%nat →
  twp (dispatch_action fuel env context_free depth a receiver)
    (λ t s', ∃ m, ran (λ _, True) m s s' (receipts_of t) ∧
       dispatched context_free receiver a t ∧ trace_ok (for_action env) s t s') s.
Proof. intros Hf. by apply dispatch_spec. Qed.

(** C26: an action ends: with one level of fuel for each allowed depth of inline actions (and the fuel
    that [notify_fuel] gives to the loop over the notified accounts), dispatching an action to its
    account returns or throws, whatever the contracts do.  The loop ends although contracts may notify
    ever more accounts, because an account is notified once, must exist, and only newaccount, which
    only the system account runs, makes one. *)
Theorem exec_terminates env context_free a receiver s :
  is_Some (dispatch_action (depth_fuel env) env context_free 0 a receiver s).
Proof.
  apply (twp_ok _ _ _ (dispatch_action_spec (depth_fuel env) env context_free 0 a receiver s
    ltac:(unfold depth_fuel; lia))).
Qed.

(** C17: the receipts that an action leaves are those of its trace, parents before children and in the
    order of the run; the global sequence numbers of the receipts are consecutive, and so are the
    receiver sequence numbers of the receipts of every account, both modulo 2^64 and ending at the
    numbers that the database keeps. *)
Theorem receipts_in_order fuel env context_free depth a receiver s s' t :
  dispatch_action fuel env context_free depth a receiver s = Some (s', Ok t) →
  (Z.to_nat (max_inline_action_depth (env_config env) - depth) < fuel)%nat →
  es_executed s' = es_executed s ++ receipts_of t ∧
  numbered (λ _, true) ar_global_sequence (global_action_sequence (es_db s)) (receipts_of t)
    (global_action_sequence (es_db s')) ∧
  ∀ x, numbered (λ r, ar_receiver r =? x) ar_recv_sequence (recv_of (es_db s) x) (receipts_of t)
    (recv_of (es_db s') x).
Proof.
  intros E Hf. pose proof (dispatch_action_spec fuel env context_free depth a receiver s Hf) as H.
  apply twp_ok in H as [_ H]. by destruct (H _ _ E) as (m & [_ _ Hx Hg Hv _] & _).
Qed.

(** C10: no action is run without authorization: the trace of a run is that of the receivers of the
    action, which ran one after the other, followed by the traces of exactly the actions that they
    queued, each from the state in which the run before it ended.  A context-free action has no
    authorizations.  Every inline action was sent by a call that the code of one of these receivers made
    in its turn, and in the state in which the call was made the context was not checked, the receiver
    was privileged (when its turn began), it was sent to the receiver itself in a block made by others,
    or the permission receiver\@eosio.code (with the authorizations that the action inherits)
    satisfied the authorizations of the action.  The same holds of all traces below. *)
Theorem inline_actions_authorized fuel env context_free depth a receiver s s' t :
  dispatch_action fuel env context_free depth a receiver s = Some (s', Ok t) →
  (Z.to_nat (max_inline_action_depth (env_config env) - depth) < fuel)%nat →
  dispatched context_free receiver a t ∧ trace_ok (for_action env) s t s'.
Proof.
  intros E Hf. pose proof (dispatch_action_spec fuel env context_free depth a receiver s Hf) as H.
  apply twp_ok in H as [_ H]. by destruct (H _ _ E) as (m & _ & Hd & Ht).
Qed.

End results.

(** ** A concrete run *)
#[local] Existing Instances toy_fc toy_key_order toy_native_codec toy_native_transactions toy_native_sizes.
#[local] Existing Instances toy_code_checks toy_soft_float toy_system_abi.
Definition toy_action_hash : ActionHash := λ a, Digest (u64 (act_name a)) 0 0 3.
#[local] Existing Instance toy_action_hash.

(** The contract of alice: the action 1 notifies eonio and sends the action 2 to alice. *)
Definition toy_wasm : Wasm := λ _ _ receiver a,
  if (receiver =? alice) && (act_name a =? 1) then
    Host (RequireRecipient system_account_name) (λ _,
      Host (SendInline 40 (Ok (Action alice 2 [PermissionLevel alice active_name] (ToySetAbi alice)))) (λ _, Done))
  else Done.
#[local] Existing Instance toy_wasm.

Definition toy_exec_db : result chain_db :=
  db ← initialize_database toy_genesis digest_zero;
  d ← toy_native_act system_account_name newaccount_name apply_eonio_newaccount
        (ToyNewAccount system_account_name alice 9) (chain_tables db);
  mret (with_accounts d (<[alice := AccountObject 0 0 false 0 digest_zero 0 [7] []]> (db_accounts d))).
Definition toy_exec_state (d : chain_db) : exec_state :=
  ExecState (ContractState (toy_native_state d) ∅ 0 no_rows no_rows no_rows no_rows no_rows no_rows) [].
Definition toy_first : action := Action alice 1 [PermissionLevel alice active_name] (ToySetAbi alice).
Definition toy_exec_env : apply_env := toy_native_env alice 1 (ToySetAbi alice).
Definition toy_dispatch (d : chain_db) : option (exec_state * result action_trace) :=
  dispatch_action (depth_fuel toy_exec_env) toy_exec_env false 0 toy_first alice (toy_exec_state d).
Definition toy_receivers (r : option (exec_state * result action_trace)) : list account_name :=
  match r with Some (_, Ok t) => ar_receiver <$> receipts_of t | _ => [] end.

Lemma toy_dispatch_ok :
  ∃ d s' t, toy_exec_db = Ok d ∧ toy_dispatch d = Some (s', Ok t) ∧
    ar_receiver <$> receipts_of t = [alice; system_account_name; alice].
Proof.
  assert (E : (d ← toy_exec_db; mret (toy_receivers (toy_dispatch d))) = Ok [alice; system_account_name; alice])
    by (vm_compute; reflexivity).
  apply bind_ok in E as (d & Hd & E). injection E as E. exists d.
  destruct (toy_dispatch d) as [[s' [t|e]]|] eqn:Ed; [|discriminate E..]. exists s', t.
  split; [exact Hd|]. split; [reflexivity|exact E].
Qed.

Lemma receipts_in_order_witness :
  ∃ d s' t, toy_exec_db = Ok d ∧ toy_dispatch d = Some (s', Ok t) ∧
    es_executed s' = receipts_of t ∧ length (receipts_of t) = 3%nat ∧
    numbered (λ _, true) ar_global_sequence (global_action_sequence d) (receipts_of t)
      (global_action_sequence (es_db s')).
Proof.
  destruct toy_dispatch_ok as (d & s' & t & Hd & Ht & Er). exists d, s', t.
  destruct (receipts_in_order _ _ _ _ _ _ _ _ _ Ht) as (Hx & Hg & _); [apply Nat.ltb_lt; vm_compute; reflexivity|].
  split; [exact Hd|]. split; [exact Ht|]. split; [exact Hx|]. split; [|exact Hg].
  rewrite <-(length_fmap ar_receiver), Er. reflexivity.
Defined.

Lemma inline_actions_authorized_witness :
  ∃ d s' t, toy_exec_db = Ok d ∧ toy_dispatch d = Some (s', Ok t) ∧
    ar_receiver <$> receipts_of t = [alice; system_account_name; alice] ∧
    trace_ok (for_action toy_exec_env) (toy_exec_state d) t s'.
Proof.
  destruct toy_dispatch_ok as (d & s' & t & Hd & Ht & Er). exists d, s', t.
  split; [exact Hd|]. split; [exact Ht|]. split; [exact Er|].
  apply (inline_actions_authorized _ _ _ _ _ _ _ _ _ Ht). apply Nat.ltb_lt. vm_compute. reflexivity.
Defined.
