(* ===== verification/Controller.v ===== *)
(** * Transactions in the pending block

    Models what the controller does with a transaction (controller.cpp): push_transaction for input and
    implicit transactions, push_scheduled_transaction with apply_onerror and
    remove_scheduled_transaction for deferred ones, push_receipt, which failures are subjective and
    which checks are skipped, and the removal of expired entries from the list of known transactions;
    with transaction_context::exec.

    The chain database of the source is [chain]; an undo session is the copy that a failed run goes back
    to.  What the clock says while a transaction runs is in [clock]. *)

From stdpp Require Import strings sorting.
From S2P Require Import Prelude Wp Names Merkle BlockHeader ForkDb Resources Authority ChainConfig AuthManager.
From S2P Require Import AccessLists ApplyContext ContractDb NativeContract Genesis ActionFrame.
From S2P Require Import TransactionContext Billing Execution.

(** fc::raw::pack and unpack of a transaction, and the data of an onerror action. *)
Class TrxCodec `{TransactionCodec} := {
  pack_trx : transaction → packed_trx;
  unpack_trx : packed_trx → result transaction;
  onerror_data : Z → packed_trx → action_data;
}.

Inductive block_status := irreversible | validated | complete | incomplete.
#[global] Instance block_status_eq_dec : EqDecision block_status.
Proof. solve_decision. Defined.

#[global] Instance status_enum_eq_dec : EqDecision status_enum.
Proof. solve_decision. Defined.

(** A transaction_receipt, with the transaction by its id. *)
Record block_receipt := BlockReceipt {
  re_status : status_enum;
  re_cpu_usage_us : Z;
  re_net_usage_words : Z;
  re_trx : digest;
}.

(** What the clock and the timer say to one transaction context. *)
Record clock := Clock {
  ck_start : time_point;
  ck_init_expired : bool;
  ck_init : time_point;
  ck_finalize : time_point;
  ck_failure : time_point;
}.

Section controller.
Context {FC : Fc} {KO : FcKeyOrder} {AC : ActionCodec} {TC : TransactionCodec} {PS : PackSizes}
  {CC : CodeChecks} {SF : SoftFloat} {AH : ActionHash} {WA : Wasm} {XC : TrxCodec}.

(** ** Settings *)
Record control_env := ControlEnv {
  co_configuration : chain_config;
  co_pending_block_time : time_point;
  co_block_status : block_status;
  co_speculative : bool;                      (** read_mode == SPECULATIVE *)
  co_force_all_checks : bool;
  co_disable_replay_opts : bool;
  co_light_validation : bool;                 (** validation mode LIGHT, or a trusted producer *)
  co_in_trx_requiring_checks : bool;
  co_allow_ram_billing_in_notify : bool;
  co_lists : access_lists;
  co_resource_greylist : gset account_name;
  co_subjective_cpu_leeway : option Z;
  co_replay_head_time : option time_point;
  co_summaries : list digest;
  co_head_block_id : digest;
}.
Definition is_producing_block (co : control_env) : bool := bool_decide (co_block_status co = incomplete).
Definition light_validation_allowed (co : control_env) (replay_opts_disabled_by_policy : bool) : bool :=
  negb (co_in_trx_requiring_checks co) &&
  ((bool_decide (co_block_status co = irreversible ∨ co_block_status co = validated) &&
    negb replay_opts_disabled_by_policy) ||
   (bool_decide (co_block_status co = complete) && co_light_validation co)).
Definition skip_auth_check (co : control_env) : bool := light_validation_allowed co (co_force_all_checks co).
Definition skip_trx_checks (co : control_env) : bool := light_validation_allowed co (co_disable_replay_opts co).
Definition skip_db_sessions (co : control_env) : bool :=
  bool_decide (co_block_status co = irreversible) && negb (co_disable_replay_opts co) &&
  negb (co_in_trx_requiring_checks co).
Definition requiring_checks (co : control_env) : control_env :=
  ControlEnv (co_configuration co) (co_pending_block_time co) (co_block_status co) (co_speculative co)
    (co_force_all_checks co) (co_disable_replay_opts co) (co_light_validation co) true
    (co_allow_ram_billing_in_notify co) (co_lists co) (co_resource_greylist co)
    (co_subjective_cpu_leeway co) (co_replay_head_time co) (co_summaries co) (co_head_block_id co).

Definition failure_is_subjective (e : exception) : bool :=
  match e with
  | subjective_block_production_exception | block_net_usage_exceeded | greylist_net_usage_exceeded
  | block_cpu_usage_exceeded | greylist_cpu_usage_exceeded | deadline_exception
  | leeway_deadline_exception | actor_whitelist_exception | actor_blacklist_exception
  | contract_whitelist_exception | contract_blacklist_exception | action_blacklist_exception
  | key_blacklist_exception => true
  | _ => false
  end.
Definition scheduled_failure_is_subjective (e : exception) : bool :=
  match e with tx_cpu_usage_exceeded => true | _ => failure_is_subjective e end.

(** ** State *)

(** The chain database; [ch_contract] holds the tables of the contracts. *)
Record chain := Chain {
  ch_db : chain_db;
  ch_contract : contract_state;
  ch_transactions : gmap digest Z;
}.
(** The pending block: receipts, the signed ids of its input transactions, receipts of actions. *)
Record pending_state := Pending {
  pe_transactions : list block_receipt;
  pe_trxs : list digest;
  pe_actions : list action_receipt;
}.
Record control := Control {
  ct_chain : chain;
  ct_pending : pending_state;
  ct_unapplied_transactions : gset digest;
}.
Definition with_chain (s : control) (c : chain) : control :=
  Control c (ct_pending s) (ct_unapplied_transactions s).

(** push_receipt; the fields are uint32. *)
Definition push_receipt (p : pending_state) (trx : digest) (status : status_enum) (cpu_usage_us net_usage : Z)
    : result (pending_state * block_receipt) :=
  let net_usage_words := net_usage / 8 in
  _ ← EOS_ASSERT (u64 (net_usage_words * 8) =? net_usage) transaction_exception;
  let r := BlockReceipt status (u32 cpu_usage_us) (u32 net_usage_words) trx in
  mret (Pending (pe_transactions p ++ [r]) (pe_trxs p) (pe_actions p), r).
Definition append_actions (p : pending_state) (l : list action_receipt) : pending_state :=
  Pending (pe_transactions p) (pe_trxs p) (pe_actions p ++ l).

(** ** transaction_context::exec *)

(** A transaction context that runs on the database. *)
Record trx_run := TrxRun {
  tr_state : trx_state;
  tr_contract : contract_state;
  tr_executed : list action_receipt;
}.
Definition in_trx {A} (m : stM trx_state A) : fuM trx_run A := λ s,
  let '(x, r) := m (tr_state s) in Some (TrxRun x (tr_contract s) (tr_executed s), r).

(** The context of actions, and back. *)
Definition enter (s : trx_run) : exec_state :=
  let x := tr_state s in
  ExecState (set_apply (tr_contract s)
    (ApplyState (tx_db x) [] ∅ (tx_validate_ram_usage x) [] [] [] (tx_net_usage x))) (tr_executed s).
Definition leave (s : trx_run) (e : exec_state) : trx_run :=
  let x := tr_state s in
  TrxRun (TrxState (tx_ctx x) (es_db e) (validate_ram_usage (es_apply e)) (trx_net_usage (es_apply e))
            (tx_transactions x)) (es_ctx e) (es_executed e).
Definition apply_env_of (env : trx_env) (c : tctx) (a : action) : apply_env :=
  ApplyEnv (act_account a) a false (te_config env) (te_pending_block_time env) (tc_published c)
    (te_producing_block env) (te_allow_ram_billing_in_notify env) (te_skip_auth_check env)
    (te_enforce_whiteblacklist env) (te_lists env) (te_skip_trx_checks env) (tc_eager_net_limit c)
    (tc_net_limit_due_to_block c) (tc_net_limit_due_to_greylist c).

Definition dispatch_trx_action (env : trx_env) (context_free : bool) (receiver : account_name) (a : action)
    : fuM trx_run action_trace := λ s,
  let e := apply_env_of env (tx_ctx (tr_state s)) a in
  match dispatch_action (depth_fuel e) e context_free 0 a receiver (enter s) with
  | Some (x, r) => Some (leave s x, r)
  | None => None
  end.
Fixpoint dispatch_list (env : trx_env) (context_free : bool) (l : list action) : fuM trx_run (list action_trace) :=
  match l with
  | [] => mret []
  | a :: l =>
      t ← dispatch_trx_action env context_free (act_account a) a;
      ts ← dispatch_list env context_free l;
      mret (t :: ts)
  end.

Definition exec_trx (env : trx_env) (id : digest) : fuM trx_run (list action_trace) :=
  c ← in_trx get_ctx;
  _ ← in_trx (st_assert (tc_is_initialized c) transaction_exception);
  ts1 ← (if tc_apply_context_free c then dispatch_list env true (tr_context_free_actions (te_trx env))
         else mret []);
  ts2 ← (if tc_delay c =? 0 then dispatch_list env false (tr_actions (te_trx env))
         else _ ← in_trx (schedule_transaction env pack_trx id transaction_id_to_sender_id); mret []);
  mret (ts1 ++ ts2).

(** ** push_transaction *)

(** transaction_metadata; [md_keys] is what recover_keys returns. *)
Record metadata := Metadata {
  md_trx : transaction;
  md_id : digest;
  md_signed_id : digest;
  md_unprunable_size : Z;
  md_prunable_size : Z;
  md_keys : result (list public_key);
  md_implicit : bool;
}.

(** The constructor of transaction_context and the fields that the controller sets. *)
Definition new_trx_env (co : control_env) (t : transaction) (ck : clock) (deadline leeway : Z)
    (explicit enforce : bool) : trx_env :=
  TrxEnv t (co_configuration co) (co_pending_block_time co) (is_producing_block co) (skip_trx_checks co)
    (skip_auth_check co) (co_resource_greylist co) (co_lists co) (co_allow_ram_billing_in_notify co)
    enforce (ck_start ck) deadline leeway explicit.
Definition default_leeway : Z := 3000.
Definition new_trx_run (env : trx_env) (c : chain) (billed_cpu_time_us : Z) : trx_run :=
  TrxRun (TrxState (new_context env billed_cpu_time_us) (ch_db c) ∅ 0 (ch_transactions c)) (ch_contract c) [].
Definition chain_of (s : trx_run) : chain :=
  Chain (tx_db (tr_state s)) (tr_contract s) (tx_transactions (tr_state s)).

Definition check_trx_authorization (co : control_env) (md : metadata) : stM trx_state unit :=
  if negb (skip_auth_check co) && negb (md_implicit md) then
    keys ← st_lift (md_keys md);
    s ← st_get;
    st_lift (check_authorization (db_auth (tx_db s)) (db_generated (tx_db s)) (co_configuration co)
      (tr_actions (md_trx md)) keys [] (tc_delay (tx_ctx s)) false [])
  else mret tt.

Definition skip_recording (co : control_env) (md : metadata) : bool :=
  match co_replay_head_time co with
  | Some t => seconds (tr_expiration (md_trx md)) <=? t
  | None => false
  end.

Definition init_trx (co : control_env) (env : trx_env) (md : metadata) (ck : clock) : stM trx_state unit :=
  if md_implicit md then init_for_implicit_trx env (ck_init_expired ck) (ck_init ck) 0
  else init_for_input_trx env (co_summaries co) (md_id md) (ck_init_expired ck) (ck_init ck)
         (md_unprunable_size md) (md_prunable_size md) (skip_recording co md).

(** Everything before finalize. *)
Definition run_trx (co : control_env) (env : trx_env) (md : metadata) (ck : clock)
    : fuM trx_run (list action_trace) :=
  _ ← in_trx (init_trx co env md ck);
  c ← in_trx get_ctx;
  _ ← in_trx (put_ctx (set_mode c (tc_published c) (seconds (tr_delay_sec (md_trx md))) (tc_is_input c)
                         (tc_apply_context_free c) (tc_is_initialized c)));
  _ ← in_trx (check_trx_authorization co md);
  exec_trx env (md_id md).

(** A transaction_trace; the actions of one that failed are left out. *)
Record trx_trace := TrxTrace {
  tt_except : option exception;
  tt_receipt : option block_receipt;
  tt_action_traces : list action_trace;
}.

(** The receipt of a transaction that ran; implicit ones are not in the block. *)
Definition accept_trx (md : metadata) (p : pending_state) (r : trx_run)
    : result (pending_state * block_receipt) :=
  let c := tx_ctx (tr_state r) in
  let net_usage := tx_net_usage (tr_state r) in
  if md_implicit md then
    mret (append_actions p (tr_executed r),
          BlockReceipt executed (u32 (tc_billed_cpu_time_us c)) (u32 (net_usage / 8)) (md_id md))
  else
    '(p, receipt) ← push_receipt p (md_id md) (if tc_delay c =? 0 then executed else delayed)
                      (tc_billed_cpu_time_us c) net_usage;
    mret (append_actions (Pending (pe_transactions p) (pe_trxs p ++ [md_signed_id md]) (pe_actions p))
            (tr_executed r), receipt).

Definition run_and_accept (co : control_env) (env : trx_env) (md : metadata) (ck : clock) (p : pending_state)
    : fuM trx_run (list action_trace * pending_state * block_receipt) :=
  ts ← run_trx co env md ck;
  _ ← in_trx (finalize env (ck_finalize ck));
  r ← run st_get;
  '(p, receipt) ← run (st_lift (accept_trx md p r));
  mret (ts, p, receipt).

Definition erase_unapplied (s : control) (signed_id : digest) : control :=
  Control (ct_chain s) (ct_pending s) (ct_unapplied_transactions s ∖ {[signed_id]}).

Definition push_transaction (co : control_env) (md : metadata) (ck : clock) (deadline billed_cpu_time_us : Z)
    (explicit_billed_cpu_time : bool) : fuM control trx_trace := λ s,
  let t := md_trx md in
  let leeway := match co_subjective_cpu_leeway co with
                | Some l => if is_producing_block co then l else default_leeway
                | None => default_leeway
                end in
  if deadline =? 0 then Some (s, Throw transaction_exception)
  else if bool_decide (tr_extensions t ≠ []) then Some (s, Throw unsupported_feature)
  else
    let env := new_trx_env co t ck deadline leeway explicit_billed_cpu_time (negb (md_implicit md)) in
    match run_and_accept co env md ck (ct_pending s) (new_trx_run env (ct_chain s) billed_cpu_time_us) with
    | None => None
    | Some (r, Ok (ts, p, receipt)) =>
        let kept := if negb (co_speculative co) && is_producing_block co then s
                    else Control (chain_of r) p (ct_unapplied_transactions s) in
        Some (if md_implicit md then kept else erase_unapplied kept (md_signed_id md),
              Ok (TrxTrace None (Some receipt) ts))
    | Some (r, Throw e) =>
        let undone := if skip_db_sessions co then with_chain s (chain_of r) else s in
        Some (if failure_is_subjective e then undone else erase_unapplied undone (md_signed_id md),
              Ok (TrxTrace (Some e) None []))
    end.

(** ** push_scheduled_transaction *)
Definition remove_scheduled_transaction (d : chain_db) (id : digest) (gto : generated_transaction) : result chain_db :=
  r ← add_pending_ram_usage (db_resources d) (gt_payer gto)
        (- (generated_transaction_size + packed_size (gt_packed_trx gto)));
  mret (with_generated (with_resources d r) (delete id (db_generated d))).

Definition chain_with_db (c : chain) (d : chain_db) : chain := Chain d (ch_contract c) (ch_transactions c).

(** The actions, the bill and the receipt of a deferred transaction. *)
Definition run_scheduled (co : control_env) (env : trx_env) (id : digest) (gtrx : generated_transaction)
    (ck : clock) (p : pending_state) : fuM trx_run (list action_trace * pending_state * block_receipt) :=
  _ ← in_trx (init_for_deferred_trx env (ck_init_expired ck) (ck_init ck) (gt_published gtrx));
  c ← in_trx get_ctx;
  _ ← in_trx (st_lift (if te_enforce_whiteblacklist env && is_producing_block co
                       then check_actor_list (co_lists co) (tc_bill_to_accounts c) else mret tt));
  ts ← exec_trx env id;
  _ ← in_trx (finalize env (ck_finalize ck));
  r ← run st_get;
  '(p, receipt) ← run (st_lift (push_receipt p id executed (tc_billed_cpu_time_us (tx_ctx (tr_state r)))
                                  (tx_net_usage (tr_state r))));
  mret (ts, append_actions p (tr_executed r), receipt).

Definition onerror_name : action_name := Eval vm_compute in string_to_name (codes "onerror").
Definition onerror_trx (co : control_env) (gtrx : generated_transaction) : transaction :=
  Transaction ((co_pending_block_time co + 999999) / 1000000)
    (u16 (endian_reverse_u32 (u32 (_hash0 (co_head_block_id co))))) (u32 (_hash1 (co_head_block_id co))) 0 0 0 []
    [Action system_account_name onerror_name [PermissionLevel (gt_sender gtrx) active_name]
       (onerror_data (gt_sender_id gtrx) (gt_packed_trx gtrx))] [].

(** apply_onerror: the error handler of the sender. *)
Definition run_onerror (env : trx_env) (id : digest) (gtrx : generated_transaction) (ck : clock)
    (p : pending_state) : fuM trx_run (list action_trace * pending_state * block_receipt) :=
  _ ← in_trx (init_for_implicit_trx env (ck_init_expired ck) (ck_init ck) 0);
  c ← in_trx get_ctx;
  _ ← in_trx (put_ctx (set_mode c (gt_published gtrx) (tc_delay c) (tc_is_input c) (tc_apply_context_free c)
                         (tc_is_initialized c)));
  ts ← match tr_actions (te_trx env) with
       | [a] => t ← dispatch_trx_action env false (gt_sender gtrx) a; mret [t]
       | _ => mret []
       end;
  _ ← in_trx (finalize env (ck_finalize ck));
  r ← run st_get;
  '(p, receipt) ← run (st_lift (push_receipt p id soft_fail (tc_billed_cpu_time_us (tx_ctx (tr_state r)))
                                  (tx_net_usage (tr_state r))));
  mret (ts, append_actions p (tr_executed r), receipt).

(** What a failed context is billed for: update_billed_cpu_time. *)
Definition billed_on_failure (env : trx_env) (ck : clock) (r : trx_run) : Z :=
  match update_billed_cpu_time env (ck_failure ck) (tr_state r) with (_, Ok n) => n | (_, Throw _) => 0 end.

(** The bill and the receipt of a transaction that failed for good. *)
Definition hard_failure (co : control_env) (env : trx_env) (id : digest) (c : tctx) (explicit : bool)
    (cpu_time_to_bill_us : Z) (s : control) : result (control * block_receipt) :=
  let d := ch_db (ct_chain s) in
  let accounts := tc_bill_to_accounts c in
  let slot := pending_slot env in
  '(r, cpu) ← (if explicit then mret (db_resources d, cpu_time_to_bill_us)
               else r ← update_account_usage (db_resources d) accounts slot;
                    b ← max_bandwidth_billed_accounts_can_pay env true r accounts;
                    mret (r, u32 (Z.min (Z.min cpu_time_to_bill_us (bw_cpu b))
                                    (tc_initial_objective_duration_limit c))));
  r ← add_transaction_usage r accounts cpu 0 slot;
  '(p, receipt) ← push_receipt (ct_pending s) id hard_fail cpu 0;
  mret (Control (chain_with_db (ct_chain s) (with_resources d r)) p (ct_unapplied_transactions s), receipt).

(** The rest of push_scheduled_transaction after the transaction and, when there is a sender, its error
    handler have failed with [e]. *)
Definition retire (co : control_env) (env : trx_env) (id : digest) (c : tctx) (explicit : bool)
    (cpu_time_to_bill_us : Z) (e : exception) (before s : control) : control * result trx_trace :=
  let subjective := if explicit then failure_is_subjective e else scheduled_failure_is_subjective e in
  if subjective then (before, Ok (TrxTrace (Some e) None []))
  else match hard_failure co env id c explicit cpu_time_to_bill_us s with
       | Ok (s, receipt) => (s, Ok (TrxTrace (Some e) (Some receipt) []))
       | Throw e => (before, Throw e)
       end.

Definition push_scheduled_transaction (co : control_env) (id : digest) (ck ck_onerror : clock)
    (deadline billed_cpu_time_us : Z) (explicit : bool) : fuM control trx_trace := λ s,
  match db_generated (ch_db (ct_chain s)) !! id with
  | None => Some (s, Throw unknown_transaction_exception)
  | Some gtrx =>
      (** what the session of this call goes back to *)
      let undo s' := if skip_db_sessions co then s' else s in
      match remove_scheduled_transaction (ch_db (ct_chain s)) id gtrx with
      | Throw e => Some (s, Throw e)
      | Ok d =>
          let s1 := with_chain s (chain_with_db (ct_chain s) d) in
          if negb (gt_delay_until gtrx <=? co_pending_block_time co) then Some (undo s1, Throw transaction_exception)
          else match unpack_trx (gt_packed_trx gtrx) with
          | Throw e => Some (undo s1, Throw e)
          | Ok dtrx =>
              if gt_expiration gtrx <? co_pending_block_time co then
                match push_receipt (ct_pending s1) id expired billed_cpu_time_us 0 with
                | Ok (p, receipt) =>
                    Some (Control (ct_chain s1) p (ct_unapplied_transactions s), Ok (TrxTrace None (Some receipt) []))
                | Throw e => Some (undo s1, Throw e)
                end
              else if bool_decide (tr_extensions dtrx ≠ []) then Some (undo s1, Throw unsupported_feature)
              else
                let co := requiring_checks co in
                let enforce := (gt_sender gtrx =? 0) ||
                  negb (sender_avoids_whitelist_blacklist_enforcement (co_lists co) (gt_sender gtrx)) in
                let env := new_trx_env co dtrx ck deadline 0 explicit enforce in
                match run_scheduled co env id gtrx ck (ct_pending s1)
                        (new_trx_run env (ct_chain s1) billed_cpu_time_us) with
                | None => None
                | Some (r, Ok (ts, p, receipt)) =>
                    Some (Control (chain_of r) p (ct_unapplied_transactions s), Ok (TrxTrace None (Some receipt) ts))
                | Some (r, Throw e) =>
                    let c := tx_ctx (tr_state r) in
                    let cpu := billed_on_failure env ck r in
                    if (gt_sender gtrx =? 0) || failure_is_subjective e then
                      Some (retire co env id c explicit cpu e (undo s1) s1)
                    else
                      let ck2 := Clock (tc_pseudo_start c) (ck_init_expired ck_onerror) (ck_init ck_onerror)
                                   (ck_finalize ck_onerror) (ck_failure ck_onerror) in
                      let env2 := new_trx_env co (onerror_trx co gtrx) ck2 deadline default_leeway explicit enforce in
                      match run_onerror env2 id gtrx ck2 (ct_pending s1)
                              (new_trx_run env2 (ct_chain s1) billed_cpu_time_us) with
                      | None => None
                      | Some (r2, Ok (ts, p, receipt)) =>
                          Some (Control (chain_of r2) p (ct_unapplied_transactions s),
                                Ok (TrxTrace None (Some receipt) ts))
                      | Some (r2, Throw e2) =>
                          Some (retire co env id c explicit (billed_on_failure env2 ck2 r2) e2 (undo s1) s1)
                      end
                end
          end
      end
  end.

(** ** The transactions of a block: the loop of apply_block *)

(** A transaction of a block: a packed one with its metadata, or the id of a deferred one; with what the
    clock says while it runs. *)
Record block_transaction := BlockTransaction {
  bl_receipt : block_receipt;
  bl_packed : option metadata;
  bl_clock : clock;
  bl_onerror_clock : clock;
}.
Definition push_block_transaction (co : control_env) (b : block_transaction) : fuM control trx_trace :=
  match bl_packed b with
  | Some md => push_transaction co md (bl_clock b) time_point_maximum (re_cpu_usage_us (bl_receipt b)) true
  | None => push_scheduled_transaction co (re_trx (bl_receipt b)) (bl_clock b) (bl_onerror_clock b)
              time_point_maximum (re_cpu_usage_us (bl_receipt b)) true
  end.
(** operator == of transaction_receipt_header *)
Definition same_header (r r' : block_receipt) : bool :=
  bool_decide (re_status r = re_status r') && (re_cpu_usage_us r =? re_cpu_usage_us r') &&
  (re_net_usage_words r =? re_net_usage_words r').
Fixpoint apply_transactions (co : control_env) (l : list block_transaction) : fuM control unit :=
  match l with
  | [] => mret tt
  | b :: l =>
      before ← run st_get;
      tr ← push_block_transaction co b;
      let can_fail := bool_decide (re_status (bl_receipt b) = hard_fail) && bool_decide (bl_packed b = None) in
      _ ← run (match tt_except tr with
               | Some e => if can_fail then mret tt else st_throw e
               | None => mret tt
               end);
      s ← run st_get;
      let receipts := pe_transactions (ct_pending s) in
      _ ← run (st_assert (0 <? Z.of_nat (length receipts)) block_validate_exception);
      _ ← run (st_assert (bool_decide (length receipts = length (pe_transactions (ct_pending before)) + 1)%nat)
                 block_validate_exception);
      _ ← run (st_assert (match last receipts with Some r => same_header r (bl_receipt b) | None => false end)
                 block_validate_exception);
      apply_transactions co l
  end.


(** abort_block *)
Definition abort_block (co : control_env) (before : chain) (s : control) : control :=
  Control before (Pending [] [] [])
    (if co_speculative co then ct_unapplied_transactions s ∪ list_to_set (pe_trxs (ct_pending s))
     else ct_unapplied_transactions s).

(** ** Billing *)

(** A transaction that was started, and that still can be billed. *)
Definition fee_paid (c : tctx) (n : Z) : Prop := 0 < n <= tc_eager_net_limit c.
Record started (env : trx_env) (s : trx_state) : Prop := {
  sd_ready : ready env s;
  sd_eager : tc_eager_net_limit (tx_ctx s) < 2 ^ 32;
  sd_paid : fee_paid (tx_ctx s) (tx_net_usage s);
}.

Lemma ready_quiet env s s' : tx_ctx s' = tx_ctx s → quiet (rl s) (rl s') → ready env s → ready env s'.
Proof.
  intros Ec [Es Eg Hu Hw] [[Hwin Htot Hcpu Hnet Hws] [Hnd Hb] Hc Hn].
  split; rewrite ?Ec, ?Es, ?Eg; [|split; [done|]|done|done].
  - split; rewrite ?Es, ?Eg; [done..|]. by apply Hw.
  - eapply Forall_impl; [exact Hb|]. intros a (u & Hu' & Hcn & Hcc).
    destruct (Hu a u Hu') as (u' & Hu'' & En & Ecp). exists u'. by rewrite En, Ecp.
Qed.

(** The fee of one more deferred transaction. *)
Lemma fee_added env c n u :
  te_skip_trx_checks env = false → typed_config (te_config env) → tc_eager_net_limit c < 2 ^ 32 →
  u = base_per_transaction_net_usage (te_config env) + transaction_id_net_usage →
  fee_paid c n → (tc_eager_net_limit c <? u64 (n + u)) = false → fee_paid c (u64 (n + u)).
Proof.
  unfold fee_paid. intros _ (_ & _ & Hb) He -> Hn. unfold transaction_id_net_usage. rewrite u64_small by lia. lia.
Qed.

Section paying.
Context (env : trx_env).
Hypothesis (Hskip : te_skip_trx_checks env = false).
Hypothesis (Hcfg : typed_config (te_config env)).

Lemma dispatch_started context_free receiver a s :
  started env (tr_state s) →
  twp (dispatch_trx_action env context_free receiver a) (λ _ s', started env (tr_state s')) s.
Proof.
  intros [Hr He Hp]. set (c := tx_ctx (tr_state s)) in *. unfold twp, dispatch_trx_action.
  pose proof (dispatch_spec (fee_paid c) (depth_fuel (apply_env_of env c a)) (apply_env_of env c a) context_free
    0 a receiver (enter s)) as H.
  fold c. unfold twp in H. destruct (dispatch_action _ _ _ _ _ _ _) as [[x [t|e]]|]; [|done|].
  - destruct H as (m & Hran & _); [unfold depth_fuel; lia| |].
    + intros n Hn n' Hle. simpl in *. rewrite Hskip in Hle. by eapply fee_added.
    + split; [|done|apply (rn_net _ _ _ _ _ Hran), Hp].
      eapply (ready_quiet env (tr_state s)); [done|apply (rn_resources _ _ _ _ _ Hran)|done].
  - apply H; [unfold depth_fuel; lia|].
    intros n Hn n' Hle. simpl in *. rewrite Hskip in Hle. by eapply fee_added.
Qed.

Lemma dispatch_list_started context_free l s :
  started env (tr_state s) → twp (dispatch_list env context_free l) (λ _ s', started env (tr_state s')) s.
Proof.
  revert s. induction l as [|a l IH]; intros s Hs; simpl; [by apply twp_ret|].
  apply twp_bind. eapply twp_mono; [by apply dispatch_started|]. cbv beta. intros t s1 Hs1.
  apply twp_bind. eapply twp_mono; [by apply IH|]. intros ts s2 Hs2. by apply twp_ret.
Qed.

Lemma twp_in_trx {A} (m : stM trx_state A) (Q : A → trx_run → Prop) s :
  wp m (λ x s', Q x (TrxRun s' (tr_contract s) (tr_executed s))) (tr_state s) → twp (in_trx m) Q s.
Proof. unfold wp, twp, in_trx. by destruct (m (tr_state s)) as [s' [x|e]]. Qed.

Lemma schedule_started id s :
  started env s → wp (schedule_transaction env pack_trx id transaction_id_to_sender_id) (λ _, started env) s.
Proof.
  intros Hs. unfold schedule_transaction. cbv zeta. apply wp_bind, (wp_mono _ (λ _, started env)).
  - destruct (tr_delay_sec _ =? 0); [|done]. unfold TransactionContext.add_net_usage, check_net_usage.
    repeat wp_basic. destruct Hs as [Hr He Hp]. split; [by apply (ready_quiet env s)|done|]. simpl in *.
    rewrite Hskip in *. simpl in *. apply (fee_added env); auto. by apply negb_true_iff.
  - clear s Hs. intros _ s Hs. unfold get_ctx, get_rl, put_rl. repeat (cbv zeta; wp_basic). destruct Hs as [Hr He Hp].
    split; [|done|done]. refine (ready_quiet env s _ _ _ Hr); [reflexivity|]. by eapply quiet_ram.
Qed.

Lemma exec_started id s :
  started env (tr_state s) → twp (exec_trx env id) (λ _ s', started env (tr_state s')) s.
Proof.
  intros Hs. unfold exec_trx, get_ctx. apply twp_bind, twp_in_trx. repeat wp_basic.
  apply twp_bind, twp_in_trx, wp_st_assert. intros _. apply twp_bind.
  apply (twp_mono _ (λ _ s', started env (tr_state s'))).
  { destruct (tc_apply_context_free _); [by apply dispatch_list_started|by apply twp_ret]. }
  intros ts1 s1 Hs1. apply twp_bind. apply (twp_mono _ (λ _ s', started env (tr_state s'))).
  { destruct (tc_delay _ =? 0); [by apply dispatch_list_started|].
    apply twp_bind, twp_in_trx. eapply wp_mono; [by apply schedule_started|]. cbv beta. intros _ s2 Hs2. by apply twp_ret. }
  intros ts2 s2 Hs2. by apply twp_ret.
Qed.
End paying.

Lemma init_started env expired now n s :
  te_skip_trx_checks env = false → between (pending_slot env) (rl s) → typed_config (te_config env) →
  in_u32 (tr_max_net_usage_words (te_trx env)) → tx_net_usage s = 0 → 0 < n < 2 ^ 64 →
  wp (init env expired now n) (λ _, started env) s.
Proof.
  intros Hskip Hb Hc Hw H0 Hn. eapply wp_mono; [apply wp_and; [by apply init_ready|apply init_eager]|]. cbv beta.
  intros _ s' [[Hr En] [He Hp]]. destruct (rd_net _ _ Hr) as [Hlim _].
  rewrite (proj2 (Z.ltb_lt _ _)), H0, Z.add_0_l, u64_small in En by lia.
  specialize (Hp Hskip ltac:(lia)). split; [done|lia|]. unfold fee_paid. lia.
Qed.

(** An input transaction up to finalize. *)
Lemma run_trx_started co env md ck c billed :
  te_skip_trx_checks env = false → md_implicit md = false → te_trx env = md_trx md →
  between (pending_slot env) (db_resources (ch_db c)) → typed_config (te_config env) →
  in_u32 (tr_max_net_usage_words (md_trx md)) →
  0 < initial_net_usage (te_config env) (md_trx md) (md_unprunable_size md) (md_prunable_size md) < 2 ^ 64 →
  twp (run_trx co env md ck) (λ _ r, started env (tr_state r)) (new_trx_run env c billed).
Proof.
  intros Hskip Hi Et Hb Hc Hw Hn. unfold run_trx, init_trx. rewrite Hi.
  apply twp_bind, twp_in_trx. simpl. apply (wp_mono _ (λ _, started env)).
  { unfold init_for_input_trx, get_ctx, put_ctx, record_transaction. rewrite Hskip, Et. repeat (cbv zeta; wp_basic).
    all: eapply wp_mono; [apply init_started; [done|exact Hb|done|by rewrite Et|done|done]|];
      cbv beta; intros _ s' Hs'; repeat wp_basic; [done|].
    destruct Hs' as [Hr He Hp]. split; [by apply (ready_quiet env s')|done|done]. }
  intros _ s1 Hs1. unfold get_ctx, put_ctx. apply twp_bind, twp_in_trx. repeat wp_basic.
  apply twp_bind, twp_in_trx. repeat wp_basic. simpl. set (s2 := set_ctx s1 _).
  assert (started env s2) as Hs2.
  { destruct Hs1 as [[] He Hp]. by split; [split|..]. }
  apply twp_bind, twp_in_trx, (wp_mono _ (λ _ s', s' = s2)).
  { unfold check_trx_authorization. by repeat wp_basic. }
  intros _ s3 ->. by apply exec_started.
Qed.

(** C25: the bill of an input transaction never fails, as the comment at the call of
    add_transaction_usage in finalize says: when the actions of an input transaction have run and the
    checks of finalize have passed, every billed account can be charged, although the checks round
    what was used up and the bill rounds it down.  This is under these assumptions.  The checks of
    transactions are on.  The limits of the configuration and of the transaction are uint32, and
    min_transaction_cpu_usage is positive: the validation of configurations accepts 0, and then a
    transaction that is billed for no CPU can fail as in [deferred_bill_fails].  The initial net usage
    is positive and fits 64 bits.  The resource tables are as [between] says: the counters were last
    used in this slot or before and are below 2^63, the averaging windows are positive and at most a
    million slots, the total weights are not negative and the weights below 2^63, the virtual limits are
    at least the maxima of a block and below 2^44, and the pending usage of the block is within these
    maxima.  That the tables stay so over the life of a chain is not shown. *)
Theorem input_bill_never_fails co env md ck now c billed r ts s' :
  te_skip_trx_checks env = false → md_implicit md = false → te_trx env = md_trx md →
  between (pending_slot env) (db_resources (ch_db c)) → typed_config (te_config env) →
  0 < min_transaction_cpu_usage (te_config env) → in_u32 (tr_max_net_usage_words (md_trx md)) →
  0 < initial_net_usage (te_config env) (md_trx md) (md_unprunable_size md) (md_prunable_size md) < 2 ^ 64 →
  run_trx co env md ck (new_trx_run env c billed) = Some (r, Ok ts) →
  finalize_checks env now (tr_state r) = (s', Ok tt) →
  is_ok (bill_usage_of_trx env s') = true.
Proof.
  intros Hskip Hi Et Hb Hc Hm Hw Hn Hrun Hfin.
  pose proof (run_trx_started co env md ck c billed Hskip Hi Et Hb Hc Hw Hn) as H. apply twp_ok in H as [_ H].
  destruct (H _ _ Hrun) as [Hr He Hp]. pose proof (finalize_checks_payable env now (tr_state r) Hskip) as Hf.
  rewrite wp_run in Hf. specialize (Hf _ _ Hfin). eapply bill_succeeds; [done..|].
  rewrite (proj1 (py_net _ _ _ Hf)). unfold fee_paid in Hp. rewrite u64_small by lia.
  assert (1 <= (tx_net_usage (tr_state r) + 7) / 8) by (apply Z.div_le_lower_bound; lia). lia.
Qed.



(** ** What a transaction leaves *)

(** The operations of the context other than actions change neither the sequence of actions nor, but for
    [record_transaction], the known transactions. *)
Record framed (s s' : trx_state) : Prop := {
  fr_sequence : global_action_sequence (tx_db s') = global_action_sequence (tx_db s);
  fr_transactions : tx_transactions s' = tx_transactions s;
}.
#[local] Instance framed_refl : Reflexive framed.
Proof. by split. Qed.
Lemma framed_trans s1 s2 s3 : framed s1 s2 → framed s2 s3 → framed s1 s3.
Proof. intros [] []. split; congruence. Qed.

Lemma init_framed env expired now n s : wp (init env expired now n) (λ _, framed s) s.
Proof.
  unfold init, get_ctx, get_rl, put_ctx, put_rl, checktime, TransactionContext.add_net_usage, check_net_usage,
    validate_cpu_usage_to_bill, get_ctx. by repeat (cbv zeta; wp_basic).
Qed.
Lemma finalize_framed env now s : wp (finalize env now) (λ _, framed s) s.
Proof.
  unfold finalize, finalize_checks, check_net_usage, update_billed_cpu_time, validate_cpu_usage_to_bill, get_ctx, get_rl,
    put_ctx, put_rl. by repeat (cbv zeta; wp_basic).
Qed.

(** The known transactions after the start of a transaction. *)
Definition recorded (co : control_env) (md : metadata) (m m' : gmap digest Z) : Prop :=
  if md_implicit md || skip_recording co md then m' = m
  else m !! md_id md = None ∧ m' = <[md_id md := tr_expiration (md_trx md)]> m.

Lemma init_trx_spec co env md ck s : te_trx env = md_trx md →
  wp (init_trx co env md ck) (λ _ s',
    global_action_sequence (tx_db s') = global_action_sequence (tx_db s) ∧
    recorded co md (tx_transactions s) (tx_transactions s') ∧
    (md_implicit md = false → te_skip_trx_checks env = false → validate_expiration env = Ok tt)) s.
Proof.
  intros Et. unfold init_trx, recorded. destruct (md_implicit md); simpl.
  - unfold init_for_implicit_trx, get_ctx, put_ctx. repeat wp_basic. eapply wp_mono; [apply init_framed|].
    by intros _ s' [Hg Ht].
  - unfold init_for_input_trx, get_ctx, put_ctx. repeat (cbv zeta; wp_basic).
    all: try match goal with H : validate_expiration _ = Ok ?u |- _ => destruct u end.
    all: eapply wp_mono; [apply init_framed|]; cbv beta; intros _ s' [Hg Ht]; simpl in *.
    all: destruct (skip_recording co md); [by wp_basic|]; unfold record_transaction; repeat wp_basic; simpl.
    all: reflect_bools; rewrite <-Ht, Et; split_and!; done || by intros _ ?; congruence.
Qed.

(** The actions of a transaction ran. *)
Record trx_ran (s s' : trx_run) (ts : list action_trace) : Prop := {
  ta_executed : tr_executed s' = tr_executed s ++ flat_map receipts_of ts;
  ta_transactions : tx_transactions (tr_state s') = tx_transactions (tr_state s);
  ta_sequence : numbered (λ _, true) ar_global_sequence (global_action_sequence (tx_db (tr_state s)))
    (flat_map receipts_of ts) (global_action_sequence (tx_db (tr_state s')));
}.
Lemma trx_ran_nil s s' : tr_executed s' = tr_executed s → framed (tr_state s) (tr_state s') → trx_ran s s' [].
Proof. intros E [Hg Ht]. split; [by rewrite app_nil_r|done|]. rewrite Hg. apply numbered_nil. Qed.
Lemma trx_ran_app s1 s2 s3 ts ts' : trx_ran s1 s2 ts → trx_ran s2 s3 ts' → trx_ran s1 s3 (ts ++ ts').
Proof.
  intros [E1 T1 N1] [E2 T2 N2]. split; rewrite ?flat_map_app; [by rewrite E2, E1, app_assoc|congruence|].
  by eapply numbered_app.
Qed.

Lemma dispatch_ran env context_free receiver a s :
  twp (dispatch_trx_action env context_free receiver a) (λ t s', trx_ran s s' [t]) s.
Proof.
  unfold twp, dispatch_trx_action. set (e := apply_env_of _ _ _).
  pose proof (dispatch_action_spec (depth_fuel e) e context_free 0 a receiver (enter s)
    ltac:(unfold depth_fuel; lia)) as H. unfold twp in H.
  destruct (dispatch_action _ _ _ _ _ _ _) as [[x [t|err]]|]; [|done|done].
  destruct H as (m & [_ _ Hx Hg _ _] & _). split; simpl; rewrite ?app_nil_r; [exact Hx|done|exact Hg].
Qed.
Lemma dispatch_list_ran env context_free l s :
  twp (dispatch_list env context_free l) (λ ts s', trx_ran s s' ts) s.
Proof.
  revert s. induction l as [|a l IH]; intros s; simpl; [apply twp_ret; by apply trx_ran_nil|].
  apply twp_bind. eapply twp_mono; [apply dispatch_ran|]. cbv beta. intros t s1 H1.
  apply twp_bind. eapply twp_mono; [apply IH|]. cbv beta. intros ts s2 H2. apply twp_ret. by apply (trx_ran_app _ s1 _ [t]).
Qed.
Lemma exec_trx_spec env id s : twp (exec_trx env id) (λ ts s', trx_ran s s' ts) s.
Proof.
  unfold exec_trx, get_ctx. apply twp_bind, twp_in_trx. repeat wp_basic.
  apply twp_bind, twp_in_trx, wp_st_assert. intros _. apply twp_bind, (twp_mono _ (λ ts s', trx_ran s s' ts)).
  { destruct (tc_apply_context_free _); [|apply twp_ret; by apply trx_ran_nil].
    eapply twp_mono; [apply dispatch_list_ran|]. by intros ts s' []. }
  intros ts1 s1 H1. apply twp_bind, (twp_mono _ (λ ts s', trx_ran s1 s' ts)).
  { destruct (tc_delay _ =? 0); [apply dispatch_list_ran|]. apply twp_bind, twp_in_trx.
    apply (wp_mono _ (λ _, framed (tr_state s1))).
    - unfold schedule_transaction, TransactionContext.add_net_usage, check_net_usage, get_ctx, get_rl, put_rl.
      by repeat (cbv zeta; wp_basic).
    - intros _ s' Hs'. apply twp_ret. by apply trx_ran_nil. }
  intros ts2 s2 H2. apply twp_ret. by eapply trx_ran_app.
Qed.

(** What a transaction that is accepted adds to the pending block and to the known transactions. *)
Record added (p p' : pending_state) (d d' : chain_db) (receipts : list block_receipt)
    (ts : list action_trace) : Prop := {
  ad_transactions : pe_transactions p' = pe_transactions p ++ receipts;
  ad_actions : pe_actions p' = pe_actions p ++ flat_map receipts_of ts;
  ad_sequence : numbered (λ _, true) ar_global_sequence (global_action_sequence d)
    (flat_map receipts_of ts) (global_action_sequence d');
}.

Lemma push_receipt_ok p trx status cpu net p' r : push_receipt p trx status cpu net = Ok (p', r) →
  p' = Pending (pe_transactions p ++ [r]) (pe_trxs p) (pe_actions p) ∧ re_trx r = trx ∧ re_status r = status.
Proof. unfold push_receipt. intros H. inv_ok. by simplify_eq. Qed.

Lemma run_trx_spec co env md ck s : te_trx env = md_trx md →
  twp (run_trx co env md ck) (λ ts s', tr_executed s' = tr_executed s ++ flat_map receipts_of ts ∧
    numbered (λ _, true) ar_global_sequence (global_action_sequence (tx_db (tr_state s)))
      (flat_map receipts_of ts) (global_action_sequence (tx_db (tr_state s'))) ∧
    recorded co md (tx_transactions (tr_state s)) (tx_transactions (tr_state s')) ∧
    (md_implicit md = false → te_skip_trx_checks env = false → validate_expiration env = Ok tt)) s.
Proof.
  intros Et. unfold run_trx, get_ctx, put_ctx. apply twp_bind, twp_in_trx.
  eapply wp_mono; [by apply init_trx_spec|]. cbv beta. intros _ s1 (Hg & Hr & He).
  apply twp_bind, twp_in_trx. repeat wp_basic. apply twp_bind, twp_in_trx. repeat wp_basic. simpl.
  set (s2 := set_ctx s1 _). apply twp_bind, twp_in_trx, (wp_mono _ (λ _ s', s' = s2)).
  { unfold check_trx_authorization. by repeat wp_basic. }
  intros _ s3 ->. eapply twp_mono; [apply exec_trx_spec|]. cbv beta. simpl. intros ts s' [Hx Ht Hs]. simpl in *.
  by rewrite Ht, <-Hg.
Qed.

Lemma run_and_accept_spec co env md ck p s : te_trx env = md_trx md → tr_executed s = [] →
  twp (run_and_accept co env md ck p) (λ '(ts, p', receipt) s',
    added p p' (tx_db (tr_state s)) (tx_db (tr_state s')) (if md_implicit md then [] else [receipt]) ts ∧
    re_trx receipt = md_id md ∧
    recorded co md (tx_transactions (tr_state s)) (tx_transactions (tr_state s')) ∧
    (md_implicit md = false → te_skip_trx_checks env = false → validate_expiration env = Ok tt)) s.
Proof.
  intros Et E0. unfold run_and_accept. apply twp_bind. eapply twp_mono; [by apply run_trx_spec|]. cbv beta.
  rewrite E0. intros ts s1 (Hx & Hn & Hr & He). apply twp_bind, twp_in_trx.
  eapply wp_mono; [apply finalize_framed|]. cbv beta. intros _ s2 [Hg Ht]. apply twp_bind, twp_run, wp_get.
  apply twp_bind, twp_run, wp_lift. intros [p' receipt] Ha. apply twp_ret. simpl. rewrite Ht.
  unfold accept_trx in Ha. simpl in Ha. destruct (md_implicit md).
  - injection Ha as <- <-. split_and!; [|done..]. split; simpl; [by rewrite app_nil_r|by rewrite Hx|by rewrite Hg].
  - apply bind_ok in Ha as ([p1 r] & Hp & Ha). injection Ha as <- <-. apply push_receipt_ok in Hp as (-> & Hid & _).
    split_and!; [|done..]. split; simpl; [done|by rewrite Hx|by rewrite Hg].
Qed.

(** The outcome of a transaction that was pushed. *)
Definition push_outcome (co : control_env) (md : metadata) (s s' : control) (tr : trx_trace) : Prop :=
  match tt_except tr, tt_receipt tr with
  | Some _, None => ct_chain s' = ct_chain s ∧ ct_pending s' = ct_pending s
  | None, Some receipt =>
      re_trx receipt = md_id md ∧
      if negb (co_speculative co) && is_producing_block co
      then ct_chain s' = ct_chain s ∧ ct_pending s' = ct_pending s
      else added (ct_pending s) (ct_pending s') (ch_db (ct_chain s)) (ch_db (ct_chain s'))
             (if md_implicit md then [] else [receipt]) (tt_action_traces tr) ∧
           recorded co md (ch_transactions (ct_chain s)) (ch_transactions (ct_chain s'))
  | _, _ => False
  end.

Lemma push_transaction_spec co md ck deadline billed explicit s :
  skip_db_sessions co = false →
  ∃ s' res, push_transaction co md ck deadline billed explicit s = Some (s', res) ∧
    match res with Throw _ => s' = s | Ok tr => push_outcome co md s s' tr end.
Proof.
  intros Hskip. unfold push_transaction. cbv zeta. destruct (deadline =? 0); [by eexists _, _|].
  case_bool_decide; [by eexists _, _|]. set (env := new_trx_env _ _ _ _ _ _ _).
  pose proof (run_and_accept_spec co env md ck (ct_pending s) (new_trx_run env (ct_chain s) billed) eq_refl eq_refl) as Hs.
  unfold twp in Hs. destruct (run_and_accept _ _ _ _ _ _) as [[r [[[ts p] receipt]|e]]|]; [..|done].
  - destruct Hs as (Ha & Hid & Hr & _). eexists _, _. split; [done|]. unfold push_outcome. simpl.
    destruct (negb (co_speculative co) && is_producing_block co), (md_implicit md); split_and!; done.
  - rewrite Hskip. eexists _, _. split; [done|]. by destruct (failure_is_subjective e).
Qed.

(** C8: when undo sessions are on, pushing a transaction is atomic and always ends: it throws before
    anything has happened, it fails with a trace and leaves the chain and the pending block as they
    were, or it succeeds with a receipt of its id.  Then a node that produces without speculating
    leaves chain and block as they were, and every other has exactly one more receipt in the block
    (none for an implicit transaction), the receipts of the actions are those of the traces in the order
    of the run with consecutive global sequence numbers, and the transaction, which was not known
    before, is recorded with its expiration. *)
Theorem push_transaction_atomic co md ck deadline billed explicit s :
  skip_db_sessions co = false →
  ∃ s' res, push_transaction co md ck deadline billed explicit s = Some (s', res) ∧
    match res with Throw _ => s' = s | Ok tr => push_outcome co md s s' tr end.
Proof. apply push_transaction_spec. Qed.

(** ** Deferred transactions *)

(** The end of a run of a deferred transaction or of its error handler. *)
Definition scheduled_post (p : pending_state) (id : digest) (status : status_enum) (s : trx_run)
    (x : list action_trace * pending_state * block_receipt) (s' : trx_run) : Prop :=
  let '(ts, p', receipt) := x in
  added p p' (tx_db (tr_state s)) (tx_db (tr_state s')) [receipt] ts ∧ re_trx receipt = id ∧
  re_status receipt = status ∧ tx_transactions (tr_state s') = tx_transactions (tr_state s).

Lemma finalize_and_receipt env now p id status s s0 ts :
  trx_ran s0 s ts → tr_executed s0 = [] →
  twp (_ ← in_trx (finalize env now);
       r ← run st_get;
       '(p, receipt) ← run (st_lift (push_receipt p id status (tc_billed_cpu_time_us (tx_ctx (tr_state r)))
                                       (tx_net_usage (tr_state r))));
       mret (ts, append_actions p (tr_executed r), receipt)) (scheduled_post p id status s0) s.
Proof.
  intros [Hx Ht Hn] E0. apply twp_bind, twp_in_trx. eapply wp_mono; [apply finalize_framed|]. cbv beta.
  intros _ s2 [Hg Ht2]. apply twp_bind, twp_run, wp_get. apply twp_bind, twp_run, wp_lift. intros [p' receipt] Hp.
  apply twp_ret. apply push_receipt_ok in Hp as (-> & Hid & Hst). unfold scheduled_post. simpl in *.
  rewrite E0 in Hx. split_and!; [|done|done|congruence]. split; simpl; [done|by rewrite Hx|by rewrite Hg].
Qed.

Lemma run_scheduled_spec co env id gtrx ck p s : tr_executed s = [] →
  twp (run_scheduled co env id gtrx ck p) (scheduled_post p id executed s) s.
Proof.
  intros E0. unfold run_scheduled, init_for_deferred_trx, get_ctx, put_ctx. apply twp_bind, twp_in_trx.
  repeat wp_basic. eapply wp_mono; [apply init_framed|]. cbv beta. intros _ s1 [Hg Ht]. simpl in *.
  apply twp_bind, twp_in_trx. repeat wp_basic. apply twp_bind, twp_in_trx, wp_lift. intros [] _.
  apply twp_bind. eapply twp_mono; [apply exec_trx_spec|]. cbv beta. intros ts s' Hr.
  apply (finalize_and_receipt _ _ _ _ _ _ s); [|done].
  refine (trx_ran_app s _ s' [] ts _ Hr). by apply trx_ran_nil.
Qed.

Lemma run_onerror_spec env id gtrx ck p s : tr_executed s = [] →
  twp (run_onerror env id gtrx ck p) (scheduled_post p id soft_fail s) s.
Proof.
  intros E0. unfold run_onerror, init_for_implicit_trx, get_ctx, put_ctx. apply twp_bind, twp_in_trx.
  repeat wp_basic. eapply wp_mono; [apply init_framed|]. cbv beta. intros _ s1 [Hg Ht]. simpl in *.
  apply twp_bind, twp_in_trx. repeat wp_basic. apply twp_bind, twp_in_trx. repeat wp_basic. simpl.
  set (s2 := TrxRun _ _ _). assert (trx_ran s s2 []) as H2 by by apply trx_ran_nil.
  apply twp_bind, (twp_mono _ (λ ts s', trx_ran s s' ts)).
  { destruct (tr_actions (te_trx env)) as [|a [|b l]]; [by apply twp_ret| |by apply twp_ret].
    apply twp_bind. eapply twp_mono; [apply dispatch_ran|]. cbv beta. intros t s' Hr. apply twp_ret.
    exact (trx_ran_app s _ s' [] [t] H2 Hr). }
  intros ts s' Hr. by apply (finalize_and_receipt _ _ _ _ _ _ s).
Qed.

(** The chain without a deferred transaction: it is gone and its payer has the RAM of it back. *)
Definition without_scheduled (id : digest) (gtrx : generated_transaction) (c c' : chain) : Prop :=
  ∃ r, add_pending_ram_usage (db_resources (ch_db c)) (gt_payer gtrx)
         (- (generated_transaction_size + packed_size (gt_packed_trx gtrx))) = Ok r ∧
    c' = Chain (with_generated (with_resources (ch_db c) r) (delete id (db_generated (ch_db c)))) (ch_contract c)
           (ch_transactions c).
Definition enforces_lists (co : control_env) (gtrx : generated_transaction) : bool :=
  (gt_sender gtrx =? 0) || negb (sender_avoids_whitelist_blacklist_enforcement (co_lists co) (gt_sender gtrx)).

Lemma hard_failure_ok co env id c explicit cpu s s' receipt :
  hard_failure co env id c explicit cpu s = Ok (s', receipt) →
  re_trx receipt = id ∧ re_status receipt = hard_fail ∧ ∃ r,
  s' = Control (chain_with_db (ct_chain s) (with_resources (ch_db (ct_chain s)) r))
         (Pending (pe_transactions (ct_pending s) ++ [receipt]) (pe_trxs (ct_pending s)) (pe_actions (ct_pending s)))
         (ct_unapplied_transactions s).
Proof.
  unfold hard_failure. intros H. apply bind_ok in H as ([r0 cpu0] & _ & H). apply bind_ok in H as (r & _ & H).
  apply bind_ok in H as ([p rc] & Hp & H). injection H as <- <-. apply push_receipt_ok in Hp as (-> & Hid & Hst).
  split_and!; [done|done|by exists r].
Qed.

Section outcome.
Context (co : control_env) (ck : clock) (deadline billed : Z) (explicit : bool).

(** The chain [c'] after the transaction was retired with [receipt], from the chain [c] without it: the
    transaction ran on [c]; it failed there and the error handler of its sender ran on [c]; only the
    bill was added; or nothing happened. *)
Definition retired (id : digest) (gtrx : generated_transaction) (c c' : chain) (p p' : pending_state)
    (receipt : block_receipt) (tr : trx_trace) : Prop :=
  ∃ dtrx, unpack_trx (gt_packed_trx gtrx) = Ok dtrx ∧
  let co' := requiring_checks co in
  let env := new_trx_env co' dtrx ck deadline 0 explicit (enforces_lists co gtrx) in
  let first := run_scheduled co' env id gtrx ck p (new_trx_run env c billed) in
  match re_status receipt with
  | executed =>
      tt_except tr = None ∧ ∃ x, first = Some (x, Ok (tt_action_traces tr, p', receipt)) ∧ c' = chain_of x
  | soft_fail =>
      tt_except tr = None ∧ gt_sender gtrx ≠ 0 ∧
      (∃ x e, first = Some (x, Throw e) ∧ failure_is_subjective e = false) ∧
      ∃ ck2 x, let env2 := new_trx_env co' (onerror_trx co' gtrx) ck2 deadline default_leeway explicit
                             (enforces_lists co gtrx) in
        run_onerror env2 id gtrx ck2 p (new_trx_run env2 c billed) =
          Some (x, Ok (tt_action_traces tr, p', receipt)) ∧ c' = chain_of x
  | hard_fail =>
      tt_action_traces tr = [] ∧ (∃ x e, first = Some (x, Throw e)) ∧
      ∃ r, c' = chain_with_db c (with_resources (ch_db c) r)
  | expired => tt_action_traces tr = [] ∧ gt_expiration gtrx < co_pending_block_time co ∧ c' = c
  | delayed => False
  end.

(** The outcome of a deferred transaction: it stays, or it is retired with one receipt. *)
Definition scheduled_outcome (id : digest) (s s' : control) (tr : trx_trace) : Prop :=
  match tt_receipt tr with
  | None => s' = s ∧ ∃ e, tt_except tr = Some e ∧ scheduled_failure_is_subjective e = true
  | Some receipt =>
      re_trx receipt = id ∧
      added (ct_pending s) (ct_pending s') (ch_db (ct_chain s)) (ch_db (ct_chain s')) [receipt] (tt_action_traces tr) ∧
      ch_transactions (ct_chain s') = ch_transactions (ct_chain s) ∧
      ∃ gtrx c, db_generated (ch_db (ct_chain s)) !! id = Some gtrx ∧
        gt_delay_until gtrx <= co_pending_block_time co ∧ without_scheduled id gtrx (ct_chain s) c ∧
        retired id gtrx c (ct_chain s') (ct_pending s) (ct_pending s') receipt tr
  end.

Lemma retire_outcome env id gtrx dtrx c cpu e s d s' tr x e1 :
  let co' := requiring_checks co in
  let env1 := new_trx_env co' dtrx ck deadline 0 explicit (enforces_lists co gtrx) in
  let s1 := with_chain s (chain_with_db (ct_chain s) d) in
  db_generated (ch_db (ct_chain s)) !! id = Some gtrx → gt_delay_until gtrx <= co_pending_block_time co →
  remove_scheduled_transaction (ch_db (ct_chain s)) id gtrx = Ok d → unpack_trx (gt_packed_trx gtrx) = Ok dtrx →
  run_scheduled co' env1 id gtrx ck (ct_pending s) (new_trx_run env1 (ct_chain s1) billed) = Some (x, Throw e1) →
  retire co' env id c explicit cpu e s s1 = (s', Ok tr) → scheduled_outcome id s s' tr.
Proof.
  intros co' env1 s1 Hg Hd Hr Hu Hrun H. unfold remove_scheduled_transaction in Hr. apply bind_ok in Hr as (r & Er & [= <-]).
  unfold retire in H.
  destruct (if explicit then failure_is_subjective e else scheduled_failure_is_subjective e) eqn:Es.
  - injection H as <- <-. split; [done|]. exists e. split; [done|]. by destruct explicit, e.
  - destruct (hard_failure _ _ _ _ _ _ _) as [[s2 receipt]|e'] eqn:Eh; [|discriminate]. injection H as <- <-.
    apply hard_failure_ok in Eh as (Hid & Hst & r' & ->). split_and!; [done| |done|].
    + split; simpl; [done|by rewrite app_nil_r|apply numbered_nil].
    + exists gtrx, (ct_chain s1). split_and!; [done|done|by exists r|]. exists dtrx. split; [done|]. cbv zeta.
      rewrite Hst. split_and!; [done|by exists x, e1|by exists r'].
Qed.
End outcome.

Lemma retire_throws co env id c explicit cpu e before s1 s' e' :
  retire co env id c explicit cpu e before s1 = (s', Throw e') → s' = before.
Proof.
  unfold retire. destruct (if explicit then _ else _); [done|].
  destruct (hard_failure _ _ _ _ _ _ _) as [[s2 receipt]|e2]; by intros [= <- _].
Qed.

Lemma push_scheduled_spec co id ck ck_onerror deadline billed explicit s :
  skip_db_sessions co = false →
  ∃ s' res, push_scheduled_transaction co id ck ck_onerror deadline billed explicit s = Some (s', res) ∧
    match res with Throw _ => s' = s | Ok tr => scheduled_outcome co ck deadline billed explicit id s s' tr end.
Proof.
  intros Hskip. unfold push_scheduled_transaction. cbv zeta. rewrite Hskip.
  destruct (db_generated _ !! id) as [gtrx|] eqn:Eg; [|by eexists _, _].
  destruct (remove_scheduled_transaction _ _ _) as [d|e] eqn:Ed; [|by eexists _, _]. set (s1 := with_chain s _).
  assert (without_scheduled id gtrx (ct_chain s) (ct_chain s1)) as Hw.
  { unfold remove_scheduled_transaction in Ed. apply bind_ok in Ed as (r & Er & [= <-]). by exists r. }
  destruct (negb _) eqn:El; [by eexists _, _|]. destruct (unpack_trx _) as [dtrx|e] eqn:Eu; [|by eexists _, _].
  assert (gt_delay_until gtrx <= co_pending_block_time co) as Hd by lia.
  assert (∀ s' ts receipt, re_trx receipt = id → added (ct_pending s) (ct_pending s') (ch_db (ct_chain s1))
      (ch_db (ct_chain s')) [receipt] ts → ch_transactions (ct_chain s') = ch_transactions (ct_chain s) →
      retired co ck deadline billed explicit id gtrx (ct_chain s1) (ct_chain s') (ct_pending s) (ct_pending s') receipt
        (TrxTrace None (Some receipt) ts) →
      scheduled_outcome co ck deadline billed explicit id s s' (TrxTrace None (Some receipt) ts)) as Hout.
  { intros s' ts receipt Hid Ha Ht Hr. destruct Hw as (r & Er & Ew). unfold scheduled_outcome. simpl.
    rewrite Ew in Ha. split_and!; [done|destruct Ha; by split|done|]. exists gtrx, (ct_chain s1).
    split_and!; [done|done|by exists r|done]. }
  destruct (gt_expiration gtrx <? _) eqn:Ee.
  { destruct (push_receipt _ _ _ _ _) as [[p receipt]|e] eqn:Ep; [|by exists s, (Throw e)]. eexists _, _. split; [done|].
    apply push_receipt_ok in Ep as (-> & Hid & Hst). apply Hout; [done| |destruct Hw as (r & _ & ->); done|].
    - split; simpl; [done|by rewrite app_nil_r|apply numbered_nil].
    - exists dtrx. split; [done|]. cbv zeta. rewrite Hst. split_and!; [done|lia|done]. }
  case_bool_decide; [by eexists _, _|]. set (env := new_trx_env _ _ _ _ _ _ _).
  pose proof (run_scheduled_spec (requiring_checks co) env id gtrx ck (ct_pending s1)
    (new_trx_run env (ct_chain s1) billed) eq_refl) as Hs. unfold twp in Hs.
  destruct (run_scheduled _ _ _ _ _ _ _) as [[x [[[ts p] receipt]|e]]|] eqn:Er; [| |done].
  { destruct Hs as (Ha & Hid & Hst & Ht). eexists _, _. split; [done|]. apply Hout; [done|done|destruct Hw as (r & _ & Ew); by rewrite Ew in Ht|].
    exists dtrx. split; [done|]. cbv zeta. rewrite Hst. split; [done|]. by exists x. }
  clear Hs. destruct (_ || failure_is_subjective e) eqn:Es.
  { destruct (retire _ _ _ _ _ _ _ _ _) as [s' [tr|e']] eqn:Et; eexists _, _; (split; [done|]); simpl.
    - by eapply retire_outcome.
    - by eapply retire_throws. }
  set (ck2 := Clock _ _ _ _ _). set (env2 := new_trx_env _ (onerror_trx _ _) _ _ _ _ _).
  pose proof (run_onerror_spec env2 id gtrx ck2 (ct_pending s1) (new_trx_run env2 (ct_chain s1) billed) eq_refl) as Hs.
  unfold twp in Hs. destruct (run_onerror _ _ _ _ _ _) as [[x2 [[[ts p] receipt]|e2]]|] eqn:Er2; [| |done].
  { destruct Hs as (Ha & Hid & Hst & Ht). eexists _, _. split; [done|]. apply Hout; [done|done|destruct Hw as (r & _ & Ew); by rewrite Ew in Ht|].
    apply orb_false_iff in Es as [E0 Es]. exists dtrx. split; [done|]. cbv zeta. rewrite Hst. split_and!; [done|lia|by exists x, e|].
    by exists ck2, x2. }
  destruct (retire _ _ _ _ _ _ _ _ _) as [s' [tr|e']] eqn:Et; eexists _, _; (split; [done|]); simpl.
  - by eapply retire_outcome.
  - by eapply retire_throws.
Qed.

(** C14: a deferred transaction is retired once: pushing it always ends, and it throws, leaving everything
    as it was, or it fails for a subjective reason, which also leaves everything as it was so that a
    later block can retire it, or it was due and the block has exactly one more receipt, with its id.
    What then ran started from the chain without the transaction and with its RAM given back to its
    payer: when the status is executed, the transaction ran there and the new chain is what it left;
    when it is soft_fail, the transaction failed there, and so the error handler of its sender ran from
    the same chain; and their actions are those of the block.  When the status is hard_fail or expired
    no action is recorded, and the new chain is the chain without the transaction, but for the resources
    that a hard failure is billed for. *)
Theorem scheduled_transaction_retired co id ck ck_onerror deadline billed explicit s :
  skip_db_sessions co = false →
  ∃ s' res, push_scheduled_transaction co id ck ck_onerror deadline billed explicit s = Some (s', res) ∧
    match res with Throw _ => s' = s | Ok tr => scheduled_outcome co ck deadline billed explicit id s s' tr end.
Proof. apply push_scheduled_spec. Qed.

(** ** Blocks *)

(** The transaction of a block is the one that its receipt names. *)
Definition names_trx (b : block_transaction) : Prop :=
  match bl_packed b with Some md => md_id md = re_trx (bl_receipt b) ∧ md_implicit md = false | None => True end.

(** Pushing adds no receipt or one of the transaction. *)
Lemma push_block_transaction_spec co b s : skip_db_sessions co = false → names_trx b →
  twp (push_block_transaction co b) (λ _ s', pe_transactions (ct_pending s') = pe_transactions (ct_pending s) ∨
    ∃ r, re_trx r = re_trx (bl_receipt b) ∧
      pe_transactions (ct_pending s') = pe_transactions (ct_pending s) ++ [r]) s.
Proof.
  intros Hskip Hb. unfold twp, push_block_transaction, names_trx in *. destruct (bl_packed b) as [md|].
  - destruct Hb as [Hid Hi].
    destruct (push_transaction_spec co md (bl_clock b) time_point_maximum (re_cpu_usage_us (bl_receipt b)) true s Hskip)
      as (s' & [tr|e] & -> & Ho); [|done]. unfold push_outcome in Ho. rewrite Hi in Ho.
    destruct (tt_except tr), (tt_receipt tr) as [r|]; try done; [left; by rewrite (proj2 Ho)|].
    destruct Ho as [Hr Ho]. destruct (_ && _); [left; by rewrite (proj2 Ho)|]. right. exists r.
    split; [congruence|]. apply Ho.
  - destruct (push_scheduled_spec co (re_trx (bl_receipt b)) (bl_clock b) (bl_onerror_clock b) time_point_maximum
      (re_cpu_usage_us (bl_receipt b)) true s Hskip) as (s' & [tr|e] & -> & Ho); [|done]. unfold scheduled_outcome in Ho.
    destruct (tt_receipt tr) as [r|]; [|left; by rewrite (proj1 Ho)]. right. exists r. split; [apply Ho|apply Ho].
Qed.

Lemma apply_transactions_spec co l s :
  skip_db_sessions co = false → Forall names_trx l →
  twp (apply_transactions co l) (λ _ s',
    pe_transactions (ct_pending s') = pe_transactions (ct_pending s) ++ (bl_receipt <$> l)) s.
Proof.
  intros Hskip Hl. revert s. induction Hl as [|b l Hb Hl IH]; intros s; cbn [apply_transactions].
  { apply twp_ret. simpl. by rewrite app_nil_r. }
  apply twp_bind, twp_run, wp_get, twp_bind. eapply twp_mono; [by apply push_block_transaction_spec|]. cbv beta.
  intros tr s1 Hs1. apply twp_bind, twp_run, (wp_mono _ (λ _ s', s' = s1)).
  { destruct (tt_except tr); [|by wp_basic]. destruct (_ && _); by wp_basic. }
  intros _ s' ->. apply twp_bind, twp_run, wp_get. apply twp_bind, twp_run, wp_st_assert. intros _.
  apply twp_bind, twp_run, wp_st_assert. intros Hlen. apply bool_decide_eq_true in Hlen.
  apply twp_bind, twp_run, wp_st_assert. intros Hlast.
  destruct Hs1 as [Hs1|(r & Hid & Hs1)]; [rewrite Hs1 in Hlen; lia|]. rewrite Hs1, last_snoc in Hlast.
  assert (r = bl_receipt b) as ->.
  { unfold same_header in Hlast. rewrite !andb_true_iff, bool_decide_eq_true in Hlast. destruct Hlast as [[? ?] ?].
    destruct r, (bl_receipt b). simpl in *. f_equal; [done|lia|lia|done]. }
  eapply twp_mono; [apply IH|]. cbv beta. intros _ s2 Hs2. rewrite Hs2, Hs1, <-app_assoc. done.
Qed.

(** C18: a block that a node accepts is the one it would have made: when the transactions of a block were
    applied, the receipts of the pending block are exactly those of the block, with their status, CPU
    and net usage and transaction; the loop always ends. *)
Theorem accepted_receipts_exact co l s :
  skip_db_sessions co = false → Forall names_trx l →
  ∃ s' res, apply_transactions co l s = Some (s', res) ∧
    (res = Ok tt → pe_transactions (ct_pending s') = pe_transactions (ct_pending s) ++ (bl_receipt <$> l)).
Proof.
  intros Hskip Hl. pose proof (apply_transactions_spec co l s Hskip Hl) as H. unfold twp in H.
  destruct (apply_transactions co l s) as [[s' [[]|e]]|]; [..|done]; by eexists _, _.
Qed.

(** ** Replay *)








End controller.

(** ** A concrete chain *)
#[local] Existing Instances toy_fc toy_key_order toy_native_codec toy_native_transactions toy_native_sizes.
#[local] Existing Instances toy_code_checks toy_soft_float toy_system_abi toy_action_hash toy_wasm.
Definition toy_trx_codec : TrxCodec := {|
  pack_trx := λ t, tr_actions t;
  unpack_trx := λ l, Ok (Transaction 0 0 0 0 0 0 [] l []);
  onerror_data := λ _ _, ToySetAbi alice;
|}.
#[local] Existing Instance toy_trx_codec.

Definition toy_control_env : control_env :=
  ControlEnv ChainConfig.initial_configuration 2000000 incomplete true false false false false false
    (AccessLists [] [] [] [] [] [] []) ∅ None None [digest_zero] digest_zero.
Definition toy_clock : clock := Clock 1000 false 1010 1200 1300.
Definition toy_md : metadata :=
  Metadata (Transaction 10 0 0 0 0 0 [] [toy_first] []) (Digest 1 0 0 0) (Digest 2 0 0 0) 100 20 (Ok [9]) false.
Definition toy_control (d : chain_db) : control :=
  Control (Chain d (ContractState (toy_native_state d) ∅ 0 no_rows no_rows no_rows no_rows no_rows no_rows) ∅)
    (Pending [] [] []) ∅.
Definition toy_push (s : control) : option (control * result trx_trace) :=
  push_transaction toy_control_env toy_md toy_clock 9000000 0 false s.

(** alice was the only one with a stake, used most of the net of a block and has a transaction delayed;
    then eonio stakes, which leaves alice a share that is less than what was used. *)
Definition toy_delayed : digest := Digest 5 0 0 0.
Definition toy_gtrx : generated_transaction := GeneratedTransaction 0 7 alice 1000000 600000000 500000 [toy_first].
Definition toy_slot : Z := of_time_point (co_pending_block_time toy_control_env).
Definition toy_congested (d : chain_db) : result chain_db :=
  '(r, _) ← set_account_limits (db_resources d) alice (-1) 1 (-1);
  r ← process_account_limit_updates r;
  r ← update_account_usage r [alice] toy_slot;
  r ← add_transaction_usage r [alice] 200 1000000 toy_slot;
  '(r, _) ← set_account_limits r system_account_name (-1) 1000000000 (-1);
  r ← process_account_limit_updates r;
  r ← add_pending_ram_usage r alice (generated_transaction_size + 100);
  mret (with_generated (with_resources d r)
    {[toy_delayed := toy_gtrx]}).
Definition toy_delayed_env (time : time_point) : control_env :=
  ControlEnv (co_configuration toy_control_env) time incomplete true false false false false false
    (co_lists toy_control_env) ∅ None None [digest_zero] digest_zero.
Definition toy_push_delayed (time : time_point) (s : control) : option (control * result trx_trace) :=
  push_scheduled_transaction (toy_delayed_env time) toy_delayed toy_clock toy_clock 9000000 0 false s.

(** The status of the receipt, when there is one. *)
Definition toy_status (r : option (control * result trx_trace)) : option status_enum :=
  match r with Some (_, Ok tr) => re_status <$> tt_receipt tr | _ => None end.

Definition toy_thrown (r : option (control * result trx_trace)) : option exception :=
  match r with Some (_, Throw e) => Some e | _ => None end.

(** In tables that are in order (a block was congested, then others staked), the delayed transaction of
    alice, which uses no net itself, passes the checks but cannot be billed; pushing it throws, until it
    expires. *)
Lemma toy_deferred_thrown :
  (d ← toy_exec_db; d ← toy_congested d;
   mret (between_ok toy_slot (db_resources d), toy_thrown (toy_push_delayed 2000000 (toy_control d)),
         toy_status (toy_push_delayed 600500000 (toy_control d)))) =
  Ok (true, Some tx_net_usage_exceeded, Some expired).
Proof. vm_compute. reflexivity. Qed.


Definition toy_trx_env : trx_env :=
  new_trx_env toy_control_env (md_trx toy_md) toy_clock 9000000 default_leeway false true.
Lemma input_bill_never_fails_witness :
  ∃ d r ts s', toy_exec_db = Ok d ∧
    run_trx toy_control_env toy_trx_env toy_md toy_clock (new_trx_run toy_trx_env (ct_chain (toy_control d)) 0) =
      Some (r, Ok ts) ∧
    finalize_checks toy_trx_env 1200 (tr_state r) = (s', Ok tt) ∧
    is_ok (bill_usage_of_trx toy_trx_env s') = true.
Proof.
  assert (E : (d ← toy_exec_db;
    mret (between_ok (pending_slot toy_trx_env) (db_resources d),
      match run_trx toy_control_env toy_trx_env toy_md toy_clock (new_trx_run toy_trx_env (ct_chain (toy_control d)) 0) with
      | Some (r, Ok _) => is_ok (finalize_checks toy_trx_env 1200 (tr_state r)).2
      | _ => false
      end)) = Ok (true, true)) by (vm_compute; reflexivity).
  apply bind_ok in E as (d & Hd & E). injection E as Hb E. exists d.
  destruct (run_trx _ _ _ _ _) as [[r [ts|e]]|] eqn:Er; [|discriminate E..].
  destruct (finalize_checks toy_trx_env 1200 (tr_state r)) as [s' [[]|e]] eqn:Ef; [|discriminate E].
  exists r, ts, s'. split; [exact Hd|]. split; [reflexivity|]. split; [exact Ef|].
  apply (input_bill_never_fails toy_control_env toy_trx_env toy_md toy_clock 1200 (ct_chain (toy_control d)) 0 r ts s').
  - reflexivity.
  - reflexivity.
  - reflexivity.
  - apply between_ok_spec, Hb.
  - split; [split; [discriminate|reflexivity]|]. split; (split; [discriminate|reflexivity]).
  - reflexivity.
  - split; [discriminate|reflexivity].
  - split; reflexivity.
  - exact Er.
  - exact Ef.
Defined.

Lemma push_transaction_atomic_witness :
  ∃ d s' tr, toy_exec_db = Ok d ∧ toy_push (toy_control d) = Some (s', Ok tr) ∧
    re_status <$> tt_receipt tr = Some executed ∧ push_outcome toy_control_env toy_md (toy_control d) s' tr.
Proof.
  assert (E : (d ← toy_exec_db; mret (toy_status (toy_push (toy_control d)))) = Ok (Some executed))
    by (vm_compute; reflexivity).
  apply bind_ok in E as (d & Hd & E). injection E as E.
  destruct (push_transaction_atomic toy_control_env toy_md toy_clock 9000000 0 false (toy_control d))
    as (s' & res & Hp & Ho); [reflexivity|].
  fold (toy_push (toy_control d)) in Hp. rewrite Hp in E. destruct res as [tr|e]; [|discriminate E].
  exists d, s', tr. split; [exact Hd|]. split; [exact Hp|]. split; [exact E|exact Ho].
Defined.

Lemma scheduled_transaction_retired_witness :
  ∃ d d1 s s' tr, toy_exec_db = Ok d ∧ toy_congested d = Ok d1 ∧
    s = toy_control (with_generated d (db_generated d1)) ∧
    toy_push_delayed 2000000 s = Some (s', Ok tr) ∧
    re_status <$> tt_receipt tr = Some executed ∧
    scheduled_outcome (toy_delayed_env 2000000) toy_clock 9000000 0 false toy_delayed s s' tr.
Proof.
  assert (E : (d ← toy_exec_db; d1 ← toy_congested d;
    mret (toy_status (toy_push_delayed 2000000 (toy_control (with_generated d (db_generated d1)))))) =
    Ok (Some executed)) by (vm_compute; reflexivity).
  apply bind_ok in E as (d & Hd & E). apply bind_ok in E as (d1 & Hd1 & E). injection E as E.
  set (s := toy_control (with_generated d (db_generated d1))) in *. unfold toy_push_delayed in E.
  edestruct scheduled_transaction_retired as (s' & res & Hp & Ho); [|rewrite Hp in E]; [reflexivity|].
  destruct res as [tr|e]; [|discriminate E].
  exists d, d1, s, s', tr. split; [exact Hd|]. split; [exact Hd1|]. split; [reflexivity|].
  split; [exact Hp|]. split; [exact E|exact Ho].
Defined.



(** A block with the transaction of alice. *)
Definition toy_complete_env : control_env :=
  ControlEnv (co_configuration toy_control_env) 2000000 complete true false false false false false
    (co_lists toy_control_env) ∅ None None [digest_zero] digest_zero.
Definition toy_block : list block_transaction :=
  [BlockTransaction (BlockReceipt executed 200 15 (Digest 1 0 0 0)) (Some toy_md) toy_clock toy_clock].
Lemma accepted_receipts_exact_witness :
  ∃ d s', toy_exec_db = Ok d ∧ apply_transactions toy_complete_env toy_block (toy_control d) = Some (s', Ok tt) ∧
    pe_transactions (ct_pending s') = [BlockReceipt executed 200 15 (Digest 1 0 0 0)].
Proof.
  assert (E : (d ← toy_exec_db;
    mret (match apply_transactions toy_complete_env toy_block (toy_control d) with Some (_, Ok _) => true | _ => false end)) =
    Ok true) by (vm_compute; reflexivity).
  apply bind_ok in E as (d & Hd & E).
  destruct (accepted_receipts_exact toy_complete_env toy_block (toy_control d)) as (s' & res & Hr & Ho).
  { reflexivity. }
  { constructor; [split; reflexivity|constructor]. }
  rewrite Hr in E. destruct res as [[]|e]; [|discriminate E]. exists d, s'. split; [exact Hd|].
  split; [exact Hr|]. exact (Ho eq_refl).
Defined.
