(* ===== verification/Dimensionlib.v ===== *)
(** * The contract library: names, symbols, assets and tables

    Models the parts of contracts/dimensionlib that the contracts of Token, System and Multisig are built on:
    name_suffix of types.hpp, symbol.hpp, asset.hpp, and the tables of multi_index.hpp as the typed
    finite maps that their rows are.  Signed 64-bit arithmetic is written with its wrap-around.

    Results: [is_valid_symbol] accepts exactly the encodings of one to seven capital letters with a
    precision; sums, differences and products of assets either throw or are exact and in range. *)

From S2P Require Import Prelude.

(** [eosio_assert( cond, message )] *)
Abbreviation eosio_assert c := (EOS_ASSERT c eosio_assert_message_exception).

(** ** types.hpp *)
(** The loop over the twelve characters of five bits: [tmp] is where the characters after the last dot
    seen so far start, [after] where those after the last dot that a character follows start. *)
Fixpoint suffix_loop (n : Z) (steps : nat) (remaining_bits tmp after : Z) : Z * Z :=
  match steps with
  | O => (tmp, after)
  | S steps =>
      let c := Z.land (Z.shiftr n remaining_bits) 31 in
      if c =? 0 then suffix_loop n steps (remaining_bits - 5) remaining_bits after
      else suffix_loop n steps (remaining_bits - 5) tmp tmp
  end.

Definition name_suffix (n : Z) : Z :=
  let '(tmp, after) := suffix_loop n 12 59 0 0 in
  let thirteenth_character := Z.land n 15 in
  let after := if negb (thirteenth_character =? 0) then tmp else after in
  if after =? 0 then n
  else
    let mask := Z.shiftl 1 after - 16 in
    let shift := 64 - after in
    u64 (u64 (Z.shiftl (Z.land n mask) shift) + u64 (Z.shiftl thirteenth_character (shift - 1))).

(** ** symbol.hpp *)
(** The loop of [string_to_symbol], from the character with index [i]. *)
Fixpoint symbol_bits (i : Z) (str : list Z) : Z :=
  match str with
  | [] => 0
  | c :: str =>
      Z.lor (if (c <? 65) || (90 <? c) then 0 else u64 (Z.shiftl c (8 * (1 + i)))) (symbol_bits (i + 1) str)
  end.
Definition string_to_symbol (precision : Z) (str : list Z) : Z := Z.lor (symbol_bits 0 str) precision.

(** The inner loop of [is_valid_symbol], [n] times: no character follows the first zero. *)
Fixpoint only_zeros (n : nat) (sym : Z) : bool :=
  match n with
  | O => true
  | S n => let sym := Z.shiftr sym 8 in (Z.land sym 255 =? 0) && only_zeros n sym
  end.
(** The outer loop, with [n] iterations to go. *)
Fixpoint valid_letters (n : nat) (sym : Z) : bool :=
  match n with
  | O => true
  | S n' =>
      let c := Z.land sym 255 in
      if negb ((65 <=? c) && (c <=? 90)) then false
      else
        let sym := Z.shiftr sym 8 in
        if Z.land sym 255 =? 0 then only_zeros n sym else valid_letters n' sym
  end.
Definition is_valid_symbol (sym : Z) : bool := valid_letters 7 (Z.shiftr sym 8).

(** [while( sym & 0xff && length <= 7 )]: at most eight times. *)
Fixpoint count_letters (n : nat) (sym : Z) : Z :=
  match n with
  | O => 0
  | S n => if Z.land sym 255 =? 0 then 0 else 1 + count_letters n (Z.shiftr sym 8)
  end.
Definition symbol_name_length (sym : Z) : Z := count_letters 8 (Z.shiftr sym 8).

Definition precision (sym : Z) : Z := Z.land sym 255.
Definition symbol_name (sym : Z) : Z := Z.shiftr sym 8.

(** ** asset.hpp *)
Record asset := Asset {
  amount : Z;
  symbol : Z;
}.
Global Instance asset_eq_dec : EqDecision asset.
Proof. solve_decision. Defined.

Definition max_amount : Z := 2 ^ 62 - 1.
Definition is_amount_within_range (a : asset) : bool := (- max_amount <=? amount a) && (amount a <=? max_amount).
Definition is_valid (a : asset) : bool := is_amount_within_range a && is_valid_symbol (symbol a).

(** The constructor. *)
Definition new_asset (a s : Z) : result asset :=
  _ ← eosio_assert (is_amount_within_range (Asset a s));
  _ ← eosio_assert (is_valid_symbol s);
  mret (Asset a s).

Definition asset_neg (a : asset) : asset := Asset (i64 (- amount a)) (symbol a).

Definition asset_sub (x a : asset) : result asset :=
  _ ← eosio_assert (symbol a =? symbol x);
  let m := i64 (amount x - amount a) in
  _ ← eosio_assert (- max_amount <=? m);
  _ ← eosio_assert (m <=? max_amount);
  mret (Asset m (symbol x)).

Definition asset_add (x a : asset) : result asset :=
  _ ← eosio_assert (symbol a =? symbol x);
  let m := i64 (amount x + amount a) in
  _ ← eosio_assert (- max_amount <=? m);
  _ ← eosio_assert (m <=? max_amount);
  mret (Asset m (symbol x)).

Definition asset_mul (x : asset) (a : Z) : result asset :=
  let tmp := amount x * a in
  _ ← eosio_assert (tmp <=? max_amount);
  _ ← eosio_assert (- max_amount <=? tmp);
  mret (Asset (i64 tmp) (symbol x)).

Definition asset_div (x : asset) (a : Z) : result asset :=
  _ ← eosio_assert (negb (a =? 0));
  _ ← eosio_assert (negb ((amount x =? - 2 ^ 63) && (a =? -1)));
  mret (Asset (Z.quot (amount x) a) (symbol x)).

(** The comparisons, which throw on different symbols. *)
Definition asset_compare (cmp : Z → Z → bool) (a b : asset) : result bool :=
  _ ← eosio_assert (symbol a =? symbol b);
  mret (cmp (amount a) (amount b)).
Definition asset_eqb : asset → asset → result bool := asset_compare Z.eqb.
Definition asset_ltb : asset → asset → result bool := asset_compare Z.ltb.
Definition asset_leb : asset → asset → result bool := asset_compare Z.leb.

(** ** Tables *)
(** The rows of a multi_index, with the account that pays for each, by scope and primary key, or by
    primary key alone where the scope is fixed. *)
Abbreviation table K A := (gmap K (Z * A)).

Section tables.
Context {K A : Type} `{Countable K}.
Implicit Types (t : table K A) (k : K).

Definition find t k : option A := snd <$> t !! k.
Definition get t k : result A := of_option (find t k) eosio_assert_message_exception.
Definition emplace (payer : Z) k (a : A) t : result (table K A) :=
  _ ← EOS_ASSERT (bool_decide (t !! k = None)) db_uniqueness_violation;
  mret (<[k := (payer, a)]> t).
(** The row of an iterator; the end iterator is rejected.  A payer of zero keeps the old one. *)
Definition modify (payer : Z) k (f : A → result A) t : result (table K A) :=
  '(old_payer, a) ← of_option (t !! k) eosio_assert_message_exception;
  a ← f a;
  mret (<[k := (if payer =? 0 then old_payer else payer, a)]> t).
Definition erase k t : result (table K A) :=
  _ ← of_option (t !! k) eosio_assert_message_exception;
  mret (delete k t).
End tables.

(** *** What the operations on rows do *)
Section rows.
Context {K A : Type} `{Countable K}.
Implicit Types (t : table K A).

Lemma find_Some t k a : find t k = Some a ↔ ∃ p, t !! k = Some (p, a).
Proof.
  unfold find. split; [intros ([p b] & ? & ->)%fmap_Some; eauto|intros [p ->]; done].
Qed.
Lemma find_None t k : find t k = None ↔ t !! k = None.
Proof. apply fmap_None. Qed.
Lemma get_ok t k a : get t k = Ok a ↔ find t k = Some a.
Proof. apply of_option_ok. Qed.
Lemma emplace_ok payer k a t t' :
  emplace payer k a t = Ok t' ↔ t !! k = None ∧ t' = <[k := (payer, a)]> t.
Proof.
  unfold emplace. destruct (t !! k) eqn:E.
  - rewrite bool_decide_eq_false_2 by congruence. simpl. split; [discriminate|intros [? _]; congruence].
  - rewrite bool_decide_eq_true_2 by done. simpl. split; [by intros [= <-]|by intros [_ ->]].
Qed.
Lemma erase_ok k t t' : erase k t = Ok t' ↔ is_Some (t !! k) ∧ t' = delete k t.
Proof.
  unfold erase. destruct (t !! k) eqn:E; simpl; split.
  - by intros [= <-].
  - by intros [_ ->].
  - discriminate.
  - intros [[? ?] _]. discriminate.
Qed.
Lemma modify_ok payer k f t t' :
  modify payer k f t = Ok t' ↔
  ∃ p a a', t !! k = Some (p, a) ∧ f a = Ok a' ∧ t' = <[k := (if payer =? 0 then p else payer, a')]> t.
Proof.
  unfold modify. destruct (t !! k) as [[p a]|] eqn:E; simpl.
  - destruct (f a) as [a'|] eqn:Ef; simpl; split.
    + intros [= <-]. by exists p, a, a'.
    + intros (? & ? & ? & [= <- <-] & [= <-]%(eq_trans (eq_sym Ef)) & ->). done.
    + discriminate.
    + intros (? & ? & ? & [= <- <-] & E'%(eq_trans (eq_sym Ef)) & _). discriminate.
  - split; [discriminate|]. intros (? & ? & ? & ? & _). discriminate.
Qed.
End rows.

(** One more than the largest key; the two largest numbers are tags. *)
Definition no_available_primary_key : Z := 2 ^ 64 - 2.
Definition available_primary_key {A} (t : table Z A) : result Z :=
  let pk := foldr Z.max (-1) ((map_to_list t).*1) in
  let next := if no_available_primary_key <=? pk then no_available_primary_key else pk + 1 in
  _ ← eosio_assert (next <? no_available_primary_key);
  mret next.

(** What an action of a contract reads: the account of the contract, the accounts that authorized the
    action, the accounts that exist, and the time of the block before in seconds and microseconds. *)
Record contract_env := ContractEnv {
  self : Z;
  authorized : list Z;
  is_account : Z → bool;
  now : Z;
  current_time : Z;
}.
Definition require_auth (env : contract_env) (account : Z) : result unit :=
  EOS_ASSERT (bool_decide (account ∈ authorized env)) missing_auth_exception.

(** ** Symbols *)
Definition capital (c : Z) : Prop := 65 <= c <= 90.
(** The letters of a symbol name, from the lowest byte on. *)
Definition letters_val (str : list Z) : Z := foldr (λ c v, c + 256 * v) 0 str.

Lemma land_255 s : Z.land s 255 = s mod 256.
Proof. change 255 with (Z.ones 8). by rewrite Z.land_ones. Qed.
Lemma shiftr_8 s : Z.shiftr s 8 = s / 256.
Proof. by rewrite Z.shiftr_div_pow2. Qed.

Lemma letters_val_range str : Forall capital str → 0 <= letters_val str < 256 ^ Z.of_nat (length str).
Proof.
  induction 1 as [|c str Hc _ IH]; simpl; [lia|]. unfold capital in Hc.
  rewrite Nat2Z.inj_succ, Z.pow_succ_r by lia. unfold letters_val in *. lia.
Qed.

Lemma only_zeros_spec n s : 0 <= s < 256 ^ Z.of_nat (S n) → only_zeros n s = true ↔ s < 256.
Proof.
  revert s. induction n as [|n IH]; intros s Hs; simpl only_zeros; [split; [lia|done]|].
  rewrite Nat2Z.inj_succ, Z.pow_succ_r in Hs by lia.
  assert (0 <= s / 256 < 256 ^ Z.of_nat (S n)) as Hq.
  { split; [apply Z.div_pos; lia|]. apply Z.div_lt_upper_bound; lia. }
  rewrite andb_true_iff, Z.eqb_eq, shiftr_8, land_255, (IH _ Hq).
  pose proof (Z.div_mod s 256 ltac:(lia)). pose proof (Z.mod_pos_bound s 256 ltac:(lia)). split.
  - intros [Hm Hlt]. rewrite Z.mod_small in Hm by lia. lia.
  - intros Hlt. rewrite Z.div_small by lia. done.
Qed.

Lemma valid_letters_spec n s :
  0 <= s < 256 ^ Z.of_nat (S n) →
  valid_letters (S n) s = true ↔
  ∃ str, (1 <= length str <= S n)%nat ∧ Forall capital str ∧ s = letters_val str.
Proof.
  revert s. induction n as [|n IH]; intros s Hs.
  - simpl. rewrite shiftr_8, !land_255. change (256 ^ Z.of_nat 1) with 256 in Hs.
    rewrite (Z.mod_small s), (Z.div_small s) by lia. simpl. split.
    + destruct (_ && _) eqn:E; [|done]. intros _. reflect_bools. exists [s].
      split; [simpl; lia|]. split; [repeat constructor; lia|]. simpl. lia.
    + intros (str & Hl & Hf & ->). destruct str as [|c [|]]; simpl in Hl; try lia. apply Forall_cons in Hf as [[] _].
      simpl. rewrite !(proj2 (Z.leb_le _ _)) by lia. done.
  - rewrite Nat2Z.inj_succ, Z.pow_succ_r in Hs by lia.
    assert (0 <= s / 256 < 256 ^ Z.of_nat (S n)) as Hq.
    { split; [apply Z.div_pos; lia|]. apply Z.div_lt_upper_bound; lia. }
    assert (256 ^ Z.of_nat (S (S (S n))) = 65536 * 256 ^ Z.of_nat (S n)) as Hpow.
    { rewrite !(Nat2Z.inj_succ (S _)), !Z.pow_succ_r by lia. lia. }
    pose proof (Z.div_mod s 256 ltac:(lia)) as Hdm. pose proof (Z.mod_pos_bound s 256 ltac:(lia)) as Hm.
    change (valid_letters (S (S n)) s) with
      (if negb ((65 <=? Z.land s 255) && (Z.land s 255 <=? 90)) then false
       else if Z.land (Z.shiftr s 8) 255 =? 0 then only_zeros (S (S n)) (Z.shiftr s 8)
       else valid_letters (S n) (Z.shiftr s 8)).
    rewrite shiftr_8, !land_255. split.
    + destruct (negb _) eqn:E; [done|]. reflect_bools. destruct (_ =? 0) eqn:E0; reflect_bools.
      * rewrite only_zeros_spec by lia. intros Hlt. exists [s mod 256].
        split; [simpl; lia|]. split; [repeat constructor; lia|]. simpl. rewrite Z.mod_small in E0 by lia. lia.
      * rewrite (IH _ Hq). intros (str & Hl & Hf & E1). exists (s mod 256 :: str).
        split; [simpl; lia|]. split; [by constructor|]. simpl. fold (letters_val str). rewrite <-E1. lia.
    + intros (str & Hl & Hf & E). destruct str as [|c str]; [simpl in Hl; lia|].
      apply Forall_cons in Hf as [Hc Hf]. pose proof (letters_val_range str Hf) as Hr. unfold capital in Hc.
      simpl in E. fold (letters_val str) in E.
      assert (s mod 256 = c) as -> by (rewrite E, (Z.mul_comm 256), Z.mod_add, Z.mod_small; lia).
      assert (s / 256 = letters_val str) as -> by (rewrite E, (Z.mul_comm 256), Z.div_add, Z.div_small; lia).
      rewrite !(proj2 (Z.leb_le _ _)) by lia. simpl.
      destruct str as [|c' str]; [apply (only_zeros_spec (S (S n)) 0); lia|].
      destruct (_ =? 0) eqn:E0; reflect_bools.
      * exfalso. apply Forall_cons in Hf as [Hc' _]. unfold capital in Hc'. simpl in E0.
        rewrite (Z.mul_comm 256), Z.mod_add, Z.mod_small in E0; lia.
      * apply IH; [simpl in *; lia|]. exists (c' :: str). simpl in *. split; [lia|done].
Qed.

Lemma symbol_bits_val i str :
  Forall capital str → 0 <= i → i + Z.of_nat (length str) <= 7 →
  symbol_bits i str = letters_val str * 2 ^ (8 * (1 + i)).
Proof.
  intros Hf. revert i. induction Hf as [|c str Hc Hf IH]; intros i Hi Hl; [done|].
  unfold capital in Hc. simpl symbol_bits. rewrite IH by (simpl in Hl; lia).
  replace ((c <? 65) || (90 <? c)) with false by (symmetry; apply orb_false_iff; rewrite !Z.ltb_ge; lia).
  rewrite Z.shiftl_mul_pow2 by lia.
  assert (2 ^ (8 * (1 + (i + 1))) = 256 * 2 ^ (8 * (1 + i))) as E.
  { replace (8 * (1 + (i + 1))) with (8 + 8 * (1 + i)) by lia. by rewrite Z.pow_add_r by lia. }
  pose proof (Z.pow_pos_nonneg 2 (8 * (1 + i)) ltac:(lia) ltac:(lia)) as Hp.
  assert (2 ^ (8 * (1 + i)) <= 2 ^ 56) as Hp' by (apply Z.pow_le_mono_r; simpl in Hl; lia).
  rewrite u64_small by (unfold in_u64; nia).
  rewrite Z.lor_comm, lor_add_disjoint; [|rewrite E; nia|lia].
  simpl. fold (letters_val str). rewrite E. lia.
Qed.

Lemma string_to_symbol_val p str :
  Forall capital str → (length str <= 7)%nat → 0 <= p < 256 →
  string_to_symbol p str = letters_val str * 256 + p.
Proof.
  intros Hf Hl Hp. unfold string_to_symbol. rewrite symbol_bits_val by (done || lia).
  change (8 * (1 + 0)) with 8. rewrite lor_add_disjoint; [done|done|lia].
Qed.

(** [is_valid_symbol] accepts exactly the 64-bit numbers that [string_to_symbol] makes of a
    precision and a name of one to seven capital letters. *)
Theorem is_valid_symbol_exact sym :
  in_u64 sym →
  is_valid_symbol sym = true ↔
  ∃ p str, 0 <= p < 256 ∧ (1 <= length str <= 7)%nat ∧ Forall capital str ∧ sym = string_to_symbol p str.
Proof.
  intros Hs. unfold is_valid_symbol. rewrite shiftr_8. unfold in_u64 in Hs.
  pose proof (Z.div_mod sym 256 ltac:(lia)). pose proof (Z.mod_pos_bound sym 256 ltac:(lia)).
  rewrite valid_letters_spec.
  2: { change (256 ^ Z.of_nat 7) with (2 ^ 56). split; [apply Z.div_pos; lia|apply Z.div_lt_upper_bound; lia]. }
  split.
  - intros (str & Hl & Hf & E). exists (sym mod 256), str. split_and!; try done; try lia.
    rewrite string_to_symbol_val by (done || lia). lia.
  - intros (p & str & Hp & Hl & Hf & ->). exists str. split_and!; try done; try lia.
    rewrite string_to_symbol_val by (done || lia). rewrite Z.div_add_l, Z.div_small by lia. lia.
Qed.

Lemma is_valid_symbol_exact_witness :
  is_valid_symbol 1280066820 = true ∧
  ∃ p str, 0 <= p < 256 ∧ (1 <= length str <= 7)%nat ∧ Forall capital str ∧ 1280066820 = string_to_symbol p str.
Proof.
  assert (H : is_valid_symbol 1280066820 = true) by reflexivity.
  split; [exact H|]. apply (is_valid_symbol_exact 1280066820); [done|exact H].
Defined.

(** ** Arithmetic *)
(** Arithmetic on assets whose amounts are in range either throws or is exact: a sum and a
    difference are the mathematical ones when the symbols agree and the result is in range, a product
    when it is in range, and a quotient by a nonzero number is truncated towards zero. *)
Theorem asset_arithmetic_exact x a k :
  is_amount_within_range x = true → is_amount_within_range a = true → in_i64 k →
  (∀ r, asset_add x a = Ok r ↔
     symbol a = symbol x ∧ - max_amount <= amount x + amount a <= max_amount ∧
     r = Asset (amount x + amount a) (symbol x)) ∧
  (∀ r, asset_sub x a = Ok r ↔
     symbol a = symbol x ∧ - max_amount <= amount x - amount a <= max_amount ∧
     r = Asset (amount x - amount a) (symbol x)) ∧
  (∀ r, asset_mul x k = Ok r ↔
     - max_amount <= amount x * k <= max_amount ∧ r = Asset (amount x * k) (symbol x)) ∧
  (∀ r, asset_div x k = Ok r ↔ k ≠ 0 ∧ r = Asset (Z.quot (amount x) k) (symbol x)).
Proof.
  unfold is_amount_within_range. rewrite !andb_true_iff, !Z.leb_le. intros Hx Ha Hk.
  assert (∀ z, - max_amount <= z <= max_amount → in_i64 z) as Hin by (unfold max_amount, in_i64; lia).
  assert (in_i64 (amount x + amount a) ∧ in_i64 (amount x - amount a)) as [Hs Hd]
    by (unfold max_amount, in_i64 in *; lia).
  split_and!; intros r.
  - unfold asset_add. rewrite i64_small by done. split.
    + intros H. inv_ok. by reflect_bools.
    + intros (E & Hr & ->). rewrite (proj2 (Z.eqb_eq _ _) E). simpl. rewrite !(proj2 (Z.leb_le _ _)) by lia. done.
  - unfold asset_sub. rewrite i64_small by done. split.
    + intros H. inv_ok. by reflect_bools.
    + intros (E & Hr & ->). rewrite (proj2 (Z.eqb_eq _ _) E). simpl. rewrite !(proj2 (Z.leb_le _ _)) by lia. done.
  - unfold asset_mul. split.
    + intros H. inv_ok. reflect_bools. by rewrite i64_small by auto.
    + intros (Hr & ->). rewrite !(proj2 (Z.leb_le _ _)) by lia. simpl. by rewrite i64_small by auto.
  - unfold asset_div. assert ((amount x =? - 2 ^ 63) = false) as E by (apply Z.eqb_neq; unfold max_amount in Hx; lia).
    rewrite E. simpl. split.
    + intros H. inv_ok. by reflect_bools.
    + intros (Hk0 & ->). rewrite (proj2 (Z.eqb_neq _ _) Hk0). done.
Qed.

Lemma asset_arithmetic_exact_witness :
  (∀ r, asset_add (Asset 5 260) (Asset 7 260) = Ok r ↔
     260 = 260 ∧ - max_amount <= 5 + 7 <= max_amount ∧ r = Asset (5 + 7) 260) ∧
  asset_add (Asset 5 260) (Asset 7 260) = Ok (Asset 12 260).
Proof.
  destruct (asset_arithmetic_exact (Asset 5 260) (Asset 7 260) 3) as (H & _); [reflexivity|reflexivity|done|].
  split; [exact H|reflexivity].
Defined.
