(* ===== verification/Token.v ===== *)
(** * The token contract

    Models contracts/dimension.token: the tables of currencies and balances, and the actions create,
    issue and transfer.  An action returns the inline actions that it sends; these run after it, in
    the same transaction.

    Results: for every currency the balances always add up to the supply, which stays within the
    maximum supply; a transfer moves exactly its quantity, and only the owner can spend. *)

From S2P Require Import Prelude Dimensionlib.

Record currency_stats := CurrencyStats {
  supply : asset;
  max_supply : asset;
  issuer : Z;
}.

(** The table stat has one row in the scope of each symbol name; the rows of accounts are in the scope
    of their owner, by symbol name. *)
Record token_state := TokenState {
  stats : table Z currency_stats;
  accounts : table (Z * Z) asset;
}.
Definition set_stats (s : token_state) (t : table Z currency_stats) : token_state := TokenState t (accounts s).
Definition set_accounts (s : token_state) (t : table (Z * Z) asset) : token_state := TokenState (stats s) t.

(** Arguments of the action transfer, with the account whose active permission it carries. *)
Record transfer_args := TransferArgs {
  tr_from : Z;
  tr_to : Z;
  tr_quantity : asset;
  tr_memo : list Z;
}.

(** [memo.size() <= 256] *)
Definition short_memo (memo : list Z) : bool := Z.of_nat (length memo) <=? 256.

Definition create (env : contract_env) (issuer : Z) (maximum_supply : asset) (s : token_state)
    : result token_state :=
  _ ← require_auth env (self env);
  let sym := symbol maximum_supply in
  _ ← eosio_assert (is_valid_symbol sym);
  _ ← eosio_assert (is_valid maximum_supply);
  _ ← eosio_assert (0 <? amount maximum_supply);
  _ ← eosio_assert (bool_decide (find (stats s) (symbol_name sym) = None));
  t ← emplace (self env) (symbol_name sym) (CurrencyStats (Asset 0 sym) maximum_supply issuer) (stats s);
  mret (set_stats s t).

Definition sub_balance (owner : Z) (value : asset) (s : token_state) : result token_state :=
  let k := (owner, symbol_name (symbol value)) in
  from ← get (accounts s) k;
  _ ← eosio_assert (amount value <=? amount from);
  t ← (if amount from =? amount value then erase k (accounts s)
       else modify owner k (λ a, asset_sub a value) (accounts s));
  mret (set_accounts s t).

Definition add_balance (owner : Z) (value : asset) (ram_payer : Z) (s : token_state) : result token_state :=
  let k := (owner, symbol_name (symbol value)) in
  t ← (match find (accounts s) k with
       | None => emplace ram_payer k value (accounts s)
       | Some _ => modify 0 k (λ a, asset_add a value) (accounts s)
       end);
  mret (set_accounts s t).

(** The state and the inline transfers. *)
Definition issue (env : contract_env) (to : Z) (quantity : asset) (memo : list Z) (s : token_state)
    : result (token_state * list transfer_args) :=
  let sym := symbol quantity in
  _ ← eosio_assert (is_valid_symbol sym);
  _ ← eosio_assert (short_memo memo);
  let sym_name := symbol_name sym in
  st ← get (stats s) sym_name;
  _ ← require_auth env (issuer st);
  _ ← eosio_assert (is_valid quantity);
  _ ← eosio_assert (0 <? amount quantity);
  _ ← eosio_assert (symbol quantity =? symbol (supply st));
  _ ← eosio_assert (amount quantity <=? i64 (amount (max_supply st) - amount (supply st)));
  t ← modify 0 sym_name (λ c, x ← asset_add (supply c) quantity;
        mret (CurrencyStats x (max_supply c) (issuer c))) (stats s);
  s ← add_balance (issuer st) quantity (issuer st) (set_stats s t);
  mret (s, if negb (to =? issuer st) then [TransferArgs (issuer st) to quantity memo] else []).

Definition transfer (env : contract_env) (from to : Z) (quantity : asset) (memo : list Z) (s : token_state)
    : result token_state :=
  _ ← eosio_assert (negb (from =? to));
  _ ← require_auth env from;
  _ ← eosio_assert (is_account env to);
  let sym := symbol_name (symbol quantity) in
  st ← get (stats s) sym;
  _ ← eosio_assert (is_valid quantity);
  _ ← eosio_assert (0 <? amount quantity);
  _ ← eosio_assert (symbol quantity =? symbol (supply st));
  _ ← eosio_assert (short_memo memo);
  s ← sub_balance from quantity s;
  add_balance to quantity from s.

Definition get_supply (s : token_state) (sym : Z) : result asset := supply <$> get (stats s) sym.
Definition get_balance (s : token_state) (owner sym : Z) : result asset := get (accounts s) (owner, sym).

(** ** Books *)
Definition balance (s : token_state) (owner sym : Z) : Z :=
  match accounts s !! (owner, sym) with Some (_, b) => amount b | None => 0 end.
Definition balance_sum (s : token_state) (sym : Z) : Z :=
  msum (λ k pb, if decide (k.2 = sym) then amount pb.2 else 0) (accounts s).

(** [d] is what the balances of a currency lack: zero between actions. *)
Record token_books (d : Z → Z) (s : token_state) : Prop := {
  tb_stats : ∀ n p st, stats s !! n = Some (p, st) →
    n = symbol_name (symbol (supply st)) ∧ symbol (max_supply st) = symbol (supply st) ∧
    is_valid_symbol (symbol (supply st)) = true ∧
    0 <= amount (supply st) <= amount (max_supply st) ∧ amount (max_supply st) <= max_amount ∧
    balance_sum s n + d n = amount (supply st);
  tb_accounts : ∀ o n p b, accounts s !! (o, n) = Some (p, b) →
    0 < amount b ∧ ∃ q st, stats s !! n = Some (q, st) ∧ symbol b = symbol (supply st);
}.
Definition token_wf : token_state → Prop := token_books (λ _, 0).

Section books.
Implicit Types (s : token_state) (d : Z → Z) (v : asset).

Lemma balance_sum_insert s k p b n :
  balance_sum (set_accounts s (<[k := (p, b)]> (accounts s))) n =
  balance_sum s n + if decide (k.2 = n) then amount b - balance s k.1 k.2 else 0.
Proof.
  unfold balance_sum, balance. simpl. rewrite msum_insert. destruct k as [o m]. simpl.
  destruct (accounts s !! (o, m)) as [[q c]|]; simpl; case_decide; lia.
Qed.

Lemma balance_sum_delete s k n :
  balance_sum (set_accounts s (delete k (accounts s))) n =
  balance_sum s n - if decide (k.2 = n) then balance s k.1 k.2 else 0.
Proof.
  unfold balance_sum, balance. simpl. rewrite msum_delete_any. destruct k as [o m]. simpl.
  destruct (accounts s !! (o, m)) as [[q c]|]; simpl; case_decide; lia.
Qed.

Lemma balance_insert s k p b o n :
  balance (set_accounts s (<[k := (p, b)]> (accounts s))) o n = if decide (k = (o, n)) then amount b else balance s o n.
Proof.
  unfold balance. simpl. case_decide as E; [subst; by rewrite lookup_insert_eq|by rewrite lookup_insert_ne].
Qed.

Lemma balance_delete s k o n :
  balance (set_accounts s (delete k (accounts s))) o n = if decide (k = (o, n)) then 0 else balance s o n.
Proof.
  unfold balance. simpl. case_decide as E; [subst; by rewrite lookup_delete_eq|by rewrite lookup_delete_ne].
Qed.

Lemma balance_nonneg d s o n : token_books d s → 0 <= balance s o n.
Proof.
  intros Hb. unfold balance. destruct (accounts s !! _) as [[p b]|] eqn:E; [|done].
  apply (tb_accounts _ _ Hb) in E. lia.
Qed.

Lemma balance_le_sum d s o n : token_books d s → balance s o n <= balance_sum s n.
Proof.
  intros Hb. unfold balance. destruct (accounts s !! (o, n)) as [[p b]|] eqn:E.
  - unfold balance_sum.
    pose proof (msum_delete (λ k pb, if decide (k.2 = n) then amount pb.2 else 0) _ _ _ E) as Hd.
    simpl in Hd. rewrite decide_True in Hd by done. rewrite Hd.
    enough (0 <= msum (λ k pb, if decide (k.2 = n) then amount pb.2 else 0) (delete (o, n) (accounts s))) by lia.
    apply msum_nonneg_in. intros [o' n'] [q c] [_ Hc]%lookup_delete_Some. simpl. case_decide; [|done].
    apply (tb_accounts _ _ Hb) in Hc. lia.
  - apply msum_nonneg_in. intros [o' n'] [q c] Hc. simpl. case_decide; [|done].
    apply (tb_accounts _ _ Hb) in Hc. lia.
Qed.

(** A row replaced by one of the same currency. *)
Lemma books_insert d s o p b q st :
  token_books d s → 0 < amount b → stats s !! symbol_name (symbol b) = Some (q, st) →
  symbol b = symbol (supply st) →
  token_books (λ n, d n - if decide (n = symbol_name (symbol b))
                          then amount b - balance s o (symbol_name (symbol b)) else 0)
    (set_accounts s (<[(o, symbol_name (symbol b)) := (p, b)]> (accounts s))).
Proof.
  intros Hb Hpos Hst Hsym. split; simpl.
  - intros n q' st' Hst'. destruct (tb_stats _ _ Hb _ _ _ Hst') as (? & ? & ? & ? & ? & Hsum).
    split_and!; try done. all: try lia. rewrite balance_sum_insert. simpl. repeat case_decide; subst; try done; lia.
  - intros o' n' p' b' [[[= <- <-] [= <- <-]]|[_ Hb']]%lookup_insert_Some; [|by eapply tb_accounts].
    split; [done|]. by exists q, st.
Qed.

Lemma books_delete d s o n :
  token_books d s →
  token_books (λ i, d i + if decide (i = n) then balance s o n else 0)
    (set_accounts s (delete (o, n) (accounts s))).
Proof.
  intros Hb. split; simpl.
  - intros i q' st' Hst'. destruct (tb_stats _ _ Hb _ _ _ Hst') as (? & ? & ? & ? & ? & Hsum).
    split_and!; try done. all: try lia. rewrite balance_sum_delete. simpl. repeat case_decide; subst; try done; lia.
  - intros o' n' p' b' [_ Hb']%lookup_delete_Some. by eapply tb_accounts.
Qed.

Lemma books_ext d d' s : (∀ n, d n = d' n) → token_books d s → token_books d' s.
Proof. intros E []. split; [|done]. intros n p st Hst. rewrite <-E. by eapply tb_stats0. Qed.

Lemma i64_amount x : - 2 * max_amount <= x <= 2 * max_amount → i64 x = x.
Proof. unfold max_amount. intros ?. apply i64_small. unfold in_i64. lia. Qed.

Lemma sub_balance_spec d s o v s' q st :
  token_books d s → 0 < amount v → stats s !! symbol_name (symbol v) = Some (q, st) →
  symbol v = symbol (supply st) → (∀ n, 0 <= d n) → sub_balance o v s = Ok s' →
  amount v <= balance s o (symbol_name (symbol v)) ∧ stats s' = stats s ∧
  token_books (λ n, d n + if decide (n = symbol_name (symbol v)) then amount v else 0) s' ∧
  ∀ o' n', balance s' o' n' =
    balance s o' n' - if decide ((o, symbol_name (symbol v)) = (o', n')) then amount v else 0.
Proof.
  intros Hb Hv Hst Hsym Hd H. unfold sub_balance, get, find in H. inv_ok. set (n := symbol_name (symbol v)) in *.
  apply fmap_Some in Hrun as ([p b] & Hk & ->). reflect_bools. simpl in *.
  assert (balance s o n = amount b) as Ebal by (unfold balance; by rewrite Hk).
  split; [by rewrite Ebal|].
  destruct (tb_accounts _ _ Hb _ _ _ _ Hk) as (Hpos & q' & st' & Hst' & Hbs).
  rewrite Hst in Hst'. injection Hst' as <- <-.
  destruct (amount b =? amount v) eqn:E; reflect_bools.
  - unfold erase in Hrun1. inv_ok. split; [done|]. split.
    + eapply books_ext; [|apply (books_delete d s o n Hb)]. intros i. simpl. case_decide; lia.
    + intros o' n'. rewrite balance_delete. case_decide as E'; [|lia]. injection E' as <- <-. lia.
  - unfold modify in Hrun1. inv_ok. rewrite Hk in Hrun. injection Hrun as <-. inv_ok.
    unfold asset_sub in *. inv_ok.  reflect_bools.
    pose proof (balance_le_sum d s o n Hb). pose proof (tb_stats _ _ Hb _ _ _ Hst) as (_ & _ & _ & ? & ? & ?).
    specialize (Hd n).
    assert (i64 (amount b - amount v) = amount b - amount v) as Ei by (apply i64_amount; unfold max_amount in *; lia).
    rewrite Ei in *. split; [done|].
    assert (symbol_name (symbol b) = n) as En by (unfold n; by rewrite Hbs, Hsym).
    split.
    + pose proof (books_insert d s o (if o =? 0 then p else o) (Asset (amount b - amount v) (symbol b)) q st Hb) as Hi.
      simpl in Hi. rewrite En in Hi. eapply books_ext; [|apply Hi; [lia|done|done]].
      intros i. simpl. case_decide; lia.
    + intros o' n'. rewrite balance_insert. case_decide as E'; [|lia]. injection E' as <- <-. simpl. lia.
Qed.

Lemma add_balance_spec d s o v p s' q st :
  token_books d s → 0 < amount v → stats s !! symbol_name (symbol v) = Some (q, st) →
  symbol v = symbol (supply st) → (∀ n, 0 <= d n) → amount v <= d (symbol_name (symbol v)) →
  add_balance o v p s = Ok s' →
  stats s' = stats s ∧
  token_books (λ n, d n - if decide (n = symbol_name (symbol v)) then amount v else 0) s' ∧
  ∀ o' n', balance s' o' n' =
    balance s o' n' + if decide ((o, symbol_name (symbol v)) = (o', n')) then amount v else 0.
Proof.
  intros Hb Hv Hst Hsym Hd Hdv H. unfold add_balance, find in H. inv_ok. set (n := symbol_name (symbol v)) in *.
  destruct (accounts s !! (o, n)) as [[q' b]|] eqn:Hk; simpl in Hrun.
  - assert (balance s o n = amount b) as Ebal by (unfold balance; by rewrite Hk).
    destruct (tb_accounts _ _ Hb _ _ _ _ Hk) as (Hpos & q1 & st' & Hst' & Hbs).
    rewrite Hst in Hst'. injection Hst' as <- <-.
    unfold modify in Hrun. inv_ok. rewrite Hk in Hrun0. injection Hrun0 as <-. inv_ok.
    unfold asset_add in *. inv_ok.  reflect_bools.
    pose proof (balance_le_sum d s o n Hb). pose proof (tb_stats _ _ Hb _ _ _ Hst) as (_ & _ & _ & ? & ? & ?).
    assert (i64 (amount b + amount v) = amount b + amount v) as Ei by (apply i64_amount; unfold max_amount in *; lia).
    rewrite Ei in *. split; [done|].
    assert (symbol_name (symbol b) = n) as En by (unfold n; by rewrite Hbs, Hsym).
    split.
    + pose proof (books_insert d s o q' (Asset (amount b + amount v) (symbol b)) q st Hb) as Hi.
      simpl in Hi. rewrite En in Hi. eapply books_ext; [|apply Hi; [lia|done|done]].
      intros i. simpl. case_decide; lia.
    + intros o' n'. rewrite balance_insert. case_decide as E'; [|lia]. injection E' as <- <-. simpl. lia.
  - assert (balance s o n = 0) as Ebal by (unfold balance; by rewrite Hk).
    unfold emplace in Hrun. inv_ok. split; [done|]. split.
    + pose proof (books_insert d s o p v q st Hb Hv Hst Hsym) as Hi. eapply books_ext; [|exact Hi].
      intros i. simpl. fold n. case_decide; lia.
    + intros o' n'. rewrite balance_insert. case_decide as E'; [|lia]. injection E' as <- <-. lia.
Qed.

Lemma sub_balance_total d s o v q st :
  token_books d s → 0 < amount v → stats s !! symbol_name (symbol v) = Some (q, st) →
  symbol v = symbol (supply st) → (∀ n, 0 <= d n) → amount v <= balance s o (symbol_name (symbol v)) →
  ∃ s', sub_balance o v s = Ok s'.
Proof.
  intros Hb Hv Hst Hsym Hd Hle. unfold sub_balance, get, find. set (n := symbol_name (symbol v)) in *.
  unfold balance in Hle. destruct (accounts s !! (o, n)) as [[p b]|] eqn:Hk; [|lia]. simpl.
  rewrite (proj2 (Z.leb_le _ _) Hle). simpl. destruct (amount b =? amount v) eqn:E.
  - unfold erase. rewrite Hk. by eexists.
  - destruct (tb_accounts _ _ Hb _ _ _ _ Hk) as (Hpos & q' & st' & Hst' & Hbs).
    rewrite Hst in Hst'. injection Hst' as <- <-.
    pose proof (balance_le_sum d s o n Hb) as Hsum. pose proof (tb_stats _ _ Hb _ _ _ Hst) as (_ & _ & _ & ? & ? & ?).
    specialize (Hd n). unfold balance in Hsum. rewrite Hk in Hsum. unfold modify, asset_sub. rewrite Hk. simpl.
    rewrite i64_amount by (unfold max_amount in *; lia).
    rewrite (proj2 (Z.eqb_eq _ _) (eq_trans Hsym (eq_sym Hbs))).
    rewrite (proj2 (Z.leb_le _ _)) by (unfold max_amount in *; lia). simpl.
    rewrite (proj2 (Z.leb_le _ _)) by lia. by eexists.
Qed.

Lemma add_balance_total d s o v p q st :
  token_books d s → 0 < amount v → stats s !! symbol_name (symbol v) = Some (q, st) →
  symbol v = symbol (supply st) → (∀ n, 0 <= d n) → amount v <= d (symbol_name (symbol v)) →
  ∃ s', add_balance o v p s = Ok s'.
Proof.
  intros Hb Hv Hst Hsym Hd Hle. unfold add_balance, find. set (n := symbol_name (symbol v)) in *.
  destruct (accounts s !! (o, n)) as [[q' b]|] eqn:Hk; simpl.
  - destruct (tb_accounts _ _ Hb _ _ _ _ Hk) as (Hpos & q1 & st' & Hst' & Hbs).
    rewrite Hst in Hst'. injection Hst' as <- <-.
    pose proof (balance_le_sum d s o n Hb) as Hsum. pose proof (tb_stats _ _ Hb _ _ _ Hst) as (_ & _ & _ & ? & ? & ?).
    unfold balance in Hsum. rewrite Hk in Hsum. unfold modify, asset_add. rewrite Hk. simpl.
    rewrite i64_amount by (unfold max_amount in *; lia).
    rewrite (proj2 (Z.eqb_eq _ _) (eq_trans Hsym (eq_sym Hbs))).
    rewrite (proj2 (Z.leb_le _ _)) by (unfold max_amount in *; lia). simpl.
    rewrite (proj2 (Z.leb_le _ _)) by lia. by eexists.
  - unfold emplace. rewrite bool_decide_eq_true_2 by done. by eexists.
Qed.
End books.

(** ** Actions *)
Inductive token_action :=
| Create (issuer : Z) (maximum_supply : asset)
| Issue (to : Z) (quantity : asset) (memo : list Z)
| Transfer (args : transfer_args).

(** EOSIO_ABI( eosio::token, (create)(issue)(transfer) ) *)
Definition token_run (env : contract_env) (a : token_action) (s : token_state)
    : result (token_state * list transfer_args) :=
  match a with
  | Create issuer maximum_supply => s ← create env issuer maximum_supply s; mret (s, [])
  | Issue to quantity memo => issue env to quantity memo s
  | Transfer t => s ← transfer env (tr_from t) (tr_to t) (tr_quantity t) (tr_memo t) s; mret (s, [])
  end.

Inductive token_step (s s' : token_state) : Prop :=
| token_step_run env a inline : token_run env a s = Ok (s', inline) → token_step s s'.

Definition token_empty : token_state := TokenState ∅ ∅.

Section token.
Implicit Types (s : token_state).

Lemma token_wf_empty : token_wf token_empty.
Proof. split; intros * Hk; discriminate Hk. Qed.

Lemma create_spec env i m s s' :
  token_wf s → create env i m s = Ok s' →
  token_wf s' ∧ find (stats s) (symbol_name (symbol m)) = None ∧ self env ∈ authorized env ∧
  accounts s' = accounts s ∧
  stats s' = <[symbol_name (symbol m) := (self env, CurrencyStats (Asset 0 (symbol m)) m i)]> (stats s).
Proof.
  intros Hb H. unfold create, emplace, require_auth in H. inv_ok. reflect_bools.
  unfold is_valid, is_amount_within_range in *. reflect_bools.
  split_and!; try done. split; simpl.
  - intros n p st [[<- [= <- <-]]|[Hne Hst]]%lookup_insert_Some; [|by apply (tb_stats _ _ Hb _ _ _ Hst)].
    simpl. split_and!; try done. all: try lia.
    unfold balance_sum. simpl. rewrite msum_zero; [done|]. intros [o n] [q b] Hk. simpl. case_decide; [|done]. subst n.
    destruct (tb_accounts _ _ Hb _ _ _ _ Hk) as (_ & q' & st & Hst & _). congruence.
  - intros o n p b Hk. destruct (tb_accounts _ _ Hb _ _ _ _ Hk) as (? & q & st & Hst & ?).
    split; [done|]. exists q, st. rewrite lookup_insert_ne; [done|]. intros <-. congruence.
Qed.

Lemma transfer_spec env from to v memo s s' :
  token_wf s → transfer env from to v memo s = Ok s' →
  from ≠ to ∧ from ∈ authorized env ∧ is_account env to = true ∧ short_memo memo = true ∧
  (∃ st, find (stats s) (symbol_name (symbol v)) = Some st ∧ symbol v = symbol (supply st)) ∧
  0 < amount v <= balance s from (symbol_name (symbol v)) ∧
  token_wf s' ∧ stats s' = stats s ∧
  ∀ o n, balance s' o n = balance s o n -
    (if decide ((from, symbol_name (symbol v)) = (o, n)) then amount v else 0) +
    (if decide ((to, symbol_name (symbol v)) = (o, n)) then amount v else 0).
Proof.
  intros Hb H. unfold transfer, require_auth in H. inv_ok. reflect_bools.
  rename select (get _ _ = _) into Hst. apply get_ok in Hst. pose proof Hst as [q Hst']%find_Some.
  rename select (sub_balance _ _ _ = _) into Hs.
  apply (sub_balance_spec _ _ _ _ _ q r2 Hb) in Hs as (Hle & Est & Hb1 & Hbal1); try done.
  apply (add_balance_spec _ _ _ _ _ _ q r2 Hb1) in H as (Est2 & Hb2 & Hbal2); try done.
  2: by rewrite Est. 2: { intros n. case_decide; lia. } 2: { rewrite decide_True by done. lia. }
  split_and!; try done.
  - eauto.
  - eapply books_ext; [|exact Hb2]. intros n. simpl. case_decide; lia.
  - congruence.
  - intros o n. rewrite Hbal2, Hbal1. lia.
Qed.

Lemma issue_spec env to v memo s s' inline :
  token_wf s → issue env to v memo s = Ok (s', inline) →
  token_wf s' ∧ ∃ p st, stats s !! symbol_name (symbol v) = Some (p, st) ∧
    issuer st ∈ authorized env ∧ symbol v = symbol (supply st) ∧ 0 < amount v ∧
    amount (supply st) + amount v <= amount (max_supply st) ∧
    stats s' = <[symbol_name (symbol v) := (p, CurrencyStats (Asset (amount (supply st) + amount v) (symbol v))
                                                 (max_supply st) (issuer st))]> (stats s) ∧
    inline = (if negb (to =? issuer st) then [TransferArgs (issuer st) to v memo] else []) ∧
    ∀ o n, balance s' o n = balance s o n +
      if decide ((issuer st, symbol_name (symbol v)) = (o, n)) then amount v else 0.
Proof.
  intros Hb H. unfold issue, require_auth in H. inv_ok. reflect_bools.
  rename select (get _ _ = _) into Hst. apply get_ok, find_Some in Hst as [p Hst].
  rename select (modify _ _ _ _ = _) into Hm. unfold modify in Hm. rewrite Hst in Hm. simpl in Hm. inv_ok.
  unfold asset_add in *. inv_ok. reflect_bools.
  destruct (tb_stats _ _ Hb _ _ _ Hst) as (En & Hmax & Hval & Hs & Hm & Hsum).
  assert (i64 (amount (max_supply r1) - amount (supply r1)) = amount (max_supply r1) - amount (supply r1)) as E1
    by (apply i64_amount; unfold max_amount in *; lia).
  assert (i64 (amount (supply r1) + amount v) = amount (supply r1) + amount v) as E2
    by (apply i64_amount; unfold max_amount in *; lia).
  rewrite E1, E2 in *. rename select (add_balance _ _ _ _ = _) into Hadd.
  assert (token_books (λ n, if decide (n = symbol_name (symbol v)) then amount v else 0)
    (set_stats s (<[symbol_name (symbol v) := (p, CurrencyStats (Asset (amount (supply r1) + amount v)
       (symbol (supply r1))) (max_supply r1) (issuer r1))]> (stats s)))) as Hb1.
  { split; simpl.
    - intros n q st [[<- [= <- <-]]|[Hne Hst']]%lookup_insert_Some.
      + simpl. rewrite decide_True by done. change (balance_sum (set_stats _ _)) with (balance_sum s).
        split_and!; try done. all: lia.
      + rewrite decide_False by done. apply (tb_stats _ _ Hb _ _ _ Hst').
    - intros o n q b Hk. destruct (tb_accounts _ _ Hb _ _ _ _ Hk) as (? & q' & st & Hst' & ?).
      split; [done|]. destruct (decide (n = symbol_name (symbol v))) as [->|Hne].
      + eexists _, _. rewrite lookup_insert_eq. split; [done|]. simpl. congruence.
      + exists q', st. by rewrite lookup_insert_ne. }
  apply (add_balance_spec _ _ _ _ _ _ p (CurrencyStats (Asset (amount (supply r1) + amount v)
    (symbol (supply r1))) (max_supply r1) (issuer r1)) Hb1) in Hadd as (Est & Hb2 & Hbal); try done.
  2: { simpl. by rewrite lookup_insert_eq. } 2: { intros n. case_decide; lia. }
  2: { by rewrite decide_True. }
  split; [eapply books_ext; [|exact Hb2]; intros n; simpl; case_decide; lia|].
  exists p, r1. split_and!; try done; [lia|]. by rewrite Est, Hrun5.
Qed.

Lemma token_run_wf env a s s' inline : token_wf s → token_run env a s = Ok (s', inline) → token_wf s'.
Proof.
  intros Hb H. destruct a as [i m|to v memo|[from to v memo]]; simpl in H.
  - inv_ok. by apply create_spec in Hrun as [? _].
  - by apply issue_spec in H as [? _].
  - inv_ok. by apply transfer_spec in Hrun as (_ & _ & _ & _ & _ & _ & ? & _).
Qed.

(** A currency keeps its symbol, its maximum and its issuer, and its supply does not decrease. *)
Lemma token_run_stats env a s s' inline n st :
  token_wf s → token_run env a s = Ok (s', inline) → find (stats s) n = Some st →
  ∃ st', find (stats s') n = Some st' ∧ symbol (supply st') = symbol (supply st) ∧
    max_supply st' = max_supply st ∧ issuer st' = issuer st ∧ amount (supply st) <= amount (supply st').
Proof.
  intros Hb H Hst. destruct a as [i m|to v memo|[from to v memo]]; simpl in H.
  - inv_ok. apply create_spec in Hrun as (_ & Hno & _ & _ & ->); [|done]. exists st. split; [|done].
    unfold find in *. rewrite lookup_insert_ne; [done|]. intros <-. congruence.
  - apply issue_spec in H as (_ & p & c & Hc & _ & Hsym & Hpos & _ & -> & _); [|done].
    destruct (decide (n = symbol_name (symbol v))) as [->|Hne].
    + unfold find in *. rewrite Hc in Hst. injection Hst as <-. rewrite lookup_insert_eq. eexists. split; [done|].
      simpl. split_and!; try done. lia.
    + exists st. unfold find. by rewrite lookup_insert_ne.
  - inv_ok. apply transfer_spec in Hrun as (_ & _ & _ & _ & _ & _ & _ & -> & _); [|done]. by exists st.
Qed.
(** A transfer that the sender authorized and can pay. *)
Lemma transfer_total env from to v memo s st :
  token_wf s → from ≠ to → from ∈ authorized env → is_account env to = true → short_memo memo = true →
  find (stats s) (symbol_name (symbol v)) = Some st → symbol v = symbol (supply st) →
  0 < amount v <= balance s from (symbol_name (symbol v)) → ∃ s', transfer env from to v memo s = Ok s'.
Proof.
  intros Hwf Hne Hauth Hacc Hmemo Hst Hsym [Hpos Hle]. pose proof Hst as [q Hst']%find_Some.
  destruct (tb_stats _ _ Hwf _ _ _ Hst') as (_ & _ & Hval & ? & ? & Hsum).
  pose proof (balance_le_sum _ _ from (symbol_name (symbol v)) Hwf).
  destruct (sub_balance_total _ s from v q st Hwf Hpos Hst' Hsym ltac:(done) Hle) as [s1 Hs].
  destruct (sub_balance_spec _ _ _ _ _ _ _ Hwf Hpos Hst' Hsym ltac:(done) Hs) as (_ & Est & Hb1 & _).
  destruct (add_balance_total _ s1 to v from q st Hb1) as [s2 Ha]; try done.
  { by rewrite Est. } { intros n. case_decide; lia. } { rewrite decide_True by done. lia. }
  unfold transfer, require_auth, get. rewrite (bool_decide_eq_true_2 _ Hauth), Hacc, Hmemo, Hst.
  rewrite (proj2 (Z.eqb_neq _ _) Hne), (proj2 (Z.ltb_lt _ _) Hpos). simpl.
  rewrite (proj2 (Z.eqb_eq _ _) Hsym).
  assert (is_valid v = true) as ->.
  { unfold is_valid, is_amount_within_range. rewrite Hsym, Hval, !andb_true_iff, !Z.leb_le.
    unfold max_amount in *. lia. }
  simpl. rewrite Hs. simpl. rewrite Ha. by eexists.
Qed.
End token.

(** C28: Conservation of tokens: after any sequence of create, issue and transfer actions the balances
    of every currency add up to its supply, no balance is negative, and the supply is within the
    maximum supply, which is within the range of assets. *)
Theorem token_conservation s :
  rtc token_step token_empty s →
  ∀ n st, find (stats s) n = Some st →
    balance_sum s n = amount (supply st) ∧
    0 <= amount (supply st) <= amount (max_supply st) ∧ amount (max_supply st) <= max_amount ∧
    ∀ o, 0 <= balance s o n <= amount (supply st).
Proof.
  intros Hr. assert (token_wf s) as Hwf.
  { apply (rtc_preserves token_step token_wf token_empty); [|apply token_wf_empty|done].
    intros y z Hy [env a inline Hrun]. by eapply token_run_wf. }
  intros n st [p Hst]%find_Some. destruct (tb_stats _ _ Hwf _ _ _ Hst) as (_ & _ & _ & ? & ? & Hsum).
  split_and!; try lia. intros o.
  pose proof (balance_nonneg _ _ o n Hwf). pose proof (balance_le_sum _ _ o n Hwf). lia.
Qed.

(** A transfer succeeds exactly when the sender authorized it, is not the receiver, the receiver
    exists, and the quantity is a positive amount of an existing currency that the sender has; it
    moves that quantity and changes no other balance. *)
Theorem transfer_exact env from to v memo s :
  token_wf s →
  (is_ok (transfer env from to v memo s) = true ↔
     from ≠ to ∧ from ∈ authorized env ∧ is_account env to = true ∧ short_memo memo = true ∧
     (∃ st, find (stats s) (symbol_name (symbol v)) = Some st ∧ symbol v = symbol (supply st)) ∧
     0 < amount v <= balance s from (symbol_name (symbol v))) ∧
  ∀ s', transfer env from to v memo s = Ok s' →
    stats s' = stats s ∧ ∀ o n, balance s' o n = balance s o n -
      (if decide ((from, symbol_name (symbol v)) = (o, n)) then amount v else 0) +
      (if decide ((to, symbol_name (symbol v)) = (o, n)) then amount v else 0).
Proof.
  intros Hwf. split; [split|].
  - destruct (transfer _ _ _ _ _ _) as [s'|] eqn:E; [|done]. intros _.
    apply transfer_spec in E as (? & ? & ? & ? & ? & ? & _); done.
  - intros (? & ? & ? & ? & (st & ? & ?) & ?). destruct (transfer_total env from to v memo s st) as [s' ->]; done.
  - intros s' (? & ? & ? & ? & ? & ? & ? & ? & ?)%transfer_spec; done.
Qed.

(** ** A concrete currency *)
Definition toy_sym : Z := Eval vm_compute in string_to_symbol 4 [69; 79; 78].
Definition toy_token_env (auths : list Z) : contract_env := ContractEnv 100 auths (λ _, true) 0 0.
Definition toy_token1 : token_state := Eval vm_compute in
  match create (toy_token_env [100]) 1 (Asset 1000 toy_sym) token_empty with Ok s => s | _ => token_empty end.
Definition toy_token2 : token_state := Eval vm_compute in
  match issue (toy_token_env [1]) 1 (Asset 300 toy_sym) [] toy_token1 with Ok (s, _) => s | _ => token_empty end.
Definition toy_token3 : token_state := Eval vm_compute in
  match transfer (toy_token_env [1]) 1 2 (Asset 100 toy_sym) [] toy_token2 with Ok s => s | _ => token_empty end.

Lemma toy_token_steps : rtc token_step token_empty toy_token2.
Proof.
  apply rtc_l with toy_token1.
  - apply (token_step_run _ _ (toy_token_env [100]) (Create 1 (Asset 1000 toy_sym)) []). vm_compute. reflexivity.
  - apply rtc_once, (token_step_run _ _ (toy_token_env [1]) (Issue 1 (Asset 300 toy_sym) []) []). vm_compute. reflexivity.
Qed.

Lemma token_conservation_witness :
  balance_sum toy_token3 (symbol_name toy_sym) = 300 ∧ balance toy_token3 2 (symbol_name toy_sym) = 100 ∧
  0 <= balance toy_token3 2 (symbol_name toy_sym) <= 300.
Proof.
  assert (rtc token_step token_empty toy_token3) as Hr.
  { eapply rtc_r; [exact toy_token_steps|].
    apply (token_step_run _ _ (toy_token_env [1]) (Transfer (TransferArgs 1 2 (Asset 100 toy_sym) [])) []).
    vm_compute. reflexivity. }
  destruct (token_conservation toy_token3 Hr (symbol_name toy_sym)
    (CurrencyStats (Asset 300 toy_sym) (Asset 1000 toy_sym) 1)) as (Hsum & _ & _ & Hbal); [reflexivity|].
  split; [exact Hsum|]. split; [reflexivity|]. apply Hbal.
Defined.

Lemma transfer_exact_witness :
  transfer (toy_token_env [1]) 1 2 (Asset 100 toy_sym) [] toy_token2 = Ok toy_token3 ∧
  balance toy_token3 1 (symbol_name toy_sym) = balance toy_token2 1 (symbol_name toy_sym) - 100 + 0.
Proof.
  assert (Hwf : token_wf toy_token2).
  { apply (rtc_preserves token_step token_wf token_empty); [|apply token_wf_empty|apply toy_token_steps].
    intros y z Hy [env a inline Hrun]. by eapply token_run_wf. }
  assert (H : transfer (toy_token_env [1]) 1 2 (Asset 100 toy_sym) [] toy_token2 = Ok toy_token3) by (vm_compute; reflexivity).
  destruct (transfer_exact (toy_token_env [1]) 1 2 (Asset 100 toy_sym) [] toy_token2 Hwf) as [_ Hs].
  split; [exact H|]. destruct (Hs _ H) as [_ ->]. reflexivity.
Defined.
