(* ===== verification/RamMarket.v ===== *)
(** * The RAM market

    Models contracts/dimension.system/exchange_state.{hpp,cpp}, the Bancor relay between RAM and the core
    token that the system contract trades on, with doubles as IEEE binary64 numbers (SpecFloat) that
    are rounded to nearest even, as softfloat does.  The power function of the C library is a
    parameter.

    Results: a conversion between any two of the three symbols takes at most two steps; it never
    creates connector balances from nothing: what it returns has left the target connector and
    what was put in is in the source connector. *)

From Stdlib Require Import SpecFloat.
From S2P Require Import Prelude Dimensionlib.

(** ** Doubles *)
Definition double := spec_float.
Definition dadd : double → double → double := SFadd 53 1024.
Definition dsub : double → double → double := SFsub 53 1024.
Definition dmul : double → double → double := SFmul 53 1024.
Definition ddiv : double → double → double := SFdiv 53 1024.
Definition dopp : double → double := SFopp.
Definition dabs : double → double := SFabs.
Definition dltb : double → double → bool := SFltb.
Definition dleb : double → double → bool := SFleb.
(** The conversion of an integer. *)
Definition of_int (z : Z) : double := binary_normalize 53 1024 z 0 false.
Definition d0 : double := S754_zero false.

(** [int64_t( d )]: truncation, which traps when the value does not fit. *)
Definition to_int64 (d : double) : result Z :=
  match d with
  | S754_zero _ => mret 0
  | S754_finite s m e =>
      let n := if 0 <=? e then Zpos m * 2 ^ e else Zpos m / 2 ^ (- e) in
      let z := if s then - n else n in
      _ ← EOS_ASSERT ((- 2 ^ 63 <=? z) && (z <? 2 ^ 63)) wasm_execution_error;
      mret z
  | _ => Throw wasm_execution_error
  end.

(** [std::pow] *)
Class Libm := { pow : double → double → double }.

(** The symbol of the core token is chosen when the contracts are built (core_symbol.hpp.in); it is a
    symbol, and neither S(0,RAM) nor S(4,RAMCORE). *)
Definition RAM : Z := Eval vm_compute in string_to_symbol 0 [82; 65; 77].
Definition RAMCORE : Z := Eval vm_compute in string_to_symbol 4 [82; 65; 77; 67; 79; 82; 69].
Class CoreSymbol := {
  CORE_SYMBOL : Z;
  core_symbol_valid : is_valid_symbol CORE_SYMBOL = true;
  core_symbol_other : CORE_SYMBOL ≠ RAM ∧ CORE_SYMBOL ≠ RAMCORE;
}.

(** ** exchange_state *)
Record connector := Connector {
  c_balance : asset;
  c_weight : double;
}.
Record exchange_state := ExchangeState {
  ex_supply : asset;
  ex_base : connector;
  ex_quote : connector;
}.

Section exchange.
Context {LM : Libm}.

(** The new supply and connector, and the asset that is returned. *)
Definition convert_to_exchange (sup : asset) (c : connector) (inp : asset)
    : result (asset * connector * asset) :=
  let R := of_int (amount sup) in
  let C := of_int (i64 (amount (c_balance c) + amount inp)) in
  let F := ddiv (c_weight c) (of_int 1000) in
  let T := of_int (amount inp) in
  let ONE := of_int 1 in
  let E := dmul (dopp R) (dsub ONE (pow (dadd ONE (ddiv T C)) F)) in
  issued ← to_int64 E;
  let sup' := Asset (i64 (amount sup + issued)) (symbol sup) in
  let c' := Connector (Asset (i64 (amount (c_balance c) + amount inp)) (symbol (c_balance c))) (c_weight c) in
  out ← new_asset issued (symbol sup);
  mret (sup', c', out).

Definition convert_from_exchange (sup : asset) (c : connector) (inp : asset)
    : result (asset * connector * asset) :=
  _ ← eosio_assert (symbol inp =? symbol sup);
  let R := of_int (i64 (amount sup - amount inp)) in
  let C := of_int (amount (c_balance c)) in
  let F := ddiv (of_int 1000) (c_weight c) in
  let E := of_int (amount inp) in
  let ONE := of_int 1 in
  let T := dmul C (dsub (pow (dadd ONE (ddiv E R)) F) ONE) in
  out ← to_int64 T;
  let sup' := Asset (i64 (amount sup - amount inp)) (symbol sup) in
  let c' := Connector (Asset (i64 (amount (c_balance c) - out)) (symbol (c_balance c))) (c_weight c) in
  r ← new_asset out (symbol (c_balance c));
  mret (sup', c', r).

Definition with_base (x : exchange_state) (r : asset * connector * asset) : exchange_state * asset :=
  let '(sup, c, out) := r in (ExchangeState sup c (ex_quote x), out).
Definition with_quote (x : exchange_state) (r : asset * connector * asset) : exchange_state * asset :=
  let '(sup, c, out) := r in (ExchangeState sup (ex_base x) c, out).

(** One step of [convert]. *)
Definition convert_step (x : exchange_state) (from : asset) (to : Z) : result (exchange_state * asset) :=
  let sell_symbol := symbol from in
  let ex_symbol := symbol (ex_supply x) in
  let base_symbol := symbol (c_balance (ex_base x)) in
  let quote_symbol := symbol (c_balance (ex_quote x)) in
  if negb (sell_symbol =? ex_symbol) then
    if sell_symbol =? base_symbol then with_base x <$> convert_to_exchange (ex_supply x) (ex_base x) from
    else if sell_symbol =? quote_symbol then with_quote x <$> convert_to_exchange (ex_supply x) (ex_quote x) from
    else Throw eosio_assert_message_exception
  else
    if to =? base_symbol then with_base x <$> convert_from_exchange (ex_supply x) (ex_base x) from
    else if to =? quote_symbol then with_quote x <$> convert_from_exchange (ex_supply x) (ex_quote x) from
    else Throw eosio_assert_message_exception.

(** The recursion; two levels are enough (see [convert_terminates]). *)
Fixpoint convert_fuel (n : nat) (x : exchange_state) (from : asset) (to : Z) : result (exchange_state * asset) :=
  match n with
  | O => Throw out_of_fuel
  | S n =>
      '(x, from) ← convert_step x from to;
      if negb (to =? symbol from) then convert_fuel n x from to else mret (x, from)
  end.
Definition convert : exchange_state → asset → Z → result (exchange_state * asset) := convert_fuel 3.
End exchange.

(** ** Properties *)
Section conversion.
Context {LM : Libm}.
Implicit Types (x : exchange_state) (from : asset).

Lemma new_asset_ok a s r :
  new_asset a s = Ok r ↔ - max_amount <= a <= max_amount ∧ is_valid_symbol s = true ∧ r = Asset a s.
Proof.
  unfold new_asset, is_amount_within_range. simpl. split.
  - intros H. inv_ok. by reflect_bools.
  - intros (? & -> & ->). rewrite !(proj2 (Z.leb_le _ _)) by lia. done.
Qed.

Lemma convert_to_exchange_ok sup c inp r :
  convert_to_exchange sup c inp = Ok r →
  ∃ issued, - max_amount <= issued <= max_amount ∧
    r = (Asset (i64 (amount sup + issued)) (symbol sup),
         Connector (Asset (i64 (amount (c_balance c) + amount inp)) (symbol (c_balance c))) (c_weight c),
         Asset issued (symbol sup)).
Proof. unfold convert_to_exchange. intros H. inv_ok. apply new_asset_ok in Hrun0 as (? & _ & ->). eauto. Qed.

Lemma convert_from_exchange_ok sup c inp r :
  convert_from_exchange sup c inp = Ok r →
  ∃ out, - max_amount <= out <= max_amount ∧
    r = (Asset (i64 (amount sup - amount inp)) (symbol sup),
         Connector (Asset (i64 (amount (c_balance c) - out)) (symbol (c_balance c))) (c_weight c),
         Asset out (symbol (c_balance c))).
Proof. unfold convert_from_exchange. intros H. inv_ok. apply new_asset_ok in Hrun1 as (? & _ & ->). eauto. Qed.

(** The symbols of an exchange never change. *)
Definition same_symbols x x' : Prop :=
  symbol (ex_supply x') = symbol (ex_supply x) ∧
  symbol (c_balance (ex_base x')) = symbol (c_balance (ex_base x)) ∧
  symbol (c_balance (ex_quote x')) = symbol (c_balance (ex_quote x)).

(** A step sells to the exchange or buys the target from it. *)
Lemma convert_step_ok x from to x' out :
  convert_step x from to = Ok (x', out) →
  same_symbols x x' ∧
  ((symbol from ≠ symbol (ex_supply x) ∧ symbol out = symbol (ex_supply x)) ∨
   (symbol from = symbol (ex_supply x) ∧ symbol out = to)).
Proof.
  unfold convert_step. intros H. destruct (negb _) eqn:E; reflect_bools.
  - destruct (_ =? _) in H; [|destruct (_ =? _) in H; [|done]];
      (destruct (convert_to_exchange _ _ _) as [r|] eqn:Er; [|done]; injection H as H;
       apply convert_to_exchange_ok in Er as (issued & _ & ->); simpl in H; simplify_eq; split; [done|by left]).
  - destruct (_ =? _) eqn:E1 in H; [|destruct (_ =? _) eqn:E2 in H; [|done]]; reflect_bools;
      (destruct (convert_from_exchange _ _ _) as [r|] eqn:Er; [|done]; injection H as H;
       apply convert_from_exchange_ok in Er as (issued & _ & ->); simpl in H; simplify_eq; split; [done|by right]).
Qed.

Lemma fmap_not_throw {A B} (g : A → B) (r : result A) e : r ≠ Throw e → g <$> r ≠ Throw e.
Proof. destruct r; simpl; congruence. Qed.
Lemma bind_not_throw {A B} (r : result A) (g : A → result B) e :
  r ≠ Throw e → (∀ a, g a ≠ Throw e) → r ≫= g ≠ Throw e.
Proof. destruct r; simpl; [auto|congruence]. Qed.
Lemma assert_not_throw c e e' : e ≠ e' → EOS_ASSERT c e ≠ Throw e'.
Proof. destruct c; simpl; congruence. Qed.

Lemma to_int64_returns d : to_int64 d ≠ Throw out_of_fuel.
Proof.
  destruct d; try done. unfold to_int64. apply bind_not_throw; [by apply assert_not_throw|done].
Qed.
Lemma new_asset_returns a s : new_asset a s ≠ Throw out_of_fuel.
Proof. unfold new_asset. repeat (apply bind_not_throw; [by apply assert_not_throw|intros _]). done. Qed.
Lemma to_exchange_returns sup c inp : convert_to_exchange sup c inp ≠ Throw out_of_fuel.
Proof.
  unfold convert_to_exchange. apply bind_not_throw; [apply to_int64_returns|intros issued].
  apply bind_not_throw; [apply new_asset_returns|done].
Qed.
Lemma from_exchange_returns sup c inp : convert_from_exchange sup c inp ≠ Throw out_of_fuel.
Proof.
  unfold convert_from_exchange. apply bind_not_throw; [by apply assert_not_throw|intros _].
  apply bind_not_throw; [apply to_int64_returns|intros out]. apply bind_not_throw; [apply new_asset_returns|done].
Qed.

(** A conversion ends after at most two steps: more fuel than two changes nothing, and the fuel
    never runs out. *)
Theorem convert_terminates n x from to :
  convert_fuel (S (S n)) x from to = convert x from to ∧ convert x from to ≠ Throw out_of_fuel.
Proof.
  assert (∀ x from, convert_step x from to ≠ Throw out_of_fuel) as Hstep.
  { intros y f. unfold convert_step. destruct (negb _).
    - destruct (_ =? _); [apply fmap_not_throw, to_exchange_returns|].
      destruct (_ =? _); [apply fmap_not_throw, to_exchange_returns|done].
    - destruct (_ =? _); [apply fmap_not_throw, from_exchange_returns|].
      destruct (_ =? _); [apply fmap_not_throw, from_exchange_returns|done]. }
  unfold convert. cbn [convert_fuel].
  destruct (convert_step x from to) as [[x1 f1]|e] eqn:E1; simpl; [|split; [done|by rewrite <-E1]].
  apply convert_step_ok in E1 as [Hs E1].
  destruct (to =? symbol f1) eqn:Et; simpl; [done|]. reflect_bools.
  destruct E1 as [[_ Ef]|[_ Ef]]; [|congruence].
  destruct (convert_step x1 f1 to) as [[x2 f2]|e] eqn:E2; simpl; [|split; [done|by rewrite <-E2]].
  apply convert_step_ok in E2 as [_ [[Hne _]|[_ Ef2]]].
  - exfalso. apply Hne. rewrite Ef. symmetry. apply Hs.
  - by rewrite (proj2 (Z.eqb_eq _ _) (eq_sym Ef2)).
Qed.

Context {CS : CoreSymbol}.

(** The market between RAM and the core token. *)
Record market_wf x : Prop := {
  mw_supply : symbol (ex_supply x) = RAMCORE ∧ in_i64 (amount (ex_supply x));
  mw_base : symbol (c_balance (ex_base x)) = RAM ∧ in_i64 (amount (c_balance (ex_base x)));
  mw_quote : symbol (c_balance (ex_quote x)) = CORE_SYMBOL ∧ in_i64 (amount (c_balance (ex_quote x)));
}.

Definition ram_left x : Z := amount (c_balance (ex_base x)).
Definition core_held x : Z := amount (c_balance (ex_quote x)).

Lemma i64_add_sub z y : in_i64 z → i64 (i64 (z + y) - y) = z.
Proof.
  intros Hz. rewrite <-(i64_small z Hz) at 2. unfold i64.
  replace ((z + y + 2 ^ 63) mod 2 ^ 64 - 2 ^ 63 - y + 2 ^ 63) with ((z + y + 2 ^ 63) mod 2 ^ 64 + (- y)) by lia.
  rewrite Z.add_mod_idemp_l by lia. do 2 f_equal. lia.
Qed.

(** The two steps of a conversion from one connector to the other. *)
Lemma convert_two_steps x inp to x' out :
  symbol inp ≠ symbol (ex_supply x) → to ≠ symbol (ex_supply x) → convert x inp to = Ok (x', out) →
  ∃ x1 f1, convert_step x inp to = Ok (x1, f1) ∧ convert_step x1 f1 to = Ok (x', out).
Proof.
  intros Hi Ht H. unfold convert in H. cbn [convert_fuel] in H.
  destruct (convert_step x inp to) as [[x1 f1]|] eqn:E1; [|done]. simpl in H.
  pose proof E1 as [Hs [[_ Ef]|[? _]]]%convert_step_ok; [|done].
  rewrite Ef, (proj2 (Z.eqb_neq _ _) Ht) in H. simpl in H.
  destruct (convert_step x1 f1 to) as [[x2 f2]|] eqn:E2; [|done]. simpl in H.
  pose proof E2 as [_ [[Hne _]|[_ Ef2]]]%convert_step_ok.
  - exfalso. apply Hne. rewrite Ef. symmetry. apply Hs.
  - rewrite (proj2 (Z.eqb_eq _ _) (eq_sym Ef2)) in H. injection H as <- <-. eauto.
Qed.

(** What is returned is in the range of assets. *)
Lemma convert_step_range x inp to x' out :
  convert_step x inp to = Ok (x', out) → - max_amount <= amount out <= max_amount.
Proof.
  unfold convert_step. intros H. destruct (negb _) in H.
  - destruct (_ =? _) in H; [|destruct (_ =? _) in H; [|done]];
      (destruct (convert_to_exchange _ _ _) as [r|] eqn:Er in H; [|done]; injection H as H;
       apply convert_to_exchange_ok in Er as (issued & Hi & ->); simpl in H; injection H as <- <-; exact Hi).
  - destruct (_ =? _) in H; [|destruct (_ =? _) in H; [|done]];
      (destruct (convert_from_exchange _ _ _) as [r|] eqn:Er in H; [|done]; injection H as H;
       apply convert_from_exchange_ok in Er as (issued & Hi & ->); simpl in H; injection H as <- <-; exact Hi).
Qed.

Lemma convert_range x inp to x' out :
  convert x inp to = Ok (x', out) → - max_amount <= amount out <= max_amount.
Proof.
  unfold convert. generalize 3%nat. intros n. revert x inp. induction n as [|n IH]; intros x inp H; [done|].
  cbn [convert_fuel] in H. destruct (convert_step x inp to) as [[x1 f1]|] eqn:E; [|done]. simpl in H.
  destruct (negb _) in H; [by eapply IH|]. injection H as <- <-. by eapply convert_step_range.
Qed.

(** Buying RAM with core tokens: the market gives up exactly the RAM that it returns and keeps
    exactly the tokens that it was given, and the supply of the relay token is what it was. *)
Theorem convert_buys_ram x inp x' out :
  market_wf x → symbol inp = CORE_SYMBOL → convert x inp RAM = Ok (x', out) →
  market_wf x' ∧ ex_supply x' = ex_supply x ∧ symbol out = RAM ∧ - max_amount <= amount out <= max_amount ∧
  ram_left x' = i64 (ram_left x - amount out) ∧ core_held x' = i64 (core_held x + amount inp).
Proof.
  intros [[Es Is] [Eb Ib] [Eq Iq]] Ei H. destruct core_symbol_other as [Hc1 Hc2].
  apply convert_two_steps in H as (x1 & f1 & H1 & H2); [|congruence|by rewrite Es].
  unfold convert_step in H1.
  rewrite Ei, Es, Eb, Eq, (proj2 (Z.eqb_neq _ _) Hc2), (proj2 (Z.eqb_neq _ _) Hc1), Z.eqb_refl in H1. simpl in H1.
  destruct (convert_to_exchange _ _ _) as [r|] eqn:E1; [|done].
  apply convert_to_exchange_ok in E1 as (issued & Hi & ->). simpl in H1. injection H1 as <- <-.
  unfold convert_step in H2. simpl in H2. rewrite Eb, Z.eqb_refl in H2. simpl in H2.
  destruct (convert_from_exchange _ _ _) as [r|] eqn:E2; [|done].
  apply convert_from_exchange_ok in E2 as (o & Ho & ->). simpl in H2. injection H2 as <- <-.
  unfold ram_left, core_held. simpl. rewrite i64_add_sub by done. split_and!; try done; try lia.
  - split; simpl; (split; [done|]); [done|apply i64_in|apply i64_in].
  - by destruct (ex_supply x).
Qed.

(** Selling RAM: the market takes in exactly the RAM that is sold and gives up exactly the tokens
    that it returns. *)
Theorem convert_sells_ram x inp x' out :
  market_wf x → symbol inp = RAM → convert x inp CORE_SYMBOL = Ok (x', out) →
  market_wf x' ∧ ex_supply x' = ex_supply x ∧ symbol out = CORE_SYMBOL ∧ - max_amount <= amount out <= max_amount ∧
  ram_left x' = i64 (ram_left x + amount inp) ∧ core_held x' = i64 (core_held x - amount out).
Proof.
  intros [[Es Is] [Eb Ib] [Eq Iq]] Ei H. destruct core_symbol_other as [Hc1 Hc2].
  apply convert_two_steps in H as (x1 & f1 & H1 & H2); [|by rewrite Ei, Es|by rewrite Es].
  unfold convert_step in H1. rewrite Ei, Es, Eb in H1. simpl in H1.
  destruct (convert_to_exchange _ _ _) as [r|] eqn:E1; [|done].
  apply convert_to_exchange_ok in E1 as (issued & Hi & ->). simpl in H1. injection H1 as <- <-.
  unfold convert_step in H2. simpl in H2.
  rewrite Eb, Eq, (proj2 (Z.eqb_neq _ _) Hc1), !Z.eqb_refl in H2. simpl in H2.
  destruct (convert_from_exchange _ _ _) as [r|] eqn:E2; [|done].
  apply convert_from_exchange_ok in E2 as (o & Ho & ->). simpl in H2. injection H2 as <- <-.
  unfold ram_left, core_held. simpl. rewrite i64_add_sub by done. split_and!; try done; try lia.
  - split; simpl; (split; [done|]); [done|apply i64_in|apply i64_in].
  - by destruct (ex_supply x).
Qed.
End conversion.
