(* ===== verification/System.v ===== *)
(** * The system contract

    Models contracts/dimension.system (dimension.system.{hpp,cpp}, delegate_bandwidth.cpp, voting.cpp,
    producer_pay.cpp): staking for bandwidth and its refunds, the RAM market, governance nodes and
    their proposals, block rewards, name auctions and the election of producers.

    The tables, the global state and the calls that leave the contract (inline transfers of the core
    token, resource limits, deferred refunds, the proposed schedule) are the state; an action is a
    function on it that may throw, in which case the transaction is undone.  Integers wrap around at
    their width, votes for producers are doubles. *)

From stdpp Require Import sorting strings.
From S2P Require Import Prelude Names Dimensionlib Token RamMarket ChainConfig.

(** ** Names and constants *)
Definition N (s : string) : Z := string_to_name (codes s).
Definition eonio : Z := Eval vm_compute in N "eonio".
Definition eonio_token : Z := Eval vm_compute in N "eonio.token".
Definition eonio_stake : Z := Eval vm_compute in N "eonio.stake".
Definition eonio_ram : Z := Eval vm_compute in N "eonio.ram".
Definition eonio_ramfee : Z := Eval vm_compute in N "eonio.ramfee".
Definition eonio_names : Z := Eval vm_compute in N "eonio.names".
Definition eonio_prop : Z := Eval vm_compute in N "eonio.prop".
Definition eonio_bpstk : Z := Eval vm_compute in N "eonio.bpstk".
Definition eonio_blkpay : Z := Eval vm_compute in N "eonio.blkpay".
Definition b1 : Z := Eval vm_compute in N "b1".

Definition refund_delay : Z := 3 * 24 * 3600.
Definition min_proposal_stake : Z := 1000000.
Definition min_producer_size : Z := 7.
Definition seconds_per_day : Z := 24 * 3600.
Definition seconds_per_year : Z := 52 * 7 * 24 * 3600.
Definition blocks_per_day : Z := 2 * 24 * 3600.
Definition useconds_per_day : Z := 24 * 3600 * 1000000.

(** ** Tables *)
Record name_bid := NameBid {
  newname : Z;
  high_bidder : Z;
  high_bid : Z;
  last_bid_time : Z;
}.
Definition by_high_bid (b : name_bid) : Z := u64 (- high_bid b).

Record producer_info := ProducerInfo {
  p_owner : Z;
  total_votes : double;
  p_key : list Z;
  is_active : bool;
  p_url : list Z;
  unpaid_blocks : Z;
  last_claim_time : Z;
  p_location : Z;
}.
Definition by_votes (p : producer_info) : double := if is_active p then dopp (total_votes p) else total_votes p.
Definition no_key : list Z := replicate 34 0.
Definition deactivate (p : producer_info) : producer_info :=
  ProducerInfo (p_owner p) (total_votes p) no_key false (p_url p) (unpaid_blocks p) (last_claim_time p) (p_location p).

Record goverance_node_info := GNode {
  g_owner : Z;
  g_payer : Z;
  bp_staked : Z;
  stake_time : Z;
  is_bp : bool;
  g_status : Z;
  g_key : list Z;
  g_url : list Z;
  g_location : Z;
}.

Record proposal_info := Proposal {
  pr_owner : Z;
  pr_account : Z;
  start_time : Z;
  vote_end_time : Z;
  exec_end_time : Z;
  exec_time : Z;
  block_height : Z;
  pr_type : Z;
  is_satisfy : bool;
  is_exec : bool;
  pr_consensus_type : Z;
  total_yeas : Z;
  total_nays : Z;
  total_staked : Z;
}.

Record proposal_vote_info := ProposalVote {
  pv_vote : bool;
  pv_time : Z;
}.

Record voter_info := VoterInfo {
  v_proxy : Z;
  v_producers : list Z;
  staked : Z;
  last_vote_weight : double;
  proxied_vote_weight : double;
  is_proxy : bool;
}.

Record user_resources := UserResources {
  net_weight : asset;
  cpu_weight : asset;
  ram_bytes : Z;
}.

Record delegated_bandwidth := DelegatedBandwidth {
  d_net : asset;
  d_cpu : asset;
}.

Record refund_request := RefundRequest {
  request_time : Z;
  net_amount : asset;
  cpu_amount : asset;
}.

(** The fields of eosio_global_state that an action reads or writes. *)
Record global_state := GlobalState {
  parameters : chain_config;
  max_ram_size : Z;
  total_ram_bytes_reserved : Z;
  total_ram_stake : Z;
  last_producer_schedule_update : Z;
  last_pervote_bucket_fill : Z;
  perblock_bucket : Z;
  total_unpaid_blocks : Z;
  thresh_activated_stake_time : Z;
  last_producer_schedule_size : Z;
  total_producer_vote_weight : double;
  last_name_close : Z;
  reward_pre_block : Z;
  stake_to_gnode_fee : Z;
  new_proposal_fee : Z;
  proposal_num : Z;
  producer_num : Z;
  total_proposal_stake : Z;
}.
Definition free_ram (g : global_state) : Z := u64 (max_ram_size g - total_ram_bytes_reserved g).

Definition set_ram_totals (g : global_state) (reserved stake : Z) : global_state :=
  GlobalState (parameters g) (max_ram_size g) reserved stake (last_producer_schedule_update g)
    (last_pervote_bucket_fill g) (perblock_bucket g) (total_unpaid_blocks g) (thresh_activated_stake_time g)
    (last_producer_schedule_size g) (total_producer_vote_weight g) (last_name_close g) (reward_pre_block g)
    (stake_to_gnode_fee g) (new_proposal_fee g) (proposal_num g) (producer_num g) (total_proposal_stake g).
Definition set_max_ram (g : global_state) (n : Z) : global_state :=
  GlobalState (parameters g) n (total_ram_bytes_reserved g) (total_ram_stake g)
    (last_producer_schedule_update g)
    (last_pervote_bucket_fill g) (perblock_bucket g) (total_unpaid_blocks g) (thresh_activated_stake_time g)
    (last_producer_schedule_size g) (total_producer_vote_weight g) (last_name_close g) (reward_pre_block g)
    (stake_to_gnode_fee g) (new_proposal_fee g) (proposal_num g) (producer_num g) (total_proposal_stake g).
Definition set_parameters (g : global_state) (c : chain_config) : global_state :=
  GlobalState c (max_ram_size g) (total_ram_bytes_reserved g) (total_ram_stake g)
    (last_producer_schedule_update g)
    (last_pervote_bucket_fill g) (perblock_bucket g) (total_unpaid_blocks g) (thresh_activated_stake_time g)
    (last_producer_schedule_size g) (total_producer_vote_weight g) (last_name_close g) (reward_pre_block g)
    (stake_to_gnode_fee g) (new_proposal_fee g) (proposal_num g) (producer_num g) (total_proposal_stake g).
(** The fields that onblock and claimrewards write. *)
Definition set_blocks (g : global_state) (update fill bucket unpaid thresh size close : Z) : global_state :=
  GlobalState (parameters g) (max_ram_size g) (total_ram_bytes_reserved g) (total_ram_stake g) update
    fill bucket unpaid thresh size (total_producer_vote_weight g) close (reward_pre_block g)
    (stake_to_gnode_fee g) (new_proposal_fee g) (proposal_num g) (producer_num g) (total_proposal_stake g).
Definition set_vote_weight (g : global_state) (w : double) : global_state :=
  GlobalState (parameters g) (max_ram_size g) (total_ram_bytes_reserved g) (total_ram_stake g)
    (last_producer_schedule_update g)
    (last_pervote_bucket_fill g) (perblock_bucket g) (total_unpaid_blocks g) (thresh_activated_stake_time g)
    (last_producer_schedule_size g) w (last_name_close g) (reward_pre_block g)
    (stake_to_gnode_fee g) (new_proposal_fee g) (proposal_num g) (producer_num g) (total_proposal_stake g).
(** The fields that governance writes. *)
Definition set_governance (g : global_state) (proposals producers stake : Z) : global_state :=
  GlobalState (parameters g) (max_ram_size g) (total_ram_bytes_reserved g) (total_ram_stake g)
    (last_producer_schedule_update g)
    (last_pervote_bucket_fill g) (perblock_bucket g) (total_unpaid_blocks g) (thresh_activated_stake_time g)
    (last_producer_schedule_size g) (total_producer_vote_weight g) (last_name_close g) (reward_pre_block g)
    (stake_to_gnode_fee g) (new_proposal_fee g) proposals producers stake.

(** ** State *)
(** [stored_global] is the singleton _global, and [gstate] the member that the constructor reads from
    it and the destructor stores.  [inline] are the transfers of the core token that the action
    sends, each with the active permission of its sender. *)
Record system_state := SystemState {
  stored_global : option global_state;
  gstate : global_state;
  voters : table Z voter_info;
  producers : table Z producer_info;
  gnodes : table Z goverance_node_info;
  proposals : table Z proposal_info;
  pvotes : table (Z * Z) proposal_vote_info;
  bids : table Z name_bid;
  userres : table Z user_resources;
  delband : table (Z * Z) delegated_bandwidth;
  refunds : table Z refund_request;
  rammarket : option exchange_state;
  (* calls that leave the contract *)
  resource_limits : gmap Z (Z * Z * Z);
  deferred_refunds : gset Z;
  proposed_schedule : option (list (Z * list Z));
  consensus : option Z;
  privileged : gmap Z Z;
  inline : list transfer_args;
}.
Definition with_stored_global (x : option global_state) (s : system_state) : system_state :=
  SystemState x (gstate s) (voters s) (producers s) (gnodes s) (proposals s) (pvotes s) (bids s) (userres
    s) (delband s) (refunds s) (rammarket s) (resource_limits s) (deferred_refunds s) (proposed_schedule
    s) (consensus s) (privileged s) (inline s).
Definition with_gstate (x : global_state) (s : system_state) : system_state :=
  SystemState (stored_global s) x (voters s) (producers s) (gnodes s) (proposals s) (pvotes s) (bids s)
    (userres s) (delband s) (refunds s) (rammarket s) (resource_limits s) (deferred_refunds s)
    (proposed_schedule s) (consensus s) (privileged s) (inline s).
Definition with_voters (x : table Z voter_info) (s : system_state) : system_state :=
  SystemState (stored_global s) (gstate s) x (producers s) (gnodes s) (proposals s) (pvotes s) (bids s)
    (userres s) (delband s) (refunds s) (rammarket s) (resource_limits s) (deferred_refunds s)
    (proposed_schedule s) (consensus s) (privileged s) (inline s).
Definition with_producers (x : table Z producer_info) (s : system_state) : system_state :=
  SystemState (stored_global s) (gstate s) (voters s) x (gnodes s) (proposals s) (pvotes s) (bids s)
    (userres s) (delband s) (refunds s) (rammarket s) (resource_limits s) (deferred_refunds s)
    (proposed_schedule s) (consensus s) (privileged s) (inline s).
Definition with_gnodes (x : table Z goverance_node_info) (s : system_state) : system_state :=
  SystemState (stored_global s) (gstate s) (voters s) (producers s) x (proposals s) (pvotes s) (bids s)
    (userres s) (delband s) (refunds s) (rammarket s) (resource_limits s) (deferred_refunds s)
    (proposed_schedule s) (consensus s) (privileged s) (inline s).
Definition with_proposals (x : table Z proposal_info) (s : system_state) : system_state :=
  SystemState (stored_global s) (gstate s) (voters s) (producers s) (gnodes s) x (pvotes s) (bids s)
    (userres s) (delband s) (refunds s) (rammarket s) (resource_limits s) (deferred_refunds s)
    (proposed_schedule s) (consensus s) (privileged s) (inline s).
Definition with_pvotes (x : table (Z * Z) proposal_vote_info) (s : system_state) : system_state :=
  SystemState (stored_global s) (gstate s) (voters s) (producers s) (gnodes s) (proposals s) x (bids s)
    (userres s) (delband s) (refunds s) (rammarket s) (resource_limits s) (deferred_refunds s)
    (proposed_schedule s) (consensus s) (privileged s) (inline s).
Definition with_bids (x : table Z name_bid) (s : system_state) : system_state :=
  SystemState (stored_global s) (gstate s) (voters s) (producers s) (gnodes s) (proposals s) (pvotes s) x
    (userres s) (delband s) (refunds s) (rammarket s) (resource_limits s) (deferred_refunds s)
    (proposed_schedule s) (consensus s) (privileged s) (inline s).
Definition with_userres (x : table Z user_resources) (s : system_state) : system_state :=
  SystemState (stored_global s) (gstate s) (voters s) (producers s) (gnodes s) (proposals s) (pvotes s)
    (bids s) x (delband s) (refunds s) (rammarket s) (resource_limits s) (deferred_refunds s)
    (proposed_schedule s) (consensus s) (privileged s) (inline s).
Definition with_delband (x : table (Z * Z) delegated_bandwidth) (s : system_state) : system_state :=
  SystemState (stored_global s) (gstate s) (voters s) (producers s) (gnodes s) (proposals s) (pvotes s)
    (bids s) (userres s) x (refunds s) (rammarket s) (resource_limits s) (deferred_refunds s)
    (proposed_schedule s) (consensus s) (privileged s) (inline s).
Definition with_refunds (x : table Z refund_request) (s : system_state) : system_state :=
  SystemState (stored_global s) (gstate s) (voters s) (producers s) (gnodes s) (proposals s) (pvotes s)
    (bids s) (userres s) (delband s) x (rammarket s) (resource_limits s) (deferred_refunds s)
    (proposed_schedule s) (consensus s) (privileged s) (inline s).
Definition with_rammarket (x : option exchange_state) (s : system_state) : system_state :=
  SystemState (stored_global s) (gstate s) (voters s) (producers s) (gnodes s) (proposals s) (pvotes s)
    (bids s) (userres s) (delband s) (refunds s) x (resource_limits s) (deferred_refunds s)
    (proposed_schedule s) (consensus s) (privileged s) (inline s).
Definition with_resource_limits (x : gmap Z (Z * Z * Z)) (s : system_state) : system_state :=
  SystemState (stored_global s) (gstate s) (voters s) (producers s) (gnodes s) (proposals s) (pvotes s)
    (bids s) (userres s) (delband s) (refunds s) (rammarket s) x (deferred_refunds s) (proposed_schedule
    s) (consensus s) (privileged s) (inline s).
Definition with_deferred_refunds (x : gset Z) (s : system_state) : system_state :=
  SystemState (stored_global s) (gstate s) (voters s) (producers s) (gnodes s) (proposals s) (pvotes s)
    (bids s) (userres s) (delband s) (refunds s) (rammarket s) (resource_limits s) x (proposed_schedule s)
    (consensus s) (privileged s) (inline s).
Definition with_proposed_schedule (x : option (list (Z * list Z))) (s : system_state) : system_state :=
  SystemState (stored_global s) (gstate s) (voters s) (producers s) (gnodes s) (proposals s) (pvotes s)
    (bids s) (userres s) (delband s) (refunds s) (rammarket s) (resource_limits s) (deferred_refunds s) x
    (consensus s) (privileged s) (inline s).
Definition with_consensus (x : option Z) (s : system_state) : system_state :=
  SystemState (stored_global s) (gstate s) (voters s) (producers s) (gnodes s) (proposals s) (pvotes s)
    (bids s) (userres s) (delband s) (refunds s) (rammarket s) (resource_limits s) (deferred_refunds s)
    (proposed_schedule s) x (privileged s) (inline s).
Definition with_privileged (x : gmap Z Z) (s : system_state) : system_state :=
  SystemState (stored_global s) (gstate s) (voters s) (producers s) (gnodes s) (proposals s) (pvotes s)
    (bids s) (userres s) (delband s) (refunds s) (rammarket s) (resource_limits s) (deferred_refunds s)
    (proposed_schedule s) (consensus s) x (inline s).
Definition with_inline (x : list transfer_args) (s : system_state) : system_state :=
  SystemState (stored_global s) (gstate s) (voters s) (producers s) (gnodes s) (proposals s) (pvotes s)
    (bids s) (userres s) (delband s) (refunds s) (rammarket s) (resource_limits s) (deferred_refunds s)
    (proposed_schedule s) (consensus s) (privileged s) x.

Abbreviation sys := (stM system_state).
Definition upd {T} (get : system_state → T) (set : T → system_state → system_state) (f : T → result T)
    : sys unit := s ← st_get; t ← st_lift (f (get s)); st_put (set t s).
Definition modify_gstate (f : global_state → global_state) : sys unit :=
  st_modify (λ s, with_gstate (f (gstate s)) s).

(** [INLINE_ACTION_SENDER(eosio::token, transfer)( N(eonio.token), {from,N(active)}, ... )] *)
Definition send_transfer (from to : Z) (quantity : asset) (memo : list Z) : sys unit :=
  st_modify (λ s, with_inline (inline s ++ [TransferArgs from to quantity memo]) s).
Definition set_resource_limits (account ram net cpu : Z) : sys unit :=
  st_modify (λ s, with_resource_limits (<[account := (ram, net, cpu)]> (resource_limits s)) s).

(** What an action of the system contract reads: the supply of the core token, the parameters of the
    chain, what set_proposed_producers returns, and what the memory of a new row holds where the
    constructor of the row writes nothing. *)
Record system_env := SystemEnv {
  cenv : contract_env;
  core_supply : result Z;
  chain_parameters : chain_config;
  set_proposed_producers : list (Z * list Z) → Z;
  heap_word : Z;
}.
Definition auth (env : system_env) (account : Z) : sys unit := st_lift (require_auth (cenv env) account).
Definition assert (c : bool) : sys unit := st_lift (eosio_assert c).
Definition time_now (env : system_env) : Z := now (cenv env).

Section system.
Context {LM : Libm} {CS : CoreSymbol}.

Definition core (a : Z) : asset := Asset a CORE_SYMBOL.

(** ** The constructor and the destructor *)
Definition get_default_parameters (env : system_env) : global_state :=
  GlobalState (chain_parameters env) (64 * 1024 * 1024 * 1024) 0 0 0 0 0 0 0 0 d0 0 1 10000 15000 0 0 0.

Definition new_market (g : global_state) (supply : Z) : exchange_state :=
  ExchangeState (Asset 100000000000000 RAMCORE)
    (Connector (Asset (i64 (free_ram g)) RAM) (ddiv (of_int 1) (of_int 2)))
    (Connector (core (Z.quot supply 1000)) (ddiv (of_int 1) (of_int 2))).

Definition construct (env : system_env) : sys unit :=
  s ← st_get;
  let g := default (get_default_parameters env) (stored_global s) in
  _ ← st_put (with_inline [] (with_gstate g s));
  match rammarket s with
  | Some _ => mret tt
  | None =>
      system_token_supply ← st_lift (core_supply env);
      if 0 <? system_token_supply
      then st_modify (with_rammarket (Some (new_market g system_token_supply)))
      else mret tt
  end.
Definition destruct_ : sys unit := st_modify (λ s, with_stored_global (Some (gstate s)) s).

(** ** dimension.system.cpp *)
Definition setram (env : system_env) (max_ram : Z) : sys unit :=
  _ ← auth env (self (cenv env));
  s ← st_get;
  let g := gstate s in
  _ ← assert (max_ram_size g <? max_ram);
  _ ← assert (max_ram <? 1024 * 1024 * 1024 * 1024 * 1024);
  _ ← assert (total_ram_bytes_reserved g <? max_ram);
  let delta := i64 (i64 max_ram - i64 (max_ram_size g)) in
  m ← st_lift (of_option (rammarket s) eosio_assert_message_exception);
  let base := c_balance (ex_base m) in
  _ ← st_modify (with_rammarket (Some (ExchangeState (ex_supply m)
        (Connector (Asset (i64 (amount base + delta)) (symbol base)) (c_weight (ex_base m))) (ex_quote m))));
  _ ← modify_gstate (λ g, set_max_ram g max_ram);
  st_modify (λ s, with_stored_global (Some (gstate s)) s).

(** setparams also calls set_blockchain_parameters, which changes the chain and not the contract. *)
Definition setparams (env : system_env) (params : chain_config) : sys unit :=
  _ ← auth env eonio;
  _ ← modify_gstate (λ g, set_parameters g params);
  assert (3 <=? max_authority_depth params).

Definition setpriv (env : system_env) (account ispriv : Z) : sys unit :=
  _ ← auth env (self (cenv env));
  st_modify (λ s, with_privileged (<[account := ispriv]> (privileged s)) s).

Definition rmvproducer (env : system_env) (producer : Z) : sys unit :=
  _ ← auth env (self (cenv env));
  upd producers with_producers (modify 0 producer (λ p, mret (deactivate p))).

Definition bidname (env : system_env) (bidder new_name : Z) (bid : asset) : sys unit :=
  _ ← auth env bidder;
  _ ← assert (name_suffix new_name =? new_name);
  _ ← assert (negb (new_name =? 0));
  _ ← assert (Z.land new_name 0xF =? 0);
  _ ← assert (Z.land new_name 0x1F0 =? 0);
  _ ← assert (negb (is_account (cenv env) new_name));
  _ ← assert (symbol bid =? CORE_SYMBOL);
  _ ← assert (0 <? amount bid);
  _ ← send_transfer bidder eonio_names bid (codes "bid name " ++ name_to_string new_name);
  s ← st_get;
  let ct := current_time (cenv env) in
  match find (bids s) new_name with
  | None => upd bids with_bids (emplace bidder new_name (NameBid new_name bidder (amount bid) ct))
  | Some current =>
      _ ← assert (0 <? high_bid current);
      _ ← assert (Z.quot (high_bid current) 10 <? i64 (amount bid - high_bid current));
      _ ← assert (negb (high_bidder current =? bidder));
      refund ← st_lift (new_asset (high_bid current) CORE_SYMBOL);
      _ ← send_transfer eonio_names (high_bidder current) refund
             (codes "refund bid on name " ++ name_to_string new_name);
      upd bids with_bids (modify bidder new_name (λ b, mret (NameBid (newname b) bidder (amount bid) ct)))
  end.

(** The loop of [newaccount]: is one of the twelve characters a dot? *)
Fixpoint has_dot (n : nat) (tmp : Z) : bool :=
  match n with
  | O => false
  | S n => (Z.land tmp 0x1f =? 0) || has_dot n (Z.shiftr tmp 5)
  end.

Definition newaccount (env : system_env) (creator newact : Z) : sys unit :=
  _ ← (if negb (creator =? self (cenv env)) && has_dot 12 (Z.shiftr newact 4) then
         let suffix := name_suffix newact in
         if suffix =? newact then
           s ← st_get;
           current ← st_lift (of_option (find (bids s) newact) eosio_assert_message_exception);
           _ ← assert (high_bidder current =? creator);
           _ ← assert (high_bid current <? 0);
           upd bids with_bids (erase newact)
         else assert (creator =? suffix)
       else mret tt);
  _ ← upd userres with_userres (emplace newact newact (UserResources (core 0) (core 0) 0));
  set_resource_limits newact 0 0 0.

(** ** voting.cpp *)
(** [while( staked != 0 )]: at most nineteen times for a 64-bit number. *)
Fixpoint proposal_votes_loop (n : nat) (st ret : Z) : Z :=
  match n with
  | O => ret
  | S n =>
      if st =? 0 then ret
      else proposal_votes_loop n (Z.quot st 10) (i64 (ret + Z.quot st 10))
  end.
Definition stake_to_proposal_votes (st : Z) : Z := proposal_votes_loop 19 (Z.quot st 100000) 0.

Definition stake2vote (env : system_env) (st : Z) : double :=
  let weight := ddiv (of_int (Z.quot (time_now env - 946684800) (seconds_per_day * 7))) (of_int 52) in
  dmul (of_int st) (pow (of_int 2) weight).

Definition set_last_vote_weight (w : double) (v : voter_info) : voter_info :=
  VoterInfo (v_proxy v) (v_producers v) (staked v) w (proxied_vote_weight v) (is_proxy v).
Definition add_proxied (d : double) (v : voter_info) : voter_info :=
  VoterInfo (v_proxy v) (v_producers v) (staked v) (last_vote_weight v) (dadd (proxied_vote_weight v) d) (is_proxy v).
Definition add_votes (d : double) (p : producer_info) : producer_info :=
  ProducerInfo (p_owner p) (dadd (total_votes p) d) (p_key p) (is_active p) (p_url p) (unpaid_blocks p)
    (last_claim_time p) (p_location p).
Definition get_voter (account : Z) : sys voter_info :=
  s ← st_get; st_lift (get (voters s) account).
Definition modify_voter (account : Z) (f : voter_info → voter_info) : sys unit :=
  upd voters with_voters (modify 0 account (λ v, mret (f v))).
Definition modify_producer (account : Z) (f : producer_info → producer_info) : sys unit :=
  upd producers with_producers (modify 0 account (λ p, mret (f p))).

Fixpoint for_each {A} (l : list A) (f : A → sys unit) : sys unit :=
  match l with
  | [] => mret tt
  | a :: l => _ ← f a; for_each l f
  end.

(** Recursion along proxies; the account is the key of the row that is passed. *)
Fixpoint propagate_weight_change (fuel : nat) (env : system_env) (account : Z) : sys unit :=
  match fuel with
  | O => st_throw out_of_fuel
  | S fuel =>
      v ← get_voter account;
      _ ← assert ((v_proxy v =? 0) || negb (is_proxy v));
      let new_weight := stake2vote env (staked v) in
      let new_weight := if is_proxy v then dadd new_weight (proxied_vote_weight v) else new_weight in
      let delta := dsub new_weight (last_vote_weight v) in
      _ ← (if dltb (of_int 1) (dabs delta) then
             if negb (v_proxy v =? 0) then
               _ ← modify_voter (v_proxy v) (add_proxied delta);
               propagate_weight_change fuel env (v_proxy v)
             else
               for_each (v_producers v) (λ acnt,
                 _ ← modify_producer acnt (add_votes delta);
                 modify_gstate (λ g, set_vote_weight g (dadd (total_producer_vote_weight g) delta)))
           else mret tt);
      modify_voter account (set_last_vote_weight new_weight)
  end.
(** A proxy that unregistered may use a proxy itself, so that chains and cycles of any length arise; the
    recursion traps at the call depth that the injected code allows (maximum_call_depth). *)
Definition proxy_fuel : nat := 250.

(** [producer_deltas], sorted by producer: the change of its votes and whether it is voted for now. *)
Definition add_delta (p : Z) (d : double) (fresh : bool) (m : list (Z * (double * bool)))
    : list (Z * (double * bool)) :=
  (fix go m := match m with
   | [] => [(p, (dadd d0 d, fresh))]
   | (q, (x, f)) :: m' =>
       if p =? q then (q, (dadd x d, fresh)) :: m'
       else if p <? q then (p, (dadd d0 d, fresh)) :: m
       else (q, (x, f)) :: go m'
   end) m.

Definition apply_delta (voting : bool) (pd : Z * (double * bool)) : sys unit :=
  let '(p, (d, fresh)) := pd in
  s ← st_get;
  match find (producers s) p with
  | Some info =>
      _ ← assert (negb voting || is_active info || negb fresh);
      _ ← modify_producer p (λ i, let i := add_votes d i in
            if dltb (total_votes i) d0 then
              ProducerInfo (p_owner i) d0 (p_key i) (is_active i) (p_url i) (unpaid_blocks i)
                (last_claim_time i) (p_location i)
            else i);
      modify_gstate (λ g, set_vote_weight g (dadd (total_producer_vote_weight g) d))
  | None => assert (negb fresh)
  end.

(** [producers[i-1] < producers[i]] for all i *)
Fixpoint ascending (l : list Z) : bool :=
  match l with
  | x :: (y :: _) as l' => (x <? y) && ascending l'
  | _ => true
  end.

Definition update_votes (env : system_env) (voter_name proxy : Z) (prods : list Z) (voting : bool) : sys unit :=
  _ ← (if negb (proxy =? 0) then
         _ ← assert (length prods =? 0)%nat; assert (negb (voter_name =? proxy))
       else _ ← assert (length prods <=? 30)%nat; assert (ascending prods));
  voter ← get_voter voter_name;
  _ ← assert ((proxy =? 0) || negb (is_proxy voter));
  _ ← modify_gstate (λ g,
        if (min_proposal_stake <=? total_proposal_stake g) && (thresh_activated_stake_time g =? 0)
        then set_blocks g (last_producer_schedule_update g) (last_pervote_bucket_fill g) (perblock_bucket g)
               (total_unpaid_blocks g) (current_time (cenv env)) (last_producer_schedule_size g) (last_name_close g)
        else g);
  let new_vote_weight := stake2vote env (staked voter) in
  let new_vote_weight := if is_proxy voter then dadd new_vote_weight (proxied_vote_weight voter)
                         else new_vote_weight in
  deltas ← (if dltb d0 (last_vote_weight voter) then
              if negb (v_proxy voter =? 0) then
                _ ← modify_voter (v_proxy voter) (add_proxied (dopp (last_vote_weight voter)));
                _ ← propagate_weight_change proxy_fuel env (v_proxy voter);
                mret []
              else mret (foldl (λ m p, add_delta p (dopp (last_vote_weight voter)) false m) [] (v_producers voter))
            else mret []);
  deltas ← (if negb (proxy =? 0) then
              new_proxy ← get_voter proxy;
              _ ← assert (negb voting || is_proxy new_proxy);
              _ ← (if dleb d0 new_vote_weight then
                     _ ← modify_voter proxy (add_proxied new_vote_weight);
                     propagate_weight_change proxy_fuel env proxy
                   else mret tt);
              mret deltas
            else mret (if dleb d0 new_vote_weight
                       then foldl (λ m p, add_delta p new_vote_weight true m) deltas prods else deltas));
  _ ← for_each deltas (apply_delta voting);
  modify_voter voter_name (λ v, VoterInfo proxy prods (staked v) new_vote_weight (proxied_vote_weight v) (is_proxy v)).

Definition voteproducer (env : system_env) (voter_name proxy : Z) (prods : list Z) : sys unit :=
  _ ← auth env voter_name; update_votes env voter_name proxy prods true.

Definition regproxy (env : system_env) (proxy : Z) (isproxy : bool) : sys unit :=
  _ ← auth env proxy;
  s ← st_get;
  match find (voters s) proxy with
  | Some v =>
      _ ← assert (negb (Bool.eqb isproxy (is_proxy v)));
      _ ← assert (negb isproxy || (v_proxy v =? 0));
      _ ← modify_voter proxy (λ v, VoterInfo (v_proxy v) (v_producers v) (staked v) (last_vote_weight v)
                                     (proxied_vote_weight v) isproxy);
      propagate_weight_change proxy_fuel env proxy
  | None => upd voters with_voters (emplace proxy proxy (VoterInfo 0 [] 0 d0 d0 isproxy))
  end.

(** ** delegate_bandwidth.cpp *)
Definition get_market : sys exchange_state :=
  s ← st_get; st_lift (of_option (rammarket s) eosio_assert_message_exception).

(** The fee of half a percent, rounded up. *)
Definition ram_fee (a : Z) : Z := Z.quot (i64 (a + 199)) 200.

Definition buyram (env : system_env) (payer receiver : Z) (quant : asset) : sys unit :=
  _ ← auth env payer;
  _ ← assert (0 <? amount quant);
  let fee := Asset (ram_fee (amount quant)) (symbol quant) in
  let quant_after_fee := Asset (i64 (amount quant - amount fee)) (symbol quant) in
  _ ← send_transfer payer eonio_ram quant_after_fee (codes "buy ram");
  _ ← (if 0 <? amount fee then send_transfer payer eonio_ramfee fee (codes "ram fee") else mret tt);
  market ← get_market;
  '(market, out) ← st_lift (convert market quant_after_fee RAM);
  _ ← st_modify (with_rammarket (Some market));
  let bytes_out := amount out in
  _ ← assert (0 <? bytes_out);
  _ ← modify_gstate (λ g, set_ram_totals g (u64 (total_ram_bytes_reserved g + bytes_out))
                            (i64 (total_ram_stake g + amount quant_after_fee)));
  s ← st_get;
  _ ← (match find (userres s) receiver with
       | None => upd userres with_userres (emplace receiver receiver (UserResources (core 0) (core 0) bytes_out))
       | Some _ => upd userres with_userres (modify receiver receiver (λ r,
           mret (UserResources (net_weight r) (cpu_weight r) (i64 (ram_bytes r + bytes_out)))))
       end);
  s ← st_get;
  res ← st_lift (get (userres s) receiver);
  set_resource_limits receiver (ram_bytes res) (amount (net_weight res)) (amount (cpu_weight res)).

(** [*itr] of the end iterator, when there is no market, is undefined. *)
Definition buyrambytes (env : system_env) (payer receiver bytes : Z) : sys unit :=
  s ← st_get;
  tmp ← st_lift (of_option (rammarket s) undefined_behaviour);
  ram ← st_lift (new_asset bytes RAM);
  '(_, eosout) ← st_lift (convert tmp ram CORE_SYMBOL);
  buyram env payer receiver eosout.

Definition sellram (env : system_env) (account bytes : Z) : sys unit :=
  _ ← auth env account;
  _ ← assert (0 <? bytes);
  s ← st_get;
  res ← st_lift (get (userres s) account);
  _ ← assert (bytes <=? ram_bytes res);
  market ← get_market;
  ram ← st_lift (new_asset bytes RAM);
  '(market, tokens_out) ← st_lift (convert market ram CORE_SYMBOL);
  _ ← st_modify (with_rammarket (Some market));
  _ ← assert (1 <? amount tokens_out);
  _ ← modify_gstate (λ g, set_ram_totals g (u64 (total_ram_bytes_reserved g - bytes))
                            (i64 (total_ram_stake g - amount tokens_out)));
  s ← st_get;
  _ ← assert (0 <=? total_ram_stake (gstate s));
  _ ← upd userres with_userres (modify account account (λ r,
        mret (UserResources (net_weight r) (cpu_weight r) (i64 (ram_bytes r - bytes)))));
  s ← st_get;
  res ← st_lift (get (userres s) account);
  _ ← set_resource_limits account (ram_bytes res) (amount (net_weight res)) (amount (cpu_weight res));
  _ ← send_transfer eonio_ram account tokens_out (codes "sell ram");
  let fee := ram_fee (amount tokens_out) in
  if 0 <? fee then
    fee ← st_lift (new_asset fee CORE_SYMBOL);
    send_transfer account eonio_ramfee fee (codes "sell ram fee")
  else mret tt.

Definition validate_b1_vesting (env : system_env) (stake : Z) : sys unit :=
  let base_time := 1527811200 in
  let max_claimable := 1000000000000 in
  claimable ← st_lift (to_int64 (ddiv (dmul (of_int max_claimable) (of_int (time_now env - base_time)))
                                   (of_int (10 * seconds_per_year))));
  assert (max_claimable - claimable <=? stake).

(** [net == asset(0) && cpu == asset(0)] *)
Definition both_zero (net cpu : asset) : result bool :=
  net0 ← asset_eqb net (core 0);
  if net0 : bool then asset_eqb cpu (core 0) else mret false.

(** The three blocks of [changebw] that update tables, and the one that updates voting power. *)
Definition change_delegation (from receiver : Z) (net cpu : asset) : sys unit :=
  s ← st_get;
  let k := (from, receiver) in
  _ ← (match find (delband s) k with
       | None => upd delband with_delband (emplace from k (DelegatedBandwidth net cpu))
       | Some _ => upd delband with_delband (modify 0 k (λ d,
           n ← asset_add (d_net d) net; c ← asset_add (d_cpu d) cpu; mret (DelegatedBandwidth n c)))
       end);
  s ← st_get;
  d ← st_lift (get (delband s) k);
  net_ok ← st_lift (asset_leb (core 0) (d_net d));
  _ ← assert net_ok;
  cpu_ok ← st_lift (asset_leb (core 0) (d_cpu d));
  _ ← assert cpu_ok;
  zero ← st_lift (both_zero (d_net d) (d_cpu d));
  if zero : bool then upd delband with_delband (erase k) else mret tt.

Definition change_totals (from receiver : Z) (net cpu : asset) : sys unit :=
  s ← st_get;
  _ ← (match find (userres s) receiver with
       | None => upd userres with_userres (emplace from receiver (UserResources net cpu 0))
       | Some _ => upd userres with_userres (modify (if from =? receiver then from else 0) receiver (λ t,
           n ← asset_add (net_weight t) net; c ← asset_add (cpu_weight t) cpu;
           mret (UserResources n c (ram_bytes t))))
       end);
  s ← st_get;
  t ← st_lift (get (userres s) receiver);
  net_ok ← st_lift (asset_leb (core 0) (net_weight t));
  _ ← assert net_ok;
  cpu_ok ← st_lift (asset_leb (core 0) (cpu_weight t));
  _ ← assert cpu_ok;
  _ ← set_resource_limits receiver (ram_bytes t) (amount (net_weight t)) (amount (cpu_weight t));
  zero ← st_lift (both_zero (net_weight t) (cpu_weight t));
  if zero && (ram_bytes t =? 0) then upd userres with_userres (erase receiver) else mret tt.

(** [r.net_amount -= net_balance], and what is left of the balance. *)
Definition take_refund (refund balance : asset) : result (asset * asset) :=
  r ← asset_sub refund balance;
  neg ← asset_ltb r (core 0);
  mret (if neg : bool then (core 0, asset_neg r) else (r, core 0)).

(** A refund of nothing or of what was unstaked. *)
Definition new_refund (balance : asset) : result (asset * asset) :=
  neg ← asset_ltb balance (core 0);
  mret (if neg : bool then (asset_neg balance, core 0) else (core 0, balance)).

(** [net_balance < asset(0) || cpu_balance < asset(0)] *)
Definition either_negative (net cpu : asset) : result bool :=
  n ← asset_ltb net (core 0);
  if n : bool then mret true else asset_ltb cpu (core 0).

(** The refunds table: the balances that are left to transfer, and whether a refund is pending. *)
Definition change_refund (env : system_env) (from : Z) (net cpu : asset) : sys (asset * asset * bool) :=
  s ← st_get;
  match find (refunds s) from with
  | Some req =>
      neg ← st_lift (either_negative net cpu);
      let time := if neg : bool then time_now env else request_time req in
      '(net_r, net) ← st_lift (take_refund (net_amount req) net);
      '(cpu_r, cpu) ← st_lift (take_refund (cpu_amount req) cpu);
      _ ← upd refunds with_refunds (modify 0 from (λ _, mret (RefundRequest time net_r cpu_r)));
      net_ok ← st_lift (asset_leb (core 0) net_r);
      _ ← assert net_ok;
      cpu_ok ← st_lift (asset_leb (core 0) cpu_r);
      _ ← assert cpu_ok;
      zero ← st_lift (both_zero net_r cpu_r);
      if zero : bool then _ ← upd refunds with_refunds (erase from); mret (net, cpu, false)
      else mret (net, cpu, true)
  | None =>
      neg ← st_lift (either_negative net cpu);
      if neg : bool then
        '(net_r, net) ← st_lift (new_refund net);
        '(cpu_r, cpu) ← st_lift (new_refund cpu);
        _ ← upd refunds with_refunds (emplace from from (RefundRequest (time_now env) net_r cpu_r));
        mret (net, cpu, true)
      else mret (net, cpu, false)
  end.

(** A deferred transaction refund of [from], which replaces the one that is pending. *)
Definition schedule_refund (from : Z) (need_deferred_trx : bool) : sys unit :=
  st_modify (λ s, with_deferred_refunds
    (if need_deferred_trx then {[from]} ∪ deferred_refunds s else deferred_refunds s ∖ {[from]}) s).

Definition change_voter (env : system_env) (from : Z) (total_update : asset) : sys unit :=
  s ← st_get;
  _ ← (match find (voters s) from with
       | None => upd voters with_voters (emplace from from (VoterInfo 0 [] (amount total_update) d0 d0 false))
       | Some _ => modify_voter from (λ v, VoterInfo (v_proxy v) (v_producers v)
           (i64 (staked v + amount total_update)) (last_vote_weight v) (proxied_vote_weight v) (is_proxy v))
       end);
  v ← get_voter from;
  _ ← assert (0 <=? staked v);
  _ ← (if from =? b1 then validate_b1_vesting env (staked v) else mret tt);
  if negb (length (v_producers v) =? 0)%nat || negb (v_proxy v =? 0)
  then update_votes env from (v_proxy v) (v_producers v) false
  else mret tt.

(** The refund of what is unstaked, and the transfer of what is staked and is not taken from a refund. *)
Definition settle (env : system_env) (source from receiver : Z) (net cpu : asset) (transfer : bool) : sys unit :=
  if negb (eonio_stake =? source) then
    let is_undelegating := i64 (amount net + amount cpu) <? 0 in
    let is_delegating_to_self := negb transfer && (from =? receiver) in
    '(net, cpu, need_deferred_trx) ←
      (if is_delegating_to_self || is_undelegating then change_refund env from net cpu
       else mret (net, cpu, false));
    _ ← schedule_refund from need_deferred_trx;
    transfer_amount ← st_lift (asset_add net cpu);
    pos ← st_lift (asset_ltb (core 0) transfer_amount);
    if pos : bool then send_transfer source eonio_stake transfer_amount (codes "stake bandwidth")
    else mret tt
  else mret tt.

Definition changebw (env : system_env) (from receiver : Z) (net cpu : asset) (transfer : bool) : sys unit :=
  _ ← auth env from;
  zero ← st_lift (both_zero net cpu);
  _ ← assert (negb zero);
  total ← st_lift (asset_add net cpu);
  _ ← assert (Z.max (Z.abs (amount net)) (Z.abs (amount cpu)) <=? Z.abs (amount total));
  let source_stake_from := from in
  let from := if transfer then receiver else from in
  _ ← change_delegation from receiver net cpu;
  _ ← change_totals from receiver net cpu;
  _ ← settle env source_stake_from from receiver net cpu transfer;
  total_update ← st_lift (asset_add net cpu);
  change_voter env from total_update.

(** update_proposal_votes changes the open proposals one by one, in the order of their end; no change
    depends on another. *)
Definition add_weight (yea : bool) (w : Z) (p : proposal_info) : proposal_info :=
  Proposal (pr_owner p) (pr_account p) (start_time p) (vote_end_time p) (exec_end_time p) (exec_time p)
    (block_height p) (pr_type p) (is_satisfy p) (is_exec p) (pr_consensus_type p)
    (if yea then i64 (total_yeas p + w) else total_yeas p)
    (if yea then total_nays p else i64 (total_nays p + w)) (total_staked p).

Definition update_proposal_votes (env : system_env) (voter_name weight : Z) : sys unit :=
  s ← st_get;
  if proposal_num (gstate s) =? 0 then mret tt
  else st_put (with_proposals
    (map_imap (λ id (row : Z * proposal_info), Some
       (if vote_end_time row.2 <=? time_now env then row
        else match find (pvotes s) (id, voter_name) with
             | Some v => (voter_name, add_weight (pv_vote v) weight row.2)
             | None => row
             end)) (proposals s)) s).

(** The votes on proposals that the stake of an account gives. *)
Definition proposal_weight (s : system_state) (account : Z) : Z :=
  match find (voters s) account with
  | Some v => stake_to_proposal_votes (staked v)
  | None => 0
  end.

(** [changebw], then the open proposals and the total are brought up to date. *)
Definition change_stake (env : system_env) (from receiver : Z) (net cpu : asset) (transfer : bool)
    (change_account : Z) : sys unit :=
  s ← st_get;
  let pvote_weight_old := proposal_weight s change_account in
  _ ← changebw env from receiver net cpu transfer;
  s ← st_get;
  let pvote_weight_new := proposal_weight s change_account in
  let weight := i64 (pvote_weight_new - pvote_weight_old) in
  if negb (weight =? 0) then
    _ ← update_proposal_votes env change_account weight;
    modify_gstate (λ g, set_governance g (proposal_num g) (producer_num g)
                          (i64 (total_proposal_stake g + weight)))
  else mret tt.

Definition delegatebw (env : system_env) (from receiver : Z) (net cpu : asset) (transfer : bool) : sys unit :=
  neg ← st_lift (asset_ltb cpu (core 0));
  _ ← assert (negb neg);
  neg ← st_lift (asset_ltb net (core 0));
  _ ← assert (negb neg);
  sum ← st_lift (asset_add net cpu);
  pos ← st_lift (asset_ltb (core 0) sum);
  _ ← assert pos;
  _ ← assert (negb transfer || negb (from =? receiver));
  change_stake env from receiver net cpu transfer (if transfer then receiver else from).

Definition undelegatebw (env : system_env) (from receiver : Z) (net cpu : asset) : sys unit :=
  ok ← st_lift (asset_leb (core 0) cpu);
  _ ← assert ok;
  ok ← st_lift (asset_leb (core 0) net);
  _ ← assert ok;
  sum ← st_lift (asset_add cpu net);
  pos ← st_lift (asset_ltb (core 0) sum);
  _ ← assert pos;
  s ← st_get;
  _ ← assert (min_proposal_stake <=? total_proposal_stake (gstate s));
  change_stake env from receiver (asset_neg net) (asset_neg cpu) false from.

Definition refund (env : system_env) (owner : Z) : sys unit :=
  _ ← auth env owner;
  s ← st_get;
  req ← st_lift (get (refunds s) owner);
  _ ← assert (u32 (request_time req + refund_delay) <=? time_now env);
  total ← st_lift (asset_add (net_amount req) (cpu_amount req));
  _ ← send_transfer eonio_stake owner total (codes "unstake");
  upd refunds with_refunds (erase owner).

(** ** Producers and votes on proposals (voting.cpp) *)
Definition regproducer (env : system_env) (producer : Z) (key url : list Z) (location : Z) : sys unit :=
  _ ← assert (Z.of_nat (length url) <? 512);
  _ ← assert (negb (bool_decide (key = no_key)));
  _ ← auth env producer;
  s ← st_get;
  match find (producers s) producer with
  | Some _ => upd producers with_producers (modify producer producer (λ i,
      mret (ProducerInfo (p_owner i) (total_votes i) key true url (unpaid_blocks i) (last_claim_time i) location)))
  | None => upd producers with_producers (emplace producer producer
      (ProducerInfo producer d0 key true url 0 0 location))
  end.

Definition unregprod (env : system_env) (producer : Z) : sys unit :=
  _ ← auth env producer;
  upd producers with_producers (modify 0 producer (λ p, mret (deactivate p))).

(** The order of the secondary index by votes: the key, and the primary key when keys are equal. *)
Definition votes_before (p q : producer_info) : Prop :=
  dltb (by_votes p) (by_votes q) || (negb (dltb (by_votes q) (by_votes p)) && (p_owner p <=? p_owner q)) = true.
#[global] Instance votes_before_dec p q : Decision (votes_before p q) := decide (_ = true).
Definition name_before (p q : Z * list Z) : Prop := p.1 <= q.1.
#[global] Instance name_before_dec p q : Decision (name_before p q) := decide (p.1 <= q.1).

Definition producers_by_votes (t : table Z producer_info) : list producer_info :=
  merge_sort votes_before ((map_to_list t).*2.*2).

Definition update_elected_producers (env : system_env) (slot : Z) : sys unit :=
  _ ← modify_gstate (λ g, set_blocks g slot (last_pervote_bucket_fill g) (perblock_bucket g)
        (total_unpaid_blocks g) (thresh_activated_stake_time g) (last_producer_schedule_size g) (last_name_close g));
  s ← st_get;
  let top_producers := take (Z.to_nat (producer_num (gstate s)))
                         (List.filter is_active (producers_by_votes (producers s))) in
  let sorted := merge_sort name_before (map (λ p, (p_owner p, p_key p)) top_producers) in
  if 0 <=? set_proposed_producers env sorted then
    _ ← st_modify (with_proposed_schedule (Some sorted));
    modify_gstate (λ g, set_blocks g (last_producer_schedule_update g) (last_pervote_bucket_fill g)
      (perblock_bucket g) (total_unpaid_blocks g) (thresh_activated_stake_time g)
      (u16 (Z.of_nat (length top_producers))) (last_name_close g))
  else mret tt.

Definition add_elected_producers (env : system_env) (new_producer : Z) : sys unit :=
  s ← st_get;
  gnd ← st_lift (get (gnodes s) new_producer);
  regproducer env new_producer (g_key gnd) (g_url gnd) (g_location gnd).

Definition remove_elected_producers (env : system_env) (remove_producer : Z) : sys unit :=
  unregprod env remove_producer.

(** [voter->staked] of the end iterator, when the voter has never staked, is undefined. *)
Definition voteproposal (env : system_env) (voter_name proposal_id : Z) (yea : bool) : sys unit :=
  _ ← auth env voter_name;
  s ← st_get;
  proposal_voting ← st_lift (get (proposals s) proposal_id);
  _ ← assert (time_now env <? vote_end_time proposal_voting);
  voter ← st_lift (of_option (find (voters s) voter_name) undefined_behaviour);
  let pvote_weight := stake_to_proposal_votes (staked voter) in
  let k := (proposal_id, voter_name) in
  match find (pvotes s) k with
  | Some v =>
      if negb (Bool.eqb yea (pv_vote v)) then
        _ ← upd pvotes with_pvotes (modify voter_name k (λ _, mret (ProposalVote yea (time_now env))));
        upd proposals with_proposals (modify voter_name proposal_id (λ p,
          mret (add_weight yea pvote_weight (add_weight (negb yea) (- pvote_weight) p))))
      else mret tt
  | None =>
      _ ← upd pvotes with_pvotes (emplace voter_name k (ProposalVote yea (time_now env)));
      upd proposals with_proposals (modify voter_name proposal_id (λ p, mret (add_weight yea pvote_weight p)))
  end.

(** ** producer_pay.cpp *)
(** The order of the secondary index by bid. *)
Definition bid_before (x y : name_bid) : bool :=
  (by_high_bid x <? by_high_bid y) || ((by_high_bid x =? by_high_bid y) && (newname x <=? newname y)).
Definition highest_bid (t : table Z name_bid) : option name_bid :=
  foldr (λ b acc, match acc with
                  | Some c => Some (if bid_before b c then b else c)
                  | None => Some b
                  end) None ((map_to_list t).*2.*2).

Definition close_auction (env : system_env) (slot : Z) : sys unit :=
  s ← st_get;
  let ct := current_time (cenv env) in
  match highest_bid (bids s) with
  | Some highest =>
      if (0 <? high_bid highest) && (last_bid_time highest <? u64 (ct - useconds_per_day)) &&
         (0 <? thresh_activated_stake_time (gstate s)) &&
         (14 * useconds_per_day <? u64 (ct - thresh_activated_stake_time (gstate s))) then
        _ ← modify_gstate (λ g, set_blocks g (last_producer_schedule_update g) (last_pervote_bucket_fill g)
              (perblock_bucket g) (total_unpaid_blocks g) (thresh_activated_stake_time g)
              (last_producer_schedule_size g) slot);
        upd bids with_bids (modify 0 (newname highest) (λ b,
          mret (NameBid (newname b) (high_bidder b) (i64 (- high_bid b)) (last_bid_time b))))
      else mret tt
  | None => mret tt
  end.

Definition set_unpaid (n claim : Z) (p : producer_info) : producer_info :=
  ProducerInfo (p_owner p) (total_votes p) (p_key p) (is_active p) (p_url p) n claim (p_location p).

Definition onblock (env : system_env) (slot producer : Z) : sys unit :=
  _ ← auth env eonio;
  s ← st_get;
  if (total_proposal_stake (gstate s) <? min_proposal_stake) || (producer_num (gstate s) <? min_producer_size)
  then mret tt
  else
    _ ← modify_gstate (λ g, set_blocks g (last_producer_schedule_update g)
          (if last_pervote_bucket_fill g =? 0 then current_time (cenv env) else last_pervote_bucket_fill g)
          (perblock_bucket g) (total_unpaid_blocks g) (thresh_activated_stake_time g)
          (last_producer_schedule_size g) (last_name_close g));
    _ ← (match find (producers s) producer with
         | Some _ =>
             _ ← modify_gstate (λ g, set_blocks g (last_producer_schedule_update g) (last_pervote_bucket_fill g)
                   (perblock_bucket g) (u32 (total_unpaid_blocks g + 1)) (thresh_activated_stake_time g)
                   (last_producer_schedule_size g) (last_name_close g));
             modify_producer producer (λ p, set_unpaid (u32 (unpaid_blocks p + 1)) (last_claim_time p) p)
         | None => mret tt
         end);
    s ← st_get;
    if 240 <? u32 (slot - last_producer_schedule_update (gstate s)) then
      _ ← update_elected_producers env slot;
      s ← st_get;
      if blocks_per_day <? u32 (slot - last_name_close (gstate s)) then close_auction env slot else mret tt
    else mret tt.

Definition get_producers_size (s : system_state) : Z := u16 (Z.of_nat (size (producers s))).

(** [yeas - nays > total / 10] *)
Definition satisfied (s : system_state) (p : proposal_info) : bool :=
  Z.quot (total_proposal_stake (gstate s)) 10 <? i64 (total_yeas p - total_nays p).
Definition set_satisfy (p : proposal_info) : proposal_info :=
  Proposal (pr_owner p) (pr_account p) (start_time p) (vote_end_time p) (exec_end_time p) (exec_time p)
    (block_height p) (pr_type p) true (is_exec p) (pr_consensus_type p) (total_yeas p) (total_nays p) (total_staked p).
Definition set_executed (time total : Z) (p : proposal_info) : proposal_info :=
  Proposal (pr_owner p) (pr_account p) (start_time p) (vote_end_time p) (exec_end_time p) time
    (block_height p) (pr_type p) (is_satisfy p) true (pr_consensus_type p) (total_yeas p) (total_nays p) total.
Definition set_bp (b : bool) (g : goverance_node_info) : goverance_node_info :=
  GNode (g_owner g) (g_payer g) (bp_staked g) (stake_time g) b (g_status g) (g_key g) (g_url g) (g_location g).
Definition modify_proposal (payer id : Z) (f : proposal_info → proposal_info) : sys unit :=
  upd proposals with_proposals (modify payer id (λ p, mret (f p))).
Definition modify_gnode (payer account : Z) (f : goverance_node_info → goverance_node_info) : sys unit :=
  upd gnodes with_gnodes (modify payer account (λ g, mret (f g))).

(** The branches of [execproposal] for the three types. *)
Definition exec_type (env : system_env) (owner proposal_id : Z) (prop : proposal_info) : sys unit :=
  s ← st_get;
  if ((pr_type prop =? 1) || (pr_type prop =? 2) || (pr_type prop =? 3)) && satisfied s prop then
    _ ← modify_proposal owner proposal_id set_satisfy;
    if pr_type prop =? 3 then st_modify (with_consensus (Some (pr_consensus_type prop)))
    else
      s ← st_get;
      _ ← st_lift (get (gnodes s) (pr_account prop));
      if pr_type prop =? 1 then
        _ ← add_elected_producers env (pr_account prop);
        _ ← modify_gstate (λ g, set_governance g (proposal_num g) (i64 (producer_num g + 1)) (total_proposal_stake g));
        modify_gnode owner (pr_account prop) (set_bp true)
      else
        _ ← remove_elected_producers env (pr_account prop);
        _ ← modify_gstate (λ g, set_governance g (proposal_num g) (i64 (producer_num g - 1)) (total_proposal_stake g));
        modify_gnode owner (pr_account prop) (set_bp false)
  else mret tt.

Definition execproposal (env : system_env) (owner proposal_id : Z) : sys unit :=
  _ ← auth env owner;
  s ← st_get;
  _ ← st_lift (get (gnodes s) owner);
  prop ← st_lift (get (proposals s) proposal_id);
  _ ← assert (negb (7 <? get_producers_size s) || (vote_end_time prop <? time_now env));
  _ ← assert (time_now env <? exec_end_time prop);
  _ ← assert (negb (is_exec prop));
  _ ← exec_type env owner proposal_id prop;
  s ← st_get;
  modify_proposal owner proposal_id (set_executed (time_now env) (total_proposal_stake (gstate s))).

Definition newproposal (env : system_env) (owner account height type consensus_type : Z) : sys unit :=
  _ ← auth env owner;
  s ← st_get;
  _ ← st_lift (get (gnodes s) owner);
  _ ← assert (negb (type =? 1) || (owner =? account));
  _ ← assert (negb (type =? 3) ||
              ((consensus_type =? 0) || (consensus_type =? 1) || (consensus_type =? 2)));
  fee ← st_lift (new_asset (new_proposal_fee (gstate s)) CORE_SYMBOL);
  _ ← send_transfer owner eonio_prop fee (codes "transfer 1.5000 EON to new proposal");
  id ← st_lift (available_primary_key (proposals s));
  let end_ := u32 (time_now env + 2 * 3600) in
  _ ← upd proposals with_proposals (emplace (self (cenv env)) id
        (Proposal owner account (time_now env) end_ (u32 (end_ + 24 * 3600 * 3)) (heap_word env) height type
           false false consensus_type 0 0 0));
  modify_gstate (λ g, set_governance g (i64 (proposal_num g + 1)) (producer_num g) (total_proposal_stake g)).

Definition staketognode (env : system_env) (payer owner : Z) (key url : list Z) (location : Z) : sys unit :=
  _ ← auth env payer;
  s ← st_get;
  _ ← assert (negb (bool_decide (is_Some (find (gnodes s) owner))));
  let fee := stake_to_gnode_fee (gstate s) in
  quantity ← st_lift (new_asset fee CORE_SYMBOL);
  _ ← send_transfer payer eonio_bpstk quantity (codes "stake 1.0000 EON to governance node");
  upd gnodes with_gnodes (emplace owner owner (GNode owner payer fee (time_now env) false 0 key url location)).

(** Every proposal that is open is of another owner and about another account. *)
Definition no_open_proposal (env : system_env) (owner : Z) (s : system_state) : bool :=
  forallb (λ p, (vote_end_time p <=? time_now env) || (negb (pr_owner p =? owner) && negb (pr_account p =? owner)))
    ((map_to_list (proposals s)).*2.*2).

Definition unstakegnode (env : system_env) (owner : Z) : sys unit :=
  _ ← auth env owner;
  s ← st_get;
  gnd ← st_lift (get (gnodes s) owner);
  _ ← assert (negb (is_bp gnd));
  _ ← assert (no_open_proposal env owner s);
  _ ← upd gnodes with_gnodes (erase owner);
  fee ← st_lift (new_asset (bp_staked gnd) CORE_SYMBOL);
  send_transfer eonio_bpstk (g_payer gnd) fee (codes "unstake goverance node refund").

Definition updategnode (env : system_env) (owner : Z) (key url : list Z) (location : Z) : sys unit :=
  _ ← auth env owner;
  s ← st_get;
  gnd ← st_lift (get (gnodes s) owner);
  _ ← assert (negb (is_bp gnd));
  modify_gnode owner owner (λ g, GNode (g_owner g) (g_payer g) (bp_staked g) (stake_time g) (is_bp g)
                                   (g_status g) key url location).

Definition claimrewards (env : system_env) (owner : Z) : sys unit :=
  _ ← auth env owner;
  s ← st_get;
  prod ← st_lift (get (producers s) owner);
  _ ← assert (is_active prod);
  _ ← assert (min_proposal_stake <=? total_proposal_stake (gstate s));
  let ct := current_time (cenv env) in
  _ ← assert (useconds_per_day <? u64 (ct - last_claim_time prod));
  let pay := if 0 <? total_unpaid_blocks (gstate s)
             then i64 (reward_pre_block (gstate s) * unpaid_blocks prod) else 0 in
  _ ← modify_gstate (λ g, set_blocks g (last_producer_schedule_update g) (last_pervote_bucket_fill g)
        (i64 (perblock_bucket g - pay)) (u32 (total_unpaid_blocks g - unpaid_blocks prod))
        (thresh_activated_stake_time g) (last_producer_schedule_size g) (last_name_close g));
  _ ← modify_producer owner (set_unpaid 0 ct);
  if 0 <? pay then
    fee ← st_lift (new_asset pay CORE_SYMBOL);
    send_transfer eonio_blkpay owner fee (codes "producer block pay")
  else mret tt.

(** ** The actions of the contract *)
(** The list of EOSIO_ABI; [NativeAction] are updateauth, deleteauth, linkauth, unlinkauth, canceldelay
    and onerror, which the contract leaves to the chain. *)
Inductive system_action :=
  | NewAccount (creator newact : Z)
  | NativeAction
  | SetRam (max_ram : Z)
  | SetParams (params : chain_config)
  | SetPriv (account ispriv : Z)
  | RmvProducer (producer : Z)
  | BidName (bidder new_name : Z) (bid : asset)
  | BuyRamBytes (payer receiver bytes : Z)
  | BuyRam (payer receiver : Z) (quant : asset)
  | SellRam (account bytes : Z)
  | DelegateBw (from receiver : Z) (net cpu : asset) (transfer : bool)
  | UndelegateBw (from receiver : Z) (net cpu : asset)
  | Refund (owner : Z)
  | VoteProposal (voter id : Z) (yea : bool)
  | RegProxy (proxy : Z) (isproxy : bool)
  | OnBlock (slot producer : Z)
  | ExecProposal (owner id : Z)
  | NewProposal (owner account height type consensus_type : Z)
  | StakeToGNode (payer owner : Z) (key url : list Z) (location : Z)
  | UnstakeGNode (owner : Z)
  | UpdateGNode (owner : Z) (key url : list Z) (location : Z)
  | ClaimRewards (owner : Z).

Definition system_dispatch (env : system_env) (a : system_action) : sys unit :=
  match a with
  | NewAccount c n => newaccount env c n
  | NativeAction => mret tt
  | SetRam m => setram env m
  | SetParams p => setparams env p
  | SetPriv a p => setpriv env a p
  | RmvProducer p => rmvproducer env p
  | BidName b n q => bidname env b n q
  | BuyRamBytes p r b => buyrambytes env p r b
  | BuyRam p r q => buyram env p r q
  | SellRam a b => sellram env a b
  | DelegateBw f r n c t => delegatebw env f r n c t
  | UndelegateBw f r n c => undelegatebw env f r n c
  | Refund o => refund env o
  | VoteProposal v i y => voteproposal env v i y
  | RegProxy p b => regproxy env p b
  | OnBlock t p => onblock env t p
  | ExecProposal o i => execproposal env o i
  | NewProposal o a h t c => newproposal env o a h t c
  | StakeToGNode p o k u l => staketognode env p o k u l
  | UnstakeGNode o => unstakegnode env o
  | UpdateGNode o k u l => updategnode env o k u l
  | ClaimRewards o => claimrewards env o
  end.

(** [TYPE thiscontract( self ); switch( action ) ...], at whose end the destructor runs. *)
Definition system_run (env : system_env) (a : system_action) : sys unit :=
  _ ← construct env;
  _ ← system_dispatch env a;
  destruct_.

(** The contract before its first action. *)
Definition system_initial (g : global_state) : system_state :=
  SystemState None g ∅ ∅ ∅ ∅ ∅ ∅ ∅ ∅ ∅ None ∅ ∅ None None ∅ [].

End system.
