(* ===== verification/SystemLogic.v ===== *)
(** * Reasoning about the system contract

    The tactic [wp_steps] runs a handler of the system contract symbolically, one case for each path
    through it, with the weakest preconditions of Wp; and the lemmas on tables, on what blocks change
    and on numbers modulo 2 ^ 64 that the files about the contract share. *)

From stdpp Require Import sorting strings.
From S2P Require Import Prelude Wp Names Dimensionlib Token RamMarket ChainConfig System.

(** ** Steps of the system contract *)
Section system_wp.
Implicit Types (s : system_state).

Lemma wp_auth env a Q s : (a ∈ authorized (cenv env) → Q tt s) → wp (auth env a) Q s.
Proof.
  intros H. apply wp_lift. intros [] Ha. unfold require_auth in Ha. inv_ok. reflect_bools. by apply H.
Qed.
Lemma wp_assert c Q s : (c = true → Q tt s) → wp (assert c) Q s.
Proof. intros H. apply wp_lift. intros [] Ha. inv_ok. by apply H. Qed.
Lemma wp_upd {T} (F : system_state → T) G f Q s : (∀ t, f (F s) = Ok t → Q tt (G t s)) → wp (upd F G f) Q s.
Proof. intros H. unfold upd. apply wp_bind, wp_get, wp_bind, wp_lift. intros t Ht. by apply wp_put, H. Qed.
Lemma wp_modify_gstate f Q s : Q tt (with_gstate (f (gstate s)) s) → wp (modify_gstate f) Q s.
Proof. done. Qed.
Lemma wp_send f t q m Q s :
  Q tt (with_inline (inline s ++ [TransferArgs f t q m]) s) → wp (send_transfer f t q m) Q s.
Proof. done. Qed.
Lemma wp_limits a r n c Q s :
  Q tt (with_resource_limits (<[a := (r, n, c)]> (resource_limits s)) s) → wp (set_resource_limits a r n c) Q s.
Proof. done. Qed.
End system_wp.

Ltac wp_step :=
  lazymatch goal with
  | |- wp (auth _ _) _ _ => apply wp_auth; intros ?; cbv beta
  | |- wp (assert _) _ _ => apply wp_assert; intros ?; cbv beta
  | |- wp (upd _ _ _) _ _ => apply wp_upd; intros ? ?; cbv beta
  | |- wp (modify_gstate _) _ _ => apply wp_modify_gstate; cbv beta
  | |- wp (send_transfer _ _ _ _) _ _ => apply wp_send; cbv beta
  | |- wp (set_resource_limits _ _ _ _) _ _ => apply wp_limits; cbv beta
  | _ => wp_basic
  end.
#[global] Arguments propagate_weight_change : simpl never.
#[global] Arguments has_dot : simpl never.
#[global] Arguments name_suffix : simpl never.
#[global] Arguments codes : simpl never.
#[global] Arguments name_to_string : simpl never.

Ltac wp_steps := repeat (cbv zeta; wp_step).

(** Turns what is known of the tables after a step into equations. *)
Ltac inv_rows :=
  repeat match goal with
  | H : emplace _ _ _ _ = Ok _ |- _ => apply emplace_ok in H as [? ->]
  | H : erase _ _ = Ok _ |- _ => apply erase_ok in H as [? ->]
  | H : modify _ _ _ _ = Ok _ |- _ => apply modify_ok in H as (? & ? & ? & ? & ? & ->)
  | H : mret _ = Ok _ |- _ => injection H as <-
  | H : get _ _ = Ok _ |- _ => apply get_ok in H
  | H : find _ _ = Some _ |- _ => apply find_Some in H as [? ?]
  | H : find _ _ = None |- _ => apply find_None in H
  end.

(** ** What onblock changes *)
(** The fields of the global state that blocks change. *)
Definition blocks_of (g g' : global_state) : Prop :=
  ∃ u f b n sz c, g' = set_blocks g u f b n (thresh_activated_stake_time g) sz c.

Lemma blocks_refl g : blocks_of g g.
Proof. destruct g. eexists _, _, _, _, _, _. reflexivity. Qed.
Lemma blocks_trans g g1 g2 : blocks_of g g1 → blocks_of g1 g2 → blocks_of g g2.
Proof. intros (? & ? & ? & ? & ? & ? & ->) (? & ? & ? & ? & ? & ? & ->). by repeat eexists. Qed.

Lemma wp_set_blocks u f b n sz c Q s :
  (∀ g, blocks_of (gstate s) g → Q tt (with_gstate g s)) →
  wp (modify_gstate (λ g, set_blocks g (u g) (f g) (b g) (n g) (thresh_activated_stake_time g) (sz g) (c g))) Q s.
Proof. intros H. apply wp_modify_gstate, H. by repeat eexists. Qed.

Lemma update_elected_frame env slot s :
  wp (update_elected_producers env slot) (λ _ s', ∃ S g, blocks_of (gstate s) g ∧
    s' = with_proposed_schedule S (with_gstate g s)) s.
Proof.
  unfold update_elected_producers. apply wp_bind, wp_set_blocks. intros g Hg. wp_steps.
  - eexists _, _. split; [|reflexivity]. eapply blocks_trans; [exact Hg|]. by repeat eexists.
  - exists (proposed_schedule s), g. by split.
Qed.

Lemma close_auction_frame env slot s :
  wp (close_auction env slot) (λ _ s', ∃ B g, blocks_of (gstate s) g ∧ s' = with_bids B (with_gstate g s) ∧
    (thresh_activated_stake_time (gstate s) = 0 → B = bids s)) s.
Proof.
  unfold close_auction. wp_steps.
  1: eexists _, _; split; [by repeat eexists|split; [reflexivity|]]; intros Hz; by rewrite Hz, !andb_false_r in *.
  all: exists (bids s), (gstate s); split; [apply blocks_refl|by destruct s].
Qed.

Lemma onblock_frame env slot p s :
  wp (onblock env slot p) (λ _ s', ∃ P S B g, blocks_of (gstate s) g ∧
    s' = with_producers P (with_proposed_schedule S (with_bids B (with_gstate g s))) ∧
    (thresh_activated_stake_time (gstate s) = 0 → B = bids s)) s.
Proof.
  unfold onblock. apply wp_bind, wp_auth. intros _. apply wp_bind, wp_get. destruct (_ || _).
  { apply wp_ret. exists (producers s), (proposed_schedule s), (bids s), (gstate s).
    split; [apply blocks_refl|by destruct s]. }
  apply wp_bind, wp_set_blocks. intros g Hg.
  apply wp_bind, (wp_mono _ (λ _ s1, ∃ P g, blocks_of (gstate s) g ∧ s1 = with_producers P (with_gstate g s))).
  { destruct (find _ _).
    - apply wp_bind, wp_set_blocks. intros g' Hg'. unfold modify_producer. wp_steps.
      eexists _, g'. split; [by eapply blocks_trans|reflexivity].
    - apply wp_ret. exists (producers s), g. by split. }
  intros _ ? (P & g1 & Hg1 & ->). apply wp_bind, wp_get. destruct (_ <? _).
  2: { apply wp_ret. exists P, (proposed_schedule s), (bids s), g1. by split. }
  wp_call update_elected_frame. destruct H as (S & g2 & Hg2 & ->). apply wp_bind, wp_get.
  pose proof (blocks_trans _ _ _ Hg1 Hg2) as Hg12.
  destruct (_ <? _); [|apply wp_ret; by exists P, S, (bids s), g2].
  eapply wp_mono; [apply close_auction_frame|]. intros _ ? (B & g3 & Hg3 & -> & HB). simpl in *.
  exists P, S, B, g3. split; [by eapply blocks_trans|]. split; [reflexivity|].
  intros Hz. apply HB. by destruct Hg12 as (? & ? & ? & ? & ? & ? & ->).
Qed.

(** ** What the constructor does *)
Section load.
Context {CS : CoreSymbol}.

(** The state that an action of the contract starts with, but for the market. *)
Definition load (env : system_env) (s : system_state) : system_state :=
  with_inline [] (with_gstate (default (get_default_parameters env) (stored_global s)) s).

Lemma construct_frame env s : wp (construct env) (λ _ s', ∃ m, s' = with_rammarket m (load env s)) s.
Proof.
  unfold construct. wp_steps; fold (load env s); [|by eexists|]; exists (rammarket s); by destruct s.
Qed.
End load.

(** ** Numbers modulo 2 ^ 64 *)
(** Sums of 64-bit counters are kept up to multiples of 2 ^ 64. *)
Definition eqm (a b : Z) : Prop := ∃ k, a = b + k * 2 ^ 64.
Infix "≡64" := eqm (at level 70).

#[global] Instance eqm_equivalence : Equivalence eqm.
Proof.
  split.
  - intros a. exists 0. lia.
  - intros a b [k ->]. exists (- k). lia.
  - intros a b c [k ->] [l ->]. exists (k + l). lia.
Qed.
#[global] Instance eqm_add : Proper (eqm ==> eqm ==> eqm) Z.add.
Proof. intros a b [k ->] c d [l ->]. exists (k + l). lia. Qed.
#[global] Instance eqm_sub : Proper (eqm ==> eqm ==> eqm) Z.sub.
Proof. intros a b [k ->] c d [l ->]. exists (k - l). lia. Qed.
#[global] Instance eqm_opp : Proper (eqm ==> eqm) Z.opp.
Proof. intros a b [k ->]. exists (- k). lia. Qed.

Lemma i64_eqm a : i64 a ≡64 a.
Proof.
  unfold i64. exists (- ((a + 2 ^ 63) / 2 ^ 64)). rewrite Z.mod_eq by done. lia.
Qed.
Lemma u64_eqm a : u64 a ≡64 a.
Proof. unfold u64. exists (- (a / 2 ^ 64)). rewrite Z.mod_eq by done. lia. Qed.
#[global] Instance i64_proper : Proper (eqm ==> eq) i64.
Proof.
  intros a b [k ->]. unfold i64. f_equal. replace (b + k * 2 ^ 64 + 2 ^ 63) with (b + 2 ^ 63 + k * 2 ^ 64) by lia.
  apply Z.mod_add. lia.
Qed.
#[global] Instance u64_proper : Proper (eqm ==> eq) u64.
Proof. intros a b [k ->]. unfold u64. apply Z.mod_add. lia. Qed.

(** ** Sequences of actions *)
(** The integers of an action are values of their types. *)
Definition typed_action (a : system_action) : Prop :=
  match a with
  | BidName _ _ q | BuyRam _ _ q => in_i64 (amount q)
  | DelegateBw _ _ n c _ | UndelegateBw _ _ n c => in_i64 (amount n) ∧ in_i64 (amount c)
  | SellRam _ b => in_i64 b
  | BuyRamBytes _ _ b | OnBlock b _ => 0 <= b < 2 ^ 32
  | SetRam m => in_u64 m
  | NewProposal _ _ h t c => 0 <= h < 2 ^ 32 ∧ in_i64 t ∧ in_i64 c
  | _ => True
  end.
Inductive system_step `{Libm, CoreSymbol} (s s' : system_state) : Prop :=
| system_step_run env a : typed_action a → system_run env a s = (s', Ok tt) → system_step s s'.

(** ** A run of the contract *)
Definition toy_libm : Libm := {| pow x _ := x |}.
Definition EON : Z := Eval vm_compute in string_to_symbol 4 [69; 79; 78].
Definition toy_core : CoreSymbol.
Proof. refine {| CORE_SYMBOL := EON |}; [reflexivity|split; discriminate]. Defined.
(** The accounts whose names the contract uses exist, and those with the numbers 1 to 9. *)
Definition toy_accounts : list Z :=
  [1; 2; 3; 4; 5; 6; 7; 8; 9; eonio; eonio_token; eonio_stake; eonio_ram; eonio_ramfee; eonio_names;
   eonio_prop; eonio_bpstk; eonio_blkpay].
Definition toy_env (auths : list Z) (time : Z) : system_env :=
  SystemEnv (ContractEnv eonio auths (λ a, bool_decide (a ∈ toy_accounts)) time (time * 1000000))
    (Ok 10000000000000) initial_configuration (λ _, 0) 0.
Definition toy_initial : system_state :=
  system_initial (get_default_parameters (toy_env [] 0)).
