(* ===== verification/Auctions.v ===== *)
(** * Name auctions

    The auction of a premium name closes in onblock, when the account that bid most may create the
    name.  It closes only after thresh_activated_stake_time is set, which update_votes does for votes
    on producers; and no action of the contract casts such a vote.

    Results: no auction ever closes, so that nobody but the contract itself can create a name without
    a suffix. *)

From stdpp Require Import sorting strings.
From S2P Require Import Prelude Wp Names Dimensionlib Token RamMarket ChainConfig System SystemLogic.

Section auctions.
Context {LM : Libm} {CS : CoreSymbol}.
Implicit Types (s : system_state) (env : system_env).

(** A closed auction is one whose bid is stored negative. *)
Definition bid_open (b : name_bid) : Prop := 0 < high_bid b.

(** Nobody votes for producers, and no auction is closed. *)
Record dormant s : Prop := {
  dm_stored g : stored_global s = Some g → thresh_activated_stake_time g = 0;
  dm_voters a p v : voters s !! a = Some (p, v) → v_proxy v = 0 ∧ v_producers v = [];
  dm_bids n p b : bids s !! n = Some (p, b) → 0 < high_bid b ∧ newname b = n;
}.
Definition asleep s : Prop := dormant s ∧ thresh_activated_stake_time (gstate s) = 0.

Lemma asleep_frame s s' :
  asleep s → stored_global s' = stored_global s → voters s' = voters s → bids s' = bids s →
  thresh_activated_stake_time (gstate s') = thresh_activated_stake_time (gstate s) → asleep s'.
Proof. intros [[] Hg] E1 E2 E3 E4. split; [split; rewrite ?E1, ?E2, ?E3; eauto|congruence]. Qed.

Lemma asleep_voter s a p v :
  asleep s → v_proxy v = 0 → v_producers v = [] → asleep (with_voters (<[a := (p, v)]> (voters s)) s).
Proof.
  intros [[] Hg] Hp Hv. split; [split; simpl; eauto|done].
  intros ? ? ? [[-> [= <- <-]]|[? ?]]%lookup_insert_Some; eauto.
Qed.

Lemma asleep_bid s n p b :
  asleep s → 0 < high_bid b → newname b = n → asleep (with_bids (<[n := (p, b)]> (bids s)) s).
Proof.
  intros [[] Hg] Hp Hv. split; [split; simpl; eauto|done].
  intros ? ? ? [[-> [= <- <-]]|[? ?]]%lookup_insert_Some; eauto.
Qed.

Ltac frame := match goal with H : asleep ?s |- asleep _ => apply (asleep_frame s); [exact H|reflexivity..] end.

Lemma construct_asleep env s : dormant s → wp (construct env) (λ _, asleep) s.
Proof.
  intros Hd. unfold construct. wp_steps; (split; [split; simpl; apply Hd|]); simpl;
    destruct (stored_global s) eqn:E; simpl; try done; by eapply dm_stored.
Qed.

Lemma bidname_asleep env b n q s : asleep s → wp (bidname env b n q) (λ _, asleep) s.
Proof.
  intros Hs. unfold bidname. wp_steps; inv_rows; reflect_bools; simpl in *.
  - match goal with H : bids s !! n = Some (_, ?r) |- _ => rewrite H in *; simplify_eq; destruct (dm_bids _ (proj1 Hs) _ _ _ H) end.
    apply (asleep_bid (with_inline _ s)); [frame|done|done].
  - apply (asleep_bid (with_inline _ s)); [frame|done|done].
Qed.

Lemma newaccount_asleep env c n s : asleep s → wp (newaccount env c n) (λ _, asleep) s.
Proof.
  intros Hs. unfold newaccount. wp_steps; inv_rows; try frame.
  match goal with H : of_option _ _ = Ok _ |- _ => apply of_option_ok in H end. inv_rows.
  match goal with H : bids s !! n = Some (_, ?r) |- _ => destruct (dm_bids _ (proj1 Hs) _ _ _ H) end. lia.
Qed.

Lemma modify_voter_asleep a f s :
  asleep s → (∀ v, v_proxy (f v) = v_proxy v ∧ v_producers (f v) = v_producers v) →
  wp (modify_voter a f) (λ _, asleep) s.
Proof.
  intros Hs Hf. unfold modify_voter. wp_steps. inv_rows.
  match goal with H : voters s !! a = Some (_, ?v) |- _ =>
    destruct (dm_voters _ (proj1 Hs) _ _ _ H); destruct (Hf v) end.
  apply asleep_voter; congruence.
Qed.

Lemma propagate_asleep fuel env a s : asleep s → wp (propagate_weight_change fuel env a) (λ _, asleep) s.
Proof.
  intros Hs. destruct fuel as [|fuel]; [done|]. unfold propagate_weight_change; fold propagate_weight_change; unfold get_voter.
  apply wp_bind, wp_bind, wp_get, wp_lift. intros v Hv. inv_rows.
  destruct (dm_voters _ (proj1 Hs) _ _ _ H) as [-> ->]. simpl. wp_steps; by apply modify_voter_asleep.
Qed.

Lemma regproxy_asleep env a b s : asleep s → wp (regproxy env a b) (λ _, asleep) s.
Proof.
  intros Hs. unfold regproxy. wp_steps.
  - wp_call modify_voter_asleep; [done|done|]. by apply propagate_asleep.
  - inv_rows. by apply asleep_voter.
Qed.

Lemma change_delegation_asleep f r n c s : asleep s → wp (change_delegation f r n c) (λ _, asleep) s.
Proof. intros Hs. unfold change_delegation. wp_steps; frame. Qed.
Lemma change_totals_asleep f r n c s : asleep s → wp (change_totals f r n c) (λ _, asleep) s.
Proof. intros Hs. unfold change_totals. wp_steps; frame. Qed.
Lemma change_refund_asleep env f n c s : asleep s → wp (change_refund env f n c) (λ _, asleep) s.
Proof. intros Hs. unfold change_refund. wp_steps; frame. Qed.
Lemma change_voter_asleep env f t s : asleep s → wp (change_voter env f t) (λ _, asleep) s.
Proof.
  intros Hs. unfold change_voter. apply wp_bind, wp_get, wp_bind.
  apply (wp_mono _ (λ _, asleep)).
  { wp_steps; inv_rows; [by apply modify_voter_asleep|by apply asleep_voter]. }
  intros _ s' Hs'. unfold get_voter, validate_b1_vesting. wp_steps; try done; exfalso.
  all: inv_rows; match goal with Hs : asleep ?x, H : voters ?x !! _ = Some _ |- _ =>
         destruct (dm_voters _ (proj1 Hs) _ _ _ H) as [Ep El]; by rewrite Ep, El in * end.
Qed.

Lemma changebw_asleep env f r n c t s : asleep s → wp (changebw env f r n c t) (λ _, asleep) s.
Proof.
  intros Hs. unfold changebw, settle, schedule_refund. wp_steps.
  all: wp_call change_delegation_asleep; [done|].
  all: wp_call change_totals_asleep; [done|].
  all: wp_steps.
  all: try (wp_call change_refund_asleep; [done|]; wp_steps).
  all: apply change_voter_asleep; frame.
Qed.

Lemma update_proposal_votes_asleep env v w s : asleep s → wp (update_proposal_votes env v w) (λ _, asleep) s.
Proof. intros Hs. unfold update_proposal_votes. wp_steps; frame. Qed.

Lemma change_stake_asleep env f r n c t a s : asleep s → wp (change_stake env f r n c t a) (λ _, asleep) s.
Proof.
  intros Hs. unfold change_stake. wp_steps. wp_call changebw_asleep; [done|]. wp_steps; [|done].
  wp_call update_proposal_votes_asleep; [done|]. wp_steps. frame.
Qed.

Lemma buyram_asleep env p r q s : asleep s → wp (buyram env p r q) (λ _, asleep) s.
Proof. intros Hs. unfold buyram, get_market. wp_steps; frame. Qed.

Lemma onblock_asleep env t p s : asleep s → wp (onblock env t p) (λ _, asleep) s.
Proof.
  intros Hs. eapply wp_mono; [apply onblock_frame|].
  intros _ ? (P & S & B & g & (? & ? & ? & ? & ? & ? & ->) & -> & HB). rewrite (HB (proj2 Hs)).
  apply (asleep_frame s); try done.
Qed.

Lemma regproducer_asleep env p k u l s : asleep s → wp (regproducer env p k u l) (λ _, asleep) s.
Proof. intros Hs. unfold regproducer. wp_steps; frame. Qed.
Lemma unregprod_asleep env p s : asleep s → wp (unregprod env p) (λ _, asleep) s.
Proof. intros Hs. unfold unregprod. wp_steps; frame. Qed.

Lemma execproposal_asleep env o i s : asleep s → wp (execproposal env o i) (λ _, asleep) s.
Proof.
  intros Hs. unfold execproposal, exec_type, modify_proposal, modify_gnode, add_elected_producers,
    remove_elected_producers. wp_steps; try frame.
  all: first [wp_call regproducer_asleep; [frame|]|wp_call unregprod_asleep; [frame|]]; wp_steps; frame.
Qed.

Lemma system_run_asleep env a s : dormant s → wp (system_run env a) (λ _, dormant) s.
Proof.
  intros Hd. unfold system_run. wp_call construct_asleep; [done|]. apply wp_bind.
  apply (wp_mono _ (λ _, asleep)).
  2: { intros _ ? [[] Ht]. unfold destruct_. wp_steps. split; simpl; eauto. by intros g [= <-]. }
  destruct a; simpl.
  - by apply newaccount_asleep.
  - wp_steps. done.
  - unfold setram. wp_steps. destruct H as [[] Ht].
    split; [|done]. split; simpl; eauto. by intros g [= <-].
  - unfold setparams. wp_steps. frame.
  - unfold setpriv. wp_steps. frame.
  - unfold rmvproducer. wp_steps. frame.
  - by apply bidname_asleep.
  - unfold buyrambytes. wp_steps. by apply buyram_asleep.
  - by apply buyram_asleep.
  - unfold sellram, get_market. wp_steps; frame.
  - unfold delegatebw. wp_steps; by apply change_stake_asleep.
  - unfold undelegatebw. wp_steps; by apply change_stake_asleep.
  - unfold refund. wp_steps. frame.
  - unfold voteproposal. wp_steps; frame.
  - by apply regproxy_asleep.
  - by apply onblock_asleep.
  - by apply execproposal_asleep.
  - unfold newproposal. wp_steps; frame.
  - unfold staketognode. wp_steps; frame.
  - unfold unstakegnode. wp_steps; frame.
  - unfold updategnode, modify_gnode. wp_steps; frame.
  - unfold claimrewards, modify_producer. wp_steps; frame.
Qed.

Lemma reachable_dormant g s : rtc system_step (system_initial g) s → dormant s.
Proof.
  apply rtc_preserves.
  - intros x y Hx [env a _ Hr]. pose proof (system_run_asleep env a x Hx) as Hw. rewrite wp_run in Hw. by eapply Hw.
  - split; intros *; intros Hk; discriminate Hk.
Qed.

(** C37: No auction of a name ever closes: whatever the contract is asked to do, every bid stays open.
    So a creator other than the contract that makes an account with a dot or fewer than twelve
    characters in its name is the suffix of the name; a name that has no suffix cannot be made by
    whoever bid most for it. *)
Theorem auctions_never_close g s :
  rtc system_step (system_initial g) s →
  (∀ n p b, bids s !! n = Some (p, b) → bid_open b) ∧
  ∀ env creator newact s', system_run env (NewAccount creator newact) s = (s', Ok tt) →
    creator ≠ self (cenv env) → has_dot 12 (Z.shiftr newact 4) = true →
    name_suffix newact ≠ newact ∧ creator = name_suffix newact.
Proof.
  intros Hd%reachable_dormant. split; [intros * Hb; by apply (dm_bids _ Hd) in Hb as []|].
  intros env c n s' Hr Hc Hdot.
  assert (wp (system_run env (NewAccount c n)) (λ _ _, name_suffix n ≠ n ∧ c = name_suffix n) s) as Hw.
  { unfold system_run. wp_call construct_asleep; [done|]. simpl. unfold newaccount, destruct_.
    rewrite Hdot, (proj2 (Z.eqb_neq _ _) Hc). wp_steps; reflect_bools; try done; exfalso.
    match goal with H : of_option _ _ = Ok _ |- _ => apply of_option_ok in H end. inv_rows.
    match goal with Hs : asleep ?x, H : bids ?x !! n = Some _ |- _ => destruct (dm_bids _ (proj1 Hs) _ _ _ H) end. lia. }
  rewrite wp_run in Hw. by eapply Hw.
Qed.

End auctions.

(** A bid for the name [gold] (the characters g, o, l, d). *)
Definition gold : Z := Eval vm_compute in N "gold".
Definition toy_bid : system_action := BidName 1 gold (Asset 5 EON).
Definition toy_bidding : system_state :=
  (@system_run toy_libm toy_core (toy_env [1] 5) toy_bid toy_initial).1.

Lemma auctions_never_close_witness :
  is_Some (find (bids toy_bidding) gold) ∧ ∀ n p b, bids toy_bidding !! n = Some (p, b) → bid_open b.
Proof.
  assert ((@system_run toy_libm toy_core (toy_env [1] 5) toy_bid toy_initial).2 = Ok tt) as Hok by (vm_compute; reflexivity).
  split; [exists (NameBid gold 1 5 5000000); vm_compute; reflexivity|].
  refine (proj1 (@auctions_never_close toy_libm toy_core (get_default_parameters (toy_env [] 0)) toy_bidding _)).
  refine (rtc_once _ _ (@system_step_run toy_libm toy_core _ _ (toy_env [1] 5) toy_bid _ (run_fst _ _ _ Hok))). done.
Defined.
