(* ===== verification/Staking.v ===== *)
(** * Staking

    The books of the system contract on bandwidth: what is delegated (delband), what an account may
    use (userres), what it has staked in all (voters) and what is on its way back to it (refunds);
    delegatebw, undelegatebw and refund change them together.

    Results: the books agree in every state: the weights of an account are the sum of what is
    delegated to it, its stake is the sum of what it delegates, and the limits given to the chain are
    those of the books. *)

From stdpp Require Import sorting strings.
From S2P Require Import Prelude Wp Names Dimensionlib Token RamMarket ChainConfig System SystemLogic Auctions.

(** ** Sums over a table of which one row changes *)
Section row_change.
Context {K A : Type} `{Countable K}.
Implicit Types (m : gmap K A).

Lemma msum_row (f : K → A → Z) m m' k :
  delete k m' = delete k m →
  msum f m' = msum f m + from_option (f k) 0 (m' !! k) - from_option (f k) 0 (m !! k).
Proof.
  intros E. pose proof (msum_delete_any f m' k) as H1. pose proof (msum_delete_any f m k) as H2.
  rewrite E in H1. lia.
Qed.

Lemma msum_ext (f g : K → A → Z) m : (∀ k a, m !! k = Some a → f k a = g k a) → msum f m = msum g m.
Proof. intros E. apply Z.le_antisymm; apply msum_le; intros k a Hk; rewrite (E k a Hk); done. Qed.

Lemma row_other m m' k j : delete k m' = delete k m → j ≠ k → m' !! j = m !! j.
Proof. intros E Hj. rewrite <-(lookup_delete_ne m' k j), <-(lookup_delete_ne m k j), E by done. done. Qed.

Lemma row_insert m k a : delete k (<[k := a]> m) = delete k m.
Proof. apply delete_insert_eq. Qed.
Lemma row_delete m k : delete k (delete k m) = delete k m.
Proof. apply delete_delete_eq. Qed.
End row_change.

Section staking.
Context {LM : Libm} {CS : CoreSymbol}.
Implicit Types (s : system_state) (env : system_env) (x net cpu : asset).

(** ** Amounts of the core token *)
Definition core_amount x : Prop := symbol x = CORE_SYMBOL ∧ 0 <= amount x <= max_amount.
Definition core_delta x : Prop := symbol x = CORE_SYMBOL ∧ - max_amount <= amount x <= max_amount.

Lemma compare_ok cmp x y b :
  asset_compare cmp x y = Ok b ↔ symbol x = symbol y ∧ b = cmp (amount x) (amount y).
Proof.
  unfold asset_compare. destruct (_ =? _) eqn:E; simpl; reflect_bools; split; try done.
  - by intros [= <-].
  - by intros [_ ->].
  - by intros [? _].
Qed.

Lemma add_ok x y r :
  core_delta x → core_delta y → asset_add x y = Ok r →
  core_delta r ∧ amount r = amount x + amount y.
Proof.
  intros [Sx Rx] [Sy Ry] H. unfold asset_add in H. rewrite i64_amount in H by lia. inv_ok. reflect_bools.
  by split.
Qed.

Lemma sub_ok x y r :
  core_delta x → core_delta y → asset_sub x y = Ok r →
  core_delta r ∧ amount r = amount x - amount y.
Proof.
  intros [Sx Rx] [Sy Ry] H. unfold asset_sub in H. rewrite i64_amount in H by lia. inv_ok. reflect_bools.
  by split.
Qed.

Lemma neg_delta x : core_delta x → core_delta (asset_neg x) ∧ amount (asset_neg x) = - amount x.
Proof.
  intros [Sx Rx]. unfold asset_neg, core_delta. simpl. rewrite i64_amount by lia. split; [split; [done|]|]; lia.
Qed.

Lemma amount_delta x : core_amount x → core_delta x.
Proof. unfold core_amount, core_delta, max_amount. intros []. split; [done|lia]. Qed.

Lemma delta_amount x : core_delta x → 0 <= amount x → core_amount x.
Proof. intros [] ?. split; [done|lia]. Qed.

Ltac cmps := repeat match goal with
  | H : asset_leb _ _ = Ok _ |- _ => apply compare_ok in H as [? ->]
  | H : asset_ltb _ _ = Ok _ |- _ => apply compare_ok in H as [? ->]
  end.

Lemma leb_0_ok x : asset_leb (core 0) x = Ok true → 0 <= amount x.
Proof. intros [_ E]%compare_ok. simpl in E. symmetry in E. by reflect_bools. Qed.

Lemma core_0 : core_amount (core 0).
Proof. split; simpl; [done|unfold max_amount; lia]. Qed.

Lemma both_zero_ok x y b :
  both_zero x y = Ok b → symbol x = CORE_SYMBOL ∧ (b = true ↔ amount x = 0 ∧ amount y = 0) .
Proof.
  unfold both_zero. intros (z & [Sx ->]%compare_ok & H2)%bind_ok. simpl in *. split; [done|].
  destruct (amount x =? 0) eqn:E; reflect_bools.
  - apply compare_ok in H2 as [_ ->]. simpl. rewrite Z.eqb_eq. naive_solver.
  - injection H2 as <-. naive_solver.
Qed.

(** ** Rows *)
Definition net_of (o : option (Z * delegated_bandwidth)) : Z := from_option (λ r, amount (d_net r.2)) 0 o.
Definition cpu_of (o : option (Z * delegated_bandwidth)) : Z := from_option (λ r, amount (d_cpu r.2)) 0 o.
Definition delegation_ok (o : option (Z * delegated_bandwidth)) : Prop :=
  from_option (λ r, core_amount (d_net r.2) ∧ core_amount (d_cpu r.2) ∧
                    0 < amount (d_net r.2) + amount (d_cpu r.2)) True o.

Definition unet_of (o : option (Z * user_resources)) : Z := from_option (λ r, amount (net_weight r.2)) 0 o.
Definition ucpu_of (o : option (Z * user_resources)) : Z := from_option (λ r, amount (cpu_weight r.2)) 0 o.
Definition uram_of (o : option (Z * user_resources)) : Z := from_option (λ r, ram_bytes r.2) 0 o.
Definition resources_ok (o : option (Z * user_resources)) : Prop :=
  from_option (λ r, core_amount (net_weight r.2) ∧ core_amount (cpu_weight r.2)) True o.

Definition refund_of (o : option (Z * refund_request)) : Z :=
  from_option (λ r, amount (net_amount r.2) + amount (cpu_amount r.2)) 0 o.
Definition refund_ok (o : option (Z * refund_request)) : Prop :=
  from_option (λ r, core_amount (net_amount r.2) ∧ core_amount (cpu_amount r.2) ∧
                    0 < amount (net_amount r.2) + amount (cpu_amount r.2)) True o.

Ltac steps := wp_steps; inv_rows; simpl in *.

Lemma change_delegation_spec f r net cpu s :
  core_delta net → core_delta cpu → delegation_ok (delband s !! (f, r)) →
  wp (change_delegation f r net cpu) (λ _ s', ∃ D, s' = with_delband D s ∧
    delete (f, r) D = delete (f, r) (delband s) ∧ delegation_ok (D !! (f, r)) ∧
    net_of (D !! (f, r)) = net_of (delband s !! (f, r)) + amount net ∧
    cpu_of (D !! (f, r)) = cpu_of (delband s !! (f, r)) + amount cpu) s.
Proof.
  intros Hn Hc Hok. unfold change_delegation. apply wp_bind, wp_get, wp_bind.
  apply (wp_mono _ (λ _ s1, ∃ p d, s1 = with_delband (<[(f, r) := (p, d)]> (delband s)) s ∧
    core_delta (d_net d) ∧ core_delta (d_cpu d) ∧
    amount (d_net d) = net_of (delband s !! (f, r)) + amount net ∧
    amount (d_cpu d) = cpu_of (delband s !! (f, r)) + amount cpu)).
  { steps; simplify_eq.
    - rename select (delband s !! _ = Some _) into Hk. rewrite Hk in *. simpl in *. destruct Hok as (?%amount_delta & ?%amount_delta & _). inv_ok.
      apply add_ok in Hrun as []; [|done..]. apply add_ok in Hrun0 as []; [|done..]. eauto 10.
    - rename select (delband s !! _ = None) into Hk. rewrite Hk. simpl. eauto 10. }
  intros _ ? (p & d & -> & Dn & Dc & En & Ec). steps. all: rewrite lookup_insert_eq in *; simplify_eq.
  all: subst; repeat match goal with H : asset_leb _ _ = Ok _ |- _ => apply leb_0_ok in H end.
  all: match goal with H : both_zero _ _ = Ok _ |- _ => apply both_zero_ok in H as [_ Hz] end.
  - exists (delete (f, r) (delband s)). rewrite delete_insert_eq, lookup_delete_eq. simpl.
    split_and!; try done; [by rewrite delete_delete_eq|..]; destruct Hz as [Hz _]; specialize (Hz eq_refl); lia.
  - exists (<[(f, r):=(x, a)]> (delband s)). rewrite delete_insert_eq, lookup_insert_eq. simpl.
    split_and!; try done; [by apply delta_amount..|].
    destruct (decide (amount (d_net a) = 0)), (decide (amount (d_cpu a) = 0)); try lia.
Qed.

Lemma change_totals_spec f r net cpu s :
  core_delta net → core_delta cpu → resources_ok (userres s !! r) →
  wp (change_totals f r net cpu) (λ _ s', ∃ U,
    s' = with_userres U (with_resource_limits
           (<[r := (uram_of (U !! r), unet_of (U !! r), ucpu_of (U !! r))]> (resource_limits s)) s) ∧
    delete r U = delete r (userres s) ∧ resources_ok (U !! r) ∧
    unet_of (U !! r) = unet_of (userres s !! r) + amount net ∧
    ucpu_of (U !! r) = ucpu_of (userres s !! r) + amount cpu ∧
    uram_of (U !! r) = uram_of (userres s !! r)) s.
Proof.
  intros Hn Hc Hok. unfold change_totals. apply wp_bind, wp_get, wp_bind.
  apply (wp_mono _ (λ _ s1, ∃ p u, s1 = with_userres (<[r := (p, u)]> (userres s)) s ∧
    core_delta (net_weight u) ∧ core_delta (cpu_weight u) ∧
    amount (net_weight u) = unet_of (userres s !! r) + amount net ∧
    amount (cpu_weight u) = ucpu_of (userres s !! r) + amount cpu ∧
    ram_bytes u = uram_of (userres s !! r))).
  { steps; simplify_eq.
    - rename select (userres s !! _ = Some _) into Hk. rewrite Hk in *. simpl in *.
      destruct Hok as (?%amount_delta & ?%amount_delta). inv_ok.
      apply add_ok in Hrun as []; [|done..]. apply add_ok in Hrun0 as []; [|done..]. eauto 12.
    - rename select (userres s !! _ = None) into Hk. rewrite Hk. simpl.
      eexists _, _. split_and!; [done|done|done|simpl; lia..]. }
  intros _ ? (p & u & -> & Dn & Dc & En & Ec & Er). steps. all: rewrite lookup_insert_eq in *; simplify_eq.
  all: subst; repeat match goal with H : asset_leb _ _ = Ok _ |- _ => apply leb_0_ok in H end.
  - rename select (both_zero _ _ = Ok _) into Hz. apply both_zero_ok in Hz as [_ Hz].
    reflect_bools. subst. destruct Hz as [[En0 Ec0] _]; [done|].
    exists (delete r (userres s)). rewrite delete_insert_eq, lookup_delete_eq, delete_delete_eq, En0, Ec0.
    rename select (ram_bytes a = 0) into Er0. rewrite Er0. simpl. split_and!; done || lia.
  - exists (<[r:=(x, a)]> (userres s)). rewrite delete_insert_eq, lookup_insert_eq. simpl.
    split_and!; try done; by apply delta_amount.
Qed.

Lemma take_refund_ok x y r z :
  core_amount x → core_delta y → take_refund x y = Ok (r, z) →
  core_amount r ∧ core_amount z ∧ amount r = amount x - amount y + amount z.
Proof.
  intros Hx%amount_delta Hy H. unfold take_refund in H. inv_ok. apply sub_ok in Hrun as [Hd Ea]; [|done..].
  apply compare_ok in Hrun0 as [_ ->]. simpl in H. destruct (_ <? 0) eqn:E; simplify_eq; reflect_bools.
  - destruct (neg_delta _ Hd) as [Hn En]. split_and!; [apply core_0|apply delta_amount; [done|lia]|change (amount (core 0)) with 0; lia].
  - split_and!; [apply delta_amount; [done|lia]|apply core_0|simpl; lia].
Qed.

Lemma new_refund_ok y r z :
  core_delta y → new_refund y = Ok (r, z) →
  core_amount r ∧ core_amount z ∧ amount r = - amount y + amount z.
Proof.
  intros Hy H. unfold new_refund in H. inv_ok.
  apply compare_ok in Hrun as [_ ->]. simpl in H. destruct (_ <? 0) eqn:E; simplify_eq; reflect_bools.
  - destruct (neg_delta _ Hy) as [Hn En]. split_and!; [apply delta_amount; [done|lia]|apply core_0|change (amount (core 0)) with 0; lia].
  - split_and!; [apply core_0|apply delta_amount; [done|lia]|simpl; lia].
Qed.

Lemma either_negative_ok x y b :
  either_negative x y = Ok b → b = true ↔ amount x < 0 ∨ amount y < 0.
Proof.
  unfold either_negative. intros (z & [_ ->]%compare_ok & H2)%bind_ok. simpl in *.
  destruct (amount x <? 0) eqn:E; reflect_bools.
  - injection H2 as <-. naive_solver.
  - apply compare_ok in H2 as [_ ->]. simpl. rewrite Z.ltb_lt. lia.
Qed.

(** What is taken from a refund or added to it, and what is left to be transferred. *)
Lemma change_refund_spec env f net cpu s :
  core_delta net → core_delta cpu → refund_ok (refunds s !! f) →
  wp (change_refund env f net cpu) (λ '(net', cpu', _) s', ∃ R, s' = with_refunds R s ∧
    delete f R = delete f (refunds s) ∧ refund_ok (R !! f) ∧ core_amount net' ∧ core_amount cpu' ∧
    refund_of (R !! f) = refund_of (refunds s !! f) - (amount net + amount cpu) + (amount net' + amount cpu')) s.
Proof.
  intros Hn Hc Hok. unfold change_refund. steps; simplify_eq.
  all: try (rename select (refunds _ !! _ = Some _) into Hk; rewrite Hk in *; simpl in Hok;
    destruct Hok as (Hrn & Hrc & _);
    match goal with H1 : take_refund (net_amount _) _ = Ok _, H2 : take_refund (cpu_amount _) _ = Ok _, H : both_zero _ _ = Ok _ |- _ =>
      apply take_refund_ok in H1 as (? & ? & ?); [|done..]; apply take_refund_ok in H2 as (? & ? & ?); [|done..];
      apply both_zero_ok in H as [_ Hz] end).
  - exists (delete f (refunds s)). rewrite delete_insert_eq, lookup_delete_eq, delete_delete_eq. simpl.
    destruct Hz as [[] _]; [done|]. split_and!; done || lia.
  - eexists. rewrite delete_insert_eq, lookup_insert_eq. split; [done|]. simpl.
    unfold core_amount in *. split_and!; try tauto; try lia.
  - rename select (refunds s !! _ = None) into Hk. rewrite Hk in *. simpl in *.
    repeat match goal with H : new_refund _ = Ok _ |- _ => apply new_refund_ok in H as (? & ? & ?); [|done] end.
    rename select (either_negative _ _ = Ok _) into He. apply either_negative_ok in He as [He _]. specialize (He eq_refl).
    eexists. rewrite delete_insert_eq, lookup_insert_eq. split; [done|]. simpl.
    unfold core_amount in *. split_and!; try tauto; try lia.
  - rename select (refunds s !! _ = None) into Hk. 
    rename select (either_negative _ _ = Ok _) into He. apply either_negative_ok in He.
    exists (refunds s). rewrite Hk. split; [by destruct s|]. split_and!; try done; try (apply delta_amount; [done|]); simpl; lia.
Qed.
(** ** Books *)
Definition net_to s (a : Z) : Z :=
  msum (λ k (r : Z * delegated_bandwidth), if decide (k.2 = a) then amount (d_net r.2) else 0) (delband s).
Definition cpu_to s (a : Z) : Z :=
  msum (λ k (r : Z * delegated_bandwidth), if decide (k.2 = a) then amount (d_cpu r.2) else 0) (delband s).
Definition staked_by s (a : Z) : Z :=
  msum (λ k (r : Z * delegated_bandwidth),
    if decide (k.1 = a) then amount (d_net r.2) + amount (d_cpu r.2) else 0) (delband s).
Definition staked_of (o : option (Z * voter_info)) : Z := from_option (λ r, staked r.2) 0 o.
Definition idle_voter (o : option (Z * voter_info)) : Prop :=
  from_option (λ r, v_proxy r.2 = 0 ∧ v_producers r.2 = []) True o.

Record staking_books s : Prop := {
  sb_delegation k : delegation_ok (delband s !! k);
  sb_resources a : resources_ok (userres s !! a);
  sb_refund a : refund_ok (refunds s !! a);
  sb_voter a : idle_voter (voters s !! a);
  sb_net a : unet_of (userres s !! a) = net_to s a;
  sb_cpu a : ucpu_of (userres s !! a) = cpu_to s a;
  sb_staked a : staked_of (voters s !! a) = i64 (staked_by s a) ∧ 0 <= staked_of (voters s !! a);
  sb_limits a : default (0, 0, 0) (resource_limits s !! a) =
    (uram_of (userres s !! a), unet_of (userres s !! a), ucpu_of (userres s !! a));
}.

(** What the fund eonio.stake owes: all that is delegated, and all that is on its way back. *)
Definition stake_owed s : Z :=
  msum (λ k (r : Z * delegated_bandwidth), amount (d_net r.2) + amount (d_cpu r.2)) (delband s) +
  msum (λ k (r : Z * refund_request), amount (net_amount r.2) + amount (cpu_amount r.2)) (refunds s).

Lemma change_voter_spec env f total s :
  core_delta total → idle_voter (voters s !! f) →
  wp (change_voter env f total) (λ _ s', ∃ V, s' = with_voters V s ∧
    delete f V = delete f (voters s) ∧ idle_voter (V !! f) ∧
    staked_of (V !! f) = i64 (staked_of (voters s !! f) + amount total) ∧ 0 <= staked_of (V !! f)) s.
Proof.
  intros [_ Ht] Hi. unfold change_voter, get_voter, modify_voter, validate_b1_vesting.
  apply wp_bind, wp_get, wp_bind.
  apply (wp_mono _ (λ _ s1, ∃ p v, s1 = with_voters (<[f := (p, v)]> (voters s)) s ∧
    v_proxy v = 0 ∧ v_producers v = [] ∧ staked v = i64 (staked_of (voters s !! f) + amount total))).
  { steps; simplify_eq.
    - rename select (voters s !! _ = Some _) into Hk. rewrite Hk in *. destruct Hi. eauto 10.
    - rename select (voters s !! _ = None) into Hk. rewrite Hk. simpl. eexists _, _. split_and!; try done.
      simpl. rewrite i64_amount; lia. }
  intros _ ? (p & v & -> & Ep & El & Es). steps. all: rewrite lookup_insert_eq in *; simplify_eq; reflect_bools.
  all: rewrite ?Ep, ?El in *; try discriminate.
  all: eexists; split; [reflexivity|]; rewrite delete_insert_eq, lookup_insert_eq; simpl; done.
Qed.

Lemma i64_add_i64 a b : i64 (i64 a + b) = i64 (a + b).
Proof.
  unfold i64. replace ((a + 2 ^ 63) mod 2 ^ 64 - 2 ^ 63 + b + 2 ^ 63) with ((a + 2 ^ 63) mod 2 ^ 64 + b) by lia.
  rewrite Z.add_mod_idemp_l by lia. do 2 f_equal. lia.
Qed.

Lemma net_to_row s s' f r a :
  delete (f, r) (delband s') = delete (f, r) (delband s) →
  net_to s' a = net_to s a +
    if decide (r = a) then net_of (delband s' !! (f, r)) - net_of (delband s !! (f, r)) else 0.
Proof.
  intros E. unfold net_to. rewrite (msum_row _ _ _ _ E).
  destruct (delband s' !! _), (delband s !! _); simpl; case_decide; lia.
Qed.
Lemma cpu_to_row s s' f r a :
  delete (f, r) (delband s') = delete (f, r) (delband s) →
  cpu_to s' a = cpu_to s a +
    if decide (r = a) then cpu_of (delband s' !! (f, r)) - cpu_of (delband s !! (f, r)) else 0.
Proof.
  intros E. unfold cpu_to. rewrite (msum_row _ _ _ _ E).
  destruct (delband s' !! _), (delband s !! _); simpl; case_decide; lia.
Qed.
Lemma staked_by_row s s' f r a :
  delete (f, r) (delband s') = delete (f, r) (delband s) →
  staked_by s' a = staked_by s a +
    if decide (f = a) then net_of (delband s' !! (f, r)) + cpu_of (delband s' !! (f, r)) -
                           (net_of (delband s !! (f, r)) + cpu_of (delband s !! (f, r))) else 0.
Proof.
  intros E. unfold staked_by. rewrite (msum_row _ _ _ _ E).
  destruct (delband s' !! _), (delband s !! _); simpl; case_decide; lia.
Qed.

(** One delegation changes by [n] and [c], and with it the totals of its two accounts. *)
Lemma books_update s s' f r n c :
  staking_books s →
  delete (f, r) (delband s') = delete (f, r) (delband s) → delegation_ok (delband s' !! (f, r)) →
  net_of (delband s' !! (f, r)) = net_of (delband s !! (f, r)) + n →
  cpu_of (delband s' !! (f, r)) = cpu_of (delband s !! (f, r)) + c →
  delete r (userres s') = delete r (userres s) → resources_ok (userres s' !! r) →
  unet_of (userres s' !! r) = unet_of (userres s !! r) + n →
  ucpu_of (userres s' !! r) = ucpu_of (userres s !! r) + c →
  resource_limits s' = <[r := (uram_of (userres s' !! r), unet_of (userres s' !! r), ucpu_of (userres s' !! r))]>
                         (resource_limits s) →
  delete f (voters s') = delete f (voters s) → idle_voter (voters s' !! f) →
  staked_of (voters s' !! f) = i64 (staked_of (voters s !! f) + (n + c)) → 0 <= staked_of (voters s' !! f) →
  delete f (refunds s') = delete f (refunds s) → refund_ok (refunds s' !! f) →
  staking_books s'.
Proof.
  intros Hb Ed Hd En Ec Eu Hu Eun Euc El Ev Hv Es Hs Er Hr. split.
  - intros k. destruct (decide (k = (f, r))) as [->|Hk]; [done|]. rewrite (row_other _ _ _ _ Ed Hk). apply Hb.
  - intros a. destruct (decide (a = r)) as [->|Hk]; [done|]. rewrite (row_other _ _ _ _ Eu Hk). apply Hb.
  - intros a. destruct (decide (a = f)) as [->|Hk]; [done|]. rewrite (row_other _ _ _ _ Er Hk). apply Hb.
  - intros a. destruct (decide (a = f)) as [->|Hk]; [done|]. rewrite (row_other _ _ _ _ Ev Hk). apply Hb.
  - intros a. rewrite (net_to_row _ _ _ _ _ Ed), <-(sb_net _ Hb a). case_decide; subst; [lia|].
    rewrite (row_other _ _ _ _ Eu) by done. lia.
  - intros a. rewrite (cpu_to_row _ _ _ _ _ Ed), <-(sb_cpu _ Hb a). case_decide; subst; [lia|].
    rewrite (row_other _ _ _ _ Eu) by done. lia.
  - intros a. rewrite (staked_by_row _ _ _ _ _ Ed). destruct (sb_staked _ Hb a) as [Ea Ha]. case_decide; subst.
    + rewrite Es, Ea, i64_add_i64. split; [f_equal; lia|]. by rewrite Es, Ea, i64_add_i64 in Hs.
    + rewrite (row_other _ _ _ _ Ev), Z.add_0_r by done. done.
  - intros a. rewrite El. destruct (decide (a = r)) as [->|Hk]; [by rewrite lookup_insert_eq|].
    rewrite lookup_insert_ne, (row_other _ _ _ _ Eu) by done. apply Hb.
Qed.

Lemma stake_owed_row s s' f r :
  delete (f, r) (delband s') = delete (f, r) (delband s) → delete f (refunds s') = delete f (refunds s) →
  stake_owed s' = stake_owed s +
    (net_of (delband s' !! (f, r)) + cpu_of (delband s' !! (f, r))) -
    (net_of (delband s !! (f, r)) + cpu_of (delband s !! (f, r))) +
    refund_of (refunds s' !! f) - refund_of (refunds s !! f).
Proof.
  intros Ed Er. unfold stake_owed. rewrite (msum_row _ _ _ _ Ed), (msum_row _ _ _ _ Er).
  destruct (delband s' !! _), (delband s !! _), (refunds s' !! _), (refunds s !! _); simpl; lia.
Qed.

(** The transfer that pays for a stake. *)
Definition stake_payment (from T : Z) : list transfer_args :=
  if 0 <? T then [TransferArgs from eonio_stake (core T) (codes "stake bandwidth")] else [].

(** The parts of the state that staking leaves alone. *)
Definition unstaked_part s :=
  (gstate s, stored_global s, producers s, gnodes s, proposals s, pvotes s, bids s, rammarket s, consensus s).

Lemma settle_spec env source f r net cpu t s :
  core_delta net → core_delta cpu → (0 <= amount net ∧ 0 <= amount cpu ∨ amount net <= 0 ∧ amount cpu <= 0) →
  refund_ok (refunds s !! f) →
  wp (settle env source f r net cpu t) (λ _ s', ∃ R F I, s' = with_inline I (with_deferred_refunds F (with_refunds R s)) ∧
    delete f R = delete f (refunds s) ∧ refund_ok (R !! f) ∧
    (source ≠ eonio_stake → ∃ T, I = inline s ++ stake_payment source T ∧ 0 <= T <= max_amount ∧
      refund_of (R !! f) = refund_of (refunds s !! f) - (amount net + amount cpu) + T)) s.
Proof.
  intros Hn Hc Hsign Hok. unfold settle, schedule_refund. destruct (eonio_stake =? source) eqn:Esrc; simpl.
  { reflect_bools. apply wp_ret. exists (refunds s), (deferred_refunds s), (inline s).
    split; [by destruct s|]. by split_and!. }
  reflect_bools. apply wp_bind. 
  apply (wp_mono _ (λ '(net', cpu', _) s1, ∃ R, s1 = with_refunds R s ∧
    delete f R = delete f (refunds s) ∧ refund_ok (R !! f) ∧ core_amount net' ∧ core_amount cpu' ∧
    refund_of (R !! f) = refund_of (refunds s !! f) - (amount net + amount cpu) + (amount net' + amount cpu'))).
  - destruct (_ || _) eqn:E; [by apply change_refund_spec|]. apply wp_ret. exists (refunds s).
    reflect_bools. rewrite i64_amount in * by (destruct Hn, Hc; lia).
    split; [by destruct s|]. split_and!; try done; try (apply delta_amount; [done|]); lia.
  - intros [[n' c'] b] ? (R & -> & Ed & Hr & Hn' & Hc' & Er). apply wp_bind, wp_modify.
    apply wp_bind, wp_lift. intros q Hq. apply add_ok in Hq as [[Sq Rq] Eq]; [|by apply amount_delta..].
    apply wp_bind, wp_lift. intros pos [_ ->]%compare_ok. simpl.
    destruct Hn' as [_ Hn'], Hc' as [_ Hc'].
    assert (q = core (amount q)) as Eqq by (destruct q; simpl in *; by subst).
    set (F := if b then _ else _). destruct (0 <? amount q) eqn:Epos.
    + apply wp_send. eexists R, F, _. split; [reflexivity|]. split_and!; try done. intros _. exists (amount q).
      unfold stake_payment. rewrite Epos, <-Eqq. split_and!; done || lia.
    + apply wp_ret. exists R, F, (inline s). split; [reflexivity|]. split_and!; try done. intros _. exists (amount q).
      unfold stake_payment. rewrite Epos, app_nil_r. split_and!; done || lia.
Qed.

Lemma changebw_spec env from receiver net cpu transfer s :
  staking_books s → core_delta net → core_delta cpu →
  (0 <= amount net ∧ 0 <= amount cpu ∨ amount net <= 0 ∧ amount cpu <= 0) →
  wp (changebw env from receiver net cpu transfer) (λ _ s', staking_books s' ∧ from ∈ authorized (cenv env) ∧
    unstaked_part s' = unstaked_part s ∧ 
    delete receiver (userres s') = delete receiver (userres s) ∧
    uram_of (userres s' !! receiver) = uram_of (userres s !! receiver) ∧
    delete (if transfer then receiver else from) (voters s') =
      delete (if transfer then receiver else from) (voters s) ∧
    (from ≠ eonio_stake → ∃ T, inline s' = inline s ++ stake_payment from T ∧ 0 <= T <= max_amount ∧
      stake_owed s' = stake_owed s + T)) s.
Proof.
  intros Hb Hn Hc Hsign. unfold changebw. set (o := if transfer then receiver else from).
  apply wp_bind, wp_auth. intros Hauth. wp_steps. subst o. set (o := if transfer then receiver else from).
  wp_call change_delegation_spec; [done|done|apply Hb|]. destruct H3 as (D & -> & Ed & Hd & En & Ec).
  wp_call change_totals_spec; [done|done|apply Hb|]. simpl in *. destruct H3 as (U & -> & Eu & Hu & Eun & Euc & Eur).
  wp_call settle_spec; [done|done|done|apply Hb|]. simpl in *. destruct H3 as (R & F & I & -> & Er & Hr & Hpay).
  wp_steps. simpl in *. rename H3 into Ha. apply add_ok in Ha as [Hdt Et]; [|done..].
  wp_call change_voter_spec; [done|apply Hb|]. simpl in *. destruct H3 as (V & -> & Ev & Hv & Es & Hs).
  rewrite Et in Es. set (s' := with_voters _ _).
  split_and!; try done.
  - by apply (books_update s s' o receiver (amount net) (amount cpu)).
  - intros Hf. destruct (Hpay Hf) as (T & -> & HT & ErT). exists T. split; [done|]. split; [done|].
    rewrite (stake_owed_row s s' o receiver) by done. simpl. lia.
Qed.

(** ** The other actions *)
Lemma books_frame s s' :
  staking_books s → delband s' = delband s → userres s' = userres s → refunds s' = refunds s →
  voters s' = voters s → resource_limits s' = resource_limits s → staking_books s'.
Proof.
  intros [] E1 E2 E3 E4 E5. split; unfold net_to, cpu_to, staked_by in *; rewrite ?E1, ?E2, ?E3, ?E4, ?E5; done.
Qed.

Lemma books_resources s a p u :
  staking_books s → resources_ok (Some (p, u)) → amount (net_weight u) = unet_of (userres s !! a) →
  amount (cpu_weight u) = ucpu_of (userres s !! a) →
  staking_books (with_resource_limits
    (<[a := (ram_bytes u, amount (net_weight u), amount (cpu_weight u))]> (resource_limits s))
    (with_userres (<[a := (p, u)]> (userres s)) s)).
Proof.
  intros [] Hu En Ec. split; simpl; try done.
  all: intros i; unfold net_to, cpu_to, staked_by in *; simpl;
    destruct (decide (i = a)) as [->|Hi]; [rewrite ?lookup_insert_eq; simpl|by rewrite ?lookup_insert_ne].
  - done.
  - by rewrite En.
  - by rewrite Ec.
  - done.
Qed.

Lemma books_voter s a p v :
  staking_books s → v_proxy v = 0 → v_producers v = [] → staked v = staked_of (voters s !! a) →
  staking_books (with_voters (<[a := (p, v)]> (voters s)) s).
Proof.
  intros [] Hp Hv Hst. split; simpl; try done.
  all: intros i; unfold net_to, cpu_to, staked_by in *; simpl;
    destruct (decide (i = a)) as [->|Hi]; [rewrite ?lookup_insert_eq; simpl|by rewrite ?lookup_insert_ne].
  - done.
  - rewrite Hst. apply sb_staked0.
Qed.

Lemma books_refund s a : staking_books s → staking_books (with_refunds (delete a (refunds s)) s).
Proof.
  intros []. split; simpl; try done.
  intros i. destruct (decide (i = a)) as [->|Hi]; [by rewrite lookup_delete_eq|by rewrite lookup_delete_ne].
Qed.

Ltac frame := match goal with H : staking_books ?s |- staking_books _ => apply (books_frame s); [exact H|reflexivity..] end.

Lemma newaccount_books env c n s : staking_books s → wp (newaccount env c n) (λ _, staking_books) s.
Proof.
  intros Hb. unfold newaccount.
  assert (∀ B, userres s !! n = None → staking_books (with_resource_limits (<[n := (0, 0, 0)]> (resource_limits s))
    (with_userres (<[n := (n, UserResources (core 0) (core 0) 0)]> (userres s)) (with_bids B s)))) as Hnew.
  { intros B Hn. apply (books_resources (with_bids B s)); [frame| |simpl; by rewrite Hn..].
    split_and!; apply core_0. }
  wp_steps; inv_rows; by apply (Hnew (bids s)) || by apply Hnew.
Qed.

Lemma buyram_books env p r q s : staking_books s → wp (buyram env p r q) (λ _, staking_books) s.
Proof.
  intros Hb. unfold buyram, get_market. steps. all: rewrite lookup_insert_eq in *; simplify_eq.
  all: lazymatch goal with |- staking_books (with_resource_limits _ (with_userres _ ?x)) =>
    apply (books_resources x); [frame|..] end; simpl.
  all: rename select (userres _ !! _ = _) into Hk; rewrite ?Hk; try done; try (split; apply core_0).
  all: pose proof (sb_resources _ Hb r) as Hr; by rewrite Hk in Hr.
Qed.

Lemma sellram_books env a b s : staking_books s → wp (sellram env a b) (λ _, staking_books) s.
Proof.
  intros Hb. unfold sellram, get_market. steps. all: rewrite lookup_insert_eq in *; simplify_eq.
  all: rename select (userres _ !! _ = _) into Hk; pose proof (sb_resources _ Hb a) as Hr; rewrite Hk in Hr.
  all: simpl in Hr; eapply books_frame; [eapply (books_resources s a); [exact Hb|..]|reflexivity..].
  all: rewrite ?Hk; done.
Qed.

Lemma modify_voter_books a f s :
  staking_books s → (∀ v, v_proxy (f v) = v_proxy v ∧ v_producers (f v) = v_producers v ∧ staked (f v) = staked v) →
  wp (modify_voter a f) (λ _, staking_books) s.
Proof.
  intros Hb Hf. unfold modify_voter. wp_steps. inv_rows. rename select (voters s !! a = _) into Hk.
  pose proof (sb_voter _ Hb a) as Hi. rewrite Hk in Hi; simpl in Hi. destruct Hi, (Hf x0) as (? & ? & ?).
  apply books_voter; [done|congruence..|]. by rewrite Hk.
Qed.

Lemma propagate_books fuel env a s : staking_books s → wp (propagate_weight_change fuel env a) (λ _, staking_books) s.
Proof.
  intros Hb. destruct fuel as [|fuel]; [done|].
  unfold propagate_weight_change; fold propagate_weight_change; unfold get_voter.
  apply wp_bind, wp_bind, wp_get, wp_lift. intros v Hv. inv_rows. rename select (voters s !! a = _) into Hk.
  pose proof (sb_voter _ Hb a) as Hi. rewrite Hk in Hi; simpl in Hi. destruct Hi as [-> ->]. simpl.
  wp_steps; by apply modify_voter_books.
Qed.

Lemma regproxy_books env a b s : staking_books s → wp (regproxy env a b) (λ _, staking_books) s.
Proof.
  intros Hb. unfold regproxy. wp_steps.
  - wp_call modify_voter_books; [done|done|]. by apply propagate_books.
  - inv_rows. rename select (voters s !! a = _) into Hk. apply books_voter; try done. by rewrite Hk.
Qed.

Lemma update_proposal_votes_books env v w s : staking_books s → wp (update_proposal_votes env v w) (λ _, staking_books) s.
Proof. intros Hb. unfold update_proposal_votes. wp_steps; frame. Qed.

(** The arguments that delegatebw and undelegatebw accept. *)
Lemma stake_args x y z :
  in_i64 (amount x) → in_i64 (amount y) → symbol x = CORE_SYMBOL → symbol y = CORE_SYMBOL →
  0 <= amount x → 0 <= amount y → asset_add x y = Ok z → 0 < amount z → core_amount x ∧ core_amount y.
Proof.
  intros Hx Hy Sx Sy Px Py H Hz. unfold asset_add in H. inv_ok. reflect_bools. simpl in Hz.
  assert (amount x + amount y < 2 ^ 63).
  { destruct (decide (amount x + amount y < 2 ^ 63)) as [|Hge]; [done|]. exfalso.
    unfold i64, in_i64 in *. rewrite (Z.mod_eq _ (2 ^ 64)) in Hz by done.
    assert ((amount x + amount y + 2 ^ 63) / 2 ^ 64 = 1) as E by (symmetry; apply Z.div_unique_pos with (amount x + amount y - 2 ^ 63); lia).
    rewrite E in Hz. lia. }
  rewrite i64_small in * by (unfold in_i64; lia). unfold core_amount. split; split; done || lia.
Qed.

Lemma change_stake_books env f r net cpu t a s :
  staking_books s → core_delta net → core_delta cpu →
  (0 <= amount net ∧ 0 <= amount cpu ∨ amount net <= 0 ∧ amount cpu <= 0) →
  wp (change_stake env f r net cpu t a) (λ _, staking_books) s.
Proof.
  intros Hb Hn Hc Hs. unfold change_stake. wp_steps. wp_call changebw_spec; [done..|]. 
  destruct H as (Hb' & _). wp_steps; [|done]. wp_call update_proposal_votes_books; [done|]. wp_steps. frame.
Qed.

Lemma delegatebw_args env f r net cpu t Q s :
  in_i64 (amount net) → in_i64 (amount cpu) →
  (core_amount net → core_amount cpu →
   wp (change_stake env f r net cpu t (if t then r else f)) Q s) →
  wp (delegatebw env f r net cpu t) Q s.
Proof.
  intros In Ic H. unfold delegatebw.
  wp_steps; cmps; simpl in *; reflect_bools; apply H; eapply (stake_args net cpu); done || lia.
Qed.

Lemma undelegatebw_args env f r net cpu Q s :
  in_i64 (amount net) → in_i64 (amount cpu) →
  (core_amount net → core_amount cpu →
   wp (change_stake env f r (asset_neg net) (asset_neg cpu) false f) Q s) →
  wp (undelegatebw env f r net cpu) Q s.
Proof.
  intros In Ic H. unfold undelegatebw.
  wp_steps; cmps; simpl in *; reflect_bools; apply H; eapply (stake_args cpu net); done || lia.
Qed.

Lemma onblock_books env t p s : staking_books s → wp (onblock env t p) (λ _, staking_books) s.
Proof.
  intros Hb. eapply wp_mono; [apply onblock_frame|]. intros _ ? (P & S & B & g & _ & -> & _). frame.
Qed.
Lemma execproposal_books env o i s : staking_books s → wp (execproposal env o i) (λ _, staking_books) s.
Proof.
  intros Hb. unfold execproposal, exec_type, modify_proposal, modify_gnode, add_elected_producers,
    remove_elected_producers, regproducer, unregprod. wp_steps; frame.
Qed.

Lemma dispatch_books env a s :
  typed_action a → staking_books s → wp (system_dispatch env a) (λ _, staking_books) s.
Proof.
  intros Ht Hb. destruct a; simpl in *.
  - by apply newaccount_books.
  - by wp_steps.
  - unfold setram. wp_steps. frame.
  - unfold setparams. wp_steps. frame.
  - unfold setpriv. wp_steps. frame.
  - unfold rmvproducer. wp_steps. frame.
  - unfold bidname. wp_steps; frame.
  - unfold buyrambytes. wp_steps. by apply buyram_books.
  - by apply buyram_books.
  - by apply sellram_books.
  - destruct Ht. apply delegatebw_args; [done..|]. intros Hn Hc. destruct Hn, Hc.
    apply change_stake_books; [done|by apply amount_delta..|left; lia].
  - destruct Ht. apply undelegatebw_args; [done..|]. intros Hn Hc.
    destruct (neg_delta _ (amount_delta _ Hn)) as [? En], (neg_delta _ (amount_delta _ Hc)) as [? Ec]. destruct Hn, Hc.
    apply change_stake_books; [done..|right; lia].
  - unfold refund. wp_steps. inv_rows. eapply books_frame; [by eapply (books_refund s)|reflexivity..].
  - unfold voteproposal. wp_steps; frame.
  - by apply regproxy_books.
  - by apply onblock_books.
  - by apply execproposal_books.
  - unfold newproposal. wp_steps; frame.
  - unfold staketognode. wp_steps; frame.
  - unfold unstakegnode. wp_steps; frame.
  - unfold updategnode, modify_gnode. wp_steps; frame.
  - unfold claimrewards, modify_producer. wp_steps; frame.
Qed.

Lemma construct_books env s : staking_books s → wp (construct env) (λ _, staking_books) s.
Proof. intros Hb. unfold construct. wp_steps; frame. Qed.

Lemma system_run_books env a s : typed_action a → staking_books s → wp (system_run env a) (λ _, staking_books) s.
Proof.
  intros Ht Hb. unfold system_run. wp_call construct_books; [done|]. wp_call dispatch_books; [done|done|].
  unfold destruct_. wp_steps. frame.
Qed.

Lemma books_initial g : staking_books (system_initial g).
Proof. split; done. Qed.

Lemma reachable_books g s : rtc system_step (system_initial g) s → staking_books s.
Proof.
  apply rtc_preserves; [|apply books_initial]. intros x y Hx [env a Ht Hr].
  pose proof (system_run_books env a x Ht Hx) as Hw. rewrite wp_run in Hw. by eapply Hw.
Qed.

(** C30: In every state of the system contract the books on bandwidth agree.  The net and cpu weights
    of an account are the sums of what is delegated to it; its stake, which votes, is the sum (as a
    64-bit number) of what it delegates and is not negative; no delegation or refund is negative, empty
    or in another token; and the limits that the chain was given last are the weights and the RAM of the
    account. *)
Theorem staking_books_agree g s : rtc system_step (system_initial g) s → staking_books s.
Proof. apply reachable_books. Qed.
End staking.

Definition toy_stake : system_action := DelegateBw 1 2 (Asset 5 EON) (Asset 7 EON) false.
Definition toy_staked : system_state :=
  (@system_run toy_libm toy_core (toy_env [1] 5) toy_stake toy_initial).1.

Lemma staking_books_agree_witness :
  @net_to toy_staked 2 = 5 ∧ @staked_by toy_staked 1 = 12 ∧ @staking_books toy_core toy_staked.
Proof.
  assert ((@system_run toy_libm toy_core (toy_env [1] 5) toy_stake toy_initial).2 = Ok tt) as Hok by (vm_compute; reflexivity).
  split_and!; [vm_compute; reflexivity..|].
  refine (@staking_books_agree toy_libm toy_core (get_default_parameters (toy_env [] 0)) toy_staked _).
  refine (rtc_once _ _ (@system_step_run toy_libm toy_core _ _ (toy_env [1] 5) toy_stake _ (run_fst _ _ _ Hok))). done.
Defined.
