(* ===== verification/RamBooks.v ===== *)
(** * The books on RAM

    The bytes that accounts own (userres), the total that the contract has sold
    (total_ram_bytes_reserved) and what the market still has to sell change together in buyram, sellram
    and setram.

    Results: as 64-bit numbers, the bytes of all accounts add up to the total, and the market has
    exactly the rest of max_ram_size. *)

From stdpp Require Import sorting strings.
From S2P Require Import Prelude Wp Names Dimensionlib Token RamMarket ChainConfig System SystemLogic Auctions Staking.

Section ram_books.
Context {LM : Libm} {CS : CoreSymbol}.
Implicit Types (s : system_state) (env : system_env).

Definition ram_sold s : Z := msum (λ _ (r : Z * user_resources), ram_bytes r.2) (userres s).

Record ram_books s : Prop := {
  rb_reserved : total_ram_bytes_reserved (gstate s) = u64 (ram_sold s);
  rb_max : in_u64 (max_ram_size (gstate s));
  rb_market m : rammarket s = Some m →
    market_wf m ∧ ram_left m = i64 (max_ram_size (gstate s) - total_ram_bytes_reserved (gstate s));
}.

Lemma ram_frame s s' :
  ram_books s → userres s' = userres s → rammarket s' = rammarket s →
  total_ram_bytes_reserved (gstate s') = total_ram_bytes_reserved (gstate s) →
  max_ram_size (gstate s') = max_ram_size (gstate s) → ram_books s'.
Proof. intros [] E1 E2 E3 E4. split; unfold ram_sold in *; rewrite ?E1, ?E2, ?E3, ?E4; done. Qed.
Ltac frame := match goal with H : ram_books ?s |- ram_books _ => apply (ram_frame s); [exact H|reflexivity..] end.

(** The bytes of one account change by [d]. *)
Lemma ram_sold_row s s' a :
  delete a (userres s') = delete a (userres s) →
  ram_sold s' = ram_sold s + uram_of (userres s' !! a) - uram_of (userres s !! a).
Proof.
  intros E. unfold ram_sold. rewrite (msum_row _ _ _ _ E). by destruct (userres s' !! a), (userres s !! a).
Qed.

Lemma setram_books env m s : in_u64 m → ram_books s → wp (setram env m) (λ _, ram_books) s.
Proof.
  intros Hm Hb. unfold setram. wp_steps. rename select (of_option _ _ = _) into Hk. apply of_option_ok in Hk.
  split; simpl; [apply Hb|done|]. intros ? [= <-]. destruct (rb_market _ Hb _ Hk) as [[Hs [Eb Ib] Hq] El].
  split; [split; simpl; [done|split; [done|apply i64_in]|done]|].
  unfold ram_left in *. simpl. rewrite El. apply i64_proper. rewrite !i64_eqm.
  unfold eqm. exists 0. lia.
Qed.

Lemma buyram_ram env p r q s :
  symbol q = CORE_SYMBOL → ram_books s → wp (buyram env p r q) (λ _, ram_books) s.
Proof.
  intros Hq Hb. unfold buyram, get_market. wp_steps; inv_rows; simpl in *.
  all: rename select (of_option _ _ = _) into Hk; apply of_option_ok in Hk.
  all: destruct (rb_market _ Hb _ Hk) as [Hm El].
  all: rename select (convert _ _ _ = _) into Hc; apply convert_buys_ram in Hc as (Hm' & _ & _ & Hout & El' & _); [|done..].
  all: simplify_eq; split; simpl; [|apply Hb|intros ? [= <-]; split; [done|]].
  2,4,6,8: rewrite El', El; apply i64_proper; rewrite i64_eqm, u64_eqm; exists 0; lia.
  all: rewrite (rb_reserved _ Hb); apply u64_proper; rewrite u64_eqm; unfold ram_sold; simpl; rewrite msum_insert.
  all: rename select (userres _ !! _ = _) into Hu; rewrite Hu; simpl; rewrite ?i64_eqm; exists 0; lia.
Qed.

Lemma sellram_ram env a b s : ram_books s → wp (sellram env a b) (λ _, ram_books) s.
Proof.
  intros Hb. unfold sellram, get_market. wp_steps; inv_rows; simpl in *.
  all: rename select (of_option _ _ = _) into Hk; apply of_option_ok in Hk.
  all: destruct (rb_market _ Hb _ Hk) as [Hm El].
  all: rename select (new_asset _ RAM = _) into Ha; apply new_asset_ok in Ha as (_ & _ & ->).
  all: rename select (convert _ _ _ = _) into Hc; apply convert_sells_ram in Hc as (Hm' & _ & _ & Hout & El' & _); [|done..].
  all: simplify_eq; split; simpl; [|apply Hb|intros ? [= <-]; split; [done|]].
  2,4: rewrite El', El; apply i64_proper; rewrite i64_eqm, u64_eqm; simpl; exists 0; lia.
  all: rewrite (rb_reserved _ Hb); apply u64_proper; rewrite u64_eqm; unfold ram_sold; simpl; rewrite msum_insert.
  all: rename select (userres _ !! _ = _) into Hu; rewrite Hu; simpl; rewrite ?i64_eqm; exists 0; lia.
Qed.

Lemma newaccount_ram env c n s : ram_books s → wp (newaccount env c n) (λ _, ram_books) s.
Proof.
  intros Hb. unfold newaccount. wp_steps; inv_rows; (split; [|apply Hb|apply Hb]).
  all: rename select (userres _ !! _ = None) into Hu.
  all: simpl; rewrite (rb_reserved _ Hb); unfold ram_sold; simpl; rewrite msum_insert; simpl in Hu; rewrite Hu; simpl; f_equal; lia.
Qed.

(** The RAM part of a state that staking leaves alone. *)
Lemma change_stake_ram env f r net cpu b a s :
  staking_books s → core_delta net → core_delta cpu →
  (0 <= amount net ∧ 0 <= amount cpu ∨ amount net <= 0 ∧ amount cpu <= 0) →
  ram_books s → wp (change_stake env f r net cpu b a) (λ _, ram_books) s.
Proof.
  intros Hs Hn Hc Hsg Hb. unfold change_stake. wp_steps. wp_call changebw_spec; [done..|].
  destruct H as (_ & _ & Hrest & Eu & Er & _). unfold unstaked_part in Hrest.
  injection Hrest as Eg _ _ _ _ _ _ Em _.
  assert (ram_books s') as Hb'.
  { destruct Hb as [Hr Hm Hk]. split; rewrite ?Eg, ?Em; try done. rewrite Hr. f_equal.
    rewrite (ram_sold_row s s' r Eu). lia. }
  unfold update_proposal_votes. wp_steps; frame.
Qed.

End ram_books.
