(* ===== verification/Funds.v ===== *)
(** * The funds of the system contract

    Staked tokens are held by the account eonio.stake, the tokens paid for RAM by eonio.ram, the
    deposits of governance nodes by eonio.bpstk and open bids by eonio.names.  The system contract
    moves them with inline transfers of the token contract, which run after its action: the first one
    at once, the others when what the first one notifies has run.

    Results: in every state of the two contracts, with actions of others in between, each fund holds
    at least what the system contract owes from it, so that every refund can be paid. *)

From stdpp Require Import sorting strings.
From S2P Require Import Prelude Wp Names Dimensionlib Token RamMarket ChainConfig System SystemLogic Auctions Staking RamBooks.

Create HintDb funds.

Section funds.
Context {LM : Libm} {CS : CoreSymbol}.
Implicit Types (s : system_state) (env : system_env) (t : transfer_args) (ts : list transfer_args) (f : Z).

(** ** Flows of the core token *)
Definition flow t : Z :=
  if symbol (tr_quantity t) =? CORE_SYMBOL then Z.max 0 (amount (tr_quantity t)) else 0.
Definition inflow f t : Z := (if tr_to t =? f then flow t else 0) - (if tr_from t =? f then flow t else 0).
Fixpoint outflow f ts : Z :=
  match ts with
  | [] => 0
  | t :: ts => (if tr_from t =? f then flow t else 0) + outflow f ts
  end.

Lemma flow_nonneg t : 0 <= flow t.
Proof. unfold flow. case_match; lia. Qed.
Lemma flow_core t a : tr_quantity t = core a → 0 <= a → flow t = a.
Proof. intros E Ha. unfold flow. rewrite E. simpl. rewrite Z.eqb_refl. lia. Qed.
Lemma outflow_app f ts ts' : outflow f (ts ++ ts') = outflow f ts + outflow f ts'.
Proof. induction ts as [|t ts IH]; simpl; lia. Qed.
Lemma outflow_other f ts : Forall (λ t, tr_from t ≠ f) ts → outflow f ts = 0.
Proof. induction 1 as [|t ts Ht _ IH]; simpl; [done|]. by rewrite (proj2 (Z.eqb_neq _ _) Ht). Qed.

(** A debt of a fund that grows by [d] is covered by the first transfer of an action, and so are its
    other transfers from the fund. *)
Definition covers f (d : Z) ts : Prop :=
  match ts with
  | [] => d <= 0
  | t :: ts => d + outflow f ts <= inflow f t
  end.

Arguments covers : simpl never.

Lemma covers_other f d ts : d <= 0 → Forall (λ t, tr_from t ≠ f) ts → covers f d ts.
Proof.
  intros Hd Hts. destruct Hts as [|t ts' Ht Hts]; unfold covers; [done|].
  rewrite outflow_other by done. unfold inflow. rewrite (proj2 (Z.eqb_neq _ _) Ht).
  pose proof (flow_nonneg t). case_match; lia.
Qed.

(** ** What each fund owes *)
Definition funds : list Z := [eonio_stake; eonio_ram; eonio_bpstk; eonio_names].
Lemma fund_stake : eonio_stake ∈ funds.
Proof. unfold funds. rewrite !elem_of_cons. tauto. Qed.
Lemma fund_ram : eonio_ram ∈ funds.
Proof. unfold funds. rewrite !elem_of_cons. tauto. Qed.
Lemma fund_bpstk : eonio_bpstk ∈ funds.
Proof. unfold funds. rewrite !elem_of_cons. tauto. Qed.
Lemma fund_names : eonio_names ∈ funds.
Proof. unfold funds. rewrite !elem_of_cons. tauto. Qed.
Hint Resolve fund_stake fund_ram fund_bpstk fund_names : funds.

(** Nobody acts in the name of a fund but the system contract. *)
Definition fund_free (env : contract_env) : Prop := ∀ f, f ∈ funds → f ∉ authorized env.

Definition deposits s : Z := msum (λ _ (r : Z * goverance_node_info), Z.max 0 (bp_staked r.2)) (gnodes s).
Definition open_bids s : Z := msum (λ _ (r : Z * name_bid), Z.max 0 (high_bid r.2)) (bids s).

Lemma fund_free_ne env f a : fund_free (cenv env) → f ∈ funds → a ∈ authorized (cenv env) → a ≠ f.
Proof. intros H Hf Ha ->. by eapply H. Qed.

(** The sender of a transfer is not the fund. *)
Ltac not_fund :=
  first [ assumption | discriminate
        | match goal with H : fund_free _, Ha : ?a ∈ authorized _ |- ?a ≠ _ =>
            apply (fund_free_ne _ _ _ H); [solve [auto with funds]|exact Ha] end ].
Ltac other := simpl; repeat match goal with H : inline _ = [] |- _ => rewrite H end; simpl;
  apply covers_other; [simpl; unfold stake_owed, deposits, open_bids; simpl; lia|repeat constructor; simpl; not_fund].

Lemma update_votes_frame env v w s :
  wp (update_proposal_votes env v w) (λ _ s', ∃ P, s' = with_proposals P s) s.
Proof.
  unfold update_proposal_votes. wp_steps; [exists (proposals s); by destruct s|by eexists].
Qed.

Lemma change_stake_covers env f r net cpu (b : bool) a s :
  staking_books s → core_delta net → core_delta cpu →
  (0 <= amount net ∧ 0 <= amount cpu ∨ amount net <= 0 ∧ amount cpu <= 0) →
  fund_free (cenv env) → inline s = [] →
  wp (change_stake env f r net cpu b a)
    (λ _ s', covers eonio_stake (stake_owed s' - stake_owed s) (inline s') ∧
             total_ram_stake (gstate s') = total_ram_stake (gstate s) ∧ gnodes s' = gnodes s ∧ bids s' = bids s ∧
             Forall (λ t, tr_from t ∉ funds) (inline s')) s.
Proof.
  intros Hb Hn Hc Hs Hfree Hinl. unfold change_stake. wp_steps.
  wp_call changebw_spec; [done..|]. rename s' into s1. destruct H as (Hb' & Hauth & Hrest & _ & _ & _ & Hpay).
  destruct Hpay as (T & Einl & HT & Eowed); [not_fund|].
  assert (covers eonio_stake (stake_owed s1 - stake_owed s) (inline s1)) as Hcov.
  { rewrite Einl, Hinl, Eowed. unfold stake_payment. destruct (0 <? T) eqn:E; unfold covers; simpl; reflect_bools; [|lia].
    unfold inflow. simpl. rewrite (proj2 (Z.eqb_neq f _)) by not_fund.
    erewrite flow_core by (done || lia). lia. }
  assert (Forall (λ t, tr_from t ∉ funds) (inline s1)) as Hfrom.
  { rewrite Einl, Hinl. unfold stake_payment. simpl. destruct (0 <? T); repeat constructor. simpl.
    intros Hf. by eapply Hfree. }
  unfold unstaked_part in Hrest. injection Hrest as Eg _ _ Egn _ _ Ebd _ _. wp_steps.
  - wp_call update_votes_frame. destruct H as [P ->]. wp_steps. simpl. rewrite Eg. split_and!; done.
  - rewrite Eg. split_and!; done.
Qed.

(** ** Every action covers what it owes *)
(** The symbols of the market. *)
Definition market_symbols s : Prop := ∀ m, rammarket s = Some m →
  symbol (ex_supply m) = RAMCORE ∧ symbol (c_balance (ex_base m)) = RAM ∧ symbol (c_balance (ex_quote m)) = CORE_SYMBOL.

(** The token contract knows the currencies [known], and neither RAM nor RAMCORE; the transfer that
    runs at once moves tokens of one of them. *)
Variable known : Z → Prop.
Hypothesis known_not_ram : ¬ known RAM.
Hypothesis known_not_ramcore : ¬ known RAMCORE.
Definition first_known ts : Prop :=
  match ts with [] => True | t :: _ => known (symbol (tr_quantity t)) ∧ 0 < amount (tr_quantity t) end.

Record covered s s' : Prop := {
  cv_stake : covers eonio_stake (stake_owed s' - stake_owed s) (inline s');
  cv_bpstk : covers eonio_bpstk (deposits s' - deposits s) (inline s');
  cv_names : covers eonio_names (open_bids s' - open_bids s) (inline s');
  cv_ram : first_known (inline s') →
    covers eonio_ram (total_ram_stake (gstate s') - total_ram_stake (gstate s)) (inline s');
}.
Ltac others := split; [other|other|other|intros _; other].

Lemma propagate_frame fuel env a s :
  idle_voter (voters s !! a) → wp (propagate_weight_change fuel env a) (λ _ s', ∃ V, s' = with_voters V s) s.
Proof.
  intros Hi. destruct fuel as [|fuel]; [done|].
  unfold propagate_weight_change; fold propagate_weight_change; unfold get_voter, modify_voter.
  apply wp_bind, wp_bind, wp_get, wp_lift. intros v Hv. inv_rows. rename select (voters s !! a = _) into Hk.
  rewrite Hk in Hi. destruct Hi as [Hp Hl]. simpl in Hp, Hl. rewrite Hp, Hl. simpl. wp_steps; by eexists.
Qed.

Lemma regproxy_frame env a b s :
  staking_books s → wp (regproxy env a b) (λ _ s', ∃ V, s' = with_voters V s) s.
Proof.
  intros Hb. unfold regproxy, modify_voter. wp_steps; [|by eexists]. inv_rows.
  rename select (voters s !! a = _) into Hk. pose proof (sb_voter _ Hb a) as Hi. rewrite Hk in Hi.
  eapply wp_mono; [apply propagate_frame|intros ? ? [V ->]; by eexists].
  simpl. rewrite lookup_insert_eq. by simplify_eq.
Qed.

Lemma newaccount_covered env c n s :
  fund_free (cenv env) → inline s = [] → wp (newaccount env c n) (λ _, covered s) s.
Proof.
  intros Hfree Hinl. unfold newaccount. wp_steps; inv_rows; [|others..].
  split; [other|other| |intros _; other]. simpl. rewrite Hinl. unfold covers.
  unfold open_bids. simpl. rewrite msum_delete_any. destruct (bids s !! n); simpl; lia.
Qed.

Lemma bidname_covered env b n q s :
  fund_free (cenv env) → inline s = [] → wp (bidname env b n q) (λ _, covered s) s.
Proof.
  intros Hfree Hinl. unfold bidname. wp_steps; inv_rows; (split; [other|other| |intros _; other]); reflect_bools.
  all: assert (b ≠ eonio_names) as Hne%Z.eqb_neq by not_fund.
  all: simpl; rewrite Hinl; unfold covers, open_bids; simpl; rewrite msum_insert.
  all: simpl in *; simplify_eq.
  all: rename select (bids _ !! _ = _) into Hk; rewrite Hk; simpl; unfold inflow; simpl; rewrite Hne.
  all: rename select (symbol q = _) into Hq; unfold flow; simpl; rewrite Hq, Z.eqb_refl.
  - rename select (new_asset _ _ = _) into Ha. apply new_asset_ok in Ha as (_ & _ & ->). simpl. rewrite Z.eqb_refl. lia.
  - lia.
Qed.

Lemma onblock_covered env slot p s :
  asleep s → inline s = [] → fund_free (cenv env) → wp (onblock env slot p) (λ _, covered s) s.
Proof.
  intros [_ Hz] Hinl Hfree. eapply wp_mono; [apply onblock_frame|].
  intros _ ? (P & S & B & g & (? & ? & ? & ? & ? & ? & ->) & -> & HB). rewrite (HB Hz). others.
Qed.

(** A governance node whose deposit stays. *)
Ltac same_deposit :=
  simpl; repeat match goal with H : inline _ = [] |- _ => rewrite H end; apply covers_other;
  [unfold deposits; simpl; rewrite msum_insert;
   match goal with H : gnodes _ !! _ = Some _ |- context [gnodes _ !! _] => rewrite H end; simpl; lia
  |repeat constructor; simpl; not_fund].

Lemma execproposal_covered env o i s :
  inline s = [] → fund_free (cenv env) → wp (execproposal env o i) (λ _, covered s) s.
Proof.
  intros Hinl Hfree. unfold execproposal, exec_type, modify_proposal, modify_gnode, add_elected_producers,
    remove_elected_producers, regproducer, unregprod. wp_steps; inv_rows; simpl in *; simplify_eq.
  all: split; [other|first [same_deposit|other]|other|intros _; other].
Qed.

Lemma updategnode_covered env o k u l s :
  inline s = [] → fund_free (cenv env) → wp (updategnode env o k u l) (λ _, covered s) s.
Proof.
  intros Hinl Hfree. unfold updategnode, modify_gnode. wp_steps; inv_rows; simpl in *; simplify_eq.
  all: split; [other|same_deposit|other|intros _; other].
Qed.

Lemma staketognode_covered env p o k u l s :
  inline s = [] → fund_free (cenv env) → wp (staketognode env p o k u l) (λ _, covered s) s.
Proof.
  intros Hinl Hfree. unfold staketognode. wp_steps; inv_rows; simpl in *.
  split; [other| |other|intros _; other]. simpl. rewrite Hinl. unfold covers, deposits. simpl.
  rename select (gnodes s !! o = None) into Hk. rewrite msum_insert, Hk. simpl.
  rename select (new_asset _ _ = _) into Ha. apply new_asset_ok in Ha as (_ & _ & ->).
  assert (p ≠ eonio_bpstk) as Hne%Z.eqb_neq by not_fund. unfold inflow, flow. simpl. rewrite Hne, Z.eqb_refl. lia.
Qed.

Lemma unstakegnode_covered env o s :
  inline s = [] → fund_free (cenv env) → wp (unstakegnode env o) (λ _, covered s) s.
Proof.
  intros Hinl Hfree. unfold unstakegnode. wp_steps; inv_rows; simpl in *.
  split; [other| |other|intros _; other]. simpl. rewrite Hinl. unfold covers, deposits. simpl.
  rename select (gnodes s !! o = Some _) into Hk. rewrite msum_delete_any, Hk. simpl.
  rename select (new_asset _ _ = _) into Ha. apply new_asset_ok in Ha as (_ & _ & ->).
  unfold inflow, flow. simpl. rewrite Z.eqb_refl. case_match; lia.
Qed.

Lemma refund_covered env o s :
  staking_books s → inline s = [] → fund_free (cenv env) → wp (refund env o) (λ _, covered s) s.
Proof.
  intros Hb Hinl Hfree. unfold refund. wp_steps; inv_rows; simpl in *.
  split; [|other|other|intros _; other]. simpl. rewrite Hinl. unfold covers, stake_owed. simpl.
  rename select (refunds s !! o = Some _) into Hk. rewrite msum_delete_any, Hk. simpl.
  pose proof (sb_refund _ Hb o) as Hr. rewrite Hk in Hr. destruct Hr as (Hn & Hc & Hpos). simpl in *.
  rename select (asset_add _ _ = _) into Ha. apply add_ok in Ha as [[Sa Ra] Ea]; [|by apply amount_delta..].
  assert (o ≠ eonio_stake) as Hne%Z.eqb_neq by not_fund. destruct Hn, Hc.
  unfold inflow, flow. simpl. rewrite Hne, Sa, Z.eqb_refl. lia.
Qed.

Lemma i64_le z : - 2 ^ 63 <= z → i64 z <= z.
Proof.
  intros Hz. unfold i64. pose proof (Z.div_pos (z + 2 ^ 63) (2 ^ 64)). rewrite Z.mod_eq by done. lia.
Qed.

Lemma known_is_core m q to x :
  symbol (ex_supply m) = RAMCORE → symbol (c_balance (ex_base m)) = RAM →
  symbol (c_balance (ex_quote m)) = CORE_SYMBOL → convert m q to = Ok x → known (symbol q) →
  symbol q = CORE_SYMBOL.
Proof.
  intros Es Eb Eq H Hq. unfold convert in H. cbn [convert_fuel] in H.
  destruct (convert_step m q to) as [y|] eqn:E; [|done]. unfold convert_step in E. rewrite Es, Eb, Eq in E.
  destruct (symbol q =? RAMCORE) eqn:E1; reflect_bools; [by rewrite E1 in Hq|]. simpl in E.
  destruct (symbol q =? RAM) eqn:E2; reflect_bools; [by rewrite E2 in Hq|].
  destruct (symbol q =? CORE_SYMBOL) eqn:E3; [by reflect_bools|done].
Qed.

Lemma buyram_core env p r q s :
  market_symbols s → inline s = [] →
  wp (buyram env p r q) (λ _ s', first_known (inline s') → symbol q = CORE_SYMBOL) s.
Proof.
  intros Hm Hinl. unfold buyram, get_market. wp_steps. all: simpl; rewrite Hinl; simpl; intros [Hsym Hpos].
  all: rename select (of_option _ _ = _) into Hmk; apply of_option_ok in Hmk; destruct (Hm _ Hmk) as (? & ? & ?).
  all: rename select (convert _ _ _ = _) into Hcv; by eapply known_is_core in Hcv; [|done..].
Qed.

Lemma buyram_covered env p r q s :
  market_symbols s →
  inline s = [] → fund_free (cenv env) → 0 <= total_ram_stake (gstate s) <= max_amount →
  wp (buyram env p r q) (λ _, covered s) s.
Proof.
  intros Hm Hinl Hfree HT. unfold buyram, get_market. wp_steps.
  all: split; [other|other|other|]. all: simpl; rewrite Hinl; simpl; intros [Hsym Hpos].
  all: rename select (of_option _ _ = _) into Hmk; apply of_option_ok in Hmk; destruct (Hm _ Hmk) as (? & ? & ?).
  all: rename select (convert _ _ _ = _) into Hcv; eapply known_is_core in Hcv as Hsym2; [|done..]; simpl in Hsym2.
  all: assert (p ≠ eonio_ram) as Hne%Z.eqb_neq by not_fund.
  all: unfold covers, inflow, flow; simpl; rewrite Hne, Hsym2, Z.eqb_refl; simpl.
  all: unfold max_amount in HT; set (y := i64 (amount q - _)) in *; pose proof (i64_le (total_ram_stake (gstate s) + y)); lia.
Qed.

Lemma sellram_covered env a b s :
  inline s = [] → fund_free (cenv env) → 0 <= total_ram_stake (gstate s) <= max_amount →
  wp (sellram env a b) (λ _, covered s) s.
Proof.
  intros Hinl Hfree HT. unfold sellram, get_market. wp_steps; reflect_bools.
  all: split; [other|other|other|]. all: simpl; rewrite Hinl; simpl; intros _.
  all: assert (a ≠ eonio_ram) as Hne%Z.eqb_neq by not_fund.
  all: rename select (convert _ _ _ = _) into Hc; apply convert_range in Hc.
  all: unfold covers, inflow, flow; simpl; rewrite Hne; rewrite i64_amount by lia.
  all: case_match; lia.
Qed.

Lemma change_stake_covered env f r net cpu (b : bool) a s :
  staking_books s → core_delta net → core_delta cpu →
  (0 <= amount net ∧ 0 <= amount cpu ∨ amount net <= 0 ∧ amount cpu <= 0) →
  fund_free (cenv env) → inline s = [] → wp (change_stake env f r net cpu b a) (λ _, covered s) s.
Proof.
  intros Hb Hn Hc Hs Hfree Hinl. eapply wp_mono; [by apply change_stake_covers|].
  intros _ x (Hcov & Et & Eg & Eb & Hfrom). split; [done|..].
  1,2: apply covers_other; [unfold deposits, open_bids; rewrite ?Eg, ?Eb; lia|].
  3: intros _; apply covers_other; [lia|].
  all: eapply Forall_impl; [exact Hfrom|]; simpl; intros y Hy E; apply Hy; rewrite E; auto with funds.
Qed.

Lemma dispatch_covered env a s :
  typed_action a → staking_books s → asleep s → market_symbols s → inline s = [] → fund_free (cenv env) →
  0 <= total_ram_stake (gstate s) <= max_amount → wp (system_dispatch env a) (λ _, covered s) s.
Proof.
  intros Ht Hb Hz Hm Hinl Hfree HT. destruct a; simpl in *.
  - by apply newaccount_covered.
  - wp_steps. others.
  - unfold setram. wp_steps. others.
  - unfold setparams. wp_steps. others.
  - unfold setpriv. wp_steps. others.
  - unfold rmvproducer. wp_steps. others.
  - by apply bidname_covered.
  - unfold buyrambytes. wp_steps. by apply buyram_covered.
  - by apply buyram_covered.
  - by apply sellram_covered.
  - destruct Ht. apply delegatebw_args; [done..|]. intros Hn Hc. destruct Hn, Hc.
    apply change_stake_covered; [done|by apply amount_delta..|left; lia|done|done].
  - destruct Ht. apply undelegatebw_args; [done..|]. intros Hn Hc.
    destruct (neg_delta _ (amount_delta _ Hn)) as [? En], (neg_delta _ (amount_delta _ Hc)) as [? Ec]. destruct Hn, Hc.
    apply change_stake_covered; [done..|right; lia|done|done].
  - by apply refund_covered.
  - unfold voteproposal. wp_steps; others.
  - eapply wp_mono; [by apply regproxy_frame|]. intros _ ? [V ->]. others.
  - by apply onblock_covered.
  - by apply execproposal_covered.
  - unfold newproposal. wp_steps; others.
  - by apply staketognode_covered.
  - by apply unstakegnode_covered.
  - by apply updategnode_covered.
  - unfold claimrewards, modify_producer. wp_steps; others.
Qed.

(** ** RAM *)
Lemma market_wf_symbols s : ram_books s → market_symbols s.
Proof. intros Hb m Hm. destruct (rb_market _ Hb _ Hm) as [[[] [] []] _]. done. Qed.

Lemma buyram_known env p r q s :
  ram_books s → inline s = [] → wp (buyram env p r q) (λ _ s', first_known (inline s') → ram_books s') s.
Proof.
  intros Hb Hinl. pose proof (buyram_core env p r q s (market_wf_symbols s Hb) Hinl) as Hc.
  destruct (decide (symbol q = CORE_SYMBOL)) as [E|E].
  - eapply wp_mono; [by apply buyram_ram|]. done.
  - eapply wp_mono; [exact Hc|]. intros ? x Hx Hk. exfalso. exact (E (Hx Hk)).
Qed.

Ltac ram_frame := intros _; match goal with H : ram_books ?s |- ram_books _ => apply (ram_frame s); [exact H|reflexivity..] end.

Lemma dispatch_ram env a s :
  typed_action a → staking_books s → asleep s → ram_books s → inline s = [] →
  wp (system_dispatch env a) (λ _ s', first_known (inline s') → ram_books s') s.
Proof.
  intros Ht Hb Hz Hr Hinl. destruct a; simpl in *.
  - eapply wp_mono; [by apply newaccount_ram|done].
  - wp_steps. ram_frame.
  - eapply wp_mono; [by apply setram_books|done].
  - unfold setparams. wp_steps. ram_frame.
  - unfold setpriv. wp_steps. ram_frame.
  - unfold rmvproducer. wp_steps. ram_frame.
  - unfold bidname. wp_steps; ram_frame.
  - unfold buyrambytes. wp_steps. by apply buyram_known.
  - by apply buyram_known.
  - eapply wp_mono; [by apply sellram_ram|done].
  - destruct Ht. apply delegatebw_args; [done..|]. intros Hn Hc. destruct Hn, Hc.
    eapply wp_mono; [apply change_stake_ram; [done|by apply amount_delta..|left; lia|done]|done].
  - destruct Ht. apply undelegatebw_args; [done..|]. intros Hn Hc.
    destruct (neg_delta _ (amount_delta _ Hn)) as [? En], (neg_delta _ (amount_delta _ Hc)) as [? Ec]. destruct Hn, Hc.
    eapply wp_mono; [apply change_stake_ram; [done..|right; lia|done]|done].
  - unfold refund. wp_steps. ram_frame.
  - unfold voteproposal. wp_steps; ram_frame.
  - eapply wp_mono; [by apply regproxy_frame|]. intros _ ? [V ->]. ram_frame.
  - eapply wp_mono; [apply onblock_frame|]. intros _ ? (P & S & B & g & (? & ? & ? & ? & ? & ? & ->) & -> & _). ram_frame.
  - unfold execproposal, exec_type, modify_proposal, modify_gnode, add_elected_producers,
      remove_elected_producers, regproducer, unregprod. wp_steps; ram_frame.
  - unfold newproposal. wp_steps; ram_frame.
  - unfold staketognode. wp_steps; ram_frame.
  - unfold unstakegnode. wp_steps; ram_frame.
  - unfold updategnode, modify_gnode. wp_steps; ram_frame.
  - unfold claimrewards, modify_producer. wp_steps; ram_frame.
Qed.

(** The total paid for RAM does not become negative, unless a payment overflows it. *)
Definition total_kept s s' : Prop :=
  0 <= total_ram_stake (gstate s') ∨
  ∃ t ts, inline s' = t :: ts ∧ tr_to t = eonio_ram ∧ tr_from t ≠ eonio_ram ∧
    symbol (tr_quantity t) = CORE_SYMBOL ∧
    total_ram_stake (gstate s') = i64 (total_ram_stake (gstate s) + amount (tr_quantity t)).

Lemma buyram_total env p r q s :
  market_symbols s → inline s = [] → fund_free (cenv env) →
  wp (buyram env p r q) (λ _ s', first_known (inline s') → total_kept s s') s.
Proof.
  intros Hm Hinl Hfree. pose proof (buyram_core env p r q s Hm Hinl) as H1.
  assert (wp (buyram env p r q) (λ _ s', ∃ t ts, inline s' = t :: ts ∧ tr_to t = eonio_ram ∧
      tr_from t ≠ eonio_ram ∧ symbol (tr_quantity t) = symbol q ∧
      total_ram_stake (gstate s') = i64 (total_ram_stake (gstate s) + amount (tr_quantity t))) s) as H2.
  { unfold buyram, get_market. wp_steps. all: simpl; rewrite Hinl; eexists _, _; split; [reflexivity|].
    all: split_and!; try done; simpl; not_fund. }
  eapply wp_mono; [exact (wp_and _ _ _ _ H1 H2)|].
  intros _ s' [Hc (t & ts & E & Hto & Hfrom & Hs & Ht)] Hk. right. exists t, ts. rewrite Hs. auto 10.
Qed.

Ltac same_total := intros _; left; simpl; lia.

Lemma dispatch_total env a s :
  typed_action a → staking_books s → asleep s → market_symbols s → inline s = [] → fund_free (cenv env) →
  0 <= total_ram_stake (gstate s) → wp (system_dispatch env a) (λ _ s', first_known (inline s') → total_kept s s') s.
Proof.
  intros Ht Hb Hz Hm Hinl Hfree HT. destruct a; simpl in *.
  - unfold newaccount. wp_steps; same_total.
  - wp_steps. same_total.
  - unfold setram. wp_steps. same_total.
  - unfold setparams. wp_steps. same_total.
  - unfold setpriv. wp_steps. same_total.
  - unfold rmvproducer. wp_steps. same_total.
  - unfold bidname. wp_steps; same_total.
  - unfold buyrambytes. wp_steps. by apply buyram_total.
  - by apply buyram_total.
  - unfold sellram, get_market. wp_steps; reflect_bools; intros _; left; done.
  - destruct Ht. apply delegatebw_args; [done..|]. intros Hn Hc. destruct Hn, Hc.
    eapply wp_mono; [apply change_stake_covers; [done|by apply amount_delta..|left; lia|done|done]|].
    intros _ x (_ & E & _) _. left. lia.
  - destruct Ht. apply undelegatebw_args; [done..|]. intros Hn Hc.
    destruct (neg_delta _ (amount_delta _ Hn)) as [? En], (neg_delta _ (amount_delta _ Hc)) as [? Ec]. destruct Hn, Hc.
    eapply wp_mono; [apply change_stake_covers; [done..|right; lia|done|done]|].
    intros _ x (_ & E & _) _. left. lia.
  - unfold refund. wp_steps. same_total.
  - unfold voteproposal. wp_steps; same_total.
  - eapply wp_mono; [by apply regproxy_frame|]. intros _ ? [V ->]. same_total.
  - eapply wp_mono; [apply onblock_frame|]. intros _ ? (P & S & B & g & (? & ? & ? & ? & ? & ? & ->) & -> & _). same_total.
  - unfold execproposal, exec_type, modify_proposal, modify_gnode, add_elected_producers,
      remove_elected_producers, regproducer, unregprod. wp_steps; same_total.
  - unfold newproposal. wp_steps; same_total.
  - unfold staketognode. wp_steps; same_total.
  - unfold unstakegnode. wp_steps; same_total.
  - unfold updategnode, modify_gnode. wp_steps; same_total.
  - unfold claimrewards, modify_producer. wp_steps; same_total.
Qed.
End funds.
