(* ===== verification/SystemWorld.v ===== *)
(** * The system contract and the token contract together

    A world is the state of both contracts and the inline transfers that are still to run.  A step runs
    an action of the system contract with the first of its transfers, one transfer that is pending, or
    an action of the token contract that somebody else sends.  Pending transfers run before what was
    pending before them, as apply_context::exec orders inline actions; what other contracts do in
    between are further steps.  Nobody acts for the funds but the system contract, and no currency is
    created with the names that the RAM market uses.

    Results: in every reachable world each fund of the system contract holds at least what it owes, the
    books on RAM are exact, and a refund that is due is paid. *)

From stdpp Require Import sorting strings.
From S2P Require Import Prelude Wp Names Dimensionlib Token RamMarket ChainConfig System SystemLogic Auctions Staking.
From S2P Require Import RamBooks Funds.

Record world := World {
  w_token : token_state;
  w_system : system_state;
  w_pending : list transfer_args;
}.

Section world.
Context {LM : Libm} {CS : CoreSymbol}.
Implicit Types (s : system_state) (env : system_env) (t : transfer_args) (ts : list transfer_args).
Implicit Types (tok : token_state) (w : world).

(** An inline transfer, with the active permission of its sender. *)
Definition run_transfer (c : contract_env) t tok : result token_state :=
  transfer (ContractEnv (self c) [tr_from t] (is_account c) (now c) (current_time c))
    (tr_from t) (tr_to t) (tr_quantity t) (tr_memo t) tok.

(** The first of the transfers that an action sends runs at once. *)
Inductive run_first (c : contract_env) tok : list transfer_args → token_state → list transfer_args → Prop :=
| first_none : run_first c tok [] tok []
| first_some t ts tok' : run_transfer c t tok = Ok tok' → run_first c tok (t :: ts) tok' ts.

Inductive world_step w : world → Prop :=
| world_system env a s' tok' ts :
    typed_action a → fund_free (cenv env) →
    core_supply env = amount <$> get_supply (w_token w) (symbol_name CORE_SYMBOL) →
    system_run env a (w_system w) = (s', Ok tt) →
    run_first (cenv env) (w_token w) (inline s') tok' ts →
    world_step w (World tok' s' (ts ++ w_pending w))
| world_pending c t ts tok' :
    w_pending w = t :: ts → run_transfer c t (w_token w) = Ok tok' →
    world_step w (World tok' (w_system w) ts)
| world_token c a tok' ts :
    fund_free c → self c ∉ authorized c → token_run c a (w_token w) = Ok (tok', ts) →
    world_step w (World tok' (w_system w) (ts ++ w_pending w)).

(** ** What an action does to the system contract *)
Definition typed_env env : Prop := ∀ z, core_supply env = Ok z → in_i64 z.

Lemma construct_spec env s :
  typed_env env → ram_books (load env s) →
  wp (construct env) (λ _ s', ram_books s' ∧ ∃ m, s' = with_rammarket m (load env s)) s.
Proof.
  intros He Hr. unfold construct. wp_steps; fold (load env s) in *.
  - split; [done|]. exists (rammarket s). by destruct s.
  - split; [|by eexists]. split; simpl; [apply Hr|apply Hr|]. intros ? [= <-].
    rename select (core_supply env = _) into Hz. apply He in Hz. unfold in_i64 in Hz.
    split; [split; simpl; (split; [done|])|].
    + done.
    + apply i64_in.
    + reflect_bools. unfold in_i64. rewrite Z.quot_div_nonneg by lia.
      pose proof (Z.div_pos a 1000). pose proof (Z.div_le_upper_bound a 1000 a). lia.
    + unfold ram_left. simpl. apply i64_proper. apply u64_eqm.
  - split; [done|]. exists (rammarket s). by destruct s.
Qed.

Lemma covered_frame known s s1 s' :
  delband s1 = delband s → refunds s1 = refunds s → gnodes s1 = gnodes s → bids s1 = bids s → gstate s1 = gstate s →
  covered known s1 s' → covered known s s'.
Proof.
  intros E1 E2 E3 E4 E5 []. unfold stake_owed, deposits, open_bids in *. rewrite E1, E2, E3, E4, E5 in *. by split.
Qed.

Lemma system_run_spec known env a s :
  ¬ known RAM → ¬ known RAMCORE → typed_action a → typed_env env → fund_free (cenv env) →
  staking_books s → dormant s → ram_books (load env s) → 0 <= total_ram_stake (gstate (load env s)) <= max_amount →
  wp (system_run env a) (λ _ s', staking_books s' ∧ dormant s' ∧ covered known (load env s) s' ∧
    (first_known known (inline s') → ram_books s' ∧ total_kept (load env s) s') ∧
    stored_global s' = Some (gstate s')) s.
Proof.
  intros Hk1 Hk2 Ht He Hfree Hb Hd Hr HT. apply wp_and; [by apply system_run_books|].
  apply wp_and; [by apply system_run_asleep|]. unfold system_run. apply wp_bind.
  apply (wp_mono _ (λ _ s1, asleep s1 ∧ staking_books s1 ∧ ram_books s1 ∧ ∃ m, s1 = with_rammarket m (load env s))).
  { apply wp_and; [by apply construct_asleep|]. apply wp_and; [by apply construct_books|]. by apply construct_spec. }
  intros _ s1 (Hz & Hb1 & Hr1 & m & E). apply wp_bind.
  apply (wp_mono _ (λ _ s2, covered known s1 s2 ∧ (first_known known (inline s2) → ram_books s2) ∧
    (first_known known (inline s2) → total_kept s1 s2))).
  { pose proof (market_wf_symbols _ Hr1) as Hms.
    apply wp_and; [apply dispatch_covered|apply wp_and; [apply dispatch_ram|apply dispatch_total]]; try done;
      rewrite E; done || apply HT. }
  intros _ s2 (Hc & Hr2 & Ht2). apply wp_modify. split; [|split; [|done]].
  - apply (covered_frame known _ s1); try (rewrite E; reflexivity). by destruct Hc.
  - intros Hf. split; [eapply ram_frame; [by apply Hr2|reflexivity..]|]. rewrite E in Ht2. by apply Ht2.
Qed.

(** ** Transfers *)
Definition core_name : Z := symbol_name CORE_SYMBOL.
Definition held tok (f : Z) : Z := balance tok f core_name.
Definition core_currency tok : Prop :=
  ∃ st, find (stats tok) core_name = Some st ∧ symbol (supply st) = CORE_SYMBOL.
Definition known_to tok (sym : Z) : Prop := is_Some (find (stats tok) (symbol_name sym)).

Lemma run_transfer_spec c t tok tok' :
  token_wf tok → core_currency tok → run_transfer c t tok = Ok tok' →
  token_wf tok' ∧ stats tok' = stats tok ∧ known_to tok (symbol (tr_quantity t)) ∧ 0 < amount (tr_quantity t) ∧
  ∀ f, held tok' f = held tok f + inflow f t.
Proof.
  intros Hwf (st & Hst & Hsym) H. unfold run_transfer in H.
  apply transfer_spec in H as (Hne & _ & _ & _ & (st' & Hst' & Hs') & Hpos & Hwf' & Est & Hbal); [|done].
  split_and!; try done; [by eexists|lia|]. intros f. unfold held. rewrite Hbal. unfold inflow, flow.
  destruct (decide (symbol_name (symbol (tr_quantity t)) = core_name)) as [En|En].
  - assert (symbol (tr_quantity t) = CORE_SYMBOL) as Eq by (rewrite En in Hst'; congruence).
    rewrite Eq, Z.eqb_refl. fold core_name.
    destruct (tr_to t =? f) eqn:E1, (tr_from t =? f) eqn:E2; reflect_bools; repeat case_decide; simplify_eq; lia.
  - assert (symbol (tr_quantity t) ≠ CORE_SYMBOL) as Eq%Z.eqb_neq by (intros E; apply En; by rewrite E).
    rewrite Eq. repeat case_decide; simplify_eq; repeat case_match; lia.
Qed.

Lemma held_bounds tok f : token_wf tok → core_currency tok → 0 <= held tok f <= max_amount.
Proof.
  intros Hwf (st & [p Hst]%find_Some & _). destruct (tb_stats _ _ Hwf _ _ _ Hst) as (_ & _ & _ & ? & ? & Hsum).
  pose proof (balance_nonneg _ _ f core_name Hwf). pose proof (balance_le_sum _ _ f core_name Hwf). unfold held. lia.
Qed.

(** ** Solvency *)
Record solvent w : Prop := {
  sv_token : token_wf (w_token w);
  sv_core : core_currency (w_token w);
  sv_names : ¬ known_to (w_token w) RAM ∧ ¬ known_to (w_token w) RAMCORE;
  sv_books : staking_books (w_system w);
  sv_dormant : dormant (w_system w);
  sv_ram env : ram_books (load env (w_system w));
  sv_stake : stake_owed (w_system w) + outflow eonio_stake (w_pending w) <= held (w_token w) eonio_stake;
  sv_bpstk : deposits (w_system w) + outflow eonio_bpstk (w_pending w) <= held (w_token w) eonio_bpstk;
  sv_bids : open_bids (w_system w) + outflow eonio_names (w_pending w) <= held (w_token w) eonio_names;
  sv_ram_fund env : 0 <= total_ram_stake (gstate (load env (w_system w))) ∧
    total_ram_stake (gstate (load env (w_system w))) + outflow eonio_ram (w_pending w) <= held (w_token w) eonio_ram;
}.

Lemma outflow_nonneg f ts : 0 <= outflow f ts.
Proof. induction ts as [|t ts IH]; simpl; [done|]. pose proof (flow_nonneg t). case_match; lia. Qed.

(** A debt covered by the first transfer stays below the balance. *)
Lemma covers_held c tok tok' f d ts ts' :
  token_wf tok → core_currency tok → run_first c tok ts tok' ts' → covers f d ts →
  d + outflow f ts' <= held tok' f - held tok f.
Proof.
  intros Hwf Hc [|t ts1 tok1 Hr] Hcov; unfold covers in Hcov; simpl; [lia|].
  apply run_transfer_spec in Hr as (_ & _ & _ & _ & Hh); [|done..]. rewrite Hh. lia.
Qed.

Lemma run_first_spec c tok ts tok' ts' :
  token_wf tok → core_currency tok → run_first c tok ts tok' ts' →
  token_wf tok' ∧ stats tok' = stats tok ∧ first_known (known_to tok) ts.
Proof.
  intros Hwf Hc [|t ts1 tok1 Hr]; [done|]. by apply run_transfer_spec in Hr as (? & ? & ? & ? & _).
Qed.

Lemma solvent_pending w c t ts tok' :
  solvent w → w_pending w = t :: ts → run_transfer c t (w_token w) = Ok tok' →
  solvent (World tok' (w_system w) ts).
Proof.
  intros [] E Hr. apply run_transfer_spec in Hr as (Hwf & Est & _ & _ & Hh); [|done..].
  rewrite E in *. pose proof (flow_nonneg t). simpl in *.
  split; simpl; unfold core_currency, known_to in *; rewrite ?Est, ?Hh; unfold inflow; try done.
  1,2,3: repeat case_match; lia.
  intros env. destruct (sv_ram_fund0 env). split; [done|]. repeat case_match; lia.
Qed.

(** Actions that others send to the token contract. *)
Lemma token_run_spec c a tok tok' ts :
  token_wf tok → fund_free c → self c ∉ authorized c → token_run c a tok = Ok (tok', ts) →
  (∀ sym, known_to tok' sym → known_to tok sym) ∧
  ∀ f, f ∈ funds → held tok f <= held tok' f ∧ outflow f ts = 0.
Proof.
  intros Hwf Hfree Hself H. destruct a as [i m|to v memo|[from to v memo]]; simpl in H.
  - inv_ok. by apply create_spec in Hrun as (_ & _ & ? & _).
  - apply issue_spec in H as (_ & p & st & Hst & Hauth & _ & Hpos & _ & Est & -> & Hbal); [|done]. split.
    + intros sym [st' (q & Hk)%find_Some]. rewrite Est in Hk. unfold known_to, find.
      destruct (decide (symbol_name sym = symbol_name (symbol v))) as [->|Hne]; [by rewrite Hst; eexists|].
      rewrite lookup_insert_ne in Hk by done. rewrite Hk. by eexists.
    + intros f Hf. assert (issuer st ≠ f) as Hne by (intros <-; by eapply Hfree). split.
      * unfold held. rewrite Hbal. case_decide; lia.
      * apply outflow_other. destruct (negb _); by repeat constructor.
  - inv_ok. apply transfer_spec in Hrun as (_ & Hauth & _ & _ & _ & Hpos & _ & Est & Hbal); [|done]. split.
    + unfold known_to. by rewrite Est.
    + intros f Hf. assert (from ≠ f) as Hne by (intros <-; by eapply Hfree). split; [|done].
      unfold held. rewrite Hbal, (decide_False (P:=(from, _) = (f, _))) by congruence. case_decide; lia.
Qed.

Lemma solvent_token w c a tok' ts :
  solvent w → fund_free c → self c ∉ authorized c → token_run c a (w_token w) = Ok (tok', ts) →
  solvent (World tok' (w_system w) (ts ++ w_pending w)).
Proof.
  intros [] Hfree Hself H.
  pose proof (token_run_spec _ _ _ _ _ sv_token0 Hfree Hself H) as [Hknown Hf].
  split; simpl; rewrite ?outflow_app; try done.
  - by eapply token_run_wf.
  - destruct sv_core0 as (st & Hst & Hs). eapply token_run_stats in H as (st' & Hst' & Hs' & _); [|done..].
    exists st'. split; [done|congruence].
  - destruct sv_names0. split; intros ?%Hknown; done.
  - destruct (Hf eonio_stake fund_stake). lia.
  - destruct (Hf eonio_bpstk fund_bpstk). lia.
  - destruct (Hf eonio_names fund_names). lia.
  - intros env. destruct (sv_ram_fund0 env), (Hf eonio_ram fund_ram). simpl in *. split; [done|lia].
Qed.

Lemma solvent_system w env a s' tok' ts :
  solvent w → typed_action a → fund_free (cenv env) →
  core_supply env = amount <$> get_supply (w_token w) core_name →
  system_run env a (w_system w) = (s', Ok tt) →
  run_first (cenv env) (w_token w) (inline s') tok' ts →
  solvent (World tok' s' (ts ++ w_pending w)).
Proof.
  intros [] Ht Hfree Hsup Hrun Hfirst. destruct sv_names0 as [Hk1 Hk2].
  destruct (run_first_spec _ _ _ _ _ sv_token0 sv_core0 Hfirst) as (Hwf & Est & Hknown).
  assert (core_currency tok') as Hcore by (unfold core_currency; by rewrite Est).
  assert (typed_env env) as Henv.
  { intros z Hz. rewrite Hsup in Hz. unfold get_supply, get in Hz. destruct sv_core0 as (st & Hst & _).
    rewrite Hst in Hz. simpl in Hz. injection Hz as <-. apply find_Some in Hst as [p Hst].
    destruct (tb_stats _ _ sv_token0 _ _ _ Hst) as (_ & _ & _ & ? & ? & _). unfold in_i64, max_amount in *. lia. }
  destruct (sv_ram_fund0 env) as [HT0 HT1]. pose proof (outflow_nonneg eonio_ram (w_pending w)) as Ho.
  pose proof (held_bounds _ eonio_ram sv_token0 sv_core0) as Hr1. pose proof (held_bounds _ eonio_ram Hwf Hcore) as Hr2.
  pose proof (system_run_spec (known_to (w_token w)) env a (w_system w)) as Hw. rewrite wp_run in Hw.
  destruct (Hw Hk1 Hk2 Ht Henv Hfree sv_books0 sv_dormant0 (sv_ram0 env) ltac:(lia) _ _ Hrun)
    as (Hb & Hd & Hcov & Hram & Hst). clear Hw. destruct (Hram Hknown) as [Hrb Htot].
  pose proof (covers_held _ _ _ _ _ _ _ sv_token0 sv_core0 Hfirst (cv_stake _ _ _ Hcov)) as H1.
  pose proof (covers_held _ _ _ _ _ _ _ sv_token0 sv_core0 Hfirst (cv_bpstk _ _ _ Hcov)) as H2.
  pose proof (covers_held _ _ _ _ _ _ _ sv_token0 sv_core0 Hfirst (cv_names _ _ _ Hcov)) as H3.
  pose proof (covers_held _ _ _ _ _ _ _ sv_token0 sv_core0 Hfirst (cv_ram _ _ _ Hcov Hknown)) as H4.
  assert (∀ e, gstate (load e s') = gstate s') as El by (intros e; unfold load; simpl; by rewrite Hst).
  assert (0 <= total_ram_stake (gstate s')) as HT'.
  { destruct Htot as [|(t & ts1 & Einl & Hto & Hfrom & Hsym & Etot)]; [done|]. rewrite Einl in Hfirst.
    inversion Hfirst as [|? ? ? Hr]; subst. apply run_transfer_spec in Hr as (_ & _ & _ & Hpos & Hh); [|done..].
    assert (held tok' eonio_ram = held (w_token w) eonio_ram + amount (tr_quantity t)) as Ehr.
    { rewrite Hh. unfold inflow, flow. rewrite Hto, Hsym, !Z.eqb_refl, (proj2 (Z.eqb_neq _ _) Hfrom). lia. }
    rewrite Etot, i64_amount; lia. }
  change (stake_owed (load env (w_system w))) with (stake_owed (w_system w)) in H1.
  change (deposits (load env (w_system w))) with (deposits (w_system w)) in H2.
  change (open_bids (load env (w_system w))) with (open_bids (w_system w)) in H3.
  split; cbn [w_token w_system w_pending]; rewrite ?outflow_app; try done; try lia.
  - unfold known_to. by rewrite Est.
  - intros e. apply (ram_frame s'); try done; by rewrite El.
  - intros e. rewrite El. split; [done|lia].
Qed.

Lemma solvent_step w w' : solvent w → world_step w w' → solvent w'.
Proof.
  intros Hw [env a s' tok' ts|c t ts tok'|c a tok' ts].
  - by eapply solvent_system.
  - by eapply solvent_pending.
  - by eapply solvent_token.
Qed.

(** A world in which the system contract has not run yet. *)
Record world_initial w : Prop := {
  wi_token : token_wf (w_token w);
  wi_core : core_currency (w_token w);
  wi_names : ¬ known_to (w_token w) RAM ∧ ¬ known_to (w_token w) RAMCORE;
  wi_system : ∃ g, w_system w = system_initial g;
  wi_pending : w_pending w = [];
}.

Lemma solvent_initial w : world_initial w → solvent w.
Proof.
  intros [Hwf Hc Hn [g Es] Ep].
  split; rewrite ?Es, ?Ep; try done.
  - apply (held_bounds _ eonio_stake Hwf Hc).
  - apply (held_bounds _ eonio_bpstk Hwf Hc).
  - apply (held_bounds _ eonio_names Hwf Hc).
  - intros env. split; [done|]. apply (held_bounds _ eonio_ram Hwf Hc).
Qed.

Lemma reachable_solvent w0 w : world_initial w0 → rtc world_step w0 w → solvent w.
Proof. intros H0. apply rtc_preserves; [apply solvent_step|by apply solvent_initial]. Qed.

(** C29: Solvency.  In every world that is reachable by actions of the system contract, its inline
    transfers and whatever others do with the token contract, each fund holds at least what the system
    contract owes from it and has already promised to pay: eonio.stake what is delegated and what is
    being refunded, eonio.ram the net payments for RAM, eonio.bpstk the deposits of governance nodes,
    and eonio.names the open bids. *)
Theorem funds_solvent w0 w :
  world_initial w0 → rtc world_step w0 w →
  stake_owed (w_system w) + outflow eonio_stake (w_pending w) <= held (w_token w) eonio_stake ∧
  deposits (w_system w) + outflow eonio_bpstk (w_pending w) <= held (w_token w) eonio_bpstk ∧
  open_bids (w_system w) + outflow eonio_names (w_pending w) <= held (w_token w) eonio_names ∧
  ∀ env, 0 <= total_ram_stake (gstate (load env (w_system w))) ∧
    total_ram_stake (gstate (load env (w_system w))) + outflow eonio_ram (w_pending w) <= held (w_token w) eonio_ram.
Proof. intros H0 Hr. by destruct (reachable_solvent w0 w H0 Hr). Qed.

(** C31: The books on RAM: in every reachable world the bytes of all accounts add up to the bytes sold,
    as 64-bit numbers, and the market has exactly the rest of the RAM to sell. *)
Theorem ram_books_exact w0 w env :
  world_initial w0 → rtc world_step w0 w → ram_books (load env (w_system w)).
Proof. intros H0 Hr. by destruct (reachable_solvent w0 w H0 Hr). Qed.

(** ** Refunds are paid *)
Lemma construct_total env s z :
  core_supply env = Ok z → ∃ m, construct env s = (with_rammarket m (load env s), Ok tt).
Proof.
  intros Hz. unfold construct. rewrite st_get_run. cbv zeta.
  rewrite (st_bind_run _ _ _ _ tt) by reflexivity. fold (load env s).
  destruct (rammarket s) eqn:E; [exists (rammarket s); by destruct s|].
  rewrite Hz, st_lift_run. destruct (0 <? z); [by eexists|]. exists (rammarket s). by destruct s.
Qed.

Lemma refund_le_owed w o p r :
  staking_books (w_system w) → refunds (w_system w) !! o = Some (p, r) →
  amount (net_amount r) + amount (cpu_amount r) <= stake_owed (w_system w).
Proof.
  intros Hb Hk. unfold stake_owed.
  assert (0 <= msum (λ k (r : Z * delegated_bandwidth), amount (d_net r.2) + amount (d_cpu r.2)) (delband (w_system w))).
  { apply msum_nonneg_in. intros k d Hd. pose proof (sb_delegation _ Hb k) as H. rewrite Hd in H.
    destruct H as (_ & _ & ?). lia. }
  rewrite (msum_delete _ _ _ _ Hk). simpl.
  assert (0 <= msum (λ k (r : Z * refund_request), amount (net_amount r.2) + amount (cpu_amount r.2)) (delete o (refunds (w_system w)))).
  { apply msum_nonneg_in. intros k d [_ Hd]%lookup_delete_Some. pose proof (sb_refund _ Hb k) as H'. rewrite Hd in H'.
    destruct H' as (_ & _ & ?). lia. }
  lia.
Qed.

(** The transfer of a refund. *)
Definition refund_payment (o : Z) (r : refund_request) : transfer_args :=
  TransferArgs eonio_stake o (core (amount (net_amount r) + amount (cpu_amount r))) (codes "unstake").

Lemma refund_total env o p r s :
  o ∈ authorized (cenv env) → refunds s !! o = Some (p, r) → u32 (request_time r + refund_delay) <= time_now env →
  core_amount (net_amount r) → core_amount (cpu_amount r) → amount (net_amount r) + amount (cpu_amount r) <= max_amount →
  refund env o s =
    (with_refunds (delete o (refunds s)) (with_inline (inline s ++ [refund_payment o r]) s), Ok tt).
Proof.
  intros Ha Hk Ht [Sn Rn] [Sc Rc] Hsum. unfold refund, auth, require_auth, assert, get, find.
  rewrite (bool_decide_eq_true_2 _ Ha), (st_bind_run _ _ _ _ tt) by reflexivity.
  rewrite st_get_run, Hk, (st_bind_run _ _ _ _ r) by reflexivity.
  rewrite (proj2 (Z.leb_le _ _) Ht), (st_bind_run _ _ _ _ tt) by reflexivity.
  assert (asset_add (net_amount r) (cpu_amount r) = Ok (core (amount (net_amount r) + amount (cpu_amount r)))) as ->.
  { unfold asset_add. rewrite Sn, Sc, Z.eqb_refl. cbv zeta. rewrite i64_amount by lia. simpl.
    rewrite !(proj2 (Z.leb_le _ _)) by (unfold max_amount in *; lia). done. }
  rewrite st_lift_run, (st_bind_run _ _ _ _ tt) by reflexivity. fold (refund_payment o r).
  unfold upd, erase. rewrite st_get_run. simpl. rewrite Hk. reflexivity.
Qed.

(** C35: Refunds are paid: in every reachable world with nothing pending, a refund whose three days are
    over can be claimed by its owner.  The action succeeds, the one transfer that it sends succeeds, and
    the owner has got the whole amount; the request is gone. *)
Theorem refund_paid w0 w env o p r :
  world_initial w0 → rtc world_step w0 w → w_pending w = [] →
  refunds (w_system w) !! o = Some (p, r) → u32 (request_time r + refund_delay) <= time_now env →
  fund_free (cenv env) → o ∈ authorized (cenv env) → is_account (cenv env) o = true →
  core_supply env = amount <$> get_supply (w_token w) core_name →
  ∃ s' tok', system_run env (Refund o) (w_system w) = (s', Ok tt) ∧
    run_first (cenv env) (w_token w) (inline s') tok' [] ∧
    world_step w (World tok' s' []) ∧
    held tok' o = held (w_token w) o + (amount (net_amount r) + amount (cpu_amount r)) ∧ refunds s' !! o = None.
Proof.
  intros H0 Hr Hp Hk Ht Hfree Ha Hacc Hsup. destruct (reachable_solvent w0 w H0 Hr).
  pose proof (refund_le_owed w o p r sv_books0 Hk) as Hle. rewrite Hp in *. simpl in *.
  pose proof (held_bounds _ eonio_stake sv_token0 sv_core0) as Hh.
  pose proof (sb_refund _ sv_books0 o) as Hok. rewrite Hk in Hok. destruct Hok as (Hn & Hc & Hpos). simpl in *.
  destruct sv_core0 as (st & Hst & Hsym).
  assert (∃ z, core_supply env = Ok z) as [z Hz] by (rewrite Hsup; unfold get_supply, get; rewrite Hst; by eexists).
  destruct (construct_total env (w_system w) z Hz) as [m Hcon].
  assert (o ≠ eonio_stake) as Hne by (apply (fund_free_ne env); [done|apply fund_stake|done]).
  set (s1 := with_rammarket m (load env (w_system w))) in *.
  assert (amount (net_amount r) + amount (cpu_amount r) <= max_amount) as Hmax by lia.
  pose proof (refund_total env o p r s1 Ha Hk Ht Hn Hc Hmax) as Href.
  set (s2 := with_refunds _ _) in Href. set (s' := with_stored_global (Some (gstate s2)) s2).
  assert (system_run env (Refund o) (w_system w) = (s', Ok tt)) as Hrun.
  { unfold system_run. rewrite (st_bind_run _ _ _ _ _ Hcon). simpl system_dispatch.
    by rewrite (st_bind_run _ _ _ _ _ Href). }
  destruct (transfer_total (ContractEnv (self (cenv env)) [eonio_stake] (is_account (cenv env)) (now (cenv env))
    (current_time (cenv env))) eonio_stake o (tr_quantity (refund_payment o r)) (codes "unstake") (w_token w) st)
    as [tok' Htr]; try done; [by apply list_elem_of_here|unfold held in *; simpl; fold core_name; lia|].
  assert (run_first (cenv env) (w_token w) (inline s') tok' []) as Hfirst by by constructor.
  exists s', tok'. split_and!; try done.
  - assert (World tok' s' [] = World tok' s' ([] ++ w_pending w)) as -> by by rewrite Hp.
    by apply (world_system w env (Refund o)).
  - assert (run_transfer (cenv env) (refund_payment o r) (w_token w) = Ok tok') as Hrt by exact Htr.
    apply run_transfer_spec in Hrt as (_ & _ & _ & _ & ->); [|done|by exists st]. unfold inflow. cbn [tr_to tr_from refund_payment].
    rewrite Z.eqb_refl, (proj2 (Z.eqb_neq eonio_stake o)) by congruence. erewrite flow_core by (done || lia). lia.
  - apply lookup_delete_eq.
Qed.
End world.

(** ** A run of both contracts *)
Section toy.
Context {LM : Libm} {CS : CoreSymbol}.

Definition world_run (env : system_env) (a : system_action) (w : world) : option world :=
  match system_run env a (w_system w) with
  | (s', Ok _) =>
      match inline s' with
      | [] => Some (World (w_token w) s' (w_pending w))
      | t :: ts =>
          match run_transfer (cenv env) t (w_token w) with
          | Ok tok' => Some (World tok' s' (ts ++ w_pending w))
          | Throw _ => None
          end
      end
  | _ => None
  end.

Lemma world_run_step env a w w' :
  typed_action a → fund_free (cenv env) → core_supply env = amount <$> get_supply (w_token w) core_name →
  world_run env a w = Some w' → world_step w w'.
Proof.
  intros Ht Hf Hs H. unfold world_run in H. destruct (system_run _ _ _) as [s' [[]|]] eqn:E; [|done].
  destruct (inline s') as [|t ts] eqn:Ei.
  - injection H as <-. apply (world_system w env a s' _ []); try done. rewrite Ei. constructor.
  - destruct (run_transfer _ _ _) as [tok'|] eqn:Er; [|done]. injection H as <-.
    apply (world_system w env a s' tok' ts); try done. rewrite Ei. by constructor.
Qed.
End toy.

Definition toy_token : token_state :=
  let c := ContractEnv eonio_token [eonio_token; 1] (λ _, true) 0 0 in
  match create c 1 (Asset 100000000000000 EON) token_empty with
  | Ok tok => match issue c 1 (Asset 10000000000000 EON) [] tok with Ok (tok, _) => tok | _ => tok end
  | _ => token_empty
  end.
Definition toy_world0 : world := World toy_token toy_initial [].
Definition toy_run (auths : list Z) (time : Z) (a : system_action) (w : world) : world :=
  default w (@world_run toy_libm toy_core (toy_env auths time) a w).
Definition toy_world1 : world :=
  toy_run [1] 5 (DelegateBw 1 1 (Asset 1000000000000 EON) (Asset 2000000000000 EON) false) toy_world0.
Definition toy_world2 : world := toy_run [1] 6 (UndelegateBw 1 1 (Asset 5 EON) (Asset 7 EON)) toy_world1.

Lemma toy_run_step auths time a w :
  typed_action a → fund_free (cenv (toy_env auths time)) →
  match @world_run toy_libm toy_core (toy_env auths time) a w with Some _ => true | None => false end = true →
  Ok 10000000000000 = amount <$> get_supply (w_token w) (@core_name toy_core) →
  @world_step toy_libm toy_core w (toy_run auths time a w).
Proof.
  intros Ht Hf H Hs. unfold toy_run. destruct (world_run _ _ _) as [w'|] eqn:E; [|done].
  by eapply (@world_run_step toy_libm toy_core).
Qed.

Lemma toy_fund_free time : fund_free (cenv (toy_env [1] time)).
Proof.
  intros f Hf H. apply list_elem_of_singleton in H as ->. unfold funds in Hf.
  repeat (apply elem_of_cons in Hf as [Hf|Hf]; [discriminate|]). by apply not_elem_of_nil in Hf.
Qed.

Lemma toy_world_initial : @world_initial toy_core toy_world0.
Proof.
  assert (token_wf toy_token) as Hwf.
  { unfold toy_token. cbv zeta. set (c := ContractEnv _ _ _ _ _).
    destruct (create c _ _ _) as [tok|] eqn:E1; [|apply token_wf_empty].
    assert (token_wf tok) as H1 by (by apply create_spec in E1 as [? _]; [|apply token_wf_empty]).
    destruct (issue c _ _ _ _) as [[tok' i]|] eqn:E2; [|done]. by apply issue_spec in E2 as [? _]. }
  split; try done.
  - exists (CurrencyStats (Asset 10000000000000 EON) (Asset 100000000000000 EON) 1). by split; [vm_compute|].
  - split; intros [st H]; vm_compute in H; discriminate.
  - by eexists.
Qed.

Lemma toy_reachable1 : rtc (@world_step toy_libm toy_core) toy_world0 toy_world1.
Proof.
  apply rtc_once, toy_run_step; [done|apply toy_fund_free|vm_compute; reflexivity|vm_compute; reflexivity].
Qed.
Lemma toy_reachable2 : rtc (@world_step toy_libm toy_core) toy_world0 toy_world2.
Proof.
  eapply rtc_r; [apply toy_reachable1|].
  apply toy_run_step; [done|apply toy_fund_free|vm_compute; reflexivity|vm_compute; reflexivity].
Qed.

Lemma funds_solvent_witness :
  stake_owed (w_system toy_world2) = 3000000000000 ∧
  stake_owed (w_system toy_world2) + @outflow toy_core eonio_stake (w_pending toy_world2) <=
    @held toy_core (w_token toy_world2) eonio_stake.
Proof.
  split; [vm_compute; reflexivity|].
  refine (proj1 (@funds_solvent toy_libm toy_core toy_world0 toy_world2 toy_world_initial toy_reachable2)).
Defined.

Definition toy_world3 : world := toy_run [1] 5 (BuyRam 1 2 (Asset 20000 EON)) toy_world0.
Lemma toy_reachable3 : rtc (@world_step toy_libm toy_core) toy_world0 toy_world3.
Proof.
  apply rtc_once, toy_run_step; [done|apply toy_fund_free|vm_compute; reflexivity|vm_compute; reflexivity].
Qed.
Lemma ram_books_exact_witness :
  0 < ram_sold (w_system toy_world3) ∧ @ram_books toy_core (load (toy_env [1] 5) (w_system toy_world3)).
Proof.
  split; [vm_compute; reflexivity|].
  refine (@ram_books_exact toy_libm toy_core toy_world0 toy_world3 (toy_env [1] 5) toy_world_initial toy_reachable3).
Defined.

Lemma refund_paid_witness :
  ∃ s' tok', @system_run toy_libm toy_core (toy_env [1] 300000) (Refund 1) (w_system toy_world2) = (s', Ok tt) ∧
    @held toy_core tok' 1 = @held toy_core (w_token toy_world2) 1 + (5 + 7) ∧ refunds s' !! 1 = None.
Proof.
  destruct (@refund_paid toy_libm toy_core toy_world0 toy_world2 (toy_env [1] 300000) 1 1
    (RefundRequest 6 (Asset 5 EON) (Asset 7 EON))) as (s' & tok' & H1 & _ & _ & H2 & H3).
  - exact toy_world_initial.
  - exact toy_reachable2.
  - vm_compute. reflexivity.
  - vm_compute. reflexivity.
  - done.
  - apply toy_fund_free.
  - by apply list_elem_of_here.
  - reflexivity.
  - vm_compute. reflexivity.
  - exists s', tok'. by split_and!.
Defined.
