(* ===== verification/Governance.v ===== *)
(** * Governance

    Governance nodes propose to add or remove a block producer or to change the consensus; accounts vote
    with the weight that their stake gives (stake_to_proposal_votes), and a proposal whose yeas exceed
    its nays by a tenth of all weight can be executed once.

    Results: while a proposal is open its tallies are the weights of those who voted, whatever they
    stake and unstake after their vote, as long as nobody votes who never staked; the total weight is
    that of all stakes; and the consensus, the marks of governance nodes that produce and the active
    producers change only through a proposal that has the votes, or, for a producer that becomes
    inactive, through rmvproducer with the authorization of the contract. *)

From stdpp Require Import sorting strings.
From S2P Require Import Prelude Wp Names Dimensionlib Token RamMarket ChainConfig System SystemLogic Auctions Staking.

Section governance.
Context {LM : Libm} {CS : CoreSymbol}.
Implicit Types (s : system_state) (env : system_env).







Lemma add_weight_end b w p : vote_end_time (add_weight b w p) = vote_end_time p.
Proof. done. Qed.
































(** ** What only the execution of a proposal changes *)
(** Governance nodes that are marked as block producers, accounts whose row in the table of producers is
    active, and proposals that were executed. *)
Definition bp s (x : Z) : bool := from_option (λ r : Z * goverance_node_info, is_bp r.2) false (gnodes s !! x).
Definition active s (x : Z) : bool := from_option (λ r : Z * producer_info, is_active r.2) false (producers s !! x).
Definition executed s (id : Z) : bool := from_option (λ r : Z * proposal_info, is_exec r.2) false (proposals s !! id).

Record ordinary s s' : Prop := {
  or_consensus : consensus s' = consensus s;
  or_bp x : bp s' x = bp s x;
  or_active x : active s' x = active s x;
  or_executed id : executed s id = true → executed s' id = true;
}.

Lemma ordinary_frame s s' :
  consensus s' = consensus s → gnodes s' = gnodes s → proposals s' = proposals s → producers s' = producers s →
  ordinary s s'.
Proof. intros E1 E2 E3 E4. split; [done|..]; intros *; unfold bp, active, executed; by rewrite ?E2, ?E3, ?E4. Qed.
#[global] Instance ordinary_trans : Transitive ordinary.
Proof.
  intros s1 s2 s3 [] []. split; [congruence|intros x; congruence|intros x; congruence|by auto].
Qed.

Lemma ordinary_gnodes s s' x p g :
  consensus s' = consensus s → proposals s' = proposals s → producers s' = producers s →
  gnodes s' = <[x := (p, g)]> (gnodes s) → is_bp g = bp s x → ordinary s s'.
Proof.
  intros E1 E2 E4 E3 Hg. split; [done|..]; intros y; unfold bp, active, executed; rewrite ?E2, ?E3, ?E4; [|done..].
  destruct (decide (y = x)) as [->|Hne]; [by rewrite lookup_insert_eq|by rewrite lookup_insert_ne].
Qed.
Lemma ordinary_proposals s s' id p pr :
  consensus s' = consensus s → gnodes s' = gnodes s → producers s' = producers s →
  proposals s' = <[id := (p, pr)]> (proposals s) → (executed s id = true → is_exec pr = true) → ordinary s s'.
Proof.
  intros E1 E2 E4 E3 Hg. split; [done|..]; intros y; unfold bp, active, executed; rewrite ?E2, ?E3, ?E4; [done..|].
  destruct (decide (y = id)) as [->|Hne]; [by rewrite lookup_insert_eq|by rewrite lookup_insert_ne].
Qed.

(** A row of the producers that stays active or not. *)
Lemma ordinary_producers s s' x q r p i :
  consensus s' = consensus s → gnodes s' = gnodes s → proposals s' = proposals s → producers s !! x = Some (q, r) →
  producers s' = <[x := (p, i)]> (producers s) → is_active i = is_active r → ordinary s s'.
Proof.
  intros E1 E2 E3 Hx E4 Hi. split; [done|..]; intros y; unfold bp, active, executed; rewrite ?E2, ?E3, ?E4; [done| |done].
  destruct (decide (y = x)) as [->|Hne]; [by rewrite lookup_insert_eq, Hx|by rewrite lookup_insert_ne].
Qed.

Ltac plain := apply ordinary_frame; reflexivity.

Lemma change_stake_ordinary env f r net cpu tr a s :
  staking_books s → core_delta net → core_delta cpu →
  (0 <= amount net ∧ 0 <= amount cpu ∨ amount net <= 0 ∧ amount cpu <= 0) →
  wp (change_stake env f r net cpu tr a) (λ _, ordinary s) s.
Proof.
  intros Hs Hn Hc Hsg. unfold change_stake. apply wp_bind, wp_get. cbv zeta.
  wp_call changebw_spec; [done..|]. rename s' into s1. destruct H as (_ & _ & Hrest & _).
  unfold unstaked_part in Hrest. injection Hrest as _ _ Epd Egn Epr _ _ _ Econ.
  assert (ordinary s s1) as Ho by by apply ordinary_frame.
  unfold update_proposal_votes. wp_steps; try done; (etransitivity; [exact Ho|]); [plain|].
  split; [done|done|done|]. intros id. unfold executed. simpl. rewrite map_lookup_imap.
  destruct (proposals s1 !! id) as [[q pr]|]; [|done]. simpl.
  destruct (_ <=? _); [done|]. by destruct (find _ _).
Qed.

Lemma modify_proposal_ordinary payer id f s :
  (∀ pr, is_exec pr = true → is_exec (f pr) = true) → wp (modify_proposal payer id f) (λ _, ordinary s) s.
Proof.
  intros Hf. unfold modify_proposal. wp_steps. inv_rows. rename select (proposals s !! id = _) into Hk.
  eapply ordinary_proposals; [reflexivity..|]. unfold executed. rewrite Hk. apply Hf.
Qed.

Lemma voteproposal_ordinary env v id y s : wp (voteproposal env v id y) (λ _, ordinary s) s.
Proof.
  unfold voteproposal. wp_steps; inv_rows; simpl in *; try plain.
  all: simplify_eq; rename select (proposals s !! id = Some _) into Hid.
  all: eapply ordinary_proposals; [reflexivity..|]; unfold executed; by rewrite Hid.
Qed.

Lemma propagate_ordinary fuel env a s :
  idle_voter (voters s !! a) → wp (propagate_weight_change fuel env a) (λ _, ordinary s) s.
Proof.
  intros Hi. destruct fuel as [|fuel]; [done|].
  unfold propagate_weight_change; fold propagate_weight_change; unfold get_voter.
  apply wp_bind, wp_bind, wp_get, wp_lift. intros v Hv. inv_rows. rename select (voters s !! a = _) into Hk.
  rewrite Hk in Hi. destruct Hi as [Hp Hl]. simpl in Hp, Hl. rewrite Hp, Hl. simpl.
  unfold modify_voter. wp_steps; plain.
Qed.

Lemma regproxy_ordinary env a b s : staking_books s → wp (regproxy env a b) (λ _, ordinary s) s.
Proof.
  intros Hb. unfold regproxy. wp_steps; [|plain].
  apply (wp_mono _ (λ _ s', staking_books s' ∧ ordinary s s')).
  - apply wp_and; [by apply modify_voter_books|]. unfold modify_voter. wp_steps. plain.
  - intros _ x [Hb' Ho]. eapply wp_mono; [apply propagate_ordinary, Hb'|]. intros ? ? ?. by etransitivity.
Qed.

Lemma modify_producer_ordinary x f s :
  (∀ i, is_active (f i) = is_active i) → wp (modify_producer x f) (λ _, ordinary s) s.
Proof.
  intros Hf. unfold modify_producer. wp_steps. inv_rows. rename select (producers s !! x = _) into Hk.
  eapply ordinary_producers; [reflexivity..|exact Hk|reflexivity|apply Hf].
Qed.

Lemma onblock_ordinary env slot p s : wp (onblock env slot p) (λ _, ordinary s) s.
Proof.
  unfold onblock. apply wp_bind, wp_auth. intros _. apply wp_bind, wp_get. destruct (_ || _); [apply wp_ret; plain|].
  apply wp_bind, wp_set_blocks. intros g _.
  apply wp_bind, (wp_mono _ (λ _, ordinary s)).
  { destruct (find _ _); [|apply wp_ret; plain]. apply wp_bind, wp_set_blocks. intros g' _.
    eapply wp_mono; [by apply modify_producer_ordinary|]. cbv beta. intros _ s1 Hs1. etransitivity; [|exact Hs1]. plain. }
  intros _ s1 Hs1. apply wp_bind, wp_get. destruct (_ <? _); [|by apply wp_ret].
  wp_call update_elected_frame. destruct H as (S & g2 & _ & ->). apply wp_bind, wp_get.
  destruct (_ <? _); [|apply wp_ret; etransitivity; [exact Hs1|plain]].
  eapply wp_mono; [apply close_auction_frame|]. cbv beta. intros _ ? (B & g3 & _ & -> & _). etransitivity; [exact Hs1|plain].
Qed.

(** The two actions that may change more. *)
Definition is_exec_action (a : system_action) : bool :=
  match a with ExecProposal _ _ | RmvProducer _ => true | _ => false end.

Lemma dispatch_ordinary env a s :
  typed_action a → staking_books s → is_exec_action a = false → wp (system_dispatch env a) (λ _, ordinary s) s.
Proof.
  intros Ht Hb Ha. destruct a; try discriminate Ha; clear Ha; simpl in *.
  - unfold newaccount. wp_steps; plain.
  - wp_steps. plain.
  - unfold setram. wp_steps. plain.
  - unfold setparams. wp_steps. plain.
  - unfold setpriv. wp_steps. plain.
  - unfold bidname. wp_steps; plain.
  - unfold buyrambytes, buyram, get_market. wp_steps; plain.
  - unfold buyram, get_market. wp_steps; plain.
  - unfold sellram, get_market. wp_steps; plain.
  - destruct Ht. apply delegatebw_args; [done..|]. intros Hn Hc. destruct Hn, Hc.
    apply change_stake_ordinary; [done|by apply amount_delta..|left; lia].
  - destruct Ht. apply undelegatebw_args; [done..|]. intros Hn Hc.
    destruct (neg_delta _ (amount_delta _ Hn)) as [? En], (neg_delta _ (amount_delta _ Hc)) as [? Ec]. destruct Hn, Hc.
    apply change_stake_ordinary; [done..|right; lia].
  - unfold refund. wp_steps. plain.
  - by apply voteproposal_ordinary.
  - by apply regproxy_ordinary.
  - apply onblock_ordinary.
  - unfold newproposal. wp_steps. inv_rows. simpl in *. eapply ordinary_proposals; [reflexivity..|].
    unfold executed. rename select (proposals s !! _ = None) into Hk. by rewrite Hk.
  - unfold staketognode. wp_steps. inv_rows. simpl in *. eapply ordinary_gnodes; [reflexivity..|].
    unfold bp. rename select (gnodes s !! _ = None) into Hk. by rewrite Hk.
  - unfold unstakegnode. wp_steps. inv_rows. simpl in *. split; [done| |done..].
    intros y. unfold bp. simpl. destruct (decide (y = owner)) as [->|Hne]; [|by rewrite lookup_delete_ne].
    rewrite lookup_delete_eq. rename select (gnodes s !! owner = Some _) into Hk. rewrite Hk. by reflect_bools.
  - unfold updategnode, modify_gnode. wp_steps. inv_rows. simpl in *. simplify_eq.
    eapply ordinary_gnodes; [reflexivity..|]. unfold bp. rename select (gnodes s !! owner = Some _) into Hk. by rewrite Hk.
  - unfold claimrewards, modify_producer. wp_steps; inv_rows; simpl in *; simplify_eq.
    all: rename select (producers s !! owner = Some _) into Hk.
    all: eapply ordinary_producers; [reflexivity..|exact Hk|reflexivity|reflexivity].
Qed.

(** What the execution of proposal [pr] by [owner] may change. *)
Record enacts (env : system_env) (owner id : Z) s (pr : proposal_info) s' : Prop := {
  en_auth : owner ∈ authorized (cenv env);
  en_node : is_Some (gnodes s !! owner);
  en_fresh : is_exec pr = false;
  en_time : time_now env < exec_end_time pr ∧ (7 < get_producers_size s → vote_end_time pr < time_now env);
  en_done : executed s' id = true;
  en_kept i : executed s i = true → executed s' i = true;
  en_minority : satisfied s pr = false →
    consensus s' = consensus s ∧ (∀ x, bp s' x = bp s x) ∧ ∀ x, active s' x = active s x;
  en_consensus : consensus s' ≠ consensus s → pr_type pr = 3 ∧ consensus s' = Some (pr_consensus_type pr);
  en_bp x : bp s' x ≠ bp s x → x = pr_account pr ∧ pr_type pr = if bp s' x then 1 else 2;
  en_active x : active s' x ≠ active s x → x = pr_account pr ∧ pr_type pr = if active s' x then 1 else 2;
}.

(** The part of [enacts] that [exec_type] is responsible for. *)
Record enacted (pr : proposal_info) s s' : Prop := {
  ed_kept i : executed s i = true → executed s' i = true;
  ed_consensus : consensus s' ≠ consensus s →
    satisfied s pr = true ∧ pr_type pr = 3 ∧ consensus s' = Some (pr_consensus_type pr);
  ed_bp x : bp s' x ≠ bp s x → satisfied s pr = true ∧ x = pr_account pr ∧ pr_type pr = if bp s' x then 1 else 2;
  ed_active x : active s' x ≠ active s x →
    satisfied s pr = true ∧ x = pr_account pr ∧ pr_type pr = if active s' x then 1 else 2;
}.

Lemma enacted_bp pr s s1 s' (b : bool) p g q i :
  satisfied s pr = true → pr_type pr = (if b then 1 else 2) → ordinary s s1 →
  consensus s' = consensus s1 → proposals s' = proposals s1 →
  gnodes s' = <[pr_account pr := (p, set_bp b g)]> (gnodes s1) →
  producers s' = <[pr_account pr := (q, i)]> (producers s1) → is_active i = b → enacted pr s s'.
Proof.
  intros Hsat Hty [Hc Hb Ha Hx] E1 E2 E3 E4 Hi. split.
  - intros j Hj%Hx. unfold executed. by rewrite E2.
  - congruence.
  - intros x. unfold bp at 1 3. rewrite E3. destruct (decide (x = pr_account pr)) as [->|Hne].
    + by rewrite lookup_insert_eq.
    + rewrite lookup_insert_ne by done. fold (bp s1 x). by rewrite Hb.
  - intros x. unfold active at 1 3. rewrite E4. destruct (decide (x = pr_account pr)) as [->|Hne].
    + rewrite lookup_insert_eq. simpl. by rewrite Hi.
    + rewrite lookup_insert_ne by done. fold (active s1 x). by rewrite Ha.
Qed.

Lemma exec_type_enacted env o id pr s : wp (exec_type env o id pr) (λ _, enacted pr s) s.
Proof.
  unfold exec_type. apply wp_bind, wp_get. destruct (_ && _) eqn:Hs; [|apply wp_ret; by split].
  apply andb_prop in Hs as [Hty Hsat]. wp_call modify_proposal_ordinary; [done|]. rename s' into s1.
  unfold modify_gnode, add_elected_producers, remove_elected_producers, regproducer, unregprod.
  wp_steps; inv_rows; simpl in *; reflect_bools.
  - destruct H as [Hc Hbp Hac Hx].
    by split; [|done|intros x Hne; rewrite <-Hbp in Hne|intros x Hne; rewrite <-Hac in Hne].
  - by eapply (enacted_bp pr s s1 _ true).
  - by eapply (enacted_bp pr s s1 _ true).
  - eapply (enacted_bp pr s s1 _ false); done || lia.
Qed.

Lemma execproposal_enacts env o id s :
  wp (execproposal env o id) (λ _ s', ∃ p pr, proposals s !! id = Some (p, pr) ∧ enacts env o id s pr s') s.
Proof.
  unfold execproposal. wp_steps; inv_rows; reflect_bools.
  eapply wp_mono; [apply exec_type_enacted|]. intros [] s1 [Hk Hc Hb Hac]. apply wp_bind, wp_get.
  unfold modify_proposal. wp_steps. inv_rows. rename select (proposals s !! id = _) into Hid.
  exists x, a0. split; [done|]. split; try done.
  - split; [done|]. intros H7. destruct (7 <? _) eqn:E; simpl in *; reflect_bools; [done|lia].
  - unfold executed. simpl. by rewrite lookup_insert_eq.
  - intros i Hi%Hk. unfold executed in *. simpl. destruct (decide (i = id)) as [->|Hne].
    + by rewrite lookup_insert_eq.
    + by rewrite lookup_insert_ne.
  - intros Hs. split.
    + destruct (decide (consensus s1 = consensus s)) as [|[? _]%Hc]; [done|congruence].
    + split; intros y; [destruct (decide (bp s1 y = bp s y)) as [|[? _]%Hb]; [done|congruence]|].
      destruct (decide (active s1 y = active s y)) as [|[? _]%Hac]; [done|congruence].
  - intros Hne. by apply Hc.
  - intros y Hne. by apply Hb.
  - intros y Hne. by apply Hac.
Qed.

Definition enacting env a s s' : Prop :=
  ∃ owner id p pr, a = ExecProposal owner id ∧ proposals s !! id = Some (p, pr) ∧
    enacts env owner id (load env s) pr s'.

(** What the removal of a producer may change. *)
Record removes (env : system_env) (x : Z) s s' : Prop := {
  rm_auth : self (cenv env) ∈ authorized (cenv env);
  rm_consensus : consensus s' = consensus s;
  rm_bp y : bp s' y = bp s y;
  rm_executed id : executed s' id = executed s id;
  rm_inactive : active s' x = false;
  rm_others y : y ≠ x → active s' y = active s y;
}.
Definition removing env a s s' : Prop := ∃ x, a = RmvProducer x ∧ removes env x s s'.

Lemma rmvproducer_removes env x s : wp (rmvproducer env x) (λ _, removes env x s) s.
Proof.
  unfold rmvproducer. wp_steps. inv_rows. split; try done; unfold active; simpl.
  - by rewrite lookup_insert_eq.
  - intros y Hne. by rewrite lookup_insert_ne.
Qed.

Lemma system_run_changes env a s :
  typed_action a → staking_books s →
  wp (system_run env a) (λ _ s', is_exec_action a = false ∧ ordinary s s' ∨ enacting env a s s' ∨ removing env a s s') s.
Proof.
  intros Ht Hb. unfold system_run. apply wp_bind.
  apply (wp_mono _ (λ _ s1, staking_books s1 ∧ ∃ m, s1 = with_rammarket m (load env s))).
  { apply wp_and; [by apply construct_books|apply construct_frame]. }
  intros _ s1 [Hb1 [m ->]]. destruct (is_exec_action a) eqn:Ea.
  - destruct a; try discriminate Ea; simpl.
    + wp_call rmvproducer_removes. destruct H. unfold destruct_. wp_steps. right. right. exists producer. split; [done|]. by split.
    + wp_call execproposal_enacts. destruct H as (p & pr & Hk & []).
      unfold destruct_. wp_steps. right. left. exists owner, id, p, pr. split; [done|]. split; [done|]. by split.
  - wp_call dispatch_ordinary; [done..|]. unfold destruct_. wp_steps. left. split; [done|].
    destruct H. by split.
Qed.

(** C33: Only a majority, or the system account itself, changes who governs the chain.  An action after
    which the consensus, the marks of the governance nodes that are block producers (is_bp) or the
    active rows of the table of producers are others is one of two.  It is rmvproducer with the
    authorization of the contract, which makes one producer inactive and changes neither the consensus
    nor a mark.  Or it is the execution of a proposal: by a governance node, before the time for it ends
    (and, with more than seven producers, after the vote has ended), of a proposal that was not executed
    before and whose yeas exceed its nays by more than a tenth of the total.  A proposal of type 3 sets
    the consensus it names; one of type 1 marks the account it names and makes it an active producer,
    and one of type 2 ends both. *)
Theorem governance_by_majority g s env a s' :
  rtc system_step (system_initial g) s → typed_action a → system_run env a s = (s', Ok tt) →
  consensus s' ≠ consensus s ∨ (∃ x, bp s' x ≠ bp s x) ∨ (∃ x, active s' x ≠ active s x) →
  (∃ x, a = RmvProducer x ∧ self (cenv env) ∈ authorized (cenv env) ∧ consensus s' = consensus s ∧
     (∀ y, bp s' y = bp s y) ∧ active s' x = false ∧ ∀ y, y ≠ x → active s' y = active s y) ∨
  ∃ owner id p pr, a = ExecProposal owner id ∧ owner ∈ authorized (cenv env) ∧ is_Some (gnodes s !! owner) ∧
    proposals s !! id = Some (p, pr) ∧ is_exec pr = false ∧ time_now env < exec_end_time pr ∧
    (7 < get_producers_size s → vote_end_time pr < time_now env) ∧
    Z.quot (total_proposal_stake (gstate (load env s))) 10 < i64 (total_yeas pr - total_nays pr) ∧
    (consensus s' ≠ consensus s → pr_type pr = 3 ∧ consensus s' = Some (pr_consensus_type pr)) ∧
    (∀ x, bp s' x ≠ bp s x → x = pr_account pr ∧ pr_type pr = if bp s' x then 1 else 2) ∧
    ∀ x, active s' x ≠ active s x → x = pr_account pr ∧ pr_type pr = if active s' x then 1 else 2.
Proof.
  intros Hb%reachable_books Ht Hr Hne. pose proof (system_run_changes env a s Ht Hb) as Hw.
  rewrite wp_run in Hw. destruct (Hw _ _ Hr) as [[_ []]|[(o & id & p & pr & -> & Hid & [])|(x & -> & [])]].
  - destruct Hne as [?|[[x ?]|[x ?]]]; [done|by destruct (or_bp0 x)|by destruct (or_active0 x)].
  - right. exists o, id, p, pr. split_and!; try done; try tauto.
    destruct (satisfied (load env s) pr) eqn:Es; [unfold satisfied in Es; by reflect_bools|].
    destruct (en_minority0 eq_refl) as (Ec & Eb & Ea).
    destruct Hne as [Hne|[[x Hne]|[x Hne]]]; [by destruct (Hne Ec)|by destruct (Hne (Eb x))|by destruct (Hne (Ea x))].
  - left. exists x. by split_and!.
Qed.

(** C34: A proposal is executed at most once: after its execution, whatever else is done, it stays marked
    as executed and every further execution of it is refused. *)
Theorem executed_once g s env owner id s1 s2 env' owner' :
  rtc system_step (system_initial g) s → system_run env (ExecProposal owner id) s = (s1, Ok tt) →
  rtc system_step s1 s2 →
  executed s2 id = true ∧ (system_run env' (ExecProposal owner' id) s2).2 ≠ Ok tt.
Proof.
  intros Hs Hr Hl. assert (staking_books s) as Hb by by eapply reachable_books.
  pose proof (system_run_changes env (ExecProposal owner id) s I Hb) as Hw. rewrite wp_run in Hw.
  assert (staking_books s1 ∧ executed s1 id = true) as H1.
  { split; [eapply reachable_books, rtc_r; [exact Hs|]; by eapply (system_step_run _ _ env (ExecProposal owner id))|].
    destruct (Hw _ _ Hr) as [[? _]|[(? & ? & ? & ? & [= <- <-] & _ & [])|(? & ? & _)]]; done. }
  apply (rtc_preserves system_step (λ x, staking_books x ∧ executed x id = true)) in Hl as [Hb2 He2]; [| |done].
  - split; [done|]. intros Hok. pose proof (system_run_changes env' (ExecProposal owner' id) s2 I Hb2) as Hw2.
    rewrite wp_run in Hw2. destruct (Hw2 _ _ (run_fst _ _ _ Hok)) as [[? _]|[(? & ? & ? & ? & [= <- <-] & Hk & [])|(? & ? & _)]]; [done| |done].
    unfold executed in He2. rewrite Hk in He2. simpl in He2. congruence.
  - intros x y [Hbx Hx] [e a Ht Hxy]. pose proof (system_run_books e a x Ht Hbx) as H2. rewrite wp_run in H2.
    split; [by eapply H2|]. pose proof (system_run_changes e a x Ht Hbx) as H3. rewrite wp_run in H3.
    destruct (H3 _ _ Hxy) as [[_ []]|[(? & ? & ? & ? & -> & _ & [])|(? & -> & [])]]; [by auto..|]. congruence.
Qed.

End governance.

(** ** A proposal from its making to its execution *)
(** Account 1 stakes ten million tokens, becomes a governance node, proposes a consensus of type 2, votes
    for it and executes it. *)
Definition toy_next (time : Z) (a : system_action) (s : system_state) : system_state :=
  (@system_run toy_libm toy_core (toy_env [1] time) a s).1.
Definition toy_ok (time : Z) (a : system_action) (s : system_state) : Prop :=
  (@system_run toy_libm toy_core (toy_env [1] time) a s).2 = Ok tt.
Definition toy_gov1 : system_state :=
  toy_next 5 (DelegateBw 1 1 (Asset 1000000000000 EON) (Asset 2000000000000 EON) false) toy_initial.
Definition toy_gov2 : system_state := toy_next 6 (StakeToGNode 1 1 (repeat 1 33) [] 0) toy_gov1.
Definition toy_gov3 : system_state := toy_next 7 (NewProposal 1 1 0 3 2) toy_gov2.
Definition toy_gov4 : system_state := toy_next 8 (VoteProposal 1 0 true) toy_gov3.
Definition toy_gov5 : system_state := toy_next 9 (ExecProposal 1 0) toy_gov4.
Lemma toy_gov_runs :
  toy_ok 5 (DelegateBw 1 1 (Asset 1000000000000 EON) (Asset 2000000000000 EON) false) toy_initial ∧
  toy_ok 6 (StakeToGNode 1 1 (repeat 1 33) [] 0) toy_gov1 ∧ toy_ok 7 (NewProposal 1 1 0 3 2) toy_gov2 ∧
  toy_ok 8 (VoteProposal 1 0 true) toy_gov3 ∧ toy_ok 9 (ExecProposal 1 0) toy_gov4.
Proof. unfold toy_ok. refine (conj _ (conj _ (conj _ (conj _ _)))); vm_compute; reflexivity. Qed.

Lemma toy_gov_step time a s : typed_action a → toy_ok time a s → @system_step toy_libm toy_core s (toy_next time a s).
Proof. intros Ht Hr. by eapply (@system_step_run toy_libm toy_core _ _ (toy_env [1] time)), (run_fst _ _ _ Hr). Qed.
Lemma toy_gov_reachable : rtc (@system_step toy_libm toy_core) toy_initial toy_gov4.
Proof.
  destruct toy_gov_runs as (H1 & H2 & H3 & H4 & _).
  refine (rtc_l _ _ _ _ (toy_gov_step 5 _ _ _ H1) (rtc_l _ _ _ _ (toy_gov_step 6 _ _ _ H2)
    (rtc_l _ _ _ _ (toy_gov_step 7 _ _ _ H3) (rtc_once _ _ (toy_gov_step 8 _ _ _ H4))))); clear; done.
Qed.


Lemma governance_by_majority_witness :
  consensus toy_gov5 = Some 2 ∧ ∃ p pr, proposals toy_gov4 !! 0 = Some (p, pr) ∧ is_exec pr = false ∧
    Z.quot (total_proposal_stake (gstate (load (toy_env [1] 9) toy_gov4))) 10 <
      i64 (total_yeas pr - total_nays pr).
Proof.
  assert (consensus toy_gov5 = Some 2) as E by (vm_compute; reflexivity). refine (conj E _).
  destruct (@governance_by_majority toy_libm toy_core (get_default_parameters (toy_env [] 0)) toy_gov4 (toy_env [1] 9)
    (ExecProposal 1 0) toy_gov5 toy_gov_reachable I (run_fst _ _ _ (proj2 (proj2 (proj2 (proj2 toy_gov_runs))))))
    as [(x & Ha & _)|(o & id & p & pr & Ha & _ & _ & Hk & Hx & _ & _ & Hm & _)].
  - left. rewrite E. intros H. vm_compute in H. discriminate H.
  - discriminate Ha.
  - injection Ha as <- <-. exact (ex_intro _ p (ex_intro _ pr (conj Hk (conj Hx Hm)))).
Defined.

Lemma executed_once_witness : (@system_run toy_libm toy_core (toy_env [1] 10) (ExecProposal 1 0) toy_gov5).2 ≠ Ok tt.
Proof.
  refine (proj2 (@executed_once toy_libm toy_core (get_default_parameters (toy_env [] 0)) toy_gov4 (toy_env [1] 9) 1 0
    toy_gov5 toy_gov5 (toy_env [1] 10) 1 toy_gov_reachable
    (run_fst _ _ _ (proj2 (proj2 (proj2 (proj2 toy_gov_runs))))) (rtc_refl _ _))).
Defined.
