(* ===== verification/Multisig.v ===== *)
(** * The multisig and sudo contracts

    Models contracts/dimension.msig (propose, approve, unapprove, cancel and exec) and the action exec
    of contracts/dimension.sudo, with the intrinsic check_transaction_authorization of
    wasm_interface.cpp that decides about proposals.  An action runs on the tables of the contract and
    on the state of the context that it runs in, where a deferred transaction is scheduled.

    Results, for every sequence of actions with anything in between on the rest of the chain: what the
    contract sends is the transaction that was proposed under the name, unexpired, each of its
    authorizations satisfied by permissions that approved this proposal more often than they withdrew
    ([proposal_executed_if_approved]); and a proposal that all the requested permissions approved is
    executed when they still authorize it, as they do while the permissions are as they were proposed
    ([approved_proposal_executes]). *)

From stdpp Require Import sorting.
From S2P Require Import Prelude Wp Dimensionlib Names Merkle BlockHeader Resources Authority ChainConfig.
From S2P Require Import AuthManager AccessLists ApplyContext.

(** unpack<transaction_header>: the expiration in seconds, of what a packed transaction starts with. *)
Class HeaderCodec `{TransactionCodec} := header_expiration : packed_trx → result Z.

(** The order of a flat_set of permission levels. *)
Definition level_le (a b : permission_level) : Prop := level_ltb b a = false.
#[global] Instance level_le_dec a b : Decision (level_le a b).
Proof. unfold level_le. apply _. Defined.
#[global] Instance level_le_total : Total level_le.
Proof. intros [a1 a2] [b1 b2]. unfold level_le, level_ltb. simpl. lia. Qed.
#[global] Instance level_le_trans : Transitive level_le.
Proof. intros [a1 a2] [b1 b2] [c1 c2]. unfold level_le, level_ltb. simpl. lia. Qed.
#[global] Instance level_le_antisymm : AntiSymm (=) level_le.
Proof. intros [a1 a2] [b1 b2]. unfold level_le, level_ltb. simpl. intros. f_equal; lia. Qed.

(** permission_api::unpack_provided_permissions: what a packed vector unpacks to as a flat_set. *)
Definition unpack_provided_permissions (l : list permission_level) : list permission_level :=
  merge_sort level_le (remove_dups l).

(** [std::find] and [erase] of the iterator, unless it is the end. *)
Fixpoint find_erase `{EqDecision A} (x : A) (l : list A) : option (list A) :=
  match l with
  | [] => None
  | y :: l => if decide (y = x) then Some l else cons y <$> find_erase x l
  end.

(** The exceptions derived from authorization_exception (exceptions.hpp). *)
Definition is_authorization_exception (e : exception) : bool :=
  match e with
  | authorization_exception | tx_irrelevant_sig | unsatisfied_authorization | missing_auth_exception
  | irrelevant_auth_exception | invalid_permission | unlinkable_min_permission_action => true
  | _ => false
  end.

Section multisig.
Context {FC : Fc} {AC : ActionCodec} {TC : TransactionCodec} {PS : PackSizes} {HC : HeaderCodec}.

(** permission_api::check_transaction_authorization; [provided_keys] are the unpacked ones. *)
Definition check_transaction_authorization (env : apply_env) (d : chain_db) (trx : packed_trx)
    (provided_keys : list public_key) (perms_data : list permission_level) : result bool :=
  actions ← unpack_actions trx;
  let provided_permissions := unpack_provided_permissions perms_data in
  match check_authorization (db_auth d) (db_generated d) (env_config env) actions provided_keys
          provided_permissions (seconds (trx_delay_sec trx)) false [] with
  | Ok _ => mret true
  | Throw e => if is_authorization_exception e then mret false else Throw e
  end.

(** now() of the contract library. *)
Definition now_sec (env : apply_env) : Z := u32 (env_pending_block_time env / 1000000).

(** ** dimension.msig *)
Record approvals_info := ApprovalsInfo {
  requested_approvals : list permission_level;
  provided_approvals : list permission_level;
}.

(** The rows by the proposer, which is their scope, and the name of the proposal. *)
Record msig_tables := MsigTables {
  proposals : table (Z * Z) packed_trx;
  approvals : table (Z * Z) approvals_info;
}.
Record msig_state := Msig {
  ms_tables : msig_tables;
  ms_ctx : apply_state;
}.
Abbreviation msig := (stM msig_state).

Definition in_context {A} (m : apply A) : msig A := λ s,
  let '(c, r) := m (ms_ctx s) in (Msig (ms_tables s) c, r).
Definition get_tables : msig msig_tables := s ← st_get; mret (ms_tables s).
Definition put_proposals (t : table (Z * Z) packed_trx) : msig unit :=
  st_modify (λ s, Msig (MsigTables t (approvals (ms_tables s))) (ms_ctx s)).
Definition put_approvals (t : table (Z * Z) approvals_info) : msig unit :=
  st_modify (λ s, Msig (MsigTables (proposals (ms_tables s)) t) (ms_ctx s)).
Abbreviation msig_assert c := (st_assert c eosio_assert_message_exception).

Definition check_permissions (env : apply_env) (trx : packed_trx) (perms : list permission_level) : msig unit :=
  d ← in_context get_db;
  res ← st_lift (check_transaction_authorization env d trx [] perms);
  msig_assert res.

Definition propose (env : apply_env) (proposer proposal_name : Z) (requested : list permission_level)
    (trx : packed_trx) : msig unit :=
  expiration ← st_lift (header_expiration trx);
  _ ← in_context (require_authorization env proposer);
  _ ← msig_assert (now_sec env <=? expiration);
  t ← get_tables;
  _ ← msig_assert (bool_decide (find (proposals t) (proposer, proposal_name) = None));
  _ ← check_permissions env trx requested;
  t ← get_tables;
  props ← st_lift (emplace proposer (proposer, proposal_name) trx (proposals t));
  _ ← put_proposals props;
  apps ← st_lift (emplace proposer (proposer, proposal_name) (ApprovalsInfo requested []) (approvals t));
  put_approvals apps.

Definition approve (env : apply_env) (proposer proposal_name : Z) (level : permission_level) : msig unit :=
  _ ← in_context (require_authorization_permission env (actor level) (permission level));
  t ← get_tables;
  apps ← st_lift (get (approvals t) (proposer, proposal_name));
  requested ← st_lift (of_option (find_erase level (requested_approvals apps)) eosio_assert_message_exception);
  t' ← st_lift (modify proposer (proposer, proposal_name)
         (λ a, mret (ApprovalsInfo requested (provided_approvals a ++ [level]))) (approvals t));
  put_approvals t'.

Definition unapprove (env : apply_env) (proposer proposal_name : Z) (level : permission_level) : msig unit :=
  _ ← in_context (require_authorization_permission env (actor level) (permission level));
  t ← get_tables;
  apps ← st_lift (get (approvals t) (proposer, proposal_name));
  provided ← st_lift (of_option (find_erase level (provided_approvals apps)) eosio_assert_message_exception);
  t' ← st_lift (modify proposer (proposer, proposal_name)
         (λ a, mret (ApprovalsInfo (requested_approvals a ++ [level]) provided)) (approvals t));
  put_approvals t'.

(** [proptable.erase(prop); apptable.erase(apps)] *)
Definition erase_proposal (k : Z * Z) : msig unit :=
  t ← get_tables;
  props ← st_lift (erase k (proposals t));
  _ ← put_proposals props;
  apps ← st_lift (erase k (approvals t));
  put_approvals apps.

Definition cancel (env : apply_env) (proposer proposal_name canceler : Z) : msig unit :=
  _ ← in_context (require_authorization env canceler);
  t ← get_tables;
  prop ← st_lift (get (proposals t) (proposer, proposal_name));
  _ ← (if negb (canceler =? proposer) then
         expiration ← st_lift (header_expiration prop);
         msig_assert (expiration <? now_sec env)
       else mret tt);
  _ ← st_lift (get (approvals t) (proposer, proposal_name));
  erase_proposal (proposer, proposal_name).

(** [(uint128_t(proposer) << 64) | proposal_name] *)
Definition sender_id_of (high low : Z) : Z := Z.lor (Z.shiftl high 64) low.

Definition exec (env : apply_env) (proposer proposal_name executer : Z) : msig unit :=
  _ ← in_context (require_authorization env executer);
  t ← get_tables;
  prop ← st_lift (get (proposals t) (proposer, proposal_name));
  apps ← st_lift (get (approvals t) (proposer, proposal_name));
  expiration ← st_lift (header_expiration prop);
  _ ← msig_assert (now_sec env <=? expiration);
  _ ← check_permissions env prop (provided_approvals apps);
  _ ← in_context (schedule_deferred_transaction env (sender_id_of proposer proposal_name) executer prop false);
  erase_proposal (proposer, proposal_name).

(** The actions of the contract, and EOSIO_ABI. *)
Inductive msig_call :=
| Propose (proposer proposal_name : Z) (requested : list permission_level) (trx : packed_trx)
| Approve (proposer proposal_name : Z) (level : permission_level)
| Unapprove (proposer proposal_name : Z) (level : permission_level)
| Cancel (proposer proposal_name canceler : Z)
| Exec (proposer proposal_name executer : Z).

Definition msig_apply (env : apply_env) (c : msig_call) : msig unit :=
  match c with
  | Propose proposer proposal_name requested trx => propose env proposer proposal_name requested trx
  | Approve proposer proposal_name level => approve env proposer proposal_name level
  | Unapprove proposer proposal_name level => unapprove env proposer proposal_name level
  | Cancel proposer proposal_name canceler => cancel env proposer proposal_name canceler
  | Exec proposer proposal_name executer => exec env proposer proposal_name executer
  end.

(** ** dimension.sudo *)
Definition sudo_exec (env : apply_env) (executer : account_name) (trx : packed_trx) : apply unit :=
  _ ← require_authorization env (env_receiver env);
  _ ← require_authorization env executer;
  schedule_deferred_transaction env (sender_id_of executer (u64 (env_pending_block_time env))) executer trx false.

(** ** Histories *)

(** An action that succeeded, with the context and the chain that it ran in. *)
Record entry := Entry {
  en_env : apply_env;
  en_db : chain_db;
  en_call : msig_call;
}.

(** The actions that succeeded since the contract was set, the latest first, and the tables after
    them.  The rest of the chain may change in any way from one action to the next. *)
Inductive msig_run : list entry → msig_tables → Prop :=
| run_nothing : msig_run [] (MsigTables ∅ ∅)
| run_action log t env c s t' s' :
    msig_run log t → msig_apply env c (Msig t s) = (Msig t' s', Ok tt) →
    msig_run (Entry env (st_db s) c :: log) t'.

(** The action makes, cancels or executes the proposal. *)
Definition delimits (k : Z * Z) (c : msig_call) : bool :=
  match c with
  | Propose p n _ _ | Cancel p n _ | Exec p n _ => bool_decide (k = (p, n))
  | _ => false
  end.
Definition approves (k : Z * Z) (l : permission_level) (c : msig_call) : bool :=
  match c with Approve p n l' => bool_decide (k = (p, n) ∧ l = l') | _ => false end.
Definition withdraws (k : Z * Z) (l : permission_level) (c : msig_call) : bool :=
  match c with Unapprove p n l' => bool_decide (k = (p, n) ∧ l = l') | _ => false end.
Definition times (f : msig_call → bool) (log : list entry) : nat :=
  length (filter (λ e, f (en_call e) = true) log).
Definition occurrences (l : permission_level) (ls : list permission_level) : nat :=
  length (filter (l =.) ls).

(** In this history [proposed] made the proposal, and [since] followed, where it was neither
    cancelled nor executed. *)
Record standing (k : Z * Z) (log : list entry) (proposed : entry) (since : list entry)
    (requested : list permission_level) (trx : packed_trx) : Prop := {
  sd_log : ∃ older, log = since ++ proposed :: older;
  sd_call : en_call proposed = Propose k.1 k.2 requested trx;
  sd_open : Forall (λ e, delimits k (en_call e) = false) since;
}.

Definition row_ok (k : Z * Z) (log : list entry) (t : msig_tables) : Prop :=
  match proposals t !! k, approvals t !! k with
  | None, None => True
  | Some (_, trx), Some (_, a) => ∃ proposed since requested,
      standing k log proposed since requested trx ∧
      check_transaction_authorization (en_env proposed) (en_db proposed) trx [] requested = Ok true ∧
      requested_approvals a ++ provided_approvals a ≡ₚ requested ∧
      ∀ l, (occurrences l (provided_approvals a) + times (withdraws k l) since = times (approves k l) since)%nat
  | _, _ => False
  end.

Lemma find_erase_Some `{EqDecision A} (x : A) l l' : find_erase x l = Some l' → l ≡ₚ x :: l'.
Proof.
  revert l'. induction l as [|y l IH]; intros l'; simpl; [done|]. case_decide as E; [by intros [= <-]; subst|].
  intros (l1 & H%IH & ->)%fmap_Some. rewrite H. apply Permutation_swap.
Qed.

Lemma wp_in_context {A} (m : apply A) Q t s :
  wp m (λ a s', Q a (Msig t s')) s → wp (in_context m) Q (Msig t s).
Proof. unfold wp, in_context. simpl. by destruct (m s) as [s' [a|e]]. Qed.

Lemma wp_require_auth env P Q s :
  (∀ a s', a ∈ act_authorization (env_act env) → P a = true → st_db s' = st_db s → Q tt s') →
  wp (require_auth env P) Q s.
Proof.
  intros H. unfold require_auth. destruct (list_find _ _) as [[i a]|] eqn:E; [|apply wp_throw].
  apply list_find_Some in E as (Hi & Ha & _). apply wp_modify. eapply H; [|exact Ha|done].
  by eapply list_elem_of_lookup_2.
Qed.

Definition without_proposal (k : Z * Z) (t : msig_tables) : msig_tables :=
  MsigTables (delete k (proposals t)) (delete k (approvals t)).

Lemma erase_proposal_wp k t s :
  wp (erase_proposal k) (λ _ st, st = Msig (without_proposal k t) s) (Msig t s).
Proof.
  unfold erase_proposal. unfold get_tables, put_proposals, put_approvals. repeat (wp_basic; cbn [ms_tables ms_ctx proposals approvals]).
  by repeat match goal with H : erase _ _ = Ok _ |- _ => apply erase_ok in H as [_ ->] end.
Qed.

Ltac msig_step := first
  [ wp_basic
  | lazymatch goal with
    | |- wp get_tables _ _ => unfold get_tables
    | |- wp (put_proposals _) _ _ => unfold put_proposals
    | |- wp (put_approvals _) _ _ => unfold put_approvals
    | |- wp (erase_proposal _) _ _ => eapply wp_mono; [apply erase_proposal_wp|intros ? ? ->]
    | |- wp (check_permissions _ _ _) _ _ => unfold check_permissions
    | |- wp (in_context _) _ _ => apply wp_in_context
    | |- wp get_db _ _ => unfold get_db
    | |- wp (require_authorization _ _) _ _ => apply wp_require_auth; intros ? ? ? ? ?
    | |- wp (require_authorization_permission _ _ _) _ _ => apply wp_require_auth; intros ? ? ? ? ?
    end ];
  cbn [ms_tables ms_ctx proposals approvals].

Lemma propose_wp env p n requested trx t s :
  wp (propose env p n requested trx) (λ _ st,
    check_transaction_authorization env (st_db s) trx [] requested = Ok true ∧
    ms_tables st = MsigTables (<[(p, n) := (p, trx)]> (proposals t))
                     (<[(p, n) := (p, ApprovalsInfo requested [])]> (approvals t))) (Msig t s).
Proof.
  unfold propose. repeat msig_step. subst. do 2 match goal with H : emplace _ _ _ _ = Ok _ |- _ =>
    apply emplace_ok in H as [_ ->] end. split; congruence.
Qed.

Lemma level_of_parts a level :
  (actor a =? actor level) && (permission a =? permission level) = true → a = level.
Proof. destruct a, level. simpl. intros. reflect_bools. by subst. Qed.

Lemma approve_wp env p n level t s :
  wp (approve env p n level) (λ _ st, level ∈ act_authorization (env_act env) ∧
    ∃ q q' a requested, approvals t !! (p, n) = Some (q, a) ∧
      requested_approvals a ≡ₚ level :: requested ∧
      ms_tables st = MsigTables (proposals t)
        (<[(p, n) := (q', ApprovalsInfo requested (provided_approvals a ++ [level]))]> (approvals t)))
    (Msig t s).
Proof.
  unfold approve. repeat msig_step. split; [by rewrite <-(level_of_parts _ _ H0)|].
  apply get_ok, find_Some in H2 as [q Hq]. apply of_option_ok, find_erase_Some in H3.
  apply modify_ok in H4 as (q1 & a' & a'' & Ha' & [= <-] & ->). rewrite Hq in Ha'. injection Ha' as <- <-. eauto 8.
Qed.

Lemma unapprove_wp env p n level t s :
  wp (unapprove env p n level) (λ _ st, level ∈ act_authorization (env_act env) ∧
    ∃ q q' a provided, approvals t !! (p, n) = Some (q, a) ∧
      provided_approvals a ≡ₚ level :: provided ∧
      ms_tables st = MsigTables (proposals t)
        (<[(p, n) := (q', ApprovalsInfo (requested_approvals a ++ [level]) provided)]> (approvals t)))
    (Msig t s).
Proof.
  unfold unapprove. repeat msig_step. split; [by rewrite <-(level_of_parts _ _ H0)|].
  apply get_ok, find_Some in H2 as [q Hq]. apply of_option_ok, find_erase_Some in H3.
  apply modify_ok in H4 as (q1 & a' & a'' & Ha' & [= <-] & ->). rewrite Hq in Ha'. injection Ha' as <- <-. eauto 8.
Qed.

Lemma cancel_wp env p n canceler t s :
  wp (cancel env p n canceler) (λ _ st, ms_tables st = without_proposal (p, n) t) (Msig t s).
Proof. unfold cancel. by repeat msig_step. Qed.

Lemma exec_wp env p n executer t s :
  wp (exec env p n executer) (λ _ st, ms_tables st = without_proposal (p, n) t ∧
    ∃ q trx q' a expiration, proposals t !! (p, n) = Some (q, trx) ∧ approvals t !! (p, n) = Some (q', a) ∧
      header_expiration trx = Ok expiration ∧ now_sec env <= expiration ∧
      check_transaction_authorization env (st_db s) trx [] (provided_approvals a) = Ok true ∧
      ∃ id g, db_generated (st_db (ms_ctx st)) !! id = Some g ∧ gt_sender g = env_receiver env ∧
        gt_sender_id g = sender_id_of p n ∧ gt_payer g = executer ∧ gt_packed_trx g = trx_prepared (env_pending_block_time env) trx)
    (Msig t s).
Proof.
  unfold exec. repeat msig_step. apply wp_run. intros s1 [] Hg%scheduled_row. repeat msig_step.
  split; [done|]. apply get_ok, find_Some in H2 as [q Hq], H3 as [q' Hq']. reflect_bools. subst.
  exists q, a0, q', a1, a2. split_and!; try done. congruence.
Qed.

(** ** The rows and the history *)
Lemma standing_cons k log e proposed since requested trx :
  delimits k (en_call e) = false → standing k log proposed since requested trx →
  standing k (e :: log) proposed (e :: since) requested trx.
Proof. intros Hd [[older ->] Hc Ho]. split; [by exists older|done|by constructor]. Qed.

Lemma times_cons f e log : times f (e :: log) = ((if f (en_call e) then 1 else 0) + times f log)%nat.
Proof. unfold times. rewrite filter_cons. by destruct (f (en_call e)). Qed.

Lemma occurrences_cons l x ls : occurrences l (x :: ls) = ((if bool_decide (l = x) then 1 else 0) + occurrences l ls)%nat.
Proof. unfold occurrences. rewrite filter_cons. by case_decide; case_bool_decide. Qed.
#[local] Instance occurrences_perm l : Proper ((≡ₚ) ==> eq) (occurrences l).
Proof. intros x y H. unfold occurrences. by rewrite H. Qed.
Lemma occurrences_elem l ls : (0 < occurrences l ls)%nat ↔ l ∈ ls.
Proof.
  induction ls as [|x ls IH]; [by rewrite elem_of_nil; cbn; lia|].
  rewrite occurrences_cons, elem_of_cons, <-IH. case_bool_decide; naive_solver lia.
Qed.

(** Another proposal than that of the action. *)
Lemma row_ok_other k log e t t' :
  row_ok k log t → proposals t' !! k = proposals t !! k → approvals t' !! k = approvals t !! k →
  delimits k (en_call e) = false →
  (∀ l, approves k l (en_call e) = false ∧ withdraws k l (en_call e) = false) → row_ok k (e :: log) t'.
Proof.
  unfold row_ok. intros H -> -> Hd Hl. destruct (proposals t !! k) as [[q trx]|], (approvals t !! k) as [[q' a]|]; try done.
  destruct H as (proposed & since & requested & Hs & Hc & Hp & Ho). exists proposed, (e :: since), requested.
  split; [by apply standing_cons|]. split; [done|]. split; [done|].
  intros l. rewrite !times_cons. destruct (Hl l) as [-> ->]. apply Ho.
Qed.

Lemma row_ok_removed k log t : row_ok k log (without_proposal k t).
Proof. unfold row_ok, without_proposal. cbn [proposals approvals]. by rewrite !lookup_delete_eq. Qed.

(** The proposal whose approvals the action changes. *)
Lemma row_ok_changed k log e t q q' a a' :
  row_ok k log t → approvals t !! k = Some (q, a) → delimits k (en_call e) = false →
  requested_approvals a' ++ provided_approvals a' ≡ₚ requested_approvals a ++ provided_approvals a →
  (∀ l, occurrences l (provided_approvals a') + (if withdraws k l (en_call e) then 1 else 0) =
        occurrences l (provided_approvals a) + (if approves k l (en_call e) then 1 else 0))%nat →
  row_ok k (e :: log) (MsigTables (proposals t) (<[k := (q', a')]> (approvals t))).
Proof.
  unfold row_ok. cbn [proposals approvals]. intros H Ha Hd Hperm Hocc. rewrite Ha in H. rewrite lookup_insert_eq.
  destruct (proposals t !! k) as [[q0 trx]|]; [|done].
  destruct H as (proposed & since & requested & Hs & Hc & Hp & Ho). exists proposed, (e :: since), requested.
  split; [by apply standing_cons|]. split; [done|]. split; [by rewrite Hperm|].
  intros l. rewrite !times_cons. specialize (Ho l). specialize (Hocc l). lia.
Qed.

Ltac other_proposal t := apply (row_ok_other _ _ _ t); [done|..];
  [cbn; by rewrite ?lookup_insert_ne, ?lookup_delete_ne by done
  |cbn; by rewrite ?lookup_insert_ne, ?lookup_delete_ne by done
  |cbn; by rewrite ?bool_decide_false by naive_solver
  |intros l'; cbn; by rewrite ?bool_decide_false by naive_solver].

Lemma row_ok_step k log t env c s st :
  row_ok k log t → msig_apply env c (Msig t s) = (st, Ok tt) →
  row_ok k (Entry env (st_db s) c :: log) (ms_tables st).
Proof.
  intros Hok H. destruct c as [p n requested trx|p n l|p n l|p n b|p n b]; simpl in H;
    destruct (decide (k = (p, n))) as [->|Hne].
  1-2: apply (proj1 (wp_run _ _ _) (propose_wp env p n requested trx t s)) in H as [Hc ->].
  3-4: apply (proj1 (wp_run _ _ _) (approve_wp env p n l t s)) in H as (_ & q & q' & a & r & Ha & Hr & ->).
  5-6: apply (proj1 (wp_run _ _ _) (unapprove_wp env p n l t s)) in H as (_ & q & q' & a & r & Ha & Hr & ->).
  7-8: apply (proj1 (wp_run _ _ _) (cancel_wp env p n b t s)) in H as ->.
  9-10: apply (proj1 (wp_run _ _ _) (exec_wp env p n b t s)) in H as [-> _].
  2,4,6,8,10: other_proposal t.
  - unfold row_ok. cbn [proposals approvals]. rewrite !lookup_insert_eq.
    exists (Entry env (st_db s) (Propose p n requested trx)), [], requested.
    split; [split; [by exists log|done|constructor]|]. split; [done|]. cbn. by rewrite app_nil_r.
  - eapply row_ok_changed; [done|exact Ha|done|..]; cbn [requested_approvals provided_approvals].
    + rewrite Hr. solve_Permutation.
    + intros l'. rewrite (Permutation_app_comm (provided_approvals a)). simpl. rewrite occurrences_cons.
      repeat case_bool_decide; naive_solver lia.
  - eapply row_ok_changed; [done|exact Ha|done|..]; cbn [requested_approvals provided_approvals].
    + rewrite Hr. solve_Permutation.
    + intros l'. rewrite Hr. simpl. rewrite occurrences_cons. repeat case_bool_decide; naive_solver lia.
  - apply row_ok_removed.
  - apply row_ok_removed.
Qed.

Lemma rows_ok log t : msig_run log t → ∀ k, row_ok k log t.
Proof.
  induction 1 as [|log t env c s t' s' _ IH H]; intros k; [done|].
  apply (row_ok_step k _ _ _ _ _ _ (IH k) H).
Qed.

(** An approval carries the authorization of the permission that approves. *)
Lemma approvals_signed log t e p n l :
  msig_run log t → e ∈ log → en_call e = Approve p n l → l ∈ act_authorization (env_act (en_env e)).
Proof.
  induction 1 as [|log t env c s t' s' _ IH H]; [by rewrite elem_of_nil|].
  intros [->|He]%elem_of_cons; [|by apply IH]. simpl. intros ->.
  by apply (proj1 (wp_run _ _ _) (approve_wp env p n l t s)) in H as [? _].
Qed.

Lemma times_pos f log : (0 < times f log)%nat → ∃ e, e ∈ log ∧ f (en_call e) = true.
Proof.
  induction log as [|e log IH]; [cbn; lia|]. rewrite times_cons. destruct (f (en_call e)) eqn:E.
  - intros _. exists e. split; [left|done].
  - intros (e' & He & Hf)%IH. exists e'. split; [by right|done].
Qed.

Lemma provided_approved k log t proposed since requested trx a l :
  msig_run log t → standing k log proposed since requested trx → l ∈ provided_approvals a →
  (∀ l, (occurrences l (provided_approvals a) + times (withdraws k l) since = times (approves k l) since)%nat) →
  (times (withdraws k l) since < times (approves k l) since)%nat ∧
  ∃ e, e ∈ since ∧ en_call e = Approve k.1 k.2 l ∧ l ∈ act_authorization (env_act (en_env e)).
Proof.
  intros Hrun [[older ->] _ _] Hl%occurrences_elem Ho. specialize (Ho l). split; [lia|].
  destruct (times_pos (approves k l) since) as (e & He & Hf); [lia|]. exists e. split; [done|].
  destruct (en_call e) eqn:Ec; try done. simpl in Hf. apply bool_decide_eq_true in Hf as [-> <-].
  split; [done|]. eapply approvals_signed; [done| |done]. apply elem_of_app. by left.
Qed.

Lemma check_transaction_authorization_true env d trx perms :
  check_transaction_authorization env d trx [] perms = Ok true →
  ∃ acts, unpack_actions trx = Ok acts ∧
    check_authorization (db_auth d) (db_generated d) (env_config env) acts []
      (unpack_provided_permissions perms) (seconds (trx_delay_sec trx)) false [] = Ok tt.
Proof.
  unfold check_transaction_authorization. intros (acts & Ha & H)%bind_ok. exists acts. split; [done|].
  destruct (check_authorization _ _ _ _ _ _ _ _ _) as [[]|e]; [done|]. by destruct (is_authorization_exception e).
Qed.

Lemma elem_of_provided_permissions l ls : l ∈ unpack_provided_permissions ls ↔ l ∈ ls.
Proof. unfold unpack_provided_permissions. by rewrite merge_sort_Permutation, elem_of_remove_dups. Qed.

(** A flat_set does not depend on the order of what it is made from. *)
#[local] Instance unpack_provided_permissions_perm : Proper ((≡ₚ) ==> eq) unpack_provided_permissions.
Proof.
  intros x y H. unfold unpack_provided_permissions. apply (Sorted_unique level_le); [apply Sorted_merge_sort, _..|].
  rewrite !merge_sort_Permutation. apply NoDup_Permutation; [apply NoDup_remove_dups..|].
  intros l. by rewrite !elem_of_remove_dups, H.
Qed.

(** C11: whatever was done before and in between, when exec of the multisig contract succeeds, it
    schedules the transaction that was last proposed under the name, before its expiration, and the
    proposal is gone.  The declared authorizations of its actions are satisfied by permissions each of
    which approved this proposal, in an action that carries its authorization, and approved it more
    often than it withdrew. *)
Theorem proposal_executed_if_approved log t env proposer name executer s st :
  msig_run log t → permissions_wf (db_auth (st_db s)) → authorities_in_range (db_auth (st_db s)) →
  exec env proposer name executer (Msig t s) = (st, Ok tt) →
  ∃ proposed since requested trx expiration acts approved,
    standing (proposer, name) log proposed since requested trx ∧
    header_expiration trx = Ok expiration ∧ now_sec env <= expiration ∧
    (∃ id g, db_generated (st_db (ms_ctx st)) !! id = Some g ∧ gt_sender g = env_receiver env ∧
       gt_sender_id g = sender_id_of proposer name ∧ gt_payer g = executer ∧
       gt_packed_trx g = trx_prepared (env_pending_block_time env) trx) ∧
    (∀ l, l ∈ approved →
       (times (withdraws (proposer, name) l) since < times (approves (proposer, name) l) since)%nat ∧
       ∃ e, e ∈ since ∧ en_call e = Approve proposer name l ∧ l ∈ act_authorization (env_act (en_env e))) ∧
    unpack_actions trx = Ok acts ∧
    (∀ act d, act ∈ acts → d ∈ act_authorization act → ∃ special delay,
       check_special_case (db_auth (st_db s)) (db_generated (st_db s))
         (effective_delay (env_config env) (seconds (trx_delay_sec trx))) act = Ok (special, delay) ∧
       (special = false → declared_ok (db_auth (st_db s)) act d) ∧
       level_sat (make_auth_checker (db_auth (st_db s)) (env_config env) [] approved) delay d) ∧
    proposals (ms_tables st) !! (proposer, name) = None ∧
    approvals (ms_tables st) !! (proposer, name) = None.
Proof.
  intros Hrun Hwf Hr H. pose proof (rows_ok _ _ Hrun (proposer, name)) as Hok.
  apply (proj1 (wp_run _ _ _) (exec_wp env proposer name executer t s)) in H
    as (-> & q & trx & q' & a & x & Hq & Hq' & Hx & Hnow & Hc & Hg).
  unfold row_ok in Hok. rewrite Hq, Hq' in Hok.
  destruct Hok as (proposed & since & requested & Hs & _ & _ & Ho).
  apply check_transaction_authorization_true in Hc as (acts & Ha & Hc).
  exists proposed, since, requested, trx, x, acts, (unpack_provided_permissions (provided_approvals a)).
  do 4 (split; [done|]). split.
  { intros l Hl. rewrite elem_of_provided_permissions in Hl. exact (provided_approved _ _ _ _ _ _ _ _ _ Hrun Hs Hl Ho). }
  split; [done|]. split; [|cbn; by rewrite !lookup_delete_eq].
  intros act d Hact Hd.
  destruct (check_authorization_ok _ _ _ _ _ _ _ _ _ Hwf Hr Hc act d Hact Hd) as (sp & dl & ? & ? & [Hn|?]).
  - by apply elem_of_nil in Hn.
  - by exists sp, dl.
Qed.

Lemma in_context_run {A} (m : apply A) t s s' a :
  m s = (s', Ok a) → in_context m (Msig t s) = (Msig t s', Ok a).
Proof. unfold in_context. simpl. by intros ->. Qed.

Lemma check_permissions_run env trx perms t s :
  check_transaction_authorization env (st_db s) trx [] perms = Ok true →
  check_permissions env trx perms (Msig t s) = (Msig t s, Ok tt).
Proof. intros H. unfold check_permissions. rewrite (st_bind_run _ _ _ (Msig t s) (st_db s)) by done. by rewrite H. Qed.

Lemma get_run {A} (t : table (Z * Z) A) k q a : t !! k = Some (q, a) → get t k = Ok a.
Proof. unfold get, find. by intros ->. Qed.

Lemma erase_proposal_run k t s q trx q' a :
  proposals t !! k = Some (q, trx) → approvals t !! k = Some (q', a) →
  erase_proposal k (Msig t s) = (Msig (without_proposal k t) s, Ok tt).
Proof.
  intros Hq Hq'. unfold erase_proposal, erase. erewrite st_bind_run by reflexivity. cbn [ms_tables].
  rewrite Hq. cbn [of_option]. erewrite st_bind_run by reflexivity. erewrite st_bind_run by reflexivity.
  by rewrite Hq'.
Qed.

(** What the check of a transaction reads is as it was when the transaction was proposed: the
    permissions and links, the transactions that it cancels, and two of the limits of the chain. *)
Definition as_proposed (proposed : entry) (env : apply_env) (d : chain_db) (trx : packed_trx) : Prop :=
  same_permissions (db_auth (en_db proposed)) (db_auth d) ∧
  (∀ acts, unpack_actions trx = Ok acts → same_cancelled (db_generated (en_db proposed)) (db_generated d) acts) ∧
  same_limits (env_config (en_env proposed)) (env_config env).

(** C36: a proposal that every requested permission has approved can be executed.  As long as the
    permissions that were requested when it was made still authorize its transaction, and until it
    expires, exec with the authorization of the executer succeeds, schedules the transaction and removes
    the proposal, as soon as the chain accepts the deferred transaction.  They do still authorize it
    while the permission and link tables, the transactions that it cancels, the maximum delay and the
    maximum depth of authorities are as they were when it was proposed. *)
Theorem approved_proposal_executes log t proposer name q trx q' a :
  msig_run log t → proposals t !! (proposer, name) = Some (q, trx) →
  approvals t !! (proposer, name) = Some (q', a) → requested_approvals a = [] →
  ∃ proposed since requested, standing (proposer, name) log proposed since requested trx ∧
    (∀ env s, as_proposed proposed env (st_db s) trx →
       check_transaction_authorization env (st_db s) trx [] requested = Ok true) ∧
    ∀ env executer expiration s s1 s2,
      check_transaction_authorization env (st_db s) trx [] requested = Ok true →
      header_expiration trx = Ok expiration → now_sec env <= expiration →
      require_authorization env executer s = (s1, Ok tt) →
      schedule_deferred_transaction env (sender_id_of proposer name) executer trx false s1 = (s2, Ok tt) →
      exec env proposer name executer (Msig t s) = (Msig (without_proposal (proposer, name) t) s2, Ok tt).
Proof.
  intros Hrun Hq Hq' Hall. pose proof (rows_ok _ _ Hrun (proposer, name)) as Hok.
  unfold row_ok in Hok. rewrite Hq, Hq' in Hok.
  destruct Hok as (proposed & since & requested & Hs & Hc & Hp & _).
  exists proposed, since, requested. split; [done|]. rewrite Hall in Hp. simpl in Hp. split.
  { intros env s (Hsp & Hsc & Hsl). rewrite <-Hc. unfold check_transaction_authorization.
    destruct (unpack_actions trx) as [acts|e] eqn:Eu; [|done]. cbn.
    by rewrite (same_check _ _ _ _ _ _ _ _ _ _ _ _ Hsp (Hsc acts eq_refl) Hsl). }
  intros env executer x s s1 s2 Hcheck Hx Hnow Hauth Hsend.
  assert (st_db s1 = st_db s) as Edb by by eapply require_auth_db.
  assert (check_transaction_authorization env (st_db s1) trx [] (provided_approvals a) = Ok true) as Hc'.
  { apply unpack_provided_permissions_perm in Hp. unfold check_transaction_authorization in *. by rewrite Edb, Hp. }
  unfold exec. erewrite st_bind_run by (apply in_context_run, Hauth).
  erewrite st_bind_run by reflexivity. cbn [ms_tables].
  rewrite (get_run _ _ _ _ Hq), (get_run _ _ _ _ Hq'), st_lift_run, st_lift_run, Hx, st_lift_run.
  rewrite (proj2 (Z.leb_le _ _) Hnow). erewrite st_bind_run by reflexivity.
  erewrite st_bind_run by (apply check_permissions_run, Hc').
  erewrite st_bind_run by (apply in_context_run, Hsend). by eapply erase_proposal_run.
Qed.

End multisig.

(** ** A concrete instance *)
#[local] Existing Instances toy_fc toy_action_codec toy_transaction_codec toy_pack_sizes.
Definition toy_header_codec : HeaderCodec := λ _, Ok 100.
#[local] Existing Instance toy_header_codec.

(** Account 1 proposes a transaction that needs its active permission, and approves it. *)
Definition toy_level : permission_level := PermissionLevel 1 active_name.
Definition toy_propose : msig_call := Propose 1 50 [toy_level] toy_trx1.
Definition toy_approve : msig_call := Approve 1 50 toy_level.
Definition no_tables : msig_tables := MsigTables ∅ ∅.

Definition toy_after (d : chain_db) (c : msig_call) (t : msig_tables) : result msig_tables :=
  let '(st, r) := msig_apply toy_env c (Msig t (toy_apply_state d)) in _ ← r; mret (ms_tables st).
Definition toy_log (d : chain_db) : list entry := [Entry toy_env d toy_approve; Entry toy_env d toy_propose].
Definition toy_approved : result (chain_db * msig_tables) :=
  d ← toy_chain; t ← toy_after d toy_propose no_tables; t ← toy_after d toy_approve t; mret (d, t).

Lemma toy_after_run d c t t' log :
  toy_after d c t = Ok t' → msig_run log t → msig_run (Entry toy_env d c :: log) t'.
Proof.
  unfold toy_after. destruct (msig_apply toy_env c _) as [[t1 s1] [[]|e]] eqn:E; [|discriminate].
  intros [= <-] Hrun. exact (run_action _ _ _ _ _ _ _ Hrun E).
Qed.

Lemma toy_msig_run d t : toy_approved = Ok (d, t) → toy_chain = Ok d ∧ msig_run (toy_log d) t.
Proof.
  unfold toy_approved. intros (d' & Hd & (t1 & H1 & (t2 & H2 & H)%bind_ok)%bind_ok)%bind_ok.
  injection H as -> ->.
  split; [exact Hd|]. apply (toy_after_run d toy_approve t1 t _ H2), (toy_after_run d toy_propose no_tables t1 _ H1), run_nothing.
Qed.

Lemma toy_chain_auth d :
  toy_chain = Ok d → permissions_wf (db_auth d) ∧ authorities_in_range (db_auth d).
Proof. unfold toy_chain. intros (a & Ha & (r & _ & [= <-])%bind_ok)%bind_ok. by apply toy_auth_db_wf. Qed.

Lemma proposal_executed_if_approved_witness :
  ∃ d t st, toy_approved = Ok (d, t) ∧ exec toy_env 1 50 1 (Msig t (toy_apply_state d)) = (st, Ok tt) ∧
    ∃ proposed since requested trx, standing (1, 50) (toy_log d) proposed since requested trx.
Proof.
  assert (Hok : is_ok ('(d, t) ← toy_approved;
    (exec toy_env 1 50 1 (Msig t (toy_apply_state d))).2) = true) by (vm_compute; reflexivity).
  destruct toy_approved as [[d t]|e] eqn:E; [|discriminate Hok]. exists d, t.
  destruct (toy_msig_run d t E) as [Hd Hrun]. destruct (toy_chain_auth d Hd) as [Hwf Hr].
  destruct (exec toy_env 1 50 1 (Msig t (toy_apply_state d))) as [st [[]|e]] eqn:Ex.
  2: { simpl in Hok. rewrite Ex in Hok. discriminate Hok. }
  exists st. split; [reflexivity|]. split; [reflexivity|].
  destruct (proposal_executed_if_approved (toy_log d) t toy_env 1 50 1 (toy_apply_state d) st Hrun Hwf Hr Ex)
    as (proposed & since & requested & trx & x & acts & ap & Hs & _).
  exists proposed, since, requested, trx. exact Hs.
Defined.

Lemma toy_standing d proposed since requested trx :
  standing (1, 50) (toy_log d) proposed since requested trx →
  proposed = Entry toy_env d toy_propose ∧ trx = toy_trx1.
Proof.
  intros [[older H] Hc _]. unfold toy_log in H.
  destruct since as [|e1 [|e2 since]].
  - injection H as <- _. discriminate Hc.
  - injection H as _ <- _. split; [done|]. by injection Hc.
  - injection H as _ _ H. by destruct since.
Qed.

(** Later, the permissions have been used in between. *)
Definition toy_used (d : chain_db) : chain_db :=
  with_auth d (with_usages (db_auth d) ((λ _, 900000) <$> permission_usage_index (db_auth d))).

Lemma approved_proposal_executes_witness :
  ∃ d t s2, toy_approved = Ok (d, t) ∧
    exec toy_env 1 50 1 (Msig t (toy_apply_state (toy_used d))) = (Msig (without_proposal (1, 50) t) s2, Ok tt).
Proof.
  assert (Hok : match toy_approved with
    | Ok (d, t) =>
        match proposals t !! (1, 50), approvals t !! (1, 50) with
        | Some _, Some (_, a) => match requested_approvals a with [] => true | _ => false end
        | _, _ => false
        end &&
        (let '(s1, r1) := require_authorization toy_env 1 (toy_apply_state (toy_used d)) in
         is_ok r1 && is_ok (schedule_deferred_transaction toy_env (sender_id_of 1 50) 1 toy_trx1 false s1).2)
    | Throw _ => false
    end = true) by (vm_compute; reflexivity).
  destruct toy_approved as [[d t]|e] eqn:E; [|discriminate Hok]. apply andb_true_iff in Hok as [Hok Hsend].
  destruct (toy_msig_run d t E) as [Hd Hrun].
  destruct (proposals t !! (1, 50)) as [[q trx]|] eqn:Eq; [|discriminate Hok].
  destruct (approvals t !! (1, 50)) as [[q' a]|] eqn:Ea; [|discriminate Hok].
  destruct (requested_approvals a) eqn:Er; [|discriminate Hok].
  destruct (require_authorization toy_env 1 (toy_apply_state (toy_used d))) as [s1 [[]|e]] eqn:E1; [|discriminate Hsend].
  destruct (schedule_deferred_transaction toy_env (sender_id_of 1 50) 1 toy_trx1 false s1) as [s2 [[]|e]] eqn:E2;
    [|discriminate Hsend].
  destruct (approved_proposal_executes (toy_log d) t 1 50 q trx q' a Hrun Eq Ea Er)
    as (proposed & since & requested & Hs & Hc & Hx).
  destruct (toy_standing d proposed since requested trx Hs) as [Hp Htrx].
  exists d, t, s2. split; [reflexivity|]. subst proposed trx.
  apply (Hx toy_env 1 100 (toy_apply_state (toy_used d)) s1 s2); [|reflexivity|by vm_compute|exact E1|exact E2].
  apply Hc. split; [split; reflexivity|]. split; [intros acts _ act c _ _ _; reflexivity|split; reflexivity].
Defined.
