(* ===== verification/ForkSwitch.v ===== *)
(** * Switching forks

    Models how controller.cpp keeps the chain state on the best fork of the fork database: the frame
    of apply_block with commit_block, pop_block and maybe_switch_forks.  The chain state lives in an
    undo database, with one session for each block that can still be undone.

    Executing a block is the parameter [execute_block]: what start_block, the transactions (see
    Controller) and finalize_block make of the chain state, whether they return or throw.

    Result ([fork_switch_atomic]): on a node in step with its fork database, maybe_switch_forks either
    ends on the head of the fork database, in the state that its blocks lead to; or a block of the
    better fork throws, and then head, state and undo history are those from before, and exactly
    the blocks that build on the bad one are gone from the fork database. *)

From S2P Require Import Prelude Merkle BlockHeader ForkDb Controller.

(** What the controller relies on to execute a block on top of the header state of the head. *)
Class ChainExecution `{FC : Fc} {PL : Payload} := {
  chain_state : Type;
  (** the state that is reached, also when an exception is thrown *)
  execute_block : block_status → signed_block → block_header_state → chain_state → chain_state * result unit;
  (** what it does to the transactions that are not in a block, by their signed id *)
  execute_unapplied : block_status → signed_block → block_header_state → chain_state →
    gmap digest transaction_metadata → gmap digest transaction_metadata;
  metadata_signed_id : transaction_metadata → digest;
}.

(** "we previously validated these blocks": what was applied once can be applied again as validated,
    from the same state to the same state. *)
Class ChainExecutionLaws `{ChainExecution} : Prop := {
  validated_again : ∀ s b h c c',
    execute_block s b h c = (c', Ok tt) → execute_block validated b h c = (c', Ok tt);
  (** FC_CAPTURE_AND_RETHROW makes every exception an fc::exception *)
  execute_throws : ∀ s b h c c' e,
    execute_block s b h c = (c', Throw e) → e ≠ undefined_behaviour ∧ e ≠ out_of_fuel;
}.

Section fork_switch.
Context {FC : Fc} {FH : FcHash} {PL : Payload} {OI : OrderedIndex} {CE : ChainExecution}.

(** Settings of the controller; [no_session] is skip_db_sessions. *)
Record node_env := NodeEnv {
  ne_speculative : bool;
  ne_replaying : bool;
  no_session : block_status → bool;
}.

(** [nd_undo] are the states that the sessions of the undo database go back to, the latest first. *)
Record node := Node {
  nd_fork_db : fork_database;
  nd_head : ptr;
  nd_state : chain_state;
  nd_undo : list chain_state;
  nd_revision : Z;
  nd_reversible : gmap Z signed_block;
  nd_unapplied : gmap digest transaction_metadata;
}.
Abbreviation control := (stM node).

Definition set_fork_db (n : node) (f : fork_database) : node :=
  Node f (nd_head n) (nd_state n) (nd_undo n) (nd_revision n) (nd_reversible n) (nd_unapplied n).
Definition set_node_head (p : ptr) : control unit := st_modify (λ n,
  Node (nd_fork_db n) p (nd_state n) (nd_undo n) (nd_revision n) (nd_reversible n) (nd_unapplied n)).
Definition set_state (c : chain_state) (undo : list chain_state) (revision : Z) : control unit :=
  st_modify (λ n, Node (nd_fork_db n) (nd_head n) c undo revision (nd_reversible n) (nd_unapplied n)).
Definition set_reversible (r : gmap Z signed_block) : control unit := st_modify (λ n,
  Node (nd_fork_db n) (nd_head n) (nd_state n) (nd_undo n) (nd_revision n) r (nd_unapplied n)).
Definition set_unapplied (u : gmap digest transaction_metadata) : control unit := st_modify (λ n,
  Node (nd_fork_db n) (nd_head n) (nd_state n) (nd_undo n) (nd_revision n) (nd_reversible n) u).

Definition in_fork_db {A} (m : stM fork_database A) : control A := λ n,
  let '(f, r) := m (nd_fork_db n) in (set_fork_db n f, r).

(** [try { m } catch( const fc::exception& e ) { handler }] *)
Definition is_fc_exception (e : exception) : bool :=
  match e with undefined_behaviour | out_of_fuel => false | _ => true end.
Definition st_catch {A} (m : control A) (handler : exception → control A) : control A := λ n,
  match m n with
  | (n', Throw e) => if is_fc_exception e then handler e n' else (n', Throw e)
  | r => r
  end.

(** [commit_block( false )]: the block goes to the reversible blocks, and the session is kept. *)
Definition commit_block (ne : node_env) (num : Z) (b : signed_block) : control unit :=
  n ← st_get;
  if ne_replaying ne then mret tt
  else
    _ ← st_assert (bool_decide (nd_reversible n !! num = None)) db_uniqueness_violation;
    set_reversible (<[num := b]> (nd_reversible n)).

(** apply_block: a session is opened unless [no_session], undone on an exception and kept otherwise. *)
Definition apply_block (ne : node_env) (b : option signed_block) (s : block_status) : control unit :=
  b ← st_lift (of_option b undefined_behaviour);
  _ ← st_assert (bool_decide (block_extensions b = [])) block_validate_exception;
  n ← st_get;
  h ← in_fork_db (deref (nd_head n));
  _ ← st_assert (no_session ne s || (nd_revision n =? bs_num h)) database_exception;
  let '(c, r) := execute_block s b (bhs h) (nd_state n) in
  _ ← set_unapplied (execute_unapplied s b (bhs h) (nd_state n) (nd_unapplied n));
  let abort e := _ ← (if no_session ne s then set_state c (nd_undo n) (nd_revision n) else mret tt); st_throw e in
  match r with
  | Throw e => abort e
  | Ok _ =>
      _ ← st_catch (commit_block ne (bs_num h + 1) b) abort;
      if no_session ne s then set_state c (nd_undo n) (nd_revision n)
      else set_state c (nd_state n :: nd_undo n) (nd_revision n + 1)
  end.

(** [db.undo()]: nothing when there is no session. *)
Definition db_undo : control unit :=
  n ← st_get;
  match nd_undo n with
  | [] => mret tt
  | c :: undo => set_state c undo (nd_revision n - 1)
  end.

Definition pop_block (ne : node_env) : control unit :=
  n ← st_get;
  h ← in_fork_db (deref (nd_head n));
  prev ← in_fork_db (get_block (bs_prev h));
  prev ← st_lift (of_option prev block_validate_exception);
  _ ← set_reversible (delete (bs_num h) (nd_reversible n));
  _ ← (if ne_speculative ne then
         _ ← st_assert (bool_decide (is_Some (block h))) block_validate_exception;
         set_unapplied (foldl (λ u t, <[metadata_signed_id t := t]> u) (nd_unapplied n) (trxs h))
       else mret tt);
  _ ← set_node_head prev;
  db_undo.

(** [for( ... ) { fork_db.mark_in_current_chain( *itr, false ); pop_block(); }] *)
Fixpoint pop_branch (ne : node_env) (l : list ptr) : control unit :=
  match l with
  | [] => mret tt
  | p :: l =>
      _ ← in_fork_db (mark_in_current_chain p false);
      _ ← pop_block ne;
      pop_branch ne l
  end.

(** [EOS_ASSERT( self.head_block_id() == branches.second.back()->header.previous, ... )] *)
Definition check_sync (second : list ptr) : control unit :=
  n ← st_get;
  h ← in_fork_db (deref (nd_head n));
  back ← st_lift (of_option (last second) undefined_behaviour);
  s ← in_fork_db (deref back);
  st_assert (bool_decide (bs_id h = bs_prev s)) fork_database_exception.

(** "re-apply good blocks", the oldest first. *)
Fixpoint reapply (ne : node_env) (l : list ptr) : control unit :=
  match l with
  | [] => mret tt
  | p :: l =>
      s ← in_fork_db (deref p);
      _ ← apply_block ne (block s) validated;
      _ ← set_node_head p;
      _ ← in_fork_db (mark_in_current_chain p true);
      reapply ne l
  end.

(** The loop over the blocks of the better fork, the oldest first; [applied] are those before, the
    latest first. *)
Fixpoint apply_branch (ne : node_env) (second applied todo : list ptr) : control unit :=
  match todo with
  | [] => mret tt
  | p :: todo =>
      _ ← st_catch
        (s ← in_fork_db (deref p);
         _ ← apply_block ne (block s) (if ForkDb.validated s then validated else complete);
         _ ← set_node_head p;
         _ ← in_fork_db (mark_in_current_chain p true);
         in_fork_db (st_modify (λ f, set_heap f (alter (λ s, set_validated s true) p (heap f)))))
        (λ e,
         _ ← in_fork_db (set_validity p false);
         _ ← pop_branch ne applied;
         _ ← check_sync second;
         _ ← reapply ne (reverse second);
         st_throw e);
      apply_branch ne second (p :: applied) todo
  end.

Definition maybe_switch_forks (ne : node_env) (s : block_status) : control unit :=
  n ← st_get;
  new_head ← st_lift (of_option (fork_head (nd_fork_db n)) undefined_behaviour);
  t ← in_fork_db (deref new_head);
  h ← in_fork_db (deref (nd_head n));
  if bool_decide (bs_prev t = bs_id h) then
    st_catch
      (_ ← apply_block ne (block t) s;
       _ ← in_fork_db (mark_in_current_chain new_head true);
       _ ← in_fork_db (set_validity new_head true);
       set_node_head new_head)
      (λ e, _ ← in_fork_db (set_validity new_head false); st_throw e)
  else if negb (bool_decide (bs_id t = bs_id h)) then
    '(first, second) ← in_fork_db (fetch_branch_from (bs_id t) (bs_id h));
    _ ← pop_branch ne second;
    _ ← check_sync second;
    apply_branch ne second [] (reverse first)
  else mret tt.

Context {OL : OrderedIndexLaws} {CL : ChainExecutionLaws}.
Implicit Types (f : fork_database) (n : node) (c : chain_state).

(** ** Marking blocks *)

(** What marks leave of a block. *)
Definition block_core (s : block_state) : block_header_state * option signed_block * list transaction_metadata :=
  (bhs s, block s, trxs s).
(** The same blocks, up to their marks. *)
Record same_blocks f f' : Prop := {
  sb_prev : by_prev f' = by_prev f;
  sb_head : fork_head f' = fork_head f;
  sb_core : ∀ p, block_core <$> heap f' !! p = block_core <$> heap f !! p;
}.

#[local] Instance same_blocks_preorder : PreOrder same_blocks.
Proof.
  split; [by intros f|]. intros f1 f2 f3 [] []. split; [congruence..|]. intros p. by transitivity (block_core <$> heap f2 !! p).
Qed.

Lemma same_key {B} (k : block_state → B) f f' p :
  same_blocks f f' → (∀ s t, block_core s = block_core t → k s = k t) → k <$> heap f' !! p = k <$> heap f !! p.
Proof.
  intros [_ _ H] Hk. specialize (H p). destruct (heap f' !! p), (heap f !! p); simplify_eq/=; [|done].
  f_equal. apply Hk. unfold block_core. congruence.
Qed.
Lemma core_bhs s t : block_core s = block_core t → bhs s = bhs t.
Proof. unfold block_core. congruence. Qed.

Lemma same_block f f' p s' :
  same_blocks f f' → heap f' !! p = Some s' → ∃ s, heap f !! p = Some s ∧ bhs s' = bhs s ∧ block s' = block s.
Proof.
  intros [_ _ H] Hs. specialize (H p). rewrite Hs in H. destruct (heap f !! p) as [s|]; simplify_eq/=. eauto.
Qed.

Lemma same_find f f' i : same_blocks f f' → find_id f' i = find_id f i.
Proof.
  intros H. unfold find_id. rewrite (sb_prev _ _ H). f_equal. apply list_find_ext. intros p. unfold has_id.
  by rewrite (same_key bs_id f f' p H) by (intros ? ? E%core_bhs; unfold bs_id; by rewrite E).
Qed.
Lemma same_parent f f' p : same_blocks f f' → parent f' p = parent f p.
Proof.
  intros H. unfold parent. pose proof (sb_core _ _ H p) as Hc.
  destruct (heap f' !! p) as [s|], (heap f !! p) as [t|]; simplify_eq/=; [|done].
  rewrite (same_find f f') by done. unfold bs_prev. congruence.
Qed.
Lemma same_ancestor f f' k p : same_blocks f f' → ancestor f' k p = ancestor f k p.
Proof.
  intros H. revert p. induction k as [|k IH]; intros p; simpl; [done|]. rewrite (same_parent f f') by done.
  destruct (parent f p); [apply IH|done].
Qed.
Lemma same_path f f' k p : same_blocks f f' → path f' k p = path f k p.
Proof.
  intros H. revert p. induction k as [|k IH]; intros p; simpl; [done|]. rewrite (same_parent f f') by done.
  destruct (parent f p); [by rewrite IH|done].
Qed.
Lemma same_linked f f' : same_blocks f f' → db_linked f → db_linked f'.
Proof.
  intros H Hl p q s t Hp Hq Hs Ht. rewrite (sb_prev _ _ H) in Hp, Hq.
  destruct (same_block _ _ _ _ H Hs) as (s0 & Hs0 & Es & _), (same_block _ _ _ _ H Ht) as (t0 & Ht0 & Et & _).
  unfold bs_prev, bs_id, bs_num. rewrite Es, Et. by apply (Hl p q s0 t0).
Qed.
Lemma same_num f f' k p : same_blocks f f' → has_num (heap f') k p ↔ has_num (heap f) k p.
Proof.
  intros H. unfold has_num. by rewrite (same_key bs_num f f') by (try done; intros ? ? E%core_bhs; unfold bs_num; by rewrite E).
Qed.

Lemma alter_same f f' p g :
  by_prev f' = by_prev f → fork_head f' = fork_head f → heap f' = alter g p (heap f) →
  (∀ s, block_core (g s) = block_core s) → same_blocks f f'.
Proof. intros H1 H2 H3 Hg. split; [done..|]. intros q. rewrite H3. by apply alter_key. Qed.

Lemma mark_run f p b :
  db_wf f → p ∈ by_prev f → ∃ f', mark_in_current_chain p b f = (f', Ok tt) ∧ db_wf f' ∧ same_blocks f f'.
Proof.
  intros Hwf Hp. pose proof (mark_in_current_chain_wf p b f Hwf) as Hwf'.
  destruct (dw_alloc _ Hwf p Hp) as [s Hs]. unfold mark_in_current_chain in *.
  rewrite (st_bind_run _ _ _ _ _ (deref_run _ _ _ Hs)) in *. destruct (Bool.eqb _ _).
  { by exists f. }
  assert (find_id f (bs_id s) = Some p) as Hf.
  { apply find_id_Some; [done|]. split; [done|]. unfold has_id. by rewrite Hs. }
  rewrite st_get_run, Hf in *. cbn [of_option] in *. rewrite st_lift_run in *.
  eexists. split; [reflexivity|]. split; [done|]. by eapply alter_same.
Qed.

Lemma set_validated_run f p :
  db_wf f → db_wf (set_heap f (alter (λ s, set_validated s true) p (heap f))) ∧
  same_blocks f (set_heap f (alter (λ s, set_validated s true) p (heap f))).
Proof. intros Hwf. split; [by apply (set_heap_wf _ _ _ keeps_validated)|by eapply alter_same]. Qed.

(** ** A node in step *)

(** Executing the block as validated on top of its parent leads from [c0] to [c]. *)
Definition executes f (p : ptr) (c0 c : chain_state) : Prop :=
  ∃ s q t b, heap f !! p = Some s ∧ parent f p = Some q ∧ heap f !! q = Some t ∧
    block s = Some b ∧ block_extensions b = [] ∧ execute_block validated b (bhs t) c0 = (c, Ok tt).

(** The states after a block and after those before it, the latest first. *)
Inductive history f : ptr → list chain_state → Prop :=
| history_oldest p c : history f p [c]
| history_block p q c c0 cs :
    parent f p = Some q → executes f p c0 c → history f q (c0 :: cs) → history f p (c :: c0 :: cs).

Definition states n : list chain_state := nd_state n :: nd_undo n.

Record in_step n : Prop := {
  is_wf : db_wf (nd_fork_db n);
  is_linked : db_linked (nd_fork_db n);
  is_head : nd_head n ∈ by_prev (nd_fork_db n);
  is_history : history (nd_fork_db n) (nd_head n) (states n);
  is_revision : has_num (heap (nd_fork_db n)) (nd_revision n) (nd_head n);
  is_reversible : ∀ k b, nd_reversible n !! k = Some b → k <= nd_revision n;
  is_blocks : ∀ p q s, parent (nd_fork_db n) p = Some q → heap (nd_fork_db n) !! p = Some s → is_Some (block s);
}.

Lemma same_executes f f' p c0 c : same_blocks f f' → executes f p c0 c → executes f' p c0 c.
Proof.
  intros H (s & q & t & b & Hs & Hq & Ht & Hb & He & Hx).
  pose proof (sb_core _ _ H p) as Hp. pose proof (sb_core _ _ H q) as Hq'. rewrite Hs in Hp. rewrite Ht in Hq'.
  destruct (heap f' !! p) as [s'|] eqn:Es; [|done]. destruct (heap f' !! q) as [t'|] eqn:Et; [|done]. simplify_eq/=.
  exists s', q, t', b. rewrite (same_parent f f') by done. split_and!; congruence.
Qed.
Lemma same_history f f' p cs : same_blocks f f' → history f p cs → history f' p cs.
Proof.
  intros H. induction 1 as [p c|p q c c0 cs Hq He Hh IH]; [constructor|].
  econstructor; [by rewrite (same_parent f f')|by eapply same_executes|done].
Qed.
Lemma same_in_step n f' : in_step n → db_wf f' → same_blocks (nd_fork_db n) f' → in_step (set_fork_db n f').
Proof.
  intros [] Hwf Hs. split; cbn; try done.
  - by eapply same_linked.
  - by rewrite (sb_prev _ _ Hs).
  - by eapply same_history.
  - by apply (same_num (nd_fork_db n)).
  - intros p q s Hp Hq. rewrite (same_parent (nd_fork_db n)) in Hp by done.
    destruct (same_block _ _ _ _ Hs Hq) as (s0 & Hs0 & _ & ->). eauto.
Qed.

Lemma st_assert_run {S B} (b : bool) e (g : unit → stM S B) (s : S) : b = true → (st_assert b e ≫= g) s = g tt s.
Proof. by intros ->. Qed.

Lemma in_fork_db_run {A} (m : stM fork_database A) n f r :
  m (nd_fork_db n) = (f, r) → in_fork_db m n = (set_fork_db n f, r).
Proof. unfold in_fork_db. by intros ->. Qed.
Lemma in_fork_db_read {A} (m : stM fork_database A) n r :
  m (nd_fork_db n) = (nd_fork_db n, r) → in_fork_db m n = (n, r).
Proof. unfold in_fork_db. intros ->. by destruct n. Qed.

(** What stays when only transactions outside of blocks change. *)
Record same_chain n n' : Prop := {
  sc_fork : nd_fork_db n' = nd_fork_db n;
  sc_head : nd_head n' = nd_head n;
  sc_state : nd_state n' = nd_state n;
  sc_undo : nd_undo n' = nd_undo n;
  sc_revision : nd_revision n' = nd_revision n;
  sc_reversible : nd_reversible n' = nd_reversible n;
}.
Lemma same_chain_in_step n n' : same_chain n n' → in_step n → in_step n'.
Proof.
  destruct n as [f p c u r v w], n' as [f' p' c' u' r' v' w']. intros []. simpl in *. subst.
  intros []. by split.
Qed.

(** ** Applying a block *)
Lemma apply_block_cases ne s b n h :
  in_step n → no_session ne s = false → heap (nd_fork_db n) !! nd_head n = Some h →
  (∃ c n', apply_block ne (Some b) s n = (n', Ok tt) ∧ block_extensions b = [] ∧
     execute_block s b (bhs h) (nd_state n) = (c, Ok tt) ∧
     nd_fork_db n' = nd_fork_db n ∧ nd_head n' = nd_head n ∧ states n' = c :: states n ∧
     nd_revision n' = nd_revision n + 1 ∧
     ∀ k b', nd_reversible n' !! k = Some b' → k <= nd_revision n + 1) ∨
  (∃ e n', apply_block ne (Some b) s n = (n', Throw e) ∧ is_fc_exception e = true ∧ same_chain n n' ∧
     ∀ c, block_extensions b = [] → execute_block s b (bhs h) (nd_state n) ≠ (c, Ok tt)).
Proof.
  intros Hn Hns Hh. unfold apply_block. cbn [of_option]. rewrite st_lift_run.
  destruct (decide (block_extensions b = [])) as [He|He].
  2: { right. exists block_validate_exception, n. unfold st_assert. rewrite bool_decide_eq_false_2 by done. by split_and!. }
  rewrite st_assert_run by (by apply bool_decide_eq_true_2). rewrite st_get_run.
  rewrite (st_bind_run _ _ _ _ _ (in_fork_db_read _ n _ (deref_run _ _ _ Hh))).
  pose proof (is_revision _ Hn) as Hr. unfold has_num in Hr. rewrite Hh in Hr. injection Hr as Hr.
  rewrite st_assert_run by (rewrite Hr, Z.eqb_refl; apply orb_true_r). rewrite Hns.
  destruct (execute_block s b (bhs h) (nd_state n)) as [c [[]|e]] eqn:Ex; unfold set_unapplied; rewrite st_modify_run.
  2: { right. do 2 eexists. split; [done|]. split; [|by split; [destruct n|]].
       destruct (execute_throws _ _ _ _ _ _ Ex). by destruct e. }
  left. exists c. set (n1 := Node _ _ _ _ _ _ _).
  assert (∃ rv, commit_block ne (bs_num h + 1) b n1 = (Node (nd_fork_db n1) (nd_head n1) (nd_state n1) (nd_undo n1)
            (nd_revision n1) rv (nd_unapplied n1), Ok tt) ∧
          ∀ k b', rv !! k = Some b' → k <= nd_revision n + 1) as (rv & Hc & Hrv).
  { unfold commit_block. rewrite st_get_run. destruct (ne_replaying ne).
    { eexists. split; [done|]. intros k b' Hk. apply (is_reversible _ Hn) in Hk. lia. }
    rewrite st_assert_run.
    - eexists. split; [done|]. intros k b' [[<- _]|[_ Hk]]%lookup_insert_Some; [lia|].
      apply (is_reversible _ Hn) in Hk. lia.
    - apply bool_decide_eq_true_2. destruct (nd_reversible n1 !! (bs_num h + 1)) eqn:E; [|done].
      apply (is_reversible _ Hn) in E. lia. }
  eexists. split.
  { erewrite st_bind_run; [reflexivity|]. unfold st_catch. by rewrite Hc. }
  by split_and!.
Qed.

Definition with_head (p : ptr) n : node :=
  Node (nd_fork_db n) p (nd_state n) (nd_undo n) (nd_revision n) (nd_reversible n) (nd_unapplied n).

Lemma parent_indexed f p q : db_wf f → parent f p = Some q → q ∈ by_prev f.
Proof.
  intros Hwf H. unfold parent in H. destruct (heap f !! p); [|done]. by apply find_id_Some in H as [? _].
Qed.

(** A child of the head is applied and becomes the head, or nothing happens to the chain. *)
Lemma apply_on_head ne s n p t :
  in_step n → no_session ne s = false → parent (nd_fork_db n) p = Some (nd_head n) →
  p ∈ by_prev (nd_fork_db n) → heap (nd_fork_db n) !! p = Some t →
  (∃ c n', apply_block ne (block t) s n = (n', Ok tt) ∧ nd_fork_db n' = nd_fork_db n ∧
     in_step (with_head p n') ∧ states n' = c :: states n ∧ executes (nd_fork_db n) p (nd_state n) c) ∨
  (∃ e n', apply_block ne (block t) s n = (n', Throw e) ∧ is_fc_exception e = true ∧ same_chain n n' ∧
     ∀ c, s = validated → ¬ executes (nd_fork_db n) p (nd_state n) c).
Proof.
  intros Hn Hns Hp Hin Ht. destruct (is_blocks _ Hn p _ _ Hp Ht) as [b Hb]. rewrite Hb.
  destruct (dw_alloc _ (is_wf _ Hn) _ (is_head _ Hn)) as [h Hh].
  destruct (apply_block_cases ne s b n h Hn Hns Hh) as [(c & n' & Hrun & He & Hx & Hf & Hd & Hst & Hr & Hrv)|(e & n' & Hrun & Hfc & Hsc & Hx)].
  2: { right. exists e, n'. split_and!; try done. intros c -> (t' & q & h' & b' & ? & ? & ? & ? & ? & ?).
       simplify_eq. by apply (Hx c). }
  left.
  apply validated_again in Hx.
  assert (executes (nd_fork_db n) p (nd_state n) c) as Hex by (exists t, (nd_head n), h, b; by split_and!).
  exists c, n'. split_and!; try done. destruct Hn. split; cbn; rewrite ?Hf; try done.
  - change (states (with_head p n')) with (states n'). rewrite Hst. by econstructor.
  - rewrite Hr. destruct (has_num_alloc _ _ is_wf0 Hin) as [k Hk].
    destruct (parent_num _ _ _ _ is_wf0 is_linked0 Hin Hk Hp) as [_ Hk'].
    unfold has_num in *. rewrite is_revision0 in Hk'. injection Hk' as ->. by rewrite Z.sub_add.
  - intros k b'. rewrite Hr. apply Hrv.
Qed.

Lemma states_inv n c cs : states n = c :: cs → nd_state n = c ∧ nd_undo n = cs.
Proof. by intros [= -> ->]. Qed.

(** ** Popping blocks *)
Lemma pop_block_run ne n c0 cs :
  in_step n → nd_undo n = c0 :: cs →
  ∃ n', pop_block ne n = (n', Ok tt) ∧ in_step n' ∧ nd_fork_db n' = nd_fork_db n ∧
    parent (nd_fork_db n) (nd_head n) = Some (nd_head n') ∧ states n' = c0 :: cs.
Proof.
  intros Hn Hu. destruct (dw_alloc _ (is_wf _ Hn) _ (is_head _ Hn)) as [h Hh].
  pose proof (is_history _ Hn) as Hhist. unfold states in Hhist. rewrite Hu in Hhist.
  inversion Hhist as [|? q ? ? ? Hq Hex Hq']; subst.
  destruct (is_blocks _ Hn _ _ _ Hq Hh) as [b Hb].
  unfold pop_block. rewrite st_get_run, (st_bind_run _ _ _ _ _ (in_fork_db_read _ n _ (deref_run _ _ _ Hh))).
  rewrite (st_bind_run _ _ _ _ _ (in_fork_db_read _ n _ (parent_run _ _ _ _ Hh Hq))). cbn [of_option].
  rewrite st_lift_run. unfold set_reversible. rewrite st_modify_run.
  set (n1 := Node _ _ _ _ _ _ _). set (m := if ne_speculative ne then _ else _).
  assert (∃ u, m n1 = (Node (nd_fork_db n1) (nd_head n1) (nd_state n1) (nd_undo n1) (nd_revision n1)
            (nd_reversible n1) u, Ok tt)) as [u Hm].
  { unfold m. destruct (ne_speculative ne); [|by exists (nd_unapplied n1)].
    rewrite st_assert_run by (rewrite Hb; by apply bool_decide_eq_true_2). by eexists. }
  rewrite (st_bind_run _ _ _ _ _ Hm). clear m Hm. unfold set_node_head. rewrite st_modify_run.
  unfold db_undo. rewrite st_get_run. cbn [nd_undo n1]. rewrite Hu. eexists. split; [reflexivity|].
  destruct Hn. split_and!; try done. split; cbn; try done.
  - by eapply parent_indexed.
  - by destruct (parent_num _ _ _ _ is_wf0 is_linked0 is_head0 is_revision0 Hq).
  - intros k b' [Hk Hb']%lookup_delete_Some. apply is_reversible0 in Hb'.
    unfold has_num in is_revision0. rewrite Hh in is_revision0. injection is_revision0 as Hr. lia.
Qed.

Lemma set_fork_db_states n f : states (set_fork_db n f) = states n.
Proof. done. Qed.

Lemma pop_branch_run ne k : ∀ n,
  in_step n → (k <= length (nd_undo n))%nat →
  ∃ n', pop_branch ne (path (nd_fork_db n) k (nd_head n)) n = (n', Ok tt) ∧ in_step n' ∧
    same_blocks (nd_fork_db n) (nd_fork_db n') ∧
    ancestor (nd_fork_db n) k (nd_head n) = Some (nd_head n') ∧ states n' = drop k (states n).
Proof.
  induction k as [|k IH]; intros n Hn Hk; [by exists n|].
  destruct (nd_undo n) as [|c0 cs] eqn:Hu; [simpl in Hk; lia|].
  destruct (mark_run (nd_fork_db n) (nd_head n) false (is_wf _ Hn) (is_head _ Hn)) as (f1 & Hm & Hwf1 & Hs1).
  pose proof (same_in_step _ _ Hn Hwf1 Hs1) as Hn1.
  destruct (pop_block_run ne (set_fork_db n f1) c0 cs Hn1 Hu) as (n2 & Hp & Hn2 & Hf2 & Hq & Hst2).
  cbn [nd_fork_db nd_head set_fork_db] in *. rewrite (same_parent (nd_fork_db n)) in Hq by done.
  destruct (IH n2 Hn2) as (n3 & Hrun & Hn3 & Hs3 & Ha & Hst3).
  { apply states_inv in Hst2 as [_ ->]. simpl in Hk. lia. }
  rewrite Hf2 in *. rewrite (same_path (nd_fork_db n)) in Hrun by done.
  rewrite (same_ancestor (nd_fork_db n)) in Ha by done.
  exists n3. cbn [path pop_branch ancestor]. rewrite Hq. cbn.
  rewrite (st_bind_run _ _ _ _ _ (in_fork_db_run _ _ _ _ Hm)), (st_bind_run _ _ _ _ _ Hp).
  split_and!; try done; [by etrans|]. rewrite Hst3, Hst2. unfold states. by rewrite Hu.
Qed.

(** ** Applying blocks again *)
Lemma reapply_app ne l1 l2 n n1 :
  reapply ne l1 n = (n1, Ok tt) → reapply ne (l1 ++ l2) n = reapply ne l2 n1.
Proof.
  revert n. induction l1 as [|p l1 IH]; intros n; simpl; [by intros [= ->]|]. intros H. inv_st.
  rewrite (st_bind_run _ _ _ _ _ Hrun), (st_bind_run _ _ _ _ _ Hrun0), (st_bind_run _ _ _ _ _ Hrun1),
    (st_bind_run _ _ _ _ _ Hrun2). by apply IH.
Qed.

(** The marks of a block that has become the head. *)
Lemma mark_head n p :
  in_step n → p ∈ by_prev (nd_fork_db n) →
  ∃ f', in_fork_db (mark_in_current_chain p true) n = (set_fork_db n f', Ok tt) ∧ in_step (set_fork_db n f') ∧
    same_blocks (nd_fork_db n) f'.
Proof.
  intros Hn Hp. destruct (mark_run _ p true (is_wf _ Hn) Hp) as (f' & Hm & Hwf & Hs).
  exists f'. split; [by apply in_fork_db_run|]. split; [by apply same_in_step|done].
Qed.

Lemma reapply_run ne f k :
  db_wf f → no_session ne validated = false → ∀ p cs n,
  in_step n → same_blocks f (nd_fork_db n) → p ∈ by_prev f → history f p cs → (k < length cs)%nat →
  ancestor f k p = Some (nd_head n) → states n = drop k cs →
  ∃ n', reapply ne (reverse (path f k p)) n = (n', Ok tt) ∧ in_step n' ∧ same_blocks f (nd_fork_db n') ∧
    nd_head n' = p ∧ states n' = cs.
Proof.
  intros Hwf Hns. induction k as [|k IH]; intros p cs n Hn Hs Hp Hh Hk Ha Hst.
  { injection Ha as ->. by exists n. }
  destruct Hh as [|p q c c0 cs Hq Hex Hh]; [simpl in Hk; lia|]. cbn [ancestor path] in *. rewrite Hq in *. cbn in Ha.
  destruct (IH q (c0 :: cs) n) as (n1 & Hrun & Hn1 & Hs1 & <- & Hst1); try done; [by eapply parent_indexed|simpl in *; lia|].
  rewrite reverse_cons, (reapply_app _ _ _ _ _ Hrun). cbn [reapply].
  assert (p ∈ by_prev (nd_fork_db n1)) as Hp1 by by rewrite (sb_prev _ _ Hs1).
  destruct (dw_alloc _ (is_wf _ Hn1) _ Hp1) as [s Hs'].
  rewrite (st_bind_run _ _ _ _ _ (in_fork_db_read _ n1 _ (deref_run _ _ _ Hs'))).
  apply states_inv in Hst1 as Hst1'. destruct Hst1' as [Hc0 _].
  apply (same_executes _ _ _ _ _ Hs1) in Hex. rewrite <-Hc0 in Hex.
  destruct (apply_on_head ne validated n1 p s) as [(c' & n2 & Hap & Hf2 & Hn2 & Hst2 & Hex2)|(e & n2 & _ & _ & _ & Hno)];
    try done; [by rewrite (same_parent f)| |by destruct (Hno c)].
  rewrite (st_bind_run _ _ _ _ _ Hap).
  assert (c' = c) as ->.
  { destruct Hex as (? & ? & ? & ? & ? & ? & ? & ? & ? & E1), Hex2 as (? & ? & ? & ? & ? & ? & ? & ? & ? & E2).
    simplify_eq. rewrite E1 in E2. by injection E2. }
  rewrite (st_bind_run (set_node_head p) _ n2 (with_head p n2) tt) by done.
  destruct (mark_head (with_head p n2) p Hn2) as (f3 & Hm & Hn3 & Hs3); [by cbn; rewrite Hf2|].
  rewrite (st_bind_run _ _ _ _ _ Hm). eexists. split; [done|]. split; [done|]. cbn in *. rewrite Hf2 in Hs3.
  split; [by etrans|]. split; [done|]. by rewrite set_fork_db_states; change (states (with_head p n2)) with (states n2); rewrite Hst2, Hst1.
Qed.

(** ** Removing a bad block *)
Record removed f (i : digest) f' : Prop := {
  rm_heap : heap f' = heap f;
  rm_prev : ∀ p, p ∈ by_prev f' ↔ p ∈ by_prev f ∧ ¬ under f i p;
  rm_wf : db_wf f';
}.

Lemma set_invalid_run f p s x :
  db_wf f → heap f !! p = Some s → x ∈ by_prev f → ¬ under f (bs_id s) x →
  ∃ f', set_validity p false f = (f', Ok tt) ∧ removed f (bs_id s) f'.
Proof.
  intros Hwf Hs Hx Hu. unfold set_validity. rewrite (st_bind_run _ _ _ _ _ (deref_run _ _ _ Hs)). cbn [negb].
  destruct (remove (bs_id s) f) as [f' r] eqn:E. pose proof (remove_wf (bs_id s) f Hwf) as Hwf'. rewrite E in Hwf'.
  apply remove_exact in E as (Hh & Hp & _ & _ & _ & _ & Hr); [|done].
  assert (x ∈ by_prev f') as Hx' by by apply Hp. destruct (by_prev f') eqn:El; [by apply elem_of_nil in Hx'|].
  destruct Hr as [-> _]. exists f'. split; [done|]. split; [done| |done]. intros q. by rewrite El, Hp.
Qed.

Lemma under_parent f i p q : db_wf f → p ∈ by_prev f → parent f p = Some q → under f i q → under f i p.
Proof.
  intros Hwf Hp Hq Hu. unfold parent in Hq. destruct (heap f !! p) as [s|] eqn:Hs; [|done].
  apply find_id_Some in Hq as [Hq Hid]; [|done]. eapply under_step; [done..|]. unfold has_prev. by rewrite Hs.
Qed.

Lemma removed_parent f i f' p :
  db_wf f → removed f i f' → p ∈ by_prev f → ¬ under f i p → parent f' p = parent f p.
Proof.
  intros Hwf [Hh Hp Hwf'] Hin Hu. destruct (parent f p) as [q|] eqn:Hq; unfold parent in *; rewrite Hh.
  - destruct (heap f !! p) as [s|] eqn:Hs; [|done]. cbn in *. pose proof Hq as [Hqi Hid]%find_id_Some_1.
    apply find_id_Some; [done|]. rewrite Hp, Hh. split_and!; try done. intros Hu'. apply Hu.
    eapply under_parent; [done|done| |done]. unfold parent. by rewrite Hs.
  - destruct (heap f !! p) as [s|] eqn:Hs; [|done]. cbn in *. rewrite find_id_None in *. rewrite Hh.
    intros q [Hqi _]%Hp. by apply Hq.
Qed.

Lemma parent_not_under f i p q :
  db_wf f → p ∈ by_prev f → ¬ under f i p → parent f p = Some q → q ∈ by_prev f ∧ ¬ under f i q.
Proof.
  intros Hwf Hp Hu Hq. split; [by eapply parent_indexed|]. intros Hu'. by eapply Hu, under_parent.
Qed.

Lemma removed_path f i f' k p :
  db_wf f → removed f i f' → p ∈ by_prev f → ¬ under f i p →
  path f' k p = path f k p ∧ ancestor f' k p = ancestor f k p.
Proof.
  intros Hwf Hr. revert p. induction k as [|k IH]; intros p Hp Hu; [done|]. cbn [path ancestor].
  rewrite (removed_parent f i f') by done. destruct (parent f p) as [q|] eqn:Hq; [|done].
  destruct (parent_not_under f i p q) as [Hq' Hu']; try done. by destruct (IH q Hq' Hu') as [-> ?].
Qed.

Lemma removed_history f i f' p cs :
  db_wf f → removed f i f' → p ∈ by_prev f → ¬ under f i p → history f p cs → history f' p cs.
Proof.
  intros Hwf Hr Hp Hu Hh. induction Hh as [p c|p q c c0 cs Hq Hex Hh IH]; [constructor|].
  destruct (parent_not_under f i p q) as [Hq' Hu']; try done.
  econstructor; [by rewrite (removed_parent f i f')| |by apply IH].
  destruct Hex as (s & q' & t & b & ? & ? & ? & ? & ? & ?). exists s, q', t, b.
  rewrite (rm_heap _ _ _ Hr), (removed_parent f i f') by done. by split_and!.
Qed.

Lemma removed_linked f i f' : removed f i f' → db_linked f → db_linked f'.
Proof. intros [Hh Hp _]. apply db_linked_sub. split; [done|]. intros p. by intros [? _]%Hp. Qed.

Lemma removed_in_step n i f' :
  in_step n → removed (nd_fork_db n) i f' → ¬ under (nd_fork_db n) i (nd_head n) → in_step (set_fork_db n f').
Proof.
  intros [] Hr Hu. pose proof (rm_heap _ _ _ Hr) as Hh. split; cbn; rewrite ?Hh; try done.
  - by apply Hr.
  - by eapply removed_linked.
  - by apply Hr.
  - by eapply removed_history.
  - intros p q s Hq Hs. apply (is_blocks0 p q); [|done].
    unfold parent in *. rewrite Hh, Hs in *. cbn in *.
    pose proof Hq as [Hqi Hid]%find_id_Some_1. apply find_id_Some; [done|]. rewrite Hh in Hid.
    split; [|done]. by apply Hr in Hqi as [? _].
Qed.

Lemma same_under f f' i p : same_blocks f f' → under f' i p → under f i p.
Proof.
  intros Hs. assert (∀ j q, has_id (heap f') j q → has_id (heap f) j q) as Hid.
  { intros j q. unfold has_id. by rewrite (same_key bs_id f f' q Hs) by (intros ? ? E%core_bhs; unfold bs_id; by rewrite E). }
  assert (∀ j q, has_prev (heap f') j q → has_prev (heap f) j q) as Hpr.
  { intros j q. unfold has_prev. by rewrite (same_key bs_prev f f' q Hs) by (intros ? ? E%core_bhs; unfold bs_prev; by rewrite E). }
  induction 1 as [q Hq Hi|q Hq Hi|q j r Hu IH Hj Hr Hi]; rewrite (sb_prev _ _ Hs) in *.
  - apply under_self; auto.
  - apply under_child; auto.
  - eapply under_step; eauto.
Qed.
Lemma same_blocks_sym f f' : same_blocks f f' → same_blocks f' f.
Proof. by intros []. Qed.

(** ** The switch *)
Lemma path_last f k p q :
  ancestor f (S k) p = Some q → ∃ b, last (path f (S k) p) = Some b ∧ parent f b = Some q.
Proof.
  revert p. induction k as [|k IH]; intros p H; cbn [ancestor path] in *.
  - exists p. destruct (parent f p); done.
  - destruct (parent f p) as [r|] eqn:Hr; [|done]. cbn in H. destruct (IH r H) as (b & Hl & Hb).
    exists b. split; [|done]. by rewrite last_cons, Hl.
Qed.

Lemma check_sync_run n second b :
  in_step n → last second = Some b → parent (nd_fork_db n) b = Some (nd_head n) → check_sync second n = (n, Ok tt).
Proof.
  intros Hn Hl Hb. destruct (dw_alloc _ (is_wf _ Hn) _ (is_head _ Hn)) as [h Hh].
  unfold check_sync. rewrite st_get_run, (st_bind_run _ _ _ _ _ (in_fork_db_read _ n _ (deref_run _ _ _ Hh))), Hl.
  cbn [of_option]. rewrite st_lift_run. unfold parent in Hb.
  destruct (heap (nd_fork_db n) !! b) as [s|] eqn:Hs; [|done]. cbn in Hb.
  rewrite (st_bind_run _ _ _ _ _ (in_fork_db_read _ n _ (deref_run _ _ _ Hs))).
  apply find_id_Some_1 in Hb as [_ Hid]. unfold has_id in Hid. rewrite Hh in Hid. injection Hid as Hid.
  unfold st_assert. by rewrite bool_decide_eq_true_2.
Qed.

(** Blocks each of which builds on the one before it. *)
Fixpoint ascends f (r : ptr) (todo : list ptr) : Prop :=
  match todo with
  | [] => True
  | p :: todo => parent f p = Some r ∧ p ∈ by_prev f ∧ ascends f p todo
  end.

(** The chain of [n0] again, in [n], without the blocks that build on [bad]. *)
Definition restored f (p0 : ptr) (cs0 : list chain_state) (bad : ptr) n : Prop :=
  in_step n ∧ nd_head n = p0 ∧ states n = cs0 ∧
  ∃ s, heap f !! bad = Some s ∧ ∀ p, p ∈ by_prev (nd_fork_db n) ↔ p ∈ by_prev f ∧ ¬ under f (bs_id s) p.

Lemma parent_not_above f p s q :
  db_wf f → db_linked f → p ∈ by_prev f → heap f !! p = Some s → parent f p = Some q → ¬ under f (bs_id s) q.
Proof.
  intros Hwf Hlk Hpin Hps Hp Hu. destruct (has_num_alloc f p Hwf Hpin) as [k Hk].
  destruct (parent_num _ _ _ _ Hwf Hlk Hpin Hk Hp) as [_ Hk'].
  assert (has_id (heap f) (bs_id s) p) as Hid by (unfold has_id; by rewrite Hps).
  destruct (under_num f (bs_id s) p k q (k - 1) Hwf Hlk Hpin Hid Hk Hu Hk') as [E|?]; [|lia].
  rewrite E in Hk'. unfold has_num in *. rewrite Hk in Hk'. injection Hk'. lia.
Qed.

Section branch.
Context (ne : node_env) (f : fork_database) (p0 : ptr) (cs0 : list chain_state) (K : nat).
Hypothesis (Hv : no_session ne validated = false) (Hc : no_session ne complete = false)
  (Hwf : db_wf f) (Hlk : db_linked f) (Hp0 : p0 ∈ by_prev f) (Hhist : history f p0 cs0) (HK : (S K < length cs0)%nat).

(** Removing a block of the better fork that builds on the head: what is left of the two branches. *)
Lemma remove_bad i n p s :
  in_step n → same_blocks f (nd_fork_db n) →
  parent f p = Some (nd_head n) → p ∈ by_prev f → heap f !! p = Some s → ¬ under f (bs_id s) p0 →
  ∃ f2, set_validity p false (nd_fork_db n) = (f2, Ok tt) ∧ in_step (set_fork_db n f2) ∧ db_wf f2 ∧
    (path f2 i (nd_head n) = path f i (nd_head n) ∧ ancestor f2 i (nd_head n) = ancestor f i (nd_head n)) ∧
    (path f2 (S K) p0 = path f (S K) p0 ∧ ancestor f2 (S K) p0 = ancestor f (S K) p0) ∧
    history f2 p0 cs0 ∧ ∀ x, x ∈ by_prev f2 ↔ x ∈ by_prev f ∧ ¬ under f (bs_id s) x.
Proof.
  intros Hn Hs Hp Hpin Hps Hu0.
  pose proof (parent_not_above f p s (nd_head n) Hwf Hlk Hpin Hps Hp) as Huh.
  assert (∀ x, under (nd_fork_db n) (bs_id s) x ↔ under f (bs_id s) x) as Hun.
  { intros x. split; apply same_under; [done|by apply same_blocks_sym]. }
  destruct (dw_alloc _ (is_wf _ Hn) p) as [s' Hs']; [by rewrite (sb_prev _ _ Hs)|].
  destruct (same_block _ _ _ _ Hs Hs') as (s0 & Hs0 & Eb & _). assert (s0 = s) as -> by congruence.
  assert (bs_id s' = bs_id s) as Eid by (unfold bs_id; by rewrite Eb).
  destruct (set_invalid_run (nd_fork_db n) p s' (nd_head n) (is_wf _ Hn) Hs' (is_head _ Hn)) as (f2 & Hr & Hrm);
    [by rewrite Eid, Hun|]. rewrite Eid in Hrm. exists f2.
  assert (∀ k x, x ∈ by_prev f → ¬ under f (bs_id s) x →
            path f2 k x = path f k x ∧ ancestor f2 k x = ancestor f k x) as Hpa.
  { intros k x Hx Hux. rewrite <-(same_path f (nd_fork_db n)), <-(same_ancestor f (nd_fork_db n)) by done.
    apply (removed_path _ (bs_id s)); [apply (is_wf _ Hn)|done|by rewrite (sb_prev _ _ Hs)|by rewrite Hun]. }
  pose proof (is_head _ Hn) as Hhd. rewrite (sb_prev _ _ Hs) in Hhd.
  split_and!; try done; try by apply Hpa.
  - eapply removed_in_step; [done|exact Hrm|by rewrite Hun].
  - by apply Hrm.
  - eapply removed_history; [apply (is_wf _ Hn)|exact Hrm|by rewrite (sb_prev _ _ Hs)|by rewrite Hun|by eapply same_history].
  - intros x. by rewrite (rm_prev _ _ _ Hrm), (sb_prev _ _ Hs), Hun.
Qed.

(** The blocks of the better fork that were applied go, and those of the old one come back. *)
Lemma roll_back i n p s e :
  in_step n → same_blocks f (nd_fork_db n) → (i <= length (nd_undo n))%nat →
  ancestor f i (nd_head n) = ancestor f (S K) p0 → drop i (states n) = drop (S K) cs0 →
  parent f p = Some (nd_head n) → p ∈ by_prev f → heap f !! p = Some s → ¬ under f (bs_id s) p0 →
  ∃ n', (_ ← in_fork_db (set_validity p false);
         _ ← pop_branch ne (path f i (nd_head n));
         _ ← check_sync (path f (S K) p0);
         _ ← reapply ne (reverse (path f (S K) p0));
         st_throw e : stM node unit) n = (n', Throw e) ∧ restored f p0 cs0 p n'.
Proof.
  intros Hn Hs Hi Ha Hd Hp Hpin Hps Hu0.
  destruct (remove_bad i n p s) as (f2 & Hr & Hn2 & Hwf2 & [Epath Eanc] & [Ep0 Ea0] & Hh2 & Hin2); try done.
  rewrite (st_bind_run _ _ _ _ _ (in_fork_db_run _ n _ _ Hr)).
  destruct (pop_branch_run ne i (set_fork_db n f2) Hn2 Hi) as (n3 & Hpop & Hn3 & Hs3 & Ha3 & Hst3).
  cbn in Hpop, Hs3, Ha3. rewrite set_fork_db_states in Hst3. rewrite Epath in Hpop. rewrite Eanc, Ha, <-Ea0 in Ha3.
  rewrite (st_bind_run _ _ _ _ _ Hpop).
  destruct (path_last f2 K p0 _ Ha3) as (b & Hl & Hb).
  rewrite Ep0 in Hl. rewrite <-(same_parent f2 (nd_fork_db n3)) in Hb by done.
  rewrite (st_bind_run _ _ _ _ _ (check_sync_run _ _ _ Hn3 Hl Hb)).
  destruct (reapply_run ne f2 (S K) Hwf2 Hv p0 cs0 n3) as (n4 & Hre & Hn4 & Hs4 & Hh4 & Hst4);
    try done; [by apply Hin2|by rewrite Hst3|].
  rewrite Ep0 in Hre. rewrite (st_bind_run _ _ _ _ _ Hre).
  exists n4. split; [done|]. split_and!; try done. exists s. split; [done|].
  intros x. by rewrite (sb_prev _ _ Hs4).
Qed.

(** One block of the better fork. *)
Lemma apply_next n p s st :
  in_step n → same_blocks f (nd_fork_db n) → no_session ne st = false →
  parent f p = Some (nd_head n) → p ∈ by_prev f → heap (nd_fork_db n) !! p = Some s →
  let m := (_ ← apply_block ne (block s) st; _ ← set_node_head p;
            _ ← in_fork_db (mark_in_current_chain p true);
            in_fork_db (st_modify (λ f, set_heap f (alter (λ s, set_validated s true) p (heap f)))) : stM node unit) in
  (∃ c n', m n = (n', Ok tt) ∧ in_step n' ∧ same_blocks f (nd_fork_db n') ∧ nd_head n' = p ∧ states n' = c :: states n) ∨
  (∃ e n', m n = (n', Throw e) ∧ is_fc_exception e = true ∧ same_chain n n').
Proof.
  intros Hn Hs Hst Hp Hpin Hps. assert (p ∈ by_prev (nd_fork_db n)) as Hpn by by rewrite (sb_prev _ _ Hs).
  destruct (apply_on_head ne st n p s) as [(c & n1 & Hap & Hf1 & Hn1 & Hst1 & _)|(e & n1 & Hap & Hfc & Hsc & _)];
    try done; [by rewrite (same_parent f)|left|right]; cbv zeta.
  - rewrite (st_bind_run _ _ _ _ _ Hap), (st_bind_run (set_node_head p) _ n1 (with_head p n1) tt) by done.
    destruct (mark_head (with_head p n1) p Hn1) as (f2 & Hm & Hn2 & Hs2); [by cbn; rewrite Hf1|].
    rewrite (st_bind_run _ _ _ _ _ Hm). destruct (set_validated_run f2 p (is_wf _ Hn2)) as [Hwf3 Hs3].
    eexists c, _. split; [done|]. split; [by apply (same_in_step (set_fork_db (with_head p n1) f2))|].
    split; [|by split; [|rewrite <-Hst1]]. cbn in *. rewrite Hf1 in Hs2. etrans; [done|]. by etrans.
  - exists e, n1. split; [by rewrite (st_bind_throw _ _ _ _ _ Hap)|done].
Qed.

Lemma same_chain_roll n n' : same_chain n n' → states n' = states n.
Proof. intros []. unfold states. congruence. Qed.

Lemma apply_branch_run todo : ∀ i n,
  in_step n → same_blocks f (nd_fork_db n) → (i <= length (nd_undo n))%nat →
  ancestor f i (nd_head n) = ancestor f (S K) p0 → drop i (states n) = drop (S K) cs0 →
  ascends f (nd_head n) todo → (∀ p s, p ∈ todo → heap f !! p = Some s → ¬ under f (bs_id s) p0) →
  ∃ n' r, apply_branch ne (path f (S K) p0) (path f i (nd_head n)) todo n = (n', r) ∧
    match r with
    | Ok _ => in_step n' ∧ same_blocks f (nd_fork_db n') ∧ nd_head n' = default (nd_head n) (last todo) ∧
        drop (i + length todo) (states n') = drop (S K) cs0
    | Throw e => is_fc_exception e = true ∧ ∃ bad, bad ∈ todo ∧ restored f p0 cs0 bad n'
    end.
Proof.
  induction todo as [|p todo IH]; intros i n Hn Hs Hi Ha Hd Hasc Hno.
  { exists n, (Ok tt). rewrite Nat.add_0_r. by split_and!. }
  destruct Hasc as (Hp & Hpin & Hasc). cbn [apply_branch].
  destruct (dw_alloc _ (is_wf _ Hn) p) as [s Hps]; [by rewrite (sb_prev _ _ Hs)|].
  destruct (apply_next n p s (if ForkDb.validated s then validated else complete)) as
    [(c & n1 & Hm & Hn1 & Hs1 & Hh1 & Hst1)|(e & n1 & Hm & Hfc & Hsc)]; try done; [by destruct (ForkDb.validated s)|..];
    cbv zeta in Hm; pose proof (in_fork_db_read _ n _ (deref_run _ _ _ Hps)) as Hde.
  - rewrite (st_bind_run (st_catch _ _) _ n n1 tt) by (unfold st_catch; by rewrite (st_bind_run _ _ _ _ _ Hde), Hm).
    destruct (IH (S i) n1) as (n' & r & Hrun & Hr); try done.
    + apply states_inv in Hst1 as [_ ->]. simpl. lia.
    + rewrite Hh1. cbn [ancestor]. by rewrite Hp.
    + by rewrite Hst1.
    + by rewrite Hh1.
    + intros q t Hq. apply Hno. by right.
    + rewrite Hh1 in Hrun, Hr. cbn [path] in Hrun. rewrite Hp in Hrun. exists n', r. split; [done|].
      destruct r as [u|e]; [|destruct Hr as (? & bad & ? & ?); split; [done|]; exists bad; split; [by right|done]].
      destruct Hr as (? & ? & -> & ?). split_and!; try done; [by rewrite last_cons; destruct (last todo)|].
      simpl. by rewrite Nat.add_succ_r.
  - pose proof (same_chain_in_step _ _ Hsc Hn) as Hn1. pose proof (same_chain_roll _ _ Hsc) as Hst1.
    pose proof (sc_fork _ _ Hsc) as Hf1. pose proof (sc_head _ _ Hsc) as Hh1. pose proof (sc_undo _ _ Hsc) as Hu1.
    destruct (same_block _ _ _ _ Hs Hps) as (s0 & Hs0 & Eb & _).
    destruct (roll_back i n1 p s0 e) as (n' & Hrun & Hre); rewrite ?Hf1, ?Hh1, ?Hu1, ?Hst1; try done.
    { apply (Hno p); [left|done]. }
    exists n', (Throw e). split; [|split; [done|]; exists p; split; [left|done]].
    rewrite (st_bind_throw (st_catch _ _) _ n n' e); [done|].
    unfold st_catch. rewrite (st_bind_run _ _ _ _ _ Hde), Hm, Hfc. by rewrite Hh1 in Hrun.
Qed.

End branch.

Lemma has_prev_parent f p q j : db_wf f → q ∈ by_prev f → has_id (heap f) j q → has_prev (heap f) j p → parent f p = Some q.
Proof.
  intros Hwf Hq Hj Hp. unfold parent, has_prev in *. destruct (heap f !! p) as [s|]; [|done]. injection Hp as Hp.
  cbn. apply find_id_Some; [done|]. by rewrite Hp.
Qed.

Lemma under_ancestor f p s x :
  db_wf f → p ∈ by_prev f → heap f !! p = Some s → under f (bs_id s) x → ∃ k, ancestor f k x = Some p.
Proof.
  intros Hwf Hp Hs. assert (has_id (heap f) (bs_id s) p) as Hid by (unfold has_id; by rewrite Hs).
  induction 1 as [x Hx Hi|x Hx Hi|q j x Hu [k IH] Hj Hx Hi].
  - exists 0%nat. cbn. f_equal. by eapply dw_id_inj.
  - exists 1%nat. cbn. by rewrite (has_prev_parent f x p (bs_id s)).
  - exists (S k). cbn. rewrite (has_prev_parent f x q j); [done|done|by eapply under_indexed|done|done].
Qed.

Lemma ancestor_under f p s x k :
  db_wf f → x ∈ by_prev f → ancestor f k x = Some p → heap f !! p = Some s → under f (bs_id s) x.
Proof.
  intros Hwf. revert x. induction k as [|k IH]; intros x Hx Ha Hs; cbn [ancestor] in Ha.
  - injection Ha as ->. apply under_self; [done|]. unfold has_id. by rewrite Hs.
  - destruct (parent f x) as [q|] eqn:Hq; [|done]. eapply under_parent; [done|done|exact Hq|].
    apply IH; [by eapply parent_indexed|done|done].
Qed.

Lemma ascends_app f r l p :
  ascends f r l → parent f p = Some (default r (last l)) → p ∈ by_prev f → ascends f r (l ++ [p]).
Proof.
  revert r. induction l as [|q l IH]; intros r; cbn [ascends app]; [done|].
  intros (? & ? & ?) Hp ?. split_and!; try done. apply IH; try done. rewrite Hp, last_cons. by destruct (last l).
Qed.

Lemma ascends_path f k : db_wf f → ∀ p r,
  p ∈ by_prev f → ancestor f (S k) p = Some r →
  ascends f r (reverse (path f (S k) p)) ∧ last (reverse (path f (S k) p)) = Some p.
Proof.
  intros Hwf. induction k as [|k IH]; intros p r Hp Ha; cbn [ancestor path] in *.
  - destruct (parent f p) as [q|] eqn:Hq; [|done]. injection Ha as ->. by rewrite reverse_singleton.
  - destruct (parent f p) as [q|] eqn:Hq; [|done]. cbn in Ha.
    destruct (IH q r) as [Has Hl]; [by eapply parent_indexed|done|].
    rewrite reverse_cons, last_snoc. split; [|done]. apply ascends_app; [done| |done].
    cbn [path] in Hl. by rewrite Hl, Hq.
Qed.

(** Two histories that part: no block of the one is in the other. *)
Lemma branches_part f new hd j1 j2 a b i k p mn mh :
  db_wf f → db_linked f → new ∈ by_prev f → hd ∈ by_prev f →
  has_num (heap f) mn new → has_num (heap f) mh hd →
  ancestor f j1 new = Some a → ancestor f j2 hd = Some b → bs_num <$> heap f !! a = bs_num <$> heap f !! b →
  (∀ i1 i2 x y, (i1 < j1)%nat → (i2 < j2)%nat → ancestor f i1 new = Some x → ancestor f i2 hd = Some y →
     bs_num <$> heap f !! x = bs_num <$> heap f !! y → ¬ same_prev f x y) →
  (∀ i, ancestor f i new ≠ Some hd) → (∀ i, ancestor f i hd ≠ Some new) →
  (i <= j1)%nat → ancestor f i new = Some p → ancestor f k hd = Some p → False.
Proof.
  intros Hwf Hlk Hn Hh Hmn Hmh Ha Hb Hab Hmin Hnh Hhn Hi Hp Hp'.
  destruct (ancestor_num f j1 new a mn) as [_ Ea]; try done. destruct (ancestor_num f j2 hd b mh) as [_ Eb]; try done.
  destruct (ancestor_num f i new p mn) as [_ Ei]; try done. destruct (ancestor_num f k hd p mh) as [_ Ek]; try done.
  unfold has_num in *. rewrite Ea, Eb in Hab. rewrite Ei in Ek. simplify_eq.
  destruct (decide (i < j1)%nat) as [Hlt|Hge].
  { apply (Hmin i k p p); try done. lia. }
  assert (i = j1) as -> by lia. assert (k = j2) as -> by lia. simplify_eq.
  destruct j1 as [|j1]; [injection Ha as ->; by apply (Hhn j2)|].
  destruct j2 as [|j2]; [injection Hb as ->; by apply (Hnh (S j1))|].
  rewrite <-Nat.add_1_r in Ha, Hb. rewrite ancestor_add in Ha, Hb.
  destruct (ancestor f j1 new) as [x|] eqn:Ex; [|done]. destruct (ancestor f j2 hd) as [y|] eqn:Ey; [|done]. cbn in Ha, Hb.
  destruct (parent f x) as [x'|] eqn:Epx; [|done]. destruct (parent f y) as [y'|] eqn:Epy; [|done]. simplify_eq/=.
  apply (Hmin j1 j2 x y); try done; try lia.
  - destruct (ancestor_num f j1 new x mn) as [_ E1]; try done. destruct (ancestor_num f j2 hd y mh) as [_ E2]; try done.
    unfold has_num in *. rewrite E1, E2. f_equal. lia.
  - unfold same_prev, parent in *. destruct (heap f !! x) as [sx|]; [|done]. destruct (heap f !! y) as [sy|]; [|done].
    cbn in *. apply find_id_Some_1 in Epx as [_ E1], Epy as [_ E2]. f_equal. by eapply has_id_fun.
Qed.

Lemma last_drop {A} k (l : list A) : drop k l ≠ [] → last (drop k l) = last l.
Proof.
  intros H. rewrite <-(take_drop k l) at 2. rewrite last_app. destruct (last (drop k l)) eqn:E; [done|].
  by apply last_None in E.
Qed.
Lemma drop_last_eq {A} i k (l l' : list A) : drop i l = drop k l' → (k < length l')%nat → last l = last l'.
Proof.
  intros H Hk. assert (drop k l' ≠ []) as Hne by (intros E%(f_equal length); rewrite length_drop in E; simpl in E; lia).
  rewrite <-(last_drop k l') by done. rewrite <-H, last_drop; [done|]. by rewrite H.
Qed.

(** The best fork can be reached: it extends the chain by a block, or it is the chain, or the two part
    at a block that can still be undone to. *)
Definition reachable_head n (new : ptr) : Prop :=
  let f := nd_fork_db n in
  parent f new = Some (nd_head n) ∨ new = nd_head n ∨
  (∀ i, ancestor f i new ≠ Some (nd_head n)) ∧ (∀ i, ancestor f i (nd_head n) ≠ Some new) ∧
  ∃ i k a b, ancestor f i new = Some a ∧ ancestor f k (nd_head n) = Some b ∧ same_prev f a b ∧
    bs_num <$> heap f !! a = bs_num <$> heap f !! b ∧ (k < length (nd_undo n))%nat.

(** What a switch to [new] comes to. *)
Definition switched n (new : ptr) n' (r : result unit) : Prop :=
  in_step n' ∧
  match r with
  | Ok _ => nd_head n' = new ∧ last (states n') = last (states n) ∧ same_blocks (nd_fork_db n) (nd_fork_db n')
  | Throw e => nd_head n' = nd_head n ∧ states n' = states n ∧
      ∃ i bad s, ancestor (nd_fork_db n) i new = Some bad ∧ heap (nd_fork_db n) !! bad = Some s ∧
        ∀ p, p ∈ by_prev (nd_fork_db n') ↔ p ∈ by_prev (nd_fork_db n) ∧ ¬ under (nd_fork_db n) (bs_id s) p
  end.

(** The head is extended. *)
Lemma extend_head ne st n new t :
  in_step n → no_session ne st = false → new ∈ by_prev (nd_fork_db n) → heap (nd_fork_db n) !! new = Some t →
  parent (nd_fork_db n) new = Some (nd_head n) →
  ∃ n' r, st_catch
      (_ ← apply_block ne (block t) st;
       _ ← in_fork_db (mark_in_current_chain new true);
       _ ← in_fork_db (set_validity new true);
       set_node_head new)
      (λ e, _ ← in_fork_db (set_validity new false); st_throw e) n = (n', r) ∧ switched n new n' r.
Proof.
  intros Hn Hst Hin Ht Hp.
  destruct (apply_on_head ne st n new t) as [(c & n1 & Hap & Hf1 & Hn1 & Hst1 & _)|(e & n1 & Hap & Hfc & Hsc & _)]; try done.
  - destruct (mark_run (nd_fork_db n1) new true) as (f2 & Hm & Hwf2 & Hs2); [apply (is_wf _ Hn1)|by rewrite Hf1|].
    destruct (set_validated_run f2 new Hwf2) as [Hwf3 Hs3]. rewrite Hf1 in Hs2.
    destruct (dw_alloc _ Hwf2 new) as [t2 Ht2]; [by rewrite (sb_prev _ _ Hs2)|].
    assert (set_validity new true f2 = (set_heap f2 (alter (λ s, set_validated s true) new (heap f2)), Ok tt)) as Hval.
    { unfold set_validity. by rewrite (st_bind_run _ _ _ _ _ (deref_run _ _ _ Ht2)). }
    eexists _, (Ok tt). split.
    { unfold st_catch. rewrite (st_bind_run _ _ _ _ _ Hap), (st_bind_run _ _ _ _ _ (in_fork_db_run _ n1 _ _ Hm)).
      by rewrite (st_bind_run _ _ _ _ _ (in_fork_db_run _ (set_fork_db n1 f2) _ _ Hval)). }
    assert (same_blocks (nd_fork_db n) (set_heap f2 (alter (λ s, set_validated s true) new (heap f2)))) as Hs by by etrans.
    split; [|split_and!; [done| |done]].
    + apply (same_in_step (with_head new n1)); cbn; [done|done|by rewrite Hf1].
    + change (last (states n1) = last (states n)). by rewrite Hst1.
  - pose proof (sc_fork _ _ Hsc) as Hf1. pose proof (same_chain_in_step _ _ Hsc Hn) as Hn1.
    pose proof (is_wf _ Hn) as Hwf. pose proof (is_linked _ Hn) as Hlk.
    pose proof (parent_not_above _ _ _ _ Hwf Hlk Hin Ht Hp) as Hu.
    destruct (remove_bad (nd_fork_db n) (nd_head n) (states n) 0 Hwf Hlk (is_head _ Hn) (is_history _ Hn) 0 n1 new t)
      as (f2 & Hr & Hn2 & _ & _ & _ & _ & Hin2); try done; [by rewrite Hf1|by rewrite (sc_head _ _ Hsc)|].
    exists (set_fork_db n1 f2), (Throw e). split.
    { unfold st_catch. rewrite (st_bind_throw _ _ _ _ _ Hap), Hfc. by rewrite (st_bind_run _ _ _ _ _ (in_fork_db_run _ n1 _ _ Hr)). }
    split; [done|]. split; [by apply Hsc|]. split; [exact (same_chain_roll _ _ Hsc)|]. by exists 0%nat, new, t.
Qed.

Lemma same_prev_parent f x y : same_prev f x y → parent f x = parent f y.
Proof. unfold same_prev, parent. destruct (heap f !! x), (heap f !! y); intros; simplify_eq/=; congruence. Qed.

(** The other fork is taken. *)
Lemma change_branch ne n new t h :
  no_session ne validated = false → no_session ne complete = false →
  in_step n → new ∈ by_prev (nd_fork_db n) → heap (nd_fork_db n) !! new = Some t →
  heap (nd_fork_db n) !! nd_head n = Some h →
  (∀ i, ancestor (nd_fork_db n) i new ≠ Some (nd_head n)) → (∀ i, ancestor (nd_fork_db n) i (nd_head n) ≠ Some new) →
  (∃ i k a b, ancestor (nd_fork_db n) i new = Some a ∧ ancestor (nd_fork_db n) k (nd_head n) = Some b ∧
     same_prev (nd_fork_db n) a b ∧ bs_num <$> heap (nd_fork_db n) !! a = bs_num <$> heap (nd_fork_db n) !! b ∧
     (k < length (nd_undo n))%nat) →
  ∃ n' r, ('(first, second) ← in_fork_db (fetch_branch_from (bs_id t) (bs_id h));
           _ ← pop_branch ne second;
           _ ← check_sync second;
           apply_branch ne second [] (reverse first)) n = (n', r) ∧ switched n new n' r.
Proof.
  intros Hv Hc Hn Hin Ht Hh Hnh Hhn (i & k & a & b & Ha & Hb & Hab & Hnum & Hk).
  pose proof (is_wf _ Hn) as Hwf. pose proof (is_linked _ Hn) as Hlk. pose proof (is_head _ Hn) as Hhd.
  set (f := nd_fork_db n) in *.
  assert (find_id f (bs_id t) = Some new) as Hfn by (apply find_id_Some; [done|]; unfold has_id; by rewrite Ht).
  assert (find_id f (bs_id h) = Some (nd_head n)) as Hfh by (apply find_id_Some; [done|]; unfold has_id; by rewrite Hh).
  destruct (fetch_branch_correct f _ _ _ _ i k a b Hwf Hlk Hfn Hfh Ha Hb Hab Hnum)
    as (j1 & j2 & a' & b' & Hfetch & _ & Hj2 & Ha' & Hb' & Hab' & Hnum' & Hmin).
  rewrite (st_bind_run _ _ _ _ _ (in_fork_db_read _ n _ Hfetch)).
  destruct (pop_branch_run ne (S j2) n Hn) as (n1 & Hpop & Hn1 & Hs1 & Hanc & Hst1); [lia|].
  rewrite (st_bind_run _ _ _ _ _ Hpop). destruct (path_last f j2 (nd_head n) _ Hanc) as (q & Hl & Hq).
  rewrite (st_bind_run _ _ _ _ _ (check_sync_run n1 _ q Hn1 Hl ltac:(by rewrite (same_parent f)))).
  assert (ancestor f (S j1) new = Some (nd_head n1)) as Hanc1.
  { change (nd_fork_db n) with f in Hanc. rewrite <-(Nat.add_1_r j2), ancestor_add, Hb' in Hanc.
    rewrite <-(Nat.add_1_r j1), ancestor_add, Ha'. cbn in *.
    by rewrite (same_prev_parent f a' b'). }
  destruct (ascends_path f j1 Hwf new (nd_head n1) Hin Hanc1) as [Hasc Hlast].
  destruct (apply_branch_run ne f (nd_head n) (states n) j2 Hv Hc Hwf Hlk Hhd (is_history _ Hn) ltac:(simpl; lia)
    (reverse (path f (S j1) new)) 0 n1) as (n' & r & Hrun & Hr); try done; [lia| |].
  { intros p s (d & Hd & Hp)%elem_of_reverse%path_elem Hs Hu.
    destruct (has_num_alloc f new Hwf Hin) as [mn Hmn]. destruct (has_num_alloc f _ Hwf Hhd) as [mh Hmh].
    destruct (ancestor_num f d new p mn Hwf Hlk Hin Hmn Hp) as [Hpin _].
    destruct (under_ancestor f p s (nd_head n) Hwf Hpin Hs Hu) as [e He].
    eapply (branches_part f new (nd_head n) j1 j2 a' b' d e p mn mh); try done. lia. }
  exists n', r. split; [done|]. destruct r as [u|e].
  - destruct Hr as (Hn' & Hs' & Hh' & Hd). split; [done|]. rewrite Hlast in Hh'. split; [done|]. split; [|done].
    eapply drop_last_eq; [exact Hd|]. simpl. lia.
  - destruct Hr as (_ & bad & (d & _ & Hbad)%elem_of_reverse%path_elem & Hn' & Hh' & Hs' & s & Hbs & Hall).
    split; [done|]. split; [done|]. split; [done|]. by exists d, bad, s.
Qed.

(** C9: on a node in step with its fork database, maybe_switch_forks ends on the head of the fork
    database, in a state that executing the blocks of its chain leads to from the same oldest state;
    or a block of the better fork throws, and then the node has the head, the state and the undo
    history from before, and of the fork database exactly the blocks from the bad one on are gone. *)
Theorem fork_switch_atomic ne s n new :
  (∀ st, st = validated ∨ st = complete ∨ st = s → no_session ne st = false) →
  in_step n → fork_head (nd_fork_db n) = Some new → new ∈ by_prev (nd_fork_db n) → reachable_head n new →
  ∃ n' r, maybe_switch_forks ne s n = (n', r) ∧ switched n new n' r.
Proof.
  intros Hns Hn Hf Hin Hreach. pose proof (is_wf _ Hn) as Hwf.
  destruct (dw_alloc _ Hwf _ Hin) as [t Ht], (dw_alloc _ Hwf _ (is_head _ Hn)) as [h Hh].
  unfold maybe_switch_forks. rewrite st_get_run, Hf. cbn [of_option]. rewrite st_lift_run.
  rewrite (st_bind_run _ _ _ _ _ (in_fork_db_read _ n _ (deref_run _ _ _ Ht))).
  rewrite (st_bind_run _ _ _ _ _ (in_fork_db_read _ n _ (deref_run _ _ _ Hh))).
  case_bool_decide as E.
  { apply extend_head; auto. unfold parent. rewrite Ht. cbn. apply find_id_Some; [done|].
    split; [by apply Hn|]. unfold has_id. by rewrite Hh, E. }
  destruct Hreach as [Hp|[->|(Hnh & Hhn & Hmeet)]].
  - exfalso. apply E. unfold parent in Hp. rewrite Ht in Hp. apply find_id_Some_1 in Hp as [_ Hid].
    unfold has_id in Hid. rewrite Hh in Hid. by injection Hid.
  - simplify_eq. rewrite bool_decide_eq_true_2 by done. by exists n, (Ok tt).
  - rewrite bool_decide_eq_false_2; [apply change_branch; auto|].
    intros Eid. apply (Hnh 0%nat). cbn. f_equal. eapply dw_id_inj; [done|done|by apply Hn|..]; unfold has_id.
    + by rewrite Ht.
    + by rewrite Hh, Eid.
Qed.

End fork_switch.

(** ** A concrete instance *)
#[local] Existing Instances toy_fc toy_fc_hash toy_payload.

(** Executing a block writes its timestamp into the state; the block 3b is bad. *)
Definition toy_execute (s : block_status) (b : signed_block) (h : block_header_state) (c : Z) : Z * result unit :=
  let ts := timestamp (hdr (sb_header b)) in
  if ts =? 5 then (c, Throw block_validate_exception) else (10 * c + ts, Ok tt).
Definition toy_chain_execution : ChainExecution := {|
  chain_state := Z;
  execute_block := toy_execute;
  execute_unapplied := λ _ _ _ _ u, u;
  metadata_signed_id := λ t, Digest t 0 0 0;
|}.
#[local] Existing Instance toy_chain_execution.
Lemma toy_chain_execution_laws : ChainExecutionLaws.
Proof.
  split; [done|]. cbn. unfold toy_execute. intros _ b _ c c' e. destruct (_ =? 5); [|discriminate].
  by intros [= _ <-].
Qed.
#[local] Existing Instance toy_chain_execution_laws.

(** The head is block 3a, of the branch 1 - 2a - 3a; the fork database prefers 1 - 2b - 3b. *)
Definition toy_node_env : node_env := NodeEnv true false (λ s, bool_decide (s = irreversible)).
Definition toy_node : node := Node toy_db 4%nat 124 [12; 1] 3 ∅ ∅.

Lemma toy_parents :
  parent toy_db 0%nat = None ∧ parent toy_db 1%nat = Some 0%nat ∧ parent toy_db 2%nat = Some 0%nat ∧
  parent toy_db 3%nat = Some 2%nat ∧ parent toy_db 4%nat = Some 1%nat.
Proof. split_and!; vm_compute; reflexivity. Qed.

Lemma toy_executes f p q ts c c' :
  db_wf f →
  parent f p = Some q →
  (λ s, (λ b, (timestamp (hdr (sb_header b)), length (block_extensions b))) <$> block s) <$> heap f !! p =
    Some (Some (ts, 0%nat)) →
  ts ≠ 5 → c' = 10 * c + ts → executes f p c c'.
Proof.
  intros Hwf Hp Hb Hts ->. apply fmap_Some in Hb as (s & Hs & Hb). symmetry in Hb.
  apply fmap_Some in Hb as (b & Hb & Ht). injection Ht as Ht He.
  pose proof (parent_indexed _ _ _ Hwf Hp) as Hq. apply (dw_alloc _ Hwf) in Hq as [t Hq].
  exists s, q, t, b. split_and!; try done; [by apply nil_length_inv|].
  cbn. unfold toy_execute. rewrite <-Ht. by destruct (ts =? 5) eqn:E; [apply Z.eqb_eq in E|].
Qed.

Lemma toy_in_step : in_step toy_node.
Proof.
  destruct toy_parents as (P0 & P1 & P2 & P3 & P4). split; cbn [toy_node nd_fork_db nd_head nd_revision nd_reversible].
  - apply run_ops_wf.
  - apply toy_db_linked.
  - assert (by_prev toy_db = [0; 1; 2; 3; 4]%nat) as -> by (vm_compute; reflexivity). by repeat constructor.
  - refine (history_block toy_db 4%nat 1%nat 124 12 [1] P4 _ (history_block toy_db 1%nat 0%nat 12 1 [] P1 _ _)).
    + eapply toy_executes; [apply run_ops_wf|exact P4|vm_compute; reflexivity|done|done].
    + eapply toy_executes; [apply run_ops_wf|exact P1|vm_compute; reflexivity|done|done].
    + constructor.
  - vm_compute. reflexivity.
  - intros k b. by rewrite lookup_empty.
  - intros p q s _ Hs. assert (map_Forall (λ _ s, is_Some (block s)) (heap toy_db)) as H.
    { apply (bool_decide_eq_true_1 (map_Forall (λ _ s, is_Some (block s)) (heap toy_db))). vm_compute. reflexivity. }
    by apply (H p).
Qed.

Lemma toy_no_ancestor f x y z w :
  parent f x = Some y → parent f y = Some z → parent f z = None → x ≠ w → y ≠ w → z ≠ w →
  ∀ i, ancestor f i x ≠ Some w.
Proof.
  intros Hx Hy Hz ? ? ? [|[|[|i]]]; cbn [ancestor]; [congruence|..]; rewrite Hx; cbn; [congruence|..];
    rewrite Hy; cbn; [congruence|]. by rewrite Hz.
Qed.
Lemma toy_meet f x y a b :
  parent f x = Some a → parent f y = Some b → ancestor f 1 x = Some a ∧ ancestor f 1 y = Some b.
Proof. intros Hx Hy. cbn [ancestor]. by rewrite Hx, Hy. Qed.

Lemma fork_switch_atomic_witness :
  ∃ n' e, maybe_switch_forks toy_node_env complete toy_node = (n', Throw e) ∧
    nd_head n' = 4%nat ∧ states n' = [124; 12; 1] ∧ 3%nat ∉ by_prev (nd_fork_db n').
Proof.
  destruct toy_parents as (P0 & P1 & P2 & P3 & P4).
  destruct (fork_switch_atomic toy_node_env complete toy_node 3%nat) as (n' & r & Hrun & Hr).
  - intros st [-> |[-> | ->]]; reflexivity.
  - exact toy_in_step.
  - vm_compute. reflexivity.
  - cbn [toy_node nd_fork_db]. assert (by_prev toy_db = [0; 1; 2; 3; 4]%nat) as -> by (vm_compute; reflexivity). by repeat constructor.
  - right. right. cbn [toy_node nd_fork_db nd_head nd_undo]. split; [|split].
    + exact (toy_no_ancestor toy_db 3%nat 2%nat 0%nat 4%nat P3 P2 P0 ltac:(lia) ltac:(lia) ltac:(lia)).
    + exact (toy_no_ancestor toy_db 4%nat 1%nat 0%nat 3%nat P4 P1 P0 ltac:(lia) ltac:(lia) ltac:(lia)).
    + exists 1%nat, 1%nat, 2%nat, 1%nat. destruct (toy_meet toy_db 3%nat 4%nat 2%nat 1%nat P3 P4) as [Hx Hy].
      split; [exact Hx|]. split; [exact Hy|]. split; [vm_compute; reflexivity|].
      split; [vm_compute; reflexivity|]. simpl. lia.
  - assert (Hex : is_ok (maybe_switch_forks toy_node_env complete toy_node).2 = false) by (vm_compute; reflexivity).
    rewrite Hrun in Hex. destruct r as [u|e]; [discriminate Hex|]. exists n', e. split; [exact Hrun|].
    destruct Hr as (_ & Hh & Hs & i & bad & s & Hb & Hbs & Hall). split; [exact Hh|]. split; [exact Hs|].
    intros Hin. apply Hall in Hin as [Hin Hu].
    exact (Hu (ancestor_under _ _ _ _ _ (is_wf _ toy_in_step) Hin Hb Hbs)).
Defined.
