(* ===== verification/Schedule.v ===== *)
(** * Producer schedules and the permissions of the producers

    Models how controller.cpp changes the set of block producers: set_proposed_producers and
    set_consensus_type (with the checks of wasm_interface.cpp), which propose a schedule; the part of
    start_block that makes a proposed schedule pending and a pending one active; and
    update_producers_authority, which rewrites the permissions of the account of all producers at the
    start of a block.

    Results: start_block never fails on a proposed schedule, and makes it pending only when the block in
    which a call made the proposal is irreversible ([proposed_schedule_promoted]); the three permissions of the producers are satisfied exactly by more
    than two thirds, one half and one third of them ([producers_quorum_exact]); and a change of the
    consensus type is dropped, or drops a schedule that was proposed in the same block
    ([consensus_type_exact]). *)

From S2P Require Import Prelude Names Merkle BlockHeader Resources Authority ChainConfig AuthManager.
From S2P Require Import AccessLists ApplyContext ContractDb NativeContract Genesis.

Section schedule.
Context {FC : Fc} {FH : FcHash} {AC : ActionCodec} {TC : TransactionCodec}.

(** ** Proposing a schedule *)

(** The fields of global_property_object. *)
Record schedule_property := ScheduleProperty {
  proposed_schedule_block_num : option Z;
  proposed_schedule : producer_schedule_type;
}.

(** The schedule that the next one follows. *)
Definition latest_schedule (pbs : block_header_state) : producer_schedule_type :=
  if (length (producers (pending_schedule pbs)) =? 0)%nat then active_schedule pbs else pending_schedule pbs.

(** [pbs] is the state of the pending block, [head_block_num] the number of the block before it. *)
Definition set_proposed_producers (head_block_num : Z) (pbs : block_header_state) (gp : schedule_property)
    (ps : list producer_key) : schedule_property * Z :=
  let cur_block_num := u32 (head_block_num + 1) in
  let propose :=
    let last := latest_schedule pbs in
    if bool_decide (ps = producers last) then (gp, -1)
    else
      let sch := ProducerSchedule (u32 (version last + 1)) (consensus_type last) ps in
      (ScheduleProperty (Some cur_block_num) (shared_schedule_assign sch), version sch) in
  match proposed_schedule_block_num gp with
  | Some n =>
      if negb (n =? cur_block_num) then (gp, -1)
      else if bool_decide (ps = producers (proposed_schedule gp)) then (gp, -1)
      else propose
  | None => propose
  end.

Definition set_consensus_type (head_block_num : Z) (pbs : block_header_state) (gp : schedule_property)
    (type : Z) : schedule_property * Z :=
  let cur_block_num := u32 (head_block_num + 1) in
  if match proposed_schedule_block_num gp with Some n => negb (n =? cur_block_num) | None => false end
  then (gp, -1)
  else
    let last := latest_schedule pbs in
    let sch := ProducerSchedule (u32 (version last + 1)) type (producers last) in
    (ScheduleProperty (Some cur_block_num) (shared_schedule_assign sch), type).

(** privileged_api::set_proposed_producers, on the unpacked producers; [valid] is public_key::valid. *)
Fixpoint check_producers (is_account : account_name → bool) (valid : public_key → bool)
    (ps : list producer_key) : result unit :=
  match ps with
  | [] => mret tt
  | p :: ps =>
      _ ← EOS_ASSERT (is_account (producer_name p)) wasm_execution_error;
      _ ← EOS_ASSERT (valid (block_signing_key_of p)) wasm_execution_error;
      check_producers is_account valid ps
  end.
Definition set_proposed_producers_call (is_account : account_name → bool) (valid : public_key → bool)
    (head_block_num : Z) (pbs : block_header_state) (gp : schedule_property) (ps : list producer_key)
    : result (schedule_property * Z) :=
  _ ← EOS_ASSERT (Z.of_nat (length ps) <=? max_producers) wasm_execution_error;
  _ ← check_producers is_account valid ps;
  _ ← EOS_ASSERT (length ps =? length (remove_dups (producer_name <$> ps)))%nat wasm_execution_error;
  mret (set_proposed_producers head_block_num pbs gp ps).

(** ** start_block *)

(** A proposed schedule whose block is irreversible becomes pending, if there is room for it. *)
Definition promote_proposed (was_pending_promoted : bool) (pbs : block_header_state) (gp : schedule_property)
    : result (block_header_state * schedule_property) :=
  match proposed_schedule_block_num gp with
  | Some n =>
      if (n <=? dpos_irreversible_blocknum pbs) && (length (producers (pending_schedule pbs)) =? 0)%nat &&
         negb was_pending_promoted
      then
        pbs ← set_new_producers pbs (proposed_schedule gp);
        mret (pbs, ScheduleProperty None shared_schedule_clear)
      else mret (pbs, gp)
  | None => mret (pbs, gp)
  end.

(** [changes_state]: speculative reads, or a block that is not just being produced. *)
Definition start_block_schedule (head : block_header_state) (when : block_timestamp) (confirm_block_count : Z)
    (changes_state : bool) (gp : schedule_property) : result (block_header_state * schedule_property) :=
  pbs ← generate_next head when;
  let pbs := set_confirmed pbs confirm_block_count in
  let '(was_pending_promoted, pbs) := maybe_promote_pending pbs in
  if changes_state then promote_proposed was_pending_promoted pbs gp else mret (pbs, gp).

(** ** update_producers_authority *)

(** [operator ==] of authorities. *)
#[global] Instance key_weight_eq_dec : EqDecision key_weight.
Proof. solve_decision. Defined.
#[global] Instance permission_level_weight_eq_dec : EqDecision permission_level_weight.
Proof. solve_decision. Defined.
#[global] Instance wait_weight_eq_dec : EqDecision wait_weight.
Proof. solve_decision. Defined.
#[global] Instance authority_eq_dec : EqDecision authority.
Proof. solve_decision. Defined.

Definition producers_authority (ps : list producer_key) (threshold : Z) : authority :=
  Authority threshold []
    ((λ p, PermissionLevelWeight (PermissionLevel (producer_name p) active_name) 1) <$> ps) [].

Definition update_permission (db : auth_db) (p : permission_object) (auth : authority) : auth_db :=
  if bool_decide (po_auth p = auth) then db
  else with_permissions db
    (<[po_id p := PermissionObject (po_id p) (po_usage_id p) (po_parent p) (po_owner p) (po_name p)
                    (po_last_updated p) auth]> (permission_index db)).

Definition calculate_threshold (num_producers numerator denominator : Z) : Z :=
  u32 (u32 (num_producers * numerator) / denominator + 1).

Definition update_producers_authority (db : auth_db) (ps : list producer_key) : result auth_db :=
  let num_producers := u32 (Z.of_nat (length ps)) in
  let update db name numerator denominator :=
    p ← get_permission db (PermissionLevel producers_account_name name);
    mret (update_permission db p (producers_authority ps (calculate_threshold num_producers numerator denominator))) in
  db ← update db active_name 2 3;
  db ← update db majority_producers_permission_name 1 2;
  update db minority_producers_permission_name 1 3.

(** ** Histories of schedules *)

(** The log of a history: the calls, the numbers of the blocks in which they were made and what they
    returned. *)
Inductive request :=
| AskProducers (ps : list producer_key)
| AskConsensus (type : Z).
Record proposal := Proposal {
  pr_block : Z;
  pr_request : request;
  pr_answer : Z;
}.

(** A call made while [pbs], the state of the pending block, is built on a head with number [num]. *)
Inductive schedule_call (num : Z) (pbs : block_header_state)
    : schedule_property → proposal → schedule_property → Prop :=
| call_producers is_account valid gp ps gp' v :
    set_proposed_producers_call is_account valid num pbs gp ps = Ok (gp', v) →
    schedule_call num pbs gp (Proposal (block_num pbs) (AskProducers ps) v) gp'
| call_consensus gp type gp' v :
    set_consensus_type num pbs gp type = (gp', v) →
    schedule_call num pbs gp (Proposal (block_num pbs) (AskConsensus type) v) gp'.
Inductive schedule_calls (num : Z) (pbs : block_header_state)
    : schedule_property → list proposal → schedule_property → Prop :=
| calls_nil gp : schedule_calls num pbs gp [] gp
| calls_snoc gp l gp1 p gp2 :
    schedule_calls num pbs gp l gp1 → schedule_call num pbs gp1 p gp2 → schedule_calls num pbs gp (l ++ [p]) gp2.

(** The blocks since [s0]: each is started, its transactions make calls, and the state of the new head
    has the number and the schedules of the pending one. *)
Inductive schedule_run (s0 : block_header_state) (gp0 : schedule_property)
    : list proposal → block_header_state → schedule_property → Prop :=
| run_start : schedule_run s0 gp0 [] s0 gp0
| run_block log head when count gp pbs gp1 l gp2 head' :
    schedule_run s0 gp0 log head gp →
    start_block_schedule head when count true gp = Ok (pbs, gp1) →
    schedule_calls (block_num head) pbs gp1 l gp2 →
    block_num head' = block_num pbs →
    active_schedule head' = active_schedule pbs → pending_schedule head' = pending_schedule pbs →
    schedule_run s0 gp0 (log ++ l) head' gp2.

(** The call [p] made the proposal [sch]: it asked for it, and it returned its version or type. *)
Definition granted (p : proposal) (sch : producer_schedule_type) : Prop :=
  match pr_request p with
  | AskProducers ps => producers sch = ps ∧ pr_answer p = version sch
  | AskConsensus type => consensus_type sch = type ∧ pr_answer p = type
  end.

(** A proposal that waits was made by a call of the log in the block that is recorded for it. *)
Definition proposal_logged (log : list proposal) (gp : schedule_property) : Prop :=
  match proposed_schedule_block_num gp with
  | Some n => ∃ p, p ∈ log ∧ pr_block p = n ∧ granted p (proposed_schedule gp)
  | None => True
  end.

(** A proposed schedule has the version after the latest one. *)
Definition proposal_fits (s : block_header_state) (gp : schedule_property) : Prop :=
  match proposed_schedule_block_num gp with
  | Some _ => version (proposed_schedule gp) = u32 (version (latest_schedule s) + 1)
  | None => True
  end.

Lemma set_confirmed_while_schedules k : ∀ s b cc,
  active_schedule (set_confirmed_while s k b cc) = active_schedule s ∧
  pending_schedule (set_confirmed_while s k b cc) = pending_schedule s.
Proof.
  induction k as [|k IH]; intros s b cc; cbn [set_confirmed_while]; [done|].
  destruct (b =? 0); [done|]. destruct (_ =? 0); [done|apply IH].
Qed.
Lemma set_confirmed_schedules s n :
  active_schedule (set_confirmed s n) = active_schedule s ∧ pending_schedule (set_confirmed s n) = pending_schedule s.
Proof. exact (set_confirmed_while_schedules _ (with_header s _) _ _). Qed.

Lemma generate_next_schedules s when s' :
  generate_next s when = Ok s' →
  active_schedule s' = active_schedule s ∧ pending_schedule s' = pending_schedule s.
Proof. unfold generate_next. intros H. inv_ok. by simplify_eq. Qed.
Lemma set_confirmed_num s n : block_num (set_confirmed s n) = block_num s.
Proof. destruct (set_confirmed_shape s n) as (pr & cc & ->). done. Qed.
Lemma generate_next_num s when s' : generate_next s when = Ok s' → block_num s' = u32 (block_num s + 1).
Proof. unfold generate_next. intros H. inv_ok. by simplify_eq. Qed.
Lemma start_block_num s when count gp pbs gp' :
  start_block_schedule s when count true gp = Ok (pbs, gp') → block_num pbs = u32 (block_num s + 1).
Proof.
  unfold start_block_schedule. intros (pbs0 & Hg & H)%bind_ok. rewrite <-(generate_next_num _ _ _ Hg).
  rewrite <-(set_confirmed_num pbs0 count). destruct (maybe_promote_pending _) as [b pbs1] eqn:Em.
  assert (block_num pbs1 = block_num (set_confirmed pbs0 count)) as <-.
  { unfold maybe_promote_pending in Em. destruct (_ && _); by simplify_eq. }
  unfold promote_proposed in H. destruct (proposed_schedule_block_num gp); [|by inv_ok].
  destruct (_ && _); [|by inv_ok]. apply bind_ok in H as (pbs2 & H & [= <- _]). unfold set_new_producers in H. by inv_ok.
Qed.

Lemma latest_same s s' :
  active_schedule s' = active_schedule s → pending_schedule s' = pending_schedule s →
  latest_schedule s' = latest_schedule s.
Proof. unfold latest_schedule. by intros -> ->. Qed.

(** A schedule that becomes active stays the latest one. *)
Lemma promote_pending_latest s b s' :
  maybe_promote_pending s = (b, s') → latest_schedule s' = latest_schedule s.
Proof.
  unfold maybe_promote_pending, latest_schedule. destruct (length (producers (pending_schedule s)) =? 0)%nat eqn:E.
  - cbn. intros [= _ <-]. by rewrite E.
  - cbn. destruct (_ <=? _); intros [= _ <-]; cbn; [done|by rewrite E].
Qed.

Lemma foldl_snoc {A} (l k : list A) : foldl (λ xs x, xs ++ [x]) k l = k ++ l.
Proof. revert k. induction l as [|x l IH]; intros k; cbn; [by rewrite app_nil_r|]. by rewrite IH, <-app_assoc. Qed.
Lemma shared_producers (l : list producer_key) : foldl (λ xs x, xs ++ [x]) [] l = l.
Proof. apply (foldl_snoc l []). Qed.

(** A call changes nothing, or makes the proposal that it asks for. *)
Lemma call_effect num pbs gp p gp' :
  schedule_call num pbs gp p gp' → block_num pbs = u32 (num + 1) →
  gp' = gp ∨ proposed_schedule_block_num gp' = Some (pr_block p) ∧ granted p (proposed_schedule gp') ∧
    version (proposed_schedule gp') = u32 (version (latest_schedule pbs) + 1).
Proof.
  intros [is_account valid gp0 ps gp1 v Hc|gp0 type gp1 v Hc] Hn.
  - unfold set_proposed_producers_call in Hc. inv_ok. rename select (set_proposed_producers _ _ _ _ = _) into Hp.
    unfold set_proposed_producers in Hp. cbv zeta in Hp. rewrite <-Hn in Hp.
    repeat match type of Hp with context [match ?x with _ => _ end] => destruct x; simplify_eq/= end;
      (by left) || (right; split_and!; [done|by split; [apply shared_producers|]|done]).
  - unfold set_consensus_type in Hc. cbv zeta in Hc. rewrite <-Hn in Hc.
    match type of Hc with context [if ?b then _ else _] => destruct b end; simplify_eq; [by left|]. by right.
Qed.
Lemma calls_effect num pbs gp l gp' log :
  schedule_calls num pbs gp l gp' → block_num pbs = u32 (num + 1) →
  proposal_fits pbs gp → proposal_logged log gp →
  proposal_fits pbs gp' ∧ proposal_logged (log ++ l) gp'.
Proof.
  intros Hc Hn Hf Hl. induction Hc as [gp|gp l gp1 p gp2 _ IH Hc]; [by rewrite app_nil_r|].
  destruct (IH Hf Hl) as [Hf1 Hl1]. unfold proposal_logged, proposal_fits in *.
  destruct (call_effect _ _ _ _ _ Hc Hn) as [-> |(E & Hg & Hv)].
  - split; [done|]. destruct (proposed_schedule_block_num gp1); [|done]. destruct Hl1 as (q & Hq & ?).
    exists q. split; [|done]. rewrite app_assoc. by apply elem_of_app; left.
  - rewrite E. split; [done|]. exists p. split; [|done]. rewrite !elem_of_app. right. right. by left.
Qed.

(** Starting a block from a proposal that fits. *)
Lemma start_block_fits s when count gp pbs0 :
  proposal_fits s gp → generate_next s when = Ok pbs0 →
  ∃ pbs gp', start_block_schedule s when count true gp = Ok (pbs, gp') ∧ proposal_fits pbs gp' ∧
    (gp' = gp ∨ ∃ n, proposed_schedule_block_num gp = Some n ∧ n <= dpos_irreversible_blocknum pbs ∧
       pending_schedule pbs = proposed_schedule gp ∧ proposed_schedule_block_num gp' = None ∧
       version (pending_schedule pbs) = u32 (version (active_schedule pbs) + 1)).
Proof.
  intros Hf Hg. unfold start_block_schedule. rewrite Hg. cbn [mbind result_bind].
  destruct (generate_next_schedules _ _ _ Hg) as [Ea Ep], (set_confirmed_schedules pbs0 count) as [Ea' Ep'].
  destruct (maybe_promote_pending (set_confirmed pbs0 count)) as [promoted pbs] eqn:Em.
  apply promote_pending_latest in Em as El.
  rewrite (latest_same s (set_confirmed pbs0 count)) in El by congruence.
  unfold promote_proposed, proposal_fits in *. rewrite <-El in Hf.
  destruct (proposed_schedule_block_num gp) as [n|] eqn:En.
  2: { exists pbs, gp. rewrite En. by split_and!; [| |left]. }
  destruct (_ && _ && _) eqn:Ec.
  2: { exists pbs, gp. rewrite En. by split_and!; [| |left]. }
  reflect_bools. unfold latest_schedule in Hf. rewrite (proj2 (Nat.eqb_eq _ _)) in Hf by done.
  unfold set_new_producers. rewrite Hf, Z.eqb_refl. rewrite (proj2 (Nat.eqb_eq _ _)) by done.
  eexists _, _. split; [reflexivity|]. split; [done|]. right. exists n. by split_and!.
Qed.

Lemma run_fits s0 gp0 log s gp :
  schedule_run s0 gp0 log s gp → proposed_schedule_block_num gp0 = None → proposal_fits s gp ∧ proposal_logged log gp.
Proof.
  intros Hr H0. induction Hr as [|log head when count gp pbs gp1 l gp2 head' _ [Hf Hl] H Hc En Ea Ep].
  { unfold proposal_fits, proposal_logged. by rewrite H0. }
  pose proof H as Hg. unfold start_block_schedule in Hg. apply bind_ok in Hg as (pbs0 & Hg & _).
  destruct (start_block_fits _ _ count _ _ Hf Hg) as (pbs' & gp' & H' & Hf' & Hcase). rewrite H in H'. simplify_eq.
  assert (proposal_logged log gp') as Hl'.
  { destruct Hcase as [-> |(n & _ & _ & _ & E & _)]; [done|]. unfold proposal_logged. by rewrite E. }
  destruct (calls_effect _ _ _ _ _ _ Hc (start_block_num _ _ _ _ _ _ H) Hf' Hl') as [Hf2 Hl2]. split; [|done].
  unfold proposal_fits in *. by rewrite (latest_same pbs').
Qed.

(** C16: since the start of the chain, with any proposals in any blocks, starting a block never fails on
    the proposed schedule: where the header can be generated, start_block returns; and a proposed
    schedule that becomes pending is one that a call of set_proposed_producers or set_consensus_type
    asked for and was granted in a block whose number is now irreversible, and it has the version after
    that of the active schedule. *)
Theorem proposed_schedule_promoted s0 gp0 log s gp when count pbs0 :
  proposed_schedule_block_num gp0 = None → schedule_run s0 gp0 log s gp →
  generate_next s when = Ok pbs0 →
  ∃ pbs gp', start_block_schedule s when count true gp = Ok (pbs, gp') ∧
    (gp' = gp ∨ ∃ p, p ∈ log ∧ pr_block p <= dpos_irreversible_blocknum pbs ∧ granted p (pending_schedule pbs) ∧
       pending_schedule pbs = proposed_schedule gp ∧ proposed_schedule_block_num gp' = None ∧
       version (pending_schedule pbs) = u32 (version (active_schedule pbs) + 1)).
Proof.
  intros H0 Hr Hg. destruct (run_fits _ _ _ _ _ Hr H0) as [Hf Hl].
  destruct (start_block_fits _ _ count _ _ Hf Hg) as (pbs & gp' & Hs & _ & Hcase). exists pbs, gp'. split; [done|].
  destruct Hcase as [-> |(n & En & Hn & Ep & E & Hv)]; [by left|]. right. unfold proposal_logged in Hl. rewrite En in Hl.
  destruct Hl as (p & Hp & <- & Hgr). exists p. rewrite Ep in *. by split_and!.
Qed.

Lemma set_proposed_accepted num pbs gp ps gp' v :
  set_proposed_producers num pbs gp ps = (gp', v) → v ≠ -1 →
  ps ≠ producers (latest_schedule pbs) ∧
  gp' = ScheduleProperty (Some (u32 (num + 1)))
          (shared_schedule_assign (ProducerSchedule (u32 (version (latest_schedule pbs) + 1))
             (consensus_type (latest_schedule pbs)) ps)).
Proof.
  unfold set_proposed_producers. cbv zeta. intros H Hv. destruct (proposed_schedule_block_num gp) as [n|].
  - destruct (negb (n =? u32 (num + 1))); [by simplify_eq|]. case_bool_decide; [by simplify_eq|].
    case_bool_decide; by simplify_eq.
  - case_bool_decide; by simplify_eq.
Qed.

(** what [set_consensus_type] does: while a schedule that was proposed in an earlier block waits, it
    changes nothing and returns -1; otherwise the proposal becomes the latest schedule with the new
    type, also when other producers had just been proposed in the same block, whose proposal is lost. *)
Theorem consensus_type_exact num pbs gp ps gp1 v type :
  set_proposed_producers num pbs gp ps = (gp1, v) → v ≠ -1 →
  (∃ n, proposed_schedule_block_num gp1 = Some n ∧ producers (proposed_schedule gp1) = ps ∧
     ps ≠ producers (latest_schedule pbs) ∧
     ∀ num' pbs', n ≠ u32 (num' + 1) → set_consensus_type num' pbs' gp1 type = (gp1, -1)) ∧
  ∃ gp2, set_consensus_type num pbs gp1 type = (gp2, type) ∧
    consensus_type (proposed_schedule gp2) = type ∧
    producers (proposed_schedule gp2) = producers (latest_schedule pbs).
Proof.
  intros H Hv. destruct (set_proposed_accepted _ _ _ _ _ _ H Hv) as [Hne ->].
  unfold set_consensus_type. cbn. rewrite Z.eqb_refl. cbn. rewrite !shared_producers. split.
  - eexists. split_and!; try done. intros num' pbs' Hn. by rewrite (proj2 (Z.eqb_neq _ _) Hn).
  - eexists. split; [done|]. cbn. by rewrite shared_producers.
Qed.

(** ** The permissions of the producers *)
Definition producer_level (p : producer_key) : permission_level := PermissionLevel (producer_name p) active_name.

(** More than [num] of [den] of the producers satisfy the checker. *)
Definition quorum (c : checker) (delay : Z) (ps : list producer_key) (num den : Z) : Prop :=
  ∃ l, l ⊆+ ps ∧ Forall (λ p, level_sat c delay (producer_level p)) l ∧
    num * Z.of_nat (length ps) < den * Z.of_nat (length l).

Lemma submseteq_fmap_inv {A B} (g : A → B) l k : l ⊆+ g <$> k → ∃ l', l = g <$> l' ∧ l' ⊆+ k.
Proof.
  intros (r & Hr)%submseteq_Permutation. symmetry in Hr. apply Permutation_map_inv in Hr as (k' & Hk & Hp).
  symmetry in Hk. apply fmap_app_inv in Hk as (l' & r' & -> & -> & ->). exists l'. split; [done|].
  rewrite Hp. by apply submseteq_inserts_r.
Qed.

Lemma threshold_exact n num den m :
  0 <= n -> 0 < num → 0 < den → n * num < 2 ^ 31 → calculate_threshold (u32 n) num den <= m ↔ num * n < den * m.
Proof.
  intros Hn Hnum Hden Hb. unfold calculate_threshold. assert (n < 2 ^ 31) by nia.
  rewrite (u32_small n), (u32_small (n * num)) by lia.
  assert (0 <= n * num / den <= n * num) as Hd by (split; [apply Z.div_pos; lia|apply Z.div_le_upper_bound; nia]).
  rewrite u32_small by lia. pose proof (Z.div_mod (n * num) den ltac:(lia)). pose proof (Z.mod_pos_bound (n * num) den Hden).
  split; nia.
Qed.

Definition producer_factor (p : producer_key) : meta_permission := MAccount (PermissionLevelWeight (producer_level p) 1).
Lemma producers_factors ps th : factors (producers_authority ps th) = producer_factor <$> ps.
Proof. unfold factors, producers_authority. cbn. by rewrite <-list_fmap_compose. Qed.
Lemma producers_weight l : meta_sum (producer_factor <$> l) = Z.of_nat (length l).
Proof. induction l as [|p l IH]; [done|]. rewrite fmap_cons. cbn [meta_sum foldr]. fold (meta_sum (producer_factor <$> l)). rewrite IH. cbn. lia. Qed.

Lemma producers_authority_sat c delay ps th :
  authority_sat c delay (producers_authority ps th) ↔
  ∃ l, l ⊆+ ps ∧ Forall (λ p, level_sat c delay (producer_level p)) l ∧ th <= Z.of_nat (length l).
Proof.
  unfold authority_sat. rewrite producers_factors. split.
  - intros (fs & (l & -> & Hl)%submseteq_fmap_inv & Hs & Ht). exists l. rewrite producers_weight in Ht.
    rewrite Forall_fmap in Hs. by split_and!.
  - intros (l & Hl & Hs & Ht). exists (producer_factor <$> l). rewrite producers_weight, Forall_fmap.
    split_and!; try done. by apply fmap_submseteq.
Qed.

Lemma producers_quorum c delay ps num den :
  0 < num → 0 < den → Z.of_nat (length ps) * num < 2 ^ 31 →
  authority_sat c delay (producers_authority ps (calculate_threshold (u32 (Z.of_nat (length ps))) num den)) ↔
  quorum c delay ps num den.
Proof.
  intros Hn Hd Hb. rewrite producers_authority_sat. unfold quorum.
  by setoid_rewrite (threshold_exact (Z.of_nat (length ps)) num den); [|lia..].
Qed.

Lemma update_permission_spec db l p auth :
  permissions_wf db → get_permission db l = Ok p →
  permissions_wf (update_permission db p auth) ∧
  (∃ p', get_permission (update_permission db p auth) l = Ok p' ∧ po_auth p' = auth) ∧
  ∀ l' q, l' ≠ l → get_permission db l' = Ok q → get_permission (update_permission db p auth) l' = Ok q.
Proof.
  intros Hwf Hp. unfold update_permission. case_bool_decide as E; [eauto|].
  destruct (get_permission_row _ _ _ Hwf Hp) as (Hrow & Hid & Ho & Hn).
  set (p' := PermissionObject _ _ _ _ _ _ _).
  assert (permissions_wf (with_permissions db (<[po_id p := p']> (permission_index db)))) as Hwf'
    by exact (modify_permission_wf (po_last_updated p) db p auth Hwf Hrow Hid).
  assert (∀ l1 q id, get_permission db l1 = Ok q → ∀ q', <[po_id p := p']> (permission_index db) !! id = Some q' →
    po_owner q' = actor l1 → po_name q' = permission l1 →
    get_permission (with_permissions db (<[po_id p := p']> (permission_index db))) l1 = Ok q') as Hget.
  { intros l1 q id (Ha & Hpm & _)%get_permission_ok q' Hq' Ho' Hn'. unfold get_permission.
    rewrite (find_by_owner_Some _ _ _ id q' Hwf') by done.
    by rewrite (proj2 (Z.eqb_neq _ _) Ha), (proj2 (Z.eqb_neq _ _) Hpm). }
  split; [done|]. split.
  - exists p'. split; [|done]. eapply (Hget l p (po_id p)); [done|by rewrite lookup_insert_eq|done|done].
  - intros l' q Hne Hq. destruct (get_permission_row _ _ _ Hwf Hq) as (Hqr & _ & Hqo & Hqn).
    eapply (Hget l' q (po_id q)); [done| |done|done]. rewrite lookup_insert_ne; [done|].
    intros Eid. apply Hne. rewrite Eid in Hrow. simplify_eq. destruct l, l'; simpl in *; congruence.
Qed.

(** C15: update_producers_authority gives the account of the producers three permissions that are satisfied
    exactly when more than two thirds, more than one half, and more than one third of the producers of
    the active schedule satisfy their active permissions. *)
Theorem producers_quorum_exact db ps db' :
  permissions_wf db → Z.of_nat (length ps) <= max_producers → update_producers_authority db ps = Ok db' →
  permissions_wf db' ∧
  ∀ name num den,
    (name, num, den) ∈ [(active_name, 2, 3); (majority_producers_permission_name, 1, 2);
                        (minority_producers_permission_name, 1, 3)] →
    ∃ p, get_permission db' (PermissionLevel producers_account_name name) = Ok p ∧
      ∀ c delay, authority_sat c delay (po_auth p) ↔ quorum c delay ps num den.
Proof.
  intros Hwf Hlen H. unfold update_producers_authority in H. cbv zeta in H.
  apply bind_ok in H as (db1 & (p1 & H1 & [= <-])%bind_ok & H).
  destruct (update_permission_spec _ _ _ (producers_authority ps (calculate_threshold (u32 (Z.of_nat (length ps))) 2 3)) Hwf H1)
    as (Hwf1 & (q1 & Hq1 & Ha1) & Hk1).
  apply bind_ok in H as (db2 & (p2 & H2 & [= <-])%bind_ok & (p3 & H3 & [= <-])%bind_ok).
  destruct (update_permission_spec _ _ _ (producers_authority ps (calculate_threshold (u32 (Z.of_nat (length ps))) 1 2)) Hwf1 H2)
    as (Hwf2 & (q2 & Hq2 & Ha2) & Hk2).
  destruct (update_permission_spec _ _ _ (producers_authority ps (calculate_threshold (u32 (Z.of_nat (length ps))) 1 3)) Hwf2 H3)
    as (Hwf3 & (q3 & Hq3 & Ha3) & Hk3).
  apply Hk2 in Hq1; [|done]. apply Hk3 in Hq1; [|done]. apply Hk3 in Hq2; [|done].
  split; [done|]. unfold max_producers in Hlen.
  intros name num den Hin. rewrite !elem_of_cons, elem_of_nil in Hin. destruct Hin as [E|[E|[E|[]]]]; injection E as -> -> ->.
  - exists q1. split; [done|]. intros c delay. rewrite Ha1. apply producers_quorum; lia.
  - exists q2. split; [done|]. intros c delay. rewrite Ha2. apply producers_quorum; lia.
  - exists q3. split; [done|]. intros c delay. rewrite Ha3. apply producers_quorum; lia.
Qed.
End schedule.

(** ** A concrete instance *)
#[local] Existing Instances toy_fc toy_fc_hash toy_key_order toy_native_codec toy_native_laws.
#[local] Existing Instances toy_native_transactions toy_native_sizes toy_native_sizes_laws.
#[local] Existing Instances toy_code_checks toy_system_abi toy_system_abi_laws.

(** Account 1 alone produces.  After block 5 nothing is proposed; the transactions of block 6 propose
    account 4, and when block 7 is started block 6 is irreversible. *)
Definition no_proposal : schedule_property := ScheduleProperty None schedule_default.
Definition toy_proposed : list producer_key := [ProducerKey 4 14].
Definition toy_single : block_header_state := {|
  id := Digest (swap_bytes 5) 0 0 0;
  block_num := 5;
  header := header toy_state;
  dpos_proposed_irreversible_blocknum := 5;
  dpos_irreversible_blocknum := 4;
  bft_irreversible_blocknum := 0;
  pending_schedule_lib_num := 1;
  pending_schedule_hash := digest_zero;
  pending_schedule := ProducerSchedule 0 0 [];
  active_schedule := ProducerSchedule 0 0 [ProducerKey 1 11];
  blockroot_merkle := IncrementalMerkle 1 [digest_zero];
  producer_to_last_produced := {[1 := 5]};
  producer_to_last_implied_irb := {[1 := 4]};
  block_signing_key := 11;
  confirm_count := [];
  confirmations := [];
|}.
Definition toy_block_6 : result (block_header_state * schedule_property * schedule_property * Z) :=
  '(pbs, gp) ← start_block_schedule toy_single 12 0 true no_proposal;
  '(gp', v) ← set_proposed_producers_call (λ _, true) (λ _, true) (block_num toy_single) pbs gp toy_proposed;
  mret (pbs, gp, gp', v).

Lemma proposed_schedule_promoted_witness :
  ∃ pbs gp gp' v, toy_block_6 = Ok (pbs, gp, gp', v) ∧
    ∃ pbs2 gp2 p, start_block_schedule pbs 13 0 true gp' = Ok (pbs2, gp2) ∧
      p ∈ [Proposal (block_num pbs) (AskProducers toy_proposed) v] ∧
      pr_block p <= dpos_irreversible_blocknum pbs2 ∧ granted p (pending_schedule pbs2).
Proof.
  assert (Hok : ('(pbs, gp, gp', v) ← toy_block_6;
    pbs0 ← generate_next pbs 13;
    '(_, gp2) ← start_block_schedule pbs 13 0 true gp';
    mret (proposed_schedule_block_num gp', proposed_schedule_block_num gp2)) = Ok (Some 6, None))
    by (vm_compute; reflexivity).
  destruct toy_block_6 as [[[[pbs gp] gp'] v]|e] eqn:E; [|discriminate Hok]. exists pbs, gp, gp', v. split; [reflexivity|].
  change ((pbs0 ← generate_next pbs 13; '(_, gp2) ← start_block_schedule pbs 13 0 true gp';
    mret (proposed_schedule_block_num gp', proposed_schedule_block_num gp2)) = Ok (Some 6, None)) in Hok.
  apply bind_ok in Hok as (pbs0 & Hg & ([pbs2 gp2] & Hs & Hn)%bind_ok). injection Hn as Hn1 Hn2.
  set (log := [Proposal (block_num pbs) (AskProducers toy_proposed) v]).
  assert (Hrun : schedule_run toy_single no_proposal log pbs gp').
  { unfold toy_block_6 in E. apply bind_ok in E as ([pbs1 gp1] & H1 & ([gp3 v1] & H2 & H)%bind_ok).
    injection H as -> -> -> ->. eapply (run_block _ _ [] toy_single); [apply run_start|exact H1| |reflexivity..].
    apply (calls_snoc _ _ _ [] gp); [apply calls_nil|eapply call_producers, H2]. }
  destruct (proposed_schedule_promoted toy_single no_proposal log pbs gp' 13 0 pbs0 eq_refl Hrun Hg)
    as (pbs3 & gp3 & Hs' & Hcases).
  rewrite Hs in Hs'. injection Hs' as <- <-.
  destruct Hcases as [E2|(p & Hp & Hb & Hgr & _)]; [rewrite E2, Hn1 in Hn2; discriminate Hn2|].
  exists pbs2, gp2, p. split; [exact Hs|]. split; [exact Hp|]. split; [exact Hb|exact Hgr].
Defined.

Lemma consensus_type_exact_witness :
  ∃ gp1 v gp2, set_proposed_producers 5 toy_state no_proposal toy_proposed = (gp1, v) ∧
    set_consensus_type 5 toy_state gp1 2 = (gp2, 2) ∧
    producers (proposed_schedule gp2) = producers (pending_schedule toy_state).
Proof.
  destruct (set_proposed_producers 5 toy_state no_proposal toy_proposed) as [gp1 v] eqn:E. exists gp1, v.
  assert (Hv : (set_proposed_producers 5 toy_state no_proposal toy_proposed).2 = 2) by (vm_compute; reflexivity).
  rewrite E in Hv. cbn in Hv.
  destruct (consensus_type_exact 5 toy_state no_proposal toy_proposed gp1 v 2 E) as (_ & gp2 & H2 & _ & Hp).
  - rewrite Hv. discriminate.
  - exists gp2. split; [reflexivity|]. split; [exact H2|exact Hp].
Defined.

Lemma producers_quorum_exact_witness :
  ∃ db a, initialize_database toy_genesis digest_zero = Ok db ∧
    update_producers_authority (db_auth (chain_tables db)) (producers (toy_schedule 0)) = Ok a ∧
    ∃ p, get_permission a (PermissionLevel producers_account_name active_name) = Ok p ∧
      ∀ c delay, authority_sat c delay (po_auth p) ↔ quorum c delay (producers (toy_schedule 0)) 2 3.
Proof.
  assert (Hok : (db ← initialize_database toy_genesis digest_zero;
    _ ← update_producers_authority (db_auth (chain_tables db)) (producers (toy_schedule 0)); mret tt) = Ok tt)
    by (vm_compute; reflexivity).
  apply bind_ok in Hok as (db & E & (a & Eu & _)%bind_ok). exists db, a. split; [exact E|]. split; [exact Eu|].
  destruct (genesis_spec _ _ _ E) as [[Hwf _] _].
  assert (Hlen : Z.of_nat (length (producers (toy_schedule 0))) <= max_producers) by (vm_compute; discriminate).
  destruct (producers_quorum_exact (db_auth (chain_tables db)) (producers (toy_schedule 0)) a (tw_permissions _ Hwf) Hlen Eu)
    as [_ H].
  apply (H active_name 2 3). apply elem_of_cons. by left.
Defined.
