(* ===== verification/RamLedger.v ===== *)
(** * The RAM of an account

    What the RAM counter of an account is, from genesis on, while the chain executes: native actions,
    every call that a contract makes, receipts, contexts of new actions, delayed and retired
    transactions, billing of bandwidth, the end of a block, and the permissions that a new schedule
    rewrites.  The counter follows the bytes of the objects, rows and tables that the account pays for;
    the exceptions are logged: deferred transactions that were replaced, whose bytes stay billed, and
    the permissions of eonio.prods, which update_producers_authority rewrites without billing. *)

From stdpp Require Import sorting.
From S2P Require Import Prelude Wp Names Merkle BlockHeader ForkDb Resources Authority ChainConfig AuthManager.
From S2P Require Import AccessLists ApplyContext ContractDb NativeContract Genesis TransactionContext.
From S2P Require Import ActionFrame Execution Controller Schedule.

Section ram_ledger.
Context {FC : Fc} {KO : FcKeyOrder} {AC : ActionCodec} {TC : TransactionCodec} {PS : PackSizes}
  {CC : CodeChecks} {SA : SystemAbi} {SF : SoftFloat} {AH : ActionHash}
  {ACL : ActionCodecLaws} {PSL : PackSizesLaws} {SAL : SystemAbiLaws}.
Implicit Types (d : chain_db) (c : contract_state) (p : apply_state).

(** ** The ledger *)

(** What leaves the counters apart from the objects. *)
Inductive ram_event :=
| Replaced (old : generated_transaction)
| Rewritten (growth : Z).
Abbreviation ram_log := (list ram_event).

Definition event_ram (b : account_name) (e : ram_event) : Z :=
  match e with
  | Replaced old => if decide (gt_payer old = b) then generated_bytes old else 0
  | Rewritten growth => if decide (b = producers_account_name) then - growth else 0
  end.
Definition logged (l : ram_log) (b : account_name) : Z := foldr (λ e n, event_ram b e + n) 0 l.

Definition cs_db c : chain_db := st_db (cs_apply c).
(** The bytes of everything that an account pays for. *)
Definition bytes_of c (b : account_name) : Z := footprint (cs_db c) b + rows_bytes c b + tables_bytes c b.
Definition ledger_wf c : Prop := tables_wf (cs_db c) ∧ contract_wf c.
Definition gap c (b : account_name) : Z := ram_of (cs_db c) b - bytes_of c b.

(** ** Steps *)

(** The replaced row of send_deferred. *)
Definition replaced (env : apply_env) (call : host_call) c : ram_log :=
  match call with
  | SendDeferred sender_id _ _ _ =>
      match find_generated (cs_db c) (env_receiver env) sender_id with Some (_, old) => [Replaced old] | None => [] end
  | _ => []
  end.
Definition small_host_call (call : host_call) : Prop :=
  match call with Kv k => small_call k | _ => True end.

(** The calls of the resource limits manager that are made for transactions and blocks. *)
Inductive resource_call : resource_db → resource_db → Prop :=
| UsageUpdated r r' accounts slot : update_account_usage r accounts slot = Ok r' → resource_call r r'
| UsageAdded r r' accounts cpu net slot :
    add_transaction_usage r accounts cpu net slot = Ok r' → resource_call r r'
| BlockFinalized r r' cfg n : finalize_resources r cfg n = Ok r' → resource_call r r'.

Inductive ram_step : contract_state * ram_log → contract_state * ram_log → Prop :=
| ram_native env h c p u l :
    find_apply_handler (env_receiver env) (act_account (env_act env)) (act_name (env_act env)) = Some h →
    h env (cs_apply c) = (p, Ok u) → ram_step (c, l) (set_apply c p, l)
| ram_call env context_free call c c' ans l :
    room c → small_host_call call → host_run env context_free call c = (c', Ok ans) →
    ram_step (c, l) (c', l ++ replaced env call c)
| ram_receipt env c p r l :
    make_receipt env (cs_apply c) = (p, Ok r) → ram_step (c, l) (set_apply c p, l)
| ram_context a c e l : ram_step (c, l) (es_ctx (new_apply_context a (ExecState c e)), l)
| ram_delayed env pack id id_to_sender_id c p s s' u l :
    tx_db s = cs_db c → schedule_transaction env pack id id_to_sender_id s = (s', Ok u) → st_db p = tx_db s' →
    ram_step (c, l) (set_apply c p, l)
| ram_retired id gto c p d l :
    db_generated (cs_db c) !! id = Some gto → remove_scheduled_transaction (cs_db c) id gto = Ok d → st_db p = d →
    ram_step (c, l) (set_apply c p, l)
| ram_resources c p r l :
    resource_call (db_resources (cs_db c)) r → st_db p = with_resources (cs_db c) r →
    ram_step (c, l) (set_apply c p, l)
| ram_schedule ps c p a l :
    ascending (producer_name <$> ps) → ps ≠ [] → Z.of_nat (length ps) <= max_producers →
    update_producers_authority (db_auth (cs_db c)) ps = Ok a → st_db p = with_auth (cs_db c) a →
    ram_step (c, l) (set_apply c p, l ++ [Rewritten (permissions_footprint a producers_account_name -
      permissions_footprint (db_auth (cs_db c)) producers_account_name)]).

(** ** What every step keeps *)

(** [c'] is well-formed, and its counters are [n] further from the bytes than those of [c]. *)
Definition moved (n : account_name → Z) c c' : Prop :=
  ledger_wf c' ∧ ∀ b, gap c' b = gap c b + n b.
Abbreviation still := (moved (λ _, 0)).

Lemma set_apply_moved n c p :
  ledger_wf c → chain_wf (st_db p) →
  (∀ b, ram_of (st_db p) b - footprint (st_db p) b = ram_of (cs_db c) b - footprint (cs_db c) b + n b) →
  moved n c (set_apply c p).
Proof.
  intros [Ht [Hc Hn]] [Ht' Hr] Hb. split.
  - split; [done|]. split; [|done]. destruct Hc. by split.
  - intros b. unfold gap, bytes_of. change (rows_bytes (set_apply c p)) with (rows_bytes c).
    change (tables_bytes (set_apply c p)) with (tables_bytes c). specialize (Hb b).
    unfold cs_db in *. simpl. lia.
Qed.
Lemma ledger_chain c : ledger_wf c → chain_wf (cs_db c).
Proof. intros [? [? _]]. split; [done|]. by eapply ct_range. Qed.
Lemma billed_still c p : ledger_wf c → billed (cs_db c) (st_db p) → still c (set_apply c p).
Proof. intros Hc [Hwf Hb]. apply set_apply_moved; [done..|]. intros b. by rewrite Hb, Z.add_0_r. Qed.
Lemma same_db_still c p : ledger_wf c → st_db p = cs_db c → still c (set_apply c p).
Proof. intros Hc E. apply billed_still; [done|]. rewrite E. split; [by apply ledger_chain|done]. Qed.

(** A change of the resource tables that leaves the RAM counters as they are. *)
Definition same_ram (r r' : resource_db) : Prop := ∀ a, ram_usage <$> usage_index r' !! a = ram_usage <$> usage_index r !! a.
Lemma same_ram_billed d r : chain_wf d → same_ram (db_resources d) r → billed d (with_resources d r).
Proof.
  intros [Hwf Hr] Hs. split.
  - split; [by destruct Hwf|]. intros a u Hu. specialize (Hs a). simpl in Hu. rewrite Hu in Hs.
    destruct (usage_index (db_resources d) !! a) as [v|] eqn:Ev; [|done]. injection Hs as ->. by eapply Hr.
  - intros b. change (footprint (with_resources d r) b) with (footprint d b).
    assert (ram_of (with_resources d r) b = ram_of d b) as ->; [|done].
    unfold ram_of. simpl. specialize (Hs b). destruct (_ !! _), (_ !! _); naive_solver.
Qed.

Lemma same_ram_bill r a u cfg cpu net slot bu :
  usage_index r !! a = Some u → bill_usage cfg u cpu net slot = Ok bu →
  same_ram r (with_usage r (<[a := bu]> (usage_index r))).
Proof.
  intros Hu Hb b. unfold bill_usage in Hb. inv_ok. simpl. destruct (decide (a = b)) as [->|].
  - by rewrite lookup_insert_eq, Hu.
  - by rewrite lookup_insert_ne.
Qed.
Lemma same_ram_update r accounts slot r' : update_account_usage r accounts slot = Ok r' → same_ram r r'.
Proof.
  revert r. induction accounts as [|a l IH]; intros r H; simpl in H; inv_ok; [by intros b|].
  intros b. rewrite (IH _ H b). unfold get_usage in Hrun. inv_ok. by eapply same_ram_bill.
Qed.
Lemma same_ram_bills r accounts cpu net slot r' : bill_accounts r accounts cpu net slot = Ok r' → same_ram r r'.
Proof.
  revert r. induction accounts as [|a l IH]; intros r H; simpl in H; [by injection H as <-|].
  apply bind_ok in H as (r1 & H1 & H). intros b. rewrite (IH _ H b). unfold bill_account, get_usage in H1.
  inv_ok. destruct r2 as [[? ?] ?]. inv_ok. by eapply same_ram_bill.
Qed.
Lemma same_usage_limits fuel r r' : process_limits_while fuel r = Ok r' → usage_index r' = usage_index r.
Proof.
  revert r. induction fuel as [|fuel IH]; intros r H; simpl in H; [done|].
  destruct (head _) as [o|]; [|by injection H as <-]. apply bind_ok in H as (r1 & H1 & H).
  rewrite (IH _ H). unfold process_one_limit in H1. by inv_ok.
Qed.
Lemma resource_call_ram r r' : resource_call r r' → same_ram r r'.
Proof.
  intros [r1 r2 accounts slot H|r1 r2 accounts cpu net slot H|r1 r2 cfg n H].
  - by eapply same_ram_update.
  - unfold add_transaction_usage in H. apply bind_ok in H as (r3 & H3 & H). inv_ok.
    exact (same_ram_bills _ _ _ _ _ _ H3).
  - unfold finalize_resources in H. apply bind_ok in H as (r3 & H3%same_usage_limits & H).
    apply bind_ok in H as (r4 & H4 & H). unfold set_block_parameters in H4. unfold process_block_usage in H.
    inv_ok. intros a. simpl. by rewrite H3.
Qed.

(** *** Transactions *)
Lemma generated_insert d id g r b :
  db_generated d !! id = None →
  footprint (with_resources (with_generated d (<[id := g]> (db_generated d))) r) b =
  footprint d b + if decide (b = gt_payer g) then generated_bytes g else 0.
Proof.
  intros Hid. unfold footprint, generated_footprint. simpl. rewrite msum_insert, Hid. simpl.
  repeat case_decide; subst; try done; lia.
Qed.
Lemma generated_delete d id g r b :
  db_generated d !! id = Some g →
  footprint (with_generated (with_resources d r) (delete id (db_generated d))) b =
  footprint d b - if decide (b = gt_payer g) then generated_bytes g else 0.
Proof.
  intros Hid. unfold footprint, generated_footprint. simpl. rewrite msum_delete_any, Hid. simpl.
  repeat case_decide; subst; try done; lia.
Qed.
Lemma ram_of_exact d a delta r :
  chain_wf d → in_i64 delta → add_pending_ram_usage (db_resources d) a delta = Ok r →
  chain_wf (with_resources d r) ∧
  ∀ b, ram_of (with_resources d r) b = ram_of d b + if decide (b = a) then delta else 0.
Proof.
  intros [[] Hr] Hd H. destruct (add_pending_ram_usage_exact _ _ _ _ Hr Hd H) as (f & -> & Hf & Hb).
  split; [|exact Hb]. split; [by split|exact Hf].
Qed.

Lemma retired_billed d id gto d' :
  chain_wf d → db_generated d !! id = Some gto → remove_scheduled_transaction d id gto = Ok d' → billed d d'.
Proof.
  intros Hwf Hid H. unfold remove_scheduled_transaction in H. apply bind_ok in H as (r & H & [= <-]).
  apply ram_of_exact in H as [[Hwf' Hr'] Hram]; [|done|].
  2: { pose proof (generated_bytes_range gto). unfold generated_bytes, in_i64 in *. lia. }
  split; [split; [by destruct Hwf'|exact Hr']|]. intros b. rewrite (generated_delete _ _ _ _ _ Hid).
  change (ram_of (with_generated _ _) b) with (ram_of (with_resources d r) b). rewrite Hram.
  unfold generated_bytes. case_decide; lia.
Qed.

Lemma net_usage_db env n s : wp (TransactionContext.add_net_usage env n) (λ _ s', tx_db s' = tx_db s) s.
Proof.
  unfold TransactionContext.add_net_usage, check_net_usage, get_ctx. repeat wp_basic; try done.
Qed.
Lemma delayed_billed env pack id id_to_sender_id s :
  chain_wf (tx_db s) →
  wp (schedule_transaction env pack id id_to_sender_id) (λ _ s', billed (tx_db s) (tx_db s')) s.
Proof.
  intros Hwf. unfold schedule_transaction. cbv zeta.
  apply wp_bind, (wp_mono _ (λ _ s1, tx_db s1 = tx_db s)).
  { destruct (_ =? _); [apply net_usage_db|by apply wp_ret]. }
  intros _ s1 E1. unfold get_ctx, get_rl, put_rl. repeat wp_basic. reflect_bools. rewrite E1 in *.
  simpl in *. set (g := GeneratedTransaction _ _ _ _ _ _ _).
  rename select (add_pending_ram_usage _ _ _ = _) into Hram. apply ram_of_exact in Hram as [[Hwf' Hr'] Hram]; [|done|].
  2: { pose proof (generated_bytes_range g). unfold generated_bytes, in_i64 in *. simpl in *. lia. }
  split; [split; [by destruct Hwf'|exact Hr']|]. intros b. rewrite generated_insert by done.
  change (ram_of (with_resources (with_generated _ _) ?r)) with (ram_of (with_resources (tx_db s) r)).
  rewrite Hram. unfold generated_bytes. simpl. case_decide; lia.
Qed.

(** *** The permissions of a new schedule *)
Lemma producers_sorted ps :
  ascending (producer_name <$> ps) →
  StronglySorted (λ x y, level_ltb (plw_permission x) (plw_permission y) = true)
    ((λ q, PermissionLevelWeight (PermissionLevel (producer_name q) active_name) 1) <$> ps).
Proof.
  induction ps as [|q ps IH]; [constructor|]. rewrite !fmap_cons. intros [Hs Hq]%StronglySorted_inv. constructor; [by apply IH|].
  apply Forall_fmap. rewrite Forall_fmap in Hq. eapply Forall_impl; [exact Hq|]. intros x Hx. simpl in *.
  unfold level_ltb. simpl. lia.
Qed.
Lemma producers_stored ps num den :
  ascending (producer_name <$> ps) → ps ≠ [] → Z.of_nat (length ps) <= max_producers →
  0 <= num < den → den <= 3 →
  stored_authority (producers_authority ps (calculate_threshold (u32 (Z.of_nat (length ps))) num den)).
Proof.
  intros Hs Hne Hlen Hn Hd. unfold max_producers in Hlen.
  assert (0 < length ps)%nat by (destruct ps; simpl; [done|lia]).
  assert (calculate_threshold (u32 (Z.of_nat (length ps))) num den = Z.of_nat (length ps) * num / den + 1) as ->.
  { unfold calculate_threshold. rewrite (u32_small (Z.of_nat _)) by lia. rewrite (u32_small (_ * num)) by nia.
    rewrite u32_small; [done|]. pose proof (Z.div_le_upper_bound (Z.of_nat (length ps) * num) den 125).
    pose proof (Z.div_pos (Z.of_nat (length ps) * num) den). nia. }
  set (th := _ / _ + 1).
  assert (0 < th <= Z.of_nat (length ps)) as Hth.
  { unfold th. pose proof (Z.div_pos (Z.of_nat (length ps) * num) den).
    pose proof (Z.div_lt_upper_bound (Z.of_nat (length ps) * num) den (Z.of_nat (length ps))). nia. }
  assert (authority_wf (producers_authority ps th)) as Hwf.
  { split; simpl; [unfold in_u32; lia|]. split_and!; [done| |done]. apply Forall_fmap, Forall_true. by intros. }
  split; [done|]. left. pose proof (validate_total _ Hwf) as Ht. rewrite producers_factors, length_fmap in Ht.
  rewrite producers_weight in Ht. specialize (Ht ltac:(lia)). simpl in Ht.
  unfold validate. simpl. rewrite length_fmap.
  rewrite (proj2 (Z.ltb_ge _ _)), (proj2 (Z.eqb_neq _ _)) by lia.
  rewrite (proj2 (validate_accounts_spec _ _ _) (conj (producers_sorted _ Hs) eq_refl)). simpl.
  unfold validate_waits. simpl. rewrite Ht. lia.
Qed.
(** One of the three updates: the rows of other accounts stay, and no link is touched. *)
Lemma update_permission_tables d l q auth :
  tables_wf d → get_permission (db_auth d) l = Ok q → stored_authority auth →
  tables_wf (with_auth d (update_permission (db_auth d) q auth)) ∧
  permission_link_index (update_permission (db_auth d) q auth) = permission_link_index (db_auth d) ∧
  ∀ b, b ≠ actor l → permissions_footprint (update_permission (db_auth d) q auth) b = permissions_footprint (db_auth d) b.
Proof.
  intros Hwf Hp Ha. destruct (get_permission_row _ _ _ (tw_permissions _ Hwf) Hp) as (Hrow & Hid & Ho & _).
  unfold update_permission. case_bool_decide as E; [by destruct d|]. split_and!; [|done|].
  - exact (modify_permission_tables (po_last_updated q) d q auth Hwf Hrow Hid Ha).
  - intros b Hb. erewrite permissions_footprint_insert by done. rewrite Hrow. simpl.
    rewrite !decide_False by congruence. lia.
Qed.

Lemma producers_updated d ps a :
  chain_wf d → ascending (producer_name <$> ps) → ps ≠ [] → Z.of_nat (length ps) <= max_producers →
  update_producers_authority (db_auth d) ps = Ok a →
  chain_wf (with_auth d a) ∧ permission_link_index a = permission_link_index (db_auth d) ∧
  ∀ b, b ≠ producers_account_name → permissions_footprint a b = permissions_footprint (db_auth d) b.
Proof.
  intros [Hwf Hr] Hs Hne Hl H. unfold update_producers_authority in H. cbv zeta in H.
  apply bind_ok in H as (a1 & (p1 & H1 & [= <-])%bind_ok & H).
  apply bind_ok in H as (a2 & (p2 & H2 & [= <-])%bind_ok & (p3 & H3 & [= <-])%bind_ok).
  destruct (update_permission_tables d _ _ _ Hwf H1 (producers_stored ps 2 3 Hs Hne Hl ltac:(lia) ltac:(lia)))
    as (Hwf1 & El1 & Hf1).
  destruct (update_permission_tables _ _ _ _ Hwf1 H2 (producers_stored ps 1 2 Hs Hne Hl ltac:(lia) ltac:(lia)))
    as (Hwf2 & El2 & Hf2).
  destruct (update_permission_tables _ _ _ _ Hwf2 H3 (producers_stored ps 1 3 Hs Hne Hl ltac:(lia) ltac:(lia)))
    as (Hwf3 & El3 & Hf3).
  split; [split; [exact Hwf3|exact Hr]|]. simpl in *. split; [congruence|].
  intros b Hb. by rewrite Hf3, Hf2, Hf1.
Qed.

(** *** The calls of a contract *)
Definition same_db {A} (m : stM apply_state A) : Prop := ∀ p, wp m (λ _ p', st_db p' = st_db p) p.
Lemma same_db_call {A} (m : stM apply_state A) c : same_db m → ledger_wf c → wp (in_apply m) (λ _, still c) c.
Proof.
  intros Hm Hc. apply wp_in_apply. eapply wp_mono; [apply Hm|]. cbv beta. intros _ p E. by apply same_db_still.
Qed.
Ltac same_steps := intros p; repeat (cbv zeta; unfold get_db, when; wp_basic); try done.
Lemma require_authorization_same env a : same_db (require_authorization env a).
Proof. unfold require_authorization, require_auth. same_steps. Qed.
Lemma require_permission_same env a n : same_db (require_authorization_permission env a n).
Proof. unfold require_authorization_permission, require_auth. same_steps. Qed.
Lemma is_account_same a : same_db (is_account a).
Proof. unfold is_account. same_steps. Qed.
Lemma require_recipient_same a : same_db (require_recipient a).
Proof. unfold require_recipient, has_recipient. same_steps. Qed.
Lemma execute_inline_same env a : same_db (execute_inline env a).
Proof. unfold execute_inline. same_steps. Qed.
Lemma context_free_inline_same a : same_db (execute_context_free_inline a).
Proof. unfold execute_context_free_inline. same_steps. Qed.
Lemma unpack_inline_same env n a (m : action → stM apply_state unit) :
  (∀ x, same_db (m x)) → same_db (x ← unpack_inline env n a; m x).
Proof. intros Hm p. unfold unpack_inline. repeat wp_basic. apply Hm. Qed.

Lemma usage_counters d env payer delta p :
  (∃ r, st_db p = with_resources d r) →
  wp (update_db_usage env payer delta) (λ _ p', ∃ r, st_db p' = with_resources d r) p.
Proof.
  intros Hp. unfold update_db_usage, add_ram_usage, get_db, put_db.
  apply wp_bind, (wp_mono _ (λ _ p', ∃ r, st_db p' = with_resources d r)).
  - unfold when. repeat wp_basic; [|done]. eapply wp_mono; [apply require_authorization_same|]. cbv beta. by intros _ p' ->.
  - intros _ p' [r Hr]. repeat wp_basic. simpl. rewrite Hr. by eexists.
Qed.

(** A call on the tables of a contract changes nothing else but the counters. *)
Lemma table_call_still c c' r :
  ledger_wf c → cs_db c' = with_resources (cs_db c) r → ContractDb.kept c c' → still c c'.
Proof.
  intros [Ht _] E [Hc' Hs]. split.
  - split; [|done]. rewrite E. by destruct Ht.
  - intros b. specialize (Hs b). unfold surplus in Hs. unfold gap, bytes_of.
    assert (footprint (cs_db c') b = footprint (cs_db c) b) as -> by by rewrite E. unfold cs_db in *. lia.
Qed.
Lemma own_resources d : ∃ r, d = with_resources d r.
Proof. exists (db_resources d). by destruct d. Qed.
Lemma kv_run_still env call c : ledger_wf c → room c → small_call call → wp (kv_run env call) (λ _, still c) c.
Proof.
  intros Hc Hroom Hs. apply wp_run. intros c' x H.
  assert (wp (kv_run env call) (λ _ c', ∃ r, st_db (cs_apply c') = with_resources (cs_db c) r) c) as Hk.
  { apply (kv_run_keeps (λ p, ∃ r, st_db p = with_resources (cs_db c) r)); [apply usage_counters|]. apply own_resources. }
  unfold wp in Hk. rewrite H in Hk. destruct Hk as [r E].
  eapply table_call_still; [done|exact E|]. eapply kv_run_kept; [apply Hc|done..].
Qed.
Lemma idx_run_still env k call c : ledger_wf c → room c → wp (idx_run k env call) (λ _, still c) c.
Proof.
  intros Hc Hroom. apply wp_run. intros c' x H.
  assert (wp (idx_run k env call) (λ _ c', ∃ r, st_db (cs_apply c') = with_resources (cs_db c) r) c) as Hk.
  { apply (idx_run_keeps (λ p, ∃ r, st_db p = with_resources (cs_db c) r)); [apply usage_counters|]. apply own_resources. }
  unfold wp in Hk. rewrite H in Hk. destruct Hk as [r E].
  eapply table_call_still; [done|exact E|]. eapply idx_run_kept; [apply Hc|done..].
Qed.

Lemma set_limits_billed account ram net cpu p :
  chain_wf (st_db p) →
  wp (set_resource_limits account ram net cpu) (λ _ p', billed (st_db p) (st_db p')) p.
Proof.
  intros Hwf. unfold set_resource_limits, get_db, put_db, when. repeat wp_basic.
  all: rename select (set_account_limits _ _ _ _ _ = _) into Hset; unfold set_account_limits in Hset; inv_ok; simplify_eq.
  all: by apply same_ram_billed.
Qed.
Lemma set_privileged_billed n b p :
  chain_wf (st_db p) → wp (set_privileged n b) (λ _ p', billed (st_db p) (st_db p')) p.
Proof.
  intros [Hwf Hr]. unfold set_privileged, get_db, put_db. repeat wp_basic.
  rename select (of_option _ _ = _) into H. inv_ok. simpl. split.
  - split; [|exact Hr]. destruct Hwf as [H1 H2 H3 H4 H5 H6]. split; simpl; try done.
    + intros id q Hq Hid. destruct (H3 id q Hq Hid) as [Ho ?]. split; [|done]. by rewrite lookup_insert_is_Some'; right.
    + intros x Hx. apply H4. apply lookup_insert_is_Some' in Hx as [<-|]; [by eexists|done].
    + intros x Hx. apply H5. apply lookup_insert_is_Some' in Hx as [<-|]; [by eexists|done].
    + intros x o [[<- <-]|[_ Ho]]%lookup_insert_Some; [|by eapply H6]. simpl. by eapply H6.
  - intros x. rewrite footprint_accounts, H. change (ram_of (with_accounts _ _) x) with (ram_of (st_db p) x).
    simpl. unfold account_bytes. simpl. case_decide; lia.
Qed.

Lemma deferred_moved env sender_id payer trx replace_existing c p u :
  ledger_wf c → schedule_deferred_transaction env sender_id payer trx replace_existing (cs_apply c) = (p, Ok u) →
  moved (logged (replaced env (SendDeferred sender_id payer (Ok trx) 0) c)) c (set_apply c p).
Proof.
  intros Hc H. pose proof (ledger_chain _ Hc) as [Ht Hr]. pose proof (schedule_deferred_ram _ _ _ _ _ _ _ _ Hr H) as Hram.
  pose proof (schedule_deferred_range _ _ _ _ _ _ _ _ Hr H) as Hr'.
  apply schedule_deferred_stores in H as (s0 & s1 & id & g & Hs0 & <- & Hg & _ & Hid & -> & H).
  rewrite <-Hg in H. change (_ + packed_size _) with (generated_bytes g) in H.
  apply add_ram_usage_exact in H as (f & Hdb & _); [|exact Hr|].
  2: { pose proof (generated_bytes_range g). unfold in_i64. lia. }
  apply set_apply_moved; [done| |].
  - split; [|done]. rewrite Hdb. by destruct Ht.
  - intros b. specialize (Hram b). unfold footprint. unfold replaced, cs_db in *. rewrite Hdb in Hram |- *. simpl in *.
    destruct (find_generated _ _ _) as [[? old]|]; simpl in *; lia.
Qed.

Lemma billed_call {A} (m : stM apply_state A) c :
  ledger_wf c → (∀ p, chain_wf (st_db p) → wp m (λ _ p', billed (st_db p) (st_db p')) p) →
  wp (in_apply m) (λ _, still c) c.
Proof.
  intros Hc Hm. apply wp_in_apply. eapply wp_mono; [apply Hm, ledger_chain, Hc|]. cbv beta. intros _ p Hb.
  by apply billed_still.
Qed.
Lemma wp_then_ret {S A B} (m : stM S A) (f : A → B) (Q : S → Prop) s :
  wp m (λ _, Q) s → wp (x ← m; mret (f x)) (λ _, Q) s.
Proof. intros Hm. apply wp_bind. eapply wp_mono; [exact Hm|]. cbv beta. intros x s' Hq. by apply wp_ret. Qed.

Lemma still_refl c : ledger_wf c → still c c.
Proof. intros Hc. split; [done|]. intros b. lia. Qed.

Lemma host_body_moved env call c :
  ledger_wf c → room c → small_host_call call →
  wp (host_body env call) (λ _, moved (logged (replaced env call c)) c) c.
Proof.
  intros Hc Hroom Hs. destruct call; simpl in Hs; cbn [host_body replaced]; unfold no_answer;
    try apply wp_then_ret.
  - apply same_db_call; [apply require_authorization_same|done].
  - apply same_db_call; [apply require_permission_same|done].
  - by apply wp_ret, still_refl.
  - apply same_db_call; [apply is_account_same|done].
  - apply same_db_call; [apply require_recipient_same|done].
  - apply same_db_call; [apply unpack_inline_same, execute_inline_same|done].
  - apply same_db_call; [apply unpack_inline_same, context_free_inline_same|done].
  - apply wp_in_apply, wp_bind, wp_lift. intros x _. apply wp_run. intros p u H. by eapply (deferred_moved env _ payer x).
  - apply billed_call; [done|]. intros p Hp. apply wp_run. intros p' b H. by eapply cancel_deferred_spec.
  - apply billed_call; [done|]. intros p Hp. by apply set_limits_billed.
  - apply billed_call; [done|]. intros p Hp. by apply set_privileged_billed.
  - by apply kv_run_still.
  - by apply idx_run_still.
  - repeat wp_basic. by apply still_refl.
Qed.

Lemma auth_sequences_steps l m p :
  wp (auth_sequences l m) (λ _ p', rtc chain_step (st_db p) (st_db p')) p.
Proof.
  revert m p. induction l as [|a l IH]; intros m p; simpl; [by apply wp_ret|].
  apply wp_bind, wp_run. intros p1 n H. eapply wp_mono; [apply IH|]. cbv beta. intros _ p' Hp'.
  eapply rtc_l; [by eapply step_auth|done].
Qed.
Lemma receipt_steps env p : wp (make_receipt env) (λ _ p', rtc chain_step (st_db p) (st_db p')) p.
Proof.
  unfold make_receipt. apply wp_bind, wp_run. intros p1 n H1. apply wp_bind, wp_run. intros p2 m H2.
  unfold get_db. repeat wp_basic. eapply wp_mono; [apply auth_sequences_steps|]. cbv beta. intros x p' Hp'. apply wp_ret.
  eapply rtc_l; [by eapply step_global|]. eapply rtc_l; [by eapply step_recv|done].
Qed.

Lemma fresh_rows_wf {A} {RA : Row A} T N (r : rows A) : rows_wf T N r → rows_wf T N (fresh_rows r).
Proof. intros []. split; try done. apply cache_wf_empty. Qed.
Lemma new_context_still a c e : ledger_wf c → still c (es_ctx (new_apply_context a (ExecState c e))).
Proof.
  intros [Ht [[Hr Hf Hu Hct [Hkv Hidx] Hv] Hn]]. split; [split; [done|]|].
  - split; [|done]. split; try done. split; [by apply fresh_rows_wf|].
    intros []; apply fresh_rows_wf; [apply (Hidx Idx64)|apply (Hidx Idx128)|
      apply (Hidx Idx256)|apply (Hidx IdxDouble)|apply (Hidx IdxLongDouble)].
  - intros b. rewrite Z.add_0_r. done.
Qed.

Lemma logged_app l l' b : logged (l ++ l') b = logged l b + logged l' b.
Proof. induction l as [|e l IH]; simpl; [done|]. fold (logged (l ++ l') b) (logged l b). lia. Qed.

(** A step moves the gap by what it logs. *)
Lemma ram_step_moved c l c' l' :
  ram_step (c, l) (c', l') → ledger_wf c → ∃ e, l' = l ++ e ∧ moved (logged e) c c'.
Proof.
  intros H Hc. pose proof (ledger_chain _ Hc) as Hwf. inversion H; subst.
  all: try (exists []; rewrite app_nil_r; split; [done|]).
  - by eapply billed_still, handler_spec.
  - eexists. split; [done|]. rename select (host_run _ _ _ _ = _) into Hrun. unfold host_run in Hrun. inv_st.
    pose proof (host_body_moved env call c Hc) as Hm. rewrite wp_run in Hm. eauto.
  - apply billed_still; [done|]. pose proof (receipt_steps env (cs_apply c)) as Hs. rewrite wp_run in Hs.
    eapply chain_steps_billed; [by eapply Hs|done].
  - exact (new_context_still a c [] Hc).
  - apply billed_still; [done|]. rename select (tx_db _ = _) into E. rewrite <-E in Hwf |- *.
    pose proof (delayed_billed env pack id id_to_sender_id s Hwf) as Hd. rewrite wp_run in Hd.
    rename select (st_db _ = _) into Ep. rewrite Ep. eauto.
  - apply billed_still; [done|]. by eapply retired_billed.
  - apply billed_still; [done|]. rename select (st_db _ = _) into Ep. rewrite Ep.
    by apply same_ram_billed, resource_call_ram.
  - eexists. split; [done|]. rename select (update_producers_authority _ _ = _) into Hu.
    destruct (producers_updated _ _ _ Hwf ltac:(eassumption) ltac:(eassumption) ltac:(eassumption) Hu) as (Hwf' & El & Hf).
    rename select (st_db _ = _) into Ep. apply set_apply_moved; [done|by rewrite Ep|].
    intros b. rewrite Ep, footprint_auth by done. change (ram_of (with_auth _ _) b) with (ram_of (cs_db c) b). simpl.
    case_decide as Eb; [subst; lia|]. rewrite Hf by done. lia.
Qed.

Lemma ram_steps_moved x y :
  rtc ram_step x y → ledger_wf x.1 → ledger_wf y.1 ∧ ∀ b, gap y.1 b = gap x.1 b + logged y.2 b - logged x.2 b.
Proof.
  induction 1 as [x|[c l] [c1 l1] y H1 _ IH]; intros Hc; [split; [done|]; lia|].
  apply ram_step_moved in H1 as (e & -> & Hc1 & Hg); [|done]. destruct (IH Hc1) as [Hwf Hb]. split; [done|].
  intros b. rewrite Hb. simpl. rewrite Hg, logged_app. lia.
Qed.

(** Tables with fewer rows than a counter can count. *)
Definition few c : bool :=
  Z.of_nat (size (r_rows (cs_kv c))) + sum_kinds (λ k, Z.of_nat (size (r_rows (cs_index c k)))) + 1 <? 2 ^ 32.
Lemma table_rows_size {A} {RA : Row A} (r : rows A) tid : table_rows r tid <= Z.of_nat (size (r_rows r)).
Proof.
  unfold table_rows. induction (r_rows r) as [|k a m Hk IH] using map_ind; [done|].
  rewrite msum_insert_None, map_size_insert_None by done. case_decide; lia.
Qed.
Lemma few_room c : few c = true → room c.
Proof.
  intros Hf%Z.ltb_lt tid. unfold total_rows, sum_kinds in *. pose proof (table_rows_size (cs_kv c) tid).
  pose proof (λ k, table_rows_size (cs_index c k) tid) as Hk.
  pose proof (Hk Idx64). pose proof (Hk Idx128). pose proof (Hk Idx256). pose proof (Hk IdxDouble).
  pose proof (Hk IdxLongDouble). lia.
Qed.

(** The contract tables of a new chain. *)
Definition no_contracts (p : apply_state) : contract_state :=
  ContractState p ∅ 0 no_rows no_rows no_rows no_rows no_rows no_rows.
Lemma no_contracts_wf p : chain_wf (st_db p) → ledger_wf (no_contracts p) ∧ ∀ b, bytes_of (no_contracts p) b = footprint (st_db p) b.
Proof.
  intros [Ht Hr]. split.
  - split; [done|]. split; [|intros tid t Hti; by simplify_map_eq]. split; simpl; try done.
    split; [apply no_rows_wf|]. intros []; apply no_rows_wf.
  - intros b. unfold bytes_of, rows_bytes, tables_bytes, sum_kinds, row_bytes. simpl. rewrite !msum_empty. unfold cs_db. simpl. lia.
Qed.

(** C5: Along every run from genesis, the RAM counter of each account is the size of the objects it
    pays for (account, code, ABI, permissions, links, deferred transactions) and of the rows and tables
    of contracts it pays for, with three exceptions: genesis does not bill the ABI of eonio and two
    permissions of eonio.prods; a deferred transaction that was replaced stays billed to its payer,
    for every replacement; and the permissions of eonio.prods grow and shrink with the schedules
    without being billed.  A run consists of the steps of [ram_step] that succeed: native actions, calls of
    contracts ([host_call]) while the 32-bit counters of tables have room for one more row, receipts, new
    contexts, delayed transactions, retired transactions, the billing of transactions and blocks, and
    schedules in the order of their names, such as the system contract proposes. *)
Theorem reachable_ram_exact g h db p c l b :
  initialize_database g h = Ok db → st_db p = chain_tables db →
  rtc ram_step (no_contracts p, []) (c, l) → b ≠ 0 →
  ram_of (cs_db c) b = bytes_of c b - unbilled b + logged l b.
Proof.
  intros [Hwf Hl]%genesis_spec E Hs Hb. destruct (no_contracts_wf p) as [Hp Hby]; [by rewrite E|].
  destruct (ram_steps_moved _ _ Hs Hp) as [_ Hg]. specialize (Hg b). specialize (Hl b Hb). rewrite <-E in Hl.
  unfold gap in Hg. simpl in Hg. rewrite Hby in Hg. change (cs_db (no_contracts p)) with (st_db p) in Hg. lia.
Qed.

End ram_ledger.

(** ** A concrete run *)
#[local] Existing Instances toy_fc toy_key_order toy_native_codec toy_native_laws toy_native_transactions.
#[local] Existing Instances toy_native_sizes toy_native_sizes_laws toy_code_checks toy_soft_float toy_system_abi.
#[local] Existing Instances toy_system_abi_laws toy_action_hash.

(** eonio sends a deferred transaction, replaces it, and stores a row of two bytes; then a schedule of
    one producer becomes active. *)
Definition toy_ledger_env : apply_env := toy_native_env system_account_name 5 (ToySetAbi system_account_name).
Definition toy_ledger_trx : list action :=
  [Action system_account_name 5 [PermissionLevel system_account_name active_name] (ToySetAbi system_account_name)].
Definition toy_ledger_calls : list host_call :=
  [SendDeferred 7 system_account_name (Ok toy_ledger_trx) 1; SendDeferred 7 system_account_name (Ok toy_ledger_trx) 1;
   Kv (Store 3 4 system_account_name 9 [65; 66])].
Fixpoint toy_calls (l : list host_call) (x : contract_state * list ram_event) : result (contract_state * list ram_event) :=
  match l with
  | [] => mret x
  | call :: l =>
      _ ← EOS_ASSERT (few x.1) db_uniqueness_violation;
      let '(c', r) := host_run toy_ledger_env false call x.1 in
      _ ← r;
      toy_calls l (c', x.2 ++ replaced toy_ledger_env call x.1)
  end.
Lemma toy_calls_steps l x y : Forall small_host_call l → toy_calls l x = Ok y → rtc ram_step x y.
Proof.
  intros Hl. revert x. induction Hl as [|call l Hc _ IH]; intros [c lg] H; simpl in H; [by injection H as ->|].
  apply bind_ok in H as (u & Hf & H). destruct (host_run _ _ _ _) as [c' [ans|e]] eqn:E; [|discriminate H].
  apply assert_ok in Hf. simpl in H. eapply rtc_l; [|by apply IH].
  eapply ram_call; [by apply few_room|done|exact E].
Qed.
Definition toy_ledger_producers : list producer_key := [ProducerKey alice 6; ProducerKey system_account_name 7].
Definition toy_ledger_run (d : chain_db) : result (contract_state * list ram_event * auth_db) :=
  x ← toy_calls toy_ledger_calls (no_contracts (toy_native_state d), []);
  a ← update_producers_authority (db_auth (cs_db x.1)) toy_ledger_producers;
  mret (x, a).
Definition toy_growth (c : contract_state) (a : auth_db) : Z :=
  permissions_footprint a producers_account_name - permissions_footprint (db_auth (cs_db c)) producers_account_name.
Definition toy_scheduled (c : contract_state) (a : auth_db) : contract_state :=
  set_apply c (toy_native_state (with_auth (cs_db c) a)).

Lemma toy_ledger_steps d c l a :
  toy_ledger_run d = Ok (c, l, a) →
  rtc ram_step (no_contracts (toy_native_state d), []) (toy_scheduled c a, l ++ [Rewritten (toy_growth c a)]).
Proof.
  unfold toy_ledger_run. intros (x & Hx & (a1 & Ha & [= -> ->])%bind_ok)%bind_ok.
  apply toy_calls_steps in Hx; [|repeat constructor].
  eapply rtc_r; [exact Hx|]. apply (ram_schedule toy_ledger_producers); try done.
  repeat constructor.
Qed.

Lemma toy_ledger_ok :
  ∃ db c l a, initialize_database toy_genesis digest_zero = Ok db ∧ toy_ledger_run (chain_tables db) = Ok (c, l, a) ∧
    logged (l ++ [Rewritten (toy_growth c a)]) system_account_name = 372 ∧
    logged (l ++ [Rewritten (toy_growth c a)]) producers_account_name = -96.
Proof.
  assert (E : (db ← initialize_database toy_genesis digest_zero; '(c, l, a) ← toy_ledger_run (chain_tables db);
     mret (logged (l ++ [Rewritten (toy_growth c a)]) system_account_name,
           logged (l ++ [Rewritten (toy_growth c a)]) producers_account_name)) = Ok (372, -96))
    by (vm_compute; reflexivity).
  apply bind_ok in E as (db & Hdb & E). apply bind_ok in E as ([[c l] a] & Hr & E).
  exists db, c, l, a. split; [exact Hdb|]. split; [exact Hr|]. injection E as -> ->. by split.
Qed.

Lemma reachable_ram_exact_witness :
  ∃ db c l, initialize_database toy_genesis digest_zero = Ok db ∧
    rtc ram_step (no_contracts (toy_native_state (chain_tables db)), []) (c, l) ∧
    ram_of (cs_db c) system_account_name = bytes_of c system_account_name - 3 + 372 ∧
    ram_of (cs_db c) producers_account_name = bytes_of c producers_account_name - 640 - 96.
Proof.
  destruct toy_ledger_ok as (db & c & l & a & Hdb & Hr & Hs & Hp). apply toy_ledger_steps in Hr.
  exists db, (toy_scheduled c a), (l ++ [Rewritten (toy_growth c a)]). split; [exact Hdb|]. split; [exact Hr|].
  rewrite (reachable_ram_exact _ _ db (toy_native_state (chain_tables db)) _ _ system_account_name Hdb eq_refl Hr), Hs by discriminate.
  rewrite (reachable_ram_exact _ _ db (toy_native_state (chain_tables db)) _ _ producers_account_name Hdb eq_refl Hr), Hp by discriminate.
  split; reflexivity.
Defined.
